(* ===== verification/_CoqProject ===== *)
-Q . S2P
Prelude.v
Calendar.v
Cron.v
RestartPolicy.v
Lifecycle.v
Primitives.v
StoreApi.v
LocalStore.v
LocalStoreSafety.v
Cursors.v
Dispatch.v
DispatchFacts.v
DispatchSafety.v
ChainLog.v
ChainLogSafety.v
Tasks.v
EventLoop.v
Schedule.v
HostStore.v
Keeper.v
Policy.v
Admission.v
Sources.v
IpAddr.v
HttpGate.v
Logs.v
LogGate.v
StoreFormat.v
BlockSource.v
Toml.v
World.v
Manifest.v
Config.v
EnvSubst.v
MockStore.v
ChainHost.v
GuestStore.v
HostGlue.v
GuestConfig.v
GuestModules.v
Errors.v
AddOns.v
Launch.v
LaunchSafety.v
Float64.v
TokenBucket.v
RunStore.v
Adapter.v
GuestTracing.v
StateDouble.v
ModuleMacro.v
SdkChain.v
FakeNode.v
ManifestBuilder.v
Fixtures.v
Scenario.v
Guards.v
Signal.v
MockRpc.v
SdkHandles.v
MockHost.v
Executor.v
ModuleEntry.v
