(* ===== verification/Prelude.v ===== *)
(** * Verification of nexum-runtime

    nexum-runtime runs untrusted WASM modules on triggers: blocks, chain logs,
    schedules and extension deliveries.  An operator configures chains, policy
    and modules; boot admits the modules; source tasks feed one event loop; the
    loop hands each trigger to the supervisor, which enters the guests, counts
    their failures, restarts or quarantines them, and commits resume cursors to
    the local store.  Modules use the SDK's store helpers and keeper on top of
    that store.  The development models these parts as executable Gallina and
    proves what each promises.  Paths below are under src/crates/.

    ** Files

    - [Prelude]: machine integers, results, text and byte operations of the Rust
      standard library, ordered listings, decimal and little-endian codecs, and
      the lemmas the other files share.
    - [Calendar], [Cron]: nexum-runtime-manifest/src/cron.rs, the civil calendar,
      the expression parser and [CronSchedule::next_after].
    - [RestartPolicy], [Lifecycle]: runtime/restart_policy.rs,
      supervisor/lifecycle.rs and nexum-runtime-config/src/poison_policy.rs of
      nexum-runtime-supervisor: backoff, [Health], the trap window.
    - [Primitives]: nexum-primitives/src: module names, host patterns, interface
      ids, digests, one Module each.
    - [StoreApi], [LocalStore], [LocalStoreSafety]: nexum-runtime-api/src/state.rs
      and nexum-runtime-store/src/local_store_redb.rs over an ordered table with
      transaction faults (class [OrderedTable]); [StateStore] is the contract the
      supervisor uses and [LocalStoreSafety] discharges.
    - [Cursors]: supervisor/cursors.rs over [StateStore].
    - [Dispatch], [DispatchFacts], [DispatchSafety]: supervisor/dispatch.rs,
      delivery.rs, health.rs and the state of mod.rs, in a state monad over
      [Supervisor]; guests, clocks and fuel are the class [World], the rate bucket
      is [RateLimiter].  A run is a list of operations ([run_sups]).
    - [ChainLog], [ChainLogSafety]: the chain-log half of runtime/event_loop.rs, a
      step relation over a node that may answer anything (class [Pool]).
    - [Tasks]: nexum-tasks/src: [TaskSet], and in Module [Drain] the manager,
      guards and bounded drain as a step relation.
    - [EventLoop]: [run] of runtime/event_loop.rs over the class [Feeds] (streams,
      task outcomes, signal), composed from [Dispatch] and [Tasks].
    - [Schedule]: runtime/schedule.rs over the class [Clocks], using [Cron].
    - [HostStore], [Keeper]: nexum-sdk/src/host.rs, store.rs and keeper.rs, in an
      error monad over a host store whose calls may fault (classes [KvHost],
      [LocalStoreHost] and their laws).
    - [Policy], [Admission]: nexum-runtime-config/src/policy.rs, supervisor/store.rs,
      and the boot path (capabilities.rs, prepass.rs, artifact.rs, admission.rs,
      load.rs, mod.rs) with a trace of what was read, compiled and run.
    - [Sources]: supervisor/sources.rs, what the launch path opens.
    - [BlockSource]: the block half of runtime/event_loop.rs, steps over a node that
      may answer anything, and the opening of both fleets of tasks with their labels.
    - [IpAddr], [HttpGate]: the addresses of the standard library and
      nexum-runtime-http/src/http.rs with limits: allowlists, prohibited ranges,
      host pinning, clamped options, the capped body.
    - [Logs], [LogGate]: nexum-runtime-logs/src: records and their cost, the
      in-memory store; bounds, filter, routing and the stdio line capture.
    - [StoreFormat]: nexum-runtime-store/src/format.rs, the version stamp and the
      migrations over a database file whose every call may fail.
    - [Toml], [World], [Manifest]: TOML values and the reads serde makes of them;
      nexum-world/src/lib.rs, which derives a module's WIT world at build time; and
      nexum-runtime-manifest/src/types.rs and load.rs, which load the same manifest
      at run time.
    - [Config], [EnvSubst]: nexum-runtime-config/src: limits, chains, policy and
      module entries with every refusal and default; load.rs with its placeholder
      scanner.
    - [ChainHost], [GuestStore], [HostGlue]: what a guest calls. The provider pool
      (nexum-runtime-chain/src/provider_pool.rs) and the chain, local-store and
      logging interfaces of nexum-runtime-wasm/src (impls, error.rs, limits.rs);
      [GuestStore] composes [LocalStore] with the host laws of [HostStore].
    - [GuestConfig], [GuestModules]: nexum-sdk/src/config.rs and address.rs, and the
      example modules of modules/examples over the host classes.
    - [MockStore]: nexum-sdk-test/src/local_store.rs, the store doubles module
      authors test against, as instances of the host laws of [HostStore].
    - [Errors], [AddOns], [Launch], [LaunchSafety]: the error kinds of
      nexum-runtime-supervisor/src/error.rs; nexum-runtime/src/addons.rs; builder.rs,
      the presets and slot builders and nexum-launch: the launch in a writer monad
      that records what was installed, compiled, run, counted and spawned, and [run]
      with its subcommands.
    - [Float64], [TokenBucket]: binary64 arithmetic on the Standard Library's
      [SpecFloat], and the limiter of nexum-runtime-config/src/dispatch_rate.rs
      computed in it, an instance of [RateLimiter].
    - [RunStore]: supervisor/store.rs and the restart of lifecycle.rs: the store of a
      run composed of the limiter, the log gate, the HTTP gate, the quota and the
      chain cap, host calls on it, restarts.
    - [Adapter], [GuestTracing], [SdkChain]: the guest side of the boundary:
      nexum-sdk/src/wit_bindgen_macro.rs, tracing.rs and chain/transport.rs, with the
      captures and the chain mock of nexum-sdk-test.
    - [ModuleMacro]: nexum-module-macros/src/lib.rs, what the attribute accepts and
      what it emits, over [World].
    - [StateDouble], [FakeNode], [MockRpc], [ManifestBuilder]: the doubles and builders
      of nexum-runtime-testing: the state store, the RPC node with the manual clock, the
      scripted RPC double, the manifest builder.
    - [SdkHandles], [MockHost]: the handles of nexum-sdk (store, journals, the owned
      fetch) over a lawful host, and nexum-sdk-test/src/host.rs, which composes the
      mocks of every seam into such a host.
    - [Signal], [Executor]: nexum-tasks/src: awaiting the latched shutdown signal, and
      the graceful and critical tasks behind the books that [Tasks] keeps.
    - [Fixtures], [ModuleEntry]: modules/fixtures and the example module, put under the
      supervisor and the log gate; the entry points of modules/examples.
    - [Scenario]: nexum-runtime-supervisor/src/test_utils/scenario.rs and
      nexum-runtime/src/test_utils/harness.rs, the two ways a test boots a runtime,
      composed from [Launch] and [Admission].
    - [Guards]: the source-tree guards and the artifact locators of the tests.

    ** What the theorems show

    Admission: nothing runs that was not pinned, declared and granted, and a boot
    that succeeds is coherent.  Sources: the plan is the live modules' triggers;
    re-opened chain-log sources leave no gap, and the bulk phase terminates and
    tiles it; schedules tick fire times once and in order.  Event loop: it refines
    sequences of supervisor operations and returns only for the cause it names.
    Supervisor: it refines the lifecycle, never enters a quarantined module,
    accounts for every delivery, and moves cursors exactly on acceptance.  Store:
    quotas hold over any calls and faults, writes are all or nothing, namespaces
    are isolated, paging is complete.  Cursors refine one cell a trigger.  Keeper:
    effects run reserved and at most once, the reconcile listing agrees with the
    markers.  Tasks: no join is lost and no drain sleeps through the last release.
    HTTP: only judged requests leave, once, and a body never exceeds its cap.  Logs:
    the ring store refines full histories, records fit the operator's cap, capture
    does not depend on chunking.  Store format: opening is all or nothing and
    upgrades do not depend on the releases in between.  Block source: blocks are
    relayed once and in order, pauses follow the backoff.  World, manifest and
    configuration: the synthesized world imports exactly what is declared and is
    admitted at load; build and runtime read one manifest alike; what the loaders
    accept is well formed; substitution is the declarative expansion.  Test doubles:
    they keep the host laws, and a trap leaves exactly a prefix of a batch.  Guest
    interfaces: the engine's store as a guest sees it is a lawful host of the SDK, so
    the SDK's theorems hold over it; a chain request stays in the read surface, its
    answer within the cap and its failures in a fixed vocabulary; log records carry
    the run's own identity.  Modules: settings are read exactly, balances are
    visited, compared and stored one by one, alerts fire exactly on a crossing.
    Launch: phases run in order, refusals are counted once, and what is launched pumps
    exactly the live modules' triggers.  Run stores: over any calls and restarts a
    module stays within the operator's policy, and a restart replaces the run only.
    Rate: levels stay within capacity, whole seconds are exact, the sustained rate is
    bounded.  Boundary: stores, faults and logs cross unchanged; a guest's provider
    makes permitted round trips only and reads what the node answered.  Macro: every
    handler is dispatched, a build fails exactly on a topic mismatch, what is built is
    admitted.  Runtime doubles: the state double answers as redb, the node only grows
    and never sleeps on a head, a built manifest loads as declared, every request of the
    scripted double is captured.  Handles: batches land as staged and journals are
    apart, on the composed mock host too, whose seams do not disturb each other.
    Executor: a shutdown is never missed, a drain counts exactly the guards that are
    held, the end of a critical task is heard of once.  Fixtures: a module that traps a
    bounded number of times recovers under the supervisor, a flooding one is held to its
    burst; an example module runs on the settings its [init] accepted.  Harness: its two
    terminals boot the same configuration, and a wait for a log record never sleeps on
    one that is there.

    ** Fuel

    Loops without a structural measure take fuel, and a theorem says how much is
    enough: [next_after] searches [SEARCH_DAYS + 1] days, one Gregorian cycle,
    within which every validated expression fires; [backfill] needs
    [5 * (handoff - from) + 5] rounds, five attempts a block; the paged walks and
    [pending] need one page more than there are entries; [grace_loop] is run with
    one round more than there are tasks, each round but the last removing one;
    [decimal] prints 20 digits, enough for a [u64]; [substitute_env_vars] takes the
    document's length, each step consuming a byte.  [run] is an endless loop: its
    theorems hold for any number of iterations.

    ** Not modelled

    The wasmtime bindings and WASI views, the metric exporters and the metric and tracing
    captures of the tests, argument parsing and the tracing subscriber are wiring around
    third-party crates; plain and blocking spawns are calls to tokio.  The TOML parser and
    the serde shape of engine.toml are parameters.  wasmtime, alloy with its mock
    transport, the WASI client, syn, redb, keccak, sha256 and borsh are third-party:
    parameters or classes with the laws the code relies on, each with an instance that
    satisfies them.  Log lines and error texts are left out, and with them the tests'
    assertions on the text of a refusal; so are symbolic links in the walk of a source
    tree.  Metrics appear where a theorem reads them. *)

From stdpp Require Import base list list_numbers strings gmap numbers sorting.
From Stdlib Require Import ZArith Lia.

(** ** Scopes and notations *)

Declare Scope rust_scope.
Delimit Scope rust_scope with rust.
#[global] Open Scope Z_scope.

(** ** Automation *)

(** Linear arithmetic with division and remainder by constants. *)
Ltac div_lia := Z.to_euclidean_division_equations; lia.

(** ** Machine integers

    A Rust [u32], [u64] or [usize] is a [Z] in range.  The target of the
    engine is 64-bit, so [usize] is [u64]. *)

Definition u8_max : Z := 2 ^ 8 - 1.
Definition u32_max : Z := 2 ^ 32 - 1.
Definition u64_max : Z := 2 ^ 64 - 1.

Definition is_u8 (x : Z) : Prop := 0 <= x <= u8_max.
Definition is_u32 (x : Z) : Prop := 0 <= x <= u32_max.
Definition is_u64 (x : Z) : Prop := 0 <= x <= u64_max.

(** [checked_add], [checked_mul]: [None] on overflow. *)
Definition u64_checked (x : Z) : option Z :=
  if (0 <=? x) && (x <=? u64_max) then Some x else None.

(** [saturating_add], [saturating_mul]: clamped at the type's maximum. *)
Definition u32_sat (x : Z) : Z := Z.min x u32_max.
Definition u64_sat (x : Z) : Z := Z.min x u64_max.

(** [saturating_sub] on an unsigned type: clamped at zero. *)
Definition sat_sub (x y : Z) : Z := Z.max 0 (x - y).

(** [wrapping_add], [wrapping_mul]. *)
Definition u64_wrap (x : Z) : Z := x mod 2 ^ 64.

Notation "x '+?' y" := (u64_checked (x + y)) (at level 50, left associativity) : rust_scope.
Notation "x '*?' y" := (u64_checked (x * y)) (at level 40, left associativity) : rust_scope.
Notation "x '+|' y" := (u64_sat (x + y)) (at level 50, left associativity) : rust_scope.
Notation "x '-|' y" := (sat_sub x y) (at level 50, left associativity) : rust_scope.

(** ** Fallible code *)

Inductive result (A E : Type) : Type :=
| Ok (a : A)
| Err (e : E).
Arguments Ok {A E} a.
Arguments Err {A E} e.

Definition is_ok {A E} (r : result A E) : bool :=
  match r with Ok _ => true | Err _ => false end.

Definition map_err {A E F} (f : E -> F) (r : result A E) : result A F :=
  match r with Ok a => Ok a | Err e => Err (f e) end.

(** The [?] operator. *)
Notation "'let?' x ':=' e 'in' k" :=
  (match e with Ok x => k | Err err => Err err end)
  (at level 10, x pattern, e at level 100, k at level 200) : rust_scope.

(** The [?] operator on an [Option]. *)
Notation "'let!' x ':=' e 'in' k" :=
  (match e with Some x => k | None => None end)
  (at level 10, x pattern, e at level 100, k at level 200) : rust_scope.

(** ** Time

    A [std::time::Duration] is its number of nanoseconds; an [Instant] is the
    number of nanoseconds since an arbitrary origin of the monotonic clock. *)

Definition NANOS_PER_SEC : Z := 10 ^ 9.
Definition NANOS_PER_MILLI : Z := 10 ^ 6.
Definition duration_from_secs (s : Z) : Z := s * NANOS_PER_SEC.
Definition duration_from_millis (ms : Z) : Z := ms * NANOS_PER_MILLI.
Definition as_secs (d : Z) : Z := d / NANOS_PER_SEC.
Definition as_millis (d : Z) : Z := d / NANOS_PER_MILLI.
Definition is_duration (d : Z) : Prop := 0 <= d < 2 ^ 64 * NANOS_PER_SEC.

(** [Instant::duration_since] saturates to zero. *)
Definition duration_since (now earlier : Z) : Z := sat_sub now earlier.

(** An [Instant] is a [timespec] with signed 64-bit seconds:
    [checked_add] fails past its end. *)
Definition instant_end : Z := 2 ^ 63 * NANOS_PER_SEC.
Definition instant_checked_add (now d : Z) : option Z :=
  if now + d <? instant_end then Some (now + d) else None.

(** ** Text

    A [&str] is a list of numbers: its Unicode scalar values where the code
    handles it character by character ([Cron]), its UTF-8 bytes elsewhere.  The
    two agree on ASCII; [chars_of] reads an ASCII literal. *)

Abbreviation text := (list Z).

Definition chars_of (s : string) : text :=
  (fun a => Z.of_N (Ascii.N_of_ascii a)) <$> String.list_ascii_of_string s.
Arguments chars_of s%_string_scope.

(** [char::is_whitespace]: the [White_Space] property, in full. *)
Definition is_whitespace (c : Z) : bool :=
  ((9 <=? c) && (c <=? 13)) || (c =? 32) || (c =? 133) || (c =? 160) || (c =? 5760)
  || ((8192 <=? c) && (c <=? 8202)) || (c =? 8232) || (c =? 8233) || (c =? 8239)
  || (c =? 8287) || (c =? 12288).

(** [u8::is_ascii_whitespace], the separator of [split_ascii_whitespace]. *)
Definition is_ascii_whitespace (c : Z) : bool :=
  (c =? 9) || (c =? 10) || (c =? 12) || (c =? 13) || (c =? 32).

Definition is_ascii_digit (c : Z) : bool := (48 <=? c) && (c <=? 57).
Definition is_ascii_lowercase (c : Z) : bool := (97 <=? c) && (c <=? 122).
Definition is_ascii_uppercase (c : Z) : bool := (65 <=? c) && (c <=? 90).

Fixpoint drop_while {A} (p : A -> bool) (l : list A) : list A :=
  match l with
  | [] => []
  | x :: l' => if p x then drop_while p l' else l
  end.

(** [str::trim]. *)
Definition trim (s : text) : text :=
  reverse (drop_while is_whitespace (reverse (drop_while is_whitespace s))).

Fixpoint starts_with (p s : text) : bool :=
  match p, s with
  | [], _ => true
  | a :: p', b :: s' => (a =? b) && starts_with p' s'
  | _ :: _, [] => false
  end.

(** [str::strip_prefix]. *)
Fixpoint strip_prefix (p s : text) : option text :=
  match p, s with
  | [], _ => Some s
  | a :: p', b :: s' => if a =? b then strip_prefix p' s' else None
  | _ :: _, [] => None
  end.

(** [str::split_once] on one character. *)
Fixpoint split_once (c : Z) (s : text) : option (text * text) :=
  match s with
  | [] => None
  | x :: s' =>
      if x =? c then Some ([], s')
      else match split_once c s' with
           | Some (a, b) => Some (x :: a, b)
           | None => None
           end
  end.

(** [str::split] on one character: always at least one piece. *)
Fixpoint split (c : Z) (s : text) : list text :=
  match s with
  | [] => [[]]
  | x :: s' =>
      if x =? c then [] :: split c s'
      else match split c s' with
           | [] => [[x]]
           | w :: ws => (x :: w) :: ws
           end
  end.

(** [str::split_ascii_whitespace]: the non-empty runs. *)
Fixpoint split_ascii_whitespace (s : text) : list text :=
  match s with
  | [] => []
  | x :: s' =>
      if is_ascii_whitespace x then split_ascii_whitespace s'
      else match s' with
           | [] => [[x]]
           | y :: _ =>
               if is_ascii_whitespace y then [x] :: split_ascii_whitespace s'
               else match split_ascii_whitespace s' with
                    | [] => [[x]]
                    | w :: ws => (x :: w) :: ws
                    end
           end
  end.

Definition digit_value (c : Z) : Z := c - 48.

(** The number a string of ASCII digits spells. *)
Definition digits_value (s : text) : Z :=
  fold_left (fun acc c => 10 * acc + digit_value c) s 0.

(** [digits.parse::<u32>()] on a non-empty string of ASCII digits: the only
    failure left is an overflow. *)
Definition parse_u32_digits (s : text) : option Z :=
  let v := digits_value s in
  if v <=? u32_max then Some v else None.

Definition parse_u64_digits (s : text) : option Z :=
  let v := digits_value s in
  if v <=? u64_max then Some v else None.

(** ** Iterators *)

(** [Iterator::find_map]. *)
Fixpoint find_map {A B} (f : A -> option B) (l : list A) : option B :=
  match l with
  | [] => None
  | x :: l' => match f x with Some b => Some b | None => find_map f l' end
  end.

(** Over a range of integers, [find_map] answers at the first one that has an
    answer. *)
Lemma find_map_seqZ {B} (f : Z -> option B) (lo n : Z) :
  match find_map f (seqZ lo n) with
  | Some b => exists i, lo <= i < lo + n /\ f i = Some b /\ forall j, lo <= j < i -> f j = None
  | None => forall j, lo <= j < lo + n -> f j = None
  end.
Proof.
  destruct (decide (0 <= n)) as [Hn|Hn].
  2: { rewrite seqZ_nil by lia. cbn. intros; lia. }
  revert lo. pattern n. apply natlike_ind; [| |done]; clear n Hn.
  - intros lo. rewrite seqZ_nil by lia. cbn [find_map]. intros; lia.
  - intros n Hn IH lo. rewrite seqZ_cons by lia. cbn [find_map].
    replace (Z.pred (Z.succ n)) with n by lia. specialize (IH (Z.succ lo)).
    destruct (f lo) as [b|] eqn:E.
    + exists lo. repeat split; [lia|lia|done|intros; lia].
    + destruct (find_map f (seqZ (Z.succ lo) n)) as [b|].
      * destruct IH as (i & Hi & Hb & Hbefore). exists i. repeat split; [lia|lia|done|].
        intros j Hj. destruct (decide (j = lo)) as [->|]; [done|]. apply Hbefore. lia.
      * intros j Hj. destruct (decide (j = lo)) as [->|]; [done|]. apply IH. lia.
Qed.

(** [Iterator::sum]. *)
Definition sumZ (l : list Z) : Z := foldr Z.add 0 l.

#[export] Instance sumZ_proper : Proper ((≡ₚ) ==> (=)) sumZ.
Proof. induction 1; cbn; [done | unfold sumZ in *; lia | lia | congruence]. Qed.

Lemma sumZ_app l1 l2 : sumZ (l1 ++ l2) = sumZ l1 + sumZ l2.
Proof. induction l1 as [|x l1 IH]; cbn; [done|]. unfold sumZ in *. lia. Qed.

(** ** Splitting text *)

Lemma split_once_none c s : c ∉ s -> split_once c s = None.
Proof.
  induction s as [|x s IH]; cbn; [done|]. intros [Hne Hs]%not_elem_of_cons.
  destruct (Z.eqb_spec x c); [congruence|]. by rewrite IH.
Qed.

Lemma split_once_Some c s a b : split_once c s = Some (a, b) -> s = a ++ c :: b /\ c ∉ a.
Proof.
  revert a. induction s as [|x s IH]; intros a; cbn; [done|].
  destruct (Z.eqb_spec x c) as [->|Hne].
  - intros [= <- <-]. split; [done | apply not_elem_of_nil].
  - destruct (split_once c s) as [[a' b']|]; [|done]. intros [= <- <-].
    destruct (IH a' eq_refl) as [-> Hn]. split; [done|]. set_solver.
Qed.

Lemma split_once_app c a b : c ∉ a -> split_once c (a ++ c :: b) = Some (a, b).
Proof.
  induction a as [|x a IH]; cbn.
  - by rewrite Z.eqb_refl.
  - intros [Hne Hs]%not_elem_of_cons. destruct (Z.eqb_spec x c); [congruence|].
    by rewrite IH.
Qed.

(** [[a, b].join(",")]. *)
Fixpoint join (c : Z) (ws : list text) : text :=
  match ws with
  | [] => []
  | [w] => w
  | w :: ws' => w ++ c :: join c ws'
  end.

Lemma split_single c w : c ∉ w -> split c w = [w].
Proof.
  induction w as [|x w IH]; cbn; [done|]. intros [Hne Hs]%not_elem_of_cons.
  destruct (Z.eqb_spec x c); [congruence|]. by rewrite IH.
Qed.

Lemma split_app c w s : c ∉ w -> split c (w ++ c :: s) = w :: split c s.
Proof.
  induction w as [|x w IH]; cbn.
  - by rewrite Z.eqb_refl.
  - intros [Hne Hs]%not_elem_of_cons. destruct (Z.eqb_spec x c); [congruence|].
    by rewrite IH.
Qed.

Lemma split_join c ws : ws <> [] -> Forall (fun w => c ∉ w) ws -> split c (join c ws) = ws.
Proof.
  intros Hne Hall. induction Hall as [|w ws Hw Hws IH]; [done|].
  destruct ws as [|w' ws]; cbn [join].
  - by apply split_single.
  - rewrite split_app by done. f_equal. by apply IH.
Qed.

(** ** Bytes *)

(** [to_le_bytes] of an [n]-byte unsigned integer. *)
Fixpoint to_le_bytes (n : nat) (z : Z) : list Z :=
  match n with
  | O => []
  | S n => z mod 256 :: to_le_bytes n (z / 256)
  end.

(** [from_le_bytes]. *)
Fixpoint from_le_bytes (bs : list Z) : Z :=
  match bs with
  | [] => 0
  | b :: bs => b + 256 * from_le_bytes bs
  end.

Definition u64_to_le_bytes : Z -> list Z := to_le_bytes 8.
Definition u64_to_be_bytes (z : Z) : list Z := reverse (to_le_bytes 8 z).
Definition from_be_bytes (bs : list Z) : Z := from_le_bytes (reverse bs).

(** [<[u8; N]>::try_from(bytes).ok().map(from_le_bytes)]. *)
Definition decode_le (n : nat) (bs : list Z) : option Z :=
  if decide (length bs = n) then Some (from_le_bytes bs) else None.

Lemma length_to_le_bytes n z : length (to_le_bytes n z) = n.
Proof. revert z. induction n as [|n IH]; intros z; cbn; [done|]. by rewrite IH. Qed.

Lemma from_to_le_bytes n z : 0 <= z < 256 ^ Z.of_nat n -> from_le_bytes (to_le_bytes n z) = z.
Proof.
  revert z. induction n as [|n IH]; intros z Hz; cbn [to_le_bytes from_le_bytes].
  - cbn in Hz. lia.
  - rewrite Nat2Z.inj_succ, Z.pow_succ_r in Hz by lia. rewrite IH by div_lia. div_lia.
Qed.

Lemma decode_le_u64 z : is_u64 z -> decode_le 8 (u64_to_le_bytes z) = Some z.
Proof.
  intros Hz. unfold decode_le, u64_to_le_bytes. rewrite length_to_le_bytes.
  rewrite decide_True by done. rewrite from_to_le_bytes; [done|].
  unfold is_u64, u64_max in Hz. change (256 ^ Z.of_nat 8) with (2 ^ 64). lia.
Qed.

Lemma from_be_u64 z : is_u64 z -> from_be_bytes (u64_to_be_bytes z) = z.
Proof.
  intros Hz. unfold from_be_bytes, u64_to_be_bytes. rewrite reverse_involutive.
  apply from_to_le_bytes. unfold is_u64, u64_max in Hz.
  change (256 ^ Z.of_nat 8) with (2 ^ 64). lia.
Qed.

(** [std::str::from_utf8(bytes).is_ok()]: well-formed UTF-8. *)
Definition is_cont (b : Z) : bool := (128 <=? b) && (b <=? 191).

Fixpoint utf8_valid (bs : list Z) : bool :=
  match bs with
  | [] => true
  | b :: rest =>
      if (0 <=? b) && (b <? 128) then utf8_valid rest
      else if (194 <=? b) && (b <=? 223) then
        match rest with
        | b1 :: rest => is_cont b1 && utf8_valid rest
        | _ => false
        end
      else if (224 <=? b) && (b <=? 239) then
        match rest with
        | b1 :: b2 :: rest =>
            is_cont b1 && is_cont b2
            && negb ((b =? 224) && (b1 <? 160)) && negb ((b =? 237) && (159 <? b1))
            && utf8_valid rest
        | _ => false
        end
      else if (240 <=? b) && (b <=? 244) then
        match rest with
        | b1 :: b2 :: b3 :: rest =>
            is_cont b1 && is_cont b2 && is_cont b3
            && negb ((b =? 240) && (b1 <? 144)) && negb ((b =? 244) && (143 <? b1))
            && utf8_valid rest
        | _ => false
        end
      else false
  end.

(** ** Byte order and ordered entries *)

(** [Ord] of byte strings and of [str]: lexicographic. *)
Fixpoint bytes_lt (a b : list Z) : bool :=
  match a, b with
  | [], _ :: _ => true
  | _, [] => false
  | x :: a', y :: b' => (x <? y) || ((x =? y) && bytes_lt a' b')
  end.

Lemma bytes_lt_irrefl a : bytes_lt a a = false.
Proof. induction a as [|x a IH]; cbn; [done|]. by rewrite Z.ltb_irrefl, Z.eqb_refl. Qed.

Lemma bytes_lt_trans a b c : bytes_lt a b = true -> bytes_lt b c = true -> bytes_lt a c = true.
Proof.
  revert b c. induction a as [|x a IH]; intros [|y b] [|z c]; cbn; try done.
  rewrite !orb_true_iff, !andb_true_iff, !Z.ltb_lt, !Z.eqb_eq.
  intros [?|[-> ?]] [?|[-> ?]]; [left; lia..|]. right. split; [done|]. eauto.
Qed.

Lemma bytes_lt_total a b : bytes_lt a b = true \/ a = b \/ bytes_lt b a = true.
Proof.
  revert b. induction a as [|x a IH]; intros [|y b]; cbn; auto.
  rewrite !orb_true_iff, !andb_true_iff, !Z.ltb_lt, !Z.eqb_eq.
  destruct (Z.lt_trichotomy x y) as [?|[->|?]]; [auto| |auto].
  destruct (IH b) as [?|[->|?]]; auto.
Qed.

Abbreviation entry := (list Z * list Z)%type.

Definition entry_lt (e1 e2 : entry) : Prop := bytes_lt e1.1 e2.1 = true.

#[export] Instance entry_lt_trans : Transitive entry_lt.
Proof. intros e1 e2 e3. apply bytes_lt_trans. Qed.

#[export] Instance entry_lt_antisymm : AntiSymm (=) entry_lt.
Proof.
  intros e1 e2 H1 H2. exfalso. pose proof (bytes_lt_trans _ _ _ H1 H2) as H.
  by rewrite bytes_lt_irrefl in H.
Qed.

Abbreviation ordered := (StronglySorted entry_lt).

Lemma ordered_NoDup (l : list entry) : ordered l -> NoDup l.
Proof.
  induction 1 as [|e l Hs IH He]; constructor; [|done]. intros Hin.
  rewrite Forall_forall in He. specialize (He _ Hin). unfold entry_lt in He.
  by rewrite bytes_lt_irrefl in He.
Qed.

(** Two ordered lists with the same entries are equal. *)
Lemma ordered_unique (l1 l2 : list entry) :
  ordered l1 -> ordered l2 -> (forall e, e ∈ l1 <-> e ∈ l2) -> l1 = l2.
Proof.
  intros H1 H2 Heq. apply (StronglySorted_unique entry_lt); [done..|].
  apply NoDup_Permutation; [by apply ordered_NoDup..|done].
Qed.

Lemma ordered_filter (f : entry -> bool) (l : list entry) :
  ordered l -> ordered (List.filter f l).
Proof.
  induction 1 as [|e l Hs IH He]; cbn; [constructor|]. destruct (f e); [|done].
  constructor; [done|]. rewrite Forall_forall in He |- *. intros e' Hin. apply He.
  rewrite list_elem_of_In, List.filter_In, <- list_elem_of_In in Hin. tauto.
Qed.

Fixpoint insert_entry (e : entry) (l : list entry) : list entry :=
  match l with
  | [] => [e]
  | e' :: l' => if bytes_lt e.1 e'.1 then e :: l else e' :: insert_entry e l'
  end.

(** The entries of a map in key order: the order a B-tree iterates in. *)
Definition in_order (m : gmap (list Z) (list Z)) : list entry :=
  foldr insert_entry [] (map_to_list m).

Lemma insert_entry_elem e e' l : e' ∈ insert_entry e l <-> e' = e \/ e' ∈ l.
Proof. induction l as [|a l IH]; cbn; [set_solver|]. case_match; set_solver. Qed.

Lemma insert_entry_ordered e l :
  ordered l -> (forall e', e' ∈ l -> e'.1 <> e.1) -> ordered (insert_entry e l).
Proof.
  induction 1 as [|a l Hs IH Ha]; cbn; intros Hne; [by repeat constructor|].
  destruct (bytes_lt e.1 a.1) eqn:E.
  - constructor; [by constructor|]. constructor; [done|].
    eapply Forall_impl; [exact Ha|]. intros e'. by apply bytes_lt_trans.
  - constructor; [apply IH; set_solver|]. apply Forall_forall. intros e'.
    rewrite insert_entry_elem. intros [->|Hin].
    + destruct (bytes_lt_total e.1 a.1) as [?|[Heq|?]]; [congruence| |done].
      destruct (Hne a); [by left | done].
    + by rewrite Forall_forall in Ha; apply Ha.
Qed.

Lemma in_order_elem m k v : (k, v) ∈ in_order m <-> m !! k = Some v.
Proof.
  rewrite <- elem_of_map_to_list. unfold in_order.
  induction (map_to_list m) as [|e l IH]; cbn; [done|].
  rewrite insert_entry_elem, IH. set_solver.
Qed.

Lemma in_order_ordered m : ordered (in_order m).
Proof.
  unfold in_order. pose proof (NoDup_fst_map_to_list m) as Hd.
  induction (map_to_list m) as [|e l IH]; cbn in *; [constructor|].
  apply NoDup_cons in Hd as [Hnot Hd]. apply insert_entry_ordered; [by apply IH|].
  assert (forall e', e' ∈ foldr insert_entry [] l -> e' ∈ l) as Hsub.
  { clear. induction l as [|a l IH]; cbn; [done|]. intros e'. rewrite insert_entry_elem. set_solver. }
  intros e' Hin Heq. apply Hnot. rewrite <- Heq. apply list_elem_of_fmap. eauto.
Qed.

Lemma starts_with_app p k : starts_with p (p ++ k) = true.
Proof. induction p as [|a p IH]; cbn; [done|]. by rewrite Z.eqb_refl. Qed.

Lemma starts_with_inv p k : starts_with p k = true -> exists r, k = p ++ r.
Proof.
  revert k. induction p as [|a p IH]; intros k; cbn; [by eexists|].
  destruct k as [|b k]; [done|]. intros [Hab Hs]%andb_prop.
  apply Z.eqb_eq in Hab as ->. destruct (IH k Hs) as [r ->]. by exists r.
Qed.

Lemma starts_with_iff p k : starts_with p k = true <-> exists r, k = p ++ r.
Proof. split; [apply starts_with_inv|]. intros [r ->]. apply starts_with_app. Qed.

Lemma strip_prefix_Some p s r : strip_prefix p s = Some r <-> s = p ++ r.
Proof.
  revert s. induction p as [|a p IH]; intros s; cbn; [naive_solver|].
  destruct s as [|b s]; [naive_solver|]. destruct (Z.eqb_spec a b) as [->|Hne].
  - rewrite IH. naive_solver.
  - naive_solver.
Qed.

Lemma bytes_lt_app_head p a b : bytes_lt (p ++ a) (p ++ b) = bytes_lt a b.
Proof. induction p as [|x p IH]; cbn; [done|]. by rewrite Z.ltb_irrefl, Z.eqb_refl. Qed.

(** ** Decimal *)

(** The digits of a number, least significant first. *)
Fixpoint dec_rev (fuel : nat) (z : Z) : text :=
  match fuel with
  | O => []
  | S fuel => (48 + z mod 10) :: if z <? 10 then [] else dec_rev fuel (z / 10)
  end.

(** [u64::to_string]: twenty digits hold any [u64]. *)
Definition decimal (z : Z) : text := reverse (dec_rev 20 z).

Lemma digits_value_snoc s c : digits_value (s ++ [c]) = 10 * digits_value s + digit_value c.
Proof. unfold digits_value. by rewrite fold_left_app. Qed.

Lemma dec_rev_value fuel z :
  0 <= z < 10 ^ Z.of_nat fuel -> digits_value (reverse (dec_rev fuel z)) = z.
Proof.
  revert z. induction fuel as [|fuel IH]; intros z Hz.
  - cbn in Hz. cbn. lia.
  - rewrite Nat2Z.inj_succ, Z.pow_succ_r in Hz by lia. cbn [dec_rev].
    rewrite reverse_cons, digits_value_snoc. unfold digit_value.
    destruct (Z.ltb_spec z 10).
    + cbn. rewrite Z.mod_small; lia.
    + rewrite IH by div_lia. div_lia.
Qed.

Lemma u64_ten_20 z : is_u64 z -> 0 <= z < 10 ^ Z.of_nat 20.
Proof. unfold is_u64, u64_max. change (10 ^ Z.of_nat 20) with 100000000000000000000. lia. Qed.

Lemma decimal_value z : is_u64 z -> digits_value (decimal z) = z.
Proof. intros Hz. by apply dec_rev_value, u64_ten_20. Qed.

Lemma decimal_inj z z' : is_u64 z -> is_u64 z' -> decimal z = decimal z' -> z = z'.
Proof. intros Hz Hz' E. rewrite <- (decimal_value z), <- (decimal_value z') by done. by rewrite E. Qed.

Lemma dec_rev_digits fuel z : Forall (fun c => is_ascii_digit c = true) (dec_rev fuel z).
Proof.
  revert z. induction fuel as [|fuel IH]; intros z; cbn [dec_rev]; [constructor|].
  constructor; [|case_match; [constructor|apply IH]].
  unfold is_ascii_digit. apply andb_true_intro. rewrite !Z.leb_le. div_lia.
Qed.

Lemma decimal_digits z : Forall (fun c => is_ascii_digit c = true) (decimal z).
Proof. apply Forall_reverse, dec_rev_digits. Qed.

Lemma decimal_not_in z c : is_ascii_digit c = false -> c ∉ decimal z.
Proof.
  intros Hc Hin. pose proof (decimal_digits z) as Hd. rewrite Forall_forall in Hd.
  specialize (Hd c Hin). cbn in Hd. congruence.
Qed.

Lemma decimal_nonempty z : decimal z <> [].
Proof. unfold decimal. cbn [dec_rev]. rewrite reverse_cons. by destruct (reverse _). Qed.

(** No leading zero, except in the numeral of zero. *)
Lemma decimal_no_leading_zero z :
  is_u64 z -> z <> 0 -> exists c s, decimal z = c :: s /\ c <> 48.
Proof.
  intros Hz%u64_ten_20 Hne. unfold decimal.
  assert (forall fuel z, 0 < z < 10 ^ Z.of_nat fuel ->
            exists c s, reverse (dec_rev fuel z) = c :: s /\ c <> 48) as Hgen.
  { induction fuel as [|fuel IH]; intros y Hy; [cbn in Hy; lia|].
    rewrite Nat2Z.inj_succ, Z.pow_succ_r in Hy by lia. cbn [dec_rev]. rewrite reverse_cons.
    destruct (Z.ltb_spec y 10).
    - exists (48 + y mod 10), []. split; [done|]. rewrite Z.mod_small; lia.
    - destruct (IH (y / 10)) as (c & s & -> & Hc); [div_lia|]. by exists c, (s ++ [48 + y mod 10]). }
  apply Hgen. lia.
Qed.

(** [str::contains] of a string. *)
Fixpoint contains (needle hay : text) : bool :=
  starts_with needle hay ||
  match hay with [] => false | _ :: hay' => contains needle hay' end.

Definition to_ascii_lowercase (s : text) : text :=
  (fun c => if is_ascii_uppercase c then c + 32 else c) <$> s.

(** Shared facts the components' proofs close goals with. *)
Create HintDb nexum.
#[export] Hint Resolve length_to_le_bytes decode_le_u64 from_be_u64 : nexum.
