(* ===== verification/Calendar.v ===== *)
(** * Calendar: the proleptic Gregorian calendar of the cron search

    Models [Date], [longest_month] and [weekday] of
    [crates/nexum-runtime-manifest/src/cron.rs].  The day count is converted by
    the era decomposition; the theorems relate it to the calendar defined the
    textbook way, by a rule for the day after a date. *)

From stdpp Require Import prelude.
From Stdlib Require Import ZArith Lia.
From S2P Require Import Prelude.

(** ** Definitions *)

Record Date : Type := mkDate { year : Z; month : Z; day : Z }.

#[export] Instance Date_eq_dec : EqDecision Date.
Proof. solve_decision. Defined.

(** Days in [month] in a leap year. *)
Definition longest_month (month : Z) : Z :=
  if month =? 2 then 29
  else if (month =? 4) || (month =? 6) || (month =? 9) || (month =? 11) then 30
  else 31.

(** The date [days] after 1970-01-01. *)
Definition from_days (days : Z) : Date :=
  let shifted := days + 719468 in
  let era := shifted / 146097 in
  let day_of_era := shifted mod 146097 in
  let year_of_era :=
    (day_of_era - day_of_era / 1460 + day_of_era / 36524 - day_of_era / 146096) / 365 in
  let day_of_year :=
    day_of_era - (365 * year_of_era + year_of_era / 4 - year_of_era / 100) in
  let shifted_month := (5 * day_of_year + 2) / 153 in
  let day := day_of_year - (153 * shifted_month + 2) / 5 + 1 in
  let month := if shifted_month <? 10 then shifted_month + 3 else shifted_month - 9 in
  let year := year_of_era + era * 400 + (if month <=? 2 then 1 else 0) in
  mkDate year month day.

(** Days from 1970-01-01 to a date. *)
Definition to_days (d : Date) : Z :=
  let year := d.(year) - (if d.(month) <=? 2 then 1 else 0) in
  let era := year / 400 in
  let year_of_era := year mod 400 in
  let shifted_month := if 2 <? d.(month) then d.(month) - 3 else d.(month) + 9 in
  let day_of_year := (153 * shifted_month + 2) / 5 + d.(day) - 1 in
  let day_of_era :=
    year_of_era * 365 + year_of_era / 4 - year_of_era / 100 + day_of_year in
  era * 146097 + day_of_era - 719468.

Definition first_of_next_month (d : Date) : Z :=
  let '(y, m) :=
    if d.(month) =? 12 then (d.(year) + 1, 1) else (d.(year), d.(month) + 1) in
  to_days (mkDate y m 1).

(** 0 is Sunday; 1970-01-01 was a Thursday. *)
Definition weekday (days : Z) : Z := (days + 4) mod 7.

(** ** The reference calendar *)

Definition leap_year (y : Z) : bool :=
  (y mod 4 =? 0) && (negb (y mod 100 =? 0) || (y mod 400 =? 0)).

Definition days_in (y m : Z) : Z :=
  if (m =? 2) && negb (leap_year y) then 28 else longest_month m.

Definition next_date (d : Date) : Date :=
  if d.(day) <? days_in d.(year) d.(month) then mkDate d.(year) d.(month) (d.(day) + 1)
  else if d.(month) <? 12 then mkDate d.(year) (d.(month) + 1) 1
  else mkDate (d.(year) + 1) 1 1.

Definition valid_date (d : Date) : Prop :=
  1 <= d.(month) <= 12 /\ 1 <= d.(day) <= days_in d.(year) d.(month).

(** ** The era decomposition

    A day of an era is a year of the era, counted from 1 March, and a day of
    that year. *)

Definition year_start (y : Z) : Z := 365 * y + y / 4 - y / 100.
Definition year_length (y : Z) : Z :=
  if ((y + 1) mod 4 =? 0) && (negb ((y + 1) mod 100 =? 0) || (y =? 399)) then 366 else 365.
Definition year_of (doe : Z) : Z := (doe - doe / 1460 + doe / 36524 - doe / 146096) / 365.

(** The calendar date of a day [doy] of the shifted year [y] of an [era]. *)
Definition date_of (era y doy : Z) : Date :=
  let mp := (5 * doy + 2) / 153 in
  let m := if mp <? 10 then mp + 3 else mp - 9 in
  mkDate (y + era * 400 + (if m <=? 2 then 1 else 0)) m (doy - (153 * mp + 2) / 5 + 1).



Lemma year_of_range doe : 0 <= doe < 146097 -> 0 <= year_of doe < 400.
Proof. unfold year_of. intros. div_lia. Qed.

Lemma year_length_cases y :
  year_length y = 365 \/
  year_length y = 366 /\ (y + 1) mod 4 = 0 /\ ((y + 1) mod 100 <> 0 \/ y = 399).
Proof.
  unfold year_length.
  destruct (Z.eqb_spec ((y + 1) mod 4) 0), (Z.eqb_spec ((y + 1) mod 100) 0),
    (Z.eqb_spec y 399); cbn; tauto.
Qed.

Lemma year_of_lower doe : 0 <= doe < 146097 -> year_start (year_of doe) <= doe.
Proof.
  unfold year_start, year_of. intros.
  assert (doe / 146096 = 0 \/ doe / 146096 = 1) by div_lia.
  assert (0 <= doe / 36524 <= 4) by div_lia. div_lia.
Qed.

Lemma year_of_upper doe : 0 <= doe < 146097 ->
  doe < year_start (year_of doe) + year_length (year_of doe).
Proof.
  intros H. unfold year_start, year_length.
  pose proof (year_of_range doe H) as HR. unfold year_of in *.
  assert (doe / 146096 = 0 \/ doe / 146096 = 1) by div_lia.
  assert (0 <= doe / 36524 <= 4) by div_lia.
  set (y := (doe - doe / 1460 + doe / 36524 - doe / 146096) / 365) in *.
  destruct (Z.eqb_spec ((y + 1) mod 4) 0), (Z.eqb_spec ((y + 1) mod 100) 0),
    (Z.eqb_spec y 399); cbn [andb orb negb]; subst y; div_lia.
Qed.

Lemma year_of_unique y d :
  0 <= y < 400 -> 0 <= d < year_length y -> year_of (year_start y + d) = y.
Proof.
  intros Hy Hd. destruct (year_length_cases y) as [E | (E & H4 & H100)]; rewrite E in Hd;
    unfold year_of, year_start.
  - div_lia.
  - div_lia.
Qed.

(** ** Months of a shifted year *)

(** Months are numbered from March; month [mp] starts on this day of the year. *)
Definition month_start (mp : Z) : Z := (153 * mp + 2) / 5.

Lemma month_of_doy mp doy :
  0 <= mp <= 11 -> month_start mp <= doy < month_start (mp + 1) -> (5 * doy + 2) / 153 = mp.
Proof. unfold month_start. intros. div_lia. Qed.

Lemma month_of_doy_inv doy : 0 <= doy <= 365 ->
  exists mp, 0 <= mp <= 11 /\ month_start mp <= doy < month_start (mp + 1).
Proof. intros. exists ((5 * doy + 2) / 153). unfold month_start. div_lia. Qed.

Definition month_number (mp : Z) : Z := if mp <? 10 then mp + 3 else mp - 9.

Lemma date_in_month era y mp doy :
  0 <= mp <= 11 -> month_start mp <= doy < month_start (mp + 1) ->
  date_of era y doy =
    mkDate (y + era * 400 + (if 10 <=? mp then 1 else 0)) (month_number mp)
      (doy - month_start mp + 1).
Proof.
  intros Hmp Hd. unfold date_of. rewrite (month_of_doy mp) by lia.
  fold (month_number mp) (month_start mp). f_equal.
  unfold month_number. destruct (Z.ltb_spec mp 10), (Z.leb_spec 10 mp); try lia;
    case_match; lia.
Qed.

(** Splits on the twelve months of the year and evaluates what depends on the
    month alone. *)
Ltac each_month mp :=
  assert (mp = 0 \/ mp = 1 \/ mp = 2 \/ mp = 3 \/ mp = 4 \/ mp = 5 \/ mp = 6 \/ mp = 7
          \/ mp = 8 \/ mp = 9 \/ mp = 10 \/ mp = 11) as Hmonth by lia;
  repeat (destruct Hmonth as [Hmonth | Hmonth]); subst mp;
  repeat match goal with
    | |- context [month_start ?m] =>
        let v := eval vm_compute in (month_start m) in change (month_start m) with v in *
    | _ : context [month_start ?m] |- _ =>
        let v := eval vm_compute in (month_start m) in change (month_start m) with v in *
    | |- context [month_number ?m] =>
        let v := eval vm_compute in (month_number m) in change (month_number m) with v in *
    | |- context [10 <=? ?m] =>
        let v := eval vm_compute in (10 <=? m) in change (10 <=? m) with v
    end.

(** The number of days of the shifted month [mp] of a year of [len] days. *)
Definition month_days (len mp : Z) : Z :=
  if mp =? 11 then len - 337 else month_start (mp + 1) - month_start mp.

Lemma leap_of_shifted era y : 0 <= y < 400 ->
  leap_year (y + era * 400 + 1) = bool_decide (year_length y = 366).
Proof.
  intros Hy. unfold leap_year, year_length.
  replace ((y + era * 400 + 1) mod 4) with ((y + 1) mod 4) by div_lia.
  replace ((y + era * 400 + 1) mod 100) with ((y + 1) mod 100) by div_lia.
  replace ((y + era * 400 + 1) mod 400 =? 0) with (y =? 399).
  2: { destruct (Z.eqb_spec y 399), (Z.eqb_spec ((y + era * 400 + 1) mod 400) 0); div_lia. }
  destruct ((y + 1) mod 4 =? 0), ((y + 1) mod 100 =? 0), (y =? 399); reflexivity.
Qed.

Lemma days_in_shifted era y mp : 0 <= y < 400 -> 0 <= mp <= 11 ->
  days_in (y + era * 400 + (if 10 <=? mp then 1 else 0)) (month_number mp) =
    month_days (year_length y) mp.
Proof.
  intros Hy Hmp. unfold days_in, month_days. each_month mp; try reflexivity.
  rewrite leap_of_shifted by lia.
  destruct (year_length_cases y) as [E | [E _]]; rewrite E; reflexivity.
Qed.

(** ** The day after a date *)

Lemma doy_bound y doy : 0 <= doy < year_length y -> 0 <= doy <= 365.
Proof. destruct (year_length_cases y); lia. Qed.

Lemma date_of_next era y doy :
  0 <= y < 400 -> 0 <= doy -> doy + 1 < year_length y ->
  next_date (date_of era y doy) = date_of era y (doy + 1).
Proof.
  intros Hy H0 H1. pose proof (doy_bound y (doy + 1) ltac:(lia)).
  destruct (month_of_doy_inv doy) as (mp & Hmp & Hd); [lia|].
  rewrite (date_in_month era y mp doy) by done. unfold next_date; cbn [year month day].
  rewrite days_in_shifted by done. unfold month_days.
  destruct (decide (doy + 1 < month_start (mp + 1))) as [Hin | Hout].
  - rewrite (date_in_month era y mp (doy + 1)) by lia.
    assert (doy - month_start mp + 1 <
      (if mp =? 11 then year_length y - 337 else month_start (mp + 1) - month_start mp))
      as Hlt by (destruct (Z.eqb_spec mp 11) as [-> |];
                 [change (month_start 11) with 337|]; lia).
    apply Z.ltb_lt in Hlt as ->. f_equal; lia.
  - assert (mp <> 11) by (intros ->; change (month_start (11 + 1)) with 367 in Hout; lia).
    rewrite (date_in_month era y (mp + 1) (doy + 1)).
    2: lia. 2: { revert Hd Hout. each_month mp; lia. }
    replace (doy + 1) with (month_start (mp + 1)) by lia.
    assert (month_start (mp + 1) - 1 = doy) as <- by lia. clear Hd Hout H0 H1.
    each_month mp; try lia; cbn; f_equal; lia.
Qed.

Lemma date_of_rollover era y :
  0 <= y < 400 -> next_date (date_of era y (year_length y - 1)) = date_of era (y + 1) 0.
Proof.
  intros Hy. assert (337 <= year_length y - 1 <= 365) as Hl
    by (destruct (year_length_cases y); lia).
  rewrite (date_in_month era y 11)
    by (change (month_start 11) with 337; change (month_start (11 + 1)) with 367; lia).
  rewrite (date_in_month era (y + 1) 0)
    by (change (month_start 0) with 0; change (month_start (0 + 1)) with 31; lia).
  unfold next_date; cbn [year month day]. rewrite days_in_shifted by lia.
  change (month_start 11) with 337. cbn -[Z.add Z.sub Z.mul].
  destruct (Z.ltb_spec (year_length y - 1 - 337 + 1) (year_length y - 337)); [lia|].
  f_equal; lia.
Qed.

Lemma date_of_era era : date_of era 400 0 = date_of (era + 1) 0 0.
Proof. unfold date_of. cbn -[Z.add Z.mul]. f_equal. lia. Qed.

Definition era_of (days : Z) : Z := (days + 719468) / 146097.
Definition doe_of (days : Z) : Z := (days + 719468) mod 146097.
Definition doy_of (days : Z) : Z := doe_of days - year_start (year_of (doe_of days)).

Lemma doe_of_range days : 0 <= doe_of days < 146097.
Proof. apply Z.mod_pos_bound. lia. Qed.

Lemma doy_of_range days : 0 <= doy_of days < year_length (year_of (doe_of days)).
Proof.
  pose proof (doe_of_range days) as H. unfold doy_of.
  pose proof (year_of_lower _ H). pose proof (year_of_upper _ H). lia.
Qed.

Lemma from_days_date_of days :
  from_days days = date_of (era_of days) (year_of (doe_of days)) (doy_of days).
Proof. reflexivity. Qed.

(** A day count is determined by its era, year of the era and day of the year. *)
Lemma day_count era y doy :
  0 <= y < 400 -> 0 <= doy < year_length y ->
  let days := era * 146097 + (year_start y + doy) - 719468 in
  era_of days = era /\ year_of (doe_of days) = y /\ doy_of days = doy.
Proof.
  intros Hy Hd days.
  assert (0 <= year_start y + doy < 146097) as Hr.
  { unfold year_start. destruct (year_length_cases y) as [E | [E _]]; rewrite E in Hd; div_lia. }
  assert (doe_of days = year_start y + doy) as Hdoe.
  { unfold doe_of, days. replace (_ + _) with (year_start y + doy + era * 146097) by lia.
    rewrite Z.mod_add, Z.mod_small by lia. done. }
  split; [| split].
  - unfold era_of, days. replace (_ + _) with (year_start y + doy + era * 146097) by lia.
    rewrite Z.div_add, Z.div_small by lia. done.
  - rewrite Hdoe. by apply year_of_unique.
  - unfold doy_of. rewrite Hdoe, year_of_unique by done. lia.
Qed.

Lemma days_split days :
  days = era_of days * 146097 + (year_start (year_of (doe_of days)) + doy_of days) - 719468.
Proof. unfold doy_of, doe_of, era_of. div_lia. Qed.

Lemma from_days_of era y doy :
  0 <= y < 400 -> 0 <= doy < year_length y ->
  from_days (era * 146097 + (year_start y + doy) - 719468) = date_of era y doy.
Proof.
  intros Hy Hd. rewrite from_days_date_of.
  by destruct (day_count era y doy Hy Hd) as (-> & -> & ->).
Qed.

Lemma year_start_next y :
  0 <= y < 399 -> year_start y + year_length y = year_start (y + 1).
Proof.
  intros Hy. unfold year_start, year_length.
  destruct (Z.eqb_spec ((y + 1) mod 4) 0), (Z.eqb_spec ((y + 1) mod 100) 0),
    (Z.eqb_spec y 399); cbn [andb orb negb]; div_lia.
Qed.

Lemma from_days_succ days : from_days (days + 1) = next_date (from_days days).
Proof.
  pose proof (doe_of_range days) as Hdoe. pose proof (doy_of_range days) as Hdoy.
  pose proof (year_of_range _ Hdoe) as Hy.
  rewrite (from_days_date_of days), (days_split days) at 1.
  set (era := era_of days) in *. set (y := year_of (doe_of days)) in *.
  set (doy := doy_of days) in *.
  destruct (decide (doy + 1 < year_length y)) as [Hlt | Hge].
  - rewrite date_of_next by lia. rewrite <- from_days_of by lia. f_equal. lia.
  - replace doy with (year_length y - 1) by lia. rewrite date_of_rollover by lia.
    destruct (decide (y = 399)) as [-> | Hne].
    + rewrite date_of_era, <- from_days_of by (vm_compute; intuition congruence).
      change (year_length 399) with 366. change (year_start 399) with 145731.
      change (year_start 0) with 0. f_equal. lia.
    + rewrite <- from_days_of by (destruct (year_length_cases (y + 1)); lia).
      rewrite <- year_start_next by lia. f_equal. lia.
Qed.

(** ** Round trips and months *)

Lemma to_days_date_of era y doy :
  0 <= y < 400 -> 0 <= doy <= 365 ->
  to_days (date_of era y doy) = era * 146097 + (year_start y + doy) - 719468.
Proof.
  intros Hy Hd. destruct (month_of_doy_inv doy Hd) as (mp & Hmp & Hm).
  rewrite (date_in_month era y mp) by done. unfold to_days; cbn [year month day].
  assert (((if 2 <? month_number mp then month_number mp - 3 else month_number mp + 9) = mp) /\
    (if month_number mp <=? 2 then 1 else 0) = (if 10 <=? mp then 1 else 0)) as [-> ->]
    by (clear Hm; each_month mp; done).
  replace (y + era * 400 + (if 10 <=? mp then 1 else 0) - (if 10 <=? mp then 1 else 0))
    with (y + era * 400) by lia.
  rewrite Z.div_add, Z.mod_add, Z.div_small, Z.mod_small by lia.
  unfold year_start, month_start. lia.
Qed.

Lemma to_from_days days : to_days (from_days days) = days.
Proof.
  pose proof (year_of_range _ (doe_of_range days)). pose proof (doy_of_range days).
  rewrite from_days_date_of, to_days_date_of by eauto using doy_bound.
  symmetry. apply days_split.
Qed.

Lemma date_of_valid era y doy :
  0 <= y < 400 -> 0 <= doy < year_length y -> valid_date (date_of era y doy).
Proof.
  intros Hy Hd. destruct (month_of_doy_inv doy) as (mp & Hmp & Hm); [by eapply doy_bound|].
  rewrite (date_in_month era y mp) by done. unfold valid_date; cbn [year month day].
  rewrite days_in_shifted by done. unfold month_days.
  each_month mp; cbn [Z.eqb Pos.eqb]; lia.
Qed.

Lemma from_days_valid days : valid_date (from_days days).
Proof.
  rewrite from_days_date_of. apply date_of_valid.
  - apply year_of_range, doe_of_range.
  - apply doy_of_range.
Qed.

(** Every valid date is the date of a day of the calendar. *)
Lemma valid_date_of d : valid_date d ->
  exists era y doy, 0 <= y < 400 /\ 0 <= doy < year_length y /\ d = date_of era y doy.
Proof.
  destruct d as [Y m dd]. intros [Hm Hd]; cbn [year month day] in *.
  assert (exists mp, 0 <= mp <= 11 /\ m = month_number mp) as (mp & Hmp & ->).
  { exists (if 2 <? m then m - 3 else m + 9). unfold month_number.
    destruct (Z.ltb_spec 2 m); case_match; lia. }
  set (b := if 10 <=? mp then 1 else 0) in *.
  exists ((Y - b) / 400), ((Y - b) mod 400), (month_start mp + dd - 1).
  assert (Y = (Y - b) mod 400 + (Y - b) / 400 * 400 + b) as EY by div_lia.
  rewrite EY in Hd. unfold b in Hd at 3.
  assert (0 <= (Y - b) mod 400 < 400) as Hy by (apply Z.mod_pos_bound; lia).
  rewrite days_in_shifted in Hd by done. unfold month_days in Hd.
  set (y := (Y - b) mod 400) in *.
  assert (year_length y = 365 \/ year_length y = 366) as Hl
    by (destruct (year_length_cases y); lia).
  split; [done|]. split; [clear EY; revert Hd; each_month mp; cbn; lia|].
  rewrite (date_in_month _ _ mp).
  - rewrite EY at 1. f_equal. lia.
  - done.
  - clear EY. revert Hd; each_month mp; cbn; lia.
Qed.

Lemma from_to_days d : valid_date d -> from_days (to_days d) = d.
Proof.
  intros (era & y & doy & Hy & Hd & ->)%valid_date_of.
  rewrite to_days_date_of by eauto using doy_bound. by apply from_days_of.
Qed.

(** The days up to the end of the month share its year and month. *)
Lemma from_days_in_month days k :
  0 <= k -> day (from_days days) + k <= days_in (year (from_days days)) (month (from_days days)) ->
  from_days (days + k) =
    mkDate (year (from_days days)) (month (from_days days)) (day (from_days days) + k).
Proof.
  intros Hk. pattern k. apply natlike_ind; [| | done].
  - intros _. rewrite !Z.add_0_r. by destruct (from_days days).
  - intros j Hj IH Hle. rewrite <- Z.add_1_r, Z.add_assoc, from_days_succ, IH by lia.
    unfold next_date; cbn [year month day].
    destruct (Z.ltb_spec (day (from_days days) + j)
      (days_in (year (from_days days)) (month (from_days days)))); [|lia].
    f_equal. lia.
Qed.

Lemma first_of_next_month_spec days :
  first_of_next_month (from_days days) =
    days + (days_in (year (from_days days)) (month (from_days days))
            - day (from_days days)) + 1.
Proof.
  destruct (from_days_valid days) as [Hm Hd].
  set (n := days_in (year (from_days days)) (month (from_days days))) in *.
  rewrite <- (to_from_days (days + (n - day (from_days days)) + 1)).
  rewrite from_days_succ, (from_days_in_month days (n - day (from_days days))) by lia.
  unfold first_of_next_month, next_date; cbn [year month day]. fold n.
  destruct (Z.ltb_spec (day (from_days days) + (n - day (from_days days))) n); [lia|].
  destruct (Z.eqb_spec (month (from_days days)) 12), (Z.ltb_spec (month (from_days days)) 12);
    congruence || lia.
Qed.

(** ** The Gregorian cycle *)

(** Leap years of the cycle start on every weekday, so each day of a leap year
    falls on each weekday within the cycle. *)
Lemma leap_year_start_on r : 0 <= r < 7 ->
  exists y, 0 <= y < 400 /\ year_length y = 366 /\ year_start y mod 7 = r.
Proof.
  intros Hr.
  assert (r = 0 \/ r = 1 \/ r = 2 \/ r = 3 \/ r = 4 \/ r = 5 \/ r = 6) as R by lia.
  destruct R as [-> | [-> | [-> | [-> | [-> | [-> | ->]]]]]];
    [exists 23 | exists 7 | exists 19 | exists 3 | exists 15 | exists 27 | exists 11];
    by vm_compute.
Qed.

Lemma cycle_has_date_on_weekday base m d w :
  1 <= m <= 12 -> 1 <= d <= longest_month m -> 0 <= w < 7 ->
  exists days, base <= days < base + 146097 /\
    month (from_days days) = m /\ day (from_days days) = d /\ weekday days = w.
Proof.
  intros Hm Hd Hw.
  assert (exists mp, 0 <= mp <= 11 /\ m = month_number mp) as (mp & Hmp & ->).
  { exists (if 2 <? m then m - 3 else m + 9). unfold month_number.
    destruct (Z.ltb_spec 2 m); case_match; lia. }
  set (doy := month_start mp + d - 1).
  assert (0 <= doy < 366 /\ month_start mp <= doy < month_start (mp + 1)) as [Hdoy Hin].
  { unfold doy. revert Hd. each_month mp; cbn; lia. }
  destruct (leap_year_start_on ((w - 4 + 719468 - doy) mod 7)) as (y & Hy & Hl & Hs).
  { apply Z.mod_pos_bound. lia. }
  set (t := year_start y + doy - 719468).
  exists (base + (t - base) mod 146097).
  assert (exists era, base + (t - base) mod 146097
                      = era * 146097 + (year_start y + doy) - 719468) as [era E].
  { exists (- ((t - base) / 146097)). unfold t. div_lia. }
  pose proof (Z.mod_pos_bound (t - base) 146097 ltac:(lia)).
  rewrite E, from_days_of by lia. rewrite (date_in_month era y mp) by done.
  cbn [month day]. repeat split; [lia | lia | unfold doy; lia |].
  unfold weekday. div_lia.
Qed.

(** ** Properties *)

(** [from_days] is the proleptic Gregorian calendar: day 0 is
    1970-01-01, and the date of the next day is the next date under the
    month lengths and the leap-year rule. *)
Theorem from_days_gregorian :
  from_days 0 = mkDate 1970 1 1 /\
  forall days, from_days (days + 1) = next_date (from_days days).
Proof. split; [reflexivity | apply from_days_succ]. Qed.

(** [to_days] and [from_days] are inverse: every day count survives
    the trip through a date, and every calendar date the trip through its day
    count. *)
Theorem date_round_trip :
  (forall days, to_days (from_days days) = days /\ valid_date (from_days days)) /\
  (forall d, valid_date d -> from_days (to_days d) = d).
Proof. auto using to_from_days, from_days_valid, from_to_days. Qed.
