(* ===== verification/Cron.v ===== *)
(** * Cron: five-field cron expressions

    Models [crates/nexum-runtime-manifest/src/cron.rs]: the parser ([from_str],
    [parse_field]) and the search for the next fire time ([next_after]), over
    the calendar of [Calendar.v].

    The theorems say that the masks the parser builds are what the grammar
    denotes, that [next_after] returns the first matching minute strictly after
    its argument, and that a validated expression always has one within the
    search bound. *)

From stdpp Require Import prelude list list_numbers strings.
From Stdlib Require Import ZArith Lia.
From S2P Require Import Prelude Calendar.

Open Scope rust_scope.

(** ** Data *)

Inductive CronField : Type :=
| Minute | Hour | DayOfMonth | Month | DayOfWeek.

#[export] Instance CronField_eq_dec : EqDecision CronField.
Proof. solve_decision. Defined.

Definition CronField_ALL : list CronField :=
  [Minute; Hour; DayOfMonth; Month; DayOfWeek].

Definition bounds (field : CronField) : Z * Z :=
  match field with
  | Minute => (0, 59)
  | Hour => (0, 23)
  | DayOfMonth => (1, 31)
  | Month => (1, 12)
  | DayOfWeek => (0, 7)
  end.

Inductive CronError : Type :=
| Macro
| FieldCount (found : Z)
| Unsupported (field : CronField) (token : text)
| Malformed (field : CronField) (token : text)
| OutOfRange (field : CronField) (token : text) (value min max : Z)
| ReversedRange (field : CronField) (token : text)
| InvalidStep (field : CronField) (token : text) (max : Z)
| NeverFires.

Record CronSchedule : Type := mkCronSchedule {
  minutes : Z;
  hours : Z;
  days_of_month : Z;
  months : Z;
  days_of_week : Z;
  either_day : bool;
  expression : text
}.

Definition MINUTES_PER_DAY : Z := 24 * 60.

(** One Gregorian cycle. *)
Definition SEARCH_DAYS : Z := 146097.

(** ** The next fire time *)

(** [mask & (1 << n) != 0]. *)
Definition mask_has (mask n : Z) : bool :=
  negb (Z.land mask (Z.shiftl 1 n) =? 0).

Definition day_matches (s : CronSchedule) (day_of_month weekday : Z) : bool :=
  let by_date := mask_has s.(days_of_month) day_of_month in
  let by_weekday := mask_has s.(days_of_week) weekday in
  if s.(either_day) then by_date || by_weekday else by_date && by_weekday.

Fixpoint pos_trailing_zeros (p : positive) : Z :=
  match p with
  | xO q => 1 + pos_trailing_zeros q
  | _ => 0
  end.

(** [u64::trailing_zeros]; 64 on zero. *)
Definition trailing_zeros (z : Z) : Z :=
  match z with
  | Zpos p => pos_trailing_zeros p
  | _ => 64
  end.

(** The first matching minute of one hour of a day at or after [from]. *)
Definition minute_of_hour_from (s : CronSchedule) (from_hour from_minute hour : Z) : option Z :=
  if negb (mask_has s.(hours) hour) then None
  else
    let start := if hour =? from_hour then from_minute else 0 in
    let remaining := Z.shiftr s.(minutes) start in
    if negb (remaining =? 0)
    then Some (hour * 60 + start + trailing_zeros remaining)
    else None.

(** The first matching minute of a day at or after [from]. *)
Definition minute_of_day_from (s : CronSchedule) (from : Z) : option Z :=
  let '(from_hour, from_minute) := (from / 60, from mod 60) in
  find_map (minute_of_hour_from s from_hour from_minute) (seqZ from_hour (24 - from_hour)).

(** The [while day <= last_day] loop.  Every pass moves [day] forward, so
    [last_day - day + 1] passes are enough. *)
Fixpoint next_after_loop (fuel : nat) (s : CronSchedule) (last_day day minute_of_day : Z)
    : option Z :=
  match fuel with
  | O => None
  | S fuel =>
      if negb (day <=? last_day) then None
      else
        let date := from_days day in
        if negb (mask_has s.(months) date.(Calendar.month)) then
          next_after_loop fuel s last_day (first_of_next_month date) 0
        else
          match (if day_matches s date.(Calendar.day) (weekday day)
                 then minute_of_day_from s minute_of_day else None) with
          | Some minute =>
              let! day_minutes := day *? MINUTES_PER_DAY in
              let! minutes := day_minutes +? minute in
              let! secs := minutes *? 60 in
              Some (duration_from_secs secs)
          | None => next_after_loop fuel s last_day (day + 1) 0
          end
  end.

Definition next_after (s : CronSchedule) (after : Z) : option Z :=
  let! first_minute := (as_secs after / 60) +? 1 in
  let day := first_minute / MINUTES_PER_DAY in
  let minute_of_day := first_minute mod MINUTES_PER_DAY in
  let! last_day := day +? SEARCH_DAYS in
  next_after_loop (Z.to_nat (last_day - day + 1)) s last_day day minute_of_day.

(** ** The parser *)

Section Parser.
(** [char::is_alphabetic] outside ASCII: the Unicode table of the standard
    library.  No theorem depends on what it holds. *)
Variable unicode_alphabetic : Z -> bool.

Definition is_alphabetic (c : Z) : bool :=
  if c <? 128 then is_ascii_lowercase c || is_ascii_uppercase c
  else unicode_alphabetic c.

(** The [number] closure of [parse_field]. *)
Definition number (field : CronField) (token digits : text) : result Z CronError :=
  let '(min, max) := bounds field in
  if bool_decide (digits = []) || negb (forallb is_ascii_digit digits) then
    Err (Malformed field token)
  else
    let value := default u32_max (parse_u32_digits digits) in
    if negb ((min <=? value) && (value <=? max)) then
      Err (OutOfRange field token value min max)
    else Ok value.

(** The span [low..=high] a token's range part names. *)
Definition token_span (field : CronField) (token range : text) (step : option text)
    : result (Z * Z) CronError :=
  let '(min, max) := bounds field in
  if bool_decide (range = chars_of "*") then Ok (min, max)
  else
    match split_once 45 range with
    | Some (low, high) =>
        let? l := number field token low in
        let? h := number field token high in
        Ok (l, h)
    | None =>
        if bool_decide (is_Some step) then Err (Malformed field token)
        else
          let? value := number field token range in
          Ok (value, value)
    end.

Definition token_step (field : CronField) (token : text) (step : option text)
    : result Z CronError :=
  let '(_, max) := bounds field in
  match step with
  | None => Ok 1
  | Some digits =>
      if bool_decide (digits = []) || negb (forallb is_ascii_digit digits) then
        Err (Malformed field token)
      else
        match parse_u32_digits digits with
        | None => Err (InvalidStep field token max)
        | Some step =>
            if negb ((1 <=? step) && (step <=? max)) then Err (InvalidStep field token max)
            else Ok step
        end
  end.

(** [(low..=high).step_by(step)]. *)
Definition step_by (low high step : Z) : list Z :=
  (fun k => low + k * step) <$> seqZ 0 ((high - low) / step + 1).

Definition set_bit (field : CronField) (bits value : Z) : Z :=
  let value := if bool_decide (field = DayOfWeek) then value mod 7 else value in
  Z.lor bits (Z.shiftl 1 value).

(** One pass of the [for token in text.split(',')] loop. *)
Definition parse_token (field : CronField) (bits : Z) (token : text) : result Z CronError :=
  if existsb (fun c => is_alphabetic c || (c =? 35) || (c =? 63)) token then
    Err (Unsupported field token)
  else
    let '(range, step) :=
      match split_once 47 token with
      | Some (range, step) => (range, Some step)
      | None => (token, None)
      end in
    let? (low, high) := token_span field token range step in
    if high <? low then Err (ReversedRange field token)
    else
      let? step := token_step field token step in
      Ok (fold_left (set_bit field) (step_by low high step) bits).

Fixpoint parse_tokens (field : CronField) (bits : Z) (tokens : list text)
    : result Z CronError :=
  match tokens with
  | [] => Ok bits
  | token :: rest =>
      let? bits := parse_token field bits token in
      parse_tokens field bits rest
  end.

Definition parse_field (field : CronField) (s : text) : result Z CronError :=
  parse_tokens field 0 (split 44 s).

(** Whether the date fields name a real date. *)
Definition dated (months days_of_month : Z) : bool :=
  existsb
    (fun month =>
       negb (Z.land days_of_month (Z.shiftl 1 (longest_month month + 1) - 1) =? 0))
    (List.filter (mask_has months) (seqZ 1 12)).

Definition from_str (expression : text) : result CronSchedule CronError :=
  let expression := trim expression in
  if starts_with (chars_of "@") expression then Err Macro
  else
    match split_ascii_whitespace expression with
    | [f0; f1; f2; f3; f4] =>
        let? minutes := parse_field Minute f0 in
        let? hours := parse_field Hour f1 in
        let? days_of_month := parse_field DayOfMonth f2 in
        let? months := parse_field Month f3 in
        let? days_of_week := parse_field DayOfWeek f4 in
        let either_day :=
          negb (starts_with (chars_of "*") f2) && negb (starts_with (chars_of "*") f4) in
        if negb (dated months days_of_month) && negb either_day then Err NeverFires
        else
          Ok (mkCronSchedule minutes hours days_of_month months days_of_week
                either_day expression)
    | fields => Err (FieldCount (Z.of_nat (length fields)))
    end.
End Parser.

(** ** Masks *)

Lemma mask_has_testbit mask n : 0 <= n -> mask_has mask n = Z.testbit mask n.
Proof.
  intros Hn. unfold mask_has. rewrite Z.shiftl_1_l.
  destruct (Z.testbit mask n) eqn:E.
  - apply negb_true_iff, Z.eqb_neq. intros H0.
    apply (f_equal (fun z => Z.testbit z n)) in H0.
    rewrite Z.land_spec, E, Z.pow2_bits_true, Z.bits_0 in H0 by done. done.
  - apply negb_false_iff, Z.eqb_eq, Z.bits_inj'. intros i Hi.
    rewrite Z.land_spec, Z.bits_0. destruct (decide (i = n)) as [-> | Hne].
    + by rewrite E.
    + rewrite Z.pow2_bits_false by lia. apply andb_false_r.
Qed.

Lemma pos_trailing_zeros_nonneg p : 0 <= pos_trailing_zeros p.
Proof. induction p; cbn -[Z.add]; lia. Qed.

(** [trailing_zeros] is the index of the lowest set bit. *)
Lemma trailing_zeros_spec z : 0 < z ->
  0 <= trailing_zeros z /\ Z.testbit z (trailing_zeros z) = true /\
  forall i, 0 <= i < trailing_zeros z -> Z.testbit z i = false.
Proof.
  intros Hz. destruct z as [|p|p]; try lia. cbn [trailing_zeros]. clear Hz.
  induction p as [p IH | p IH |]; cbn [pos_trailing_zeros].
  - repeat split; [lia | intros; lia].
  - pose proof (pos_trailing_zeros_nonneg p). destruct IH as (_ & IH1 & IH2).
    repeat split; [lia | |].
    + rewrite Pos2Z.inj_xO, Z.add_1_l, Z.double_bits_succ. done.
    + intros i Hi. rewrite Pos2Z.inj_xO. destruct (decide (i = 0)) as [-> | Hne].
      * apply Z.testbit_even_0.
      * replace i with (Z.succ (i - 1)) by lia. rewrite Z.double_bits_succ. apply IH2. lia.
  - repeat split; [lia | intros; lia].
Qed.

(** ** Well-formed schedules *)

(** A mask over the values [lo..hi] of a field, with at least one value. *)
Definition mask_within (mask lo hi : Z) : Prop :=
  0 < mask /\ forall n, 0 <= n -> Z.testbit mask n = true -> lo <= n <= hi.

Record wf_schedule (s : CronSchedule) : Prop := {
  wf_minutes : mask_within s.(minutes) 0 59;
  wf_hours : mask_within s.(hours) 0 23;
  wf_days_of_month : mask_within s.(days_of_month) 1 31;
  wf_months : mask_within s.(months) 1 12;
  wf_days_of_week : mask_within s.(days_of_week) 0 6;
  wf_dated : s.(either_day) = true \/
    exists m d, 1 <= m <= 12 /\ 1 <= d <= longest_month m /\
      Z.testbit s.(months) m = true /\ Z.testbit s.(days_of_month) d = true
}.

(** The minutes of a day the hour and minute fields admit. *)
Definition minute_ok (s : CronSchedule) (m : Z) : bool :=
  mask_has s.(hours) (m / 60) && mask_has s.(minutes) (m mod 60).

(** Whether the schedule fires at minute [t] after the epoch. *)
Definition fires (s : CronSchedule) (t : Z) : bool :=
  let d := t / MINUTES_PER_DAY in
  mask_has s.(months) (from_days d).(Calendar.month)
  && day_matches s (from_days d).(Calendar.day) (weekday d)
  && minute_ok s (t mod MINUTES_PER_DAY).

Lemma minute_of_hour_from_spec s fh fm h :
  mask_within s.(minutes) 0 59 -> 0 <= fm < 60 -> fh <= h ->
  let from := fh * 60 + fm in
  match minute_of_hour_from s fh fm h with
  | Some m => m / 60 = h /\ from <= m /\ minute_ok s m = true /\
              forall m', m' / 60 = h -> from <= m' < m -> minute_ok s m' = false
  | None => forall m', m' / 60 = h -> from <= m' -> minute_ok s m' = false
  end.
Proof.
  intros [Hpos Hin] Hfm Hh from. unfold minute_of_hour_from, minute_ok.
  destruct (mask_has (hours s) h) eqn:Eh; cbn [negb].
  2: { intros m' <- _. by rewrite Eh. }
  set (start := if h =? fh then fm else 0).
  assert (0 <= start < 60) as Hstart by (unfold start; case_match; lia).
  assert (forall m', m' / 60 = h -> from <= m' <-> start <= m' mod 60) as Hfrom.
  { intros m' E. unfold from, start. destruct (Z.eqb_spec h fh); div_lia. }
  destruct (Z.eqb_spec (Z.shiftr (minutes s) start) 0) as [E0 | E0]; cbn [negb].
  - intros m' Em Hle. rewrite Em, Eh. cbn. rewrite mask_has_testbit by div_lia.
    apply (Hfrom m' Em) in Hle.
    replace (m' mod 60) with ((m' mod 60 - start) + start) by lia.
    rewrite <- Z.shiftr_spec, E0 by lia. apply Z.bits_0.
  - assert (0 < Z.shiftr (minutes s) start) as Hp
      by (pose proof (Z.shiftr_nonneg (minutes s) start); lia).
    destruct (trailing_zeros_spec _ Hp) as (Ht0 & Ht1 & Ht2).
    set (tz := trailing_zeros _) in *. rewrite Z.shiftr_spec in Ht1 by lia.
    pose proof (Hin (tz + start) ltac:(lia) Ht1).
    assert ((h * 60 + start + tz) / 60 = h) as Ediv by div_lia.
    assert ((h * 60 + start + tz) mod 60 = tz + start) as Emod by div_lia.
    split; [done|]. split; [apply Hfrom; [done | lia]|]. split.
    + rewrite Ediv, Emod, Eh, mask_has_testbit by lia. done.
    + intros m' Em [Hle Hlt]. rewrite Em, Eh. cbn. rewrite mask_has_testbit by div_lia.
      apply (Hfrom m' Em) in Hle.
      replace (m' mod 60) with ((m' mod 60 - start) + start) by lia.
      rewrite <- Z.shiftr_spec by lia. apply Ht2. div_lia.
Qed.

Lemma minute_of_day_from_spec s from :
  mask_within s.(minutes) 0 59 -> 0 <= from < MINUTES_PER_DAY ->
  match minute_of_day_from s from with
  | Some m => from <= m < MINUTES_PER_DAY /\ minute_ok s m = true /\
              forall m', from <= m' < m -> minute_ok s m' = false
  | None => forall m', from <= m' < MINUTES_PER_DAY -> minute_ok s m' = false
  end.
Proof.
  unfold MINUTES_PER_DAY. intros Hw Hf. unfold minute_of_day_from.
  assert (from = from / 60 * 60 + from mod 60) as Efrom by div_lia.
  pose proof (find_map_seqZ (minute_of_hour_from s (from / 60) (from mod 60))
    (from / 60) (24 - from / 60)) as H.
  assert (forall h, from / 60 <= h -> _) as Hspec
    by (intros h Hh; exact (minute_of_hour_from_spec s (from / 60) (from mod 60) h Hw
                              ltac:(div_lia) Hh)).
  rewrite <- Efrom in Hspec. destruct (find_map _ _) as [m|].
  - destruct H as (h & Hh & Em & Hbefore). pose proof (Hspec h ltac:(lia)) as S.
    rewrite Em in S. destruct S as (Hdiv & Hle & Hok & Hleast).
    split; [div_lia|]. split; [done|]. intros m' Hm'.
    destruct (decide (m' / 60 = h)) as [E | E]; [by apply Hleast|].
    assert (from / 60 <= m' / 60 < h) as Hb by div_lia.
    pose proof (Hspec (m' / 60) ltac:(lia)) as S. rewrite Hbefore in S by lia.
    apply S; [done | lia].
  - intros m' Hm'. assert (from / 60 <= m' / 60 < from / 60 + (24 - from / 60)) as Hb by div_lia.
    pose proof (Hspec (m' / 60) ltac:(lia)) as S. rewrite H in S by lia. apply S; [done | lia].
Qed.

(** ** The search *)

(** The instant of minute [t], when its second count fits a [u64]. *)
Definition minute_instant (t : Z) : option Z :=
  if t * 60 <=? u64_max then Some (duration_from_secs (t * 60)) else None.

Lemma minute_instant_checked d m : 0 <= d -> 0 <= m ->
  (let! day_minutes := d *? MINUTES_PER_DAY in
   let! minutes := day_minutes +? m in
   let! secs := minutes *? 60 in
   Some (duration_from_secs secs)) = minute_instant (d * MINUTES_PER_DAY + m).
Proof.
  intros Hd Hm. unfold minute_instant, u64_checked, MINUTES_PER_DAY.
  repeat case_match; destruct_and?; simplify_eq; try done; lia.
Qed.

(** Minutes [t] the loop at [day], [minute_of_day] still has to examine. *)
Definition in_search (last_day day minute_of_day t : Z) : Prop :=
  day * MINUTES_PER_DAY + minute_of_day <= t /\ t / MINUTES_PER_DAY <= last_day.

Lemma fires_other_month s d t :
  mask_has s.(months) (from_days d).(Calendar.month) = false ->
  d <= t / MINUTES_PER_DAY < first_of_next_month (from_days d) -> fires s t = false.
Proof.
  intros Hm Ht. rewrite first_of_next_month_spec in Ht. unfold fires.
  replace (t / MINUTES_PER_DAY) with (d + (t / MINUTES_PER_DAY - d)) by lia.
  rewrite from_days_in_month by lia. cbn [Calendar.month]. by rewrite Hm.
Qed.

(** What a search from [day], [minute_of_day] must answer: the instant of the
    first firing minute it examines, or nothing when there is none. *)
Definition search_result (s : CronSchedule) (last_day day minute_of_day : Z) (r : option Z)
    : Prop :=
  (exists t, in_search last_day day minute_of_day t /\ fires s t = true /\
     (forall t', in_search last_day day minute_of_day t' -> t' < t -> fires s t' = false) /\
     r = minute_instant t) \/
  ((forall t, in_search last_day day minute_of_day t -> fires s t = false) /\ r = None).

Lemma search_over s last_day d m :
  0 <= m -> last_day < d -> search_result s last_day d m None.
Proof.
  right. split; [|done]. unfold in_search, MINUTES_PER_DAY in *. intros t Ht. exfalso. div_lia.
Qed.

(** Days without a firing minute may be skipped. *)
Lemma search_skip s last_day d d' m r :
  0 <= m < MINUTES_PER_DAY -> d < d' ->
  (forall t, d <= t / MINUTES_PER_DAY < d' -> in_search last_day d m t -> fires s t = false) ->
  search_result s last_day d' 0 r -> search_result s last_day d m r.
Proof.
  intros Hm Hlt Hnone.
  assert (forall t, in_search last_day d m t ->
            in_search last_day d' 0 t \/ fires s t = false) as Hcase.
  { intros t Hin. destruct (decide (d' * MINUTES_PER_DAY + 0 <= t)) as [Hge | Hl].
    - left. split; [done | apply Hin].
    - right. apply Hnone; [|done]. unfold in_search, MINUTES_PER_DAY in *. div_lia. }
  intros [(t & Hin & Hf & Hl & ->) | [Hn ->]].
  - left. exists t. repeat split; [| apply Hin | done |].
    + destruct Hin as [Hge _]. unfold MINUTES_PER_DAY in *. lia.
    + intros t' Hin' Hlt'. destruct (Hcase t' Hin'); [by apply Hl | done].
  - right. split; [|done]. intros t Hin. destruct (Hcase t Hin); [by apply Hn | done].
Qed.

(** A firing minute of the current day ends the search. *)
Lemma search_found s last_day d m m' :
  d <= last_day -> 0 <= m <= m' -> m' < MINUTES_PER_DAY ->
  fires s (d * MINUTES_PER_DAY + m') = true ->
  (forall k, m <= k < m' -> fires s (d * MINUTES_PER_DAY + k) = false) ->
  search_result s last_day d m (minute_instant (d * MINUTES_PER_DAY + m')).
Proof.
  intros Hd Hm Hm' Hf Hl. left. exists (d * MINUTES_PER_DAY + m').
  unfold in_search. repeat split; [lia | unfold MINUTES_PER_DAY in *; div_lia | done |].
  intros t' Ht' Hlt. replace t' with (d * MINUTES_PER_DAY + (t' - d * MINUTES_PER_DAY)) by lia.
  apply Hl. lia.
Qed.

Lemma fires_on_day s d k :
  mask_has s.(months) (from_days d).(Calendar.month) = true -> 0 <= k < MINUTES_PER_DAY ->
  fires s (d * MINUTES_PER_DAY + k) =
    day_matches s (from_days d).(Calendar.day) (weekday d) && minute_ok s k.
Proof.
  intros Hm Hk. unfold fires.
  replace ((d * MINUTES_PER_DAY + k) / MINUTES_PER_DAY) with d
    by (unfold MINUTES_PER_DAY in *; div_lia).
  replace ((d * MINUTES_PER_DAY + k) mod MINUTES_PER_DAY) with k
    by (unfold MINUTES_PER_DAY in *; div_lia).
  by rewrite Hm.
Qed.

Lemma next_after_loop_spec s fuel last_day d m :
  mask_within s.(minutes) 0 59 -> 0 <= d -> 0 <= m < MINUTES_PER_DAY ->
  last_day - d + 1 <= Z.of_nat fuel ->
  search_result s last_day d m (next_after_loop fuel s last_day d m).
Proof.
  intros Hw. revert d m. induction fuel as [|fuel IH]; intros d m Hd Hm Hf.
  { apply search_over; lia. }
  cbn [next_after_loop]. destruct (Z.leb_spec d last_day) as [Hle | Hgt]; cbn [negb].
  2: { apply search_over; lia. }
  destruct (mask_has (months s) (Calendar.month (from_days d))) eqn:Em; cbn [negb].
  2: { assert (d < first_of_next_month (from_days d))
         by (rewrite first_of_next_month_spec; destruct (from_days_valid d); lia).
       eapply search_skip; [done | | | apply IH; [lia | done | lia]]; [lia|].
       intros t Ht _. by apply (fires_other_month s d). }
  pose proof (minute_of_day_from_spec s m Hw Hm) as Hday.
  assert (forall t, d <= t / MINUTES_PER_DAY < d + 1 -> in_search last_day d m t ->
            exists k, m <= k < MINUTES_PER_DAY /\ t = d * MINUTES_PER_DAY + k) as Hk.
  { intros t Ht Hin. exists (t - d * MINUTES_PER_DAY).
    unfold in_search, MINUTES_PER_DAY in *. div_lia. }
  destruct (day_matches s (Calendar.day (from_days d)) (weekday d)) eqn:Ed;
    [destruct (minute_of_day_from s m) as [m'|]|].
  - destruct Hday as (Hm' & Hok & Hleast). rewrite minute_instant_checked by lia.
    apply search_found; [done | lia | lia | |].
    + by rewrite fires_on_day, Ed, Hok by (done || lia).
    + intros k Hk'. rewrite fires_on_day, Ed by (done || lia). by apply Hleast.
  - eapply search_skip; [done | | | apply IH; [lia | done | lia]]; [lia|].
    intros t Ht Hin. destruct (Hk t Ht Hin) as (k & Hk' & ->).
    rewrite fires_on_day, Ed by (done || lia). by apply Hday.
  - eapply search_skip; [done | | | apply IH; [lia | done | lia]]; [lia|].
    intros t Ht Hin. destruct (Hk t Ht Hin) as (k & Hk' & ->).
    by rewrite fires_on_day, Ed by (done || lia).
Qed.

(** Whether [r], since the epoch, is the instant of a firing minute. *)
Definition fire_time (s : CronSchedule) (r : Z) : Prop :=
  exists t, r = duration_from_secs (t * 60) /\ fires s t = true.

(** The minutes strictly after an instant. *)
Lemma minute_after after t :
  after < duration_from_secs (t * 60) <-> as_secs after / 60 + 1 <= t.
Proof. unfold duration_from_secs, as_secs, NANOS_PER_SEC. div_lia. Qed.

Lemma u64_checked_in x : is_u64 x -> u64_checked x = Some x.
Proof. unfold is_u64, u64_checked. intros. case_match; [done|]. lia. Qed.

(** The search [next_after] runs, past its two overflow checks. *)
Lemma next_after_search s after :
  mask_within s.(minutes) 0 59 -> is_duration after ->
  let first := as_secs after / 60 + 1 in
  let d := first / MINUTES_PER_DAY in
  search_result s (d + SEARCH_DAYS) d (first mod MINUTES_PER_DAY) (next_after s after).
Proof.
  intros Hw Hd first d.
  assert (0 <= first <= 307445734561825861) as Hfirst.
  { unfold first, as_secs, is_duration, NANOS_PER_SEC in *. div_lia. }
  assert (0 <= d <= 213503982334602) as Hday by (unfold d, MINUTES_PER_DAY; div_lia).
  unfold next_after. fold first. rewrite u64_checked_in by (unfold is_u64, u64_max; lia).
  fold d. rewrite u64_checked_in by (unfold is_u64, u64_max, SEARCH_DAYS; lia).
  apply next_after_loop_spec; [done | lia | apply Z.mod_pos_bound; done | ].
  unfold SEARCH_DAYS. lia.
Qed.

Lemma next_after_first_fire s after r :
  mask_within s.(minutes) 0 59 -> is_duration after -> next_after s after = Some r ->
  after < r /\ fire_time s r /\ forall r', after < r' < r -> ~ fire_time s r'.
Proof.
  intros Hw Hd E. pose proof (next_after_search s after Hw Hd) as Hs. rewrite E in Hs.
  set (first := as_secs after / 60 + 1) in *.
  assert (first = first / MINUTES_PER_DAY * MINUTES_PER_DAY + first mod MINUTES_PER_DAY)
    as Ef by (unfold MINUTES_PER_DAY; div_lia).
  destruct Hs as [(t & [Hge Hle] & Hf & Hl & Er) | [_ ?]]; [|done].
  unfold minute_instant in Er. case_match; simplify_eq.
  rewrite <- Ef in Hge. split; [by apply minute_after|]. split; [by exists t|].
  intros r' [Hlt Hgt] (t' & -> & Hf').
  assert (t' < t) by (unfold duration_from_secs, NANOS_PER_SEC in Hgt; lia).
  rewrite (Hl t') in Hf'; [done | | done].
  apply minute_after in Hlt. split; [lia|]. etransitivity; [|exact Hle].
  apply Z.div_le_mono; [done | lia].
Qed.

(** ** The search bound suffices *)

Lemma mask_within_has mask lo hi : mask_within mask lo hi -> 0 <= lo ->
  exists n, lo <= n <= hi /\ Z.testbit mask n = true.
Proof.
  intros [Hp Hin] Hlo. destruct (trailing_zeros_spec mask Hp) as (H0 & H1 & _).
  exists (trailing_zeros mask). split; [by apply Hin | done].
Qed.

(** A validated schedule admits a day in every Gregorian cycle. *)
Lemma cycle_has_matching_day s base :
  wf_schedule s ->
  exists d, base <= d < base + SEARCH_DAYS /\
    mask_has s.(months) (from_days d).(Calendar.month) = true /\
    day_matches s (from_days d).(Calendar.day) (weekday d) = true.
Proof.
  intros [_ _ Hdom Hmon Hdow Hdated].
  destruct (mask_within_has _ _ _ Hdow ltac:(done)) as (w & Hw & Ew).
  assert (exists m d, 1 <= m <= 12 /\ 1 <= d <= longest_month m /\
    Z.testbit (months s) m = true /\
    (either_day s = true \/ Z.testbit (days_of_month s) d = true))
    as (m & d & Hm & Hd & Em & Ed).
  { destruct Hdated as [He | (m & d & ? & ? & ? & ?)]; [| exists m, d; tauto].
    destruct (mask_within_has _ _ _ Hmon ltac:(done)) as (m & Hm & Em).
    exists m, 1. split; [lia|]. split; [|tauto]. unfold longest_month. repeat case_match; lia. }
  destruct (cycle_has_date_on_weekday base m d w) as (x & Hx & E1 & E2 & E3);
    [lia | done | lia |].
  exists x. split; [done|]. rewrite E1, E2, E3. unfold day_matches.
  rewrite !mask_has_testbit by lia. split; [done|]. rewrite Ew.
  destruct (either_day s); [apply orb_true_r|]. destruct Ed as [? | ->]; done.
Qed.

Lemma matching_minute s :
  mask_within s.(minutes) 0 59 -> mask_within s.(hours) 0 23 ->
  exists k, 0 <= k < MINUTES_PER_DAY /\ minute_ok s k = true.
Proof.
  intros Hm Hh. destruct (mask_within_has _ _ _ Hm ltac:(done)) as (m & Hm' & Em).
  destruct (mask_within_has _ _ _ Hh ltac:(done)) as (h & Hh' & Eh).
  exists (h * 60 + m). unfold minute_ok, MINUTES_PER_DAY. split; [lia|].
  replace ((h * 60 + m) / 60) with h by div_lia.
  replace ((h * 60 + m) mod 60) with m by div_lia.
  by rewrite !mask_has_testbit, Em, Eh by lia.
Qed.

(** Seconds past which an instant no longer has a full cycle ahead of it in a
    [u64] of seconds. *)
Definition search_horizon : Z := u64_max - (SEARCH_DAYS + 1) * 86400 - 60.

Lemma next_after_total s after :
  wf_schedule s -> 0 <= after -> as_secs after <= search_horizon ->
  exists r, next_after s after = Some r /\
    as_secs r <= as_secs after + (SEARCH_DAYS + 1) * 86400 + 60.
Proof.
  intros Hwf H0 Hh.
  assert (is_duration after) as Hd.
  { unfold is_duration, search_horizon, as_secs, u64_max, NANOS_PER_SEC, SEARCH_DAYS in *.
    div_lia. }
  pose proof (next_after_search s after (wf_minutes _ Hwf) Hd) as Hs.
  set (first := as_secs after / 60 + 1) in *. set (d := first / MINUTES_PER_DAY) in *.
  destruct (cycle_has_matching_day s (d + 1) Hwf) as (x & Hx & Em & Ed).
  destruct (matching_minute s (wf_minutes _ Hwf) (wf_hours _ Hwf)) as (k & Hk & Ek).
  assert (0 <= first mod MINUTES_PER_DAY < MINUTES_PER_DAY)
    by (apply Z.mod_pos_bound; done).
  destruct Hs as [(t & [_ Hle] & _ & _ & ->) | [Hn _]].
  - assert (t * 60 <= as_secs after + (SEARCH_DAYS + 1) * 86400 + 60) as Ht
      by (unfold d, first, SEARCH_DAYS, MINUTES_PER_DAY in *; div_lia).
    unfold minute_instant. destruct (Z.leb_spec (t * 60) u64_max) as [Hle' | Hgt].
    + eexists. split; [done|]. unfold as_secs at 1, duration_from_secs, NANOS_PER_SEC.
      by rewrite Z.div_mul by done.
    + exfalso. unfold search_horizon in Hh. lia.
  - exfalso. specialize (Hn (x * MINUTES_PER_DAY + k)).
    rewrite fires_on_day, Ed, Ek in Hn by done.
    enough (true && true = false) by done. apply Hn.
    unfold in_search, MINUTES_PER_DAY in *. split; div_lia.
Qed.

(** ** The parser builds well-formed masks *)

(** The bit a value of a field sets: weekday 7 folds onto 0. *)
Definition bit_of (field : CronField) (value : Z) : Z :=
  if bool_decide (field = DayOfWeek) then value mod 7 else value.

Lemma bit_of_nonneg field v : 0 <= v -> 0 <= bit_of field v.
Proof. unfold bit_of. intros. case_bool_decide; [apply Z.mod_pos_bound|]; lia. Qed.

Lemma fold_set_bit field (l : list Z) bits n :
  Forall (Z.le 0) l -> 0 <= n ->
  Z.testbit (fold_left (set_bit field) l bits) n = true <->
    Z.testbit bits n = true \/ exists v, v ∈ l /\ bit_of field v = n.
Proof.
  intros Hl Hn. revert bits. induction Hl as [|v l Hv Hl IH]; intros bits; cbn [fold_left].
  - set_solver.
  - rewrite IH. unfold set_bit. fold (bit_of field v).
    pose proof (bit_of_nonneg field v Hv). rewrite Z.lor_spec, Z.shiftl_1_l, orb_true_iff.
    rewrite Z.pow2_bits_eqb, Z.eqb_eq by lia. set_solver.
Qed.

Lemma fold_set_bit_nonneg field (l : list Z) bits :
  0 <= bits -> 0 <= fold_left (set_bit field) l bits.
Proof.
  revert bits. induction l as [|v l IH]; intros bits Hb; cbn [fold_left]; [done|].
  apply IH. apply Z.lor_nonneg. split; [done|]. rewrite Z.shiftl_nonneg. lia.
Qed.

Lemma elem_of_step_by low high step v :
  1 <= step -> low <= high ->
  v ∈ step_by low high step <->
    exists k, 0 <= k /\ v = low + k * step /\ v <= high.
Proof.
  intros Hs Hlh. unfold step_by. rewrite list_elem_of_fmap. split.
  - intros (k & -> & Hk%elem_of_seqZ). exists k. split; [lia|]. split; [done|].
    pose proof (Z.mul_div_le (high - low) step ltac:(lia)). nia.
  - intros (k & Hk & -> & Hle). exists k. split; [done|]. apply elem_of_seqZ.
    split; [lia|]. enough (k <= (high - low) / step) by lia.
    apply Z.div_le_lower_bound; lia.
Qed.

Lemma number_ok field token digits v :
  number field token digits = Ok v -> (bounds field).1 <= v <= (bounds field).2.
Proof.
  unfold number. destruct (bounds field) as [lo hi]. cbn. repeat case_match; intros; simplify_eq;
    lia.
Qed.

Section ParserFacts.
Variable unicode_alphabetic : Z -> bool.
Abbreviation parse_token := (parse_token unicode_alphabetic).
Abbreviation parse_tokens := (parse_tokens unicode_alphabetic).
Abbreviation parse_field := (parse_field unicode_alphabetic).
Abbreviation from_str := (from_str unicode_alphabetic).

Lemma token_span_ok field token range step low high :
  token_span field token range step = Ok (low, high) ->
  (bounds field).1 <= low <= (bounds field).2 /\ (bounds field).1 <= high <= (bounds field).2.
Proof.
  unfold token_span. destruct (bounds field) as [lo hi] eqn:E. intros H.
  assert (lo <= hi) by (destruct field; cbn in E; simplify_eq; lia).
  repeat case_match; simplify_eq; cbn;
    repeat match goal with
      | H : number _ _ _ = Ok _ |- _ => apply number_ok in H; rewrite E in H; cbn in H
      end; lia.
Qed.

Lemma token_step_ok field token step v :
  token_step field token step = Ok v -> 1 <= v.
Proof.
  unfold token_step. destruct (bounds field). repeat case_match; intros; simplify_eq; lia.
Qed.

(** A parsed token adds the values of a stepped span within the bounds. *)
Lemma parse_token_ok field bits token bits' :
  parse_token field bits token = Ok bits' ->
  exists low high step, (bounds field).1 <= low <= high /\ high <= (bounds field).2 /\
    1 <= step /\ bits' = fold_left (set_bit field) (step_by low high step) bits.
Proof.
  unfold Cron.parse_token. intros H. repeat case_match; simplify_eq.
  all: match goal with
       | H1 : token_span _ _ _ _ = Ok _, H2 : token_step _ _ _ = Ok _ |- _ =>
           apply token_span_ok in H1; apply token_step_ok in H2
       end; eexists _, _, _; repeat split; try done; lia.
Qed.

Definition bit_range (field : CronField) : Z * Z :=
  if bool_decide (field = DayOfWeek) then (0, 6) else bounds field.

Lemma bit_of_range field v : (bounds field).1 <= v <= (bounds field).2 ->
  (bit_range field).1 <= bit_of field v <= (bit_range field).2.
Proof.
  unfold bit_of, bit_range. destruct field; case_bool_decide; try done;
    cbn [bounds fst snd]; intros; div_lia.
Qed.

Lemma bounds_nonneg field : 0 <= (bounds field).1.
Proof. by destruct field. Qed.

(** One more token: every bit stays in range and at least one is set. *)
Lemma parse_token_mask field bits token bits' :
  parse_token field bits token = Ok bits' ->
  0 <= bits ->
  (forall n, 0 <= n -> Z.testbit bits n = true ->
     (bit_range field).1 <= n <= (bit_range field).2) ->
  mask_within bits' (bit_range field).1 (bit_range field).2.
Proof.
  intros (low & high & step & Hlow & Hhigh & Hstep & ->)%parse_token_ok Hb Hin.
  pose proof (bounds_nonneg field).
  assert (Forall (Z.le 0) (step_by low high step)) as Hall.
  { apply Forall_forall. intros v Hv. apply elem_of_step_by in Hv; [|lia..].
    destruct Hv as (k & ? & ? & ?). nia. }
  assert (low ∈ step_by low high step) as Hlow'.
  { apply elem_of_step_by; [lia..|]. exists 0. lia. }
  split.
  - pose proof (fold_set_bit_nonneg field (step_by low high step) bits Hb).
    enough (fold_left (set_bit field) (step_by low high step) bits <> 0) by lia.
    intros E. pose proof (bit_of_nonneg field low ltac:(lia)) as Hn.
    pose proof (proj2 (fold_set_bit field _ bits _ Hall Hn)
      (or_intror (ex_intro _ low (conj Hlow' eq_refl)))) as Ht.
    by rewrite E, Z.bits_0 in Ht.
  - intros n Hn. rewrite fold_set_bit by done. intros [Ht | (v & Hv & <-)]; [by apply Hin|].
    apply bit_of_range. apply elem_of_step_by in Hv; [|lia..].
    destruct Hv as (k & ? & ? & ?). nia.
Qed.

Lemma parse_tokens_mask field tokens bits bits' :
  parse_tokens field bits tokens = Ok bits' ->
  (tokens = [] -> 0 < bits) -> 0 <= bits ->
  (forall n, 0 <= n -> Z.testbit bits n = true ->
     (bit_range field).1 <= n <= (bit_range field).2) ->
  mask_within bits' (bit_range field).1 (bit_range field).2.
Proof.
  revert bits. induction tokens as [|token tokens IH]; cbn [Cron.parse_tokens];
    intros bits H Hne Hb Hin.
  - simplify_eq. split; auto.
  - destruct (parse_token field bits token) as [bits1|] eqn:E; [|done].
    destruct (parse_token_mask _ _ _ _ E Hb Hin) as [Hp Hin'].
    apply (IH bits1); auto with lia.
Qed.

Lemma split_not_nil c s : split c s <> [].
Proof. induction s as [|x s IH]; cbn; repeat case_match; congruence. Qed.

Lemma parse_field_mask field s bits :
  parse_field field s = Ok bits ->
  mask_within bits (bit_range field).1 (bit_range field).2.
Proof.
  intros H. eapply (parse_tokens_mask field _ 0); [exact H | | done |].
  - intros E. by apply split_not_nil in E.
  - intros n _. by rewrite Z.bits_0.
Qed.

Lemma dated_real ms ds :
  dated ms ds = true -> mask_within ds 1 31 ->
  exists m d, 1 <= m <= 12 /\ 1 <= d <= longest_month m /\
    Z.testbit ms m = true /\ Z.testbit ds d = true.
Proof.
  unfold dated. rewrite existsb_exists. intros (m & Hm & Hd) [Hp Hin].
  apply List.filter_In in Hm as [Hm%list_elem_of_In%elem_of_seqZ Hmask].
  rewrite mask_has_testbit in Hmask by lia.
  rewrite Z.shiftl_1_l, Z.sub_1_r, <- Z.ones_equiv, Z.land_ones in Hd
    by (unfold longest_month; repeat case_match; lia).
  apply negb_true_iff, Z.eqb_neq in Hd.
  assert (0 < longest_month m + 1) as Hl by (unfold longest_month; repeat case_match; lia).
  pose proof (Z.mod_pos_bound ds (2 ^ (longest_month m + 1)) ltac:(lia)) as Hr.
  destruct (trailing_zeros_spec (ds mod 2 ^ (longest_month m + 1))) as (H0 & H1 & _); [lia|].
  set (d := trailing_zeros _) in *.
  destruct (decide (d < longest_month m + 1)) as [Hlt | Hge].
  - rewrite Z.mod_pow2_bits_low in H1 by lia. exists m, d.
    pose proof (Hin d H0 H1). repeat split; done || lia.
  - by rewrite Z.mod_pow2_bits_high in H1 by lia.
Qed.

Lemma from_str_wf e s : from_str e = Ok s -> wf_schedule s.
Proof.
  unfold Cron.from_str. intros H. repeat case_match; simplify_eq.
  repeat match goal with
    | H : parse_field _ _ = Ok _ |- _ => apply parse_field_mask in H; cbn in H
    end.
  constructor; cbn; try done.
  match goal with
  | H : negb (dated _ _) && negb ?e = false |- _ =>
      apply andb_false_iff in H as [Hd%negb_false_iff | He%negb_false_iff]
  end; [right; by apply dated_real | by left].
Qed.
End ParserFacts.

(** ** The grammar

    What an operator writes, as a syntax tree: a field is a comma list of
    elements, an element a span with an optional step. *)

Inductive Span : Type :=
| SpanAll
| SpanOne (value : Z)
| SpanRange (low high : Z).

Record Element : Type := mkElement { span : Span; every : option Z }.

(** One or two decimal digits. *)
Definition print_number (v : Z) : text :=
  if v <? 10 then [48 + v] else [48 + v / 10; 48 + v mod 10].

Definition print_span (s : Span) : text :=
  match s with
  | SpanAll => chars_of "*"
  | SpanOne v => print_number v
  | SpanRange low high => print_number low ++ 45 :: print_number high
  end.

Definition print_element (e : Element) : text :=
  match e.(every) with
  | None => print_span e.(span)
  | Some n => print_span e.(span) ++ 47 :: print_number n
  end.

Definition print_field (es : list Element) : text := join 44 (print_element <$> es).

Definition valid_element (field : CronField) (e : Element) : Prop :=
  let '(min, max) := bounds field in
  match e.(span) with
  | SpanAll => True
  | SpanOne v => min <= v <= max /\ e.(every) = None
  | SpanRange low high => min <= low <= high /\ high <= max
  end /\ from_option (fun n => 1 <= n <= max) True e.(every).

(** The values an element denotes: every [n]-th value of its span. *)
Definition denotes (field : CronField) (e : Element) (v : Z) : Prop :=
  let '(min, max) := bounds field in
  let '(low, high) :=
    match e.(span) with
    | SpanAll => (min, max)
    | SpanOne v => (v, v)
    | SpanRange low high => (low, high)
    end in
  exists k, 0 <= k /\ v = low + k * default 1 e.(every) /\ v <= high.

Lemma print_number_digits v : 0 <= v < 100 -> Forall (fun c => 48 <= c <= 57) (print_number v).
Proof.
  intros. unfold print_number.
  destruct (Z.ltb_spec v 10); repeat constructor; div_lia.
Qed.

Lemma print_number_value v : 0 <= v < 100 -> digits_value (print_number v) = v.
Proof.
  intros. unfold print_number, digits_value, digit_value.
  destruct (Z.ltb_spec v 10); cbn [fold_left]; div_lia.
Qed.

Lemma print_number_cons v : print_number v <> [].
Proof. unfold print_number. by case_match. Qed.

Lemma bounds_small field : (bounds field).2 < 60.
Proof. by destruct field. Qed.

Lemma print_number_notin v c : 0 <= v < 100 -> c < 48 \/ 57 < c -> c ∉ print_number v.
Proof.
  intros Hv Hc Hin. pose proof (print_number_digits v Hv) as H.
  rewrite Forall_forall in H. apply H in Hin. lia.
Qed.

Lemma digits_all v : 0 <= v < 100 -> forallb is_ascii_digit (print_number v) = true.
Proof.
  intros Hv. apply forallb_forall. intros c Hc%list_elem_of_In.
  pose proof (print_number_digits v Hv) as H. rewrite Forall_forall in H.
  apply H in Hc. unfold is_ascii_digit. lia.
Qed.

Lemma number_print field token v :
  (bounds field).1 <= v <= (bounds field).2 -> number field token (print_number v) = Ok v.
Proof.
  intros Hv. pose proof (bounds_nonneg field). pose proof (bounds_small field).
  unfold number. destruct (bounds field) as [lo hi]; cbn in *.
  rewrite bool_decide_false by apply print_number_cons. rewrite digits_all by lia. cbn.
  unfold parse_u32_digits. rewrite print_number_value by lia.
  destruct (Z.leb_spec v u32_max) as [|Hbig]; [|unfold u32_max in Hbig; lia]. cbn.
  destruct (Z.leb_spec lo v), (Z.leb_spec v hi); done || lia.
Qed.

(** The part of a valid element before its step, as the parser reads it. *)
Lemma token_span_print field token e :
  valid_element field e ->
  exists low high,
    token_span field token (print_span e.(span)) (print_number <$> e.(every)) = Ok (low, high) /\
    (bounds field).1 <= low <= high /\ high <= (bounds field).2 /\
    forall v, denotes field e v <->
      exists k, 0 <= k /\ v = low + k * default 1 e.(every) /\ v <= high.
Proof.
  unfold valid_element, denotes, token_span. intros Hs.
  pose proof (bounds_nonneg field) as H0. pose proof (bounds_small field) as H60.
  destruct (bounds field) as [lo hi] eqn:Eb; cbn [fst snd] in *.
  destruct Hs as [Hs _].
  assert (lo <= hi) by (destruct field; cbn in Eb; simplify_eq; lia).
  destruct e as [[| v | low high] ev]; cbn [span every print_span] in *.
  - exists lo, hi. rewrite bool_decide_true by done. repeat split; auto; lia.
  - destruct Hs as [Hv ->]. exists v, v. rewrite bool_decide_false.
    2: { intros E. pose proof (digits_all v ltac:(lia)) as D. by rewrite E in D. }
    rewrite split_once_none by (apply print_number_notin; lia). cbn.
    rewrite number_print by (rewrite Eb; done). repeat split; auto; lia.
  - exists low, high. rewrite bool_decide_false.
    2: { intros E. apply (f_equal length) in E. rewrite length_app in E.
         destruct (print_number low) eqn:Ep; [by apply print_number_cons in Ep|].
         cbn in E. lia. }
    rewrite split_once_app by (apply print_number_notin; lia).
    rewrite !number_print by (rewrite Eb; cbn; lia). repeat split; auto; lia.
Qed.

Lemma token_step_print field token e :
  valid_element field e ->
  token_step field token (print_number <$> e.(every)) = Ok (default 1 e.(every)).
Proof.
  unfold valid_element, token_step. pose proof (bounds_small field) as H60.
  destruct (bounds field) as [lo hi]; cbn in *. intros [_ He].
  destruct (every e) as [n|]; cbn in *; [|done].
  rewrite bool_decide_false by apply print_number_cons. rewrite digits_all by lia. cbn.
  unfold parse_u32_digits. rewrite print_number_value by lia.
  destruct (Z.leb_spec n u32_max) as [|Hbig]; [|unfold u32_max in Hbig; lia].
  destruct (Z.leb_spec 1 n), (Z.leb_spec n hi); done || lia.
Qed.

(** The characters a printed element is made of: digits, [*], [-] and [/]. *)
Lemma print_element_chars field e c :
  valid_element field e -> c ∈ print_element e -> 48 <= c <= 57 \/ c = 42 \/ c = 45 \/ c = 47.
Proof.
  unfold valid_element, print_element. pose proof (bounds_nonneg field) as H0.
  pose proof (bounds_small field) as H60.
  destruct (bounds field) as [lo hi]; cbn [fst snd] in *. intros [Hs He].
  assert (forall v, 0 <= v < 100 -> c ∈ print_number v -> 48 <= c <= 57) as Hn.
  { intros v Hv. pose proof (print_number_digits v Hv) as H. rewrite Forall_forall in H.
    apply H. }
  assert (c ∈ print_span (span e) -> 48 <= c <= 57 \/ c = 42 \/ c = 45) as Hspan.
  { destruct (span e) as [| v | low high]; cbn [print_span].
    - change (chars_of "*") with [42]. set_solver by lia.
    - intros Hc. left. apply (Hn v); [lia | done].
    - rewrite elem_of_app, elem_of_cons. intros [Hc | [-> | Hc]]; [| lia |];
        left; [apply (Hn low) | apply (Hn high)]; done || lia. }
  destruct (every e) as [n|]; cbn in He.
  - rewrite elem_of_app, elem_of_cons. intros [Hc | [-> | Hc]]; [intuition | lia |].
    left. apply (Hn n); [lia | done].
  - intuition.
Qed.

(** The spans contain no [/], so the first one starts the step. *)
Lemma print_element_split field e :
  valid_element field e ->
  (match split_once 47 (print_element e) with
   | Some (range, step) => (range, Some step)
   | None => (print_element e, None)
   end) = (print_span e.(span), print_number <$> e.(every)).
Proof.
  intros Hv. assert (47 ∉ print_span (span e)) as Hno.
  { unfold valid_element in Hv. pose proof (bounds_nonneg field) as H0.
    pose proof (bounds_small field) as H60.
    destruct (bounds field) as [lo hi]; cbn [fst snd] in *. destruct Hv as [Hs _].
    destruct (span e) as [| v | low high]; cbn [print_span].
    - change (chars_of "*") with [42]. set_solver by lia.
    - apply print_number_notin; lia.
    - rewrite not_elem_of_app, not_elem_of_cons.
      split; [|split; [done|]]; apply print_number_notin; lia. }
  unfold print_element. destruct (every e) as [n|]; cbn.
  - by rewrite split_once_app.
  - by rewrite split_once_none.
Qed.

Section Grammar.
Variable unicode_alphabetic : Z -> bool.

Lemma parse_token_print field bits e :
  valid_element field e ->
  exists bits', parse_token unicode_alphabetic field bits (print_element e) = Ok bits' /\
    forall n, 0 <= n -> Z.testbit bits' n = true <->
      Z.testbit bits n = true \/ exists v, denotes field e v /\ bit_of field v = n.
Proof.
  intros Hv. unfold parse_token.
  assert (existsb (fun c => is_alphabetic unicode_alphabetic c || (c =? 35) || (c =? 63))
            (print_element e) = false) as ->.
  { apply not_true_iff_false. rewrite existsb_exists.
    intros (c & Hc%list_elem_of_In & Hbad). apply (print_element_chars field) in Hc; [|done].
    revert Hbad. unfold is_alphabetic, is_ascii_lowercase, is_ascii_uppercase.
    destruct (Z.ltb_spec c 128); lia. }
  rewrite (print_element_split field) by done.
  destruct (token_span_print field (print_element e) e Hv)
    as (low & high & -> & Hlow & Hhigh & Hden).
  rewrite token_step_print by done.
  destruct (Z.ltb_spec high low); [lia|]. eexists. split; [reflexivity|]. intros n Hn.
  pose proof (bounds_nonneg field).
  assert (1 <= default 1 (every e)) as Hstep.
  { unfold valid_element in Hv. destruct (bounds field). destruct Hv as [_ Hv].
    destruct (every e); cbn in *; lia. }
  rewrite fold_set_bit; [| |done].
  - setoid_rewrite elem_of_step_by; [|lia..]. setoid_rewrite <- Hden. done.
  - apply Forall_forall. intros v. rewrite elem_of_step_by by lia.
    intros (k & ? & ? & ?). nia.
Qed.

Lemma parse_tokens_print field es bits :
  Forall (valid_element field) es ->
  exists bits', parse_tokens unicode_alphabetic field bits (print_element <$> es) = Ok bits' /\
    forall n, 0 <= n -> Z.testbit bits' n = true <->
      Z.testbit bits n = true \/
      exists e v, e ∈ es /\ denotes field e v /\ bit_of field v = n.
Proof.
  intros Hes. revert bits. induction Hes as [|e es He Hes IH]; intros bits.
  - exists bits. split; [done|]. intros n _. split; [auto|].
    intros [? | (e & v & []%not_elem_of_nil & _)]. done.
  - destruct (parse_token_print field bits e He) as (bits1 & E1 & H1).
    destruct (IH bits1) as (bits2 & E2 & H2). exists bits2. cbn. rewrite E1.
    split; [done|]. intros n Hn. rewrite H2, H1 by done.
    setoid_rewrite elem_of_cons. split.
    + intros [[? | (v & ? & ?)] | (e' & v & ? & ? & ?)]; eauto 7.
    + intros [? | (e' & v & [-> | ?] & ? & ?)]; eauto 7.
Qed.

(** A field written in the grammar parses, and its mask holds
    exactly the values the field's elements denote, weekday 7 folded onto
    Sunday. *)
Theorem parse_field_denotes field es :
  es <> [] -> Forall (valid_element field) es ->
  exists bits, parse_field unicode_alphabetic field (print_field es) = Ok bits /\
    forall n, 0 <= n -> Z.testbit bits n = true <->
      exists e v, e ∈ es /\ denotes field e v /\ bit_of field v = n.
Proof.
  intros Hne Hes. unfold parse_field, print_field. rewrite split_join.
  - destruct (parse_tokens_print field es 0 Hes) as (bits & E & H).
    exists bits. split; [done|]. intros n Hn. rewrite H, Z.bits_0 by done.
    split; [by intros [? | ?] | by right].
  - by destruct es.
  - apply Forall_fmap. eapply Forall_impl; [exact Hes|]. intros e He Hc.
    apply (print_element_chars field) in Hc; [lia | done].
Qed.
End Grammar.

Lemma parse_field_denotes_witness :
  exists bits, parse_field (fun _ => false) DayOfWeek
      (print_field [mkElement (SpanRange 5 7) None; mkElement SpanAll (Some 3)]) = Ok bits /\
    forall n, 0 <= n -> Z.testbit bits n = true <->
      exists e v, e ∈ [mkElement (SpanRange 5 7) None; mkElement SpanAll (Some 3)] /\
        denotes DayOfWeek e v /\ bit_of DayOfWeek v = n.
Proof.
  apply (parse_field_denotes (fun _ => false)); [done|].
  repeat constructor; unfold valid_element; cbn; lia.
Defined.

(** ** Properties of the search *)

(** C28: on a validated expression [next_after] returns the first fire time
    strictly after its argument: it is later, it fires, and nothing fires in
    between. *)
Theorem next_after_first unicode_alphabetic e s after r :
  from_str unicode_alphabetic e = Ok s -> is_duration after -> next_after s after = Some r ->
  after < r /\ fire_time s r /\ forall r', after < r' < r -> ~ fire_time s r'.
Proof. intros H. apply next_after_first_fire. by eapply wf_minutes, from_str_wf. Qed.

(** C29: a validated expression always has a next fire time: within one
    Gregorian cycle of any instant the search finds one, so [None] is only
    possible where the [u64] of seconds runs out. *)
Theorem next_after_exists unicode_alphabetic e s after :
  from_str unicode_alphabetic e = Ok s -> 0 <= after -> as_secs after <= search_horizon ->
  exists r, next_after s after = Some r /\
    as_secs r <= as_secs after + (SEARCH_DAYS + 1) * 86400 + 60.
Proof. intros H. by eapply next_after_total, from_str_wf. Qed.

(** 29 February on a Sunday: 2032, then 2060. *)
Definition leap_sunday : text := chars_of "0 0 29 2 */7".
Definition leap_sunday_schedule : CronSchedule :=
  mkCronSchedule 1 1 (2 ^ 29) (2 ^ 2) 1 false leap_sunday.
Definition utc_midnight (y m d : Z) : Z := duration_from_secs (to_days (mkDate y m d) * 86400).

Lemma leap_sunday_parses : from_str (fun _ => false) leap_sunday = Ok leap_sunday_schedule.
Proof. reflexivity. Qed.

Lemma next_after_first_witness :
  utc_midnight 2032 2 29 < utc_midnight 2060 2 29 /\
  fire_time leap_sunday_schedule (utc_midnight 2060 2 29) /\
  forall r', utc_midnight 2032 2 29 < r' < utc_midnight 2060 2 29 ->
    ~ fire_time leap_sunday_schedule r'.
Proof.
  apply (next_after_first (fun _ => false) leap_sunday).
  - exact leap_sunday_parses.
  - by vm_compute.
  - by vm_compute.
Defined.

Lemma next_after_exists_witness :
  exists r, next_after leap_sunday_schedule (utc_midnight 2032 2 29) = Some r /\
    as_secs r <= as_secs (utc_midnight 2032 2 29) + (SEARCH_DAYS + 1) * 86400 + 60.
Proof.
  apply (next_after_exists (fun _ => false) leap_sunday).
  - exact leap_sunday_parses.
  - by vm_compute.
  - by vm_compute.
Defined.
