(* ===== verification/RestartPolicy.v ===== *)
(** * RestartPolicy: exponential backoff with deterministic jitter

    Models [crates/nexum-runtime-supervisor/src/runtime/restart_policy.rs].
    [u64] arithmetic keeps its wrap-around; the process nonce, drawn once from
    the standard library's random state, is an argument. *)

From stdpp Require Import prelude.
From Stdlib Require Import ZArith Lia.
From S2P Require Import Prelude.

(** ** Definitions *)

(** Hard cap on the restart backoff. *)
Definition RESTART_MAX_BACKOFF : Z := duration_from_secs 300.

Definition fnv_step (hash byte : Z) : Z :=
  u64_wrap (Z.lxor hash byte * 0x100000001b3).

(** FNV-1a over the identity's bytes, mixed with the process nonce. *)
Definition jitter_seed (process_nonce : Z) (identity : list Z) : Z :=
  Z.lxor (fold_left fnv_step identity 0xcbf29ce484222325) process_nonce.

Definition splitmix64 (z : Z) : Z :=
  let z := u64_wrap (z + 0x9e3779b97f4a7c15) in
  let z := u64_wrap (Z.lxor z (Z.shiftr z 30) * 0xbf58476d1ce4e5b9) in
  let z := u64_wrap (Z.lxor z (Z.shiftr z 27) * 0x94d049bb133111eb) in
  Z.lxor z (Z.shiftr z 31).

Definition backoff_for (failure_count seed : Z) : Z :=
  if failure_count =? 0 then 0
  else
    let shift := Z.min (sat_sub failure_count 1) 9 in
    let base := Z.min (duration_from_secs (Z.shiftl 1 shift)) RESTART_MAX_BACKOFF in
    let half_ms := as_millis base / 2 in
    let jitter_ms := splitmix64 (Z.lxor seed failure_count) mod (half_ms + 1) in
    duration_from_millis (half_ms + jitter_ms).

(** ** The doubling curve *)

(** One second doubled per failure after the first, capped at five minutes; in
    milliseconds. *)
Definition curve_ms (failure_count : Z) : Z := Z.min (1000 * 2 ^ (failure_count - 1)) 300000.

Lemma backoff_base_ms fc : 1 <= fc ->
  as_millis (Z.min (duration_from_secs (Z.shiftl 1 (Z.min (sat_sub fc 1) 9))) RESTART_MAX_BACKOFF)
    = curve_ms fc.
Proof.
  intros Hfc. unfold curve_ms, sat_sub. rewrite Z.shiftl_1_l, Z.max_r by lia.
  destruct (decide (fc <= 10)) as [Hle | Hgt].
  - assert (exists n, fc - 1 = n /\ 0 <= n <= 9) as (n & -> & Hn) by eauto with lia.
    assert (n ∈ seqZ 0 10) as C by (apply elem_of_seqZ; lia).
    change (seqZ 0 10) with (Z.of_nat <$> seq 0 10) in C. cbn [seq fmap list_fmap] in C.
    rewrite !elem_of_cons, elem_of_nil in C.
    destruct_or! C; subst n; reflexivity.
  - rewrite (Z.min_r (fc - 1) 9) by lia.
    assert (2 ^ 9 <= 2 ^ (fc - 1)) by (apply Z.pow_le_mono_r; lia).
    rewrite (Z.min_r (1000 * _)) by lia. reflexivity.
Qed.

Lemma backoff_for_bounds fc seed : 1 <= fc ->
  duration_from_millis (curve_ms fc / 2) <= backoff_for fc seed
    <= duration_from_millis (curve_ms fc).
Proof.
  intros Hfc. unfold backoff_for. destruct (Z.eqb_spec fc 0); [lia|].
  rewrite backoff_base_ms by done.
  assert (0 <= curve_ms fc) by (unfold curve_ms; lia).
  set (j := splitmix64 _). set (half := curve_ms fc / 2) in *.
  pose proof (Z.mod_pos_bound j (half + 1) ltac:(unfold half; div_lia)).
  unfold duration_from_millis, NANOS_PER_MILLI, half in *. div_lia.
Qed.

(** ** Properties *)

(** After [n >= 1] consecutive failures the backoff lies in the upper
    half of the doubling curve, whatever the seed, so it is never above five
    minutes; without failures it is zero. *)
Theorem backoff_in_upper_half failure_count seed :
  is_u32 failure_count ->
  (failure_count = 0 -> backoff_for failure_count seed = 0) /\
  (1 <= failure_count ->
     duration_from_millis (curve_ms failure_count / 2) <= backoff_for failure_count seed
       <= duration_from_millis (curve_ms failure_count)) /\
  backoff_for failure_count seed <= RESTART_MAX_BACKOFF.
Proof.
  intros Hu. split; [by intros ->|]. split; [apply backoff_for_bounds|].
  destruct (decide (failure_count = 0)) as [-> | Hne]; [by vm_compute|].
  destruct Hu as [Hu _].
  etransitivity; [by apply backoff_for_bounds; lia|].
  unfold curve_ms, duration_from_millis, RESTART_MAX_BACKOFF, duration_from_secs,
    NANOS_PER_MILLI, NANOS_PER_SEC. lia.
Qed.

Lemma backoff_in_upper_half_witness :
  is_u32 3 /\
  duration_from_millis 2000 <= backoff_for 3 42 <= duration_from_millis 4000.
Proof.
  split; [by vm_compute|].
  exact (proj1 (proj2 (backoff_in_upper_half 3 42 ltac:(by vm_compute))) ltac:(lia)).
Defined.

(** The ranges of consecutive failures do not overlap below the cap,
    so for the first nine failures the backoff never shrinks, however the two
    draws fall. *)
Theorem backoff_never_shrinks_below_cap failure_count seed seed' :
  1 <= failure_count <= 8 ->
  backoff_for failure_count seed <= backoff_for (failure_count + 1) seed'.
Proof.
  intros Hfc.
  assert (curve_ms failure_count = curve_ms (failure_count + 1) / 2) as E.
  { assert (failure_count = 1 \/ failure_count = 2 \/ failure_count = 3 \/ failure_count = 4 \/
      failure_count = 5 \/ failure_count = 6 \/ failure_count = 7 \/ failure_count = 8) as C by lia.
    repeat destruct C as [-> | C]; try subst failure_count; reflexivity. }
  etransitivity; [by apply backoff_for_bounds; lia|]. rewrite E.
  apply backoff_for_bounds. lia.
Qed.

Lemma backoff_never_shrinks_below_cap_witness : backoff_for 8 7 <= backoff_for 9 1.
Proof. apply (backoff_never_shrinks_below_cap 8 7 1). lia. Defined.
