(* ===== verification/Lifecycle.v ===== *)
(** * Lifecycle: health, backoff and quarantine of one module

    Models [Health] of
    [crates/nexum-runtime-supervisor/src/supervisor/lifecycle.rs] and the
    poison policy of [crates/nexum-runtime-config/src/poison_policy.rs].
    Instants are arguments, as in the code: nothing here samples a clock.

    The trap window is pruned from its front as traps arrive; the theorems show
    that this counts exactly the traps of the sliding window, that every
    operation keeps the health invariant, and that the four states only move
    along the edges of the lifecycle. *)

From stdpp Require Import prelude list.
From Stdlib Require Import ZArith Lia Sorted.
From S2P Require Import Prelude RestartPolicy.

(** ** Definitions *)

Record PoisonPolicy : Type := mkPoisonPolicy { max_failures : Z; policy_window : Z }.

Definition PoisonPolicy_default : PoisonPolicy := mkPoisonPolicy 5 (duration_from_secs 600).

Definition should_poison (policy : PoisonPolicy) (recent_failures : Z) : bool :=
  policy.(max_failures) <=? recent_failures.

(** The states an operator probe sees. *)
Inductive ModuleState : Type := MAlive | MBackoff | MDead | MPoisoned.

#[export] Instance ModuleState_eq_dec : EqDecision ModuleState.
Proof. solve_decision. Defined.

Inductive LifecycleState : Type :=
| Alive
| Backoff (until : Z)
| Dead
| Poisoned.

#[export] Instance LifecycleState_eq_dec : EqDecision LifecycleState.
Proof. solve_decision. Defined.

(** [window] holds the trap instants, oldest first. *)
Record Health : Type := mkHealth {
  lstate : LifecycleState;
  failure_count : Z;
  window : list Z
}.

Record TrapVerdict : Type := mkTrapVerdict {
  verdict_failure_count : Z;
  verdict_backoff : Z;
  verdict_poisoned : option Z
}.

Record Deferral : Type := mkDeferral {
  deferral_failure_count : Z;
  deferral_backoff : Z
}.

Definition health_alive : Health := mkHealth Alive 0 [].
Definition health_dead : Health := mkHealth Dead 0 [].

(** The boot verdict. *)
Definition from_init (ok : bool) : Health := if ok then health_alive else health_dead.

Definition dispatchable (h : Health) : bool :=
  match h.(lstate) with Alive => true | _ => false end.

Definition is_poisoned (h : Health) : bool :=
  match h.(lstate) with Poisoned => true | _ => false end.

Definition state (h : Health) : ModuleState :=
  match h.(lstate) with
  | Alive => MAlive
  | Backoff _ => MBackoff
  | Dead => MDead
  | Poisoned => MPoisoned
  end.

Definition due_restart (h : Health) (now : Z) : bool :=
  match h.(lstate) with Backoff until => until <=? now | _ => false end.

(** [now.checked_add(backoff).unwrap_or(now)]. *)
Definition backoff_until (now backoff : Z) : Z := default now (instant_checked_add now backoff).

Definition record_trap (h : Health) (now : Z) (policy : PoisonPolicy) (seed : Z)
    : TrapVerdict * Health :=
  let failure_count := u32_sat (h.(failure_count) + 1) in
  let backoff := backoff_for failure_count seed in
  let window :=
    drop_while (fun front => policy.(policy_window) <? duration_since now front) h.(window)
      ++ [now] in
  let recent := Z.of_nat (length window) mod 2 ^ 32 in
  let already_poisoned := is_poisoned h in
  let crossed := should_poison policy recent in
  let lstate :=
    if crossed || already_poisoned then Poisoned else Backoff (backoff_until now backoff) in
  (mkTrapVerdict failure_count backoff
     (if crossed && negb already_poisoned then Some recent else None),
   mkHealth lstate failure_count window).

(** Quarantine from outside the trap path. *)
Definition poison (h : Health) : Health := mkHealth Poisoned h.(failure_count) h.(window).

Definition defer_restart (h : Health) (now seed : Z) : Deferral * Health :=
  let failure_count := u32_sat (h.(failure_count) + 1) in
  let backoff := backoff_for failure_count seed in
  (mkDeferral failure_count backoff,
   mkHealth (Backoff (backoff_until now backoff)) failure_count h.(window)).

Definition restart_succeeded (h : Health) : Health :=
  mkHealth Alive h.(failure_count) h.(window).

Definition dispatch_succeeded (h : Health) : Health :=
  mkHealth h.(lstate) 0 h.(window).

(** ** Trap windows *)

Section Window.
Context (policy : PoisonPolicy).

(** Whether a trap at [t] still counts at [now]. *)
Definition within (now t : Z) : bool := duration_since now t <=? policy.(policy_window).

Lemma drop_while_length {A} (p : A -> bool) l : (length (drop_while p l) <= length l)%nat.
Proof. induction l as [|x l IH]; cbn; [done|]. case_match; cbn; lia. Qed.

Lemma sorted_snoc (l : list Z) x :
  StronglySorted Z.le l -> Forall (fun y => y <= x) l -> StronglySorted Z.le (l ++ [x]).
Proof.
  induction 1 as [|y l Hs IH Hy]; intros Hx; cbn; [by repeat constructor|].
  apply Forall_cons in Hx as [Hyx Hx]. constructor; [by apply IH|].
  apply Forall_app. by repeat constructor.
Qed.

Lemma filter_sorted (p : Z -> bool) l :
  StronglySorted Z.le l -> StronglySorted Z.le (List.filter p l).
Proof.
  induction 1 as [|y l Hs IH Hy]; cbn; [constructor|]. case_match; [|done].
  constructor; [done|]. rewrite Forall_forall in *. intros z Hz. apply Hy.
  apply list_elem_of_In in Hz. apply List.filter_In in Hz as [Hz _]. by apply list_elem_of_In.
Qed.

(** On instants in order, popping stale ones from the front keeps exactly those
    within the window. *)
Lemma prune_is_filter now l :
  StronglySorted Z.le l ->
  drop_while (fun front => policy.(policy_window) <? duration_since now front) l
    = List.filter (within now) l.
Proof.
  induction 1 as [|t l Hs IH Ht]; cbn; [done|]. unfold within at 1.
  destruct (Z.ltb_spec (policy_window policy) (duration_since now t)) as [Hlt | Hge].
  - rewrite IH. destruct (Z.leb_spec (duration_since now t) (policy_window policy)); [lia|done].
  - destruct (Z.leb_spec (duration_since now t) (policy_window policy)); [|lia]. f_equal.
    clear IH Hs. induction l as [|u l IH]; cbn; [done|]. apply Forall_cons in Ht as [Hu Ht].
    unfold within at 1. unfold duration_since, sat_sub in *.
    destruct (Z.leb_spec (Z.max 0 (now - u)) (policy_window policy)); [|lia]. f_equal. auto.
Qed.

(** Pruning at an earlier instant first loses nothing. *)
Lemma filter_within_later now now' l :
  now <= now' -> List.filter (within now') (List.filter (within now) l)
    = List.filter (within now') l.
Proof.
  intros Hle. induction l as [|t l IH]; cbn; [done|].
  destruct (within now t) eqn:E; cbn; [by rewrite IH|].
  rewrite IH. destruct (within now' t) eqn:E'; [|done]. exfalso.
  unfold within, duration_since, sat_sub in *. lia.
Qed.

(** ** The lifecycle as a step relation

    A step carries the trap instants so far, oldest first.  The premises are the
    conditions under which the supervisor performs the operation. *)

Inductive health_step : list Z * Health -> list Z * Health -> Prop :=
| step_trap traps h now seed :
    dispatchable h = true -> Forall (fun t => t <= now) traps ->
    health_step (traps, h) (traps ++ [now], (record_trap h now policy seed).2)
| step_success traps h :
    dispatchable h = true -> health_step (traps, h) (traps, dispatch_succeeded h)
| step_restart traps h now :
    due_restart h now = true -> health_step (traps, h) (traps, restart_succeeded h)
| step_defer traps h now seed :
    due_restart h now = true -> health_step (traps, h) (traps, (defer_restart h now seed).2)
| step_poison traps h :
    health_step (traps, h) (traps, poison h).

(** The traps that still count at the latest one. *)
Definition live_window (traps : list Z) : list Z :=
  match last traps with
  | None => []
  | Some now => List.filter (within now) traps
  end.

Record health_ok (traps : list Z) (h : Health) : Prop := {
  ok_sorted : StronglySorted Z.le traps;
  ok_window : h.(window) = live_window traps;
  ok_budget : is_poisoned h = false -> Z.of_nat (length h.(window)) < policy.(max_failures);
  ok_count : is_u32 h.(failure_count)
}.

Lemma from_init_ok ok : 1 <= policy.(max_failures) -> health_ok [] (from_init ok).
Proof.
  intros. destruct ok; constructor; cbn; try done; try lia; constructor.
Qed.

Lemma u32_sat_count n : is_u32 n -> is_u32 (u32_sat (n + 1)).
Proof. unfold is_u32, u32_sat, u32_max. lia. Qed.

Lemma live_window_snoc traps now :
  StronglySorted Z.le traps -> Forall (fun t => t <= now) traps ->
  0 <= policy.(policy_window) ->
  drop_while (fun front => policy.(policy_window) <? duration_since now front)
    (live_window traps) ++ [now] = live_window (traps ++ [now]).
Proof.
  intros Hs Hle Hw. unfold live_window at 2. rewrite last_snoc, List.filter_app. f_equal.
  - unfold live_window. destruct (last traps) as [t|] eqn:E.
    + rewrite prune_is_filter by by apply filter_sorted. apply filter_within_later.
      rewrite Forall_forall in Hle. apply Hle. by apply last_Some_elem_of.
    + by apply last_None in E as ->.
  - cbn. unfold within, duration_since, sat_sub.
    destruct (Z.leb_spec (Z.max 0 (now - now)) (policy_window policy)); [done|lia].
Qed.

Lemma record_trap_ok traps h now seed :
  health_ok traps h -> is_poisoned h = false -> Forall (fun t => t <= now) traps ->
  0 <= policy.(policy_window) -> is_u32 policy.(max_failures) ->
  health_ok (traps ++ [now]) (record_trap h now policy seed).2 /\
  is_poisoned (record_trap h now policy seed).2 =
    (policy.(max_failures) <=? Z.of_nat (length (live_window (traps ++ [now])))).
Proof.
  intros [Hs Hwin Hb Hc] Hp Hle Hw Hmax.
  assert (Z.of_nat (length (live_window (traps ++ [now]))) <= policy.(max_failures)) as Hlen.
  { rewrite <- live_window_snoc, <- Hwin, length_app by done. cbn [length].
    specialize (Hb Hp). pose proof (drop_while_length (fun front =>
      policy_window policy <? duration_since now front) (window h)). lia. }
  assert (is_poisoned (record_trap h now policy seed).2 =
    (policy.(max_failures) <=? Z.of_nat (length (live_window (traps ++ [now]))))) as Epois.
  { cbn. rewrite Hp, orb_false_r, Hwin, live_window_snoc by done. unfold should_poison.
    unfold is_u32, u32_max in Hmax. rewrite Z.mod_small by lia. by case_match. }
  split; [|done]. constructor.
  - by apply sorted_snoc.
  - cbn. by rewrite Hwin, live_window_snoc.
  - rewrite Epois. intros Hlt. cbn. rewrite Hwin, live_window_snoc by done. lia.
  - cbn. by apply u32_sat_count.
Qed.

Lemma due_restart_not_poisoned h now : due_restart h now = true -> is_poisoned h = false.
Proof. unfold due_restart, is_poisoned. by destruct (lstate h). Qed.

Lemma dispatchable_not_poisoned h : dispatchable h = true -> is_poisoned h = false.
Proof. unfold dispatchable, is_poisoned. by destruct (lstate h). Qed.

Lemma health_step_ok traps h traps' h' :
  0 <= policy.(policy_window) -> is_u32 policy.(max_failures) ->
  health_step (traps, h) (traps', h') -> health_ok traps h -> health_ok traps' h'.
Proof.
  intros Hw Hmax Hstep Hok. inversion Hstep; subst.
  - apply record_trap_ok; auto using dispatchable_not_poisoned.
  - destruct Hok as [Hs Hwin Hb Hc]. constructor; cbn; auto. unfold is_u32, u32_max. lia.
  - destruct Hok as [Hs Hwin Hb Hc].
    constructor; cbn; eauto using due_restart_not_poisoned.
  - destruct Hok as [Hs Hwin Hb Hc].
    constructor; cbn; eauto using due_restart_not_poisoned, u32_sat_count.
  - destruct Hok as [Hs Hwin Hb Hc]. by constructor.
Qed.

Lemma health_steps_ok c c' :
  0 <= policy.(policy_window) -> is_u32 policy.(max_failures) ->
  rtc health_step c c' -> health_ok c.1 c.2 -> health_ok c'.1 c'.2.
Proof.
  intros Hw Hmax. induction 1 as [|[tr h] [tr' h'] c' Hstep Hrest IH]; [done|].
  intros Hok. apply IH. by eapply health_step_ok.
Qed.

(** ** Edges of the lifecycle *)

(** Quarantine is terminal and a failed boot is left only into quarantine. *)
Definition may_become (s s' : ModuleState) : Prop :=
  match s with
  | MPoisoned => s' = MPoisoned
  | MDead => s' = MDead \/ s' = MPoisoned
  | MAlive | MBackoff => s' <> MDead
  end.

Lemma may_become_trans s1 s2 s3 : may_become s1 s2 -> may_become s2 s3 -> may_become s1 s3.
Proof. destruct s1, s2, s3; cbn; intuition congruence. Qed.

Lemma health_step_edge traps h traps' h' :
  health_step (traps, h) (traps', h') -> may_become (state h) (state h').
Proof.
  intros Hstep. inversion Hstep as [? ? now seed Hd ?|? ? Hd|? ? now Hd|? ? now seed Hd|];
    subst; unfold dispatchable, due_restart, state in *; cbn;
    destruct (lstate h); try done; cbn; try (right; done); case_match; done.
Qed.

Lemma health_steps_edge c c' :
  rtc health_step c c' -> may_become (state c.2) (state c'.2).
Proof.
  induction 1 as [[tr h] | [tr h] [tr' h'] c' Hstep Hrest IH].
  - cbn. destruct (state h); cbn; intuition congruence.
  - eapply may_become_trans; [by eapply health_step_edge | exact IH].
Qed.
End Window.

(** ** Properties *)

(** C10: along any history of a module that boots well, the next trap
    quarantines it exactly when, counting that trap, the number of traps inside
    the sliding window reaches the budget: the queue pruned from its front
    counts neither too many nor too few. *)
Theorem quarantine_exactly_on_budget policy ok traps h now seed :
  1 <= policy.(max_failures) -> is_u32 policy.(max_failures) -> 0 <= policy.(policy_window) ->
  rtc (health_step policy) ([], from_init ok) (traps, h) ->
  dispatchable h = true -> Forall (fun t => t <= now) traps ->
  is_poisoned (record_trap h now policy seed).2 = true <->
    policy.(max_failures) <=
      Z.of_nat (length (List.filter (within policy now) (traps ++ [now]))).
Proof.
  intros H1 Hmax Hw Hrun Hd Hle.
  pose proof (health_steps_ok policy _ _ Hw Hmax Hrun (from_init_ok policy ok H1)) as Hok.
  destruct (record_trap_ok policy traps h now seed Hok) as [_ ->];
    auto using dispatchable_not_poisoned.
  unfold live_window. rewrite last_snoc. lia.
Qed.

(** Every history of a module keeps the health invariant: the trap
    window holds exactly the traps within the policy window of the latest one,
    a module that is not quarantined has fewer of them than its budget, and the
    failure count stays a [u32]. *)
Theorem health_invariant policy ok traps h :
  1 <= policy.(max_failures) -> is_u32 policy.(max_failures) -> 0 <= policy.(policy_window) ->
  rtc (health_step policy) ([], from_init ok) (traps, h) -> health_ok policy traps h.
Proof.
  intros H1 Hmax Hw Hrun.
  exact (health_steps_ok policy _ _ Hw Hmax Hrun (from_init_ok policy ok H1)).
Qed.

(** No history leads out of quarantine, none leads from a failed boot
    anywhere but into quarantine, and none makes a booted module dead. *)
Theorem lifecycle_edges policy c c' :
  rtc (health_step policy) c c' -> may_become (state c.2) (state c'.2).
Proof. apply health_steps_edge. Qed.

(** A history of three traps with a restart after each of the first two. *)
Definition two_in_ten : PoisonPolicy := mkPoisonPolicy 2 (duration_from_secs 10).

Lemma two_in_ten_run :
  rtc (health_step two_in_ten) ([], from_init true)
    ([0], restart_succeeded (record_trap health_alive 0 two_in_ten 7).2).
Proof.
  eapply rtc_l; [by apply (step_trap two_in_ten [] health_alive 0 7)|].
  apply rtc_once, (step_restart _ _ _ (duration_from_secs 300)). reflexivity.
Qed.

Lemma quarantine_exactly_on_budget_witness :
  is_poisoned (record_trap (restart_succeeded (record_trap health_alive 0 two_in_ten 7).2)
                 (duration_from_secs 20) two_in_ten 7).2 = true <->
    max_failures two_in_ten <=
      Z.of_nat (length (List.filter (within two_in_ten (duration_from_secs 20))
                          ([0] ++ [duration_from_secs 20]))).
Proof.
  apply (quarantine_exactly_on_budget two_in_ten true [0] _ (duration_from_secs 20) 7);
    [by vm_compute | by vm_compute | by vm_compute | exact two_in_ten_run | done |].
  repeat constructor. by vm_compute.
Defined.

Lemma health_invariant_witness :
  health_ok two_in_ten [0] (restart_succeeded (record_trap health_alive 0 two_in_ten 7).2).
Proof.
  apply (health_invariant two_in_ten true);
    [by vm_compute | by vm_compute | by vm_compute | exact two_in_ten_run].
Defined.

Lemma lifecycle_edges_witness :
  may_become (state health_alive)
    (state (restart_succeeded (record_trap health_alive 0 two_in_ten 7).2)).
Proof. exact (lifecycle_edges two_in_ten _ _ two_in_ten_run). Defined.
