(* ===== verification/Primitives.v ===== *)
(** * Primitives: identities and patterns

    Models [crates/nexum-primitives/src]: module ids, the outbound-HTTP host
    patterns, interface ids with their compatibility tracks, and content
    digests.  Text is UTF-8 bytes, except in [ModuleId], whose trimming is by
    character.  The hex codec, the semver parser and sha256 are dependencies:
    arguments of the definitions that use them. *)

From stdpp Require Import prelude list strings.
From Stdlib Require Import ZArith Lia.
From S2P Require Import Prelude.
Local Open Scope rust_scope.
Local Open Scope Z_scope.

(** ** Module ids *)

Module ModuleId.
Inductive InvalidModuleName : Type :=
| Blank
| UnsafePathComponent (name : text)
| Untrimmed (name : text).

Definition parse (name : text) : result text InvalidModuleName :=
  if bool_decide (trim name = []) then Err Blank
  else if negb (bool_decide (name = trim name)) then Err (Untrimmed name)
  else if contains [47] name || contains [92] name || contains [46; 46] name
  then Err (UnsafePathComponent name)
  else Ok name.

Lemma contains_char c s : contains [c] s = true <-> c ∈ s.
Proof.
  induction s as [|x s IH]; cbn.
  - by split; [|intros ?%not_elem_of_nil].
  - rewrite orb_true_iff, andb_true_iff, Z.eqb_eq, IH, elem_of_cons. naive_solver.
Qed.

(** A name that parses is its own id, is not blank, and holds no path
    separator. *)
Lemma parse_ok name id :
  parse name = Ok id ->
  id = name /\ name <> [] /\ trim name = name /\ 47 ∉ name /\ 92 ∉ name /\
  contains [46; 46] name = false.
Proof.
  unfold parse. case_bool_decide as Hb; [done|]. case_bool_decide as Ht; [|done]. cbn [negb].
  destruct (contains [47] name) eqn:E1; [done|]. destruct (contains [92] name) eqn:E2; [done|].
  destruct (contains [46; 46] name) eqn:E3; [done|]. cbn. intros [= <-].
  repeat split; try done; [by intros ->|..]; rewrite <- contains_char; congruence.
Qed.
End ModuleId.

(** ** Host patterns *)

Module HostPattern.
Inductive HostPattern : Type :=
| Exact (host : text)
| Suffix (suffix : text).

Definition parse (entry : text) : HostPattern :=
  let entry := to_ascii_lowercase entry in
  match strip_prefix (chars_of "*.") entry with
  | Some suffix => Suffix suffix
  | None => Exact entry
  end.

Definition eq_ignore_ascii_case (a b : text) : bool :=
  bool_decide (to_ascii_lowercase a = to_ascii_lowercase b).

Definition matches (p : HostPattern) (host : text) : bool :=
  match p with
  | Exact exact => eq_ignore_ascii_case host exact
  | Suffix suffix =>
      ((length suffix <? length host)%nat
       && eq_ignore_ascii_case (drop (length host - length suffix) host) suffix)
      && bool_decide (host !! (length host - length suffix - 1)%nat = Some 46)
  end.

Definition display (p : HostPattern) : text :=
  match p with Exact exact => exact | Suffix suffix => chars_of "*." ++ suffix end.

Definition host_allowed (host : text) (allowlist : list HostPattern) : bool :=
  existsb (fun pattern => matches pattern host) allowlist.

Lemma lower_idem s : to_ascii_lowercase (to_ascii_lowercase s) = to_ascii_lowercase s.
Proof.
  unfold to_ascii_lowercase. rewrite <- list_fmap_compose. apply list_fmap_ext. intros _ c _. cbn.
  destruct (is_ascii_uppercase c) eqn:E; [|by rewrite E].
  unfold is_ascii_uppercase in *. apply andb_prop in E as [?%Z.leb_le ?%Z.leb_le].
  destruct ((65 <=? c + 32) && (c + 32 <=? 90)) eqn:E'; [|done].
  apply andb_prop in E' as [?%Z.leb_le ?%Z.leb_le]. lia.
Qed.

Lemma lower_app a b : to_ascii_lowercase (a ++ b) = to_ascii_lowercase a ++ to_ascii_lowercase b.
Proof. apply fmap_app. Qed.

Lemma length_lower s : length (to_ascii_lowercase s) = length s.
Proof. apply length_fmap. Qed.

Lemma lower_dot c : (if is_ascii_uppercase c then c + 32 else c) = 46 <-> c = 46.
Proof.
  unfold is_ascii_uppercase. destruct (_ && _) eqn:E; [|done].
  apply andb_prop in E as [?%Z.leb_le ?%Z.leb_le]. lia.
Qed.

Lemma lower_suffix entry suffix :
  strip_prefix (chars_of "*.") (to_ascii_lowercase entry) = Some suffix ->
  to_ascii_lowercase suffix = suffix.
Proof.
  intros E%strip_prefix_Some. pose proof (lower_idem entry) as Hid. rewrite E, lower_app in Hid.
  by apply app_inj_1 in Hid as [_ ->].
Qed.

(** What a suffix pattern matches: a host that ends in a dot and the suffix. *)
Lemma suffix_matches_iff suffix host :
  matches (Suffix suffix) host = true <->
    exists sub, to_ascii_lowercase host = sub ++ 46 :: to_ascii_lowercase suffix.
Proof.
  unfold matches. rewrite !andb_true_iff, Nat.ltb_lt, bool_decide_eq_true.
  unfold eq_ignore_ascii_case. rewrite bool_decide_eq_true. set (n := (length host - length suffix)%nat).
  split.
  - intros [[Hl Hd] Hdot]. exists (to_ascii_lowercase (take (n - 1) host)).
    rewrite <- Hd. change (46 :: to_ascii_lowercase (drop n host))
      with (to_ascii_lowercase [46] ++ to_ascii_lowercase (drop n host)).
    rewrite <- !lower_app. f_equal.
    assert (n = S (n - 1)) as En by lia.
    rewrite <- (take_drop_middle host (n - 1) 46 Hdot) at 1. by rewrite <- En.
  - intros [sub Hsub]. pose proof (f_equal length Hsub) as Hl.
    rewrite length_app in Hl. cbn in Hl. rewrite !length_lower in Hl.
    assert (length sub = n - 1)%nat as Esub by lia.
    assert (n <= length host)%nat by lia.
    split; [split; [lia|]|].
    + assert (to_ascii_lowercase (drop n host) = drop n (to_ascii_lowercase host)) as ->
        by apply fmap_drop.
      rewrite Hsub. replace n with (length sub + 1)%nat by lia.
      rewrite <- drop_drop, drop_app_length. done.
    + assert (to_ascii_lowercase host !! (n - 1)%nat = Some 46) as Hat.
      { rewrite Hsub, <- Esub. by apply list_lookup_middle. }
      unfold to_ascii_lowercase in Hat. rewrite list_lookup_fmap in Hat.
      destruct (host !! (n - 1)%nat) as [c|]; [|done]. cbn in Hat. injection Hat as Hat.
      by apply lower_dot in Hat as ->.
Qed.

(** An allowlist written as strings allows a host exactly when, case
    aside, the host is one of the entries, or ends in a dot and the rest of an
    entry that starts with ["*."]; so a wildcard never admits the bare suffix or
    a host that merely ends in the same letters. *)
Theorem host_allowed_iff host entries :
  host_allowed host (parse <$> entries) = true <->
    exists entry, entry ∈ entries /\
      match strip_prefix (chars_of "*.") (to_ascii_lowercase entry) with
      | None => to_ascii_lowercase host = to_ascii_lowercase entry
      | Some suffix => exists sub, to_ascii_lowercase host = sub ++ 46 :: suffix
      end.
Proof.
  unfold host_allowed. rewrite existsb_exists. split.
  - intros (p & Hin & Hm). apply list_elem_of_In, list_elem_of_fmap in Hin as (entry & -> & Hin).
    exists entry. split; [done|]. unfold parse in Hm.
    destruct (strip_prefix _ _) as [suffix|] eqn:E.
    + apply suffix_matches_iff in Hm as [sub ->]. exists sub. do 2 f_equal.
      by eapply lower_suffix.
    + cbn in Hm. unfold eq_ignore_ascii_case in Hm. apply bool_decide_eq_true in Hm.
      by rewrite lower_idem in Hm.
  - intros (entry & Hin & Hm). exists (parse entry).
    split; [apply list_elem_of_In, list_elem_of_fmap; eauto|]. unfold parse.
    destruct (strip_prefix _ _) as [suffix|] eqn:E.
    + apply suffix_matches_iff. destruct Hm as [sub ->]. exists sub. do 2 f_equal.
      symmetry. by eapply lower_suffix.
    + cbn. unfold eq_ignore_ascii_case. rewrite bool_decide_eq_true. by rewrite lower_idem.
Qed.
End HostPattern.

(** ** Interface ids and their tracks *)

Module InterfaceId.
(** [semver::Version]; [rest] is its pre-release and build metadata. *)
Record Version : Type := mkVersion { major : Z; minor : Z; patch : Z; rest : text }.

Inductive InvalidInterfaceId : Type := MalformedName | BadVersion.

Record InterfaceId : Type := mkInterfaceId { name : text; version : Version }.

Definition is_kebab_word (word : text) : bool :=
  negb (bool_decide (word = [])) && negb (starts_with [45] word)
  && negb (bool_decide (last word = Some 45))
  && forallb (fun b => is_ascii_lowercase b || is_ascii_digit b || (b =? 45)) word.

Definition validate_name (name : text) : result unit InvalidInterfaceId :=
  match split_once 47 name with
  | None => Err MalformedName
  | Some (package, interface) =>
      let package_ok :=
        match split_once 58 package with
        | Some (namespace, pkg) => is_kebab_word namespace && is_kebab_word pkg
        | None => false
        end in
      if negb package_ok || negb (is_kebab_word interface) then Err MalformedName else Ok tt
  end.

Definition parse (semver_parse : text -> option Version) (value : text)
    : result InterfaceId InvalidInterfaceId :=
  match split_once 64 value with
  | None => Err MalformedName
  | Some (name, version) =>
      let? _ := validate_name name in
      match semver_parse version with
      | None => Err BadVersion
      | Some version => Ok (mkInterfaceId name version)
      end
  end.

Definition track_suffix (v : Version) : text :=
  if (v.(major) =? 0) && (v.(minor) =? 0) then chars_of "0.0." ++ decimal v.(patch)
  else if v.(major) =? 0 then chars_of "0." ++ decimal v.(minor)
  else decimal v.(major).

Definition track (id : InterfaceId) : text := id.(name) ++ 64 :: track_suffix id.(version).

Definition canonical_number (s : text) : option Z :=
  if bool_decide (s = []) || negb (forallb is_ascii_digit s)
     || ((1 <? length s)%nat && starts_with [48] s)
  then None else parse_u64_digits s.

Definition track_parse (key : text) : result text text :=
  match split_once 64 key with
  | None => Err key
  | Some (name, suffix) =>
      if negb (is_ok (validate_name name)) then Err key
      else
        let canonical :=
          match strip_prefix (chars_of "0.0.") suffix with
          | Some patch => (fun p => chars_of "0.0." ++ decimal p) <$> canonical_number patch
          | None =>
              match strip_prefix (chars_of "0.") suffix with
              | Some minor =>
                  match canonical_number minor with
                  | Some m => if 1 <=? m then Some (chars_of "0." ++ decimal m) else None
                  | None => None
                  end
              | None =>
                  match canonical_number suffix with
                  | Some m => if 1 <=? m then Some (decimal m) else None
                  | None => None
                  end
              end
          end in
        match canonical with
        | Some rendered => if bool_decide (rendered = suffix) then Ok key else Err key
        | None => Err key
        end
  end.

(** Semver's caret rule: what may replace what. *)
Definition compatible (v w : Version) : Prop :=
  v.(major) = w.(major) /\
  (v.(major) = 0 -> v.(minor) = w.(minor)) /\
  (v.(major) = 0 -> v.(minor) = 0 -> v.(patch) = w.(patch)).

Definition version_ok (v : Version) : Prop :=
  is_u64 v.(major) /\ is_u64 v.(minor) /\ is_u64 v.(patch).

Lemma split_once_head c s a b : split_once c s = Some (a, b) -> s = a ++ c :: b.
Proof.
  revert a b. induction s as [|x s IH]; cbn; [done|]. intros a b.
  destruct (Z.eqb_spec x c) as [->|]; [by intros [= <- <-]|].
  destruct (split_once c s) as [[a' b']|]; [|done]. intros [= <- <-]. cbn. by rewrite (IH a' b').
Qed.

Lemma kebab_not_in c word :
  is_ascii_lowercase c || is_ascii_digit c || (c =? 45) = false ->
  is_kebab_word word = true -> c ∉ word.
Proof.
  unfold is_kebab_word. rewrite !andb_true_iff. intros Hc [_ Hall] Hin.
  rewrite forallb_forall in Hall. rewrite list_elem_of_In in Hin.
  specialize (Hall c Hin). cbn in Hall. congruence.
Qed.

Lemma valid_name_no_at name : validate_name name = Ok tt -> 64 ∉ name.
Proof.
  unfold validate_name. destruct (split_once 47 name) as [[package interface]|] eqn:E; [|done].
  destruct (split_once 58 package) as [[namespace pkg]|] eqn:E'; [|done].
  destruct (is_kebab_word namespace) eqn:K1; [|done].
  destruct (is_kebab_word pkg) eqn:K2; [|done].
  destruct (is_kebab_word interface) eqn:K3; [|done]. intros _.
  rewrite (split_once_head _ _ _ _ E), (split_once_head _ _ _ _ E').
  apply (kebab_not_in 64) in K1, K2, K3; [|done..].
  set_solver.
Qed.

Lemma decimal_head_digit z c s : decimal z = c :: s -> is_ascii_digit c = true.
Proof.
  intros E. pose proof (decimal_digits z) as Hd. rewrite E in Hd. by apply Forall_cons in Hd as [? _].
Qed.

Lemma decimal_no_dot_prefix z t : decimal z <> 48 :: 46 :: t.
Proof.
  intros E. apply (decimal_not_in z 46); [done|]. rewrite E. set_solver.
Qed.

Lemma strip_decimal z p :
  strip_prefix (48 :: 46 :: p) (decimal z) = None.
Proof.
  destruct (strip_prefix _ (decimal z)) as [r|] eqn:E; [|done].
  apply strip_prefix_Some in E. by apply decimal_no_dot_prefix in E.
Qed.

Lemma canonical_decimal z : is_u64 z -> canonical_number (decimal z) = Some z.
Proof.
  intros Hz. unfold canonical_number.
  rewrite bool_decide_eq_false_2 by apply decimal_nonempty.
  assert (forallb is_ascii_digit (decimal z) = true) as ->.
  { apply forallb_forall. intros c Hc. pose proof (decimal_digits z) as Hd.
    rewrite Forall_forall in Hd. by apply Hd, list_elem_of_In. }
  assert ((1 <? length (decimal z))%nat && starts_with [48] (decimal z) = false) as ->.
  { destruct (decide (z = 0)) as [->|Hne]; [done|].
    destruct (decimal_no_leading_zero z Hz Hne) as (c & s & -> & Hc).
    apply andb_false_intro2. cbn [starts_with]. apply andb_false_intro1. apply Z.eqb_neq. lia. }
  cbn [orb negb]. unfold parse_u64_digits. rewrite decimal_value by done.
  unfold is_u64 in Hz. by rewrite (proj2 (Z.leb_le z u64_max)) by lia.
Qed.

Lemma track_suffix_inj v w :
  version_ok v -> version_ok w -> track_suffix v = track_suffix w <-> compatible v w.
Proof.
  intros (V1 & V2 & V3) (W1 & W2 & W3). unfold track_suffix, compatible. cbn [chars_of].
  destruct (Z.eqb_spec (major v) 0) as [Ev|Ev], (Z.eqb_spec (major w) 0) as [Ew|Ew]; cbn [andb].
  - destruct (Z.eqb_spec (minor v) 0) as [Mv|Mv], (Z.eqb_spec (minor w) 0) as [Mw|Mw]; split.
    + intros [= E]. apply decimal_inj in E; [lia|done..].
    + intros (_ & _ & E). by rewrite E.
    + intros [= E]. exfalso. symmetry in E. by apply decimal_no_dot_prefix in E.
    + lia.
    + intros [= E]. exfalso. by apply decimal_no_dot_prefix in E.
    + lia.
    + intros [= E]. apply decimal_inj in E; [lia|done..].
    + intros (_ & E & _). by rewrite E.
  - split; [|lia]. intros E. exfalso. symmetry in E. case_match; by apply decimal_no_dot_prefix in E.
  - split; [|lia]. intros E. exfalso. case_match; by apply decimal_no_dot_prefix in E.
  - split; [|by intros [-> _]]. intros E. apply decimal_inj in E; [lia|done..].
Qed.

(** The track derived from an interface id is always one the strict
    track grammar accepts back as written, and two ids derive the same track
    exactly when they name the same interface and their versions are compatible
    under semver's rule. *)
Theorem tracks_are_compatibility_classes a b :
  validate_name a.(name) = Ok tt -> validate_name b.(name) = Ok tt ->
  version_ok a.(version) -> version_ok b.(version) ->
  track_parse (track a) = Ok (track a) /\
  (track a = track b <-> a.(name) = b.(name) /\ compatible a.(version) b.(version)).
Proof.
  intros Na Nb Va Vb. pose proof (valid_name_no_at _ Na) as Ha. pose proof (valid_name_no_at _ Nb) as Hb.
  split.
  - unfold track_parse, track. rewrite split_once_app by done. rewrite Na. cbn [is_ok negb].
    destruct Va as (V1 & V2 & V3). unfold track_suffix.
    destruct (Z.eqb_spec (major (version a)) 0) as [Ev|Ev]; cbn [andb].
    + destruct (Z.eqb_spec (minor (version a)) 0) as [Mv|Mv].
      * rewrite (proj2 (strip_prefix_Some _ _ (decimal (patch (version a))))) by done.
        rewrite canonical_decimal by done. cbn [fmap option_fmap option_map].
        by rewrite bool_decide_eq_true_2.
      * destruct (strip_prefix (chars_of "0.0.") _) as [r|] eqn:E.
        { exfalso. apply strip_prefix_Some in E. injection E as E. by apply decimal_no_dot_prefix in E. }
        rewrite (proj2 (strip_prefix_Some _ _ (decimal (minor (version a))))) by done.
        rewrite canonical_decimal by done. unfold is_u64 in V2.
        rewrite (proj2 (Z.leb_le 1 _)) by lia. by rewrite bool_decide_eq_true_2.
    + assert (strip_prefix (chars_of "0.0.") (decimal (major (version a))) = None) as ->
        by apply strip_decimal.
      assert (strip_prefix (chars_of "0.") (decimal (major (version a))) = None) as ->
        by apply strip_decimal.
      rewrite canonical_decimal by done. unfold is_u64 in V1.
      rewrite (proj2 (Z.leb_le 1 _)) by lia. by rewrite bool_decide_eq_true_2.
  - rewrite <- track_suffix_inj by done. unfold track. split; [|by intros [-> ->]].
    intros E. pose proof (f_equal (split_once 64) E) as Es.
    rewrite !split_once_app in Es by done. by injection Es.
Qed.

Lemma tracks_are_compatibility_classes_witness :
  let a := mkInterfaceId (chars_of "nexum:wallet/signer") (mkVersion 0 3 1 []) in
  let b := mkInterfaceId (chars_of "nexum:wallet/signer") (mkVersion 0 3 9 []) in
  track_parse (track a) = Ok (track a) /\
  (track a = track b <-> a.(name) = b.(name) /\ compatible a.(version) b.(version)).
Proof.
  intros a b. apply (tracks_are_compatibility_classes a b);
    [reflexivity | reflexivity | repeat split; vm_compute; discriminate..].
Defined.
End InterfaceId.

(** ** Content digests *)

Module Digest.
Inductive DigestParseError : Type :=
| MissingScheme (s : text)
| UnsupportedScheme (scheme : text)
| Hex (value : text)
| Uncommitted.

Definition SCHEME : text := chars_of "sha256".

Section Digest.
(** The hex codec: [decode 32] is [decode_to_array::<_, 32>]. *)
Variable encode : list Z -> text.
Variable decode : nat -> text -> option (list Z).
Hypothesis decode_encode : forall d,
  length d = 32%nat -> Forall is_u8 d -> decode 32 (encode d) = Some d.
Hypothesis decode_length : forall n s d, decode n s = Some d -> length d = n.
Hypothesis encode_no_prefix : forall d,
  starts_with (chars_of "0x") (encode d) = false /\ starts_with (chars_of "0X") (encode d) = false.

Definition display (d : list Z) : text := SCHEME ++ 58 :: encode d.

Definition from_str (s : text) : result (list Z) DigestParseError :=
  match split_once 58 s with
  | None => Err (MissingScheme s)
  | Some (scheme, payload) =>
      if negb (bool_decide (scheme = SCHEME)) then Err (UnsupportedScheme scheme)
      else if starts_with (chars_of "0x") payload || starts_with (chars_of "0X") payload
      then Err (Hex s)
      else match decode 32 payload with
           | None => Err (Hex s)
           | Some digest =>
               if bool_decide (digest = replicate 32 0) then Err Uncommitted else Ok digest
           end
  end.

(** A digest's printed form parses back to it, unless it is the
    all-zero sentinel, which is refused; and whatever parses is a 32-byte,
    non-zero digest. *)
Theorem digest_round_trip d :
  length d = 32%nat -> Forall is_u8 d ->
  from_str (display d) = (if bool_decide (d = replicate 32 0) then Err Uncommitted else Ok d) /\
  (forall s d', from_str s = Ok d' -> length d' = 32%nat /\ d' <> replicate 32 0).
Proof.
  intros Hd Hb. split.
  - unfold from_str, display. rewrite split_once_app by (vm_compute; set_solver).
    rewrite bool_decide_eq_true_2 by done. cbn [negb].
    destruct (encode_no_prefix d) as [-> ->]. cbn [orb]. by rewrite decode_encode.
  - intros s d'. unfold from_str. destruct (split_once 58 s) as [[scheme payload]|]; [|done].
    case_bool_decide; [|done]. cbn [negb]. destruct (_ || _); [done|].
    destruct (decode 32 payload) as [digest|] eqn:E; [|done]. case_bool_decide; [done|].
    intros [= <-]. split; [by eapply decode_length | done].
Qed.
End Digest.

(** A hex codec on the nose: two lowercase digits a byte. *)
Module Codec.
Definition digit (n : Z) : Z := if n <? 10 then 48 + n else 87 + n.
Definition value (c : Z) : option Z :=
  if (48 <=? c) && (c <=? 57) then Some (c - 48)
  else if (97 <=? c) && (c <=? 102) then Some (c - 87) else None.
Definition encode (d : list Z) : text :=
  flat_map (fun b => [digit (Z.land (Z.shiftr b 4) 15); digit (Z.land b 15)]) d.
Fixpoint decode_all (s : text) : option (list Z) :=
  match s with
  | [] => Some []
  | [_] => None
  | a :: b :: s =>
      match value a, value b, decode_all s with
      | Some x, Some y, Some d => Some (16 * x + y :: d)
      | _, _, _ => None
      end
  end.
Definition decode (n : nat) (s : text) : option (list Z) :=
  match decode_all s with
  | Some d => if decide (length d = n) then Some d else None
  | None => None
  end.

Lemma value_digit n : 0 <= n < 16 -> value (digit n) = Some n.
Proof.
  intros Hn. unfold value, digit. destruct (Z.ltb_spec n 10).
  - rewrite (proj2 (Z.leb_le 48 _)), (proj2 (Z.leb_le _ 57)) by lia. cbn. f_equal. lia.
  - destruct (Z.leb_spec 48 (87 + n)), (Z.leb_spec (87 + n) 57); try lia. cbn [andb].
    rewrite (proj2 (Z.leb_le 97 _)), (proj2 (Z.leb_le _ 102)) by lia. cbn. f_equal. lia.
Qed.

Lemma decode_all_encode d : Forall is_u8 d -> decode_all (encode d) = Some d.
Proof.
  induction 1 as [|b d Hb _ IH]; [done|]. unfold is_u8, u8_max in Hb. cbn [encode flat_map app].
  change (flat_map _ d) with (encode d). cbn [decode_all]. rewrite IH.
  assert (forall n, 0 <= Z.land n 15 < 16) as Hr
    by (intros n; change 15 with (Z.ones 4); rewrite Z.land_ones by lia; div_lia).
  rewrite !value_digit by apply Hr. do 2 f_equal.
  change 15 with (Z.ones 4). rewrite !Z.land_ones, Z.shiftr_div_pow2 by lia. div_lia.
Qed.

Lemma encode_not_0x x d : is_ascii_digit x = false -> x < 97 \/ 102 < x ->
  starts_with [48; x] (encode d) = false.
Proof.
  intros Hx Hx'. destruct d as [|b d]; [done|]. cbn [encode flat_map app starts_with].
  rewrite !andb_false_iff. right. left. apply Z.eqb_neq. intros ->.
  assert (0 <= Z.land b 15 < 16) as Hr
    by (change 15 with (Z.ones 4); rewrite Z.land_ones by lia; div_lia).
  revert Hx Hx'. unfold digit, is_ascii_digit.
  destruct (Z.ltb_spec (Z.land b 15) 10); [|lia]. intros Hx _.
  apply andb_false_iff in Hx as [Hx|Hx]; apply Z.leb_gt in Hx; lia.
Qed.
End Codec.

Lemma digest_round_trip_witness :
  from_str Codec.decode (display Codec.encode (replicate 32 171)) = Ok (replicate 32 171) /\
  (forall s d', from_str Codec.decode s = Ok d' -> length d' = 32%nat /\ d' <> replicate 32 0).
Proof.
  apply (digest_round_trip Codec.encode Codec.decode).
  - intros d Hl Hb. unfold Codec.decode. rewrite Codec.decode_all_encode by exact Hb.
    rewrite decide_True by exact Hl. reflexivity.
  - intros n s d. unfold Codec.decode. destruct (Codec.decode_all s) as [d0|]; [|discriminate].
    destruct (decide _) as [E|]; [|discriminate]. intros [= <-]. exact E.
  - intros d. split; [apply (Codec.encode_not_0x 120) | apply (Codec.encode_not_0x 88)]; reflexivity || lia.
  - reflexivity.
  - repeat constructor; vm_compute; discriminate.
Defined.
End Digest.
