(* ===== verification/StoreApi.v ===== *)
(** * StoreApi: the state-store contract

    Models [crates/nexum-runtime-api/src/state.rs]: the caps, the listing query
    and its page, the write operations, the error type, and the [StateStore] /
    [StateHandle] traits as a class with the laws its clients rely on. *)

From stdpp Require Import prelude list sorting.
From Stdlib Require Import ZArith Lia.
From S2P Require Import Prelude.

Definition MAX_APPLY_OPS : Z := 1024.
Definition MAX_APPLY_VALUE_BYTES : Z := 4 * 1024 * 1024.
Definition MAX_LIST_LIMIT : Z := 1024.
Definition MAX_LIST_SCAN_LIMIT : Z := 8192.
Definition MAX_LIST_RESPONSE_BYTES : Z := 4 * 1024 * 1024.

Inductive ValueFilter : Type :=
| HasPrefix (p : list Z)
| LacksPrefix (p : list Z).

Definition keeps (f : ValueFilter) (value : list Z) : bool :=
  match f with
  | HasPrefix p => starts_with p value
  | LacksPrefix p => negb (starts_with p value)
  end.

Record ListQuery : Type := mkListQuery {
  q_prefix : text;
  q_start_after : text;
  q_limit : Z;
  q_scan_limit : Z;
  q_filter : option ValueFilter
}.

(** Zero asks for the cap; more than the cap is refused. *)
Definition resolve (asked cap : Z) : option Z :=
  if asked =? 0 then Some cap else if asked <=? cap then Some asked else None.

Definition resolved_limit (q : ListQuery) : option Z := resolve q.(q_limit) MAX_LIST_LIMIT.
Definition resolved_scan_limit (q : ListQuery) : option Z :=
  resolve q.(q_scan_limit) MAX_LIST_SCAN_LIMIT.

Record EntryPage : Type := mkEntryPage {
  entries : list (text * list Z);
  last_examined : option text;
  exhausted : bool
}.

Inductive WriteOp : Type :=
| OpSet (key : text) (value : list Z)
| OpDelete (key : text).

Definition op_key (op : WriteOp) : text :=
  match op with OpSet key _ => key | OpDelete key => key end.

Inductive StoreError : Type :=
| InvalidNamespace (reason : text)
| QuotaExceeded (needed quota : Z)
| QuotaUnsatisfiable (needed quota : Z)
| ApplyOpsExceeded (ops cap : Z)
| ApplyBytesExceeded (bytes cap : Z)
| ListLimitExceeded (limit cap : Z)
| ListScanLimitExceeded (scan_limit cap : Z)
| Backend.

(** ** The contract

    [store_get] and [store_set] are [store.module(ns)] followed by the handle's
    operation; both may fail.  [store_holds] is what the store durably holds,
    under what the implementation tells namespaces apart by, [namespace_id]. *)

Class StateStore (S : Type) : Type := {
  namespace_id : text -> list Z;
  store_holds : S -> list Z -> text -> option (list Z);
  store_get : S -> text -> text -> result (option (list Z)) StoreError * S;
  store_set : S -> text -> text -> list Z -> result unit StoreError * S
}.

Class StateStoreLaws (S : Type) `{StateStore S} : Prop := {
  (** A read changes nothing, and answers what is held unless it fails. *)
  store_get_holds s ns key r s' :
    store_get s ns key = (r, s') ->
    (forall id k, store_holds s' id k = store_holds s id k) /\
    (forall v, r = Ok v -> v = store_holds s (namespace_id ns) key);
  (** A write that succeeds is held, and one that fails changes nothing. *)
  store_set_holds s ns key value r s' :
    store_set s ns key value = (r, s') ->
    forall id k, store_holds s' id k =
      if is_ok r && bool_decide ((id, k) = (namespace_id ns, key))
      then Some value else store_holds s id k
}.

(** ** Paged listings

    What one page promises, and the walk a client makes over the pages. *)

Definition kept (filter : option ValueFilter) (e : entry) : bool :=
  match filter with None => true | Some f => keeps f e.2 end.

(** The entries past a resume key; the empty key is the beginning. *)
Definition resume_after (start_after : text) (l : list entry) : list entry :=
  List.filter (fun e => bool_decide (start_after = []) || bytes_lt start_after e.1) l.

Lemma resume_after_nil l : resume_after [] l = l.
Proof. unfold resume_after. cbn. induction l as [|e l IH]; cbn; [done|]. by f_equal. Qed.

Definition under_prefix (p : text) (l : list entry) : list entry :=
  List.filter (fun e => starts_with p e.1) l.

(** A page examines a prefix of the remaining entries, returns those the filter
    keeps, names the last one it examined, is exhausted only at the end, and
    moves forward unless it is. *)
Definition page_of (filter : option ValueFilter) (rest : list entry) (page : EntryPage) : Prop :=
  exists n : nat,
    page.(entries) = List.filter (kept filter) (take n rest) /\
    page.(last_examined) = fst <$> last (take n rest) /\
    (if page.(exhausted) then (length rest <= n)%nat else (0 < n <= length rest)%nat).

(** [loop { page = list_entries(start_after); ..; start_after = resume }]. *)
Fixpoint walk {E} (fuel : nat) (get_page : text -> result EntryPage E) (start_after : text)
    : option (result (list entry) E) :=
  match fuel with
  | O => None
  | S fuel =>
      match get_page start_after with
      | Err e => Some (Err e)
      | Ok page =>
          match (if page.(exhausted) then None else page.(last_examined)) with
          | None => Some (Ok page.(entries))
          | Some resume =>
              match walk fuel get_page resume with
              | Some (Ok rest) => Some (Ok (page.(entries) ++ rest))
              | other => other
              end
          end
      end
  end.

Lemma resume_after_split l1 e l2 :
  ordered (l1 ++ e :: l2) -> e.1 <> [] -> resume_after e.1 (l1 ++ e :: l2) = l2.
Proof.
  intros Hs Hne. unfold resume_after. rewrite bool_decide_eq_false_2 by done. cbn.
  rewrite List.filter_app. cbn. rewrite bytes_lt_irrefl.
  apply StronglySorted_app in Hs as (Hlt & _ & Hs).
  replace (List.filter _ l1) with (@nil entry).
  - inversion Hs as [|? ? _ Hall]; subst.
    cbn. clear Hs Hlt. induction Hall as [|e' l He' _ IH]; cbn; [done|].
    unfold entry_lt in He'. rewrite He'. by rewrite IH.
  - clear Hs. induction l1 as [|a l1 IH]; cbn; [done|].
    destruct (bytes_lt e.1 a.1) eqn:E.
    + assert (entry_lt a e) as Ha by (apply Hlt; by left).
      pose proof (bytes_lt_trans _ _ _ E Ha) as Hc. by rewrite bytes_lt_irrefl in Hc.
    + apply IH. intros x1 x2 ? ?. apply Hlt; [by right | done].
Qed.

(** Resuming past the last entry a page examined leaves the entries it did not. *)
Lemma resume_after_take start_after l n e :
  ordered l -> Forall (fun e => e.1 <> []) l ->
  last (take n (resume_after start_after l)) = Some e ->
  resume_after e.1 l = drop n (resume_after start_after l).
Proof.
  intros Hs Hne Hlast. set (r := resume_after start_after l) in *.
  apply last_Some in Hlast as [r1 Hr1].
  assert (r = r1 ++ e :: drop n r) as Er.
  { rewrite <- (take_drop n r) at 1. rewrite Hr1. by rewrite <- app_assoc. }
  assert (e ∈ r) as Hin by (rewrite Er; set_solver).
  assert (e ∈ l /\ (start_after = [] \/ bytes_lt start_after e.1 = true)) as [Hl Hsa].
  { unfold r, resume_after in Hin.
    rewrite list_elem_of_In, List.filter_In, <- list_elem_of_In in Hin.
    rewrite orb_true_iff, bool_decide_eq_true in Hin. done. }
  assert (e.1 <> []) as He by (rewrite Forall_forall in Hne; by apply Hne).
  rewrite <- (resume_after_split r1 e (drop n r)); [| |done].
  2: { rewrite <- Er. by apply ordered_filter. }
  rewrite <- Er. apply ordered_unique; [by repeat apply ordered_filter..|].
  intros x. unfold r, resume_after.
  rewrite !list_elem_of_In, !List.filter_In, <- !list_elem_of_In.
  rewrite !orb_true_iff, !bool_decide_eq_true.
  split; [|tauto]. intros [Hx [?|Hlt]]; [done|]. split; [|tauto]. split; [done|].
  destruct Hsa as [->|Hsa]; [auto|]. right. by eapply bytes_lt_trans.
Qed.

(** Walking the pages of an unchanging listing returns every kept entry once, in
    order, and stops: each page that is not the last moves the walk forward. *)
Lemma walk_complete {E} (get_page : text -> result EntryPage E) filter l :
  ordered l -> Forall (fun e => e.1 <> []) l ->
  (forall start_after, exists page,
      get_page start_after = Ok page /\ page_of filter (resume_after start_after l) page) ->
  forall fuel start_after,
    (length (resume_after start_after l) < fuel)%nat ->
    walk fuel get_page start_after =
      Some (Ok (List.filter (kept filter) (resume_after start_after l))).
Proof.
  intros Hs Hne Hpage fuel. induction fuel as [|fuel IH]; intros sa Hfuel; [lia|].
  destruct (Hpage sa) as (page & Eg & n & Ee & El & Hx). cbn [walk]. rewrite Eg.
  set (r := resume_after sa l) in *.
  destruct (exhausted page).
  - by rewrite Ee, take_ge.
  - rewrite El. destruct (last (take n r)) as [e|] eqn:Elast; cbn.
    2: { exfalso. apply last_None in Elast. apply (f_equal length) in Elast.
         rewrite length_take in Elast. cbn in Elast. lia. }
    pose proof (resume_after_take sa l n e Hs Hne Elast) as Er.
    rewrite IH by (rewrite Er, length_drop; fold r; lia).
    rewrite Er, Ee, <- List.filter_app. fold r. by rewrite take_drop.
Qed.
