(* ===== verification/LocalStore.v ===== *)
(** * LocalStore: the redb-backed local store

    Models [crates/nexum-runtime-store/src/local_store_redb.rs]: namespaced
    keys, quota accounting with its cached footprint counters, atomic batches
    and the paged listing.

    redb is a dependency: its table is a class, [OrderedTable], whose laws say
    that it is a finite map whose range scans visit the keys in byte order, and
    any of its calls may fail.  [keccak256] is an argument; only the length of
    its digest is assumed. *)

From stdpp Require Import prelude list gmap sorting strings.
From Stdlib Require Import ZArith Lia.
From S2P Require Import Prelude StoreApi.

(** ** The table *)

(** [lower] bounds a scan from below: the key and whether it is included. *)
Class OrderedTable (T : Type) : Type := {
  t_view : T -> gmap (list Z) (list Z);
  t_get : T -> list Z -> option (list Z);
  t_insert : T -> list Z -> list Z -> T;
  t_remove : T -> list Z -> T;
  t_range : T -> list Z * bool -> list entry
}.

Definition above (lower : list Z * bool) (k : list Z) : Prop :=
  bytes_lt lower.1 k = true \/ (lower.2 = true /\ k = lower.1).

Class OrderedTableLaws (T : Type) `{OrderedTable T} : Prop := {
  view_get (t : T) k : t_get t k = t_view t !! k;
  view_insert (t : T) k v : t_view (t_insert t k v) = <[k:=v]> (t_view t);
  view_remove (t : T) k : t_view (t_remove t k) = delete k (t_view t);
  range_elem (t : T) lower k v :
    (k, v) ∈ t_range t lower <-> t_view t !! k = Some v /\ above lower k;
  range_sorted (t : T) lower :
    ordered (t_range t lower)
}.

(** ** Errors *)

Inductive StorageError : Type :=
| SOpen | STxn | STable | SStorage | SCommit
| SInvalidNamespace (reason : text)
| SQuotaExceeded (needed quota : Z)
| SQuotaUnsatisfiable (needed quota : Z)
| SApplyOpsExceeded (ops cap : Z)
| SApplyBytesExceeded (bytes cap : Z)
| SListLimitExceeded (limit cap : Z)
| SListScanLimitExceeded (scan_limit cap : Z)
| SFormatTooNew (found supported : Z)
| SFormatStampUnreadable
| SMigration (from to : Z).

Definition store_error (err : StorageError) : StoreError :=
  match err with
  | SInvalidNamespace reason => InvalidNamespace reason
  | SQuotaExceeded needed quota => QuotaExceeded needed quota
  | SQuotaUnsatisfiable needed quota => QuotaUnsatisfiable needed quota
  | SApplyOpsExceeded ops cap => ApplyOpsExceeded ops cap
  | SApplyBytesExceeded bytes cap => ApplyBytesExceeded bytes cap
  | SListLimitExceeded limit cap => ListLimitExceeded limit cap
  | SListScanLimitExceeded scan_limit cap => ListScanLimitExceeded scan_limit cap
  | SOpen | STxn | STable | SStorage | SCommit
  | SFormatTooNew _ _ | SFormatStampUnreadable | SMigration _ _ => Backend
  end.

(** Which calls of a transaction fail. *)
Record TxnFaults : Type := mkTxnFaults {
  begin_fails : bool;
  open_table_fails : bool;
  read_fails : bool;
  write_fails : bool;
  commit_fails : bool
}.

Definition no_faults : TxnFaults := mkTxnFaults false false false false false.

(** ** State *)

Section Store.
Context {T : Type} `{OrderedTable T}.
Variable keccak256 : list Z -> list Z.

(** The database and the footprint counters every handle shares. *)
Record LocalStore : Type := mkLocalStore {
  db : T;
  counters : gmap (list Z) Z
}.

(** A handle: the namespace's key prefix and its quota. *)
Record ModuleStore : Type := mkModuleStore {
  prefix : list Z;
  quota_bytes : option Z
}.

Definition ENTRY_OVERHEAD : Z := 32.

Definition len (l : list Z) : Z := Z.of_nat (length l).

Definition ls_module (namespace : text) : result ModuleStore StorageError :=
  if bool_decide (namespace = []) then
    Err (SInvalidNamespace (chars_of "module namespace must not be empty"))
  else Ok (mkModuleStore (keccak256 namespace) None).

Definition with_quota (h : ModuleStore) (quota : Z) : ModuleStore :=
  mkModuleStore h.(prefix) (Some quota).

Definition build_key (h : ModuleStore) (key : text) : list Z := h.(prefix) ++ key.

Definition entry_cost (h : ModuleStore) (key_len value_len : Z) : Z :=
  len h.(prefix) + ENTRY_OVERHEAD + key_len + value_len.

(** The entries of a scan up to the first key outside the prefix. *)
Fixpoint scan_prefix (p : list Z) (l : list entry) : list entry :=
  match l with
  | [] => []
  | (k, v) :: l' => if starts_with p k then (k, v) :: scan_prefix p l' else []
  end.

Definition used_bytes (h : ModuleStore) (table : T) : Z :=
  sumZ
    ((fun e : entry => entry_cost h (len e.1 - len h.(prefix)) (len e.2)) <$>
       scan_prefix h.(prefix) (t_range table (h.(prefix), true))).

(** ** Reads *)

Definition read_txn {A} (f : TxnFaults) (k : result A StorageError) : result A StorageError :=
  if begin_fails f then Err STxn
  else if open_table_fails f then Err STable
  else if read_fails f then Err SStorage
  else k.

Definition ms_get (s : LocalStore) (h : ModuleStore) (f : TxnFaults) (key : text)
    : result (option (list Z)) StorageError :=
  read_txn f (Ok (t_get s.(db) (build_key h key))).

Definition ms_contains (s : LocalStore) (h : ModuleStore) (f : TxnFaults) (key : text)
    : result bool StorageError :=
  read_txn f (Ok (bool_decide (is_Some (t_get s.(db) (build_key h key))))).

Definition ms_len (s : LocalStore) (h : ModuleStore) (f : TxnFaults) (key : text)
    : result (option Z) StorageError :=
  read_txn f (Ok (len <$> t_get s.(db) (build_key h key))).

Definition ms_count (s : LocalStore) (h : ModuleStore) (f : TxnFaults) (p : text)
    : result Z StorageError :=
  let full_prefix := build_key h p in
  read_txn f
    (Ok (Z.of_nat (length (scan_prefix full_prefix (t_range s.(db) (full_prefix, true)))))).

(** ** Writes

    A write transaction that returns early is dropped, which aborts it: the
    state is the one the call started from. *)

Definition ms_set (s : LocalStore) (h : ModuleStore) (f : TxnFaults) (key : text) (value : list Z)
    : result unit StorageError * LocalStore :=
  let full := build_key h key in
  if begin_fails f then (Err STxn, s)
  else
    let track := bool_decide (is_Some h.(quota_bytes))
                 || bool_decide (is_Some (s.(counters) !! h.(prefix))) in
    if open_table_fails f then (Err STable, s)
    else if track && read_fails f then (Err SStorage, s)
    else
      let entry := entry_cost h (len key) (len value) in
      let old := default 0 ((fun v => entry_cost h (len key) (len v)) <$> t_get s.(db) full) in
      let used := default (used_bytes h s.(db)) (s.(counters) !! h.(prefix)) in
      let projected := if track then sat_sub used old + entry else 0 in
      match h.(quota_bytes) with
      | Some quota =>
          if quota <? projected then
            (Err (if quota <? entry then SQuotaUnsatisfiable entry quota
                  else SQuotaExceeded projected quota), s)
          else if write_fails f then (Err SStorage, s)
          else if commit_fails f then (Err SCommit, s)
          else (Ok tt, mkLocalStore (t_insert s.(db) full value)
                         (<[h.(prefix):=projected]> s.(counters)))
      | None =>
          if write_fails f then (Err SStorage, s)
          else if commit_fails f then (Err SCommit, s)
          else (Ok tt, mkLocalStore (t_insert s.(db) full value)
                         (if track then <[h.(prefix):=projected]> s.(counters)
                          else s.(counters)))
      end.

Definition ms_delete (s : LocalStore) (h : ModuleStore) (f : TxnFaults) (key : text)
    : result unit StorageError * LocalStore :=
  let full := build_key h key in
  if begin_fails f then (Err STxn, s)
  else
    let tracked := bool_decide (is_Some (s.(counters) !! h.(prefix))) in
    if open_table_fails f then (Err STable, s)
    else if tracked && read_fails f then (Err SStorage, s)
    else
      let released :=
        if tracked
        then default 0 ((fun v => entry_cost h (len key) (len v)) <$> t_get s.(db) full)
        else 0 in
      if write_fails f then (Err SStorage, s)
      else if commit_fails f then (Err SCommit, s)
      else
        (Ok tt, mkLocalStore (t_remove s.(db) full)
                  (if tracked
                   then alter (fun u => sat_sub u released) h.(prefix) s.(counters)
                   else s.(counters))).

(** The length each touched key holds after the batch: the last operation on a
    key wins. *)
Definition finals_op (m : gmap text (option Z)) (op : WriteOp) : gmap text (option Z) :=
  match op with
  | OpSet key value => <[key := Some (len value)]> m
  | OpDelete key => <[key := None]> m
  end.

Definition finals (ops : list WriteOp) : gmap text (option Z) := fold_left finals_op ops ∅.

Definition apply_op (h : ModuleStore) (table : T) (op : WriteOp) : T :=
  match op with
  | OpSet key value => t_insert table (build_key h key) value
  | OpDelete key => t_remove table (build_key h key)
  end.

Definition released_by (h : ModuleStore) (table : T) (fs : gmap text (option Z)) : Z :=
  map_fold (fun key _ acc =>
      default 0 ((fun v => entry_cost h (len key) (len v)) <$> t_get table (build_key h key))
      + acc) 0 fs.

Definition charged_by (h : ModuleStore) (fs : gmap text (option Z)) : Z :=
  map_fold (fun key value_len acc => default 0 ((entry_cost h (len key)) <$> value_len) + acc) 0 fs.

Definition apply_value_bytes (ops : list WriteOp) : Z :=
  sumZ ((fun op => match op with OpSet _ value => len value | OpDelete _ => 0 end) <$> ops).

Definition ms_apply (s : LocalStore) (h : ModuleStore) (f : TxnFaults) (ops : list WriteOp)
    : result unit StorageError * LocalStore :=
  if MAX_APPLY_OPS <? Z.of_nat (length ops) then
    (Err (SApplyOpsExceeded (Z.of_nat (length ops)) MAX_APPLY_OPS), s)
  else if MAX_APPLY_VALUE_BYTES <? apply_value_bytes ops then
    (Err (SApplyBytesExceeded (apply_value_bytes ops) MAX_APPLY_VALUE_BYTES), s)
  else if begin_fails f then (Err STxn, s)
  else
    let track := bool_decide (is_Some h.(quota_bytes))
                 || bool_decide (is_Some (s.(counters) !! h.(prefix))) in
    if open_table_fails f then (Err STable, s)
    else if track && read_fails f then (Err SStorage, s)
    else
      let fs := finals ops in
      let used := default (used_bytes h s.(db)) (s.(counters) !! h.(prefix)) in
      let charged := charged_by h fs in
      let projected :=
        if track then sat_sub used (released_by h s.(db) fs) + charged else 0 in
      let land :=
        if negb (bool_decide (ops = [])) && write_fails f then (Err SStorage, s)
        else if commit_fails f then (Err SCommit, s)
        else (Ok tt, mkLocalStore (fold_left (apply_op h) ops s.(db))
                       (if track then <[h.(prefix):=projected]> s.(counters)
                        else s.(counters))) in
      match h.(quota_bytes) with
      | Some quota =>
          if quota <? projected then
            (Err (if quota <? charged then SQuotaUnsatisfiable charged quota
                  else SQuotaExceeded projected quota), s)
          else land
      | None => land
      end.

(** ** Listing *)

Definition ms_list_keys (s : LocalStore) (h : ModuleStore) (f : TxnFaults) (p : text)
    : result (list text) StorageError :=
  let full_prefix := build_key h p in
  read_txn f
    (Ok (omap (fun e : entry =>
                 let key := drop (length h.(prefix)) e.1 in
                 if utf8_valid key then Some key else None)
           (scan_prefix full_prefix (t_range s.(db) (full_prefix, true))))).

(** The [for entry in table.range(..)] loop of [list_entries]. *)
Fixpoint list_loop (h : ModuleStore) (full_prefix : list Z) (limit scan_limit : Z)
    (filter : option ValueFilter) (l : list entry) (page : EntryPage) (examined bytes : Z)
    : EntryPage :=
  match l with
  | [] => page
  | (key_bytes, value) :: l' =>
      if negb (starts_with full_prefix key_bytes) then page
      else if examined =? scan_limit then
        mkEntryPage page.(entries) page.(last_examined) false
      else
        let key := drop (length h.(prefix)) key_bytes in
        if negb (utf8_valid key) then
          list_loop h full_prefix limit scan_limit filter l' page (examined + 1) bytes
        else if match filter with None => true | Some flt => keeps flt value end then
          let cost := len key + len value in
          let full :=
            (Z.of_nat (length page.(entries)) =? limit)
            || (negb (bool_decide (page.(entries) = []))
                && (MAX_LIST_RESPONSE_BYTES <? bytes + cost)) in
          if full then mkEntryPage page.(entries) page.(last_examined) false
          else
            list_loop h full_prefix limit scan_limit filter l'
              (mkEntryPage (page.(entries) ++ [(key, value)]) (Some key) page.(exhausted))
              (examined + 1) (bytes + cost)
        else
          list_loop h full_prefix limit scan_limit filter l'
            (mkEntryPage page.(entries) (Some key) page.(exhausted)) (examined + 1) bytes
  end.

Definition list_lower (h : ModuleStore) (query : ListQuery) : list Z * bool :=
  if bool_decide (query.(q_start_after) = []) || bytes_lt query.(q_start_after) query.(q_prefix)
  then (build_key h query.(q_prefix), true)
  else (build_key h query.(q_start_after), false).

Definition ms_list_entries (s : LocalStore) (h : ModuleStore) (f : TxnFaults) (query : ListQuery)
    : result EntryPage StorageError :=
  match resolved_limit query with
  | None => Err (SListLimitExceeded query.(q_limit) MAX_LIST_LIMIT)
  | Some limit =>
      match resolved_scan_limit query with
      | None => Err (SListScanLimitExceeded query.(q_scan_limit) MAX_LIST_SCAN_LIMIT)
      | Some scan_limit =>
          let full_prefix := build_key h query.(q_prefix) in
          read_txn f
            (Ok (list_loop h full_prefix limit scan_limit query.(q_filter)
                   (t_range s.(db) (list_lower h query)) (mkEntryPage [] None true) 0 0))
      end
  end.
End Store.

Arguments LocalStore T : clear implicits.

(** ** Prefixes and byte order *)

Lemma starts_with_same_length p p' k :
  length p = length p' -> starts_with p k = true -> starts_with p' k = true -> p = p'.
Proof.
  intros Hl [r ->]%starts_with_inv [r' E]%starts_with_inv. by apply app_inj_1 in E as [-> _].
Qed.

(** Between a prefix and a key that starts with it, every key starts with it. *)
Lemma starts_with_between p k1 k2 :
  above (p, true) k1 -> bytes_lt k1 k2 = true -> starts_with p k2 = true ->
  starts_with p k1 = true.
Proof.
  unfold above. revert k1 k2. induction p as [|a p IH]; intros k1 k2; cbn; [done|].
  intros Ha Hlt Hs. destruct k2 as [|c k2]; [done|]. apply andb_prop in Hs as [Hac Hs].
  apply Z.eqb_eq in Hac as <-. destruct k1 as [|b k1]; cbn in *.
  - destruct Ha as [? | [_ ?]]; done.
  - destruct Ha as [Ha | [_ [= -> ->]]].
    + destruct (Z.eqb_spec a b) as [<- | Hne].
      * rewrite ?Z.ltb_irrefl, ?Z.eqb_refl in *. cbn in *.
        apply (IH k1 k2); [by left | done | done].
      * exfalso. destruct (Z.ltb_spec a b), (Z.ltb_spec b a), (Z.eqb_spec b a); cbn in *; done || lia.
    + rewrite Z.eqb_refl. cbn. apply starts_with_iff. exists []. by rewrite app_nil_r.
Qed.

Lemma scan_prefix_filter p l :
  Forall (fun e : entry => above (p, true) e.1) l ->
  ordered l ->
  scan_prefix p l = List.filter (fun e => starts_with p e.1) l.
Proof.
  intros Ha Hs. induction Hs as [|[k v] l Hs IH Hk]; cbn; [done|].
  apply Forall_cons in Ha as [Hak Ha]. destruct (starts_with p k) eqn:E; [by rewrite IH|].
  clear IH Hs Ha. induction Hk as [|[k' v'] l Hk' Hk IH]; cbn; [done|].
  destruct (starts_with p k') eqn:E'; [|done]. cbn in *.
  by rewrite (starts_with_between p k k') in E.
Qed.

(** ** Footprints

    The reference footprint of a namespace: the sum of the costs of the entries
    whose key starts with its prefix. *)

Definition cost_of (p : list Z) (e : entry) : Z :=
  len p + ENTRY_OVERHEAD + (len e.1 - len p) + len e.2.

Definition charge (p : list Z) (k : list Z) (v : option (list Z)) : Z :=
  match v with
  | Some v => if starts_with p k then cost_of p (k, v) else 0
  | None => 0
  end.

Definition footprint (p : list Z) (m : gmap (list Z) (list Z)) : Z :=
  map_fold (fun k v acc => charge p k (Some v) + acc) 0 m.

Lemma footprint_insert p m k v :
  m !! k = None -> footprint p (<[k:=v]> m) = charge p k (Some v) + footprint p m.
Proof.
  intros Hk. unfold footprint.
  rewrite map_fold_insert_L; [done | | done]. intros; lia.
Qed.

Lemma footprint_delete p m k :
  footprint p m = charge p k (m !! k) + footprint p (base.delete k m).
Proof.
  destruct (m !! k) as [v|] eqn:E.
  - rewrite <- (insert_delete_id m k v E) at 1.
    by rewrite footprint_insert by apply lookup_delete_eq.
  - by rewrite delete_id.
Qed.

Lemma footprint_put p m k v :
  footprint p (<[k:=v]> m) = charge p k (Some v) + (footprint p m - charge p k (m !! k)).
Proof.
  rewrite (footprint_delete p m k), <- insert_delete_eq.
  rewrite footprint_insert by apply lookup_delete_eq. lia.
Qed.

Lemma charge_other p p' k v :
  length p = length p' -> p <> p' -> starts_with p k = true -> charge p' k v = 0.
Proof.
  intros Hl Hne Hk. destruct v as [v|]; cbn; [|done].
  destruct (starts_with p' k) eqn:E; [|done]. by destruct Hne; eapply starts_with_same_length.
Qed.

Lemma charge_nonneg p k v : 0 <= charge p k v.
Proof.
  destruct v as [v|]; cbn; [|done]. case_match; [|done].
  unfold cost_of, ENTRY_OVERHEAD, len. cbn. lia.
Qed.

Lemma footprint_nonneg p m : 0 <= footprint p m.
Proof.
  unfold footprint. apply (map_fold_weak_ind (fun r _ => 0 <= r)); [done|].
  intros k v m' r _ Hr. pose proof (charge_nonneg p k (Some v)). lia.
Qed.

Lemma charge_le_footprint p m k : charge p k (m !! k) <= footprint p m.
Proof. rewrite (footprint_delete p m k). pose proof (footprint_nonneg p (base.delete k m)). lia. Qed.

Lemma footprint_sum p m :
  footprint p m =
    sumZ (cost_of p <$> List.filter (fun e : entry => starts_with p e.1) (map_to_list m)).
Proof.
  unfold footprint. rewrite map_fold_foldr.
  induction (map_to_list m) as [|[k v] l IH]; [done|]. cbn [foldr]. rewrite IH. cbn.
  by destruct (starts_with p k).
Qed.

Section Facts.
Context {T : Type} `{OrderedTableLaws T}.

(** The scan the code seeds a counter with computes the footprint. *)
Lemma used_bytes_footprint (h : ModuleStore) (t : T) :
  used_bytes h t = footprint h.(prefix) (t_view t).
Proof.
  rewrite footprint_sum. unfold used_bytes.
  rewrite scan_prefix_filter; [| |apply range_sorted].
  - apply sumZ_proper, fmap_Permutation, NoDup_Permutation.
    + apply NoDup_ListNoDup, List.NoDup_filter, NoDup_ListNoDup, ordered_NoDup, range_sorted.
    + apply NoDup_ListNoDup, List.NoDup_filter, NoDup_ListNoDup, NoDup_map_to_list.
    + intros [k v]. rewrite !list_elem_of_In, !List.filter_In, <- !list_elem_of_In. cbn.
      rewrite range_elem, elem_of_map_to_list.
      split; [tauto|]. intros [Hk Hp]. repeat split; [done | | done].
      apply starts_with_inv in Hp as [r ->]. unfold above; cbn. clear.
      induction (prefix h) as [|a p IH]; cbn.
      * destruct r; auto.
      * rewrite Z.ltb_irrefl, Z.eqb_refl. cbn. destruct IH as [? | [_ IH]]; [auto|].
        right. split; [done|]. by rewrite IH at 1.
  - apply Forall_forall. intros [k v] Hin. by apply range_elem in Hin as [_ ?].
Qed.

(** ** The counter invariant *)

(** A cached counter is the footprint of the namespace it counts. *)
Definition counters_ok (s : LocalStore T) : Prop :=
  forall p u, s.(counters) !! p = Some u ->
    length p = 32%nat /\ u = footprint p (t_view s.(db)).

(** Handles are built from a 32-byte digest. *)
Definition handle_ok (h : ModuleStore) : Prop := length h.(prefix) = 32%nat.

Lemma charge_build_key (h : ModuleStore) key v :
  charge h.(prefix) (build_key h key) (Some v) = entry_cost h (len key) (len v).
Proof.
  unfold charge, build_key, cost_of, entry_cost. rewrite starts_with_app. cbn.
  unfold len. rewrite length_app. lia.
Qed.

Lemma old_cost_charge (h : ModuleStore) (t : T) key :
  default 0 ((fun v => entry_cost h (len key) (len v)) <$> t_get t (build_key h key)) =
    charge h.(prefix) (build_key h key) (t_view t !! build_key h key).
Proof.
  rewrite view_get. destruct (t_view t !! build_key h key) eqn:E; cbn; [|done].
  by rewrite <- charge_build_key.
Qed.

Lemma used_default (s : LocalStore T) (h : ModuleStore) :
  counters_ok s ->
  default (used_bytes h s.(db)) (s.(counters) !! h.(prefix)) = footprint h.(prefix) (t_view s.(db)).
Proof.
  intros Hc. destruct (counters s !! prefix h) as [u|] eqn:E; cbn.
  - by apply Hc in E as [_ ->].
  - apply used_bytes_footprint.
Qed.

(** A write under one namespace leaves the footprints of the others. *)
Lemma footprint_frame (h : ModuleStore) p m m' :
  handle_ok h -> length p = 32%nat -> p <> h.(prefix) ->
  (forall k, starts_with h.(prefix) k = false -> m' !! k = m !! k) ->
  footprint p m' = footprint p m.
Proof.
  intros Hh Hp Hne Hsame. rewrite !footprint_sum.
  apply sumZ_proper, fmap_Permutation, NoDup_Permutation;
    [apply NoDup_ListNoDup, List.NoDup_filter, NoDup_ListNoDup, NoDup_map_to_list..|].
  intros [k v]. rewrite !list_elem_of_In, !List.filter_In, <- !list_elem_of_In. cbn.
  rewrite !elem_of_map_to_list.
  destruct (starts_with (prefix h) k) eqn:E; [|by rewrite Hsame].
  split; intros [_ Hk]; destruct Hne;
    (eapply starts_with_same_length; [|exact Hk|exact E]; by rewrite Hp, Hh).
Qed.

(** Recording the new footprint of the written namespace keeps the invariant. *)
Lemma counters_ok_update (s : LocalStore T) (h : ModuleStore) db' :
  counters_ok s -> handle_ok h ->
  (forall k, starts_with h.(prefix) k = false -> t_view db' !! k = t_view s.(db) !! k) ->
  counters_ok (mkLocalStore db'
    (<[h.(prefix) := footprint h.(prefix) (t_view db')]> s.(counters))).
Proof.
  intros Hc Hh Hsame p u. cbn. rewrite lookup_insert_Some. intros [[<- <-] | [Hne Hp]].
  - by split.
  - destruct (Hc _ _ Hp) as [Hl ->]. split; [done|]. symmetry.
    by eapply (footprint_frame h).
Qed.

(** Without a counter of its own the written namespace needs no update. *)
Lemma counters_ok_untracked (s : LocalStore T) (h : ModuleStore) db' :
  counters_ok s -> handle_ok h -> s.(counters) !! h.(prefix) = None ->
  (forall k, starts_with h.(prefix) k = false -> t_view db' !! k = t_view s.(db) !! k) ->
  counters_ok (mkLocalStore db' s.(counters)).
Proof.
  intros Hc Hh Hn Hsame p u Hp. cbn in *. destruct (Hc _ _ Hp) as [Hl ->]. split; [done|]. symmetry.
  eapply (footprint_frame h); [done | done | congruence | done].
Qed.

Lemma build_key_other (h : ModuleStore) key k :
  starts_with h.(prefix) k = false -> build_key h key <> k.
Proof. intros E <-. unfold build_key in E. by rewrite starts_with_app in E. Qed.

(** What a successful or refused write leaves behind. *)
Definition write_result (s : LocalStore T) (h : ModuleStore)
    (m' : gmap (list Z) (list Z)) (out : result unit StorageError * LocalStore T) : Prop :=
  match out with
  | (Err _, s') => s' = s
  | (Ok _, s') =>
      t_view s'.(db) = m' /\ counters_ok s' /\
      forall quota, h.(quota_bytes) = Some quota -> footprint h.(prefix) m' <= quota
  end.

Lemma ms_set_spec (s : LocalStore T) (h : ModuleStore) f key value :
  counters_ok s -> handle_ok h ->
  write_result s h (<[build_key h key := value]> (t_view s.(db))) (ms_set s h f key value).
Proof.
  intros Hc Hh. unfold ms_set. rewrite old_cost_charge, used_default by done.
  rewrite <- charge_build_key. set (full := build_key h key).
  set (p := prefix h). set (m := t_view (db s)).
  assert (sat_sub (footprint p m) (charge p full (m !! full)) + charge p full (Some value)
          = footprint p (<[full:=value]> m)) as Efoot.
  { rewrite footprint_put. pose proof (charge_le_footprint p m full). unfold sat_sub. lia. }
  rewrite Efoot.
  assert (forall k, starts_with p k = false ->
            t_view (t_insert (db s) full value) !! k = t_view (db s) !! k) as Hsame.
  { intros k Hk. rewrite view_insert. apply lookup_insert_ne. by apply build_key_other. }
  unfold write_result.
  destruct (begin_fails f); [done|]. destruct (open_table_fails f); [done|].
  set (track := _ || _). destruct (track && read_fails f); [done|].
  destruct (quota_bytes h) as [quota|] eqn:Eq; cbn in track.
  - subst track; cbn. destruct (Z.ltb_spec quota (footprint p (<[full:=value]> m))); [done|].
    destruct (write_fails f); [done|]. destruct (commit_fails f); [done|]. cbn.
    rewrite view_insert. split; [done|]. split; [|by intros ? [= <-]].
    unfold m. rewrite <- view_insert. by apply counters_ok_update.
  - destruct (write_fails f); [done|]. destruct (commit_fails f); [done|]. cbn.
    rewrite view_insert. split; [done|]. split; [|done].
    unfold m. rewrite <- view_insert. destruct track eqn:Et.
    + by apply counters_ok_update.
    + apply (counters_ok_untracked _ h); try done.
      subst track. case_bool_decide as Hn; [done|]. by apply eq_None_not_Some.
Qed.

Lemma ms_delete_spec (s : LocalStore T) (h : ModuleStore) f key :
  counters_ok s -> handle_ok h ->
  match ms_delete s h f key with
  | (Err _, s') => s' = s
  | (Ok _, s') =>
      t_view s'.(db) = base.delete (build_key h key) (t_view s.(db)) /\ counters_ok s'
  end.
Proof.
  intros Hc Hh. unfold ms_delete. rewrite old_cost_charge.
  set (full := build_key h key). set (p := prefix h).
  assert (forall k, starts_with p k = false ->
            t_view (t_remove (db s) full) !! k = t_view (db s) !! k) as Hsame.
  { intros k Hk. rewrite view_remove. apply lookup_delete_ne. by apply build_key_other. }
  destruct (begin_fails f); [done|]. destruct (open_table_fails f); [done|].
  destruct (_ && read_fails f); [done|]. destruct (write_fails f); [done|].
  destruct (commit_fails f); [done|]. cbn. rewrite view_remove. split; [done|].
  case_bool_decide as Hn.
  - destruct Hn as [u Hu]. destruct (Hc _ _ Hu) as [_ Eu].
    replace (alter _ p (counters s)) with
      (<[p := footprint p (t_view (t_remove (db s) full))]> (counters s));
      [by apply counters_ok_update|].
    apply map_eq. intros q. rewrite lookup_insert, lookup_alter. case_decide; [|done]. subst q.
    rewrite Hu. cbn. f_equal. rewrite view_remove, Eu.
    rewrite (footprint_delete p (t_view (db s)) full).
    pose proof (footprint_nonneg p (base.delete full (t_view (db s)))). unfold sat_sub. lia.
  - apply (counters_ok_untracked _ h); try done. by apply eq_None_not_Some.
Qed.

(** ** Batches *)

(** The table a batch builds, as a map. *)
Definition apply_view (h : ModuleStore) (m : gmap (list Z) (list Z)) (op : WriteOp)
    : gmap (list Z) (list Z) :=
  match op with
  | OpSet key value => <[build_key h key := value]> m
  | OpDelete key => base.delete (build_key h key) m
  end.

Lemma apply_ops_view (h : ModuleStore) ops (t : T) :
  t_view (fold_left (apply_op h) ops t) = fold_left (apply_view h) ops (t_view t).
Proof.
  revert t. induction ops as [|[key value | key] ops IH]; intros t; cbn; [done| |];
    rewrite IH; [by rewrite view_insert | by rewrite view_remove].
Qed.

Lemma build_key_inj (h : ModuleStore) key key' :
  build_key h key = build_key h key' <-> key = key'.
Proof. unfold build_key. split; [by intros ?%app_inv_head | by intros ->]. Qed.

(** What a value of a touched key costs. *)
Definition cost_opt (h : ModuleStore) (key : text) (value_len : option Z) : Z :=
  default 0 ((entry_cost h (len key)) <$> value_len).

(** [finals] tracks the batch: an untouched key keeps its value, a touched one
    has the recorded length. *)
Definition finals_track (h : ModuleStore) (m m' : gmap (list Z) (list Z))
    (fs : gmap text (option Z)) : Prop :=
  (forall key, match fs !! key with
          | None => m' !! build_key h key = m !! build_key h key
          | Some l => len <$> m' !! build_key h key = l
          end) /\
  forall k, starts_with h.(prefix) k = false -> m' !! k = m !! k.

Lemma charge_cost_opt (h : ModuleStore) key v :
  charge h.(prefix) (build_key h key) v = cost_opt h key (len <$> v).
Proof. destruct v as [v|]; [apply charge_build_key | done]. Qed.

Definition released_from (h : ModuleStore) (m : gmap (list Z) (list Z))
    (fs : gmap text (option Z)) : Z :=
  map_fold (fun key (_ : option Z) acc =>
    charge h.(prefix) (build_key h key) (m !! build_key h key) + acc) 0 fs.

Lemma released_by_from (h : ModuleStore) (t : T) fs :
  released_by h t fs = released_from h (t_view t) fs.
Proof.
  unfold released_by, released_from. rewrite !map_fold_foldr.
  induction (map_to_list fs) as [|[key x] l IH]; [done|]. cbn [foldr]. rewrite IH. cbn.
  by rewrite old_cost_charge.
Qed.

Lemma released_insert_new h m fs key x :
  fs !! key = None ->
  released_from h m (<[key:=x]> fs) =
    charge h.(prefix) (build_key h key) (m !! build_key h key) + released_from h m fs.
Proof. intros Hk. unfold released_from. rewrite map_fold_insert_L; [done | lia | done]. Qed.

Lemma released_insert_old h m fs key x :
  is_Some (fs !! key) -> released_from h m (<[key:=x]> fs) = released_from h m fs.
Proof.
  intros [y Hy]. rewrite <- (insert_delete_eq fs key x).
  rewrite <- (insert_delete_id fs key y Hy) at 2.
  by rewrite !released_insert_new by apply lookup_delete_eq.
Qed.

Lemma charged_insert_new h fs key x :
  fs !! key = None -> charged_by h (<[key:=x]> fs) = cost_opt h key x + charged_by h fs.
Proof. intros Hk. unfold charged_by. rewrite map_fold_insert_L; [done | lia | done]. Qed.

Lemma charged_insert_old h fs key x y :
  fs !! key = Some y ->
  charged_by h (<[key:=x]> fs) = cost_opt h key x + (charged_by h fs - cost_opt h key y).
Proof.
  intros Hy. rewrite <- (insert_delete_eq fs key x).
  rewrite <- (insert_delete_id fs key y Hy) at 2.
  rewrite !charged_insert_new by apply lookup_delete_eq. lia.
Qed.

Definition footprint_track (h : ModuleStore) (m m' : gmap (list Z) (list Z))
    (fs : gmap text (option Z)) : Prop :=
  footprint h.(prefix) m' =
    footprint h.(prefix) m - released_from h m fs + charged_by h fs.

Definition op_len (op : WriteOp) : option Z :=
  match op with OpSet _ value => Some (len value) | OpDelete _ => None end.

Lemma apply_view_lookup h m op key :
  len <$> apply_view h m op !! build_key h key =
    if decide (op_key op = key) then op_len op else len <$> m !! build_key h key.
Proof.
  destruct op as [k v | k]; cbn; case_decide as E.
  - subst. by rewrite lookup_insert_eq.
  - by rewrite lookup_insert_ne by by rewrite build_key_inj.
  - subst. by rewrite lookup_delete_eq.
  - by rewrite lookup_delete_ne by by rewrite build_key_inj.
Qed.

Lemma footprint_apply_view h m op :
  footprint h.(prefix) (apply_view h m op) =
    footprint h.(prefix) m - cost_opt h (op_key op) (len <$> m !! build_key h (op_key op))
      + cost_opt h (op_key op) (op_len op).
Proof.
  rewrite <- charge_cost_opt. destruct op as [k v | k]; cbn [apply_view op_key op_len].
  - rewrite footprint_put, charge_build_key. unfold cost_opt; cbn. lia.
  - rewrite (footprint_delete _ m (build_key h k)). unfold cost_opt; cbn. lia.
Qed.

Lemma batch_step h m m' fs op :
  finals_track h m m' fs -> footprint_track h m m' fs ->
  let fs' := <[op_key op := op_len op]> fs in
  finals_track h m (apply_view h m' op) fs' /\
  footprint_track h m (apply_view h m' op) fs'.
Proof.
  intros [Hkeys Hout] Hf fs'. split; [split|].
  - intros key. unfold fs'. rewrite lookup_insert. case_decide as E.
    + subst key. rewrite apply_view_lookup. by rewrite decide_True.
    + specialize (Hkeys key). pose proof (apply_view_lookup h m' op key) as Hl.
      rewrite decide_False in Hl by done. destruct (fs !! key) eqn:Ef; [congruence|].
      rewrite <- Hkeys. destruct op as [k v | k]; cbn in *;
        [by rewrite lookup_insert_ne by by rewrite build_key_inj
        | by rewrite lookup_delete_ne by by rewrite build_key_inj].
  - intros k Hk. rewrite <- Hout by done.
    destruct op as [k' v | k']; cbn;
      [apply lookup_insert_ne | apply lookup_delete_ne]; by apply build_key_other.
  - unfold footprint_track, fs' in *. rewrite footprint_apply_view, Hf.
    specialize (Hkeys (op_key op)). destruct (fs !! op_key op) as [l|] eqn:Ef.
    + rewrite released_insert_old by eauto. rewrite (charged_insert_old _ _ _ _ _ Ef), Hkeys. lia.
    + rewrite released_insert_new, charged_insert_new, charge_cost_opt, Hkeys by done. lia.
Qed.

Lemma finals_op_insert fs op : finals_op fs op = <[op_key op := op_len op]> fs.
Proof. by destruct op. Qed.

(** The net accounting of a batch: each touched key's cost is released once and
    its final cost charged once. *)
Lemma batch_footprint h ops m :
  finals_track h m (fold_left (apply_view h) ops m) (finals ops) /\
  footprint_track h m (fold_left (apply_view h) ops m) (finals ops).
Proof.
  unfold finals.
  assert (forall m' fs, finals_track h m m' fs -> footprint_track h m m' fs ->
    finals_track h m (fold_left (apply_view h) ops m') (fold_left finals_op ops fs) /\
    footprint_track h m (fold_left (apply_view h) ops m') (fold_left finals_op ops fs)) as Hgen.
  { induction ops as [|op ops IH]; intros m' fs Ht Hf; [done|]. cbn [fold_left].
    rewrite finals_op_insert. destruct (batch_step h m m' fs op Ht Hf). by apply IH. }
  apply Hgen; [by split|]. unfold footprint_track, released_from, charged_by.
  rewrite !map_fold_empty. lia.
Qed.

Lemma released_le_footprint h m fs : released_from h m fs <= footprint h.(prefix) m.
Proof.
  revert m. induction fs as [|key x fs Hk IH] using map_ind; intros m.
  - unfold released_from. rewrite map_fold_empty. apply footprint_nonneg.
  - rewrite released_insert_new by done. rewrite (footprint_delete _ m (build_key h key)).
    enough (released_from h m fs = released_from h (base.delete (build_key h key) m) fs) as ->
      by (specialize (IH (base.delete (build_key h key) m)); lia).
    unfold released_from. rewrite !map_fold_foldr.
    assert (forall k y, (k, y) ∈ map_to_list fs -> k <> key) as Hne.
    { intros k y Hky%elem_of_map_to_list ->. congruence. }
    induction (map_to_list fs) as [|[k y] l IHl]; [done|]. cbn [foldr].
    rewrite IHl by (intros; eapply Hne; by right). cbn.
    rewrite lookup_delete_ne; [done|]. rewrite build_key_inj.
    intros <-. by eapply Hne; [left|].
Qed.

Lemma ms_apply_spec (s : LocalStore T) (h : ModuleStore) f ops :
  counters_ok s -> handle_ok h ->
  write_result s h (fold_left (apply_view h) ops (t_view s.(db))) (ms_apply s h f ops).
Proof.
  intros Hc Hh. unfold ms_apply. rewrite used_default, released_by_from by done.
  destruct (batch_footprint h ops (t_view (db s))) as [[_ Hout] Hf].
  set (p := prefix h) in *. set (m := t_view (db s)) in *.
  set (m' := fold_left (apply_view h) ops m) in *.
  assert (sat_sub (footprint p m) (released_from h m (finals ops)) + charged_by h (finals ops)
          = footprint p m') as ->.
  { unfold footprint_track in Hf. fold p in Hf. rewrite Hf.
    pose proof (released_le_footprint h m (finals ops)) as Hle. fold p in Hle.
    unfold sat_sub. lia. }
  assert (t_view (fold_left (apply_op h) ops (db s)) = m') as Ev by apply apply_ops_view.
  unfold write_result.
  destruct (MAX_APPLY_OPS <? _); [done|]. destruct (MAX_APPLY_VALUE_BYTES <? _); [done|].
  destruct (begin_fails f); [done|]. destruct (open_table_fails f); [done|].
  set (track := _ || _). destruct (track && read_fails f); [done|].
  destruct (quota_bytes h) as [quota|] eqn:Eq; cbn in track.
  - subst track; cbn. destruct (Z.ltb_spec quota (footprint p m')); [done|].
    destruct (negb _ && write_fails f); [done|]. destruct (commit_fails f); [done|]. cbn.
    split; [done|]. split; [|by intros ? [= <-]].
    rewrite <- Ev. apply counters_ok_update; [done..|]. by rewrite Ev.
  - destruct (negb _ && write_fails f); [done|]. destruct (commit_fails f); [done|]. cbn.
    split; [done|]. split; [|done]. destruct track eqn:Et.
    + rewrite <- Ev. apply counters_ok_update; [done..|]. by rewrite Ev.
    + apply (counters_ok_untracked _ h); [done..| |by rewrite Ev].
      subst track. case_bool_decide as Hn; [done|]. by apply eq_None_not_Some.
Qed.

(** ** What a namespace holds *)

Definition strip (h : ModuleStore) (e : entry) : entry := (drop (length h.(prefix)) e.1, e.2).

(** The entries a handle sees, in key order. *)
Definition ns_entries (h : ModuleStore) (m : gmap (list Z) (list Z)) : list entry :=
  strip h <$> under_prefix h.(prefix) (in_order m).

Lemma strip_build_key (h : ModuleStore) key v : strip h (build_key h key, v) = (key, v).
Proof. unfold strip, build_key. cbn. by rewrite drop_app_length. Qed.

Lemma strip_elem (h : ModuleStore) k v (l : list entry) :
  Forall (fun e => starts_with h.(prefix) e.1 = true) l ->
  (k, v) ∈ strip h <$> l <-> (build_key h k, v) ∈ l.
Proof.
  intros Hp. rewrite list_elem_of_fmap. split.
  - intros ([k0 v0] & E & Hin). rewrite Forall_forall in Hp. pose proof (Hp _ Hin) as Hk.
    cbn in Hk. apply starts_with_inv in Hk as [r ->]. fold (build_key h r) in E, Hin.
    rewrite strip_build_key in E. by injection E as -> ->.
  - intros Hin. exists (build_key h k, v). by rewrite strip_build_key.
Qed.

Lemma strip_ordered (h : ModuleStore) (l : list entry) :
  Forall (fun e => starts_with h.(prefix) e.1 = true) l -> ordered l -> ordered (strip h <$> l).
Proof.
  intros Hp Hs. induction Hs as [|e l Hs IH He]; cbn; [constructor|].
  apply Forall_cons in Hp as [Hpe Hp]. constructor; [by apply IH|].
  rewrite Forall_fmap. rewrite Forall_forall in He, Hp |- *. intros e' Hin.
  specialize (He _ Hin). specialize (Hp _ Hin). unfold entry_lt in *. cbn.
  apply starts_with_inv in Hpe as [r Er]. apply starts_with_inv in Hp as [r' Er'].
  rewrite Er, Er', !drop_app_length. by rewrite Er, Er', bytes_lt_app_head in He.
Qed.

Lemma under_prefix_all p (l : list entry) :
  Forall (fun e : entry => starts_with p e.1 = true) (under_prefix p l).
Proof.
  apply Forall_forall. intros e. unfold under_prefix.
  rewrite list_elem_of_In, List.filter_In. tauto.
Qed.

Lemma ns_entries_elem (h : ModuleStore) m k v :
  (k, v) ∈ ns_entries h m <-> m !! build_key h k = Some v.
Proof.
  unfold ns_entries. rewrite strip_elem by apply under_prefix_all.
  unfold under_prefix. rewrite list_elem_of_In, List.filter_In, <- list_elem_of_In, in_order_elem.
  cbn. unfold build_key. rewrite starts_with_app. tauto.
Qed.

Lemma ns_entries_ordered (h : ModuleStore) m : ordered (ns_entries h m).
Proof. apply strip_ordered; [apply under_prefix_all|]. apply ordered_filter, in_order_ordered. Qed.

Lemma ns_entries_ext (h : ModuleStore) m m' :
  (forall k, starts_with h.(prefix) k = true -> m !! k = m' !! k) ->
  ns_entries h m = ns_entries h m'.
Proof.
  intros Heq. apply ordered_unique; [apply ns_entries_ordered..|]. intros [k v].
  rewrite !ns_entries_elem, Heq; [done|]. apply starts_with_app.
Qed.

Lemma build_key_lt (h : ModuleStore) k k' :
  bytes_lt (build_key h k) (build_key h k') = bytes_lt k k'.
Proof. apply bytes_lt_app_head. Qed.

Lemma build_key_prefix (h : ModuleStore) p k :
  starts_with (build_key h p) (build_key h k) = starts_with p k.
Proof.
  unfold build_key. induction (prefix h) as [|a q IH]; cbn; [done|]. by rewrite Z.eqb_refl.
Qed.

Lemma starts_with_weaken (h : ModuleStore) p k :
  starts_with (build_key h p) k = true -> starts_with h.(prefix) k = true.
Proof.
  intros [r ->]%starts_with_inv. unfold build_key. rewrite <- app_assoc. apply starts_with_app.
Qed.

Lemma above_refl p r : above (p, true) (p ++ r).
Proof.
  unfold above; cbn. destruct r as [|x r]; [rewrite app_nil_r; auto|]. left.
  induction p as [|a p IH]; cbn; [done|]. by rewrite Z.ltb_irrefl, Z.eqb_refl.
Qed.

(** Every bound of a listing scan is at or past the queried prefix. *)
Lemma list_lower_above (h : ModuleStore) query k :
  above (list_lower h query) k -> above (build_key h query.(q_prefix), true) k.
Proof.
  unfold list_lower. destruct (bool_decide _) eqn:E; cbn [orb]; [done|].
  destruct (bytes_lt (q_start_after query) (q_prefix query)) eqn:El; [done|].
  unfold above; cbn. intros [Hlt|[? _]]; [|done]. left.
  destruct (bytes_lt_total (q_prefix query) (q_start_after query)) as [Hq|[->|Hq]];
    [|done|congruence].
  eapply bytes_lt_trans; [|exact Hlt]. by rewrite build_key_lt.
Qed.

Lemma list_lower_iff (h : ModuleStore) query k :
  starts_with query.(q_prefix) k = true ->
  above (list_lower h query) (build_key h k) <->
    query.(q_start_after) = [] \/ bytes_lt query.(q_start_after) k = true.
Proof.
  intros Hk. unfold list_lower. apply starts_with_inv in Hk as [r ->].
  case_bool_decide as E; cbn [orb].
  - rewrite E. split; [auto|]. intros _. unfold build_key. rewrite app_assoc. apply above_refl.
  - destruct (bytes_lt (q_start_after query) (q_prefix query)) eqn:El.
    + split; [|intros _; unfold build_key; rewrite app_assoc; apply above_refl]. intros _. right.
      destruct (above_refl (q_prefix query) r) as [Hlt|[_ Heq]]; cbn in *.
      * by eapply bytes_lt_trans.
      * by rewrite Heq.
    + unfold above; cbn. rewrite build_key_lt. naive_solver.
Qed.

(** The scan behind every listing yields the entries of the namespace under the
    queried prefix and past the resume key, in key order. *)
Lemma scan_range_spec (h : ModuleStore) (t : T) query :
  strip h <$> scan_prefix (build_key h query.(q_prefix)) (t_range t (list_lower h query)) =
    resume_after query.(q_start_after)
      (under_prefix query.(q_prefix) (ns_entries h (t_view t))).
Proof.
  rewrite scan_prefix_filter; [| |apply range_sorted].
  2: { apply Forall_forall. intros [k v] [_ Hk]%range_elem. by eapply list_lower_above. }
  set (l := List.filter _ _).
  assert (Forall (fun e : entry => starts_with h.(prefix) e.1 = true) l) as Hp.
  { apply Forall_forall. intros e. unfold l. rewrite list_elem_of_In, List.filter_In.
    intros [_ ?]. by eapply starts_with_weaken. }
  apply ordered_unique.
  - apply strip_ordered; [done|]. apply ordered_filter, range_sorted.
  - do 2 apply ordered_filter. apply ns_entries_ordered.
  - intros [k v]. rewrite strip_elem by done. unfold l, resume_after, under_prefix.
    rewrite !list_elem_of_In, !List.filter_In, <- !list_elem_of_In. cbn.
    rewrite range_elem, build_key_prefix, ns_entries_elem.
    rewrite orb_true_iff, bool_decide_eq_true.
    split.
    + intros [[? Ha] Hk]. by rewrite list_lower_iff in Ha.
    + intros [[? Hk] Ha]. by rewrite list_lower_iff.
Qed.

(** ** Pages *)

Lemma filter_snoc (f : entry -> bool) l e :
  List.filter f (l ++ [e]) = List.filter f l ++ if f e then [e] else [].
Proof. by rewrite List.filter_app. Qed.

(** The loop, from a page that already examined [pre]. *)
Lemma list_loop_page (h : ModuleStore) fp limit scan_limit flt l :
  0 < limit -> 0 < scan_limit ->
  Forall (fun e => utf8_valid e.1 = true) (strip h <$> scan_prefix fp l) ->
  forall pre page bytes,
    page.(entries) = List.filter (kept flt) pre ->
    page.(last_examined) = fst <$> last pre ->
    page.(exhausted) = true ->
    let rest := strip h <$> scan_prefix fp l in
    let out := list_loop h fp limit scan_limit flt l page (Z.of_nat (length pre)) bytes in
    exists n : nat,
      out.(entries) = List.filter (kept flt) (pre ++ take n rest) /\
      out.(last_examined) = fst <$> last (pre ++ take n rest) /\
      (if out.(exhausted) then (length rest <= n)%nat
       else (0 < length pre + n)%nat /\ (n <= length rest)%nat).
Proof.
  intros Hlim Hscan Hutf. induction l as [|[kb v] l IH]; intros pre page bytes He Hl Hx.
  - exists O. cbn. rewrite app_nil_r, Hx. auto.
  - cbn [scan_prefix list_loop] in *. destruct (starts_with fp kb) eqn:Ep; cbn [negb].
    2: { exists O. cbn. rewrite app_nil_r, Hx. auto. }
    cbn in Hutf. apply Forall_cons in Hutf as [Hk Hutf]. specialize (IH Hutf).
    destruct (Z.eqb_spec (Z.of_nat (length pre)) scan_limit) as [Hsc|Hsc].
    { exists O. cbn. rewrite app_nil_r. split; [done|]. split; [done|]. lia. }
    cbn in Hk. rewrite Hk. cbn [negb].
    change (match flt with None => true | Some f => keeps f v end)
      with (kept flt (strip h (kb, v))).
    replace (Z.of_nat (length pre) + 1) with (Z.of_nat (length (pre ++ [strip h (kb, v)])))
      by (rewrite length_app; cbn; lia).
    destruct (kept flt (strip h (kb, v))) eqn:Ek.
    + destruct ((_ =? limit) || _) eqn:Efull.
      { exists O. cbn. rewrite app_nil_r. split; [done|]. split; [done|].
        split; [|lia]. destruct pre; [|cbn; lia]. cbn in He. rewrite He in Efull.
        rewrite bool_decide_eq_true_2 in Efull by done. cbn [length Z.of_nat negb andb] in Efull.
        rewrite orb_false_r in Efull. apply Z.eqb_eq in Efull. lia. }
      edestruct (IH (pre ++ [strip h (kb, v)])) as (n & H1 & H2 & H3); cycle 3.
      { exists (S n). rewrite <- app_assoc in H1, H2. cbn [take fmap list_fmap app] in *.
        split; [exact H1|]. split; [exact H2|].
        revert H3. cbn [length]. case_match; rewrite ?length_app; cbn [length]; lia. }
      all: cbn; try done.
      * by rewrite filter_snoc, Ek, He.
      * by rewrite last_snoc.
    + edestruct (IH (pre ++ [strip h (kb, v)])) as (n & H1 & H2 & H3); cycle 3.
      { exists (S n). rewrite <- app_assoc in H1, H2. cbn [take fmap list_fmap app] in *.
        split; [exact H1|]. split; [exact H2|].
        revert H3. cbn [length]. case_match; rewrite ?length_app; cbn [length]; lia. }
      all: cbn; try done.
      * by rewrite filter_snoc, Ek, He, app_nil_r.
      * by rewrite last_snoc.
Qed.

Lemma resolve_pos asked cap n : 0 <= asked -> 0 < cap -> resolve asked cap = Some n -> 0 < n.
Proof.
  unfold resolve. intros ? ?. destruct (Z.eqb_spec asked 0); [by intros [= <-]|].
  case_match; [|done]. intros [= <-]. lia.
Qed.

(** A page of the store keeps the paging contract. *)
Lemma list_entries_page (s : LocalStore T) (h : ModuleStore) query limit scan_limit :
  is_u32 query.(q_limit) -> is_u32 query.(q_scan_limit) ->
  resolved_limit query = Some limit -> resolved_scan_limit query = Some scan_limit ->
  Forall (fun e => utf8_valid e.1 = true) (ns_entries h (t_view s.(db))) ->
  exists page,
    ms_list_entries s h no_faults query = Ok page /\
    page_of query.(q_filter)
      (resume_after query.(q_start_after)
         (under_prefix query.(q_prefix) (ns_entries h (t_view s.(db))))) page.
Proof.
  intros [Hl _] [Hs _] Elim Escan Hutf. unfold ms_list_entries. rewrite Elim, Escan.
  eexists. split; [reflexivity|]. rewrite <- scan_range_spec.
  edestruct (list_loop_page h (build_key h (q_prefix query)) limit scan_limit (q_filter query)
               (t_range (db s) (list_lower h query)))
    with (pre := @nil entry) (page := mkEntryPage [] None true) (bytes := 0)
    as (n & H1 & H2 & H3); cycle -1.
  { exists n. cbn [length app Nat.add Z.of_nat] in *. split; [exact H1|]. split; [exact H2|].
    exact H3. }
  all: try done.
  - by eapply resolve_pos; [| |exact Elim].
  - by eapply resolve_pos; [| |exact Escan].
  - rewrite scan_range_spec. apply Forall_forall. intros e. unfold resume_after, under_prefix.
    rewrite list_elem_of_In, !List.filter_In, <- list_elem_of_In. intros [[Hin _] _].
    rewrite Forall_forall in Hutf. by apply Hutf.
Qed.
End Facts.
