(* ===== verification/LocalStoreSafety.v ===== *)
(** * LocalStoreSafety: what the local store promises its modules

    Quota, atomicity, isolation and complete listings, over any sequence of
    calls on any handles, any of which may fail; a concrete table that satisfies
    the table's laws; and the store as an implementation of the state-store
    contract of [StoreApi]. *)

From stdpp Require Import prelude list gmap sorting strings.
From Stdlib Require Import ZArith Lia.
From S2P Require Import Prelude StoreApi LocalStore.

(** ** A table: a finite map scanned in key order *)

#[export] Instance gmap_table : OrderedTable (gmap (list Z) (list Z)) := {|
  t_view m := m;
  t_get m k := m !! k;
  t_insert m k v := <[k:=v]> m;
  t_remove m k := delete k m;
  t_range m lower :=
    List.filter (fun e => bytes_lt lower.1 e.1 || (lower.2 && bool_decide (e.1 = lower.1)))
      (in_order m)
|}.

#[export] Instance gmap_table_laws : OrderedTableLaws (gmap (list Z) (list Z)).
Proof.
  split; cbn; try done.
  - intros m lower k v. rewrite list_elem_of_In, List.filter_In, <- list_elem_of_In, in_order_elem.
    cbn. rewrite orb_true_iff, andb_true_iff, bool_decide_eq_true. unfold above. tauto.
  - intros m lower. apply ordered_filter, in_order_ordered.
Qed.

(** ** Write calls *)

(** One call of [set], [delete] or [apply] through a handle, with the storage
    faults it meets. *)
Inductive StoreCall : Type :=
| CallSet (h : ModuleStore) (f : TxnFaults) (key : text) (value : list Z)
| CallDelete (h : ModuleStore) (f : TxnFaults) (key : text)
| CallApply (h : ModuleStore) (f : TxnFaults) (ops : list WriteOp).

Definition call_handle (c : StoreCall) : ModuleStore :=
  match c with CallSet h _ _ _ | CallDelete h _ _ | CallApply h _ _ => h end.

Definition call_ops (c : StoreCall) : list WriteOp :=
  match c with
  | CallSet _ _ key value => [OpSet key value]
  | CallDelete _ _ key => [OpDelete key]
  | CallApply _ _ ops => ops
  end.

Section Safety.
Context {T : Type} `{OrderedTableLaws T}.

Definition run_call (s : LocalStore T) (c : StoreCall)
    : result unit StorageError * LocalStore T :=
  match c with
  | CallSet h f key value => ms_set s h f key value
  | CallDelete h f key => ms_delete s h f key
  | CallApply h f ops => ms_apply s h f ops
  end.

Definition run_calls (s : LocalStore T) (cs : list StoreCall) : LocalStore T :=
  fold_left (fun s c => (run_call s c).2) cs s.

(** The reference semantics: the writes of a call on the map, in order. *)
Definition written (c : StoreCall) (m : gmap (list Z) (list Z)) : gmap (list Z) (list Z) :=
  fold_left (apply_view (call_handle c)) (call_ops c) m.

Lemma written_frame c m k :
  starts_with (call_handle c).(prefix) k = false -> written c m !! k = m !! k.
Proof.
  intros Hk. unfold written. revert m. induction (call_ops c) as [|op ops IH]; intros m; [done|].
  cbn [fold_left]. rewrite IH. destruct op; cbn.
  - rewrite lookup_insert_ne; [done|]. by apply build_key_other.
  - rewrite lookup_delete_ne; [done|]. by apply build_key_other.
Qed.

Lemma run_call_spec (s : LocalStore T) c :
  counters_ok s -> handle_ok (call_handle c) ->
  match run_call s c with
  | (Err _, s') => s' = s
  | (Ok _, s') => t_view s'.(db) = written c (t_view s.(db)) /\ counters_ok s'
  end.
Proof.
  intros Hc Hh. destruct c as [h f key value | h f key | h f ops]; cbn [run_call].
  - pose proof (ms_set_spec s h f key value Hc Hh) as Hw. unfold write_result in Hw.
    destruct (ms_set s h f key value) as [[]]; [tauto|done].
  - pose proof (ms_delete_spec s h f key Hc Hh) as Hw. destruct (ms_delete s h f key) as [[]]; done.
  - pose proof (ms_apply_spec s h f ops Hc Hh) as Hw. unfold write_result in Hw.
    destruct (ms_apply s h f ops) as [[]]; [tauto|done].
Qed.

Lemma run_call_ok (s : LocalStore T) c :
  counters_ok s -> handle_ok (call_handle c) -> counters_ok (run_call s c).2.
Proof.
  intros Hc Hh. pose proof (run_call_spec s c Hc Hh) as Hs.
  destruct (run_call s c) as [[] s']; [tauto|]. cbn. by rewrite Hs.
Qed.

Lemma run_calls_ok (s : LocalStore T) cs :
  counters_ok s -> Forall (fun c => handle_ok (call_handle c)) cs -> counters_ok (run_calls s cs).
Proof.
  intros Hc Hall. revert s Hc. induction Hall as [|c cs Hh _ IH]; intros s Hc; [done|].
  cbn. apply IH. by apply run_call_ok.
Qed.

(** A call leaves the entries of every other namespace. *)
Lemma run_call_frame (s : LocalStore T) c k :
  counters_ok s -> handle_ok (call_handle c) ->
  starts_with (call_handle c).(prefix) k = false ->
  t_view (run_call s c).2.(db) !! k = t_view s.(db) !! k.
Proof.
  intros Hc Hh Hk. pose proof (run_call_spec s c Hc Hh) as Hs.
  destruct (run_call s c) as [[] s']; cbn; [|by rewrite Hs].
  destruct Hs as [-> _]. by apply written_frame.
Qed.

(** ** Quota *)

(** The handles of namespace [p] carry quota [q]. *)
Definition capped (p : list Z) (q : Z) (c : StoreCall) : Prop :=
  (call_handle c).(prefix) = p -> (call_handle c).(quota_bytes) = Some q.

Lemma run_call_quota (s : LocalStore T) c p q :
  counters_ok s -> handle_ok (call_handle c) -> length p = 32%nat -> capped p q c ->
  footprint p (t_view s.(db)) <= q -> footprint p (t_view (run_call s c).2.(db)) <= q.
Proof.
  intros Hc Hh Hp Hq Hle. destruct (decide (prefix (call_handle c) = p)) as [E|Hne].
  2: { rewrite (footprint_frame (call_handle c) p (t_view (db s))); [done..|congruence|].
       intros k Hk. by apply run_call_frame. }
  specialize (Hq E). subst p. destruct c as [h f key value | h f key | h f ops]; cbn in *.
  - pose proof (ms_set_spec s h f key value Hc Hh) as Hw. unfold write_result in Hw.
    destruct (ms_set s h f key value) as [[] s']; cbn; [|by rewrite Hw].
    destruct Hw as (-> & _ & Hw). by apply Hw.
  - pose proof (ms_delete_spec s h f key Hc Hh) as Hw.
    destruct (ms_delete s h f key) as [[] s']; cbn; [|by rewrite Hw].
    destruct Hw as [-> _]. rewrite (footprint_delete _ _ (build_key h key)) in Hle.
    pose proof (charge_nonneg (prefix h) (build_key h key) (t_view (db s) !! build_key h key)). lia.
  - pose proof (ms_apply_spec s h f ops Hc Hh) as Hw. unfold write_result in Hw.
    destruct (ms_apply s h f ops) as [[] s']; cbn; [|by rewrite Hw].
    destruct Hw as (-> & _ & Hw). by apply Hw.
Qed.

(** C3: over any sequence of [set], [delete] and [apply] calls, on any
    handles and with any storage faults, a namespace whose handles carry a quota
    never occupies more than it, counted entry by entry on the table itself; and
    every cached counter equals that count, so it never drifts from the disk. *)
Theorem quota_never_exceeded (s : LocalStore T) cs p q :
  s.(counters) = ∅ ->
  Forall (fun c => handle_ok (call_handle c)) cs ->
  length p = 32%nat -> Forall (capped p q) cs ->
  footprint p (t_view s.(db)) <= q ->
  footprint p (t_view (run_calls s cs).(db)) <= q /\
  (forall p' u, (run_calls s cs).(counters) !! p' = Some u ->
     u = footprint p' (t_view (run_calls s cs).(db))).
Proof.
  intros Hempty Hall Hp Hcap Hle.
  assert (counters_ok s) as Hc by (intros p' u; by rewrite Hempty, lookup_empty).
  split; [|intros p' u Hu; by apply (run_calls_ok s cs Hc Hall) in Hu as [_ ->]].
  clear Hempty. revert s Hc Hle. induction Hall as [|c cs Hh _ IH]; intros s Hc Hle; [done|].
  apply Forall_cons in Hcap as [Hc1 Hcap]. cbn. apply (IH Hcap).
  - by apply run_call_ok.
  - by apply run_call_quota.
Qed.

(** C33: a write call either leaves the store exactly as it was and
    reports an error, or lands all of its operations in order (the last one on
    a key wins) and nothing else, in a store whose counters are still exact; in
    particular a batch equals its operations applied one by one. *)
Theorem writes_all_or_nothing (s : LocalStore T) cs c :
  s.(counters) = ∅ ->
  Forall (fun c => handle_ok (call_handle c)) (cs ++ [c]) ->
  let before := run_calls s cs in
  match run_call before c with
  | (Err _, after) => after = before
  | (Ok _, after) =>
      t_view after.(db) = written c (t_view before.(db)) /\ counters_ok after
  end.
Proof.
  intros Hempty [Hall [Hh _]%Forall_cons]%Forall_app before. apply run_call_spec; [|done].
  apply run_calls_ok; [|done]. intros p' u. by rewrite Hempty, lookup_empty.
Qed.

(** ** Isolation *)

Lemma ms_count_spec (s : LocalStore T) h p :
  ms_count s h no_faults p =
    Ok (Z.of_nat (length (under_prefix p (ns_entries h (t_view s.(db)))))).
Proof.
  unfold ms_count, read_txn. cbn -[Z.of_nat]. do 2 f_equal.
  pose proof (scan_range_spec h (db s) (mkListQuery p [] 0 0 None)) as Hs.
  cbn in Hs. apply (f_equal length) in Hs. rewrite length_fmap in Hs. unfold list_lower in Hs.
  cbn in Hs. by rewrite Hs, resume_after_nil.
Qed.

Lemma list_loop_scan h fp limit scan_limit flt (l : list entry) page examined bytes :
  list_loop h fp limit scan_limit flt l page examined bytes =
    list_loop h fp limit scan_limit flt (scan_prefix fp l) page examined bytes.
Proof.
  revert page examined bytes. induction l as [|[k v] l IH]; intros; [done|].
  cbn [scan_prefix list_loop]. destruct (starts_with fp k) eqn:E; [|done].
  cbn [list_loop]. rewrite E. cbn [negb]. destruct (examined =? scan_limit); [done|].
  destruct (negb (utf8_valid _)); [apply IH|].
  destruct (match flt with None => true | Some _ => _ end); [|apply IH].
  destruct (_ || _); [done | apply IH].
Qed.

(** The scan is determined by what the namespace holds. *)
Lemma scan_from_ns h (t1 t2 : T) query :
  ns_entries h (t_view t1) = ns_entries h (t_view t2) ->
  scan_prefix (build_key h query.(q_prefix)) (t_range t1 (list_lower h query)) =
    scan_prefix (build_key h query.(q_prefix)) (t_range t2 (list_lower h query)).
Proof.
  intros Heq. pose proof (scan_range_spec h t1 query) as H1.
  pose proof (scan_range_spec h t2 query) as H2. rewrite Heq, <- H2 in H1. clear H2 Heq.
  assert (forall l, Forall (fun e : entry => starts_with h.(prefix) e.1 = true)
            (scan_prefix (build_key h (q_prefix query)) l)) as Hp.
  { induction l as [|[k v] l IHl]; cbn; [constructor|]. case_match eqn:E; constructor; [|done].
    by eapply starts_with_weaken. }
  revert H1. generalize (Hp (t_range t1 (list_lower h query))) as P1.
  generalize (Hp (t_range t2 (list_lower h query))) as P2.
  generalize (scan_prefix (build_key h (q_prefix query)) (t_range t1 (list_lower h query))) as l1.
  generalize (scan_prefix (build_key h (q_prefix query)) (t_range t2 (list_lower h query))) as l2.
  intros l2 l1 P2 P1. revert l2 P2.
  induction P1 as [|[k v] l1 E1 _ IH]; intros [|[k' v'] l2] P2; cbn; try done.
  apply Forall_cons in P2 as [E2 P2]. intros [= Hk -> Hl].
  apply starts_with_inv in E1 as [r Er]. apply starts_with_inv in E2 as [r' Er']. cbn in *.
  rewrite Er, Er', !drop_app_length in Hk. subst. f_equal. by apply IH.
Qed.

Lemma ms_list_entries_ns (s1 s2 : LocalStore T) h f query :
  ns_entries h (t_view s1.(db)) = ns_entries h (t_view s2.(db)) ->
  ms_list_entries s1 h f query = ms_list_entries s2 h f query.
Proof.
  intros Heq. unfold ms_list_entries. do 2 (case_match; [|done]). do 2 f_equal.
  rewrite list_loop_scan, (scan_from_ns h (db s1) (db s2)) by done. by rewrite <- list_loop_scan.
Qed.

(** Handles of two namespaces whose digests differ never see each
    other: whatever one writes, a read, a length or a paged listing through the
    other answers as before. *)
Theorem namespaces_isolated (keccak256 : list Z -> list Z) (s : LocalStore T) ns h ns' h' (quota : bool) q c :
  counters_ok s -> (forall x, length (keccak256 x) = 32%nat) ->
  ls_module keccak256 ns = Ok h -> ls_module keccak256 ns' = Ok h' ->
  keccak256 ns <> keccak256 ns' ->
  call_handle c = (if quota then with_quota h q else h) ->
  let s' := (run_call s c).2 in
  (forall f key, ms_get s' h' f key = ms_get s h' f key) /\
  (forall f key, ms_len s' h' f key = ms_len s h' f key) /\
  (forall f query, ms_list_entries s' h' f query = ms_list_entries s h' f query).
Proof.
  intros Hc Hlen Eh Eh' Hne Ec s'. unfold ls_module in Eh, Eh'.
  case_bool_decide; [done|]. case_bool_decide; [done|].
  injection Eh as <-. injection Eh' as <-.
  assert (prefix (call_handle c) = keccak256 ns) as Ep by (rewrite Ec; by destruct quota).
  assert (handle_ok (call_handle c)) as Hh by (unfold handle_ok; by rewrite Ep).
  assert (forall k, starts_with (keccak256 ns') k = true ->
            t_view s'.(db) !! k = t_view s.(db) !! k) as Hsame.
  { intros k Hk. apply run_call_frame; [done..|]. rewrite Ep.
    destruct (starts_with (keccak256 ns) k) eqn:E; [|done]. destruct Hne.
    eapply starts_with_same_length; [|exact E|exact Hk]. by rewrite !Hlen. }
  repeat split.
  - intros f key. unfold ms_get. rewrite !view_get, Hsame; [done|]. apply starts_with_app.
  - intros f key. unfold ms_len. rewrite !view_get, Hsame; [done|]. apply starts_with_app.
  - intros f query. by apply ms_list_entries_ns, ns_entries_ext.
Qed.

(** ** Listings *)

Definition with_start_after (query : ListQuery) (start_after : text) : ListQuery :=
  mkListQuery query.(q_prefix) start_after query.(q_limit) query.(q_scan_limit) query.(q_filter).

End Safety.

(** ** The store behind the contract *)

Section Contract.
Context {T : Type} `{OrderedTableLaws T}.
Variable keccak256 : list Z -> list Z.
Hypothesis keccak256_length : forall x, length (keccak256 x) = 32%nat.

(** The store with the faults its next transactions meet. *)
Definition Faulty : Type := LocalStore T * list TxnFaults.

Definition next_faults (s : Faulty) : TxnFaults := default no_faults (head s.2).

(** [StateStore::module] then [StateHandle::get] / [StateHandle::set]. *)
Definition local_get (s : Faulty) (ns : text) (key : text)
    : result (option (list Z)) StoreError * Faulty :=
  match ls_module keccak256 ns with
  | Err e => (Err (store_error e), s)
  | Ok h => (map_err store_error (ms_get s.1 h (next_faults s) key), (s.1, tail s.2))
  end.

Definition local_set (s : Faulty) (ns : text) (key : text) (value : list Z)
    : result unit StoreError * Faulty :=
  match ls_module keccak256 ns with
  | Err e => (Err (store_error e), s)
  | Ok h =>
      let (r, s') := ms_set s.1 h (next_faults s) key value in
      (map_err store_error r, (s', tail s.2))
  end.

Definition local_holds (s : Faulty) (id : list Z) (k : text) : option (list Z) :=
  if decide (length id = 32%nat) then t_view s.1.(db) !! (id ++ k) else None.

Definition local_state_store : StateStore Faulty := {|
  namespace_id := keccak256;
  store_holds := local_holds;
  store_get := local_get;
  store_set := local_set
|}.

Lemma ms_set_unquoted (s : LocalStore T) h f key value r s' :
  h.(quota_bytes) = None -> ms_set s h f key value = (r, s') ->
  t_view s'.(db) = if is_ok r then <[build_key h key := value]> (t_view s.(db)) else t_view s.(db).
Proof.
  intros Hq. unfold ms_set. rewrite Hq.
  destruct (begin_fails f); [by intros [= <- <-]|].
  destruct (open_table_fails f); [by intros [= <- <-]|].
  destruct (_ && read_fails f); [by intros [= <- <-]|].
  destruct (write_fails f); [by intros [= <- <-]|].
  destruct (commit_fails f); [by intros [= <- <-]|].
  intros [= <- <-]. cbn. by rewrite view_insert.
Qed.

Lemma holds_insert (s s' : LocalStore T) fs fs' ns key value id k :
  t_view s'.(db) = <[keccak256 ns ++ key := value]> (t_view s.(db)) ->
  local_holds (s', fs') id k =
    if bool_decide ((id, k) = (keccak256 ns, key)) then Some value else local_holds (s, fs) id k.
Proof.
  intros E. unfold local_holds. cbn. rewrite E. case_bool_decide as Heq.
  - injection Heq as -> ->. by rewrite decide_True, lookup_insert_eq.
  - case_decide as Hl; [|done]. apply lookup_insert_ne. intros Ea. apply Heq.
    apply app_inj_1 in Ea as [-> ->]; [done|]. by rewrite Hl.
Qed.

Lemma local_store_laws :
  @StateStoreLaws Faulty local_state_store.
Proof.
  split.
  - intros [s fs] ns key r s' E. cbn in E. unfold local_get in E.
    destruct (ls_module keccak256 ns) as [h|e] eqn:Em; injection E as <- <-; [|done].
    split; [done|]. intros v. unfold ls_module in Em. case_bool_decide; [done|].
    injection Em as <-. unfold ms_get, read_txn. do 3 (case_match; [done|]). cbn.
    intros [= <-]. unfold local_holds. by rewrite decide_True, view_get.
  - intros [s fs] ns key value r s' E. cbn in E. unfold local_set in E.
    destruct (ls_module keccak256 ns) as [h|e] eqn:Em; [|by injection E as <- <-].
    unfold ls_module in Em. case_bool_decide; [done|]. injection Em as <-. cbn [fst] in E.
    destruct (ms_set _ _ _ _ _) as [r0 s0] eqn:Es. injection E as <- <-. intros id k.
    apply ms_set_unquoted in Es; [|done]. destruct r0; cbn in *.
    + by apply holds_insert.
    + unfold local_holds. cbn. by rewrite Es.
Qed.
(** The local store implements the state-store contract the
    supervisor persists through: a read answers what is durably held or fails, a
    write that succeeds is held from then on, and a failed one changes nothing,
    for any faults of the storage. *)
Theorem local_store_implements_contract :
  @StateStoreLaws Faulty local_state_store.
Proof. exact local_store_laws. Qed.
End Contract.

(** ** Concrete instances *)

Module Demo.
Definition table : Type := gmap (list Z) (list Z).
Definition digest (x : text) : list Z := replicate 31 7 ++ [Z.of_nat (length x)].
Definition store0 : LocalStore table := mkLocalStore ∅ ∅.
Definition h1 : ModuleStore := mkModuleStore (digest (chars_of "a")) None.
Definition h2 : ModuleStore := mkModuleStore (digest (chars_of "bb")) None.
Definition calls : list StoreCall :=
  [CallSet (with_quota h1 150) no_faults (chars_of "k") [1; 2; 3];
   CallApply (with_quota h1 150) no_faults [OpSet (chars_of "k") [1]; OpSet (chars_of "l") [2]];
   CallSet (with_quota h1 150) no_faults (chars_of "m") [4];
   CallDelete (with_quota h1 150) no_faults (chars_of "l");
   CallSet h2 no_faults (chars_of "k") [9]].
Definition fresh : LocalStore table := run_calls store0 calls.
End Demo.

(** The third write of [Demo.calls] is the one the quota refuses. *)
Example demo_quota_refusal :
  (run_call (run_calls Demo.store0 (take 2 Demo.calls)) (CallSet (with_quota Demo.h1 150) no_faults (chars_of "m") [4])).1
    = Err (SQuotaExceeded 198 150).
Proof. vm_compute. reflexivity. Qed.

Lemma quota_never_exceeded_witness :
  footprint (Demo.digest (chars_of "a")) (t_view Demo.fresh.(db)) <= 150 /\
  (forall p' u, Demo.fresh.(counters) !! p' = Some u -> u = footprint p' (t_view Demo.fresh.(db))).
Proof.
  apply (quota_never_exceeded Demo.store0 Demo.calls (Demo.digest (chars_of "a")) 150);
    [reflexivity | repeat constructor | reflexivity | | vm_compute; discriminate].
  repeat constructor; intros E; try reflexivity. vm_compute in E. discriminate E.
Defined.

Lemma writes_all_or_nothing_witness :
  let before := run_calls Demo.store0 (take 2 Demo.calls) in
  let c := CallSet (with_quota Demo.h1 150) no_faults (chars_of "m") [4] in
  match run_call before c with
  | (Err _, after) => after = before
  | (Ok _, after) => t_view after.(db) = written c (t_view before.(db)) /\ counters_ok after
  end.
Proof. apply (writes_all_or_nothing Demo.store0); [reflexivity | repeat constructor]. Defined.

Lemma namespaces_isolated_witness :
  let s' := (run_call Demo.store0 (CallSet Demo.h1 no_faults (chars_of "k") [1])).2 in
  (forall f key, ms_get s' Demo.h2 f key = ms_get Demo.store0 Demo.h2 f key) /\
  (forall f key, ms_len s' Demo.h2 f key = ms_len Demo.store0 Demo.h2 f key) /\
  (forall f query, ms_list_entries s' Demo.h2 f query = ms_list_entries Demo.store0 Demo.h2 f query).
Proof.
  apply (namespaces_isolated Demo.digest Demo.store0 (chars_of "a") Demo.h1 (chars_of "bb") Demo.h2
           false 0); try reflexivity.
  - intros p u E. cbn in E. rewrite lookup_empty in E. discriminate E.
  - intros E. vm_compute in E. discriminate E.
Defined.


Lemma local_store_implements_contract_witness :
  @StateStoreLaws (Faulty (T := Demo.table)) (local_state_store Demo.digest).
Proof. apply (local_store_implements_contract Demo.digest). reflexivity. Defined.

(** An entry with the empty key breaks the walk: resuming after it starts over,
    so a page of one entry never advances. *)
Example empty_key_stalls_the_walk :
  let s := run_calls Demo.store0
             [CallSet Demo.h1 no_faults [] [1]; CallSet Demo.h1 no_faults (chars_of "k") [2]] in
  let page sa := ms_list_entries s Demo.h1 no_faults (mkListQuery [] sa 1 0 None) in
  page [] = Ok (mkEntryPage [([], [1])] (Some []) false).
Proof. vm_compute. reflexivity. Qed.
