(* ===== verification/Cursors.v ===== *)
(** * Cursors: the chain-log resume cursors

    Models [crates/nexum-runtime-supervisor/src/supervisor/cursors.rs]: the
    in-memory mirror with its holds, the durable cell it is persisted to, and
    the key that names a trigger's cell.  The store is used through the
    contract of [StoreApi]; the hash and the hex formatting of alloy's types are
    arguments. *)

From stdpp Require Import prelude list gmap strings.
From Stdlib Require Import ZArith Lia.
From S2P Require Import Prelude Primitives StoreApi LocalStore LocalStoreSafety.

Record ChainLogCursors : Type := mkChainLogCursors {
  cursors : gmap text (gmap text Z);
  holds : gset (text * text)
}.

Definition ChainLogCursors_default : ChainLogCursors := mkChainLogCursors ∅ ∅.

Definition host_namespace (module : text) : text := chars_of "host/" ++ module.

(** The mirrored value of a pair. *)
Definition tracked (c : ChainLogCursors) (module key : text) : option Z :=
  c.(cursors) !! module ≫= (fun keys => keys !! key).

Section Store.
Context {S : Type} `{StateStore S}.

(** [seed] runs only when the pair is not mirrored yet. *)
Definition record (c : ChainLogCursors) (module key : text) (block : Z) (removed : bool)
    (seed : S -> option Z * S) (s : S) : option Z * ChainLogCursors * S :=
  let tracked := tracked c module key in
  let (current, s) := match tracked with Some c => (Some c, s) | None => seed s end in
  let next :=
    match current with
    | Some c => if removed then Z.min c block else Z.max c block
    | None => block
    end in
  let c' :=
    if bool_decide (tracked = Some next) then c
    else mkChainLogCursors
           (<[module := <[key := next]> (default ∅ (c.(cursors) !! module))]> c.(cursors))
           c.(holds) in
  (if bool_decide (current = Some next) then None else Some next, c', s).

Definition hold (c : ChainLogCursors) (module key : text) : ChainLogCursors :=
  mkChainLogCursors c.(cursors) ({[(module, key)]} ∪ c.(holds)).

Definition is_held (c : ChainLogCursors) (module key : text) : bool :=
  bool_decide ((module, key) ∈ c.(holds)).

Definition read_chain_log_cursor (s : S) (module key : text) : option Z * S :=
  let (r, s') := store_get s (host_namespace module) key in
  (match r with
   | Ok (Some bytes) => decode_le 8 bytes
   | Ok None | Err _ => None
   end, s').

Definition commit_chain_log_cursor (s : S) (c : ChainLogCursors) (module key : text)
    (block : Z) (removed : bool) : S * ChainLogCursors :=
  match record c module key block removed (fun s => read_chain_log_cursor s module key) s with
  | (None, c', s') => (s', c')
  | (Some cursor, c', s') =>
      let (_, s'') := store_set s' (host_namespace module) key (u64_to_le_bytes cursor) in
      (s'', c')
  end.

Definition commit_chain_log_frontier (s : S) (c : ChainLogCursors) (module key : text)
    (frontier : Z) : S * ChainLogCursors :=
  if is_held c module key then (s, c)
  else commit_chain_log_cursor s c module key frontier false.
End Store.

(** ** Cell names *)

Section Key.
Variable keccak256 : list Z -> list Z.
(** [{a:#x}] of an address, [{t:#x}] of a topic, [{:x}] of a digest. *)
Variable hex_address hex_topic hex_digest : list Z -> text.

Definition normalized (chain : Z) (address event_signature : option (list Z)) : text :=
  decimal chain ++ 124 :: default [] (hex_address <$> address)
    ++ 124 :: default [] (hex_topic <$> event_signature).

Definition chainlog_cursor_key (chain : Z) (address event_signature : option (list Z)) : text :=
  chars_of "chainlog_cursor:" ++ hex_digest (keccak256 (normalized chain address event_signature)).
End Key.

(** ** The abstract cell

    What a pair's cursor is meant to be: one value, moved forward by an accepted
    log and pulled back to a retracted one. *)

Definition merge (cell : option Z) (m : Z * bool) : option Z :=
  Some match cell with
       | Some c => if m.2 then Z.min c m.1 else Z.max c m.1
       | None => m.1
       end.

(** An operation on the cursors, as the supervisor issues them. *)
Inductive CursorOp : Type :=
| OpCommit (module key : text) (block : Z) (removed : bool)
| OpFrontier (module key : text) (frontier : Z)
| OpHold (module key : text).

Definition op_pair (op : CursorOp) : text * text :=
  match op with
  | OpCommit m k _ _ | OpFrontier m k _ | OpHold m k => (m, k)
  end.

(** The moves a sequence of operations makes on one pair's cell: every commit,
    and every frontier until the pair is held. *)
Fixpoint moves (pair : text * text) (held : bool) (ops : list CursorOp) : list (Z * bool) :=
  match ops with
  | [] => []
  | op :: ops =>
      if negb (bool_decide (op_pair op = pair)) then moves pair held ops
      else match op with
           | OpCommit _ _ b r => (b, r) :: moves pair held ops
           | OpFrontier _ _ f => if held then moves pair held ops else (f, false) :: moves pair held ops
           | OpHold _ _ => moves pair true ops
           end
  end.

Section Refinement.
Context {S : Type} `{StateStoreLaws S}.

Definition run_op (st : S * ChainLogCursors) (op : CursorOp) : S * ChainLogCursors :=
  match op with
  | OpCommit m k b r => commit_chain_log_cursor st.1 st.2 m k b r
  | OpFrontier m k f => commit_chain_log_frontier st.1 st.2 m k f
  | OpHold m k => (st.1, hold st.2 m k)
  end.

Definition run_ops (st : S * ChainLogCursors) (ops : list CursorOp) : S * ChainLogCursors :=
  fold_left run_op ops st.

(** The durable value of a pair's cell, as a fresh process decodes it. *)
Definition durable (s : S) (pair : text * text) : option Z :=
  store_holds s (namespace_id (host_namespace pair.1)) pair.2 ≫= decode_le 8.

Lemma tracked_insert c m k v m' k' :
  tracked (mkChainLogCursors (<[m := <[k := v]> (default ∅ (c.(cursors) !! m))]> c.(cursors)) c.(holds)) m' k'
  = if bool_decide ((m', k') = (m, k)) then Some v else tracked c m' k'.
Proof.
  unfold tracked. cbn. destruct (decide (m' = m)) as [->|Hm].
  - rewrite lookup_insert_eq. cbn. destruct (decide (k' = k)) as [->|Hk].
    + by rewrite lookup_insert_eq, bool_decide_eq_true_2.
    + rewrite lookup_insert_ne by done. rewrite bool_decide_eq_false_2 by congruence.
      by destruct (cursors c !! m).
  - rewrite lookup_insert_ne by done. by rewrite bool_decide_eq_false_2 by congruence.
Qed.

(** One commit, seen through the laws of the store: the mirror moves to the
    merge of what it held, or of the durable value when it held nothing and the
    read went through; the durable cell keeps its value or takes that one; and
    no other cell moves. *)
Lemma commit_spec (s : S) c m k b r :
  let out := commit_chain_log_cursor s c m k b r in
  exists i,
    (i = tracked c m k \/ (tracked c m k = None /\ i = durable s (m, k))) /\
    (forall p, tracked out.2 p.1 p.2 =
       if bool_decide (p = (m, k)) then merge i (b, r) else tracked c p.1 p.2) /\
    out.2.(holds) = c.(holds) /\
    ((forall id key, store_holds out.1 id key = store_holds s id key) \/
     (exists v, merge i (b, r) = Some v /\
      forall id key, store_holds out.1 id key =
        if bool_decide ((id, key) = (namespace_id (host_namespace m), k))
        then Some (u64_to_le_bytes v) else store_holds s id key)).
Proof.
  unfold commit_chain_log_cursor, record.
  assert (exists i s0,
            (i = tracked c m k \/ (tracked c m k = None /\ i = durable s (m, k))) /\
            (forall id key, store_holds s0 id key = store_holds s id key) /\
            match tracked c m k with
            | Some c0 => (Some c0, s)
            | None => read_chain_log_cursor s m k
            end = (i, s0)) as (i & s0 & Hi & Hs0 & ->).
  { destruct (tracked c m k) as [v|] eqn:Et; [by exists (Some v), s; auto|].
    unfold read_chain_log_cursor. destruct (store_get s (host_namespace m) k) as [g s0] eqn:Eg.
    pose proof (store_get_holds _ _ _ _ _ Eg) as [Hsame Hg].
    eexists _, s0. split; [|by split].
    destruct g as [[bytes|]|e]; [|left; done..]. right. split; [done|].
    unfold durable. cbn [fst snd]. by rewrite <- (Hg (Some bytes) eq_refl). }
  set (next := match i with Some c0 => if r then Z.min c0 b else Z.max c0 b | None => b end).
  assert (merge i (b, r) = Some next) as Em by (by destruct i).
  set (c' := if bool_decide (tracked c m k = Some next) then c else _).
  assert (forall p, tracked c' p.1 p.2 =
            if bool_decide (p = (m, k)) then merge i (b, r) else tracked c p.1 p.2) as Hc'.
  { intros [m' k']. cbn. unfold c'. case_bool_decide as Ht.
    - case_bool_decide as Ep; [|done]. injection Ep as -> ->. by rewrite Ht, Em.
    - by rewrite tracked_insert, Em. }
  assert (holds c' = holds c) as Hh by (unfold c'; by case_bool_decide).
  exists i. case_bool_decide as Ecur.
  - cbn. auto.
  - destruct (store_set s0 (host_namespace m) k (u64_to_le_bytes next)) as [w s1] eqn:Ew. cbn.
    do 3 (split; [done|]). pose proof (store_set_holds _ _ _ _ _ _ Ew) as Hw.
    destruct w; cbn in Hw.
    + right. exists next. split; [done|]. intros id key. by rewrite Hw, Hs0.
    + left. intros id key. by rewrite Hw, Hs0.
Qed.

Lemma frontier_spec (s : S) c m k f :
  commit_chain_log_frontier s c m k f =
    if is_held c m k then (s, c) else commit_chain_log_cursor s c m k f false.
Proof. done. Qed.

Lemma hold_tracked c m k m' k' : tracked (hold c m k) m' k' = tracked c m' k'.
Proof. done. Qed.

Lemma is_held_hold c m k m' k' :
  is_held (hold c m k) m' k' = bool_decide ((m', k') = (m, k)) || is_held c m' k'.
Proof.
  unfold is_held, hold. cbn. apply Bool.eq_iff_eq_true.
  rewrite orb_true_iff, !bool_decide_eq_true. set_solver.
Qed.

(** What holds of a pair after the moves [ms], from the durable value [d0]. *)
Definition cell_inv (d0 mirror dur : option Z) (ms : list (Z * bool)) : Prop :=
  exists i n,
    (i = d0 \/ i = None) /\ (n <= length ms)%nat /\
    mirror = (match ms with [] => None | _ => fold_left merge ms i end) /\
    (dur = d0 \/ ((0 < n)%nat /\ dur = fold_left merge (take n ms) i)).

Lemma merge_snoc ms i mv : merge (fold_left merge ms i) mv = fold_left merge (ms ++ [mv]) i.
Proof. by rewrite fold_left_app. Qed.

Lemma merge_some mv ms i : fold_left merge (mv :: ms) i <> None.
Proof. revert mv i. induction ms as [|x ms IH]; intros mv i; [done|]. apply (IH x). Qed.

Lemma merge_u64 ms i v :
  Forall (fun mv : Z * bool => is_u64 mv.1) ms -> (forall w, i = Some w -> is_u64 w) ->
  fold_left merge ms i = Some v -> is_u64 v.
Proof.
  intros Hms. revert i. induction Hms as [|[b r] ms Hb _ IH]; intros i Hi; cbn; [apply Hi|].
  apply IH. intros w [= <-]. cbn in *. destruct i as [c|]; [|done].
  specialize (Hi c eq_refl). unfold is_u64 in *. destruct r; lia.
Qed.

(** A commit on the pair itself. *)
Lemma cell_inv_commit (s : S) c d0 ms p b r :
  Forall (fun mv : Z * bool => is_u64 mv.1) ms -> is_u64 b ->
  (forall w, d0 = Some w -> is_u64 w) ->
  cell_inv d0 (tracked c p.1 p.2) (durable s p) ms ->
  let out := commit_chain_log_cursor s c p.1 p.2 b r in
  cell_inv d0 (tracked out.2 p.1 p.2) (durable out.1 p) (ms ++ [(b, r)]).
Proof.
  intros Hms Hb Hd0 (i & n & Hi & Hn & Hmir & Hdur) out.
  destruct (commit_spec s c p.1 p.2 b r) as (i1 & Hi1 & Htr & _ & Hst). fold out in Htr, Hst.
  specialize (Htr p). rewrite bool_decide_eq_true_2 in Htr by by destruct p.
  assert (exists j, (j = d0 \/ j = None) /\ merge i1 (b, r) = fold_left merge (ms ++ [(b, r)]) j /\
            (durable s p = d0 \/ ((0 < n)%nat /\ durable s p = fold_left merge (take n ms) j)))
    as (j & Hj & Emerge & Hdj).
  { destruct ms as [|mv ms].
    - exists i1. cbn in Hmir, Hn. rewrite Hmir in Hi1.
      assert (durable s p = d0) as Ed by (destruct Hdur as [?|[? _]]; [done|lia]).
      rewrite <- Ed. split; [|by split; [|left]]. destruct p. naive_solver.
    - exists i. split; [done|]. split; [|done]. rewrite fold_left_app. cbn [fold_left].
      f_equal. destruct Hi1 as [->|[Hnone _]]; [done|].
      exfalso. rewrite Hmir in Hnone. clear -Hnone.
      by apply merge_some in Hnone. }
  assert (forall w, fold_left merge (ms ++ [(b, r)]) j = Some w -> is_u64 w) as Hu64.
  { intros w. apply merge_u64; [by apply Forall_app; split; [|apply Forall_singleton]|].
    intros x ->. destruct Hj as [Ej|?]; [by apply Hd0|done]. }
  assert (tracked out.2 p.1 p.2 = match ms ++ [(b, r)] with
            | [] => None | _ :: _ => fold_left merge (ms ++ [(b, r)]) j end) as Hout.
  { rewrite Htr, Emerge. by destruct ms. }
  destruct Hst as [Hsame|(v & Ev & Hnew)].
  - exists j, n. split; [done|]. split; [rewrite length_app; cbn; lia|]. split; [exact Hout|].
    unfold durable. rewrite Hsame. fold (durable s p).
    destruct Hdj as [?|[? ?]]; [by left|]. right. split; [done|]. by rewrite take_app_le.
  - exists j, (length (ms ++ [(b, r)])). split; [done|]. split; [done|]. split; [exact Hout|].
    right. split; [rewrite length_app; cbn; lia|]. rewrite firstn_all. unfold durable. rewrite Hnew.
    rewrite bool_decide_eq_true_2 by done. cbn. rewrite <- Emerge, Ev.
    apply decode_le_u64. apply Hu64. by rewrite <- Emerge.
Qed.

(** A commit on another pair, in a namespace of its own. *)
Lemma cell_inv_other (s : S) c p m k b r :
  (m, k) <> p ->
  (namespace_id (host_namespace m) = namespace_id (host_namespace p.1) -> m = p.1) ->
  let out := commit_chain_log_cursor s c m k b r in
  tracked out.2 p.1 p.2 = tracked c p.1 p.2 /\ durable out.1 p = durable s p /\
  is_held out.2 p.1 p.2 = is_held c p.1 p.2.
Proof.
  intros Hne Hns out. destruct (commit_spec s c m k b r) as (i & _ & Htr & Hh & Hst).
  fold out in Htr, Hh, Hst. specialize (Htr p). rewrite bool_decide_eq_false_2 in Htr by done.
  split; [done|]. split; [|unfold is_held; by rewrite Hh]. unfold durable.
  destruct Hst as [Hsame|(v & _ & Hnew)]; [by rewrite Hsame|].
  rewrite Hnew, bool_decide_eq_false_2; [done|]. intros [= E1 E2]. apply Hne.
  destruct p as [pm pk]; cbn in *. symmetry in E1. by rewrite (Hns E1), E2.
Qed.

Definition op_block (op : CursorOp) : Z :=
  match op with OpCommit _ _ b _ => b | OpFrontier _ _ f => f | OpHold _ _ => 0 end.

Definition op_ok (p : text * text) (op : CursorOp) : Prop :=
  is_u64 (op_block op) /\
  (namespace_id (host_namespace (op_pair op).1) = namespace_id (host_namespace p.1) ->
   (op_pair op).1 = p.1).

Lemma run_ops_inv ops p d0 : Forall (op_ok p) ops -> (forall w, d0 = Some w -> is_u64 w) ->
  forall (s : S) c ms,
    Forall (fun mv : Z * bool => is_u64 mv.1) ms ->
    cell_inv d0 (tracked c p.1 p.2) (durable s p) ms ->
    let out := run_ops (s, c) ops in
    cell_inv d0 (tracked out.2 p.1 p.2) (durable out.1 p)
      (ms ++ moves p (is_held c p.1 p.2) ops).
Proof.
  intros Hops Hd0. induction Hops as [|op ops [Hb Hns] _ IH]; intros s c ms Hms Hinv.
  - cbn. by rewrite app_nil_r.
  - cbn [run_ops fold_left moves]. destruct (decide (op_pair op = p)) as [Ep|Hne].
    + rewrite bool_decide_eq_true_2 by done. cbn [negb]. subst p.
      assert (forall b r, is_u64 b ->
        let out := commit_chain_log_cursor s c (op_pair op).1 (op_pair op).2 b r in
        let out' := run_ops out ops in
        cell_inv d0 (tracked out'.2 (op_pair op).1 (op_pair op).2) (durable out'.1 (op_pair op))
          (ms ++ (b, r) :: moves (op_pair op) (is_held c (op_pair op).1 (op_pair op).2) ops)) as Hgo.
      { intros b r Hu out out'.
        pose proof (cell_inv_commit s c d0 ms (op_pair op) b r Hms Hu Hd0 Hinv) as Hc.
        destruct (commit_spec s c (op_pair op).1 (op_pair op).2 b r) as (_ & _ & _ & Hh & _).
        fold out in Hc, Hh. unfold out'. rewrite (surjective_pairing out).
        replace (is_held c) with (is_held out.2) by (unfold is_held; by rewrite Hh).
        change (ms ++ (b, r) :: ?l) with (ms ++ [(b, r)] ++ l). rewrite app_assoc.
        apply IH; [by apply Forall_app; split; [|apply Forall_singleton] | exact Hc]. }
      destruct op as [m k b r | m k f | m k]; cbn [run_op op_pair fst snd op_block] in *.
      * by apply Hgo.
      * rewrite frontier_spec. destruct (is_held c m k) eqn:Eh.
        -- pose proof (IH s c ms Hms Hinv) as Hi. cbn in Hi. by rewrite Eh in Hi.
        -- by apply Hgo.
      * pose proof (IH s (hold c m k) ms Hms Hinv) as Hi. cbn in Hi.
        rewrite is_held_hold, bool_decide_eq_true_2 in Hi by done. exact Hi.
    + rewrite bool_decide_eq_false_2 by done. cbn [negb].
      assert (forall b r m k, op_pair op = (m, k) ->
        let out := commit_chain_log_cursor s c m k b r in
        let out' := run_ops out ops in
        cell_inv d0 (tracked out'.2 p.1 p.2) (durable out'.1 p)
          (ms ++ moves p (is_held c p.1 p.2) ops)) as Hgo.
      { intros b r m k Eop out out'. rewrite Eop in Hne, Hns. cbn in Hns.
        destruct (cell_inv_other s c p m k b r Hne Hns) as (Et & Ed & Eh). fold out in Et, Ed, Eh.
        unfold out'. rewrite (surjective_pairing out), <- Eh. apply IH; [done|].
        by rewrite Et, Ed. }
      destruct op as [m k b r | m k f | m k]; cbn [run_op op_pair fst snd op_block] in *.
      * by apply Hgo.
      * rewrite frontier_spec. destruct (is_held c m k); [by apply IH | by apply Hgo].
      * pose proof (IH s (hold c m k) ms Hms Hinv) as Hi. cbn in Hi.
        rewrite is_held_hold, bool_decide_eq_false_2 in Hi by by destruct p. exact Hi.
Qed.

(** C6: from a fresh process, any interleaving of commits, chunk
    frontiers and holds over any pairs refines one abstract cell a pair: the
    mirror is the merge (forward on a log, back on a retraction) of every commit
    and every frontier not withheld, starting from the durable cursor or, when
    reading it failed, from nothing; and whatever writes fail, the durable value
    is the one before the process or the merge of a prefix of those moves. *)
Theorem cursors_refine_cells (s0 : S) ops p :
  Forall (op_ok p) ops -> (forall w, durable s0 p = Some w -> is_u64 w) ->
  let out := run_ops (s0, ChainLogCursors_default) ops in
  let ms := moves p false ops in
  exists i n,
    (i = durable s0 p \/ i = None) /\ (n <= length ms)%nat /\
    tracked out.2 p.1 p.2 = (match ms with [] => None | _ => fold_left merge ms i end) /\
    (durable out.1 p = durable s0 p \/
     ((0 < n)%nat /\ durable out.1 p = fold_left merge (take n ms) i)).
Proof.
  intros Hops Hd0. apply (run_ops_inv ops p (durable s0 p) Hops Hd0 s0 ChainLogCursors_default []).
  - constructor.
  - exists None, O. cbn. auto.
Qed.
End Refinement.

(** ** Cell names do not clash *)

(** No id a manifest can give a module names the host-owned
    namespace of any module's cursors. *)
Theorem host_namespace_disjoint name id module :
  ModuleId.parse name = Ok id -> id <> host_namespace module.
Proof.
  intros (-> & _ & _ & Hslash & _)%ModuleId.parse_ok E. apply Hslash. rewrite E. unfold host_namespace.
  cbn. set_solver.
Qed.

Lemma host_namespace_disjoint_witness :
  chars_of "twap-monitor" <> host_namespace (chars_of "twap").
Proof.
  apply (host_namespace_disjoint (chars_of "twap-monitor") (chars_of "twap-monitor")). reflexivity.
Defined.

Section KeyFacts.
Variable keccak256 : list Z -> list Z.
Variable hex_address hex_topic hex_digest : list Z -> text.

Definition is_bytes (n : nat) (l : list Z) : Prop := length l = n /\ Forall is_u8 l.

(** Hex formatting tells values apart, and is a non-empty word without a bar. *)
Definition hex_ok (n : nat) (hex : list Z -> text) : Prop :=
  (forall a b, is_bytes n a -> is_bytes n b -> hex a = hex b -> a = b) /\
  (forall a, is_bytes n a -> hex a <> [] /\ 124 ∉ hex a).

Hypothesis hex_address_ok : hex_ok 20 hex_address.
Hypothesis hex_topic_ok : hex_ok 32 hex_topic.
Hypothesis hex_digest_ok : hex_ok 32 hex_digest.
Hypothesis keccak256_bytes : forall x, is_bytes 32 (keccak256 x).

Definition opt_bytes (n : nat) (o : option (list Z)) : Prop :=
  match o with Some l => is_bytes n l | None => True end.

Lemma hex_opt_inj n hex o o' :
  hex_ok n hex -> opt_bytes n o -> opt_bytes n o' ->
  default [] (hex <$> o) = default [] (hex <$> o') -> o = o'.
Proof.
  intros [Hinj Hok] Ho Ho'. destruct o as [a|], o' as [b|]; cbn in *; [| | |done].
  - intros E. by rewrite (Hinj a b Ho Ho' E).
  - intros E. by apply Hok in Ho as [? _].
  - intros E. symmetry in E. by apply Hok in Ho' as [? _].
Qed.

Lemma hex_opt_no_bar n hex o :
  hex_ok n hex -> opt_bytes n o -> 124 ∉ default [] (hex <$> o).
Proof. intros [_ Hok] Ho. destruct o as [a|]; cbn; [by apply Hok in Ho as [_ ?]|]. set_solver. Qed.

(** Two event triggers share a cursor cell only if they filter
    the same chain, address and event signature, short of a collision of the
    hash on their two normal forms. *)
Theorem cursor_keys_distinct chain address sig chain' address' sig' :
  is_u64 chain -> is_u64 chain' -> opt_bytes 20 address -> opt_bytes 20 address' ->
  opt_bytes 32 sig -> opt_bytes 32 sig' ->
  let n := normalized hex_address hex_topic chain address sig in
  let n' := normalized hex_address hex_topic chain' address' sig' in
  (keccak256 n = keccak256 n' -> n = n') ->
  chainlog_cursor_key keccak256 hex_address hex_topic hex_digest chain address sig =
    chainlog_cursor_key keccak256 hex_address hex_topic hex_digest chain' address' sig' ->
  chain = chain' /\ address = address' /\ sig = sig'.
Proof.
  intros Hc Hc' Ha Ha' Hs Hs' n n' Hcol E. unfold chainlog_cursor_key in E.
  apply app_inv_head in E. destruct hex_digest_ok as [Hinj _].
  apply Hinj in E; [|apply keccak256_bytes..]. apply Hcol in E. unfold n, n', normalized in E.
  pose proof (f_equal (split_once 124) E) as Es.
  rewrite !split_once_app in Es by by apply decimal_not_in. injection Es as Ed Er.
  pose proof (f_equal (split_once 124) Er) as Er'.
  rewrite !split_once_app in Er' by (by eapply hex_opt_no_bar). injection Er' as Ea Et.
  split; [by apply decimal_inj|]. split; [by apply (hex_opt_inj 20 hex_address) | by apply (hex_opt_inj 32 hex_topic)].
Qed.
End KeyFacts.

Module CursorDemo.
Definition hex0x (a : list Z) : text := chars_of "0x" ++ Digest.Codec.encode a.
Definition digest32 (x : list Z) : list Z := replicate 31 7 ++ [Z.of_nat (length x) mod 256].
Definition addr : list Z := replicate 20 17.
Definition topic : list Z := replicate 32 170.

Lemma encode_inj a b :
  Forall is_u8 a -> Forall is_u8 b -> Digest.Codec.encode a = Digest.Codec.encode b -> a = b.
Proof.
  intros Ha Hb E. apply Digest.Codec.decode_all_encode in Ha, Hb. congruence.
Qed.

Lemma encode_no_bar a : 124 ∉ Digest.Codec.encode a.
Proof.
  induction a as [|b a IH]; [set_solver|]. cbn [Digest.Codec.encode flat_map app].
  rewrite !not_elem_of_cons. split; [|split; [|exact IH]];
    unfold Digest.Codec.digit; change 15 with (Z.ones 4);
    rewrite Z.land_ones by lia; case_match; div_lia.
Qed.

Lemma hex0x_ok n : hex_ok n hex0x.
Proof.
  split.
  - intros a b [_ Ha] [_ Hb] E. apply app_inv_head in E. by apply encode_inj.
  - intros a _. split; [done|]. unfold hex0x. intros [Hin|Hin]%elem_of_app.
    + vm_compute in Hin. set_solver.
    + by apply encode_no_bar in Hin.
Qed.

Lemma digest32_bytes x : is_bytes 32 (digest32 x).
Proof.
  split; [done|]. unfold digest32. apply Forall_app. split.
  - apply Forall_replicate. done.
  - apply Forall_singleton. unfold is_u8, u8_max. div_lia.
Qed.

Definition faulty_store : Faulty (T := Demo.table) :=
  (Demo.store0, [no_faults; no_faults; mkTxnFaults false false false true false]).

Definition pair : text * text := (chars_of "a", chars_of "k").

(** A failed write, a withheld frontier and another module's commit. *)
Definition ops : list CursorOp :=
  [OpCommit pair.1 pair.2 10 false; OpFrontier pair.1 pair.2 20;
   OpHold pair.1 pair.2; OpFrontier pair.1 pair.2 30;
   OpCommit (chars_of "bb") pair.2 7 false; OpCommit pair.1 pair.2 15 true].
End CursorDemo.

Lemma cursor_keys_distinct_witness :
  1 = 1 /\ Some CursorDemo.addr = Some CursorDemo.addr /\ @None (list Z) = None.
Proof.
  apply (cursor_keys_distinct CursorDemo.digest32 CursorDemo.hex0x CursorDemo.hex0x
    CursorDemo.hex0x (CursorDemo.hex0x_ok 20) (CursorDemo.hex0x_ok 32) (CursorDemo.hex0x_ok 32)
    CursorDemo.digest32_bytes).
  1-2: split; vm_compute; discriminate.
  1-2: split; [reflexivity | repeat constructor; vm_compute; discriminate].
  1-2: constructor.
  1-2: reflexivity.
Defined.

Lemma cursors_refine_cells_witness :
  let run := @run_ops _ (local_state_store Demo.digest) in
  let dur := @durable _ (local_state_store Demo.digest) in
  let out := run (CursorDemo.faulty_store, ChainLogCursors_default) CursorDemo.ops in
  let ms := moves CursorDemo.pair false CursorDemo.ops in
  exists i n,
    (i = dur CursorDemo.faulty_store CursorDemo.pair \/ i = None) /\ (n <= length ms)%nat /\
    tracked out.2 CursorDemo.pair.1 CursorDemo.pair.2
      = (match ms with [] => None | _ => fold_left merge ms i end) /\
    (dur out.1 CursorDemo.pair = dur CursorDemo.faulty_store CursorDemo.pair \/
     ((0 < n)%nat /\ dur out.1 CursorDemo.pair = fold_left merge (take n ms) i)).
Proof.
  apply (@cursors_refine_cells _ (local_state_store Demo.digest)
           (local_store_laws Demo.digest (fun _ => eq_refl))).
  - repeat constructor; try (vm_compute; discriminate); intros E; try reflexivity;
      vm_compute in E; discriminate E.
  - intros w E. vm_compute in E. discriminate E.
Defined.

(** A hold withholds frontiers only: a log accepted after the failed one moves
    the durable cursor past it, and a restart does not replay it. *)
Example hold_does_not_pin_the_cursor :
  let out := @run_ops _ (local_state_store Demo.digest) ((Demo.store0, []), ChainLogCursors_default)
    [OpCommit CursorDemo.pair.1 CursorDemo.pair.2 10 false;
     OpHold CursorDemo.pair.1 CursorDemo.pair.2;
     OpFrontier CursorDemo.pair.1 CursorDemo.pair.2 11;
     OpCommit CursorDemo.pair.1 CursorDemo.pair.2 12 false] in
  @durable _ (local_state_store Demo.digest) out.1 CursorDemo.pair = Some 12.
Proof. vm_compute. reflexivity. Qed.
