(* ===== verification/Dispatch.v ===== *)
(** * Dispatch: the supervisor and its trigger dispatch

    Models [crates/nexum-runtime-supervisor/src/supervisor/]: [dispatch.rs] in
    full, the restart sweep of [lifecycle.rs], the delivery measures of
    [delivery.rs], the readiness surface of [health.rs] and the [Supervisor] of
    [mod.rs].

    What the supervisor does not compute is a class: the clocks, the stop
    signal, the guest calls with their deadline, fuel and re-instantiation
    ([World]), the rate limiter ([RateLimiter]) and the state store
    ([StoreApi.StateStore]).  Metrics, panic records and guest entries are
    appended to a trace. *)

From stdpp Require Import prelude list gmap strings.
From Stdlib Require Import ZArith Lia.
From S2P Require Import Prelude RestartPolicy Lifecycle StoreApi Cursors Cron.

(** ** Data *)

(** A trigger a manifest declares. *)
Inductive Trigger : Type :=
| TBlock (chain_id : Z)
| TEvent (chain_id : Z) (address event_signature : option (list Z)) (resume : bool)
    (max_lookback start_block : option Z)
| TExtension (extension_kind : text) (filters : list (text * text))
| TSchedule (cron : CronSchedule).

(** A chain log as the RPC reports it. *)
Record Log : Type := mkLog {
  log_address : list Z;
  log_topics : list (list Z);
  log_data : list Z;
  log_block_hash : option (list Z);
  log_block_number : option Z;
  log_block_timestamp : option Z;
  log_transaction_hash : option (list Z);
  log_transaction_index : option Z;
  log_index : option Z;
  log_removed : bool
}.

Record Block : Type := mkBlock {
  block_chain_id : Z;
  block_number : Z;
  block_hash : list Z;
  block_timestamp : Z
}.

(** A trigger as it reaches a guest; the log's chain comes from its batch. *)
Inductive GuestTrigger : Type :=
| GBlock (b : Block)
| GEvent (chain_id : Z) (l : Log)
| GSchedule (fired_at : Z)
| GExtension (payload : list Z).

Record ExtensionDelivery : Type := mkExtensionDelivery {
  extension_kind : text;
  attrs : list (text * text);
  ext_payload : list Z
}.

Inductive DispatchOutcome : Type :=
| DOk | DFault | DTrapped | DDeadline | DFuelSetFailed | DRateLimited.

#[export] Instance DispatchOutcome_eq_dec : EqDecision DispatchOutcome.
Proof. solve_decision. Defined.

(** The outcome of a guest call under its deadline. *)
Inductive CallResult : Type :=
| CallOk
| CallFault (kind : text)
| CallTrap
| CallDeadline.

Inductive DropReason : Type := Shutdown | Outcome (o : DispatchOutcome).

Inductive ErrorKind : Type := FaultKind (kind : text) | OutcomeKind (o : DispatchOutcome).

(** What an execution leaves behind: metric samples, panic records, and the
    entries into guest code ([EvCall], [EvRevive], by module index). *)
Inductive Ev : Type :=
| EvDropped (module kind : text) (reason : DropReason)
| EvDelivery (module kind : text) (latency : Z)
| EvBlockAge (module kind : text) (chain_id : Z) (age : Z)
| EvCall (idx : nat) (trigger : GuestTrigger)
| EvError (module : text) (kind : ErrorKind)
| EvPanic (module : text) (run_seq : Z)
| EvPoisoned (module : text)
| EvLatency (module kind : text) (outcome : DispatchOutcome) (elapsed : Z)
| EvFuel (module : text) (consumed : Z)
| EvMemory (module : text) (bytes : Z)
| EvRestart (module : text)
| EvRevive (idx : nat)
| EvDelivered (chain_id : Z) (block : Z)
| EvState (module : text) (state : ModuleState) (on : bool).

(** ** Interfaces *)

Class RateLimiter (B : Type) : Type := {
  try_acquire : B -> Z -> bool * B
}.

Class World (W : Type) : Type := {
  (** [Instant::now]. *)
  w_now : W -> Z * W;
  (** The effective wall clock, since the Unix epoch. *)
  w_wall : W -> Z * W;
  (** [Shutdown::is_fired]. *)
  w_stop : W -> bool * W;
  (** [store.set_fuel]. *)
  w_set_fuel : W -> text -> Z -> bool * W;
  (** [call_on_trigger] of a module under a deadline. *)
  w_call : W -> text -> Z -> GuestTrigger -> CallResult * W;
  (** [store.get_fuel] and the memory the store holds, after a call. *)
  w_fuel_left : W -> text -> option Z;
  w_memory : W -> text -> Z;
  (** The nonce of the process the backoff jitter is seeded with. *)
  w_nonce : W -> Z;
  (** Linker, fresh store, instantiation and [init] of a restart. *)
  w_revive : W -> text -> bool * W
}.

Section Supervisor.
Context {B W S : Type} `{RateLimiter B} `{World W} `{StateStore S}.

Record LoadedModule : Type := mkLoadedModule {
  m_name : text;
  m_triggers : list Trigger;
  m_health : Health;
  m_bucket : B;
  m_run_seq : Z;
  m_fuel : Z;
  m_deadline : Z;
  m_verified : bool
}.

Definition with_health (m : LoadedModule) (h : Health) : LoadedModule :=
  mkLoadedModule m.(m_name) m.(m_triggers) h m.(m_bucket) m.(m_run_seq) m.(m_fuel)
    m.(m_deadline) m.(m_verified).

Definition with_bucket (m : LoadedModule) (b : B) : LoadedModule :=
  mkLoadedModule m.(m_name) m.(m_triggers) m.(m_health) b m.(m_run_seq) m.(m_fuel)
    m.(m_deadline) m.(m_verified).

Definition with_run (m : LoadedModule) (seq : Z) : LoadedModule :=
  mkLoadedModule m.(m_name) m.(m_triggers) m.(m_health) m.(m_bucket) seq m.(m_fuel)
    m.(m_deadline) m.(m_verified).

(** [stop] and [health] are bound after boot, if at all; the snapshot is what
    the probe's read side holds. *)
Record Supervisor : Type := mkSupervisor {
  modules : list LoadedModule;
  policy : PoisonPolicy;
  chain_log_cursors : ChainLogCursors;
  delivered_frontier : gmap Z Z;
  stop : bool;
  health : option (list (text * ModuleState));
  store : S;
  world : W;
  trace : list Ev
}.

(** ** The supervisor's state monad *)

Definition M (A : Type) : Type := Supervisor -> A * Supervisor.

#[export] Instance M_ret : MRet M := fun A a s => (a, s).
#[export] Instance M_bind : MBind M := fun A C f m s => let (a, s') := m s in f a s'.

Definition modify (f : Supervisor -> Supervisor) : M unit := fun s => (tt, f s).
Definition gets {A} (f : Supervisor -> A) : M A := fun s => (f s, s).

Definition set_modules (ms : list LoadedModule) (s : Supervisor) : Supervisor :=
  mkSupervisor ms s.(policy) s.(chain_log_cursors) s.(delivered_frontier) s.(stop) s.(health)
    s.(store) s.(world) s.(trace).

Definition set_world (w : W) (s : Supervisor) : Supervisor :=
  mkSupervisor s.(modules) s.(policy) s.(chain_log_cursors) s.(delivered_frontier) s.(stop)
    s.(health) s.(store) w s.(trace).

Definition set_cursors (st : S) (c : ChainLogCursors) (s : Supervisor) : Supervisor :=
  mkSupervisor s.(modules) s.(policy) c s.(delivered_frontier) s.(stop) s.(health) st s.(world)
    s.(trace).

Definition set_frontier (f : gmap Z Z) (s : Supervisor) : Supervisor :=
  mkSupervisor s.(modules) s.(policy) s.(chain_log_cursors) f s.(stop) s.(health) s.(store)
    s.(world) s.(trace).

Definition set_health (h : option (list (text * ModuleState))) (s : Supervisor) : Supervisor :=
  mkSupervisor s.(modules) s.(policy) s.(chain_log_cursors) s.(delivered_frontier) s.(stop) h
    s.(store) s.(world) s.(trace).

Definition emit (e : Ev) : M unit :=
  modify (fun s =>
    mkSupervisor s.(modules) s.(policy) s.(chain_log_cursors) s.(delivered_frontier) s.(stop)
      s.(health) s.(store) s.(world) (s.(trace) ++ [e])).

(** A step of the world. *)
Definition ask {A} (f : W -> A * W) : M A :=
  fun s => let (a, w) := f s.(world) in (a, set_world w s).

Definition put_module (idx : nat) (m : LoadedModule) : M unit :=
  modify (fun s => set_modules (<[idx:=m]> s.(modules)) s).

Definition now : M Z := ask w_now.

Definition stop_requested : M bool :=
  bound ← gets stop;
  if bound : bool then ask w_stop else mret false.

(** ** Delivery measures *)

Record Arrival : Type := mkArrival {
  arr_trigger : GuestTrigger;
  arr_received : Z;
  arr_block_time : option Z
}.

Definition arrival_new (trigger : GuestTrigger) (received : Z) : Arrival :=
  mkArrival trigger received
    match trigger with
    | GBlock b => Some (duration_from_millis b.(block_timestamp))
    | GEvent _ l => duration_from_secs <$> l.(log_block_timestamp)
    | GSchedule _ | GExtension _ => None
    end.

Definition block_age (wall_now block_time : Z) : Z := sat_sub wall_now block_time.

Definition observe (a : Arrival) (module : text) (chain_id : Z) (kind : text) (start : Z) : M unit :=
  emit (EvDelivery module kind (duration_since start a.(arr_received)));;
  match a.(arr_block_time) with
  | None => mret tt
  | Some block_time =>
      wall_now ← ask w_wall;
      emit (EvBlockAge module kind chain_id (block_age wall_now block_time))
  end.

(** ** Restarts *)

Definition revive_one (idx : nat) (now : Z) : M unit :=
  item ← gets (fun s => s.(modules) !! idx);
  match item with
  | None => mret tt
  | Some m =>
      emit (EvRestart m.(m_name));;
      emit (EvRevive idx);;
      ok ← ask (fun w => w_revive w m.(m_name));
      if ok : bool
      then put_module idx (with_health (with_run m (m.(m_run_seq) + 1)) (restart_succeeded m.(m_health)))
      else
        nonce ← gets (fun s => w_nonce s.(world));
        put_module idx
          (with_health m (defer_restart m.(m_health) now (jitter_seed nonce m.(m_name))).2)
  end.

(** [sweep], over the modules from [idx] on: [n] of them are left. *)
Fixpoint sweep_from (n idx : nat) (now : Z) : M unit :=
  match n with
  | O => mret tt
  | Datatypes.S n =>
      fired ← stop_requested;
      if fired : bool then mret tt
      else
        due ← gets (fun s =>
                match s.(modules) !! idx with
                | Some m => due_restart m.(m_health) now
                | None => false
                end);
        (if due : bool then revive_one idx now else mret tt);;
        sweep_from n (Datatypes.S idx) now
  end.

Definition sweep (now : Z) : M unit :=
  n ← gets (fun s => length s.(modules));
  sweep_from n 0 now.

(** ** One dispatch *)

Definition refuel (m : LoadedModule) (kind : text) : M bool :=
  ok ← ask (fun w => w_set_fuel w m.(m_name) m.(m_fuel));
  (if ok : bool then mret tt
   else emit (EvDropped m.(m_name) kind (Outcome DFuelSetFailed)));;
  mret ok.

Definition record_resource_use (m : LoadedModule) : M unit :=
  left ← gets (fun s => w_fuel_left s.(world) m.(m_name));
  (match left with
   | Some remaining => emit (EvFuel m.(m_name) (sat_sub m.(m_fuel) remaining))
   | None => mret tt
   end);;
  bytes ← gets (fun s => w_memory s.(world) m.(m_name));
  emit (EvMemory m.(m_name) bytes).

(** What the call's result does to the module: the health it leaves, and the
    outcome with its metrics. *)
Definition settle (idx : nat) (m : LoadedModule) (start elapsed : Z) (result : CallResult)
    : M DispatchOutcome :=
  match result with
  | CallOk =>
      put_module idx (with_health m (dispatch_succeeded m.(m_health)));;
      mret DOk
  | CallFault kind =>
      emit (EvError m.(m_name) (FaultKind kind));;
      mret DFault
  | CallTrap | CallDeadline =>
      p ← gets policy;
      nonce ← gets (fun s => w_nonce s.(world));
      let died_at := start + elapsed in
      let (verdict, h) := record_trap m.(m_health) died_at p (jitter_seed nonce m.(m_name)) in
      let outcome := match result with CallDeadline => DDeadline | _ => DTrapped end in
      put_module idx (with_health m h);;
      emit (EvError m.(m_name) (OutcomeKind outcome));;
      emit (EvPanic m.(m_name) m.(m_run_seq));;
      (match verdict.(verdict_poisoned) with
       | Some _ => emit (EvPoisoned m.(m_name))
       | None => mret tt
       end);;
      mret outcome
  end.

(** [None] is the panic of an index out of range. *)
Definition dispatch_to (idx : nat) (chain_id : Z) (kind : text) (arrival : Arrival) (at_ : Z)
    : M (option DispatchOutcome) :=
  item ← gets (fun s => s.(modules) !! idx);
  match item with
  | None => mret None
  | Some m =>
      let (admitted, bucket) := try_acquire m.(m_bucket) at_ in
      let m := with_bucket m bucket in
      put_module idx m;;
      if negb admitted then
        emit (EvDropped m.(m_name) kind (Outcome DRateLimited));;
        mret (Some DRateLimited)
      else
        fuelled ← refuel m kind;
        if negb fuelled then mret (Some DFuelSetFailed)
        else
          start ← now;
          observe arrival m.(m_name) chain_id kind start;;
          emit (EvCall idx arrival.(arr_trigger));;
          result ← ask (fun w => w_call w m.(m_name) m.(m_deadline) arrival.(arr_trigger));
          ended ← now;
          let elapsed := duration_since ended start in
          outcome ← settle idx m start elapsed result;
          emit (EvLatency m.(m_name) kind outcome elapsed);;
          record_resource_use m;;
          mret (Some outcome)
  end.

(** ** Fan-out *)

Definition name_at (s : Supervisor) (idx : nat) : text :=
  default [] (m_name <$> s.(modules) !! idx).

Fixpoint drop_all (kind : text) (idxs : list nat) : M unit :=
  match idxs with
  | [] => mret tt
  | idx :: idxs =>
      name ← gets (fun s => name_at s idx);
      emit (EvDropped name kind Shutdown);;
      drop_all kind idxs
  end.

(** The [for (position, idx) in candidate_indices] loop. *)
Fixpoint fan_out (chain_id : Z) (kind : text) (arrival : Arrival) (at_ : Z)
    (candidates : list nat) (dispatched : Z) : M Z :=
  match candidates with
  | [] => mret dispatched
  | idx :: rest =>
      fired ← stop_requested;
      if fired : bool then
        drop_all kind candidates;;
        mret dispatched
      else
        outcome ← dispatch_to idx chain_id kind arrival at_;
        fan_out chain_id kind arrival at_ rest
          (if bool_decide (outcome = Some DOk) then dispatched + 1 else dispatched)
  end.

Definition candidates (wants : Trigger -> bool) (s : Supervisor) : list nat :=
  List.filter
    (fun i => match s.(modules) !! i with
              | Some m => dispatchable m.(m_health) && existsb wants m.(m_triggers)
              | None => false
              end)
    (seq 0 (length s.(modules))).

Definition record_delivered_height (chain_id block : Z) : M unit :=
  frontier ← gets delivered_frontier;
  if match frontier !! chain_id with None => true | Some f => f <? block end
  then modify (set_frontier (<[chain_id := block]> frontier));; emit (EvDelivered chain_id block)
  else mret tt.

Definition wants_block (chain : Z) (t : Trigger) : bool :=
  match t with TBlock cid => chain =? cid | _ => false end.

Definition dispatch_block_received (block : Block) (received : Z) : M Z :=
  let chain_id := block.(block_chain_id) in
  let arrival := arrival_new (GBlock block) received in
  at_ ← now;
  sweep at_;;
  candidate_indices ← gets (candidates (wants_block chain_id));
  dispatched ← fan_out chain_id (chars_of "block") arrival at_ candidate_indices 0;
  (if 0 <? dispatched then record_delivered_height chain_id block.(block_number) else mret tt);;
  mret dispatched.

Definition wants_extension (d : ExtensionDelivery) (t : Trigger) : bool :=
  match t with
  | TExtension kind filters =>
      bool_decide (kind = d.(extension_kind))
      && forallb (fun f : text * text => existsb (fun a : text * text => bool_decide (a = f)) d.(attrs)) filters
  | _ => false
  end.

Definition dispatch_extension_trigger_received (d : ExtensionDelivery) (received : Z) : M Z :=
  let arrival := arrival_new (GExtension d.(ext_payload)) received in
  at_ ← now;
  sweep at_;;
  candidate_indices ← gets (candidates (wants_extension d));
  fan_out 0 d.(extension_kind) arrival at_ candidate_indices 0.

(** ** Single-module triggers *)

Definition position (name : text) (s : Supervisor) : option nat :=
  fst <$> list_find (fun m => m_name m = name) s.(modules).

(** The admission of an event or a tick: the module is found, not poisoned, and
    alive after at most one restart; [None] when the trigger is skipped. *)
Definition admit_one (kind name : text) (at_ : Z) : M (option nat) :=
  fired ← stop_requested;
  if fired : bool then
    emit (EvDropped name kind Shutdown);;
    mret None
  else
    found ← gets (position name);
    match found with
    | None => mret None
    | Some idx =>
        h ← gets (fun s => m_health <$> s.(modules) !! idx);
        if match h with Some h => is_poisoned h | None => true end then mret None
        else
          (if match h with Some h => due_restart h at_ | None => false end
           then revive_one idx at_ else mret tt);;
          fired ← stop_requested;
          h ← gets (fun s => m_health <$> s.(modules) !! idx);
          if fired || negb match h with Some h => dispatchable h | None => false end
          then mret None
          else mret (Some idx)
    end.

Definition commit_cursor (name key : text) (block : Z) (removed : bool) : M unit :=
  modify (fun s =>
    let (st, c) := commit_chain_log_cursor s.(store) s.(chain_log_cursors) name key block removed in
    set_cursors st c s).

Definition dispatch_event_inner (name : text) (chain : Z) (l : Log) (cursor_key : option text)
    (received : Z) : M bool :=
  at_ ← now;
  admitted ← admit_one (chars_of "event") name at_;
  match admitted with
  | None => mret false
  | Some idx =>
      let arrival := arrival_new (GEvent chain l) received in
      outcome ← dispatch_to idx chain (chars_of "event") arrival at_;
      let ok := bool_decide (outcome = Some DOk) in
      (match l.(log_block_number) with
       | Some block => if ok then record_delivered_height chain block else mret tt
       | None => mret tt
       end);;
      (match cursor_key, l.(log_block_number) with
       | Some key, Some block => if ok then commit_cursor name key block l.(log_removed) else mret tt
       | _, _ => mret tt
       end);;
      mret ok
  end.

Definition dispatch_event_received (name : text) (chain : Z) (l : Log) (cursor_key : option text)
    (received : Z) : M bool :=
  ok ← dispatch_event_inner name chain l cursor_key received;
  (match cursor_key with
   | Some key =>
       if ok : bool then mret tt
       else modify (fun s => set_cursors s.(store) (hold s.(chain_log_cursors) name key) s)
   | None => mret tt
   end);;
  mret ok.

Definition commit_frontier (name key : text) (frontier : Z) : M unit :=
  modify (fun s =>
    let (st, c) := commit_chain_log_frontier s.(store) s.(chain_log_cursors) name key frontier in
    set_cursors st c s).

Definition dispatch_schedule_received (name : text) (fired_at received : Z) : M bool :=
  at_ ← now;
  admitted ← admit_one (chars_of "schedule") name at_;
  match admitted with
  | None => mret false
  | Some idx =>
      let arrival := arrival_new (GSchedule fired_at) received in
      outcome ← dispatch_to idx 0 (chars_of "schedule") arrival at_;
      mret (bool_decide (outcome = Some DOk))
  end.

Definition poison_source (name : text) : M unit :=
  found ← gets (fun s => list_find (fun m => m_name m = name) s.(modules));
  match found with
  | None => mret tt
  | Some (idx, m) =>
      if is_poisoned m.(m_health) then mret tt
      else
        put_module idx (with_health m (poison m.(m_health)));;
        emit (EvPoisoned m.(m_name))
  end.

(** ** Readiness *)

Definition module_states : list ModuleState := [MAlive; MBackoff; MDead; MPoisoned].

Definition ready (snapshot : list (text * ModuleState)) : bool :=
  existsb (fun e => bool_decide (e.2 = MAlive)) snapshot.

Fixpoint emit_all (es : list Ev) : M unit :=
  match es with
  | [] => mret tt
  | e :: es => emit e;; emit_all es
  end.

Definition report_states (snapshot : list (text * ModuleState)) : M unit :=
  emit_all
    (flat_map
       (fun e => (fun candidate => EvState e.1 candidate (bool_decide (candidate = e.2)))
                   <$> module_states)
       snapshot).

Definition publish (next : list (text * ModuleState)) : M unit :=
  current ← gets health;
  if bool_decide (current = Some next) then mret tt
  else modify (set_health (Some next));; report_states next.

Definition publish_health : M unit :=
  bound ← gets health;
  match bound with
  | None => mret tt
  | Some _ =>
      next ← gets (fun s => (fun m => (m.(m_name), state m.(m_health))) <$> s.(modules));
      publish next
  end.

Definition alive_count (s : Supervisor) : nat :=
  length (List.filter (fun m => dispatchable m.(m_health)) s.(modules)).

Definition poisoned_count (s : Supervisor) : nat :=
  length (List.filter (fun m => is_poisoned m.(m_health)) s.(modules)).
End Supervisor.

Arguments LoadedModule B : clear implicits.
Arguments Supervisor B W S : clear implicits.
