(* ===== verification/DispatchFacts.v ===== *)
(** * DispatchFacts: what the supervisor guarantees

    The theorems about [Dispatch]: every operation drives each module's health
    only along the lifecycle of [Lifecycle]; quarantined modules are never
    entered; every candidate of a fan-out is accounted for; cursors move only
    on accepted logs; the delivered frontier only advances; the published
    snapshot is the modules' state. *)

From stdpp Require Import prelude list gmap strings relations sorting.
From Stdlib Require Import ZArith Lia.
From S2P Require Import Prelude RestartPolicy Lifecycle StoreApi Cursors Cron Dispatch.

(** ** Laws of the world

    The monotonic clock never goes back and a fired stop stays fired. *)

Inductive world_step {W} `{World W} (w : W) : W -> Prop :=
| ws_now w' t : w_now w = (t, w') -> world_step w w'
| ws_wall w' t : w_wall w = (t, w') -> world_step w w'
| ws_stop w' b : w_stop w = (b, w') -> world_step w w'
| ws_fuel w' b name fuel : w_set_fuel w name fuel = (b, w') -> world_step w w'
| ws_call w' r name d t : w_call w name d t = (r, w') -> world_step w w'
| ws_revive w' b name : w_revive w name = (b, w') -> world_step w w'.

Class WorldLaws (W : Type) `{World W} : Type := {
  clock : W -> Z;
  fired : W -> bool;
  step_clock w w' : world_step w w' -> clock w <= clock w';
  step_fired w w' : world_step w w' -> fired w = true -> fired w' = true;
  now_reads w t w' : w_now w = (t, w') -> t = clock w';
  stop_reads w b w' : w_stop w = (b, w') -> b = fired w'
}.

Section Facts.
Context {B W S : Type} `{RateLimiter B} `{WorldLaws W} `{StateStoreLaws S}.

Abbreviation Sup := (Supervisor B W S).
Abbreviation Mod := (LoadedModule B).

Definition world_le (w w' : W) : Prop :=
  clock w <= clock w' /\ (fired w = true -> fired w' = true).

#[local] Instance world_le_preorder : PreOrder world_le.
Proof. split; [by split|]. intros w1 w2 w3 [? ?] [? ?]. split; [lia | auto]. Qed.

Lemma world_step_le w w' : world_step w w' -> world_le w w'.
Proof. split; [by apply step_clock | by apply step_fired]. Qed.

(** The supervisor after activity that touched modules, world and trace only. *)
Definition upd (s : Sup) (ms : list Mod) (w : W) (evs : list Ev) : Sup :=
  mkSupervisor ms s.(policy) s.(chain_log_cursors) s.(delivered_frontier) s.(stop) s.(health)
    s.(store) w (s.(trace) ++ evs).

Lemma upd_upd s ms w evs ms' w' evs' :
  upd (upd s ms w evs) ms' w' evs' = upd s ms' w' (evs ++ evs').
Proof. unfold upd. cbn. by rewrite app_assoc. Qed.

Lemma upd_id s : upd s s.(modules) s.(world) [] = s.
Proof. unfold upd. rewrite app_nil_r. by destruct s. Qed.

(** ** Primitives *)

Lemma bind_eq {A C} (m : M A) (f : A -> M C) (s : Sup) a s' :
  m s = (a, s') -> (m ≫= f) s = f a s'.
Proof. unfold mbind, M_bind. by intros ->. Qed.

Lemma emit_eq e (s : Sup) : emit e s = (tt, upd s s.(modules) s.(world) [e]).
Proof. done. Qed.

Lemma put_module_eq idx m (s : Sup) :
  put_module idx m s = (tt, upd s (<[idx:=m]> s.(modules)) s.(world) []).
Proof. unfold put_module, modify, set_modules, upd. by rewrite app_nil_r. Qed.

Lemma ask_eq {A} (f : W -> A * W) (s : Sup) a w :
  f s.(world) = (a, w) -> ask f s = (a, upd s s.(modules) w []).
Proof. unfold ask, set_world, upd. intros ->. by rewrite app_nil_r. Qed.

Lemma stop_requested_spec (s : Sup) :
  exists b w, stop_requested s = (b, upd s s.(modules) w []) /\ world_le s.(world) w /\
    b = (s.(stop) && fired w).
Proof.
  unfold stop_requested. rewrite (bind_eq _ _ s (stop s) s) by done. destruct (stop s) eqn:E.
  - destruct (w_stop (world s)) as [b w] eqn:Ew. exists b, w.
    rewrite (ask_eq _ s b w Ew). split; [done|]. split; [by eapply world_step_le, ws_stop|].
    by eapply stop_reads.
  - exists false, (world s). by rewrite upd_id.
Qed.

(** ** Restarts *)

(** A module differs from an earlier self in what a run may change. *)
Definition same_module (m m' : Mod) : Prop :=
  m'.(m_name) = m.(m_name) /\ m'.(m_triggers) = m.(m_triggers) /\ m'.(m_fuel) = m.(m_fuel) /\
  m'.(m_deadline) = m.(m_deadline) /\ m'.(m_verified) = m.(m_verified).

#[local] Instance same_module_preorder : PreOrder same_module.
Proof.
  split; [done|]. intros m1 m2 m3 (? & ? & ? & ? & ?) (? & ? & ? & ? & ?).
  repeat split; congruence.
Qed.

Lemma revive_one_spec idx at_ (s : Sup) m :
  s.(modules) !! idx = Some m ->
  exists m' w',
    revive_one idx at_ s = (tt, upd s (<[idx:=m']> s.(modules)) w' [EvRestart m.(m_name); EvRevive idx]) /\
    world_le s.(world) w' /\ same_module m m' /\
    (m'.(m_health) = restart_succeeded m.(m_health) \/
     exists seed, m'.(m_health) = (defer_restart m.(m_health) at_ seed).2).
Proof.
  intros Hm. unfold revive_one. rewrite (bind_eq _ _ s (Some m) s) by (unfold gets; by rewrite Hm).
  do 2 (erewrite bind_eq by apply emit_eq).
  destruct (w_revive (world s) (m_name m)) as [ok w] eqn:Ew.
  erewrite bind_eq by (by eapply ask_eq).
  assert (world_le (world s) w) by (by eapply world_step_le, ws_revive).
  destruct ok.
  - rewrite put_module_eq, !upd_upd. cbn. eexists _, w.
    split; [done|]. split; [done|]. split; [done|]. by left.
  - erewrite bind_eq by done. rewrite put_module_eq, !upd_upd. cbn.
    eexists _, w. split; [done|]. split; [done|]. split; [done|]. right. by eexists.
Qed.

(** ** One dispatch *)

(** Events that are neither guest entries, nor settlements of a dispatch, nor
    delivered heights. *)
Definition quiet (e : Ev) : bool :=
  match e with
  | EvCall _ _ | EvRevive _ | EvDropped _ _ _ | EvLatency _ _ _ _ | EvDelivered _ _ => false
  | _ => true
  end.

Definition entered_guest (o : DispatchOutcome) : bool :=
  match o with DRateLimited | DFuelSetFailed => false | _ => true end.

(** The events of one dispatch: a drop with its reason, or one guest call
    followed by one latency sample with its outcome. *)
Inductive dispatch_events (idx : nat) (name kind : text) (t : GuestTrigger)
    : DispatchOutcome -> list Ev -> Prop :=
| de_dropped o :
    entered_guest o = false ->
    dispatch_events idx name kind t o [EvDropped name kind (Outcome o)]
| de_called o elapsed q1 q2 q3 :
    entered_guest o = true ->
    Forall (fun e => quiet e = true) (q1 ++ q2 ++ q3) ->
    dispatch_events idx name kind t o
      (q1 ++ [EvCall idx t] ++ q2 ++ [EvLatency name kind o elapsed] ++ q3).

(** What the outcome says about the module's health afterwards. *)
Definition settled_health (p : PoisonPolicy) (lo hi : Z) (h : Health) (o : DispatchOutcome)
    (h' : Health) : Prop :=
  match o with
  | DOk => h' = dispatch_succeeded h
  | DFault | DRateLimited | DFuelSetFailed => h' = h
  | DTrapped | DDeadline =>
      exists died_at seed, lo <= died_at <= hi /\ h' = (record_trap h died_at p seed).2
  end.

Lemma observe_spec a name chain kind start (s : Sup) :
  exists w evs, observe a name chain kind start s = (tt, upd s s.(modules) w evs) /\
    world_le s.(world) w /\ Forall (fun e => quiet e = true) evs.
Proof.
  unfold observe. erewrite bind_eq by apply emit_eq. destruct (arr_block_time a) as [bt|].
  - destruct (w_wall (world s)) as [wall w] eqn:Ew. erewrite bind_eq by (by eapply ask_eq).
    rewrite emit_eq, !upd_upd. exists w. eexists. split; [reflexivity|].
    split; [by eapply world_step_le, ws_wall|]. by repeat constructor.
  - exists (world s). eexists. split; [reflexivity|]. split; [done|]. by repeat constructor.
Qed.

Lemma resource_use_spec m (s : Sup) :
  exists evs, record_resource_use m s = (tt, upd s s.(modules) s.(world) evs) /\
    Forall (fun e => quiet e = true) evs.
Proof.
  unfold record_resource_use. erewrite bind_eq by done.
  destruct (w_fuel_left (world s) (m_name m)) as [left|].
  - erewrite bind_eq by apply emit_eq. erewrite bind_eq by done. rewrite emit_eq, upd_upd.
    eexists. split; [reflexivity|]. by repeat constructor.
  - erewrite bind_eq by done. erewrite bind_eq by done. rewrite emit_eq.
    eexists. split; [reflexivity|]. by repeat constructor.
Qed.

Lemma settle_spec idx m start elapsed r (s : Sup) :
  s.(modules) !! idx = Some m ->
  exists o m' evs,
    settle idx m start elapsed r s = (o, upd s (<[idx:=m']> s.(modules)) s.(world) evs) /\
    entered_guest o = true /\ same_module m m' /\
    Forall (fun e => quiet e = true) evs /\
    settled_health s.(policy) (start + elapsed) (start + elapsed) m.(m_health) o m'.(m_health).
Proof.
  intros Hm. assert (<[idx:=m]> (modules s) = modules s) as Hid by (by apply list_insert_id).
  destruct r as [|kind| |]; unfold settle.
  { erewrite bind_eq by apply put_module_eq. eexists DOk, _, []. by repeat split. }
  { erewrite bind_eq by apply emit_eq. exists DFault, m. eexists. rewrite Hid.
    split; [reflexivity|]. repeat split; try done. by repeat constructor. }
  all: do 2 (erewrite bind_eq by done).
  all: destruct (record_trap _ _ _ _) as [v h] eqn:Et.
  all: erewrite bind_eq by apply put_module_eq.
  all: do 2 (erewrite bind_eq by apply emit_eq).
  all: eexists _, (with_health m h).
  all: destruct (verdict_poisoned v);
    [erewrite bind_eq by apply emit_eq | erewrite bind_eq by done].
  all: rewrite !upd_upd; eexists; split; [reflexivity|].
  all: split; [done|]; split; [done|]; split; [by repeat constructor|].
  all: exists (start + elapsed), (jitter_seed (w_nonce (world s)) (m_name m)).
  all: split; [lia|]; by rewrite Et.
Qed.

Lemma refuel_spec m kind (s : Sup) :
  exists ok w, refuel m kind s =
      (ok, upd s s.(modules) w
             (if ok : bool then [] else [EvDropped m.(m_name) kind (Outcome DFuelSetFailed)])) /\
    world_le s.(world) w.
Proof.
  unfold refuel. destruct (w_set_fuel (world s) (m_name m) (m_fuel m)) as [ok w] eqn:Ew.
  erewrite bind_eq by (by eapply ask_eq). exists ok, w.
  assert (world_le (world s) w) by (by eapply world_step_le, ws_fuel).
  destruct ok.
  - by erewrite bind_eq by done.
  - erewrite bind_eq by apply emit_eq. by rewrite upd_upd.
Qed.

Lemma now_spec (s : Sup) :
  exists w, now s = (clock w, upd s s.(modules) w []) /\ world_le s.(world) w.
Proof.
  unfold now. destruct (w_now (world s)) as [t w] eqn:Ew. exists w.
  rewrite (ask_eq _ s t w Ew), (now_reads _ _ _ Ew). split; [done|]. by eapply world_step_le, ws_now.
Qed.

Lemma settled_health_weaken p lo hi lo' hi' h o h' :
  lo' <= lo -> hi <= hi' -> settled_health p lo hi h o h' -> settled_health p lo' hi' h o h'.
Proof.
  intros ? ?. destruct o; cbn; try done; intros (d & seed & ? & ->); exists d, seed; split; done || lia.
Qed.

Lemma dispatch_to_spec idx chain kind arrival at_ (s : Sup) m :
  s.(modules) !! idx = Some m ->
  exists o m' w evs,
    dispatch_to idx chain kind arrival at_ s =
      (Some o, upd s (<[idx:=m']> s.(modules)) w evs) /\
    world_le s.(world) w /\ same_module m m' /\
    dispatch_events idx m.(m_name) kind arrival.(arr_trigger) o evs /\
    settled_health s.(policy) (clock s.(world)) (clock w) m.(m_health) o m'.(m_health).
Proof.
  intros Hm. assert (idx < length (modules s))%nat as Hlt by (by eapply lookup_lt_Some).
  unfold dispatch_to. rewrite (bind_eq _ _ s (Some m) s) by (unfold gets; by rewrite Hm).
  destruct (try_acquire (m_bucket m) at_) as [admitted bucket].
  erewrite bind_eq by apply put_module_eq. set (m1 := with_bucket m bucket).
  set (s1 := upd s (<[idx:=m1]> (modules s)) (world s) []).
  assert (modules s1 !! idx = Some m1) as Hm1 by (by apply list_lookup_insert_eq).
  destruct admitted; cbn [negb].
  2: { erewrite bind_eq by apply emit_eq. exists DRateLimited, m1, (world s). eexists.
       split; [unfold s1; by rewrite upd_upd|]. repeat split; try done. by constructor. }
  destruct (refuel_spec m1 kind s1) as (fuelled & w2 & E2 & Hw2).
  erewrite bind_eq by exact E2. destruct fuelled; cbn [negb].
  2: { exists DFuelSetFailed, m1, w2. eexists. split; [unfold s1; by rewrite upd_upd|].
       split; [done|]. split; [done|]. split; [by constructor|]. done. }
  set (s2 := upd s1 _ w2 []).
  destruct (now_spec s2) as (w3 & E3 & Hw3). erewrite bind_eq by exact E3. set (s3 := upd s2 _ w3 []).
  destruct (observe_spec arrival (m_name m1) chain kind (clock w3) s3) as (w4 & q1 & E4 & Hw4 & Hq1).
  erewrite bind_eq by exact E4. erewrite bind_eq by apply emit_eq. set (s4 := upd (upd s3 _ w4 q1) _ _ _).
  destruct (w_call (world s4) (m_name m1) (m_deadline m1) (arr_trigger arrival)) as [r w5] eqn:Ew5.
  erewrite bind_eq by (by eapply ask_eq). set (s5 := upd s4 _ w5 []).
  assert (world_le w4 w5) as Hw5 by (by eapply world_step_le, ws_call).
  destruct (now_spec s5) as (w6 & E6 & Hw6). erewrite bind_eq by exact E6. set (s6 := upd s5 _ w6 []).
  set (elapsed := duration_since (clock w6) (clock w3)).
  destruct (settle_spec idx m1 (clock w3) elapsed r s6 Hm1) as (o & m' & q2 & E7 & Ho & Hsame & Hq2 & Hh).
  erewrite bind_eq by exact E7. erewrite bind_eq by apply emit_eq.
  set (s7 := upd (upd s6 _ _ q2) _ _ _).
  destruct (resource_use_spec m1 s7) as (q3 & E8 & Hq3). erewrite bind_eq by exact E8.
  cbn in Hw3, Hw6.
  assert (world_le (world s) w6) as Hle.
  { do 4 (etrans; [eassumption|]). done. }
  exists o, m', w6, (q1 ++ [EvCall idx (arr_trigger arrival)] ++ q2
                        ++ [EvLatency (m_name m1) kind o elapsed] ++ q3).
  split; [|split; [done|split; [|split]]].
  - unfold s7, s6, s5, s4, s3, s2, s1. rewrite !upd_upd. cbn. rewrite list_insert_insert_eq.
    cbn. by rewrite <- ?app_assoc.
  - by etrans.
  - apply de_called; [done|]. by rewrite !Forall_app.
  - eapply settled_health_weaken; [| |exact Hh];
      destruct Hw2, Hw3, Hw4, Hw5, Hw6; cbn in *; unfold elapsed, duration_since, sat_sub; lia.
Qed.

(** ** Evolution of the supervisor *)

(** The module whose guest code an event enters. *)
Definition enters (e : Ev) : option nat :=
  match e with EvCall i _ | EvRevive i => Some i | _ => None end.

(** The heights a trace reports for a chain. *)
Definition heights (chain : Z) (evs : list Ev) : list Z :=
  omap (fun e => match e with
                 | EvDelivered c b => if decide (c = chain) then Some b else None
                 | _ => None
                 end) evs.

(** From one frontier to another through reported heights: each is a strict
    advance and the last one is the frontier. *)
Definition advances (o : option Z) (hs : list Z) (o' : option Z) : Prop :=
  StronglySorted Z.lt (option_list o ++ hs) /\ o' = last (option_list o ++ hs).

Definition is_height (e : Ev) : bool := match e with EvDelivered _ _ => true | _ => false end.

(** An event that enters no guest and reports no height. *)
Definition plain (e : Ev) : Prop := enters e = None /\ is_height e = false.

Lemma heights_none chain evs : Forall (fun e => is_height e = false) evs -> heights chain evs = [].
Proof. induction 1 as [|e evs He _ IH]; [done|]. cbn. by destruct e. Qed.

Lemma advances_refl o : advances o [] o.
Proof. destruct o as [z|]; split; cbn; by repeat constructor. Qed.

Lemma advances_trans o1 hs o2 hs' o3 :
  advances o1 hs o2 -> advances o2 hs' o3 -> advances o1 (hs ++ hs') o3.
Proof.
  intros [S1 ->] [S2 ->]. unfold advances. rewrite !app_assoc.
  set (l := option_list o1 ++ hs) in *.
  destruct (last l) as [z|] eqn:El; cbn in S2 |- *.
  2: { apply last_None in El. rewrite El in *. by split. }
  apply last_Some in El as [l' El]. rewrite El in S1 |- *. rewrite <- app_assoc. cbn.
  split; [|by rewrite last_app_cons]. apply StronglySorted_app.
  apply StronglySorted_app in S1 as (Hlt & S1 & _). split; [|done].
  intros x1 x2 Hx1 Hx2. assert (x1 < z) by (apply Hlt; set_solver).
  inversion S2 as [|? ? _ Hz]; subst. rewrite Forall_forall in Hz.
  apply elem_of_cons in Hx2 as [->|Hx2]; [done|]. specialize (Hz x2 Hx2). lia.
Qed.

Definition barred (h : Health) : bool :=
  match h.(lstate) with Dead | Poisoned => true | _ => false end.

(** [h] leads to [h'] along the lifecycle, with the traps inside the clock. *)
Definition leads (p : PoisonPolicy) (lo hi : Z) (h h' : Health) : Prop :=
  forall traps, Forall (fun t => t <= lo) traps ->
    exists traps', Forall (fun t => t <= hi) traps' /\
      rtc (health_step p) (traps, h) (traps', h').

Lemma leads_refl p lo hi h : lo <= hi -> leads p lo hi h h.
Proof.
  intros Hle traps Ht. exists traps. split; [|done].
  eapply Forall_impl; [exact Ht|]. cbn. lia.
Qed.

Lemma leads_trans p a b c h1 h2 h3 : leads p a b h1 h2 -> leads p b c h2 h3 -> leads p a c h1 h3.
Proof.
  intros H12 H23 traps Ht. destruct (H12 traps Ht) as (t2 & Ht2 & R12).
  destruct (H23 t2 Ht2) as (t3 & Ht3 & R23). exists t3. split; [done|]. by etrans.
Qed.

Lemma leads_barred p lo hi h h' : leads p lo hi h h' -> barred h = true -> barred h' = true.
Proof.
  intros Hl Hb. destruct (Hl [] (Forall_nil_2 _)) as (t & _ & R).
  apply health_steps_edge in R. unfold barred, state in *. cbn in R.
  destruct (lstate h), (lstate h'); cbn in *; intuition congruence.
Qed.

(** The steps of one dispatch and one restart are steps of the lifecycle. *)
Lemma settled_leads p lo hi h o h' :
  lo <= hi -> dispatchable h = true -> settled_health p lo hi h o h' -> leads p lo hi h h'.
Proof.
  intros Hle Hd. destruct o; cbn; try (intros ->; by apply leads_refl).
  1: { intros -> traps Ht. exists traps.
       split; [eapply Forall_impl; [exact Ht|]; cbn; lia|]. apply rtc_once. by constructor. }
  all: intros (died & seed & Hrange & ->) traps Ht; exists (traps ++ [died]).
  all: split; [apply Forall_app; split; [eapply Forall_impl; [exact Ht|]; cbn; lia|];
               apply Forall_singleton; lia|].
  all: apply rtc_once; constructor; [done|]; eapply Forall_impl; [exact Ht|]; cbn; lia.
Qed.

Lemma revived_leads p lo hi h at_ h' :
  lo <= hi -> due_restart h at_ = true ->
  h' = restart_succeeded h \/ (exists seed, h' = (defer_restart h at_ seed).2) ->
  leads p lo hi h h'.
Proof.
  intros Hle Hd Hor traps Ht. exists traps.
  split; [eapply Forall_impl; [exact Ht|]; cbn; lia|].
  destruct Hor as [->|[seed ->]]; apply rtc_once; by econstructor.
Qed.

Lemma poisoned_leads p lo hi h : lo <= hi -> leads p lo hi h (poison h).
Proof.
  intros Hle traps Ht. exists traps. split; [eapply Forall_impl; [exact Ht|]; cbn; lia|].
  apply rtc_once. constructor.
Qed.

(** What is bound after boot and stays so: the stop probe, the health probe. *)
Definition bindings (s : Sup) : bool * bool :=
  (s.(stop), match s.(health) with Some _ => true | None => false end).

Definition evolves (s s' : Sup) : Prop :=
  s'.(policy) = s.(policy) /\ bindings s' = bindings s /\ world_le s.(world) s'.(world) /\
  length s'.(modules) = length s.(modules) /\
  (forall i m, s.(modules) !! i = Some m ->
     exists m', s'.(modules) !! i = Some m' /\ same_module m m' /\
       leads s.(policy) (clock s.(world)) (clock s'.(world)) m.(m_health) m'.(m_health)) /\
  (exists new, s'.(trace) = s.(trace) ++ new /\
     (forall i e, e ∈ new -> enters e = Some i ->
       exists m, s.(modules) !! i = Some m /\ barred m.(m_health) = false) /\
     forall chain, advances (s.(delivered_frontier) !! chain) (heights chain new)
                     (s'.(delivered_frontier) !! chain)).

Lemma evolves_frame (s s' : Sup) :
  s'.(delivered_frontier) = s.(delivered_frontier) -> s'.(policy) = s.(policy) -> bindings s' = bindings s -> s'.(world) = s.(world) ->
  s'.(modules) = s.(modules) -> s'.(trace) = s.(trace) -> evolves s s'.
Proof.
  intros Hf Hp Hst Hw Hm Ht. unfold evolves. rewrite Hf, Hp, Hst, Hw, Hm, Ht.
  do 4 (split; [done|]). split.
  - intros i m Hi. exists m. split; [done|]. split; [done|]. by apply leads_refl.
  - exists []. rewrite app_nil_r. split; [done|]. split; [set_solver|]. intros. apply advances_refl.
Qed.

Lemma evolves_refl (s : Sup) : evolves s s.
Proof. by apply evolves_frame. Qed.

Lemma evolves_trans (s1 s2 s3 : Sup) : evolves s1 s2 -> evolves s2 s3 -> evolves s1 s3.
Proof.
  intros (P1 & S1 & W1 & L1 & M1 & n1 & T1 & E1 & F1)
    (P2 & S2 & W2 & L2 & M2 & n2 & T2 & E2 & F2).
  split; [congruence|]. split; [congruence|]. split; [by etrans|]. split; [congruence|]. split.
  - intros i m Hi. destruct (M1 i m Hi) as (m2 & Hi2 & Hs2 & Hl2).
    destruct (M2 i m2 Hi2) as (m3 & Hi3 & Hs3 & Hl3). exists m3. split; [done|].
    split; [by etrans|]. rewrite P1 in Hl3. by eapply leads_trans.
  - exists (n1 ++ n2). split; [by rewrite T2, T1, app_assoc|].
    split; [|intros chain; unfold heights; rewrite omap_app; by eapply advances_trans].
    intros i e [Hin|Hin]%elem_of_app He.
    + by apply (E1 i e).
    + destruct (E2 i e Hin He) as (m2 & Hi2 & Hb2).
      assert (is_Some (modules s1 !! i)) as [m Hi].
      { apply lookup_lt_is_Some. rewrite <- L1. by eapply lookup_lt_Some. }
      exists m. split; [done|]. destruct (M1 i m Hi) as (m2' & Hi2' & _ & Hl).
      rewrite Hi2 in Hi2'. injection Hi2' as <-.
      destruct (barred (m_health m)) eqn:Hb; [|done]. by rewrite (leads_barred _ _ _ _ _ Hl Hb) in Hb2.
Qed.

(** Activity of the world that enters no guest. *)
Lemma evolves_world (s : Sup) w evs :
  world_le s.(world) w -> Forall plain evs -> evolves s (upd s s.(modules) w evs).
Proof.
  intros Hw Hq. do 2 (split; [done|]). split; [done|]. split; [done|]. split.
  - intros i m Hi. exists m. split; [done|]. split; [done|]. apply leads_refl. by destruct Hw.
  - exists evs. split; [done|]. split.
    + intros i e Hin He. rewrite Forall_forall in Hq. destruct (Hq e Hin). congruence.
    + intros chain. rewrite heights_none; [apply advances_refl|].
      eapply Forall_impl; [exact Hq|]. by intros e [_ ?].
Qed.

(** Activity of one module. *)
Lemma evolves_module (s : Sup) idx m m' w evs :
  s.(modules) !! idx = Some m -> world_le s.(world) w -> same_module m m' ->
  leads s.(policy) (clock s.(world)) (clock w) m.(m_health) m'.(m_health) ->
  Forall (fun e => plain e \/ (enters e = Some idx /\ barred m.(m_health) = false)) evs ->
  evolves s (upd s (<[idx:=m']> s.(modules)) w evs).
Proof.
  intros Hm Hw Hsame Hl Hev. do 3 (split; [done|]). split; [by apply length_insert|]. split.
  - intros i mi Hi. cbn. destruct (decide (i = idx)) as [->|Hne].
    + rewrite Hm in Hi. injection Hi as <-. exists m'.
      rewrite list_lookup_insert_eq by (by eapply lookup_lt_Some). done.
    + rewrite list_lookup_insert_ne by done. exists mi. split; [done|]. split; [done|].
      apply leads_refl. by destruct Hw.
  - exists evs. split; [done|]. split.
    + intros i e Hin He. rewrite Forall_forall in Hev.
      destruct (Hev e Hin) as [[? _]|[Hidx Hb]]; [congruence|].
      rewrite He in Hidx. injection Hidx as ->. by exists m.
    + intros chain. rewrite heights_none; [apply advances_refl|].
      eapply Forall_impl; [exact Hev|]. intros e [[_ ?]|[He _]]; [done|]. by destruct e.
Qed.

Lemma dispatchable_not_barred h : dispatchable h = true -> barred h = false.
Proof. unfold dispatchable, barred. by destruct (lstate h). Qed.

Lemma due_restart_not_barred h at_ : due_restart h at_ = true -> barred h = false.
Proof. unfold due_restart, barred. by destruct (lstate h). Qed.

Lemma revive_one_evolves idx at_ (s : Sup) m :
  s.(modules) !! idx = Some m -> due_restart m.(m_health) at_ = true ->
  evolves s (revive_one idx at_ s).2.
Proof.
  intros Hm Hd. destruct (revive_one_spec idx at_ s m Hm) as (m' & w & -> & Hw & Hsame & Hh). cbn.
  eapply evolves_module; [done..| |].
  - eapply revived_leads; [by destruct Hw | done | done].
  - apply Forall_cons. split; [by left|]. apply Forall_singleton. right.
    split; [done|]. by eapply due_restart_not_barred.
Qed.

Lemma dispatch_events_enter idx name kind t o evs (P : Prop) :
  dispatch_events idx name kind t o evs -> P ->
  Forall (fun e => plain e \/ (enters e = Some idx /\ P)) evs.
Proof.
  intros Hev HP. destruct Hev as [o Ho | o elapsed q1 q2 q3 Ho Hq].
  - apply Forall_singleton. by left.
  - rewrite !Forall_app in Hq. destruct Hq as (Hq1 & Hq2 & Hq3).
    assert (forall q, Forall (fun e => quiet e = true) q ->
              Forall (fun e => plain e \/ (enters e = Some idx /\ P)) q) as Hquiet.
    { intros q Hq. eapply Forall_impl; [exact Hq|]. intros e He. left. by destruct e. }
    rewrite !Forall_app. repeat split; auto; apply Forall_singleton; (by right) || (by left).
Qed.

Lemma dispatch_to_evolves idx chain kind arrival at_ (s : Sup) m :
  s.(modules) !! idx = Some m -> dispatchable m.(m_health) = true ->
  evolves s (dispatch_to idx chain kind arrival at_ s).2.
Proof.
  intros Hm Hd.
  destruct (dispatch_to_spec idx chain kind arrival at_ s m Hm)
    as (o & m' & w & evs & -> & Hw & Hsame & Hev & Hh). cbn.
  eapply evolves_module; [done..| |].
  - eapply settled_leads; [by destruct Hw | done | done].
  - eapply dispatch_events_enter; [done|]. by apply dispatchable_not_barred.
Qed.

Lemma stop_requested_evolves (s : Sup) : evolves s (stop_requested s).2.
Proof.
  destruct (stop_requested_spec s) as (b & w & -> & Hw & _). cbn. by apply evolves_world.
Qed.

Lemma sweep_from_evolves n idx at_ (s : Sup) : evolves s (sweep_from n idx at_ s).2.
Proof.
  revert idx s. induction n as [|n IH]; intros idx s; [apply evolves_refl|]. cbn [sweep_from].
  pose proof (stop_requested_evolves s) as Hst.
  destruct (stop_requested s) as [b s1] eqn:Es. erewrite bind_eq by exact Es. cbn in Hst.
  destruct b; [exact Hst|]. eapply evolves_trans; [exact Hst|].
  erewrite bind_eq by done.
  destruct (modules s1 !! idx) as [m|] eqn:Em.
  2: { erewrite bind_eq by done. apply IH. }
  destruct (due_restart (m_health m) at_) eqn:Ed.
  2: { erewrite bind_eq by done. apply IH. }
  pose proof (revive_one_evolves idx at_ s1 m Em Ed) as Hr.
  destruct (revive_one idx at_ s1) as [[] s2] eqn:Er. erewrite bind_eq by exact Er.
  eapply evolves_trans; [exact Hr|]. apply IH.
Qed.

Lemma sweep_evolves at_ (s : Sup) : evolves s (sweep at_ s).2.
Proof. unfold sweep. erewrite bind_eq by done. apply sweep_from_evolves. Qed.

(** ** Fan-out *)

Definition settles (e : Ev) : bool :=
  match e with EvDropped _ _ _ | EvLatency _ _ _ _ => true | _ => false end.

Definition is_call (e : Ev) : bool := match e with EvCall _ _ => true | _ => false end.
Definition is_latency (e : Ev) : bool := match e with EvLatency _ _ _ _ => true | _ => false end.
Definition accepted (e : Ev) : bool :=
  match e with EvLatency _ _ DOk _ => true | _ => false end.

Definition count (f : Ev -> bool) (evs : list Ev) : nat := length (List.filter f evs).

Lemma count_app f l l' : count f (l ++ l') = (count f l + count f l')%nat.
Proof. unfold count. by rewrite List.filter_app, length_app. Qed.

Lemma count_quiet f q :
  (forall e, quiet e = true -> f e = false) -> Forall (fun e => quiet e = true) q -> count f q = O.
Proof.
  intros Hf. induction 1 as [|e q He _ IH]; [done|]. unfold count in *. cbn. by rewrite Hf.
Qed.

(** [k] triggers settled, [n] of them accepted, one sample a guest entry. *)
Definition accounts (k n : nat) (evs : list Ev) : Prop :=
  count settles evs = k /\ count accepted evs = n /\ count is_call evs = count is_latency evs.

Lemma accounts_app k n k' n' l l' :
  accounts k n l -> accounts k' n' l' -> accounts (k + k') (n + n') (l ++ l').
Proof. intros (? & ? & ?) (? & ? & ?). unfold accounts. rewrite !count_app. lia. Qed.

Lemma dispatch_events_account idx name kind t o evs :
  dispatch_events idx name kind t o evs -> accounts 1 (if decide (o = DOk) then 1 else 0) evs.
Proof.
  intros Hev. destruct Hev as [o Ho | o elapsed q1 q2 q3 Ho Hq].
  - by destruct o.
  - rewrite !Forall_app in Hq. destruct Hq as (Hq1 & Hq2 & Hq3).
    assert (forall f, (forall e, quiet e = true -> f e = false) ->
              count f (q1 ++ [EvCall idx t] ++ q2 ++ [EvLatency name kind o elapsed] ++ q3) =
              count f [EvCall idx t; EvLatency name kind o elapsed]) as Hc.
    { intros f Hf. rewrite !count_app. rewrite (count_quiet f q1), (count_quiet f q2), (count_quiet f q3) by done.
      rewrite Nat.add_0_l, Nat.add_0_r, Nat.add_0_l. by rewrite <- count_app. }
    unfold accounts. rewrite !Hc by (by intros []). by destruct o.
Qed.

Lemma drop_all_spec kind idxs (s : Sup) :
  exists evs, drop_all kind idxs s = (tt, upd s s.(modules) s.(world) evs) /\
    Forall plain evs /\ accounts (length idxs) 0 evs.
Proof.
  revert s. induction idxs as [|idx idxs IH]; intros s.
  - exists []. by rewrite upd_id.
  - cbn [drop_all]. erewrite bind_eq by done. erewrite bind_eq by apply emit_eq.
    edestruct IH as (evs & -> & Hq & Ha). rewrite upd_upd. cbn. eexists. split; [reflexivity|].
    split; [by constructor|]. by apply (accounts_app 1 0 _ _ [_]).
Qed.

Lemma fan_out_spec chain kind arrival at_ cands :
  NoDup cands -> forall (s : Sup) d,
  (forall i, i ∈ cands ->
     exists m, s.(modules) !! i = Some m /\ dispatchable m.(m_health) = true) ->
  exists n s' evs,
    fan_out chain kind arrival at_ cands d s = (d + Z.of_nat n, s') /\
    evolves s s' /\ s'.(trace) = s.(trace) ++ evs /\ accounts (length cands) n evs /\
    (s'.(chain_log_cursors) = s.(chain_log_cursors) /\ s'.(store) = s.(store) /\
     s'.(delivered_frontier) = s.(delivered_frontier) /\ s'.(health) = s.(health)).
Proof.
  induction 1 as [|idx cands Hnot Hnd IH]; intros s d Hall.
  - exists O, s, []. cbn. rewrite Z.add_0_r, app_nil_r. by repeat split; try apply evolves_refl.
  - cbn [fan_out]. destruct (stop_requested_spec s) as (b & w & Es & Hw & _).
    erewrite bind_eq by exact Es. destruct b.
    + destruct (drop_all_spec kind (idx :: cands) (upd s (modules s) w [])) as (evs & Ed & Hq & Ha).
      erewrite bind_eq by exact Ed. rewrite upd_upd. cbn [app].
      exists O, (upd s (modules s) w evs), evs. cbn. rewrite Z.add_0_r.
      split; [done|]. split; [by apply evolves_world|]. done.
    + destruct (Hall idx (list_elem_of_here _ _)) as (m & Hm & Hd).
      set (s1 := upd s (modules s) w []).
      assert (modules s1 !! idx = Some m) as Hm1 by done.
      pose proof (dispatch_to_evolves idx chain kind arrival at_ s1 m Hm1 Hd) as Hev1.
      destruct (dispatch_to_spec idx chain kind arrival at_ s1 m Hm1)
        as (o & m' & w2 & evs & Edt & _ & _ & Hev & _).
      rewrite Edt in Hev1. erewrite bind_eq by exact Edt. cbn [snd] in Hev1.
      set (s2 := upd s1 _ w2 evs) in *.
      destruct (IH s2 (if bool_decide (Some o = Some DOk) then d + 1 else d))
        as (n & s' & evs' & Ef & Hev2 & Ht & Ha & Hfr).
      { intros i Hi. destruct (Hall i) as (mi & Hmi & Hdi); [by right|]. exists mi.
        split; [|done]. cbn. rewrite list_lookup_insert_ne; [done|]. by intros ->. }
      rewrite Ef. exists ((if decide (o = DOk) then 1 else 0) + n)%nat, s', (evs ++ evs').
      split; [|split; [|split; [|split]]].
      * f_equal. case_bool_decide; case_decide; try congruence; lia.
      * eapply evolves_trans; [by apply (evolves_world s w [])|]. by eapply evolves_trans.
      * rewrite Ht. cbn. by rewrite app_nil_r, <- app_assoc.
      * apply (accounts_app 1 _ (length cands)); [by eapply dispatch_events_account | done].
      * done.
Qed.

Lemma candidates_spec wants (s : Sup) :
  NoDup (candidates wants s) /\
  forall i, i ∈ candidates wants s ->
    exists m, s.(modules) !! i = Some m /\ dispatchable m.(m_health) = true /\
      existsb wants m.(m_triggers) = true.
Proof.
  unfold candidates. split.
  - apply NoDup_ListNoDup, List.NoDup_filter, NoDup_ListNoDup, NoDup_seq.
  - intros i. rewrite list_elem_of_In, List.filter_In. intros [_ Hi].
    destruct (modules s !! i) as [m|]; [|done]. apply andb_prop in Hi. by exists m.
Qed.

(** ** The supervisor's operations *)

Lemma now_evolves (s : Sup) : evolves s (now s).2.
Proof. destruct (now_spec s) as (w & -> & Hw). by apply evolves_world. Qed.

Lemma record_height_evolves chain block (s : Sup) : evolves s (record_delivered_height chain block s).2.
Proof.
  unfold record_delivered_height. erewrite bind_eq by done.
  destruct (match delivered_frontier s !! chain with None => true | Some f => f <? block end) eqn:Ef.
  2: apply evolves_refl.
  erewrite bind_eq by done. rewrite emit_eq. cbn [snd].
  do 3 (split; [done|]). split; [done|]. split.
  - intros i m Hi. exists m. split; [done|]. split; [done|]. by apply leads_refl.
  - exists [EvDelivered chain block]. split; [done|]. split.
    + intros i e ->%list_elem_of_singleton. done.
    + intros c. cbn. case_decide as Ec; [subst c; rewrite lookup_insert_eq
        |rewrite lookup_insert_ne by done; apply advances_refl].
      destruct (delivered_frontier s !! chain) as [f|]; split; cbn; try done.
      * apply Z.ltb_lt in Ef. by repeat constructor.
      * by repeat constructor.
Qed.

(** Recording a height touches the frontier and the trace only. *)
Lemma record_height_spec chain block (s : Sup) :
  exists evs, (record_delivered_height chain block s).2.(trace) = s.(trace) ++ evs /\
    (evs = [] \/ evs = [EvDelivered chain block]) /\
    (record_delivered_height chain block s).2.(store) = s.(store) /\
    (record_delivered_height chain block s).2.(chain_log_cursors) = s.(chain_log_cursors).
Proof.
  unfold record_delivered_height. erewrite bind_eq by done.
  destruct (match delivered_frontier s !! chain with None => true | Some f => f <? block end).
  - erewrite bind_eq by done. rewrite emit_eq. exists [EvDelivered chain block]. auto.
  - exists []. rewrite app_nil_r. auto.
Qed.

(** The fan-out of a trigger after its sweep: the state it starts from, and the
    accounting of its candidates. *)
Definition swept (s : Sup) : Sup := let (at_, s1) := now s in (sweep at_ s1).2.

Lemma swept_evolves (s : Sup) : evolves s (swept s).
Proof.
  unfold swept. pose proof (now_evolves s) as Hn. destruct (now s) as [at_ s1].
  eapply evolves_trans; [exact Hn|]. apply sweep_evolves.
Qed.

Lemma dispatch_block_spec block received (s : Sup) :
  let cands := candidates (wants_block block.(block_chain_id)) (swept s) in
  exists n sf evs,
    let out := dispatch_block_received block received s in
    out.1 = Z.of_nat n /\ evolves (swept s) sf /\
    sf.(trace) = (swept s).(trace) ++ evs /\ accounts (length cands) n evs /\
    out.2 = (if (0 <? n)%nat
             then (record_delivered_height block.(block_chain_id) block.(block_number) sf).2 else sf) /\
    sf.(delivered_frontier) = (swept s).(delivered_frontier).
Proof.
  intros cands. unfold cands, swept, dispatch_block_received.
  destruct (now s) as [at_ s1] eqn:En. erewrite bind_eq by exact En.
  destruct (sweep at_ s1) as [[] s2] eqn:Esw. erewrite bind_eq by exact Esw. cbn [snd].
  erewrite bind_eq by done. set (cs := candidates _ s2).
  destruct (candidates_spec (wants_block (block_chain_id block)) s2) as [Hnd Hc].
  destruct (fan_out_spec (block_chain_id block) (chars_of "block") (arrival_new (GBlock block) received)
              at_ cs Hnd s2 0) as (n & sf & evs & Ef & Hev & Ht & Ha & _ & _ & Hfr & _).
  { intros i Hi. destruct (Hc i Hi) as (m & ? & ? & _). by exists m. }
  erewrite bind_eq by exact Ef. exists n, sf, evs. rewrite Z.add_0_l.
  destruct (Nat.ltb_spec 0 n) as [Hlt|Hge].
  - rewrite (proj2 (Z.ltb_lt 0 (Z.of_nat n))) by lia.
    destruct (record_delivered_height _ _ sf) as [[] sr] eqn:Er. erewrite bind_eq by exact Er. done.
  - rewrite (proj2 (Z.ltb_ge 0 (Z.of_nat n))) by lia. erewrite bind_eq by done. done.
Qed.

Lemma dispatch_block_evolves block received (s : Sup) :
  evolves s (dispatch_block_received block received s).2.
Proof.
  destruct (dispatch_block_spec block received s) as (n & sf & evs & _ & Hev & _ & _ & -> & _).
  eapply evolves_trans; [apply swept_evolves|]. eapply evolves_trans; [exact Hev|].
  case_match; [apply record_height_evolves | apply evolves_refl].
Qed.

Lemma dispatch_extension_spec d received (s : Sup) :
  let cands := candidates (wants_extension d) (swept s) in
  exists n evs,
    let out := dispatch_extension_trigger_received d received s in
    out.1 = Z.of_nat n /\ evolves (swept s) out.2 /\
    out.2.(trace) = (swept s).(trace) ++ evs /\ accounts (length cands) n evs /\
    out.2.(delivered_frontier) = (swept s).(delivered_frontier).
Proof.
  intros cands. unfold cands, swept, dispatch_extension_trigger_received.
  destruct (now s) as [at_ s1] eqn:En. erewrite bind_eq by exact En.
  destruct (sweep at_ s1) as [[] s2] eqn:Esw. erewrite bind_eq by exact Esw. cbn [snd].
  erewrite bind_eq by done. set (cs := candidates _ s2).
  destruct (candidates_spec (wants_extension d) s2) as [Hnd Hc].
  destruct (fan_out_spec 0 (extension_kind d) (arrival_new (GExtension (ext_payload d)) received)
              at_ cs Hnd s2 0) as (n & sf & evs & -> & Hev & Ht & Ha & _ & _ & Hfr & _).
  { intros i Hi. destruct (Hc i Hi) as (m & ? & ? & _). by exists m. }
  by exists n, evs.
Qed.

Lemma dispatch_extension_evolves d received (s : Sup) :
  evolves s (dispatch_extension_trigger_received d received s).2.
Proof.
  destruct (dispatch_extension_spec d received s) as (n & evs & _ & Hev & _).
  eapply evolves_trans; [apply swept_evolves | exact Hev].
Qed.

(** Admission of a single-module trigger. *)
Definition untouched (s s' : Sup) : Prop :=
  s'.(chain_log_cursors) = s.(chain_log_cursors) /\ s'.(store) = s.(store) /\
  s'.(delivered_frontier) = s.(delivered_frontier) /\ s'.(health) = s.(health).

Lemma admit_one_spec kind name at_ (s : Sup) :
  let out := admit_one kind name at_ s in
  evolves s out.2 /\ untouched s out.2 /\
  match out.1 with
  | None => True
  | Some idx =>
      exists m, out.2.(modules) !! idx = Some m /\ dispatchable m.(m_health) = true /\
        m.(m_name) = name
  end.
Proof.
  unfold admit_one. destruct (stop_requested_spec s) as (b & w & Es & Hw & _).
  pose proof (evolves_world s w [] Hw (Forall_nil_2 _)) as Hev1.
  set (s1 := upd s (modules s) w []) in *. erewrite bind_eq by exact Es. destruct b.
  { erewrite bind_eq by apply emit_eq. split; [|done].
    eapply evolves_trans; [exact Hev1|]. apply evolves_world; [done|]. by repeat constructor. }
  erewrite bind_eq by done. destruct (position name s1) as [idx|] eqn:Epos; [|done].
  erewrite bind_eq by done. destruct (modules s1 !! idx) as [m|] eqn:Em; cbn [fmap option_fmap option_map]; [|done].
  assert (m_name m = name) as Hname.
  { unfold position in Epos. destruct (list_find _ (modules s1)) as [[j mj]|] eqn:Ef; [|done].
    injection Epos as ->. apply list_find_Some in Ef as (Hj & Hn & _).
    rewrite Em in Hj. by injection Hj as ->. }
  destruct (is_poisoned (m_health m)); [done|].
  assert (exists s2, (if due_restart (m_health m) at_ then revive_one idx at_ else mret tt) s1 = (tt, s2) /\
            evolves s s2 /\ untouched s s2 /\ evolves s1 s2) as (s2 & Er & Hev2 & Hun & Hev12).
  { destruct (due_restart (m_health m) at_) eqn:Ed; [|exists s1; split; [done|]; split; [done|]; split; [done|]; apply evolves_refl].
    pose proof (revive_one_evolves idx at_ s1 m Em Ed) as Hr.
    destruct (revive_one_spec idx at_ s1 m Em) as (m' & w' & E & _). rewrite E in Hr |- *.
    eexists. split; [reflexivity|]. split; [by eapply evolves_trans|]. split; done. }
  erewrite bind_eq by exact Er.
  destruct (stop_requested_spec s2) as (b2 & w2 & Es2 & Hw2 & _). erewrite bind_eq by exact Es2.
  assert (evolves s (upd s2 (modules s2) w2 [])) as Hev3.
  { eapply evolves_trans; [exact Hev2|]. by apply evolves_world. }
  erewrite bind_eq by done. destruct (_ || _) eqn:Eo; cbn [fst snd].
  - done.
  - apply orb_false_elim in Eo as [_ Eo]. split; [done|]. split; [done|].
    destruct (modules (upd s2 (modules s2) w2 []) !! idx) as [m2|] eqn:Em2; [|done].
    exists m2. split; [done|]. split; [cbn in Eo; by destruct (dispatchable (m_health m2))|].
    destruct Hev12 as (_ & _ & _ & _ & Hmods & _). destruct (Hmods idx m Em) as (m3 & Em3 & (Hn3 & _) & _).
    cbn in Em2. rewrite Em3 in Em2. injection Em2 as <-. by rewrite Hn3.
Qed.

(** The event path up to the bookkeeping of an accepted log. *)
Lemma dispatch_event_spec name chain l key received (s : Sup) :
  let out := dispatch_event_received name chain l key received s in
  exists s1, evolves s s1 /\ untouched s s1 /\
    (out.1 = true -> exists evs elapsed, s1.(trace) = s.(trace) ++ evs /\
       EvLatency name (chars_of "event") DOk elapsed ∈ evs) /\
    out.2 =
      (if out.1 then
         let s2 := match l.(log_block_number) with
                   | Some block => (record_delivered_height chain block s1).2
                   | None => s1
                   end in
         match key, l.(log_block_number) with
         | Some key, Some block => (commit_cursor name key block l.(log_removed) s2).2
         | _, _ => s2
         end
       else
         match key with
         | Some key => set_cursors s1.(store) (hold s1.(chain_log_cursors) name key) s1
         | None => s1
         end).
Proof.
  unfold dispatch_event_received, dispatch_event_inner.
  destruct (now_spec s) as (w & En & Hw). pose proof (evolves_world s w [] Hw (Forall_nil_2 _)) as Hev0.
  set (s0 := upd s (modules s) w []) in *.
  destruct (admit_one_spec (chars_of "event") name (clock w) s0) as (Hev1 & Hun & Had).
  destruct (admit_one (chars_of "event") name (clock w) s0) as [ad s1] eqn:Ea. cbn [fst snd] in *.
  assert (evolves s s1) as Hev by (by eapply evolves_trans).
  destruct ad as [idx|].
  2: { exists s1. split; [done|]. split; [done|].
       erewrite bind_eq; [|erewrite bind_eq by exact En; erewrite bind_eq by exact Ea; reflexivity].
       by destruct key. }
  destruct Had as (m & Hm & Hd & Hn).
  set (arr := arrival_new (GEvent chain l) received).
  pose proof (dispatch_to_evolves idx chain (chars_of "event") arr (clock w) s1 m Hm Hd) as Hev2.
  destruct (dispatch_to_spec idx chain (chars_of "event") arr (clock w) s1 m Hm)
    as (o & m' & w2 & evs & Edt & _ & _ & Hevs & _). rewrite Edt in Hev2. cbn [snd] in Hev2.
  set (s2 := upd s1 _ w2 evs) in *.
  assert (o = DOk -> exists evs0 elapsed, trace s2 = trace s ++ evs0 /\
            EvLatency name (chars_of "event") DOk elapsed ∈ evs0) as Hlat.
  { intros ->. destruct Hev as (_ & _ & _ & _ & _ & new & Et & _).
    inversion Hevs as [? Ho|? elapsed q1 q2 q3 Ho Hq E1 E2]; [done|]. subst.
    eexists (new ++ _), elapsed. split; [cbn; by rewrite Et, <- app_assoc|]. set_solver. }
  exists s2. split; [by eapply evolves_trans|]. split; [done|].
  unfold mbind, M_bind. rewrite En. fold s0. rewrite Ea. fold arr. rewrite Edt. fold s2.
  case_bool_decide as Eok.
  - assert (o = DOk) as Ho by congruence. destruct (log_block_number l) as [block|].
    + destruct (record_delivered_height chain block s2) as [[] s3]. destruct key; cbn [fst snd]; auto.
    + destruct key; cbn [fst snd]; auto.
  - destruct (log_block_number l) as [block|], key; by split.
Qed.

Lemma dispatch_event_evolves name chain l key received (s : Sup) :
  evolves s (dispatch_event_received name chain l key received s).2.
Proof.
  destruct (dispatch_event_spec name chain l key received s) as (s1 & Hev & _ & _ & ->).
  eapply evolves_trans; [exact Hev|].
  assert (forall (s' : Sup) st c, evolves s' (set_cursors st c s')) as Hset by (by intros; apply evolves_frame).
  assert (forall b, evolves s1 (record_delivered_height chain b s1).2) as Hrec
    by (intros; apply record_height_evolves).
  assert (forall (s' : Sup) k b, evolves s' (commit_cursor name k b (log_removed l) s').2) as Hcom.
  { intros s' k b. unfold commit_cursor, modify. cbn.
    destruct (commit_chain_log_cursor _ _ _ _ _ _). apply Hset. }
  destruct (fst _); destruct key, (log_block_number l);
    auto using evolves_refl; (eapply evolves_trans; [apply Hrec | apply Hcom]).
Qed.

Lemma dispatch_schedule_evolves name fired_at received (s : Sup) :
  evolves s (dispatch_schedule_received name fired_at received s).2 /\
  untouched s (dispatch_schedule_received name fired_at received s).2.
Proof.
  unfold dispatch_schedule_received. destruct (now_spec s) as (w & En & Hw).
  pose proof (evolves_world s w [] Hw (Forall_nil_2 _)) as Hev0. set (s0 := upd s (modules s) w []) in *.
  destruct (admit_one_spec (chars_of "schedule") name (clock w) s0) as (Hev1 & Hun & Had).
  destruct (admit_one (chars_of "schedule") name (clock w) s0) as [ad s1] eqn:Ea. cbn [fst snd] in *.
  assert (evolves s s1) as Hev by (by eapply evolves_trans).
  erewrite bind_eq by exact En. erewrite bind_eq by exact Ea. destruct ad as [idx|]; [|done].
  destruct Had as (m & Hm & Hd & _). set (arr := arrival_new (GSchedule fired_at) received).
  pose proof (dispatch_to_evolves idx 0 (chars_of "schedule") arr (clock w) s1 m Hm Hd) as Hev2.
  destruct (dispatch_to_spec idx 0 (chars_of "schedule") arr (clock w) s1 m Hm)
    as (o & m' & w2 & evs & Edt & _). rewrite Edt in Hev2. erewrite bind_eq by exact Edt.
  split; [by eapply evolves_trans | done].
Qed.

Lemma poison_source_evolves name (s : Sup) :
  evolves s (poison_source name s).2 /\ untouched s (poison_source name s).2.
Proof.
  unfold poison_source. erewrite bind_eq by done.
  destruct (list_find _ (modules s)) as [[idx m]|] eqn:Ef; [|split; [apply evolves_refl | done]].
  apply list_find_Some in Ef as (Hm & _ & _).
  destruct (is_poisoned (m_health m)); [split; [apply evolves_refl | done]|].
  erewrite bind_eq by apply put_module_eq. rewrite emit_eq, upd_upd. cbn. split; [|done].
  eapply evolves_module; [done..| |].
  - by apply poisoned_leads.
  - apply Forall_singleton. by left.
Qed.

Lemma emit_all_eq evs (s : Sup) : emit_all evs s = (tt, upd s s.(modules) s.(world) evs).
Proof.
  revert s. induction evs as [|e evs IH]; intros s; [by rewrite upd_id|].
  cbn [emit_all]. erewrite bind_eq by apply emit_eq. rewrite IH, upd_upd. done.
Qed.
End Facts.
