(* ===== verification/DispatchSafety.v ===== *)
(** * DispatchSafety: the supervisor's promises over whole runs

    Theorems about any sequence of supervisor operations in any world that obeys
    the laws of [DispatchFacts], and a scripted world in which they are
    exercised. *)

From stdpp Require Import prelude list gmap strings relations sorting.
From Stdlib Require Import ZArith Lia.
From S2P Require Import Prelude RestartPolicy Lifecycle StoreApi LocalStore LocalStoreSafety.
From S2P Require Import Cursors Cron Dispatch DispatchFacts.

(** One call on the supervisor, as the event loop makes them. *)
Inductive SupOp : Type :=
| OBlock (block : Block) (received : Z)
| OEvent (name : text) (chain : Z) (l : Log) (key : option text) (received : Z)
| OExtension (d : ExtensionDelivery) (received : Z)
| OSchedule (name : text) (fired_at received : Z)
| OPoisonSource (name : text)
| OFrontierCommit (name key : text) (frontier : Z)
| OPublish.

Section Safety.
Context {B W S : Type} `{RateLimiter B} `{WorldLaws W} `{StateStoreLaws S}.

Abbreviation Sup := (Supervisor B W S).

Definition run_sup (s : Sup) (op : SupOp) : Sup :=
  match op with
  | OBlock block received => (dispatch_block_received block received s).2
  | OEvent name chain l key received => (dispatch_event_received name chain l key received s).2
  | OExtension d received => (dispatch_extension_trigger_received d received s).2
  | OSchedule name fired_at received => (dispatch_schedule_received name fired_at received s).2
  | OPoisonSource name => (poison_source name s).2
  | OFrontierCommit name key frontier => (commit_frontier name key frontier s).2
  | OPublish => (publish_health s).2
  end.

Definition run_sups (s : Sup) (ops : list SupOp) : Sup := fold_left run_sup ops s.

Lemma publish_spec (s : Sup) :
  let states := (fun m => (m.(m_name), state m.(m_health))) <$> s.(modules) in
  exists evs,
    (publish_health s).2 =
      match s.(health) with
      | None => s
      | Some _ => set_health (Some states) (upd s s.(modules) s.(world) evs)
      end /\
    evs = (if decide (s.(health) = None \/ s.(health) = Some states) then []
           else flat_map (fun e => (fun c => EvState e.1 c (bool_decide (c = e.2))) <$> module_states) states).
Proof.
  intros states. unfold publish_health. erewrite bind_eq by done.
  destruct (health s) as [current|] eqn:Eh; [|exists []; by rewrite decide_True by auto].
  erewrite bind_eq by done. unfold publish. erewrite bind_eq by done. fold states.
  rewrite Eh. case_bool_decide as E.
  - exists []. split; [|by rewrite decide_True by auto]. cbn. rewrite upd_id.
    unfold set_health. rewrite <- E, <- Eh. by destruct s.
  - erewrite bind_eq by done. unfold report_states. rewrite emit_all_eq.
    eexists. split; [|by rewrite decide_False by naive_solver]. done.
Qed.

Lemma run_sup_evolves (s : Sup) op : evolves s (run_sup s op).
Proof.
  destruct op as [block received | name chain l key received | d received | name fa received
                 | name | name key f |]; cbn [run_sup].
  - apply dispatch_block_evolves.
  - apply dispatch_event_evolves.
  - apply dispatch_extension_evolves.
  - apply dispatch_schedule_evolves.
  - apply poison_source_evolves.
  - unfold commit_frontier, modify. cbn. destruct (commit_chain_log_frontier _ _ _ _ _).
    by apply evolves_frame.
  - destruct (publish_spec s) as (evs & -> & Ee). destruct (health s) eqn:Eh; [|apply evolves_refl].
    apply (evolves_trans _ (upd s (modules s) (world s) evs));
      [|apply evolves_frame; try done; unfold bindings; cbn; by rewrite Eh].
    apply evolves_world; [done|]. rewrite Ee. case_decide; [constructor|].
    apply Forall_forall. intros e He. apply list_elem_of_In, in_flat_map in He as (x & _ & He).
    apply list_elem_of_In, list_elem_of_fmap in He as (c & -> & _). done.
Qed.

Lemma run_sups_evolves (s : Sup) ops : evolves s (run_sups s ops).
Proof.
  revert s. induction ops as [|op ops IH]; intros s; [apply evolves_refl|].
  cbn. eapply evolves_trans; [apply run_sup_evolves | apply IH].
Qed.

(** C9: whatever blocks, events, ticks, extension deliveries, source
    failures and commits the supervisor handles, and whatever the guests, the
    clock and the stop signal do, every module's health is one the lifecycle
    reaches from its boot verdict, with its traps at instants the clock has
    passed; identity, triggers, budgets and pins of a module never change. *)
Theorem supervisor_refines_lifecycle (s : Sup) ops i m ok :
  s.(modules) !! i = Some m -> m.(m_health) = from_init ok ->
  exists m' traps,
    (run_sups s ops).(modules) !! i = Some m' /\ same_module m m' /\
    Forall (fun t => t <= clock (run_sups s ops).(world)) traps /\
    rtc (health_step s.(policy)) ([], from_init ok) (traps, m'.(m_health)).
Proof.
  intros Hm Hok. destruct (run_sups_evolves s ops) as (_ & _ & _ & _ & Hmods & _).
  destruct (Hmods i m Hm) as (m' & Hm' & Hsame & Hl). rewrite Hok in Hl.
  destruct (Hl [] (Forall_nil_2 _)) as (traps & Ht & Hr). by exists m', traps.
Qed.

(** C2: a module that is quarantined, or dead since boot, is never
    entered again: no later operation calls its trigger handler or revives it,
    it stays out of service, and a quarantined one stays quarantined. *)
Theorem quarantined_never_entered (s : Sup) ops i m :
  s.(modules) !! i = Some m -> barred m.(m_health) = true ->
  exists m' new,
    (run_sups s ops).(modules) !! i = Some m' /\ barred m'.(m_health) = true /\
    (is_poisoned m.(m_health) = true -> is_poisoned m'.(m_health) = true) /\
    (run_sups s ops).(trace) = s.(trace) ++ new /\
    Forall (fun e => enters e <> Some i) new.
Proof.
  intros Hm Hb. destruct (run_sups_evolves s ops) as (_ & _ & _ & _ & Hmods & new & Ht & He & _).
  destruct (Hmods i m Hm) as (m' & Hm' & _ & Hl). exists m', new.
  split; [done|]. split; [by eapply leads_barred|]. split; [|split; [done|]].
  - intros Hp. destruct (Hl [] (Forall_nil_2 _)) as (traps & _ & Hr).
    apply health_steps_edge in Hr. cbn in Hr. unfold is_poisoned, state in *.
    destruct (lstate (m_health m)); try done. cbn in Hr. by destruct (lstate (m_health m')).
  - apply Forall_forall. intros e Hin Hen. destruct (He i e Hin Hen) as (m0 & Hm0 & Hb0).
    rewrite Hm in Hm0. injection Hm0 as <-. congruence.
Qed.

(** The delivered height of a chain only advances: over any run,
    every height the gauge reports is greater than the frontier and the heights
    before it, and the frontier is the last one reported. *)
Theorem delivered_heights_advance (s : Sup) ops :
  exists new,
    (run_sups s ops).(trace) = s.(trace) ++ new /\
    forall chain,
      advances (s.(delivered_frontier) !! chain) (heights chain new)
        ((run_sups s ops).(delivered_frontier) !! chain).
Proof.
  destruct (run_sups_evolves s ops) as (_ & _ & _ & _ & _ & new & Ht & _ & Hf). by exists new.
Qed.

(** A block goes, after the restart sweep, to exactly the modules
    alive then that declare a trigger on its chain, and each one is accounted
    for once: a latency sample for every guest entry, or a drop (rate limit,
    fuel, shutdown); the result counts the accepted ones, and the delivered
    height moves only if there is one. *)
Theorem block_fan_out_accounts block received (s : Sup) :
  let cands := candidates (wants_block block.(block_chain_id)) (swept s) in
  exists n evs rest,
    (dispatch_block_received block received s).1 = Z.of_nat n /\
    (dispatch_block_received block received s).2.(trace) = (swept s).(trace) ++ evs ++ rest /\
    accounts (length cands) n evs /\
    (rest = [] \/ (0 < n)%nat /\ rest = [EvDelivered block.(block_chain_id) block.(block_number)]) /\
    (n = O -> (dispatch_block_received block received s).2.(delivered_frontier)
               = (swept s).(delivered_frontier)).
Proof.
  destruct (dispatch_block_spec block received s) as (n & sf & evs & E1 & _ & Ht & Ha & E2 & Ef).
  exists n, evs. rewrite E1, E2. destruct (Nat.ltb_spec 0 n) as [Hlt|Hge].
  - destruct (record_height_spec (block_chain_id block) (block_number block) sf)
      as (rest & Er & Hor & _). exists rest. rewrite Er, Ht, app_assoc.
    do 3 (split; [done|]). split; [|lia]. destruct Hor as [->| ->]; [by left | by right].
  - exists []. rewrite Ht, app_nil_r. do 3 (split; [done|]). split; [by left | done].
Qed.


(** Publishing makes the probe's snapshot the modules' states in
    order, so the engine reads ready exactly when some module is dispatchable;
    the per-state gauges are rewritten only when a state moved. *)
Theorem publish_reflects_modules (s : Sup) old :
  s.(health) = Some old ->
  let states := (fun m => (m.(m_name), state m.(m_health))) <$> s.(modules) in
  let s' := (publish_health s).2 in
  s'.(health) = Some states /\ (ready states = true <-> (0 < alive_count s')%nat) /\
  (old = states -> s'.(trace) = s.(trace)) /\
  (old <> states -> exists evs, s'.(trace) = s.(trace) ++ evs /\
     forall m c, (m, c) ∈ states -> forall c',
       EvState m c' (bool_decide (c' = c)) ∈ evs).
Proof.
  intros Hh states s'. destruct (publish_spec s) as (evs & E & Ee). fold states in E, Ee.
  unfold s'. rewrite E, Hh. rewrite Hh in Ee. cbn. split; [done|]. split; [|split].
  - unfold ready, states, alive_count. cbn. rewrite existsb_exists. split.
    + intros (x & Hin & Hx). apply list_elem_of_In, list_elem_of_fmap in Hin as (m & -> & Hin).
      apply bool_decide_eq_true in Hx. cbn in Hx. apply list_elem_of_In in Hin.
      destruct (List.filter _ (modules s)) as [|m0 l] eqn:Ef; [|cbn; lia].
      assert (In m (List.filter (fun m => dispatchable (m_health m)) (modules s))) as Hc.
      { apply List.filter_In. split; [done|]. unfold state, dispatchable in *. by destruct (lstate _). }
      by rewrite Ef in Hc.
    + intros Hlt. destruct (List.filter _ (modules s)) as [|m0 l] eqn:Ef; [cbn in Hlt; lia|].
      assert (In m0 (List.filter (fun m => dispatchable (m_health m)) (modules s))) as Hc
        by (rewrite Ef; by left).
      apply List.filter_In in Hc as [Hin Hd]. exists (m_name m0, state (m_health m0)). split.
      * apply list_elem_of_In, list_elem_of_fmap. exists m0. split; [done|]. by apply list_elem_of_In.
      * apply bool_decide_eq_true. cbn. unfold state, dispatchable in *. by destruct (lstate _).
  - intros ->. rewrite decide_True in Ee by auto. subst evs. by rewrite app_nil_r.
  - intros Hne. rewrite decide_False in Ee by naive_solver. exists evs. split; [done|].
    intros m c Hin c'. subst evs. apply list_elem_of_In, in_flat_map. exists (m, c).
    split; [by apply list_elem_of_In|]. apply list_elem_of_In, list_elem_of_fmap. exists c'.
    split; [done|]. destruct c'; set_solver.
Qed.
End Safety.

(** ** A scripted world

    Every reading of the clock advances it by a second; guest calls and
    restarts answer from a script; the stop fires at a set instant. *)

Module Script.
Record Script : Type := mkScript {
  time : Z;
  calls : list CallResult;
  revives : list bool;
  stop_at : option Z
}.

Definition tick (w : Script) : Script :=
  mkScript (w.(time) + NANOS_PER_SEC) w.(calls) w.(revives) w.(stop_at).

Definition is_fired (w : Script) : bool :=
  match w.(stop_at) with Some t => t <=? w.(time) | None => false end.

#[global] Instance script_world : World Script := {|
  w_now w := ((tick w).(time), tick w);
  w_wall w := (w.(time), w);
  w_stop w := (is_fired w, w);
  w_set_fuel w _ _ := (true, w);
  w_call w _ _ _ :=
    match w.(calls) with
    | [] => (CallOk, w)
    | r :: rs => (r, mkScript w.(time) rs w.(revives) w.(stop_at))
    end;
  w_fuel_left _ _ := Some 0;
  w_memory _ _ := 65536;
  w_nonce _ := 0;
  w_revive w _ :=
    match w.(revives) with
    | [] => (true, w)
    | r :: rs => (r, mkScript w.(time) w.(calls) rs w.(stop_at))
    end
|}.

Lemma script_step w w' :
  world_step w w' -> w.(time) <= w'.(time) /\ w'.(stop_at) = w.(stop_at).
Proof.
  destruct 1 as [w' t E|w' t E|w' b E|w' b n f E|w' r n d t E|w' b n E]; cbn in E.
  all: repeat case_match; injection E as _ <-; split; try done; cbn; unfold NANOS_PER_SEC; lia.
Qed.

#[global] Instance script_laws : WorldLaws Script.
Proof.
  refine {| clock := time; fired := is_fired |}.
  - intros w w' [? _]%script_step. done.
  - intros w w' [Ht Hs]%script_step. unfold is_fired. rewrite Hs.
    destruct (stop_at w); [|done]. rewrite !Z.leb_le. lia.
  - intros w t w' E. cbn in E. by injection E as <- <-.
  - intros w b w' E. cbn in E. by injection E as <- <-.
Defined.

(** A limiter that always admits. *)
#[global] Instance open_limiter : RateLimiter unit := {| try_acquire b _ := (true, b) |}.

Definition the_store : StateStore (Faulty (T := Demo.table)) := local_state_store Demo.digest.
#[global] Existing Instance the_store.
#[global] Instance the_store_laws : StateStoreLaws (Faulty (T := Demo.table)) :=
  local_store_laws Demo.digest (fun _ => eq_refl).

Definition demo_module (name : text) (h : Health) : LoadedModule unit :=
  mkLoadedModule name [TBlock 1; TSchedule (mkCronSchedule 1 1 2 2 2 false [])] h tt 0 1000
    (duration_from_secs 5) true.

(** Two modules; the first one's guest traps on its first two calls, which its
    policy does not forgive. *)
Definition demo : Supervisor unit Script (Faulty (T := Demo.table)) :=
  mkSupervisor [demo_module (chars_of "a") (from_init true); demo_module (chars_of "b") (from_init true)]
    two_in_ten ChainLogCursors_default ∅ true (Some []) (Demo.store0, [])
    (mkScript 0 [CallTrap; CallOk; CallDeadline; CallOk] [] (Some (duration_from_secs 60))) [].

Definition block (n : Z) : Block := mkBlock 1 n [] 0.
Definition log (n : Z) : Log := mkLog [] [] [] None (Some n) None None None None false.

Definition ops : list SupOp :=
  [OBlock (block 7) 0; OSchedule (chars_of "a") 0 0; OBlock (block 8) 0;
   OEvent (chars_of "b") 1 (log 9) (Some (chars_of "k")) 0; OPublish; OPoisonSource (chars_of "b")].

(** After a quarantine. *)
Definition later : Supervisor unit Script (Faulty (T := Demo.table)) :=
  run_sups demo [OPoisonSource (chars_of "a")].
End Script.

Lemma supervisor_refines_lifecycle_witness :
  exists m' traps,
    (run_sups Script.demo Script.ops).(modules) !! O = Some m' /\
    same_module (Script.demo_module (chars_of "a") (from_init true)) m' /\
    Forall (fun t => t <= clock (run_sups Script.demo Script.ops).(world)) traps /\
    rtc (health_step two_in_ten) ([], from_init true) (traps, m'.(m_health)).
Proof.
  apply (supervisor_refines_lifecycle Script.demo Script.ops O
           (Script.demo_module (chars_of "a") (from_init true)) true); reflexivity.
Defined.

Lemma quarantined_never_entered_witness :
  exists m' new,
    (run_sups Script.later Script.ops).(modules) !! O = Some m' /\ barred m'.(m_health) = true /\
    (true = true -> is_poisoned m'.(m_health) = true) /\
    (run_sups Script.later Script.ops).(trace) = Script.later.(trace) ++ new /\
    Forall (fun e => enters e <> Some O) new.
Proof.
  apply (quarantined_never_entered Script.later Script.ops O
           (Script.demo_module (chars_of "a") (poison (from_init true)))); reflexivity.
Defined.

Lemma delivered_heights_advance_witness :
  exists new,
    (run_sups Script.demo Script.ops).(trace) = Script.demo.(trace) ++ new /\
    forall chain,
      advances (Script.demo.(delivered_frontier) !! chain) (heights chain new)
        ((run_sups Script.demo Script.ops).(delivered_frontier) !! chain).
Proof. apply (delivered_heights_advance Script.demo Script.ops). Defined.

Lemma block_fan_out_accounts_witness :
  let cands := candidates (wants_block 1) (swept Script.demo) in
  exists n evs rest,
    (dispatch_block_received (Script.block 7) 0 Script.demo).1 = Z.of_nat n /\
    (dispatch_block_received (Script.block 7) 0 Script.demo).2.(trace)
      = (swept Script.demo).(trace) ++ evs ++ rest /\
    accounts (length cands) n evs /\
    (rest = [] \/ (0 < n)%nat /\ rest = [EvDelivered 1 7]) /\
    (n = O -> (dispatch_block_received (Script.block 7) 0 Script.demo).2.(delivered_frontier)
               = (swept Script.demo).(delivered_frontier)).
Proof. apply (block_fan_out_accounts (Script.block 7) 0 Script.demo). Defined.


Lemma publish_reflects_modules_witness :
  let states := (fun m => (m.(m_name), state m.(m_health))) <$> Script.demo.(modules) in
  let s' := (publish_health Script.demo).2 in
  s'.(health) = Some states /\ (ready states = true <-> (0 < alive_count s')%nat) /\
  ([] = states -> s'.(trace) = Script.demo.(trace)) /\
  ([] <> states -> exists evs, s'.(trace) = Script.demo.(trace) ++ evs /\
     forall m c, (m, c) ∈ states -> forall c', EvState m c' (bool_decide (c' = c)) ∈ evs).
Proof. apply (publish_reflects_modules Script.demo []). reflexivity. Defined.

(** The run of the scripted world: the first module ends quarantined after its
    second trap inside the window, the second one after its source failed. *)
Example demo_run_states :
  (fun m => state m.(m_health)) <$> (run_sups Script.demo Script.ops).(modules)
    = [MPoisoned; MPoisoned] /\
  (run_sups Script.demo Script.ops).(delivered_frontier) !! 1 = Some 9.
Proof. vm_compute. split; reflexivity. Qed.
