(* ===== verification/ChainLog.v ===== *)
(** * ChainLog: the chain-log source task

    Models the reconnect-aware chain-log task of
    [crates/nexum-runtime-supervisor/src/runtime/event_loop.rs]: where a
    (re-)open starts, the bulk backfill of a large gap, the pump, and the
    retraction of a reorged tail.

    The provider pool, the canonical log stream of alloy and the channel to the
    event loop are the class [Pool].  What the task fetched, opened, skipped and
    waited for is appended to [seen], what it sent to [sent]. *)

From stdpp Require Import prelude list.
From Stdlib Require Import ZArith Lia.
From S2P Require Import Prelude RestartPolicy Dispatch.
Local Open Scope rust_scope.
Local Open Scope Z_scope.

Definition MAX_REORG_DEPTH : Z := 64.
Definition REVALIDATE_DEPTH : Z := MAX_REORG_DEPTH.
Definition BULK_ABANDON_ATTEMPTS : Z := 5.
Definition HEALTHY_WINDOW : Z := duration_from_secs 60.

(** One height of the canonical stream. *)
Record Batch : Type := mkBatch {
  b_number : Z;
  b_hash : list Z;
  b_logs : list Log;
  b_removed : bool
}.

Record DeliveredTail : Type := mkTail {
  t_number : Z;
  t_hash : list Z;
  t_logs : list Log
}.

Inductive ChainLogItem : Type :=
| ItemLog (l : Log) (received : Z)
| ItemFrontier (frontier : Z).

(** What the task did to its source. *)
Inductive SrcEv : Type :=
| SHead (height : Z)
| SChunk (from to : Z) (logs : list Log)
| SSkip (from to : Z)
| SOpen (start : Z)
| SBatch (number : Z) (removed : bool)
| SPause (attempt : Z) (backoff : Z)
| SReconnect.

(** Head, block hash, ranged logs, the log stream, the channel, the clock;
    [None] is an error or a timeout, [pool_next] a stream's end, error or batch. *)
Class Pool (P : Type) : Type := {
  pool_head : P -> option Z * P;
  pool_block_hash : P -> Z -> option (option (list Z)) * P;
  pool_log_range : P -> option Z;
  pool_logs_in_range : P -> Z -> Z -> option (list Log) * P;
  pool_open : P -> Z -> bool * P;
  pool_next : P -> option (option Batch) * P;
  pool_send : P -> ChainLogItem -> bool * P;
  pool_now : P -> Z * P
}.

(** ** Where a poller starts *)

Record PollerStart : Type := mkPollerStart { start_block : Z; restates_tail : bool }.

Definition poller_start_block (boot_cursor resume_from invalidated_tail : option Z) (head : Z)
    (lookback_floor : option Z) : PollerStart :=
  match boot_cursor with
  | Some cursor => mkPollerStart (Z.min cursor head) false
  | None =>
      let basis := default head resume_from in
      match invalidated_tail with
      | Some tail =>
          let bound := Z.max basis (default 0 lookback_floor) -| REVALIDATE_DEPTH in
          if bound <=? tail then mkPollerStart tail true else mkPollerStart bound false
      | None => mkPollerStart basis false
      end
  end.

Definition bulk_backfill_bounds (start_block head : Z) : option (Z * Z) :=
  let handoff := head -| MAX_REORG_DEPTH in
  if start_block <? handoff then Some (start_block, handoff) else None.

Definition block_stream_gap_to_log (now : Z) (last_event : option Z) (threshold : Z) : option Z :=
  match last_event with
  | None => None
  | Some last => let gap := duration_since now last in if threshold <=? gap then Some gap else None
  end.

(** ** The task *)

Section Task.
Context {P : Type} `{Pool P}.

Record Task : Type := mkTask {
  attempt : Z;
  last_event : option Z;
  resume_from : option Z;
  tail : option DeliveredTail;
  boot_resume : option Z;
  head_seen : option Z;
  pool : P;
  sent : list ChainLogItem;
  seen : list SrcEv
}.

(** The source's constants: the cursor key, the lookback cap, the jitter seed. *)
Record Source : Type := mkSource {
  cursor_key : option text;
  max_lookback : option Z;
  seed : Z
}.

Definition set_pool (p : P) (st : Task) : Task :=
  mkTask st.(attempt) st.(last_event) st.(resume_from) st.(tail) st.(boot_resume) st.(head_seen) p
    st.(sent) st.(seen).

Definition note (e : SrcEv) (st : Task) : Task :=
  mkTask st.(attempt) st.(last_event) st.(resume_from) st.(tail) st.(boot_resume) st.(head_seen)
    st.(pool) st.(sent) (st.(seen) ++ [e]).

Definition set_attempt (a : Z) (st : Task) : Task :=
  mkTask a st.(last_event) st.(resume_from) st.(tail) st.(boot_resume) st.(head_seen) st.(pool)
    st.(sent) st.(seen).

(** Once an open or a bulk phase got to [next], the boot cursor is spent. *)
Definition set_resume (next : Z) (st : Task) : Task :=
  mkTask st.(attempt) st.(last_event) (Some next) st.(tail) None st.(head_seen) st.(pool)
    st.(sent) st.(seen).

Definition set_scan (r : option Z) (t : option DeliveredTail) (st : Task) : Task :=
  mkTask st.(attempt) st.(last_event) r t st.(boot_resume) st.(head_seen) st.(pool) st.(sent)
    st.(seen).

Definition set_last_event (t : Z) (st : Task) : Task :=
  mkTask st.(attempt) (Some t) st.(resume_from) st.(tail) st.(boot_resume) st.(head_seen) st.(pool)
    st.(sent) st.(seen).

(** [tx.send]: [false] when the receiver is gone. *)
Definition send (item : ChainLogItem) (st : Task) : bool * Task :=
  let (ok, p) := pool_send st.(pool) item in
  (ok, mkTask st.(attempt) st.(last_event) st.(resume_from) st.(tail) st.(boot_resume)
         st.(head_seen) p (if ok : bool then st.(sent) ++ [item] else st.(sent)) st.(seen)).

Fixpoint send_logs (logs : list Log) (received : Z) (st : Task) : bool * Task :=
  match logs with
  | [] => (true, st)
  | l :: logs =>
      let (ok, st) := send (ItemLog l received) st in
      if ok : bool then send_logs logs received st else (false, st)
  end.

Definition read_now (st : Task) : Z * Task :=
  let (t, p) := pool_now st.(pool) in (t, set_pool p st).

Definition backoff_pause (src : Source) (st : Task) : Task :=
  let a := u32_sat (st.(attempt) + 1) in
  note (SPause a (backoff_for a src.(seed))) (set_attempt a st).

Definition observe_chain_head (height : Z) (st : Task) : Task :=
  if match st.(head_seen) with None => true | Some h => h <? height end
  then note (SHead height)
         (mkTask st.(attempt) st.(last_event) st.(resume_from) st.(tail) st.(boot_resume)
            (Some height) st.(pool) st.(sent) st.(seen))
  else st.

(** *** Bulk backfill *)

Inductive BulkOutcome : Type := OpenPollerAt (next : Z) | BulkReceiverGone.

(** The [while position < handoff] loop; [a] is its own attempt counter. *)
Fixpoint backfill_loop (fuel : nat) (src : Source) (chunk_blocks handoff position a : Z)
    (st : Task) : option (BulkOutcome * Task) :=
  match fuel with
  | O => None
  | Datatypes.S fuel =>
      if position <? handoff then
        let to := Z.min (position +| (chunk_blocks - 1)) (handoff - 1) in
        let (logs, p) := pool_logs_in_range st.(pool) position to in
        let st := set_pool p st in
        match logs with
        | Some logs =>
            let st := note (SChunk position to logs) st in
            let (received, st) := read_now st in
            let (ok, st) := send_logs logs received st in
            if negb ok then Some (BulkReceiverGone, st)
            else
              let position := to + 1 in
              match src.(cursor_key) with
              | Some _ =>
                  let (ok, st) := send (ItemFrontier position) st in
                  if negb ok then Some (BulkReceiverGone, st)
                  else backfill_loop fuel src chunk_blocks handoff position 0 st
              | None => backfill_loop fuel src chunk_blocks handoff position 0 st
              end
        | None =>
            if BULK_ABANDON_ATTEMPTS <=? a + 1 then Some (OpenPollerAt position, st)
            else
              let a := u32_sat (a + 1) in
              backfill_loop fuel src chunk_blocks handoff position a
                (note (SPause a (backoff_for a src.(seed))) st)
        end
      else Some (OpenPollerAt handoff, st)
  end.

Definition backfill (fuel : nat) (src : Source) (from handoff : Z) (st : Task)
    : option (BulkOutcome * Task) :=
  match pool_log_range st.(pool) with
  | None => Some (OpenPollerAt from, st)
  | Some blocks => backfill_loop fuel src (Z.max blocks 1) handoff from 0 st
  end.

(** The loop that re-enters the bulk phase against a re-read head: the block the
    poller opens at, or nothing once the receiver is gone. *)
Fixpoint bulk_phase (fuel inner : nat) (src : Source) (start bulk_head : Z) (st : Task)
    : option (option Z * Task) :=
  match fuel with
  | O => None
  | Datatypes.S fuel =>
      match bulk_backfill_bounds start bulk_head with
      | None => Some (Some start, st)
      | Some (from, handoff) =>
          match backfill inner src from handoff st with
          | None => None
          | Some (BulkReceiverGone, st) => Some (None, st)
          | Some (OpenPollerAt next, st) =>
              if from <? next then
                let st := set_resume next st in
                if next <? handoff then Some (Some next, st)
                else
                  let (h, p) := pool_head st.(pool) in
                  let st := set_pool p st in
                  match h with
                  | Some new_head =>
                      bulk_phase fuel inner src next new_head (observe_chain_head new_head st)
                  | None => Some (Some next, st)
                  end
              else Some (Some start, st)
          end
      end
  end.

(** *** One pass *)

Inductive PassEnd : Type :=
| Retry (st : Task)
| Pumping (st : Task)
| Terminal (tail_block start : Z) (st : Task)
| ReceiverGone (st : Task).

(** The tail probe: [None] when unconfirmed, else the invalidated tail. *)
Definition probe_tail (st : Task) : option (option Z) * Task :=
  match st.(tail) with
  | None => (Some None, st)
  | Some t =>
      let (r, p) := pool_block_hash st.(pool) t.(t_number) in
      let st := set_pool p st in
      match r with
      | Some (Some hash) =>
          if bool_decide (hash = t.(t_hash)) then (Some None, st) else (Some (Some t.(t_number)), st)
      | Some None | None => (None, st)
      end
  end.

Definition retracted (l : Log) : Log :=
  mkLog l.(log_address) l.(log_topics) l.(log_data) l.(log_block_hash) l.(log_block_number)
    l.(log_block_timestamp) l.(log_transaction_hash) l.(log_transaction_index) l.(log_index) true.

(** The open, and the retraction it owes. *)
Definition open_source (src : Source) (start : Z) (invalidated : option Z) (st : Task) : PassEnd :=
  let (ok, p) := pool_open st.(pool) start in
  let st := set_pool p st in
  if negb ok then Retry (backoff_pause src st)
  else
    let st := if st.(attempt) =? 0 then st else note SReconnect st in
    let st := set_resume start (note (SOpen start) st) in
    match invalidated, st.(tail) with
    | Some _, Some t =>
        let st := set_scan st.(resume_from) None st in
        let (received, st) := read_now st in
        let (ok, st) := send_logs (retracted <$> t.(t_logs)) received st in
        if ok : bool then Pumping st else ReceiverGone st
    | _, _ => Pumping st
    end.

(** From the top of the loop to the pump. *)
Definition pass (fuel inner : nat) (src : Source) (st : Task) : option PassEnd :=
  let (h, p) := pool_head st.(pool) in
  let st := set_pool p st in
  match h with
  | None => Some (Retry (backoff_pause src st))
  | Some head =>
      let st := observe_chain_head head st in
      match probe_tail st with
      | (None, st) => Some (Retry (backoff_pause src st))
      | (Some invalidated, st) =>
          let floor := (fun cap => head -| cap) <$> src.(max_lookback) in
          let start := poller_start_block st.(boot_resume) st.(resume_from) invalidated head floor in
          match invalidated, restates_tail start with
          | Some tail_block, false => Some (Terminal tail_block (start_block start) st)
          | _, _ =>
              let (start, st) :=
                match floor with
                | Some floor =>
                    if negb (restates_tail start) && (start_block start <? floor)
                    then (floor, note (SSkip (start_block start) floor) st)
                    else (start_block start, st)
                | None => (start_block start, st)
                end in
              match invalidated with
              | Some _ => Some (open_source src start invalidated st)
              | None =>
                  match bulk_phase fuel inner src start head st with
                  | None => None
                  | Some (None, st) => Some (ReceiverGone st)
                  | Some (Some start, st) => Some (open_source src start None st)
                  end
              end
          end
      end
  end.

(** *** The pump *)

(** The scan basis and the tail after a batch. *)
Definition scan_batch (b : Batch) (st : Task) : Task :=
  if b.(b_removed) then
    set_scan (Some (match st.(resume_from) with Some r => Z.min r b.(b_number) | None => b.(b_number) end))
      (match st.(tail) with
       | Some t => if b.(b_number) <=? t.(t_number) then None else Some t
       | None => None
       end) st
  else
    let next := b.(b_number) +| 1 in
    set_scan (Some (match st.(resume_from) with Some r => Z.max r next | None => next end))
      (match b.(b_logs) with [] => st.(tail) | _ => Some (mkTail b.(b_number) b.(b_hash) b.(b_logs)) end)
      st.

(** One iteration of [while let Some(item) = inner.next()]. *)
Definition pump_step (src : Source) (st : Task) : PassEnd :=
  let (item, p) := pool_next st.(pool) in
  let st := set_pool p st in
  match item with
  | None => Retry (backoff_pause src st)
  | Some r =>
      let (received, st) := read_now st in
      let (now, st) := read_now st in
      let healthy :=
        (0 <? st.(attempt)) &&
        match st.(last_event) with
        | Some t => HEALTHY_WINDOW <=? duration_since now t
        | None => false
        end in
      let st := if healthy then set_attempt 0 st else st in
      let st := set_last_event now st in
      match r with
      | None => Retry (backoff_pause src st)
      | Some b =>
          let st := observe_chain_head b.(b_number) st in
          let (ok, st) := send_logs b.(b_logs) received st in
          if ok : bool then Pumping (scan_batch b (note (SBatch b.(b_number) b.(b_removed)) st))
          else ReceiverGone st
      end
  end.

(** ** The task as a step relation

    [true] is the pump, [false] the top of the loop. *)

Inductive task_step (src : Source) : bool * Task -> bool * Task -> Prop :=
| ts_open fuel inner st st' :
    pass fuel inner src st = Some (Pumping st') -> task_step src (false, st) (true, st')
| ts_retry fuel inner st st' :
    pass fuel inner src st = Some (Retry st') -> task_step src (false, st) (false, st')
| ts_batch st st' b p :
    (* the canonical stream yields heights in order from its start *)
    pool_next st.(pool) = (Some (Some b), p) ->
    match st.(resume_from) with Some r => b.(b_number) <= r | None => False end ->
    pump_step src st = Pumping st' -> task_step src (true, st) (true, st')
| ts_end st st' :
    pump_step src st = Retry st' -> task_step src (true, st) (false, st').

Definition task_init (initial_cursor : option Z) (p : P) : Task :=
  mkTask 0 None None None initial_cursor None p [] [].
End Task.

Arguments Task P : clear implicits.
Arguments PassEnd P : clear implicits.
