(* ===== verification/ChainLogSafety.v ===== *)
(** * ChainLogSafety: no block is skipped silently

    The theorems about [ChainLog]: a bulk backfill terminates and tiles its
    range; over any run of the task, every open and every fetched chunk starts
    at or below the next unscanned height, except where a lookback cap reports
    the range it skips; a retraction is always followed by a rescan. *)

From stdpp Require Import prelude list strings relations.
From Stdlib Require Import ZArith Lia.
From S2P Require Import Prelude RestartPolicy Dispatch ChainLog.
Local Open Scope rust_scope.
Local Open Scope Z_scope.

(** What the code relies on of the pool: heights are [u64]s. *)
Class PoolLaws (P : Type) `{Pool P} : Prop := {
  head_u64 p h p' : pool_head p = (Some h, p') -> is_u64 h
}.

(** ** Chunks *)

Definition Chunk : Type := Z * Z * list Log.

Definition chunk_of (e : SrcEv) : option Chunk :=
  match e with SChunk f t logs => Some (f, t, logs) | _ => None end.

(** The chunks cover [lo..hi] contiguously, each block once. *)
Fixpoint tiles (lo hi : Z) (cs : list Chunk) : Prop :=
  match cs with
  | [] => lo = hi
  | (f, t, _) :: cs => f = lo /\ lo <= t /\ tiles (t + 1) hi cs
  end.

Lemma tiles_app lo mid hi cs cs' : tiles lo mid cs -> tiles mid hi cs' -> tiles lo hi (cs ++ cs').
Proof.
  revert lo. induction cs as [|[[f t] logs] cs IH]; intros lo; cbn; [by intros ->|].
  intros (-> & ? & ?) ?. auto.
Qed.

Lemma tiles_le lo hi cs : tiles lo hi cs -> lo <= hi.
Proof.
  revert lo. induction cs as [|[[f t] logs] cs IH]; intros lo; cbn; [lia|].
  intros (_ & ? & ?%IH). lia.
Qed.

(** The items with the instants they were stamped at forgotten. *)
Inductive Sent : Type := SentLog (l : Log) | SentFrontier (n : Z).

Definition unstamp (i : ChainLogItem) : Sent :=
  match i with ItemLog l _ => SentLog l | ItemFrontier n => SentFrontier n end.

(** What one chunk sends: its logs, then its frontier when there is a cursor. *)
Definition chunk_sent (key : option text) (c : Chunk) : list Sent :=
  (SentLog <$> c.2) ++ match key with Some _ => [SentFrontier (c.1.2 + 1)] | None => [] end.

Section Facts.
Context {P : Type} `{PoolLaws P}.

(** Fields a helper leaves alone. *)
Definition same_scan (st st' : Task P) : Prop :=
  st'.(resume_from) = st.(resume_from) /\ st'.(tail) = st.(tail) /\
  st'.(boot_resume) = st.(boot_resume).

#[local] Instance same_scan_preorder : PreOrder same_scan.
Proof. split; [done|]. intros a b c (? & ? & ?) (? & ? & ?). repeat split; congruence. Qed.

Lemma send_spec item (st : Task P) ok st' :
  send item st = (ok, st') ->
  same_scan st st' /\ st'.(seen) = st.(seen) /\
  st'.(sent) = st.(sent) ++ (if ok then [item] else []).
Proof.
  unfold send. destruct (pool_send (pool st) item) as [b p]. intros [= <- <-]. cbn.
  split; [done|]. split; [done|]. destruct b; [done|]. by rewrite app_nil_r.
Qed.

Lemma send_logs_spec logs received (st : Task P) ok st' :
  send_logs logs received st = (ok, st') ->
  same_scan st st' /\ st'.(seen) = st.(seen) /\
  (ok = true -> st'.(sent) = st.(sent) ++ ((fun l => ItemLog l received) <$> logs)).
Proof.
  revert st. induction logs as [|l logs IH]; intros st; cbn [send_logs].
  - intros [= <- <-]. rewrite app_nil_r. done.
  - destruct (send (ItemLog l received) st) as [b st1] eqn:Es.
    destruct (send_spec _ _ _ _ Es) as (Hs & Hn & Ht). destruct b.
    + intros E. destruct (IH st1 E) as (Hs' & Hn' & Ht'). split; [by etrans|].
      split; [congruence|]. intros Hok. rewrite Ht', Ht, <- app_assoc by done. done.
    + intros [= <- <-]. done.
Qed.

Lemma read_now_spec (st : Task P) t st' :
  read_now st = (t, st') ->
  same_scan st st' /\ st'.(seen) = st.(seen) /\ st'.(sent) = st.(sent) /\
  st'.(attempt) = st.(attempt) /\ st'.(last_event) = st.(last_event).
Proof. unfold read_now. destruct (pool_now _). intros [= <- <-]. done. Qed.

Definition bulk_ev (e : SrcEv) : bool :=
  match e with SChunk _ _ _ | SPause _ _ => true | _ => false end.

(** Enough for every chunk to fail as often as it may. *)
Definition backfill_fuel (position handoff a : Z) : Z := 5 * (handoff - position) + (4 - a).

(** ** Bulk backfill *)

Lemma backfill_loop_spec fuel src chunk handoff position a (st : Task P) :
  1 <= chunk -> position <= handoff -> is_u64 handoff -> 0 <= a <= 4 ->
  match backfill_loop fuel src chunk handoff position a st with
  | None => Z.of_nat fuel <= backfill_fuel position handoff a
  | Some (o, st') =>
      same_scan st st' /\
      exists evs, st'.(seen) = st.(seen) ++ evs /\ Forall (fun e => bulk_ev e = true) evs /\
        match o with
        | BulkReceiverGone => exists p, tiles position p (omap chunk_of evs) /\ p <= handoff
        | OpenPollerAt p =>
            tiles position p (omap chunk_of evs) /\ p <= handoff /\
            unstamp <$> st'.(sent) =
              (unstamp <$> st.(sent)) ++ flat_map (chunk_sent src.(cursor_key)) (omap chunk_of evs)
        end
  end.
Proof.
  intros Hchunk. revert position a st. induction fuel as [|fuel IH]; intros position a st Hp Hh Ha.
  { cbn. unfold backfill_fuel. lia. }
  cbn [backfill_loop]. destruct (Z.ltb_spec position handoff) as [Hlt|Hge].
  2: { split; [done|]. exists []. rewrite app_nil_r. split; [done|]. split; [constructor|].
       cbn. rewrite app_nil_r. split; [lia|]. split; [lia|done]. }
  set (to := Z.min (u64_sat (position + (chunk - 1))) (handoff - 1)).
  assert (position <= to <= handoff - 1) as Hto.
  { unfold to, u64_sat, is_u64 in *. lia. }
  destruct (pool_logs_in_range (pool st) position to) as [[logs|] p].
  - set (st1 := note (SChunk position to logs) (set_pool p st)).
    destruct (read_now st1) as [received st2] eqn:E2.
    destruct (read_now_spec _ _ _ E2) as (S2 & N2 & T2 & _).
    destruct (send_logs logs received st2) as [ok st3] eqn:E3.
    destruct (send_logs_spec _ _ _ _ _ E3) as (S3 & N3 & T3).
    assert (same_scan st st3) as S03 by (do 2 (etrans; [|eassumption]); done).
    assert (seen st3 = seen st ++ [SChunk position to logs]) as N03 by (by rewrite N3, N2).
    destruct ok; cbn [negb].
    2: { split; [done|]. exists [SChunk position to logs]. split; [done|]. split; [by repeat constructor|].
         exists (to + 1). cbn. repeat split; lia. }
    specialize (T3 eq_refl).
    assert (forall st4 fr, same_scan st3 st4 -> seen st4 = seen st3 ->
      sent st4 = sent st3 ++ fr ->
      unstamp <$> fr = match cursor_key src with Some _ => [SentFrontier (to + 1)] | None => [] end ->
      match backfill_loop fuel src chunk handoff (to + 1) 0 st4 with
      | None => Z.of_nat (S fuel) <= backfill_fuel position handoff a
      | Some (o, st') =>
          same_scan st st' /\
          exists evs, seen st' = seen st ++ evs /\ Forall (fun e => bulk_ev e = true) evs /\
            match o with
            | BulkReceiverGone => exists p, tiles position p (omap chunk_of evs) /\ p <= handoff
            | OpenPollerAt p =>
                tiles position p (omap chunk_of evs) /\ p <= handoff /\
                unstamp <$> sent st' =
                  (unstamp <$> sent st) ++ flat_map (chunk_sent (cursor_key src)) (omap chunk_of evs)
            end
      end) as Hgo.
    { intros st4 fr S4 N4 T4 Hfr. specialize (IH (to + 1) 0 st4 ltac:(lia) Hh ltac:(lia)).
      destruct (backfill_loop fuel src chunk handoff (to + 1) 0 st4) as [[o st']|].
      2: { unfold backfill_fuel in *. lia. }
      destruct IH as (S' & evs & N' & Hb & Ho). split; [etrans; [exact S03|]; by etrans|].
      exists (SChunk position to logs :: evs). split; [by rewrite N', N4, N03, <- app_assoc|].
      split; [by constructor|]. destruct o as [p'|].
      - destruct Ho as (Ht & Hle & Hs). cbn. split; [repeat split; [lia|done]|]. split; [done|].
        rewrite Hs, T4, T3, T2, !fmap_app, Hfr. unfold chunk_sent. cbn.
        rewrite <- list_fmap_compose. rewrite <- !app_assoc. done.
      - destruct Ho as (p' & Ht & Hle). exists p'. cbn. repeat split; [lia|done|done]. }
    destruct (cursor_key src) as [key|] eqn:Ek.
    + destruct (send (ItemFrontier (to + 1)) st3) as [ok st4] eqn:E4.
      destruct (send_spec _ _ _ _ E4) as (S4 & N4 & T4). destruct ok; cbn [negb].
      * by eapply Hgo.
      * split; [by etrans|]. exists [SChunk position to logs]. split; [by rewrite N4|].
        split; [by repeat constructor|]. exists (to + 1). cbn. repeat split; lia.
    + apply (Hgo st3 []); try done. by rewrite app_nil_r.
  - destruct (Z.leb_spec BULK_ABANDON_ATTEMPTS (a + 1)) as [Hab|Hab].
    + split; [done|]. exists []. rewrite app_nil_r. split; [done|]. split; [constructor|].
      cbn. rewrite app_nil_r. done.
    + unfold BULK_ABANDON_ATTEMPTS in Hab. replace (u32_sat (a + 1)) with (a + 1)
        by (unfold u32_sat, u32_max; lia).
      set (st1 := note _ (set_pool p st)).
      specialize (IH position (a + 1) st1 Hp Hh ltac:(lia)).
      destruct (backfill_loop fuel src chunk handoff position (a + 1) st1) as [[o st']|].
      2: { unfold backfill_fuel in *. lia. }
      destruct IH as (S' & evs & N' & Hb & Ho). split; [done|].
      eexists (_ :: evs). split; [rewrite N'; cbn; by rewrite <- app_assoc|].
      split; [by constructor|]. exact Ho.
Qed.


(** ** Scanning without gaps *)

(** The next unscanned height after an event, from [c]; [None] is a gap. *)
Definition scan_ev (c : option Z) (e : SrcEv) : option (option Z) :=
  let within s := match c with Some x => s <=? x | None => true end in
  match e with
  | SChunk f t _ => if within f then Some (Some (t + 1)) else None
  | SSkip f t => if within f then Some (Some t) else None
  | SOpen s => if within s then Some (Some s) else None
  | SBatch n true => Some (Some (match c with Some x => Z.min x n | None => n end))
  | SBatch n false =>
      match c with
      | Some x => if n <=? x then Some (Some (Z.max x (n +| 1))) else None
      | None => None
      end
  | SHead _ | SPause _ _ | SReconnect => Some c
  end.

Fixpoint scan (c : option Z) (evs : list SrcEv) : option (option Z) :=
  match evs with
  | [] => Some c
  | e :: evs => match scan_ev c e with Some c' => scan c' evs | None => None end
  end.

Lemma scan_app c evs evs' c' :
  scan c evs = Some c' -> scan c (evs ++ evs') = scan c' evs'.
Proof.
  revert c. induction evs as [|e evs IH]; intros c; cbn; [by intros [= ->]|].
  destruct (scan_ev c e); [|done]. apply IH.
Qed.

(** Where the task would resume. *)
Definition cov (st : Task P) : option Z :=
  match st.(boot_resume) with Some c => Some c | None => st.(resume_from) end.

Definition at_most (a b : option Z) : Prop :=
  match a, b with Some x, Some y => x <= y | None, None => True | _, _ => False end.

(** The task never resumes past what it scanned, and a delivered tail is not
    above where it would resume. *)
Definition task_inv (c0 : option Z) (st : Task P) : Prop :=
  (exists c, scan c0 st.(seen) = Some c /\ at_most (cov st) c) /\
  (forall t, st.(tail) = Some t ->
     st.(boot_resume) = None /\ exists r, st.(resume_from) = Some r /\ t.(t_number) <= r).

Lemma scan_tiles lo hi evs x :
  Forall (fun e => bulk_ev e = true) evs -> tiles lo hi (omap chunk_of evs) -> lo <= x ->
  exists x', scan (Some x) evs = Some (Some x') /\ hi <= x'.
Proof.
  intros Hb. revert lo x. induction Hb as [|e evs He _ IH]; intros lo x; cbn.
  - intros -> ?. by exists x.
  - destruct e as [|f t logs| | | |a b|]; try done; cbn.
    + intros (-> & ? & Ht) Hle. rewrite (proj2 (Z.leb_le lo x)) by done.
      apply (IH _ _ Ht). lia.
    + apply IH.
Qed.

Lemma tiles_nil lo cs : tiles lo lo cs -> cs = [].
Proof. destruct cs as [|[[f t] l] cs]; [done|]. cbn. intros (-> & ? & Ht). apply tiles_le in Ht. lia. Qed.

Lemma scan_quiet c evs :
  Forall (fun e => bulk_ev e = true) evs -> omap chunk_of evs = [] -> scan c evs = Some c.
Proof.
  intros Hb. induction Hb as [|e evs He _ IH]; [done|]. by destruct e.
Qed.

(** Events that do not move the scan. *)
Definition still (e : SrcEv) : bool :=
  match e with SHead _ | SPause _ _ | SReconnect => true | _ => false end.

Lemma scan_still c evs : Forall (fun e => still e = true) evs -> scan c evs = Some c.
Proof. induction 1 as [|e evs He _ IH]; [done|]. by destruct e. Qed.

(** Bookkeeping that moves neither the scan nor the resume point. *)
Definition idles (st st' : Task P) : Prop :=
  same_scan st st' /\
  exists evs, st'.(seen) = st.(seen) ++ evs /\ Forall (fun e => still e = true) evs.

#[local] Instance idles_preorder : PreOrder idles.
Proof.
  split.
  - intros st. split; [done|]. exists []. rewrite app_nil_r. split; [done | constructor].
  - intros a b c (S1 & e1 & N1 & Q1) (S2 & e2 & N2 & Q2). split; [by etrans|].
    exists (e1 ++ e2). split; [by rewrite N2, N1, app_assoc | by apply Forall_app].
Qed.

Lemma idles_scan c0 st st' c : idles st st' -> scan c0 st.(seen) = Some c -> scan c0 st'.(seen) = Some c.
Proof. intros (_ & evs & -> & Hq) Hc. rewrite (scan_app _ _ _ _ Hc). by apply scan_still. Qed.

Lemma idles_inv c0 st st' : idles st st' -> task_inv c0 st -> task_inv c0 st'.
Proof.
  intros Hi [(c & Hc & Hle) Ht]. pose proof Hi as ((Hr & Htl & Hb) & _). split.
  - exists c. split; [by eapply idles_scan|]. unfold cov. by rewrite Hr, Hb.
  - rewrite Htl, Hr, Hb. done.
Qed.

Lemma idles_set_pool p st : idles st (set_pool p st).
Proof. split; [done|]. exists []. rewrite app_nil_r. split; [done | constructor]. Qed.

Lemma idles_pause src st : idles st (backoff_pause src st).
Proof. split; [done|]. eexists. split; [reflexivity|]. by repeat constructor. Qed.

Lemma idles_head h st : idles st (observe_chain_head h st).
Proof.
  unfold observe_chain_head. destruct (match head_seen st with None => true | Some x => x <? h end);
    [|reflexivity].
  split; [done|]. eexists. split; [reflexivity|]. by repeat constructor.
Qed.

Lemma idles_read_now st t st' : read_now st = (t, st') -> idles st st'.
Proof.
  intros (Hs & Hn & _)%read_now_spec. split; [done|]. exists []. rewrite app_nil_r.
  split; [done | constructor].
Qed.

Lemma idles_send_logs logs r st ok st' : send_logs logs r st = (ok, st') -> idles st st'.
Proof.
  intros (Hs & Hn & _)%send_logs_spec. split; [done|]. exists []. rewrite app_nil_r.
  split; [done | constructor].
Qed.

Lemma bulk_phase_spec fuel inner src start bulk_head (st st' : Task P) r c0 c :
  is_u64 bulk_head -> scan c0 st.(seen) = Some c ->
  match c with Some x => start <= x | None => bulk_head <= start end ->
  bulk_phase fuel inner src start bulk_head st = Some (Some r, st') ->
  exists c', scan c0 st'.(seen) = Some c' /\ st'.(tail) = st.(tail) /\
    ((same_scan st st' /\ r = start /\ c' = c) \/
     (st'.(boot_resume) = None /\ st'.(resume_from) = Some r /\ start < r /\
      exists x, c' = Some x /\ r <= x)).
Proof.
  revert start bulk_head st c. induction fuel as [|fuel IH]; intros start bulk_head st c Hu Hc Hs; [done|].
  cbn [bulk_phase]. unfold bulk_backfill_bounds.
  destruct (Z.ltb_spec start (bulk_head -| MAX_REORG_DEPTH)) as [Hlt|Hge].
  2: { intros [= <- <-]. exists c. split; [done|]. split; [done|]. by left. }
  destruct c as [x|]; [|unfold sat_sub, MAX_REORG_DEPTH in Hlt; unfold is_u64 in Hu; lia].
  set (handoff := bulk_head -| MAX_REORG_DEPTH) in *.
  assert (is_u64 handoff) as Hhu by (unfold handoff, is_u64, sat_sub, MAX_REORG_DEPTH in *; lia).
  assert (forall o st1, backfill inner src start handoff st = Some (o, st1) ->
    same_scan st st1 /\ exists evs, st1.(seen) = st.(seen) ++ evs /\
      Forall (fun e => bulk_ev e = true) evs /\
      match o with OpenPollerAt p => tiles start p (omap chunk_of evs) | BulkReceiverGone => True end) as Hbf.
  { intros o st1. unfold backfill. destruct (pool_log_range (pool st)) as [blocks|].
    - pose proof (backfill_loop_spec inner src (Z.max blocks 1) handoff start 0 st
                    ltac:(lia) ltac:(lia) Hhu ltac:(lia)) as Hb.
      intros E. rewrite E in Hb. destruct Hb as (Hsame & evs & Hn & Hb & Ho). split; [done|].
      exists evs. do 2 (split; [done|]). destruct o; tauto.
    - intros [= <- <-]. split; [done|]. exists []. rewrite app_nil_r. split; [done|].
      by split; [constructor|]. }
  destruct (backfill inner src start handoff st) as [[[next|] st1]|]; [|done|done].
  destruct (Hbf _ _ eq_refl) as ((Hr1 & Ht1 & Hb1) & evs & Hn & Hb & Ht). clear Hbf.
  destruct (Z.ltb_spec start next) as [Hadv|Hno].
  2: { intros [= <- <-]. pose proof (tiles_le _ _ _ Ht). assert (next = start) as -> by lia.
       exists (Some x). rewrite Hn, (scan_app _ _ _ _ Hc).
       rewrite scan_quiet by (done || by eapply tiles_nil). split; [done|]. split; [done|]. by left. }
  destruct (scan_tiles _ _ _ x Hb Ht Hs) as (x' & Hx' & Hle').
  assert (scan c0 (seen (set_resume next st1)) = Some (Some x')) as Hc1.
  { cbn. by rewrite Hn, (scan_app _ _ _ _ Hc). }
  destruct (next <? handoff).
  { intros [= <- <-]. exists (Some x'). split; [done|]. split; [done|]. right.
    repeat split; [done|]. by exists x'. }
  destruct (pool_head (pool (set_resume next st1))) as [h p] eqn:Eh. destruct h as [new_head|].
  2: { intros [= <- <-]. exists (Some x'). split; [done|]. split; [done|]. right.
       repeat split; [done|]. by exists x'. }
  set (st2 := observe_chain_head new_head (set_pool p (set_resume next st1))).
  assert (idles (set_resume next st1) st2) as Hi.
  { etrans; [apply idles_set_pool | apply idles_head]. }
  intros Eb. destruct (IH next new_head st2 (Some x')) as (c' & Hc' & Ht' & Hor); try done.
  - by eapply head_u64.
  - by eapply idles_scan.
  - exists c'. destruct Hi as ((Hir & Hit & Hib) & _). split; [done|].
    split; [by rewrite Ht', Hit|]. right. destruct Hor as [((Hsr & _ & Hsb) & -> & ->)|(? & ? & ? & Hx)].
    + rewrite Hsr, Hsb, Hir, Hib. split; [done|]. split; [done|]. split; [lia|]. by exists x'.
    + split; [done|]. split; [done|]. split; [lia | done].
Qed.

(** ** The invariant over a pass *)

(** What a pass may leave: the invariant, unless the task ended. *)
Definition pass_ok (c0 : option Z) (e : PassEnd P) : Prop :=
  match e with Retry st | Pumping st => task_inv c0 st | Terminal _ _ _ | ReceiverGone _ => True end.

(** The open: from a start within the scan, at or past the basis unless it
    retracts the tail. *)
Lemma open_source_ok c0 src start inv (st : Task P) c :
  scan c0 st.(seen) = Some c -> match c with Some x => start <= x | None => True end ->
  (task_inv c0 st) ->
  (inv = None -> forall t, st.(tail) = Some t -> t.(t_number) <= start) ->
  pass_ok c0 (open_source src start inv st).
Proof.
  intros Hc Hs Hinv Htl. unfold open_source.
  destruct (pool_open (pool st) start) as [ok p]. destruct ok; cbn [negb].
  2: { cbn. eapply idles_inv; [|exact Hinv]. etrans; [apply idles_set_pool | apply idles_pause]. }
  set (st1 := if attempt (set_pool p st) =? 0 then set_pool p st else note SReconnect (set_pool p st)).
  assert (idles st st1) as Hi1.
  { unfold st1. destruct (attempt (set_pool p st) =? 0); [apply idles_set_pool|].
    etrans; [apply idles_set_pool|]. split; [done|]. eexists. split; [reflexivity|]. by repeat constructor. }
  set (st2 := set_resume start (note (SOpen start) st1)).
  assert (scan c0 (seen st2) = Some (Some start)) as Hc2.
  { cbn. rewrite (scan_app _ _ _ c) by (by eapply idles_scan). cbn.
    destruct c as [x|]; [|done]. by rewrite (proj2 (Z.leb_le start x)). }
  assert (tail st2 = tail st) as Ht2 by (by destruct Hi1 as ((_ & ? & _) & _)).
  assert (forall st3, resume_from st3 = Some start -> boot_resume st3 = None -> seen st3 = seen st2 ->
            (forall t, tail st3 = Some t -> t.(t_number) <= start) -> task_inv c0 st3) as Hdone.
  { intros st3 Hr Hb Hn Ht. split.
    - exists (Some start). split; [by rewrite Hn|]. unfold cov. rewrite Hb, Hr. cbn. lia.
    - intros t Et. split; [done|]. exists start. split; [done|]. by apply Ht. }
  destruct inv as [tb|].
  - destruct (tail st2) as [t|] eqn:Et.
    + set (st3 := set_scan (resume_from st2) None st2).
      destruct (read_now st3) as [received st4] eqn:E4.
      destruct (send_logs (retracted <$> t_logs t) received st4) as [ok st5] eqn:E5.
      destruct (read_now_spec _ _ _ E4) as ((R4 & T4 & B4) & N4 & _).
      destruct (send_logs_spec _ _ _ _ _ E5) as ((R5 & T5 & B5) & N5 & _).
      destruct ok; [|done]. apply Hdone.
      * by rewrite R5, R4.
      * by rewrite B5, B4.
      * by rewrite N5, N4.
      * intros t'. by rewrite T5, T4.
    + cbn. apply Hdone; try done. intros t. by rewrite Et.
  - cbn. apply Hdone; try done. intros t. cbn. rewrite <- Ht2 in Htl. by apply Htl.
Qed.

Lemma probe_tail_idles (st st' : Task P) r : probe_tail st = (r, st') -> idles st st'.
Proof.
  unfold probe_tail. destruct (tail st) as [t|]; [|by intros [= <- <-]].
  destruct (pool_block_hash (pool st) (t_number t)) as [[[hash|]|] p];
    repeat case_bool_decide; intros [= <- <-]; apply idles_set_pool.
Qed.

Lemma probe_tail_invalid (st st' : Task P) n :
  probe_tail st = (Some (Some n), st') -> exists t, st.(tail) = Some t /\ t.(t_number) = n.
Proof.
  unfold probe_tail. destruct (tail st) as [t|]; [|by intros [= ? ?]].
  destruct (pool_block_hash (pool st) (t_number t)) as [[[hash|]|] p]; [|done|done].
  case_bool_decide; [done|]. intros [= <- _]. by exists t.
Qed.

(** The start of a pass, before any lookback cap: at or below the resume point,
    and exactly there unless a tail is restated. *)
Lemma start_block_spec boot resume inv head floor :
  let s := poller_start_block boot resume inv head floor in
  (restates_tail s = true -> inv = Some (start_block s) /\ boot = None) /\
  (restates_tail s = false -> inv = None ->
     match boot with
     | Some c => start_block s = Z.min c head
     | None => start_block s = default head resume
     end).
Proof.
  unfold poller_start_block. destruct boot as [c|]; cbn; [done|].
  destruct inv as [tb|]; [|done]. case_match; cbn; [done|]. by split.
Qed.

Definition source_ok (src : Source) : Prop :=
  forall cap, src.(max_lookback) = Some cap -> 0 <= cap.

Lemma pass_inv fuel inner c0 src (st : Task P) e :
  source_ok src -> task_inv c0 st -> pass fuel inner src st = Some e -> pass_ok c0 e.
Proof.
  intros Hsrc Hinv. unfold pass. destruct (pool_head (pool st)) as [[head|] p] eqn:Eh.
  2: { intros [= <-]. cbn. eapply idles_inv; [|exact Hinv].
       etrans; [apply idles_set_pool | apply idles_pause]. }
  assert (is_u64 head) as Hu by (by eapply head_u64).
  set (st1 := observe_chain_head head (set_pool p st)).
  assert (idles st st1) as Hi1 by (etrans; [apply idles_set_pool | apply idles_head]).
  destruct (probe_tail st1) as [[inv|] st2] eqn:Ep.
  2: { intros [= <-]. cbn. eapply idles_inv; [|exact Hinv].
       etrans; [exact Hi1|]. etrans; [by eapply probe_tail_idles | apply idles_pause]. }
  assert (task_inv c0 st2) as Hinv2.
  { eapply idles_inv; [|exact Hinv]. etrans; [exact Hi1|]. by eapply probe_tail_idles. }
  assert (forall n, inv = Some n -> exists t, tail st2 = Some t /\ t_number t = n) as Hinval.
  { intros n ->. destruct (probe_tail_invalid _ _ _ Ep) as (t & Et & En). exists t. split; [|done].
    pose proof (probe_tail_idles _ _ _ Ep) as ((_ & -> & _) & _). done. }
  clear Ep Hi1 Hinv. clearbody st1.
  set (floor := _ <$> max_lookback src).
  assert (forall fl, floor = Some fl -> fl <= head) as Hfloor.
  { unfold floor. destruct (max_lookback src) as [cap|] eqn:Ecap; [|done]. intros fl [= <-].
    specialize (Hsrc cap Ecap). unfold is_u64 in Hu. unfold sat_sub. lia. }
  clearbody floor.
  set (s := poller_start_block (boot_resume st2) (resume_from st2) inv head floor).
  destruct (start_block_spec (boot_resume st2) (resume_from st2) inv head floor) as [Hrest Hplain].
  fold s in Hrest, Hplain.
  pose proof Hinv2 as [(c & Hc & Hle) Htl].
  destruct inv as [n|].
  - (* the tail was invalidated *)
    destruct (restates_tail s) eqn:Er; [|by intros [= <-]].
    destruct (Hrest eq_refl) as [[= En] Hb]. destruct (Hinval n eq_refl) as (t & Et & Etn).
    destruct (Htl t Et) as (_ & r & Hr & Hlt).
    assert (cov st2 = Some r) as Hcov by (unfold cov; by rewrite Hb).
    rewrite Hcov in Hle. destruct c as [x|]; [|done]. cbn in Hle.
    assert (forall o : option Z, (match o with
             | Some fl => if negb true && (start_block s <? fl)
                          then (fl, note (SSkip (start_block s) fl) st2) else (start_block s, st2)
             | None => (start_block s, st2) end) = (start_block s, st2)) as Hfl by (by intros []).
    rewrite Hfl. intros [= <-]. eapply open_source_ok; [exact Hc | cbn; lia | done | done].
  - (* nothing to restate *)
    assert (restates_tail s = false) as Er.
    { destruct (restates_tail s); [|done]. by destruct (Hrest eq_refl) as [? _]. }
    specialize (Hplain Er eq_refl). rewrite Er.
    set (pr := match floor with Some fl => _ | None => _ end).
    assert (exists start st3 c3, pr = (start, st3) /\ scan c0 (seen st3) = Some c3 /\
              task_inv c0 st3 /\ same_scan st2 st3 /\
              match c3 with Some x => start <= x | None => head <= start end /\
              (forall r, boot_resume st2 = None -> resume_from st2 = Some r -> r <= start))
      as (start & st3 & c3 & -> & Hc3 & Hinv3 & Hsame & Hwithin & Hbasis).
    { assert (match c with Some x => start_block s <= x | None => head <= start_block s end) as Hw.
      { unfold cov in Hle. destruct (boot_resume st2) as [b|].
        - rewrite Hplain. destruct c as [x|]; [cbn in Hle; lia | done].
        - rewrite Hplain. destruct (resume_from st2) as [r|], c as [x|]; cbn in *; done || lia. }
      assert (forall r, boot_resume st2 = None -> resume_from st2 = Some r -> r <= start_block s) as Hr0.
      { intros r Hb Hr. rewrite Hb in Hplain. rewrite Hplain, Hr. cbn. lia. }
      unfold pr. destruct floor as [fl|]; [|by exists (start_block s), st2, c].
      cbn [negb andb]. destruct (Z.ltb_spec (start_block s) fl) as [Hlt|Hge];
        [|by exists (start_block s), st2, c].
      exists fl, (note (SSkip (start_block s) fl) st2), (Some fl).
      assert (match c with Some x => start_block s <=? x | None => true end = true) as Hw'
        by (destruct c; [by apply Z.leb_le | done]).
      split; [done|]. assert (scan c0 (seen (note (SSkip (start_block s) fl) st2)) = Some (Some fl)) as Hsc.
      { cbn. rewrite (scan_app _ _ _ _ Hc). cbn. by rewrite Hw'. }
      split; [done|]. split; [|split; [done|split; [lia|]]].
      - split; [|done]. exists (Some fl). split; [done|]. change (cov (note _ st2)) with (cov st2).
        specialize (Hfloor fl eq_refl). unfold cov in *. destruct (boot_resume st2) as [b|].
        + cbn. lia.
        + destruct (resume_from st2) as [r|]; cbn in *; lia.
      - intros r Hb Hr. specialize (Hr0 r Hb Hr). lia. }
    destruct (bulk_phase fuel inner src start head st3) as [[[r|] st4]|] eqn:Ebk; [|by intros [= <-]|done].
    intros [= <-].
    destruct (bulk_phase_spec _ _ _ _ _ _ _ _ _ _ Hu Hc3 Hwithin Ebk) as (c4 & Hc4 & Ht4 & Hor).
    destruct Hsame as (Hr3 & Ht3 & Hb3).
    assert (forall t, tail st4 = Some t -> t_number t <= start) as Htail.
    { intros t Et. rewrite Ht4, Ht3 in Et. destruct (Htl t Et) as (Hb & r0 & Hr & ?).
      specialize (Hbasis r0 Hb Hr). lia. }
    destruct Hor as [((Hr4 & _ & Hb4) & -> & ->) | (Hb4 & Hr4 & Hlt & x & -> & Hx)].
    + eapply open_source_ok; [exact Hc4 | by destruct c3 | | by intros _].
      destruct Hinv3 as [(c' & Hc' & Hle') Htl3]. rewrite Hc3 in Hc'. injection Hc' as <-. split.
      * exists c3. split; [done|]. unfold cov in *. by rewrite Hb4, Hr4.
      * intros t Et. rewrite Hb4, Hr4. apply Htl3. by rewrite <- Ht4.
    + eapply open_source_ok; [exact Hc4 | done | |].
      * split; [exists (Some x); split; [done|]; unfold cov; by rewrite Hb4, Hr4|].
        intros t Et. split; [done|]. exists r. split; [done|]. specialize (Htail t Et). lia.
      * intros _ t Et. specialize (Htail t Et). lia.
Qed.

(** ** The invariant over the pump *)

Lemma pump_inv c0 src (st : Task P) :
  task_inv c0 st -> st.(boot_resume) = None ->
  (forall b p, pool_next st.(pool) = (Some (Some b), p) ->
     match st.(resume_from) with Some r => b.(b_number) <= r | None => False end) ->
  pass_ok c0 (pump_step src st) /\
  (forall st', pump_step src st = Pumping st' -> st'.(boot_resume) = None).
Proof.
  intros Hinv Hboot Horder. unfold pump_step.
  destruct (pool_next (pool st)) as [[r|] p] eqn:En.
  2: { split; [|done]. cbn. eapply idles_inv; [|exact Hinv].
       etrans; [apply idles_set_pool | apply idles_pause]. }
  destruct (read_now (set_pool p st)) as [received st1] eqn:E1.
  destruct (read_now st1) as [now st2] eqn:E2.
  set (st3 := set_last_event now _).
  assert (idles st st3) as Hi.
  { etrans; [apply (idles_set_pool p)|]. etrans; [by eapply idles_read_now|].
    etrans; [by eapply idles_read_now|]. unfold st3.
    assert (forall s : Task P, idles s (set_last_event now s)) as Hle.
    { intros s. split; [done|]. exists []. rewrite app_nil_r. split; [done | constructor]. }
    assert (forall s : Task P, idles s (set_attempt 0 s)) as Hat.
    { intros s. split; [done|]. exists []. rewrite app_nil_r. split; [done | constructor]. }
    destruct (_ && _); [etrans; [apply Hat | apply Hle] | apply Hle]. }
  clearbody st3. clear E1 E2. destruct r as [b|].
  2: { split; [|done]. cbn. eapply idles_inv; [|exact Hinv]. etrans; [exact Hi | apply idles_pause]. }
  destruct (send_logs (b_logs b) received (observe_chain_head (b_number b) st3)) as [ok st4] eqn:Es.
  assert (idles st st4) as Hi4.
  { etrans; [exact Hi|]. etrans; [apply idles_head | by eapply idles_send_logs]. }
  destruct ok; [|split; done]. pose proof (idles_inv c0 _ _ Hi4 Hinv) as [(c & Hc & Hle) Ht].
  destruct Hi4 as ((Hr4 & _ & Hb4) & _). rewrite Hboot in Hb4.
  specialize (Horder b p eq_refl). rewrite <- Hr4 in Horder.
  destruct (resume_from st4) as [r|] eqn:Er; [|done].
  unfold cov in Hle. rewrite Hb4, Er in Hle. destruct c as [x|]; [|done]. cbn in Hle.
  cbn [pass_ok]. unfold scan_batch. destruct (b_removed b) eqn:Erm; cbn; rewrite ?Er.
  - split; [|by intros st' [= <-]]. split.
    + exists (Some (Z.min x (b_number b))). cbn. rewrite (scan_app _ _ _ _ Hc). cbn.
      split; [done|]. unfold cov. cbn. rewrite Hb4. cbn. lia.
    + cbn. intros t Et. split; [done|]. eexists. split; [done|].
      destruct (tail st4) as [t0|] eqn:Et0; [|done].
      destruct (Z.leb_spec (b_number b) (t_number t0)); [done|]. injection Et as <-.
      destruct (Ht t0 eq_refl) as (_ & r' & Hr' & ?). injection Hr' as <-. lia.
  - split; [|by intros st' [= <-]]. split.
    + exists (Some (Z.max x (b_number b +| 1))). cbn. rewrite (scan_app _ _ _ _ Hc). cbn.
      rewrite (proj2 (Z.leb_le (b_number b) x)) by lia.
      split; [done|]. unfold cov. cbn. rewrite Hb4. cbn. lia.
    + cbn. intros t Et. split; [done|]. eexists. split; [done|].
      destruct (b_logs b) as [|l0 logs].
      * destruct (Ht t Et) as (_ & r' & Hr' & ?). injection Hr' as <-. lia.
      * injection Et as <-. cbn. unfold u64_sat, is_u64 in *. lia.
Qed.

Lemma pass_pumping fuel inner src (st st' : Task P) :
  pass fuel inner src st = Some (Pumping st') -> st'.(boot_resume) = None.
Proof.
  assert (forall start inv s1 s2, open_source src start inv s1 = Pumping s2 ->
            s2.(boot_resume) = None) as Hopen.
  { intros start inv s1 s2. unfold open_source. destruct (pool_open _ _) as [[] p]; [|done].
    cbn [negb]. set (s3 := set_resume start _). destruct inv as [n|]; [|by intros [= <-]].
    destruct (tail s3) as [t|]; [|by intros [= <-]].
    destruct (read_now _) as [received s4] eqn:E4. destruct (send_logs _ _ s4) as [[] s5] eqn:E5; [|done].
    intros [= <-]. destruct (read_now_spec _ _ _ E4) as ((_ & _ & B4) & _).
    destruct (send_logs_spec _ _ _ _ _ E5) as ((_ & _ & B5) & _). by rewrite B5, B4. }
  unfold pass. destruct (pool_head (pool st)) as [[head|] p]; [|done].
  destruct (probe_tail _) as [[inv|] s2]; [|done]. set (pr := match _ <$> _ with Some _ => _ | None => _ end).
  destruct pr as [start s3].
  destruct inv as [n|].
  - destruct (restates_tail _); [|done]. intros [= E]. by eapply Hopen.
  - destruct (bulk_phase fuel inner src start head s3) as [[[r|] s4]|]; [|done|done].
    intros [= E]. by eapply Hopen.
Qed.

Lemma task_steps_inv c0 src c c' :
  source_ok src -> rtc (task_step src) c c' -> task_inv c0 c.2 ->
  (c.1 = true -> c.2.(boot_resume) = None) ->
  task_inv c0 c'.2 /\ (c'.1 = true -> c'.2.(boot_resume) = None).
Proof.
  intros Hsrc. induction 1 as [c | c1 c2 c3 Hstep _ IH]; [done|]. intros Hinv Hb.
  enough (task_inv c0 c2.2 /\ (c2.1 = true -> c2.2.(boot_resume) = None)) as [? ?] by auto.
  clear IH. inversion Hstep as [fuel inner st st' E | fuel inner st st' E | st st' b p En Hord E | st st' E];
    subst; cbn [fst snd] in *.
  - split; [by apply (pass_inv fuel inner c0 src st _ Hsrc Hinv E)|]. intros _. by eapply pass_pumping.
  - split; [by apply (pass_inv fuel inner c0 src st _ Hsrc Hinv E) | done].
  - assert (forall b' p', pool_next (pool st) = (Some (Some b'), p') ->
              match resume_from st with Some r => b_number b' <= r | None => False end) as Ho.
    { intros b' p' E'. rewrite En in E'. by injection E' as <- <-. }
    destruct (pump_inv c0 src st Hinv (Hb eq_refl) Ho) as [Hok Hbn]. rewrite E in Hok.
    split; [exact Hok|]. intros _. by apply Hbn.
  - split; [|done].
    destruct (pool_next (pool st)) as [[[b|]|] p] eqn:En.
    { exfalso. unfold pump_step in E. rewrite En in E. repeat case_match; done. }
    all: assert (forall b' p', pool_next (pool st) = (Some (Some b'), p') ->
              match resume_from st with Some r => b_number b' <= r | None => False end) as Ho
           by (intros b' p' E'; rewrite En in E'; discriminate).
    all: destruct (pump_inv c0 src st Hinv (Hb eq_refl) Ho) as [Hok _]; by rewrite E in Hok.
Qed.

(** C1: however often the source fails and is re-opened, whatever heads,
    reorgs and errors the node reports, the task never leaves a silent gap:
    replaying what it fetched, opened and received from its durable cursor,
    every chunk and every open starts at or below the next unscanned height,
    save a lookback cap that reports the range it skips; and the point it would
    resume from never runs ahead of what was scanned. *)
Theorem reconnects_leave_no_gap src initial_cursor (p : P) pumping st :
  source_ok src ->
  rtc (task_step src) (false, task_init initial_cursor p) (pumping, st) ->
  exists c, scan initial_cursor st.(seen) = Some c /\ at_most (cov st) c.
Proof.
  intros Hsrc Hrun.
  destruct (task_steps_inv initial_cursor src _ _ Hsrc Hrun) as [[Hs _] _]; [|done|exact Hs].
  split; [|done]. exists initial_cursor. split; [done|]. unfold cov, task_init. cbn.
  destruct initial_cursor; cbn; [lia | done].
Qed.

(** Where a (re-)open starts. A stored cursor wins, clamped to the
    head; an invalidated tail within the revalidation depth restarts the scan at
    the tail itself, so its logs are restated, and a deeper one is reported as
    terminal rather than rescanned from above it; anything else resumes at the
    scan basis. *)
Theorem poller_start_cases boot resume inv head floor :
  let s := poller_start_block boot resume inv head floor in
  let basis := default head resume in
  match boot, inv with
  | Some cursor, _ => start_block s <= cursor /\ start_block s <= head /\ restates_tail s = false
  | None, None => start_block s = basis /\ restates_tail s = false
  | None, Some t =>
      if Z.max basis (default 0 floor) - REVALIDATE_DEPTH <=? t
      then 0 <= t -> start_block s = t /\ restates_tail s = true
      else restates_tail s = false /\ t < start_block s
  end.
Proof.
  unfold poller_start_block. destruct boot as [c|]; cbn; [lia|]. destruct inv as [t|]; cbn; [|done].
  unfold sat_sub. set (x := Z.max _ _ - REVALIDATE_DEPTH). destruct (Z.leb_spec x t) as [Hle|Hgt].
  - intros Ht. rewrite (proj2 (Z.leb_le _ t)) by lia. done.
  - rewrite (proj2 (Z.leb_gt _ t)) by lia. cbn. split; [done | lia].
Qed.
End Facts.

(** ** A scripted node *)

Module Node.
Record Node : Type := mkNode {
  head : Z;
  failures : Z;
  range : Z;
  batches : list (option Batch)
}.

Definition src : Source := mkSource (Some (chars_of "k")) None 7.

(** Its first ranged fetches fail, then every one answers with no logs. *)
#[global] Instance node_pool : Pool Node := {|
  pool_head n := (u64_checked n.(head), n);
  pool_block_hash n _ := (Some (Some [1]), n);
  pool_log_range n := Some n.(range);
  pool_logs_in_range n _ _ :=
    if 0 <? n.(failures) then (None, mkNode n.(head) (n.(failures) - 1) n.(range) n.(batches))
    else (Some [], n);
  pool_open n _ := (true, n);
  pool_next n :=
    match n.(batches) with
    | [] => (None, n)
    | b :: bs => (Some b, mkNode n.(head) n.(failures) n.(range) bs)
    end;
  pool_send n _ := (true, n);
  pool_now n := (0, n)
|}.

#[global] Instance node_laws : PoolLaws Node.
Proof.
  split. intros n h n' E. cbn in E. injection E as E _. unfold u64_checked in E.
  destruct ((0 <=? head n) && (head n <=? u64_max)) eqn:Eb; [|done]. injection E as <-.
  apply andb_prop in Eb as [?%Z.leb_le ?%Z.leb_le]. done.
Qed.

Definition node : Node := mkNode 80 2 4 [Some (mkBatch 16 [9] [] false); None].

Definition start : Task Node := task_init (Some 10) node.

Definition after (e : option (PassEnd Node)) :=
  match e with
  | Some (Retry st) | Some (Pumping st) | Some (Terminal _ _ st) | Some (ReceiverGone st) => st
  | None => start
  end.

Definition opened := after (pass 5 100 src start).
Definition scanned := after (Some (pump_step src opened)).
Definition dropped := after (Some (pump_step src scanned)).
End Node.


Lemma reconnects_leave_no_gap_witness :
  exists c, scan (Some 10) Node.dropped.(seen) = Some c /\ at_most (cov Node.dropped) c.
Proof.
  apply (reconnects_leave_no_gap Node.src (Some 10) Node.node false).
  - intros cap E. discriminate E.
  - eapply rtc_l; [apply (ts_open _ 5 100 _ Node.opened); vm_compute; reflexivity|].
    eapply rtc_l; [apply (ts_batch _ _ Node.scanned (mkBatch 16 [9] [] false)
                            (Node.mkNode 80 0 4 [None])); [vm_compute; reflexivity | | vm_compute; reflexivity]|].
    + vm_compute. discriminate.
    + eapply rtc_l; [apply (ts_end _ _ Node.dropped); vm_compute; reflexivity|]. apply rtc_refl.
Defined.

(** The gap is fetched in two chunks after two failures, then the poller opens
    at the handoff. *)
Example node_run :
  (omap chunk_of Node.opened.(seen), Node.opened.(resume_from), Node.scanned.(resume_from))
    = ([(10, 13, []); (14, 15, [])], Some 16, Some 17).
Proof. vm_compute. reflexivity. Qed.
