(* ===== verification/Tasks.v ===== *)
(** * Tasks: task sets, the shutdown signal and the bounded drain

    [nexum-tasks]: [TaskSet] with its [join_next] poll, as the event loop owns
    it (task.rs), and the shutdown signal, the drain guards and
    [graceful_shutdown_with_timeout] as an interleaving of atomic steps
    (shutdown.rs, manager.rs). Spawning and polling futures is the executor's;
    what a poll of a join handle answers is a parameter. *)

From stdpp Require Import prelude list strings relations.
From Stdlib Require Import ZArith Lia.
From S2P Require Import Prelude.

(** ** Task sets *)

Record SourceTermination : Type := mkTermination {
  term_module : option text;
  term_chain_id : Z;
  term_reason : text
}.

Inductive TaskExit : Type :=
| ExitReceiverGone
| ExitSourceTerminal (term : SourceTermination).

(** A handle is the label it was pushed under and the task it joins. *)
Record TaskSet : Type := mkTaskSet {
  handles : list (text * nat);
  died : list text
}.

Definition task_set_new : TaskSet := mkTaskSet [] [].

Definition push (s : TaskSet) (label : text) (task : nat) : TaskSet :=
  mkTaskSet (s.(handles) ++ [(label, task)]) s.(died).

(** What polling a join handle answers: [JoinError] when the task panicked or
    was aborted. *)
Inductive JoinPoll : Type :=
| JoinPending
| JoinReady (exit : TaskExit)
| JoinError.

(** [Vec::swap_remove]. *)
Definition swap_remove {A} (l : list A) (i : nat) : list A :=
  match last l with
  | Some x => take (pred (length l)) (<[i := x]> l)
  | None => l
  end.

Section Join.
Variable poll : nat -> JoinPoll.

(** The [while i < handles.len()] loop; every iteration either moves [i] or
    shortens the set, so the length bounds it. *)
Fixpoint poll_handles (fuel i : nat) (s : TaskSet) : option TaskExit * TaskSet :=
  match fuel with
  | O => (None, s)
  | S fuel =>
      match s.(handles) !! i with
      | None => (None, s)
      | Some (label, task) =>
          match poll task with
          | JoinReady exit => (Some exit, mkTaskSet (swap_remove s.(handles) i) s.(died))
          | JoinError =>
              poll_handles fuel i (mkTaskSet (swap_remove s.(handles) i) (s.(died) ++ [label]))
          | JoinPending => poll_handles fuel (S i) s
          end
      end
  end.

(** One poll of [join_next]: [None] is [Poll::Pending]. *)
Definition join_next (s : TaskSet) : option TaskExit * TaskSet :=
  poll_handles (length s.(handles)) 0 s.
End Join.

(** [shutdown]: every task is aborted, then every handle is awaited; [join] is
    what awaiting the aborted task gave. *)
Definition set_shutdown (join : nat -> option TaskExit) (s : TaskSet) : nat * list text :=
  (length (List.filter (fun h => bool_decide (is_Some (join h.2))) s.(handles)),
   fst <$> List.filter (fun h => bool_decide (join h.2 = None)) s.(handles)).

(** ** Facts about one poll *)

Lemma swap_remove_perm {A} (l : list A) i x :
  l !! i = Some x -> l ≡ₚ x :: swap_remove l i.
Proof.
  intros Hi. unfold swap_remove. destruct (last l) as [y|] eqn:El; [|by rewrite last_None in El; subst].
  apply last_Some in El as [l' ->]. rewrite length_app. cbn [length].
  replace (pred (length l' + 1)) with (length l') by lia.
  destruct (decide (i < length l')%nat) as [Hlt|Hge].
  - rewrite lookup_app_l in Hi by done. rewrite insert_app_l by done.
    rewrite take_app_le by (by rewrite length_insert).
    rewrite take_ge by (rewrite length_insert; lia).
    rewrite <- (take_drop_middle l' i x Hi) at 1. rewrite insert_take_drop by done. solve_Permutation.
  - assert (i = length l') as ->.
    { apply lookup_lt_Some in Hi. rewrite length_app in Hi. cbn in Hi. lia. }
    rewrite lookup_app_r, Nat.sub_diag in Hi by lia. cbn in Hi. injection Hi as <-.
    rewrite insert_app_r_alt, Nat.sub_diag by lia. cbn. rewrite take_app_length.
    by rewrite Permutation_app_comm.
Qed.

Lemma swap_remove_length {A} (l : list A) i x :
  l !! i = Some x -> length (swap_remove l i) = pred (length l).
Proof. intros Hi. apply swap_remove_perm, Permutation_length in Hi. cbn in Hi. lia. Qed.

Lemma swap_remove_before {A} (l : list A) i j x :
  l !! i = Some x -> (j < i)%nat -> swap_remove l i !! j = l !! j.
Proof.
  intros Hi Hj. unfold swap_remove. destruct (last l) as [y|] eqn:El; [|done].
  assert (i < length l)%nat by (by apply lookup_lt_Some in Hi).
  rewrite lookup_take_lt by lia. by rewrite list_lookup_insert_ne by lia.
Qed.

Section JoinFacts.
Variable poll : nat -> JoinPoll.

(** What a poll does with the handles: the dead ones are recorded, at most one
    finished one is yielded, the rest stay. *)
Definition joined (s : TaskSet) (r : option TaskExit) (s' : TaskSet) : Prop :=
  exists dead : list (text * nat),
    s'.(died) = s.(died) ++ (fst <$> dead) /\
    Forall (fun h => poll h.2 = JoinError) dead /\
    match r with
    | None => s.(handles) ≡ₚ dead ++ s'.(handles)
    | Some exit =>
        exists h, poll h.2 = JoinReady exit /\ s.(handles) ≡ₚ dead ++ h :: s'.(handles)
    end.

Lemma poll_handles_spec fuel i s :
  fuel = (length s.(handles) - i)%nat ->
  (forall j h, (j < i)%nat -> s.(handles) !! j = Some h -> poll h.2 = JoinPending) ->
  let out := poll_handles poll fuel i s in
  joined s out.1 out.2 /\
  (out.1 = None -> Forall (fun h => poll h.2 = JoinPending) out.2.(handles)).
Proof.
  revert i s. induction fuel as [|fuel IH]; intros i s Hf Hb; cbn.
  - split; [exists []; cbn; by rewrite app_nil_r|]. intros _. apply Forall_lookup. intros j h Hj.
    apply (Hb j); [|done]. apply lookup_lt_Some in Hj. lia.
  - destruct (handles s !! i) as [[label task]|] eqn:Hi.
    2: { apply lookup_ge_None in Hi. lia. }
    pose proof (swap_remove_perm _ _ _ Hi) as Hp. pose proof (swap_remove_length _ _ _ Hi) as Hl.
    destruct (poll task) as [|exit|] eqn:Hpoll.
    + apply IH; [lia|]. intros j h Hj Hh. destruct (decide (j = i)) as [->|];
        [rewrite Hi in Hh; by injection Hh as <- | apply (Hb j); [lia | done]].
    + cbn. split; [|done]. exists []. cbn. rewrite app_nil_r. do 2 (split; [done|]).
      by exists (label, task).
    + destruct (IH i (mkTaskSet (swap_remove (handles s) i) (died s ++ [label])))
        as [(dead & Hd & Hdead & Hr) Hpend].
      { cbn [handles]. lia. }
      { cbn [handles]. intros j h Hj. rewrite (swap_remove_before _ _ _ _ Hi Hj). by apply Hb. }
      cbn [handles died] in *. split; [|done]. exists ((label, task) :: dead).
      rewrite Hd, <- app_assoc. do 2 (split; [by try constructor|]).
      destruct (poll_handles _ _ _ _).1 as [exit|]; cbn in Hr |- *.
      * destruct Hr as (h & Hh & Hr). exists h. split; [done|]. etrans; [exact Hp|]. by constructor.
      * etrans; [exact Hp|]. by constructor.
Qed.

Lemma join_next_spec s :
  let out := join_next poll s in
  joined s out.1 out.2 /\
  (out.1 = None -> Forall (fun h => poll h.2 = JoinPending) out.2.(handles)).
Proof. apply poll_handles_spec; [lia | intros; lia]. Qed.

Lemma join_next_shrinks s e s' : join_next poll s = (Some e, s') ->
  (length s'.(handles) < length s.(handles))%nat.
Proof.
  intros E. destruct (join_next_spec s) as [(dead & _ & _ & Hr) _]. rewrite E in Hr.
  destruct Hr as (h & _ & Hp). apply Permutation_length in Hp.
  cbn [snd] in Hp. rewrite Hp, length_app. cbn [length]. lia.
Qed.
End JoinFacts.

(** ** Every report is yielded once *)

(** A run of polls: [answers] is what the handles answer at each of them. The
    yielded exits come back in order. *)
Fixpoint join_run (answers : list (nat -> JoinPoll)) (s : TaskSet) : list TaskExit * TaskSet :=
  match answers with
  | [] => ([], s)
  | poll :: answers =>
      let (r, s) := join_next poll s in
      let (exits, s) := join_run answers s in
      (match r with Some e => e :: exits | None => exits end, s)
  end.

(** A task's outcome: the exit it returned, or nothing when it panicked or was
    aborted. *)
Definition faithful (outcome : nat -> option TaskExit) (poll : nat -> JoinPoll) : Prop :=
  forall t, poll t = JoinPending \/
            poll t = match outcome t with Some e => JoinReady e | None => JoinError end.

(** However the tasks of a set finish and however often it is polled,
    each task is accounted for exactly once: it is still in the set, its exit
    was yielded, or, when it died without one, its label was recorded; and a
    poll that pends leaves only unfinished tasks behind. *)
Theorem joins_account_for_every_task outcome answers s poll :
  Forall (faithful outcome) (answers ++ [poll]) ->
  let (exits, s') := join_run (answers ++ [poll]) s in
  (exists dead done : list (text * nat),
     s.(handles) ≡ₚ dead ++ done ++ s'.(handles) /\
     s'.(died) = s.(died) ++ (fst <$> dead) /\
     Forall (fun h => outcome h.2 = None) dead /\
     (outcome ∘ snd <$> done) = Some <$> exits) /\
  ((join_next poll (join_run answers s).2).1 = None ->
     Forall (fun h => poll h.2 = JoinPending) s'.(handles)).
Proof.
  revert s. induction answers as [|p answers IH]; intros s Hf; cbn [app] in *.
  - apply Forall_inv in Hf. cbn. destruct (join_next_spec poll s) as [(dead & Hd & Hdead & Hr) Hpend].
    destruct (join_next poll s) as [r s'] eqn:E. cbn [fst snd] in *. split; [|done].
    assert (Forall (fun h => outcome h.2 = None) dead) as Hdo.
    { eapply Forall_impl; [exact Hdead|]. intros h Hh. cbn in Hh.
      destruct (Hf h.2) as [Hx|Hx]; rewrite Hx in Hh; [done|]. by destruct (outcome h.2). }
    destruct r as [e|].
    + destruct Hr as (h & Hh & Hp). exists dead, [h]. do 3 (split; [done|]). cbn.
      destruct (Hf h.2) as [Hx|Hx]; rewrite Hx in Hh; [done|]. destruct (outcome h.2); congruence.
    + by exists dead, [].
  - apply Forall_cons in Hf as [Hfp Hf]. cbn [join_run].
    destruct (join_next_spec p s) as [(dead1 & Hd1 & Hdead1 & Hr1) _].
    destruct (join_next p s) as [r s1] eqn:E. cbn [fst snd] in *.
    specialize (IH s1 Hf). destruct (join_run (answers ++ [poll]) s1) as [exits s'] eqn:Er.
    destruct IH as [(dead & don & Hp & Hd & Hdead & Hdone) Hpend].
    split; [|destruct (join_run answers s1); exact Hpend].
    assert (Forall (fun h => outcome h.2 = None) dead1) as Hdo.
    { eapply Forall_impl; [exact Hdead1|]. intros h Hh. cbn in Hh.
      destruct (Hfp h.2) as [Hx|Hx]; rewrite Hx in Hh; [done|]. by destruct (outcome h.2). }
    destruct r as [e|].
    + destruct Hr1 as (h & Hh & Hp1). exists (dead1 ++ dead), (h :: don). split; [|split; [|split]].
      * rewrite Hp1, Hp. solve_Permutation.
      * by rewrite Hd, Hd1, fmap_app, app_assoc.
      * by apply Forall_app.
      * cbn. rewrite Hdone. f_equal.
        destruct (Hfp h.2) as [Hx|Hx]; rewrite Hx in Hh; [done|]. destruct (outcome h.2); congruence.
    + exists (dead1 ++ dead), don. split; [|split; [|split]]; [| |by apply Forall_app|done].
      * rewrite Hr1, Hp. solve_Permutation.
      * by rewrite Hd, Hd1, fmap_app, app_assoc.
Qed.

(** Three tasks: one returns, one dies, one never ends. *)
Definition demo_set : TaskSet :=
  push (push (push task_set_new (chars_of "a") 0) (chars_of "b") 1) (chars_of "c") 2.

Definition demo_outcome (t : nat) : option TaskExit :=
  match t with 1%nat => None | _ => Some ExitReceiverGone end.

Definition demo_poll (t : nat) : JoinPoll :=
  match t with 0%nat => JoinReady ExitReceiverGone | 1%nat => JoinError | _ => JoinPending end.

Lemma joins_account_for_every_task_witness :
  let (exits, s') := join_run [demo_poll; demo_poll] demo_set in
  (exists dead done : list (text * nat),
     demo_set.(handles) ≡ₚ dead ++ done ++ s'.(handles) /\
     s'.(died) = demo_set.(died) ++ (fst <$> dead) /\
     Forall (fun h => demo_outcome h.2 = None) dead /\
     (demo_outcome ∘ snd <$> done) = Some <$> exits) /\
  ((join_next demo_poll (join_run [demo_poll] demo_set).2).1 = None ->
     Forall (fun h => demo_poll h.2 = JoinPending) s'.(handles)).
Proof.
  apply (joins_account_for_every_task demo_outcome [demo_poll] demo_set demo_poll).
  assert (faithful demo_outcome demo_poll) by (intros [|[|t]]; cbn; auto).
  by apply Forall_cons_2; [|apply Forall_cons_2].
Defined.

Example demo_join :
  join_run [demo_poll; demo_poll] demo_set =
  ([ExitReceiverGone], mkTaskSet [(chars_of "c", 2%nat)] [chars_of "b"]).
Proof. reflexivity. Qed.

(** ** Shutdown and the bounded drain

    The signal is latched; a guard is counted from its creation, and its drop is
    a decrement followed by a wake-up into a queue of one. *)

Module Drain.
Inductive DrainOutcome : Type :=
| Drained
| TimedOut (outstanding : nat).

(** Where [graceful_shutdown_with_timeout] stands: about to load the count, or
    parked in the [select!]. *)
Inductive DrainAt : Type :=
| DrainIdle
| DrainCheck
| DrainWait
| DrainDone (o : DrainOutcome).

Record Manager : Type := mkManager {
  fired : bool;
  outstanding : nat;
  (* guards past their decrement, before their wake-up *)
  releasing : nat;
  wake : bool;
  drain : DrainAt;
  (* critical tasks past their signal, before their report *)
  reporting : list text;
  critical : list text
}.

Definition manager_new : Manager := mkManager false 0 0 false DrainIdle [] [].

Definition set_drain (d : DrainAt) (m : Manager) : Manager :=
  mkManager m.(fired) m.(outstanding) m.(releasing) m.(wake) d m.(reporting) m.(critical).

Definition fire (m : Manager) : Manager :=
  mkManager true m.(outstanding) m.(releasing) m.(wake) m.(drain) m.(reporting) m.(critical).

(** [GracefulShutdownGuard::new], as [spawn_graceful] makes one. *)
Definition guard_new (m : Manager) : Manager :=
  mkManager m.(fired) (S m.(outstanding)) m.(releasing) m.(wake) m.(drain) m.(reporting) m.(critical).

(** The two halves of [GracefulShutdownGuard::drop]. *)
Definition guard_decrement (m : Manager) : Manager :=
  mkManager m.(fired) (pred m.(outstanding)) (S m.(releasing)) m.(wake) m.(drain) m.(reporting)
    m.(critical).

Definition guard_wake (m : Manager) : Manager :=
  mkManager m.(fired) m.(outstanding) (pred m.(releasing)) true m.(drain) m.(reporting) m.(critical).

(** The loads and the receive of the drain loop. *)
Definition drain_check (m : Manager) : Manager :=
  set_drain (if (m.(outstanding) =? 0)%nat then DrainDone Drained else DrainWait) m.

Definition drain_recv (m : Manager) : Manager :=
  mkManager m.(fired) m.(outstanding) m.(releasing) false DrainCheck m.(reporting) m.(critical).

(** The end of a task under [spawn_critical]: the signal, then the report. *)
Definition critical_signal (name : text) (m : Manager) : Manager :=
  mkManager true m.(outstanding) m.(releasing) m.(wake) m.(drain) (m.(reporting) ++ [name]) m.(critical).

(** Two tasks may signal in one order and report in the other: the [i]-th reports. *)
Definition critical_report (i : nat) (m : Manager) : Manager :=
  match m.(reporting) !! i with
  | None => m
  | Some name =>
      mkManager m.(fired) m.(outstanding) m.(releasing) m.(wake) m.(drain) (delete i m.(reporting)) (m.(critical) ++ [name])
  end.

(** [on_critical_failure]: the next report, or pending when there is none. *)
Definition on_critical_failure (m : Manager) : option (text * Manager) :=
  match m.(critical) with
  | [] => None
  | name :: rest =>
      Some (name, mkManager m.(fired) m.(outstanding) m.(releasing) m.(wake) m.(drain) m.(reporting) rest)
  end.

Inductive manager_step : Manager -> Manager -> Prop :=
| st_fire m : manager_step m (fire m)
| st_guard_new m : manager_step m (guard_new m)
| st_guard_decrement m : (0 < m.(outstanding))%nat -> manager_step m (guard_decrement m)
| st_guard_wake m : (0 < m.(releasing))%nat -> manager_step m (guard_wake m)
| st_drain_start m : m.(drain) = DrainIdle -> manager_step m (set_drain DrainCheck (fire m))
| st_drain_check m : m.(drain) = DrainCheck -> manager_step m (drain_check m)
| st_drain_deadline m :
    m.(drain) = DrainWait -> manager_step m (set_drain (DrainDone (TimedOut m.(outstanding))) m)
| st_drain_recv m : m.(drain) = DrainWait -> m.(wake) = true -> manager_step m (drain_recv m)
| st_critical_signal m name : manager_step m (critical_signal name m)
| st_critical_report m i : manager_step m (critical_report i m)
| st_on_critical m name m' : on_critical_failure m = Some (name, m') -> manager_step m m'.

Record manager_ok (m : Manager) : Prop := {
  ok_wake : m.(drain) = DrainWait -> m.(outstanding) = 0%nat -> m.(wake) = true \/ (0 < m.(releasing))%nat;
  ok_fired : m.(drain) <> DrainIdle -> m.(fired) = true;
  ok_critical : m.(reporting) <> [] \/ m.(critical) <> [] -> m.(fired) = true
}.

Lemma manager_step_ok m m' : manager_step m m' -> manager_ok m -> manager_ok m'.
Proof.
  intros Hs [Hw Hf Hc]. destruct Hs; split; cbn in *; try (intuition congruence); try (intros; lia).
  - destruct (Nat.eqb_spec (outstanding m) 0); [done | congruence].
  - unfold critical_report. destruct (reporting m !! i); exact Hw.
  - unfold critical_report. destruct (reporting m !! i); exact Hf.
  - unfold critical_report. destruct (reporting m !! i) as [name|] eqn:E; [|exact Hc].
    intros _. apply Hc. left. by intros Hn; rewrite Hn in E.
  - unfold on_critical_failure in *. destruct (critical m); simplify_eq. exact Hw.
  - unfold on_critical_failure in *. destruct (critical m); simplify_eq. exact Hf.
  - unfold on_critical_failure in *. destruct (critical m) eqn:E; simplify_eq. intros _. apply Hc. by right.
Qed.

Lemma reachable_ok m : rtc manager_step manager_new m -> manager_ok m.
Proof.
  intros Hr. assert (manager_ok manager_new) as H0 by (split; cbn; intuition congruence).
  remember manager_new as m0 eqn:E. clear E. induction Hr; [done|]. eauto using manager_step_ok.
Qed.

(** C40: a drain never sleeps through the last release: in every
    interleaving of guards, critical tasks and the drain, once no guard is held
    and every release has run, a drain that is parked has a wake-up queued, and
    its next two steps end it [Drained]; shutdown is fired before a drain runs
    and before a critical task's name can be observed. *)
Theorem drain_never_misses_the_last_release m :
  rtc manager_step manager_new m ->
  (m.(drain) = DrainWait -> m.(outstanding) = 0%nat -> m.(releasing) = 0%nat ->
     m.(wake) = true /\ manager_step m (drain_recv m) /\
     manager_step (drain_recv m) (drain_check (drain_recv m)) /\
     (drain_check (drain_recv m)).(drain) = DrainDone Drained) /\
  (m.(drain) <> DrainIdle \/ m.(critical) <> [] -> m.(fired) = true).
Proof.
  intros Hr. destruct (reachable_ok m Hr) as [Hw Hf Hc]. split; [|intuition auto].
  intros Hd Ho Hrel. assert (wake m = true) as Hwake by (destruct (Hw Hd Ho); [done | lia]).
  split; [done|]. split; [by apply st_drain_recv|]. split; [by apply st_drain_check|].
  unfold drain_check, drain_recv. cbn. by rewrite Ho.
Qed.

Lemma drain_never_misses_the_last_release_witness :
  let m := guard_wake (guard_decrement (drain_check (set_drain DrainCheck (fire (guard_new manager_new))))) in
  m.(drain) = DrainWait /\ m.(wake) = true /\
  (drain_check (drain_recv m)).(drain) = DrainDone Drained.
Proof.
  intros m. destruct (drain_never_misses_the_last_release m) as [Hm _].
  - eapply rtc_l; [apply st_guard_new|]. eapply rtc_l; [by apply st_drain_start|].
    eapply rtc_l; [by apply st_drain_check|]. eapply rtc_l; [by apply st_guard_decrement; cbn; lia|].
    apply rtc_once. apply st_guard_wake. cbn. lia.
  - destruct Hm as (Hw & _ & _ & Hd); [done..|]. by split.
Defined.
End Drain.
