(* ===== verification/EventLoop.v ===== *)
(** * EventLoop: the loop that drives the supervisor

    [run] of runtime/event_loop.rs: the biased select over the shutdown signal,
    the task set and the merged sources, the dispatch of what it picked, and the
    ruling on a stream's end. The streams, the signal and the tasks are
    parameters; the select, the counters and the exits are the code's. *)

From stdpp Require Import prelude list gmap strings relations.
From Stdlib Require Import ZArith Lia.
From S2P Require Import Prelude Lifecycle StoreApi Cursors Dispatch DispatchFacts DispatchSafety.
From S2P Require Import ChainLog Tasks.

Local Open Scope rust_scope.
Local Open Scope Z_scope.

(** ** Data *)

Record Header : Type := mkHeader {
  header_number : Z;
  header_hash : list Z;
  header_timestamp : Z
}.

Record ScheduleTick : Type := mkTick {
  tick_module : text;
  tick_fired_at : Z;
  tick_received : Z
}.

Inductive StreamKind : Type := KSchedule | KBlock | KChainLog | KExtension.

#[export] Instance StreamKind_eq_dec : EqDecision StreamKind.
Proof. solve_decision. Defined.

(** [(module, chain, item, cursor_key)]. *)
Definition TaggedChainLog : Type := text * Z * ChainLogItem * option text.

(** [(chain, header, received)], or the chain whose stream failed. *)
Definition TaggedBlock : Type := result (Z * Header * Z) Z.

Inductive NextTrigger : Type :=
| NBlock (block : Block) (received : Z)
| NEvent (module : text) (chain : Z) (l : Log) (cursor_key : option text) (received : Z)
| NCursorFrontier (module key : text) (frontier : Z)
| NExtension (delivery : ExtensionDelivery) (received : Z)
| NSchedule (tick : ScheduleTick)
| NShutdown
| NSourceExit (exit : TaskExit)
| NStreamEnd (kind : StreamKind)
(* the arm's own [continue] *)
| NContinue.

Inductive RunEnd : Type :=
| EndShutdown
| EndStreamEnded
| EndNothingLive
| EndSourceTerminal (term : SourceTermination).

Record RunOutcome : Type := mkRunOutcome {
  out_blocks : Z;
  out_events : Z;
  out_end : RunEnd
}.

(** What the loop polls. An armed stream answers [Some None] once it has ended;
    [taken] is the state after an arm's item left it, [woken] the state at the
    next wake-up of a select nothing was ready for, and [grace_wakes] the states
    a wait of [TERMINAL_REPORT_GRACE] wakes up in, the deadline last. *)
Class Feeds (E : Type) : Type := {
  poll_shutdown : E -> bool;
  poll_task : E -> nat -> JoinPoll;
  poll_schedules : E -> option (option ScheduleTick);
  poll_blocks : E -> option (option TaggedBlock);
  poll_chain_logs : E -> option (option TaggedChainLog);
  poll_extensions : E -> option (option ExtensionDelivery);
  received_now : E -> Z;
  taken : StreamKind -> E -> E;
  woken : E -> E;
  grace_wakes : E -> list E
}.

(** ** The loop *)

Section Run.
Context {B W S E : Type} `{RateLimiter B} `{World W} `{StateStore S} `{Feeds E}.

Abbreviation Sup := (Supervisor B W S).

(** Which streams were declared. *)
Record Declared : Type := mkDeclared {
  chain_log_sources : nat;
  has_blocks : bool;
  has_extensions : bool;
  has_schedules : bool
}.

(** [l_chain_logs] is false once the exhausted merge was parked; [l_reports]
    logs the module-owned terminations the loop has seen. *)
Record Loop : Type := mkLoop {
  l_sup : Sup;
  l_feeds : E;
  l_tasks : TaskSet;
  l_chain_logs : bool;
  l_blocks : Z;
  l_events : Z;
  l_extension_triggers : Z;
  l_schedule_ticks : Z;
  l_terminal : nat;
  l_reports : list SourceTermination
}.

Definition loop_init (d : Declared) (s : Sup) (e : E) (tasks : TaskSet) : Loop :=
  mkLoop s e tasks (negb (d.(chain_log_sources) =? 0)%nat) 0 0 0 0 0 [].

Definition with_sup (s : Sup) (l : Loop) : Loop :=
  mkLoop s l.(l_feeds) l.(l_tasks) l.(l_chain_logs) l.(l_blocks) l.(l_events)
    l.(l_extension_triggers) l.(l_schedule_ticks) l.(l_terminal) l.(l_reports).

Definition with_feeds (e : E) (t : TaskSet) (l : Loop) : Loop :=
  mkLoop l.(l_sup) e t l.(l_chain_logs) l.(l_blocks) l.(l_events) l.(l_extension_triggers)
    l.(l_schedule_ticks) l.(l_terminal) l.(l_reports).

Definition park_chain_logs (l : Loop) : Loop :=
  mkLoop l.(l_sup) l.(l_feeds) l.(l_tasks) false l.(l_blocks) l.(l_events)
    l.(l_extension_triggers) l.(l_schedule_ticks) l.(l_terminal) l.(l_reports).

Definition count_dispatch (b ev x t : Z) (l : Loop) : Loop :=
  mkLoop l.(l_sup) l.(l_feeds) l.(l_tasks) l.(l_chain_logs) (l.(l_blocks) + b) (l.(l_events) + ev)
    (l.(l_extension_triggers) + x) (l.(l_schedule_ticks) + t) l.(l_terminal) l.(l_reports).

(** A module-owned termination: counted, and its module quarantined. *)
Definition absorb (name : text) (term : SourceTermination) (l : Loop) : Loop :=
  mkLoop (poison_source name l.(l_sup)).2 l.(l_feeds) l.(l_tasks) l.(l_chain_logs) l.(l_blocks)
    l.(l_events) l.(l_extension_triggers) l.(l_schedule_ticks) (Datatypes.S l.(l_terminal))
    (l.(l_reports) ++ [term]).

Definition block_of (chain : Z) (h : Header) : Block :=
  mkBlock chain h.(header_number) h.(header_hash) (u64_sat (h.(header_timestamp) * 1000)).

Definition on_block (item : option TaggedBlock) : NextTrigger :=
  match item with
  | Some (Ok (chain, header, received)) => NBlock (block_of chain header) received
  | Some (Err _) => NContinue
  | None => NStreamEnd KBlock
  end.

Definition on_chain_log (item : option TaggedChainLog) : NextTrigger :=
  match item with
  | Some (module, chain, ItemLog log received, cursor_key) =>
      NEvent module chain log cursor_key received
  | Some (module, _, ItemFrontier frontier, Some key) => NCursorFrontier module key frontier
  | Some (_, _, ItemFrontier _, None) => NContinue
  | None => NStreamEnd KChainLog
  end.

(** One poll of the biased [select!], in arm order; [None] when every arm pends.
    Polling the task set discards dead handles even when a later arm wins. *)
Definition select (d : Declared) (l : Loop) : option NextTrigger * Loop :=
  let e := l.(l_feeds) in
  if poll_shutdown e then (Some NShutdown, l)
  else
    let (exit, tasks) := join_next (poll_task e) l.(l_tasks) in
    match exit with
    | Some exit => (Some (NSourceExit exit), with_feeds e tasks l)
    | None =>
        match (if d.(has_schedules) then poll_schedules e else None) with
        | Some item =>
            (Some (match item with Some tick => NSchedule tick | None => NStreamEnd KSchedule end),
             with_feeds (taken KSchedule e) tasks l)
        | None =>
            match (if d.(has_blocks) then poll_blocks e else None) with
            | Some item => (Some (on_block item), with_feeds (taken KBlock e) tasks l)
            | None =>
                match (if l.(l_chain_logs) then poll_chain_logs e else None) with
                | Some item => (Some (on_chain_log item), with_feeds (taken KChainLog e) tasks l)
                | None =>
                    match (if d.(has_extensions) then poll_extensions e else None) with
                    | Some item =>
                        (Some (match item with
                               | Some delivery => NExtension delivery (received_now e)
                               | None => NStreamEnd KExtension
                               end), with_feeds (taken KExtension e) tasks l)
                    | None => (None, with_feeds (woken e) tasks l)
                    end
                end
            end
        end
    end.

(** [timeout(TERMINAL_REPORT_GRACE, tasks.join_next())]. *)
Fixpoint grace_join (tasks : TaskSet) (e : E) (wakes : list E) : option TaskExit * TaskSet * E :=
  match join_next (poll_task e) tasks with
  | (Some exit, tasks) => (Some exit, tasks, e)
  | (None, tasks) =>
      match wakes with
      | [] => (None, tasks, e)
      | e :: wakes => grace_join tasks e wakes
      end
  end.

Inductive Ruling : Type :=
| RuledShared (term : SourceTermination)
| RuledAccounted
| RuledUnaccounted.

(** The inner loop on a stream's end. Every iteration that goes on took a handle
    out of the set, so its length bounds them. *)
Fixpoint grace_loop (fuel : nat) (d : Declared) (kind : StreamKind) (l : Loop)
    : option (Ruling * Loop) :=
  match fuel with
  | O => None
  | Datatypes.S fuel =>
      if bool_decide (kind = KChainLog) && (l.(l_terminal) =? d.(chain_log_sources))%nat
      then Some (RuledAccounted, l)
      else
        let '(exit, tasks, e) := grace_join l.(l_tasks) l.(l_feeds) (grace_wakes l.(l_feeds)) in
        let l := with_feeds e tasks l in
        match exit with
        | Some (ExitSourceTerminal term) =>
            match term.(term_module) with
            | Some name => grace_loop fuel d kind (absorb name term l)
            | None => Some (RuledShared term, l)
            end
        | Some ExitReceiverGone => grace_loop fuel d kind l
        | None => Some (RuledUnaccounted, l)
        end
  end.

Inductive StepEnd : Type :=
| Next (l : Loop)
| Ended (o : RunOutcome) (l : Loop).

(** [tasks.shutdown()], then [outcome]: the last publication and the tally. *)
Definition outcome (end_ : RunEnd) (l : Loop) : StepEnd :=
  let l := with_feeds l.(l_feeds) (mkTaskSet [] l.(l_tasks).(died)) l in
  let l := with_sup (publish_health l.(l_sup)).2 l in
  Ended (mkRunOutcome l.(l_blocks) l.(l_events) end_) l.

(** Phase two: the dispatch of what the select picked. *)
Definition react (d : Declared) (next : NextTrigger) (l : Loop) : option StepEnd :=
  let s := l.(l_sup) in
  match next with
  | NBlock block received =>
      Some (Next (count_dispatch 1 0 0 0 (with_sup (dispatch_block_received block received s).2 l)))
  | NEvent module chain log key received =>
      Some (Next (count_dispatch 0 1 0 0
              (with_sup (dispatch_event_received module chain log key received s).2 l)))
  | NCursorFrontier module key frontier =>
      Some (Next (with_sup (commit_frontier module key frontier s).2 l))
  | NExtension delivery received =>
      Some (Next (count_dispatch 0 0 1 0
              (with_sup (dispatch_extension_trigger_received delivery received s).2 l)))
  | NSchedule tick =>
      Some (Next (count_dispatch 0 0 0 1
              (with_sup (dispatch_schedule_received tick.(tick_module) tick.(tick_fired_at)
                           tick.(tick_received) s).2 l)))
  | NSourceExit (ExitSourceTerminal term) =>
      match term.(term_module) with
      | Some name => Some (Next (absorb name term l))
      | None => Some (outcome (EndSourceTerminal term) l)
      end
  | NSourceExit ExitReceiverGone | NContinue => Some (Next l)
  | NShutdown => Some (outcome EndShutdown l)
  | NStreamEnd kind =>
      match grace_loop (Datatypes.S (length l.(l_tasks).(handles))) d kind l with
      | None => None
      | Some (RuledShared term, l) => Some (outcome (EndSourceTerminal term) l)
      | Some (RuledAccounted, l) =>
          if d.(has_blocks) || d.(has_extensions) || d.(has_schedules)
          then Some (Next (park_chain_logs l))
          else Some (outcome EndNothingLive l)
      | Some (RuledUnaccounted, l) => Some (outcome EndStreamEnded l)
      end
  end.

(** A select that pends is polled again at its next wake-up, without another
    publication: [fresh] is false there. *)
Definition iteration (d : Declared) (fresh : bool) (l : Loop) : option (bool * StepEnd) :=
  let l := if fresh then with_sup (publish_health l.(l_sup)).2 l else l in
  match select d l with
  | (None, l) => Some (false, Next l)
  | (Some next, l) => match react d next l with Some e => Some (true, e) | None => None end
  end.

(** At most [fuel] iterations: the outcome once the loop returned. *)
Fixpoint run (fuel : nat) (d : Declared) (fresh : bool) (l : Loop)
    : option (RunOutcome * Loop) + Loop :=
  match fuel with
  | O => inr l
  | Datatypes.S fuel =>
      match iteration d fresh l with
      | None => inl None
      | Some (fresh, Next l) => run fuel d fresh l
      | Some (_, Ended o l) => inl (Some (o, l))
      end
  end.
End Run.

Arguments Loop B W S E : clear implicits.
Arguments StepEnd B W S E : clear implicits.

(** ** What an iteration does *)

Definition op_block (op : SupOp) : bool := match op with OBlock _ _ => true | _ => false end.
Definition op_event (op : SupOp) : bool := match op with OEvent _ _ _ _ _ => true | _ => false end.
Definition op_extension (op : SupOp) : bool := match op with OExtension _ _ => true | _ => false end.
Definition op_schedule (op : SupOp) : bool := match op with OSchedule _ _ _ => true | _ => false end.
Definition op_poison (op : SupOp) : option text :=
  match op with OPoisonSource name => Some name | _ => None end.

Definition tally (f : SupOp -> bool) (ops : list SupOp) : Z := Z.of_nat (length (List.filter f ops)).

Lemma tally_app f ops1 ops2 : tally f (ops1 ++ ops2) = tally f ops1 + tally f ops2.
Proof. unfold tally. rewrite List.filter_app, length_app. lia. Qed.

(** The termination a task's exit reports for its own module. *)
Definition owned (o : option TaskExit) : option SourceTermination :=
  match o with
  | Some (ExitSourceTerminal term) =>
      match term.(term_module) with Some _ => Some term | None => None end
  | _ => None
  end.

Section Facts.
Context {B W S E : Type} `{RateLimiter B} `{WorldLaws W} `{StateStoreLaws S} `{Feeds E}.
Context (task_outcome : nat -> option TaskExit).
Context (polls_faithful : forall e, faithful task_outcome (poll_task e)).

Abbreviation Lp := (Loop B W S E).

Definition own_report (h : text * nat) : option SourceTermination := owned (task_outcome h.2).

(** [l'] follows [l]: a list of supervisor operations leads from one supervisor
    to the other, the counters count them, the task set gave up the tasks that
    ended, and the reports are those tasks' own, each one a quarantine. *)
Definition follows (l l' : Lp) : Prop :=
  exists ops dead done,
    l'.(l_sup) = run_sups l.(l_sup) ops /\
    (l'.(l_blocks) = l.(l_blocks) + tally op_block ops /\
     l'.(l_events) = l.(l_events) + tally op_event ops /\
     l'.(l_extension_triggers) = l.(l_extension_triggers) + tally op_extension ops /\
     l'.(l_schedule_ticks) = l.(l_schedule_ticks) + tally op_schedule ops) /\
    l.(l_tasks).(handles) ≡ₚ dead ++ done ++ l'.(l_tasks).(handles) /\
    Forall (fun h => task_outcome h.2 = None) dead /\
    l'.(l_terminal) = (l.(l_terminal) + length (omap own_report done))%nat /\
    l'.(l_reports) = l.(l_reports) ++ omap own_report done /\
    omap op_poison ops = omap term_module (omap own_report done).

Lemma follows_refl l : follows l l.
Proof.
  exists [], [], []. cbn. rewrite app_nil_r. unfold tally. cbn.
  repeat split; try done; lia.
Qed.

Lemma follows_trans l1 l2 l3 : follows l1 l2 -> follows l2 l3 -> follows l1 l3.
Proof.
  intros (o1 & d1 & f1 & S1 & (B1 & V1 & X1 & K1) & P1 & D1 & T1 & R1 & Q1)
    (o2 & d2 & f2 & S2 & (B2 & V2 & X2 & K2) & P2 & D2 & T2 & R2 & Q2).
  exists (o1 ++ o2), (d1 ++ d2), (f1 ++ f2).
  split. { rewrite S2, S1. unfold run_sups. by rewrite fold_left_app. }
  split. { rewrite !tally_app. lia. }
  split. { rewrite P1, P2. solve_Permutation. }
  split; [by apply Forall_app|].
  rewrite !omap_app, length_app. split; [lia|]. split; [by rewrite R2, R1, app_assoc|].
  by rewrite Q1, Q2.
Qed.

(** One supervisor call and its counter. *)
Lemma follows_op op b ev x t (l : Lp) :
  op_poison op = None ->
  [b; ev; x; t] = Z.b2z <$> [op_block op; op_event op; op_extension op; op_schedule op] ->
  follows l (count_dispatch b ev x t (with_sup (run_sup l.(l_sup) op) l)).
Proof.
  intros Hp Hc. cbn in Hc. injection Hc as -> -> -> ->. exists [op], [], []. cbn. rewrite Hp, app_nil_r.
  split; [done|]. split; [by destruct op|]. repeat split; try done; lia.
Qed.

Lemma follows_sup op (l : Lp) :
  op_poison op = None -> op_block op = false -> op_event op = false -> op_extension op = false ->
  op_schedule op = false -> follows l (with_sup (run_sup l.(l_sup) op) l).
Proof.
  intros Hp Hb He Hx Hs. destruct (follows_op op 0 0 0 0 l Hp) as (ops & dead & don & R).
  { cbn. by rewrite Hb, He, Hx, Hs. }
  exists ops, dead, don. cbn in *. by rewrite !Z.add_0_r in R.
Qed.

(** Polls of the task set. *)
Lemma joined_dead (e : E) (dead : list (text * nat)) :
  Forall (fun h => poll_task e h.2 = JoinError) dead ->
  Forall (fun h => task_outcome h.2 = None) dead.
Proof.
  intros Hd. eapply Forall_impl; [exact Hd|]. intros h Hh. cbn in Hh. destruct (polls_faithful e h.2) as [E1|E1]; rewrite E1 in Hh; [done|].
  by destruct (task_outcome h.2).
Qed.

Lemma joined_exit (e : E) t x : poll_task e t = JoinReady x -> task_outcome t = Some x.
Proof.
  intros Ht. destruct (polls_faithful e t) as [E1|E1]; rewrite E1 in Ht; [done|].
  destruct (task_outcome t); congruence.
Qed.

Lemma follows_pending e e' (l : Lp) tasks :
  join_next (poll_task e) l.(l_tasks) = (None, tasks) -> follows l (with_feeds e' tasks l).
Proof.
  intros Ej. destruct (join_next_spec (poll_task e) (l_tasks l)) as [(dead & _ & Hd & Hp) _].
  rewrite Ej in Hp. cbn in Hp. exists [], dead, []. cbn. rewrite app_nil_r. unfold tally. cbn.
  repeat split; try done; try lia. by eapply joined_dead.
Qed.

Lemma follows_exit e e' (l : Lp) exit tasks :
  join_next (poll_task e) l.(l_tasks) = (Some exit, tasks) -> owned (Some exit) = None ->
  follows l (with_feeds e' tasks l).
Proof.
  intros Ej Ho. destruct (join_next_spec (poll_task e) (l_tasks l)) as [(dead & _ & Hd & Hp) _].
  rewrite Ej in Hp. cbn in Hp. destruct Hp as (h & Hh & Hp). apply joined_exit in Hh.
  assert (own_report h = None) as Hown by (unfold own_report; by rewrite Hh).
  exists [], dead, [h]. cbn. rewrite Hown. cbn. rewrite app_nil_r. unfold tally. cbn.
  repeat split; try done; try lia. by eapply joined_dead.
Qed.

Lemma follows_absorb e e' (l : Lp) term name tasks :
  join_next (poll_task e) l.(l_tasks) = (Some (ExitSourceTerminal term), tasks) ->
  term.(term_module) = Some name ->
  follows l (absorb name term (with_feeds e' tasks l)).
Proof.
  intros Ej Hn. destruct (join_next_spec (poll_task e) (l_tasks l)) as [(dead & _ & Hd & Hp) _].
  rewrite Ej in Hp. cbn in Hp. destruct Hp as (h & Hh & Hp). apply joined_exit in Hh.
  assert (own_report h = Some term) as Hown by (unfold own_report; rewrite Hh; cbn; by rewrite Hn).
  exists [OPoisonSource name], dead, [h]. cbn. rewrite Hown. cbn. rewrite Hn. cbn. unfold tally. cbn.
  repeat split; try done; try lia. by eapply joined_dead.
Qed.

(** A bounded wait is pending polls, then the one that decides. *)
Lemma grace_join_cases wakes : forall tasks (e : E) r tasks' e',
  grace_join tasks e wakes = (r, tasks', e') ->
  exists tasks1,
    join_next (poll_task e') tasks1 = (r, tasks') /\
    (length tasks1.(handles) <= length tasks.(handles))%nat /\
    forall l : Lp, l.(l_tasks) = tasks -> exists e1, follows l (with_feeds e1 tasks1 l).
Proof.
  induction wakes as [|e2 wakes IH]; intros tasks e r tasks' e' Eg; cbn in Eg.
  all: destruct (join_next (poll_task e) tasks) as [[x|] t1] eqn:Ej.
  1-3: injection Eg as <- <- <-; exists tasks; (split; [done|]); (split; [lia|]);
       intros l <-; exists (l_feeds l); destruct l; apply follows_refl.
  destruct (IH t1 e2 r tasks' e' Eg) as (tasks1 & Ej' & Hlen & Hf). exists tasks1. split; [done|].
  split.
  - destruct (join_next_spec (poll_task e) tasks) as [(dead & _ & _ & Hp) _]. rewrite Ej in Hp.
    cbn in Hp. apply Permutation_length in Hp. rewrite length_app in Hp. lia.
  - intros l <-. destruct (Hf (with_feeds e2 t1 l) eq_refl) as (e1 & Hf1). exists e1.
    eapply follows_trans; [by eapply (follows_pending e e2)|]. done.
Qed.

Definition ruled (d : Declared) (kind : StreamKind) (l' : Lp) (r : Ruling) : Prop :=
  match r with
  | RuledShared term =>
      term.(term_module) = None /\ exists t, task_outcome t = Some (ExitSourceTerminal term)
  | RuledAccounted => kind = KChainLog /\ l'.(l_terminal) = d.(chain_log_sources)
  | RuledUnaccounted =>
      (kind = KChainLog -> l'.(l_terminal) <> d.(chain_log_sources)) /\
      Forall (fun h => poll_task l'.(l_feeds) h.2 = JoinPending) l'.(l_tasks).(handles)
  end.

Lemma grace_loop_spec fuel d kind : forall l : Lp,
  (length l.(l_tasks).(handles) < fuel)%nat ->
  exists r l', grace_loop fuel d kind l = Some (r, l') /\ follows l l' /\ ruled d kind l' r.
Proof.
  induction fuel as [|fuel IH]; intros l Hlen; [lia|]. cbn [grace_loop].
  destruct (bool_decide (kind = KChainLog) && _) eqn:Ea.
  { apply andb_prop in Ea as [Ek Et]. apply bool_decide_eq_true in Ek. apply Nat.eqb_eq in Et.
    eexists _, _. split; [done|]. split; [apply follows_refl | done]. }
  destruct (grace_join (l_tasks l) (l_feeds l) _) as [[r tasks'] e'] eqn:Eg.
  destruct (grace_join_cases _ _ _ _ _ _ Eg) as (tasks1 & Ej & Hle & Hf).
  destruct (Hf l eq_refl) as (e1 & Hf1). clear Hf Eg.
  destruct r as [[|term]|].
  - pose proof (follows_exit e' e' (with_feeds e1 tasks1 l) _ _ Ej eq_refl) as Hf2.
    pose proof (join_next_shrinks _ _ _ _ Ej) as Hsh.
    destruct (IH (with_feeds e' tasks' l)) as (r & l' & -> & Hf3 & Hr); [cbn; lia|].
    eexists _, _. split; [done|]. split; [|done]. do 2 (eapply follows_trans; [done|]). done.
  - destruct (term_module term) as [name|] eqn:En.
    + pose proof (follows_absorb e' e' (with_feeds e1 tasks1 l) _ _ _ Ej En) as Hf2.
      pose proof (join_next_shrinks _ _ _ _ Ej) as Hsh.
      destruct (IH (absorb name term (with_feeds e' tasks' l))) as (r & l' & -> & Hf3 & Hr); [cbn; lia|].
      eexists _, _. split; [done|]. split; [|done]. do 2 (eapply follows_trans; [done|]). done.
    + assert (owned (Some (ExitSourceTerminal term)) = None) as Ho by (cbn; by rewrite En).
      pose proof (follows_exit e' e' (with_feeds e1 tasks1 l) _ _ Ej Ho) as Hf2.
      eexists _, _. split; [done|]. split; [by eapply follows_trans|]. split; [done|].
      destruct (join_next_spec (poll_task e') tasks1) as [(dead & _ & _ & Hp) _]. rewrite Ej in Hp.
      destruct Hp as (h & Hh & _). exists h.2. by eapply joined_exit.
  - pose proof (follows_pending e' e' (with_feeds e1 tasks1 l) _ Ej) as Hf2.
    eexists _, _. split; [done|]. split; [by eapply follows_trans|]. split.
    + intros ->. cbn in Ea |- *. by apply Nat.eqb_neq in Ea.
    + destruct (join_next_spec (poll_task e') tasks1) as [_ Hp]. rewrite Ej in Hp. by apply Hp.
Qed.

(** The stream whose end the select reports. *)
Definition stream_over (d : Declared) (l : Lp) (kind : StreamKind) : Prop :=
  let e := l.(l_feeds) in
  match kind with
  | KSchedule => d.(has_schedules) = true /\ poll_schedules e = Some None
  | KBlock => d.(has_blocks) = true /\ poll_blocks e = Some None
  | KChainLog => l.(l_chain_logs) = true /\ poll_chain_logs e = Some None
  | KExtension => d.(has_extensions) = true /\ poll_extensions e = Some None
  end.

(** Why an iteration may end the loop, [l1] being the loop just before its
    tasks are aborted and awaited. *)
Definition ended (d : Declared) (l l1 : Lp) (end_ : RunEnd) : Prop :=
  match end_ with
  | EndShutdown => poll_shutdown l.(l_feeds) = true /\ l1.(l_tasks) = l.(l_tasks)
  | EndStreamEnded =>
      (exists kind, stream_over d l kind /\
         (kind = KChainLog -> l1.(l_terminal) <> d.(chain_log_sources))) /\
      Forall (fun h => poll_task l1.(l_feeds) h.2 = JoinPending) l1.(l_tasks).(handles)
  | EndNothingLive =>
      stream_over d l KChainLog /\ l1.(l_terminal) = d.(chain_log_sources) /\
      d.(has_blocks) = false /\ d.(has_extensions) = false /\ d.(has_schedules) = false
  | EndSourceTerminal term =>
      term.(term_module) = None /\ exists t, task_outcome t = Some (ExitSourceTerminal term)
  end.

Definition step_ok (d : Declared) (l : Lp) (e : StepEnd B W S E) : Prop :=
  match e with
  | Next l' => follows l l'
  | Ended o l' => exists l1, follows l l1 /\ ended d l l1 o.(out_end) /\ Ended o l' = outcome o.(out_end) l1
  end.

Lemma outcome_ok d l l1 end_ : follows l l1 -> ended d l l1 end_ -> step_ok d l (outcome end_ l1).
Proof. intros Hf He. by exists l1. Qed.

(** What the select hands over. *)
Lemma select_spec d (l : Lp) :
  match select d l with
  | (Some NShutdown, l') => l' = l /\ poll_shutdown l.(l_feeds) = true
  | (Some (NSourceExit exit), l') =>
      exists tasks, l' = with_feeds l.(l_feeds) tasks l /\
        join_next (poll_task l.(l_feeds)) l.(l_tasks) = (Some exit, tasks)
  | (Some (NStreamEnd kind), l') => follows l l' /\ stream_over d l kind
  | (_, l') => follows l l'
  end.
Proof.
  unfold select. destruct (poll_shutdown (l_feeds l)) eqn:Es; [done|].
  destruct (join_next (poll_task (l_feeds l)) (l_tasks l)) as [[exit|] tasks] eqn:Ej.
  { by exists tasks. }
  assert (forall e', follows l (with_feeds e' tasks l)) as Hf by (intros e'; by eapply follows_pending).
  assert (forall {A} (b : bool) (p : option (option A)),
            (if b then p else None) = Some None -> b = true /\ p = Some None) as Hover
    by (intros A [] p; naive_solver).
  destruct (if has_schedules d then _ else _) as [[tick|]|] eqn:Eo; [apply Hf| |].
  { split; [apply Hf | by apply Hover in Eo]. }
  clear Eo. destruct (if has_blocks d then _ else _) as [[[[[chain header] received]|chain]|]|] eqn:Eo;
    [apply Hf | apply Hf | |].
  { split; [apply Hf | by apply Hover in Eo]. }
  clear Eo. destruct (if l_chain_logs l then _ else _)
    as [[[[[module chain] [log received|frontier]] [key|]]|]|] eqn:Eo; [apply Hf..| |].
  { split; [apply Hf | by apply Hover in Eo]. }
  clear Eo. destruct (if has_extensions d then _ else _) as [[delivery|]|] eqn:Eo; [apply Hf| |apply Hf].
  split; [apply Hf | by apply Hover in Eo].
Qed.

Lemma react_spec d next (l0 l : Lp) :
  match next with
  | NShutdown => l = l0 /\ poll_shutdown l0.(l_feeds) = true
  | NSourceExit exit =>
      exists tasks, l = with_feeds l0.(l_feeds) tasks l0 /\
        join_next (poll_task l0.(l_feeds)) l0.(l_tasks) = (Some exit, tasks)
  | NStreamEnd kind => follows l0 l /\ stream_over d l0 kind
  | _ => follows l0 l
  end ->
  exists e, react d next l = Some e /\ step_ok d l0 e.
Proof.
  intros Hn. destruct next as [block received | module chain log key received | module key frontier
    | delivery received | tick | | exit | kind |]; cbn [react].
  - eexists. split; [done|]. eapply follows_trans; [exact Hn|].
    by apply (follows_op (OBlock block received)).
  - eexists. split; [done|]. eapply follows_trans; [exact Hn|].
    by apply (follows_op (OEvent module chain log key received)).
  - eexists. split; [done|]. eapply follows_trans; [exact Hn|].
    by apply (follows_sup (OFrontierCommit module key frontier)).
  - eexists. split; [done|]. eapply follows_trans; [exact Hn|].
    by apply (follows_op (OExtension delivery received)).
  - eexists. split; [done|]. eapply follows_trans; [exact Hn|].
    by apply (follows_op (OSchedule (tick_module tick) (tick_fired_at tick) (tick_received tick))).
  - destruct Hn as [-> Hs]. eexists. split; [done|]. apply outcome_ok; [apply follows_refl | done].
  - destruct Hn as (tasks & -> & Ej). destruct exit as [|term].
    + eexists. split; [done|]. by eapply follows_exit.
    + destruct (term_module term) as [name|] eqn:En; (eexists; split; [done|]).
      * by eapply follows_absorb.
      * apply outcome_ok.
        { eapply follows_exit; [done|]. cbn. by rewrite En. }
        split; [done|].
        destruct (join_next_spec (poll_task (l_feeds l0)) (l_tasks l0)) as [(dead & _ & _ & Hp) _].
        rewrite Ej in Hp. destruct Hp as (h & Hh & _). exists h.2. by eapply joined_exit.
  - destruct Hn as [Hn Hover].
    destruct (grace_loop_spec (Datatypes.S (length (handles (l_tasks l)))) d kind l)
      as (r & l' & -> & Hf & Hr); [lia|].
    assert (follows l0 l') as Hf' by (by eapply follows_trans).
    destruct r as [term| |]; cbn in Hr.
    + eexists. split; [done|]. by apply outcome_ok.
    + destruct (has_blocks d || has_extensions d || has_schedules d) eqn:Eh; (eexists; split; [done|]).
      * eapply follows_trans; [exact Hf'|].
        destruct (follows_refl l') as (ops & dead & don & R). by exists ops, dead, don.
      * apply outcome_ok; [done|]. apply orb_false_iff in Eh as [Eh ?].
        apply orb_false_iff in Eh as [? ?]. by destruct Hr as [-> ?].
    + eexists. split; [done|]. apply outcome_ok; [done|]. destruct Hr. split; [by exists kind | done].
  - by eexists.
Qed.

Definition published (fresh : bool) (l : Lp) : Lp :=
  if fresh then with_sup (publish_health l.(l_sup)).2 l else l.

Lemma follows_published fresh (l : Lp) : follows l (published fresh l).
Proof. destruct fresh; [by apply (follows_sup OPublish) | apply follows_refl]. Qed.

Lemma iteration_spec d fresh (l : Lp) :
  exists fresh' e, iteration d fresh l = Some (fresh', e) /\ step_ok d (published fresh l) e.
Proof.
  unfold iteration. fold (published fresh l). pose proof (select_spec d (published fresh l)) as Hs.
  destruct (select d (published fresh l)) as [[next|] l'].
  - destruct (react_spec d next (published fresh l) l') as (e & -> & Hok); [by destruct next|].
    by eexists _, _.
  - by eexists _, _.
Qed.

(** Reachable loops, and the returns from one. *)
Inductive loops (d : Declared) : bool -> Lp -> bool -> Lp -> Prop :=
| loops_here fresh l : loops d fresh l fresh l
| loops_on fresh l fresh1 l1 fresh2 l2 :
    iteration d fresh l = Some (fresh1, Next l1) -> loops d fresh1 l1 fresh2 l2 ->
    loops d fresh l fresh2 l2.

Lemma loops_follow d fresh l fresh' l' : loops d fresh l fresh' l' -> follows l l'.
Proof.
  induction 1 as [|fresh l fresh1 l1 fresh2 l2 E1 _ IH]; [apply follows_refl|].
  destruct (iteration_spec d fresh l) as (f & e & E2 & Hok). rewrite E1 in E2. injection E2 as <- <-.
  eapply follows_trans; [apply follows_published|]. by eapply follows_trans.
Qed.

Lemma run_spec fuel d : forall fresh (l : Lp),
  match run fuel d fresh l with
  | inl (Some (o, l')) =>
      exists f1 l0 l1, loops d fresh l f1 l0 /\ follows l l1 /\ ended d l0 l1 o.(out_end) /\
        Ended o l' = outcome o.(out_end) l1
  | inl None => False
  | inr l' => follows l l'
  end.
Proof.
  induction fuel as [|fuel IH]; intros fresh l; [apply follows_refl|]. cbn [run].
  destruct (iteration_spec d fresh l) as (f1 & e & Ei & Hok). rewrite Ei.
  pose proof (follows_published fresh l) as Hp. destruct e as [l1|o l'].
  - specialize (IH f1 l1). destruct (run fuel d f1 l1) as [[[o l']|]|l'].
    + destruct IH as (f2 & l0 & l2 & Hl & Hf & He & Ho). exists f2, l0, l2.
      split; [by econstructor|]. split; [|done]. eapply follows_trans; [exact Hp|].
      by eapply follows_trans.
    + done.
    + eapply follows_trans; [exact Hp|]. by eapply follows_trans.
  - destruct Hok as (l1 & Hf & He & Ho). exists fresh, l, l1. split; [constructor|].
    split; [by eapply follows_trans|]. split; [|done].
    destruct fresh; [|done]. by destruct (out_end o).
Qed.

(** Quarantines stick. *)
Lemma run_sups_poisoned (s : Supervisor B W S) ops i m :
  s.(modules) !! i = Some m -> is_poisoned m.(m_health) = true ->
  exists m', (run_sups s ops).(modules) !! i = Some m' /\ is_poisoned m'.(m_health) = true.
Proof.
  intros Hm Hp. destruct (run_sups_evolves s ops) as (_ & _ & _ & _ & Hmods & _).
  destruct (Hmods i m Hm) as (m' & Hm' & _ & Hl). exists m'. split; [done|].
  destruct (Hl [] (Forall_nil_2 _)) as (traps & _ & Hr). apply health_steps_edge in Hr. cbn in Hr.
  unfold is_poisoned, state in *. destruct (lstate (m_health m)); try done. cbn in Hr.
  by destruct (lstate (m_health m')).
Qed.

Lemma evolves_position (s s' : Supervisor B W S) name :
  evolves s s' -> position name s' = position name s.
Proof.
  intros (_ & _ & _ & Hlen & Hmods & _). unfold position.
  assert (m_name <$> modules s' = m_name <$> modules s) as Hn.
  { apply list_eq. intros i. rewrite !list_lookup_fmap. destruct (modules s !! i) as [m|] eqn:Em.
    - destruct (Hmods i m Em) as (m' & -> & Hs & _). cbn. f_equal. by destruct Hs.
    - apply lookup_ge_None in Em. by rewrite (proj2 (lookup_ge_None (modules s') i)) by lia. }
  clear Hlen Hmods. revert Hn. generalize (modules s'), (modules s).
  intros ms'. induction ms' as [|m' ms' IH]; intros [|m ms] Hn; try done.
  cbn in Hn |- *. injection Hn as Hm Hn. rewrite Hm. case_decide; [done|].
  specialize (IH ms Hn). by destruct (list_find _ ms') as [[]|], (list_find _ ms) as [[]|]; cbn in *;
    simplify_eq.
Qed.

Lemma poison_source_poisons (s : Supervisor B W S) name i :
  position name s = Some i ->
  exists m, (poison_source name s).2.(modules) !! i = Some m /\ is_poisoned m.(m_health) = true.
Proof.
  unfold position, poison_source. intros Hpos. erewrite bind_eq by done.
  destruct (list_find _ (modules s)) as [[idx m]|] eqn:Ef; [|done]. cbn in Hpos. injection Hpos as ->.
  apply list_find_Some in Ef as (Hm & _ & _).
  destruct (is_poisoned (m_health m)) eqn:Ep; [by exists m|].
  erewrite bind_eq by apply put_module_eq. rewrite emit_eq, upd_upd. cbn.
  exists (with_health m (poison (m_health m))). split; [|done]. apply list_lookup_insert_eq. by eapply lookup_lt_Some.
Qed.

Lemma run_sups_poison (s : Supervisor B W S) ops name i :
  name ∈ omap op_poison ops -> position name s = Some i ->
  exists m, (run_sups s ops).(modules) !! i = Some m /\ is_poisoned m.(m_health) = true.
Proof.
  intros Hin Hpos. apply list_elem_of_omap in Hin as (op & Hin & Hop).
  destruct op; try done. cbn in Hop. injection Hop as ->.
  apply list_elem_of_split in Hin as (ops1 & ops2 & ->).
  unfold run_sups. rewrite fold_left_app. fold (run_sups s ops1). cbn [fold_left].
  rewrite <- (evolves_position s (run_sups s ops1)) in Hpos by apply run_sups_evolves.
  destruct (poison_source_poisons _ _ _ Hpos) as (m & Hm & Hp).
  by apply (run_sups_poisoned _ ops2 i m).
Qed.

Lemma follows_reports_poisoned (l l' : Lp) term name i :
  follows l l' -> l.(l_reports) = [] -> term ∈ l'.(l_reports) ->
  term.(term_module) = Some name -> position name l.(l_sup) = Some i ->
  exists m, l'.(l_sup).(modules) !! i = Some m /\ is_poisoned m.(m_health) = true.
Proof.
  intros (ops & dead & don & -> & _ & _ & _ & _ & Hr & Hq) H0' Hin Hn Hpos.
  rewrite Hr, H0' in Hin. cbn in Hin. eapply run_sups_poison; [|done]. rewrite Hq.
  apply list_elem_of_omap. by exists term.
Qed.

(** The tally of an end, and its last publication. *)
Lemma outcome_inv end_ (l : Lp) o l' :
  Ended o l' = outcome end_ l ->
  o = mkRunOutcome l.(l_blocks) l.(l_events) end_ /\ l'.(l_sup) = (publish_health l.(l_sup)).2 /\
  l'.(l_reports) = l.(l_reports) /\ l'.(l_tasks).(handles) = [].
Proof. unfold outcome. intros [= -> ->]. done. Qed.


(** The loop never gets stuck ruling on a stream's end, and returns only
    for cause: [Shutdown] when the signal had fired at its last select;
    [SourceTerminal] when a task shared between modules reported it;
    [StreamEnded] when a declared stream ended that the reports do not account
    for, with every task left still running after the grace period; and
    [NothingLive] when the event streams ended with every source's report in and
    no other kind of trigger declared. *)
Theorem run_ends_for_cause fuel d (l : Lp) :
  run fuel d true l <> inl None /\
  forall o l', run fuel d true l = inl (Some (o, l')) ->
    exists fresh l0 l1,
      loops d true l fresh l0 /\ follows l l1 /\ l'.(l_sup) = (publish_health l1.(l_sup)).2 /\
      match o.(out_end) with
      | EndShutdown => poll_shutdown l0.(l_feeds) = true
      | EndStreamEnded =>
          (exists kind, stream_over d l0 kind /\
             (kind = KChainLog -> l1.(l_terminal) <> d.(chain_log_sources))) /\
          Forall (fun h => poll_task l1.(l_feeds) h.2 = JoinPending) l1.(l_tasks).(handles)
      | EndNothingLive =>
          stream_over d l0 KChainLog /\ l1.(l_terminal) = d.(chain_log_sources) /\
          d.(has_blocks) = false /\ d.(has_extensions) = false /\ d.(has_schedules) = false
      | EndSourceTerminal term =>
          term.(term_module) = None /\ exists t, task_outcome t = Some (ExitSourceTerminal term)
      end.
Proof.
  pose proof (run_spec fuel d true l) as Hr. split; [by intros Er; rewrite Er in Hr|].
  intros o l' Er. rewrite Er in Hr. destruct Hr as (f1 & l0 & l1 & Hl & Hf & He & Ho).
  exists f1, l0, l1. do 2 (split; [done|]). apply outcome_inv in Ho as (Eo & Hs & _). split; [done|].
  unfold ended in He. destruct (out_end o); try done. by destruct He.
Qed.

(** As many reports as sources leaves no source unreported. *)
Lemma omap_filter_length {A C} (f : A -> option C) (p : A -> bool) (xs : list A) :
  (forall x, is_Some (f x) -> p x = true) ->
  (length (omap f xs) <= length (List.filter p xs))%nat /\
  ((length (List.filter p xs) <= length (omap f xs))%nat ->
     forall x, x ∈ xs -> p x = true -> is_Some (f x)).
Proof.
  intros Hfp. induction xs as [|x xs [IH1 IH2]]; [split; [done | set_solver]|]. cbn.
  destruct (f x) as [c|] eqn:Ef; [rewrite (Hfp x) by done|destruct (p x) eqn:Ep]; cbn.
  - split; [lia|]. intros Hle y [->|Hy]%elem_of_cons Hp; [by rewrite Ef|]. apply IH2; [lia|done..].
  - split; [lia|]. intros Hle. lia.
  - split; [lia|]. intros Hle y [->|Hy]%elem_of_cons Hp; [congruence|]. by apply IH2.
Qed.

Lemma filter_perm {A} (p : A -> bool) (xs ys : list A) :
  xs ≡ₚ ys -> List.filter p xs ≡ₚ List.filter p ys.
Proof.
  induction 1; cbn; [done| | |by etrans].
  - by destruct (p x); [constructor|].
  - destruct (p x), (p y); [apply Permutation_swap|done..].
Qed.

Lemma all_reported (chain_log : nat -> bool) (l l1 : Lp) h :
  follows l l1 -> l.(l_terminal) = 0%nat ->
  (forall t, is_Some (owned (task_outcome t)) -> chain_log t = true) ->
  (length (List.filter (fun h => chain_log h.2) l.(l_tasks).(handles)) <= l1.(l_terminal))%nat ->
  h ∈ l.(l_tasks).(handles) -> chain_log h.2 = true ->
  exists term, own_report h = Some term /\ term ∈ l1.(l_reports).
Proof.
  intros (ops & dead & don & _ & _ & Hp & _ & Ht & Hr & _) H0' Hown Hlen Hin Hcl.
  destruct (omap_filter_length own_report (fun h => chain_log h.2) don) as [Hle Hall].
  { intros x. apply Hown. }
  rewrite H0' in Ht. cbn in Ht.
  assert (length (List.filter (fun h => chain_log h.2) (dead ++ don ++ handles (l_tasks l1))) <=
          length (omap own_report don))%nat as Hbound.
  { rewrite <- Ht. etrans; [|exact Hlen]. apply Nat.eq_le_incl, Permutation_length.
    by apply filter_perm. }
  rewrite !List.filter_app, !length_app in Hbound.
  assert (forall hs : list (text * nat), h ∈ hs ->
            (0 < length (List.filter (fun h => chain_log h.2) hs))%nat) as Hpos.
  { intros hs Hhs. destruct (List.filter _ hs) eqn:Ef; [|cbn; lia].
    assert (In h (List.filter (fun h => chain_log h.2) hs)) as Hc
      by (apply List.filter_In; split; [by apply list_elem_of_In | done]). by rewrite Ef in Hc. }
  rewrite Hp in Hin. apply elem_of_app in Hin as [Hin|[Hin|Hin]%elem_of_app].
  - apply Hpos in Hin. lia.
  - destruct (Hall ltac:(lia) h Hin Hcl) as [term Hterm]. exists term. split; [done|].
    rewrite Hr. apply elem_of_app. right. apply list_elem_of_omap. by exists h.
  - apply Hpos in Hin. lia.
Qed.

(** The engine declares itself idle only after every event source has
    ended terminally: on [NothingLive], every chain-log task of the set returned
    a terminal report for its own module, and that module, if loaded, is
    quarantined. *)
Theorem nothing_live_means_every_source_reported fuel d s e tasks o (l' : Lp) chain_log :
  (forall t, is_Some (owned (task_outcome t)) -> chain_log t = true) ->
  length (List.filter (fun h => chain_log h.2) tasks.(handles)) = d.(chain_log_sources) ->
  run fuel d true (loop_init d s e tasks) = inl (Some (o, l')) -> o.(out_end) = EndNothingLive ->
  forall h, h ∈ tasks.(handles) -> chain_log h.2 = true ->
    exists term name,
      task_outcome h.2 = Some (ExitSourceTerminal term) /\ term.(term_module) = Some name /\
      forall i, position name s = Some i ->
        exists m, l'.(l_sup).(modules) !! i = Some m /\ is_poisoned m.(m_health) = true.
Proof.
  intros Hown Hcount Er Eo h Hin Hcl. pose proof (run_spec fuel d true (loop_init d s e tasks)) as Hr.
  rewrite Er in Hr. destruct Hr as (f1 & l0 & l1 & _ & Hf & He & Ho). rewrite Eo in He.
  destruct He as (_ & Ht & _).
  destruct (all_reported chain_log _ l1 h Hf eq_refl Hown) as (term & Hterm & Hrep); [|done..|].
  { cbn [loop_init l_tasks]. rewrite Hcount, Ht. done. }
  unfold own_report, owned in Hterm. destruct (task_outcome h.2) as [[|term']|] eqn:Eh; try done.
  destruct (term_module term') as [name|] eqn:En; [|done]. injection Hterm as ->.
  exists term, name. do 2 (split; [done|]). intros i Hpos.
  destruct (follows_reports_poisoned _ l1 term name i Hf eq_refl Hrep En Hpos) as (m & Hm & Hp).
  apply outcome_inv in Ho as (_ & -> & _).
  destruct (run_sups_poisoned (l_sup l1) [OPublish] i m Hm Hp) as (m' & Hm' & Hp'). by exists m'.
Qed.

(** A fired shutdown preempts every other arm: the iteration that
    observes it returns at once, having changed nothing but the published
    health, so no guest is entered and no module moves after it. *)
Theorem shutdown_preempts d fresh (l : Lp) :
  poll_shutdown l.(l_feeds) = true ->
  exists l', iteration d fresh l
               = Some (true, Ended (mkRunOutcome l.(l_blocks) l.(l_events) EndShutdown) l') /\
    l'.(l_sup) = run_sups l.(l_sup) (if fresh then [OPublish; OPublish] else [OPublish]) /\
    l'.(l_sup).(modules) = l.(l_sup).(modules) /\ l'.(l_sup).(world) = l.(l_sup).(world).
Proof.
  intros Hs. assert (forall s : Supervisor B W S, (publish_health s).2.(modules) = s.(modules) /\
                       (publish_health s).2.(world) = s.(world)) as Hpub.
  { intros s. destruct (publish_spec s) as (evs & -> & _). by destruct (health s). }
  destruct fresh; unfold iteration, select; cbn; rewrite Hs; cbn; unfold outcome; cbn.
  all: eexists; split; [done|]; cbn; split; [done|].
  - destruct (Hpub (publish_health (l_sup l)).2) as [-> ->]. apply Hpub.
  - apply Hpub.
Qed.
End Facts.

(** ** A scripted feed

    Queued blocks and logs, then either the shutdown or the end of the event
    streams; every task's exit is a terminal report for the first module. *)

Module Feed.
Record Feed : Type := mkFeed {
  until_shutdown : nat;
  queued_blocks : list TaggedBlock;
  queued_logs : list TaggedChainLog;
  logs_end : bool
}.

Definition report : TaskExit :=
  ExitSourceTerminal (mkTermination (Some (chars_of "a")) 1 (chars_of "reorg")).

Definition outcome_of (t : nat) : option TaskExit := Some report.

Definition polled {A} (queue : list A) (ends : bool) : option (option A) :=
  match queue with x :: _ => Some (Some x) | [] => if ends then Some None else None end.

#[global] Instance scripted : Feeds Feed := {|
  poll_shutdown e := (e.(until_shutdown) =? 0)%nat;
  poll_task _ _ := JoinReady report;
  poll_schedules _ := None;
  poll_blocks e := polled e.(queued_blocks) false;
  poll_chain_logs e := polled e.(queued_logs) e.(logs_end);
  poll_extensions _ := None;
  received_now _ := 0;
  taken k e :=
    mkFeed (pred e.(until_shutdown))
      (if bool_decide (k = KBlock) then drop 1 e.(queued_blocks) else e.(queued_blocks))
      (if bool_decide (k = KChainLog) then drop 1 e.(queued_logs) else e.(queued_logs))
      e.(logs_end);
  woken e := mkFeed (pred e.(until_shutdown)) e.(queued_blocks) e.(queued_logs) e.(logs_end);
  grace_wakes _ := []
|}.

Lemma scripted_faithful (e : Feed) : faithful outcome_of (poll_task e).
Proof. by right. Qed.

(** A block, a log and a frontier, then the signal. *)
Definition busy : Feed :=
  mkFeed 3 [Ok (1, mkHeader 7 [] 0, 0)]
    [(chars_of "b", 1, ItemLog (Script.log 9) 0, Some (chars_of "k"));
     (chars_of "b", 1, ItemFrontier 10, Some (chars_of "k"))] false.

Definition both : Declared := mkDeclared 1 true false false.

(** The only event source ends, and reports. *)
Definition ending : Feed := mkFeed 9 [] [] true.
Definition one_task : TaskSet := push task_set_new (chars_of "chain-log:1:a") 0.
Definition events_only : Declared := mkDeclared 1 false false false.

Definition start_busy : Loop unit Script.Script _ Feed := loop_init both Script.demo busy task_set_new.
Definition start_ending : Loop unit Script.Script _ Feed :=
  loop_init events_only Script.demo ending one_task.
End Feed.

Example feed_runs :
  match run 5 Feed.both true Feed.start_busy, run 5 Feed.events_only true Feed.start_ending with
  | inl (Some (o, _)), inl (Some (o', l')) =>
      o = mkRunOutcome 1 1 EndShutdown /\ o' = mkRunOutcome 0 0 EndNothingLive /\
      ((fun m => state m.(m_health)) <$> l'.(l_sup).(modules)) = [MPoisoned; MAlive]
  | _, _ => False
  end.
Proof. vm_compute. repeat split. Qed.


Lemma run_ends_for_cause_witness :
  run 5 Feed.both true Feed.start_busy <> inl None.
Proof.
  apply (run_ends_for_cause Feed.outcome_of Feed.scripted_faithful 5 Feed.both Feed.start_busy).
Defined.

Lemma nothing_live_means_every_source_reported_witness :
  match run 5 Feed.events_only true Feed.start_ending with
  | inl (Some (o, l')) =>
      exists term name,
        Feed.outcome_of 0 = Some (ExitSourceTerminal term) /\ term.(term_module) = Some name /\
        forall i, position name Script.demo = Some i ->
          exists m, l'.(l_sup).(modules) !! i = Some m /\ is_poisoned m.(m_health) = true
  | _ => False
  end.
Proof.
  destruct (run 5 Feed.events_only true Feed.start_ending) as [[[o l']|]|] eqn:Er;
    [|vm_compute in Er; discriminate Er..].
  assert (o.(out_end) = EndNothingLive) as Eo by (vm_compute in Er; by injection Er as <- <-).
  apply (nothing_live_means_every_source_reported Feed.outcome_of Feed.scripted_faithful 5
           Feed.events_only Script.demo Feed.ending Feed.one_task o l' (fun _ => true)
           (fun _ _ => eq_refl) eq_refl Er Eo (chars_of "chain-log:1:a", 0%nat));
    [by apply list_elem_of_singleton | reflexivity].
Defined.

Lemma shutdown_preempts_witness :
  exists l', iteration Feed.both true (with_feeds (Feed.mkFeed 0 [] [] false) task_set_new Feed.start_busy)
               = Some (true, Ended (mkRunOutcome 0 0 EndShutdown) l') /\
    l'.(l_sup) = run_sups Script.demo [OPublish; OPublish] /\
    l'.(l_sup).(modules) = Script.demo.(modules) /\ l'.(l_sup).(world) = Script.demo.(world).
Proof.
  apply (shutdown_preempts Feed.both true
           (with_feeds (Feed.mkFeed 0 [] [] false) task_set_new Feed.start_busy)). reflexivity.
Defined.
