(* ===== verification/Schedule.v ===== *)
(** * Schedule: the task behind a schedule trigger

    [schedule_task] of runtime/schedule.rs: arm from the wall clock, sleep
    towards the next fire time for a second at most, read the wall clock again,
    and offer a due tick to a channel of one slot. The clocks, the sleep and the
    receiver are parameters; the cron search is [Cron]'s. *)

From stdpp Require Import prelude list strings relations.
From Stdlib Require Import ZArith Lia Sorted.
From S2P Require Import Prelude Cron EventLoop.

Local Open Scope rust_scope.
Local Open Scope Z_scope.

Definition WALL_CLOCK_RECHECK : Z := duration_from_secs 1.
Definition PENDING_TICKS : nat := 1.

(** [wall_now] is the host's wall clock, [instant_now] [ReceivedAt::now];
    [sleep] answers whether the receiver closed before the time was over, and
    [receiver_gone] whether a send finds it closed. *)
Class Clocks (E : Type) : Type := {
  wall_now : E -> Z * E;
  instant_now : E -> Z * E;
  sleep : E -> Z -> bool * E;
  receiver_gone : E -> bool
}.

(** What became of a due tick: sent, or coalesced into the one still pending. *)
Inductive Offer : Type := Sent | Coalesced.

(** The task and its channel. [s_readings] logs the wall clock's readings and
    [s_ticks] the ticks generated, each with the fire time it was due at;
    [s_delivered] is what the receiver took. *)
Record Sched (E : Type) : Type := mkSched {
  s_clocks : E;
  s_pending : list ScheduleTick;
  s_readings : list Z;
  s_ticks : list (Z * ScheduleTick * Offer);
  s_delivered : list ScheduleTick
}.
Arguments mkSched {E}.
Arguments s_clocks {E}.
Arguments s_pending {E}.
Arguments s_readings {E}.
Arguments s_ticks {E}.
Arguments s_delivered {E}.

Inductive SchedEnd (E : Type) : Type :=
| Looping (st : Sched E)
| Parked (st : Sched E)
| Gone (st : Sched E).
Arguments Looping {E}.
Arguments Parked {E}.
Arguments Gone {E}.

Section Task.
Context {E : Type} `{Clocks E}.
Variables (module : text) (cron : CronSchedule).

Definition sched_init (e : E) : Sched E := mkSched e [] [] [] [].

Definition read_wall (st : Sched E) : Z * Sched E :=
  let (t, e) := wall_now st.(s_clocks) in
  (t, mkSched e st.(s_pending) (st.(s_readings) ++ [t]) st.(s_ticks) st.(s_delivered)).

Definition set_clocks (e : E) (st : Sched E) : Sched E :=
  mkSched e st.(s_pending) st.(s_readings) st.(s_ticks) st.(s_delivered).

(** [tx.try_send]: [None] when the receiver is gone. *)
Definition try_send (due : Z) (tick : ScheduleTick) (st : Sched E) : option (Sched E) :=
  if receiver_gone st.(s_clocks) then None
  else if (length st.(s_pending) <? PENDING_TICKS)%nat
  then Some (mkSched st.(s_clocks) (st.(s_pending) ++ [tick]) st.(s_readings)
               (st.(s_ticks) ++ [(due, tick, Sent)]) st.(s_delivered))
  else Some (mkSched st.(s_clocks) st.(s_pending) st.(s_readings)
               (st.(s_ticks) ++ [(due, tick, Coalesced)]) st.(s_delivered)).

(** One pass of the task's loop. *)
Definition schedule_pass (st : Sched E) : SchedEnd E :=
  let (armed_at, st) := read_wall st in
  match next_after cron armed_at with
  | None => Parked st
  | Some due =>
      let wait := Z.min (due -| armed_at) WALL_CLOCK_RECHECK in
      let (closed, e) := sleep st.(s_clocks) wait in
      let st := set_clocks e st in
      if closed : bool then Gone st
      else
        let (now, st) := read_wall st in
        if now <? due then Looping st
        else
          let (received, e) := instant_now st.(s_clocks) in
          let tick := mkTick module (u64_sat (as_millis now)) received in
          match try_send due tick (set_clocks e st) with
          | Some st => Looping st
          | None => Gone (set_clocks e st)
          end
  end.

(** The receiver's side: the event loop takes the pending tick. *)
Definition recv (st : Sched E) : option (Sched E) :=
  match st.(s_pending) with
  | [] => None
  | tick :: rest =>
      Some (mkSched st.(s_clocks) rest st.(s_readings) st.(s_ticks) (st.(s_delivered) ++ [tick]))
  end.

(** Passes and receives interleave. *)
Inductive sched_step : Sched E -> Sched E -> Prop :=
| step_pass st st' : schedule_pass st = Looping st' -> sched_step st st'
| step_recv st st' : recv st = Some st' -> sched_step st st'.

(** ** What a pass and a run do *)

Definition dues (st : Sched E) : list Z := (fun t => t.1.1) <$> st.(s_ticks).
Definition sent_ticks (st : Sched E) : list ScheduleTick :=
  omap (fun t => match t.2 with Sent => Some t.1.2 | Coalesced => None end) st.(s_ticks).

(** A finished pass: two readings, and a tick exactly when the search's answer
    had come by the second one. *)
Lemma schedule_pass_spec st st' :
  schedule_pass st = Looping st' ->
  exists armed_at now due,
    next_after cron armed_at = Some due /\
    st'.(s_readings) = st.(s_readings) ++ [armed_at; now] /\
    st'.(s_delivered) = st.(s_delivered) /\
    ((now < due /\ st'.(s_ticks) = st.(s_ticks) /\ st'.(s_pending) = st.(s_pending)) \/
     (due <= now /\ exists received offer,
        let tick := mkTick module (u64_sat (as_millis now)) received in
        st'.(s_ticks) = st.(s_ticks) ++ [(due, tick, offer)] /\
        match offer with
        | Sent => st.(s_pending) = [] /\ st'.(s_pending) = [tick]
        | Coalesced => st.(s_pending) <> [] /\ st'.(s_pending) = st.(s_pending)
        end)).
Proof.
  unfold schedule_pass, read_wall. destruct (wall_now (s_clocks st)) as [armed_at e1]. cbn.
  destruct (next_after cron armed_at) as [due|] eqn:En; [|done].
  destruct (sleep e1 _) as [[] e2]; [done|]. cbn. destruct (wall_now e2) as [now e3]. cbn.
  destruct (Z.ltb_spec now due) as [Hlt|Hge].
  { intros [= <-]. exists armed_at, now, due. cbn. rewrite <- app_assoc.
    do 3 (split; [done|]). by left. }
  destruct (instant_now e3) as [received e4]. unfold try_send. cbn.
  destruct (receiver_gone e4); [done|].
  destruct (s_pending st) as [|p ps] eqn:Ep; cbn; intros [= <-]; exists armed_at, now, due; cbn;
    rewrite <- app_assoc; (do 3 (split; [done|])); right; (split; [done|]); exists received.
  - by exists Sent.
  - by exists Coalesced.
Qed.

(** C39: a pass of a validated schedule offers a tick exactly when a fire time
    lies after the instant it was armed at and not after the one it woke at,
    stamped with that wall-clock instant; the tick stands for all of them, and is
    sent unless an earlier one is still pending. *)
Theorem tick_iff_fire_time_passed st st' unicode_alphabetic expression :
  from_str unicode_alphabetic expression = Ok cron ->
  schedule_pass st = Looping st' ->
  exists armed_at now,
    st'.(s_readings) = st.(s_readings) ++ [armed_at; now] /\
    (is_duration armed_at ->
       ((exists f, fire_time cron f /\ armed_at < f <= now) <->
        exists due received offer,
          let tick := mkTick module (u64_sat (as_millis now)) received in
          st'.(s_ticks) = st.(s_ticks) ++ [(due, tick, offer)] /\
          (offer = Sent <-> st.(s_pending) = []) /\
          st'.(s_pending) = match st.(s_pending) with [] => [tick] | ps => ps end)).
Proof.
  intros Hs Hp. destruct (schedule_pass_spec st st' Hp) as (armed_at & now & due & Hn & Hr & _ & Hor).
  exists armed_at, now. split; [done|]. intros Hd.
  destruct (next_after_first_fire cron armed_at due) as (Hlt & Hf & Hfirst); [|done..|].
  { by eapply wf_minutes, from_str_wf. }
  destruct Hor as [(Hnow & Ht & _)|(Hnow & received & offer & Ht & Ho)].
  - split.
    + intros (f & Hff & Hrange). exfalso. destruct (decide (f < due)); [|lia].
      by apply (Hfirst f); [lia|].
    + intros (due' & received & offer & Ht' & _). exfalso. rewrite Ht in Ht'.
      apply (f_equal length) in Ht'. rewrite length_app in Ht'. cbn in Ht'. lia.
  - split; [intros _ | by exists due]. exists due, received, offer. cbn in *. split; [done|].
    destruct offer.
    + destruct Ho as [-> ->]. done.
    + destruct (s_pending st) eqn:Ep; [by destruct Ho|]. destruct Ho as [_ ->]. split; [|done].
      split; done.
Qed.

Lemma sorted_le_app (xs ys : list Z) :
  StronglySorted Z.le (xs ++ ys) ->
  StronglySorted Z.le xs /\ forall x y, x ∈ xs -> y ∈ ys -> x <= y.
Proof.
  induction xs as [|x xs IH]; cbn; [split; [constructor | set_solver]|].
  intros [Hs Hf]%StronglySorted_inv. destruct (IH Hs) as [IH1 IH2]. rewrite Forall_app in Hf.
  destruct Hf as [Hx Hy]. split; [by constructor|].
  intros a y [->|Ha]%elem_of_cons Hin; [|by apply IH2]. rewrite Forall_forall in Hy. auto.
Qed.

Lemma sorted_lt_snoc (xs : list Z) y :
  StronglySorted Z.lt xs -> (forall x, x ∈ xs -> x < y) -> StronglySorted Z.lt (xs ++ [y]).
Proof.
  induction 1 as [|x xs Hs IH Hf]; intros Hy; cbn; [by repeat constructor|].
  constructor; [apply IH; set_solver|]. apply Forall_app. split; [done|].
  apply Forall_singleton. apply Hy. set_solver.
Qed.

(** The channel conserves what was sent, and holds one tick at most. *)
Definition channel_ok (st : Sched E) : Prop :=
  sent_ticks st = st.(s_delivered) ++ st.(s_pending) /\
  (length st.(s_pending) <= PENDING_TICKS)%nat.

(** Under a clock that only moves forward, every tick was due by some reading,
    and the fire times ascend. *)
Definition in_step (st : Sched E) : Prop :=
  StronglySorted Z.le st.(s_readings) -> Forall is_duration st.(s_readings) ->
  StronglySorted Z.lt (dues st) /\ Forall (fire_time cron) (dues st) /\
  forall d, d ∈ dues st -> exists r, r ∈ st.(s_readings) /\ d <= r.

Lemma sched_step_ok st st' :
  mask_within cron.(minutes) 0 59 -> sched_step st st' ->
  channel_ok st -> in_step st -> channel_ok st' /\ in_step st'.
Proof.
  intros Hw Hstep [Hc Hlen] Hin. destruct Hstep as [st st' Hp | st st' Hr].
  - destruct (schedule_pass_spec st st' Hp) as (armed_at & now & due & Hn & Hr & Hd & Hor).
    destruct Hor as [(_ & Ht & Hpe)|(Hnow & received & offer & Ht & Ho)].
    + split; [by unfold channel_ok, sent_ticks; rewrite Ht, Hd, Hpe|].
      unfold in_step, dues. rewrite Hr, Ht. intros Hs Hf. apply sorted_le_app in Hs as [Hs _].
      apply Forall_app in Hf as [Hf _]. destruct (Hin Hs Hf) as (H1 & H2 & H3).
      do 2 (split; [done|]). intros d Hdd. destruct (H3 d Hdd) as (r & ? & ?). exists r. set_solver.
    + split.
      * unfold channel_ok, sent_ticks, PENDING_TICKS in *. rewrite Ht, Hd, omap_app. cbn.
        destruct offer; destruct Ho as [Ho1 Ho2]; rewrite Ho2; cbn.
        -- rewrite Hc, Ho1, app_nil_r. split; [done | lia].
        -- by rewrite Hc, app_nil_r.
      * unfold in_step, dues. rewrite Hr, Ht, fmap_app. intros Hs Hf.
        apply sorted_le_app in Hs as [Hs Hcross]. apply Forall_app in Hf as [Hf Hf2].
        apply Forall_inv in Hf2. destruct (Hin Hs Hf) as (H1 & H2 & H3).
        destruct (next_after_first_fire cron armed_at due Hw Hf2 Hn) as (Hlt & Hfire & _).
        split; [|split].
        -- apply sorted_lt_snoc; [done|]. intros d Hdd. destruct (H3 d Hdd) as (r & Hrin & Hle).
           specialize (Hcross r armed_at Hrin ltac:(set_solver)). cbn. lia.
        -- apply Forall_app. by split; [|apply Forall_singleton].
        -- intros d [Hdd|Hdd]%elem_of_app.
           ++ destruct (H3 d Hdd) as (r & ? & ?). exists r. set_solver.
           ++ apply list_elem_of_singleton in Hdd as ->. exists now. set_solver.
  - unfold recv in Hr. destruct (s_pending st) as [|tick rest] eqn:Ep; [done|]. injection Hr as <-.
    split; [|done]. unfold channel_ok, sent_ticks, PENDING_TICKS in *. cbn in *.
    rewrite Hc, <- app_assoc. split; [done | lia].
Qed.

(** Over any interleaving of the task and its receiver, the ticks sent
    are exactly those delivered and the one still pending, in order, and at most
    one is pending; and while the wall clock does not step back, no fire time is
    ticked twice: the instants the ticks were due at are fire times of the
    schedule and strictly ascend, however far the clock jumped ahead. *)
Theorem schedule_ticks_once_in_order unicode_alphabetic expression e st :
  from_str unicode_alphabetic expression = Ok cron ->
  rtc sched_step (sched_init e) st ->
  (sent_ticks st = st.(s_delivered) ++ st.(s_pending) /\ (length st.(s_pending) <= 1)%nat) /\
  (StronglySorted Z.le st.(s_readings) -> Forall is_duration st.(s_readings) ->
     StronglySorted Z.lt (dues st) /\ Forall (fire_time cron) (dues st)).
Proof.
  intros Hs Hr. assert (mask_within cron.(minutes) 0 59) as Hw by (by eapply wf_minutes, from_str_wf).
  assert (channel_ok (sched_init e) /\ in_step (sched_init e)) as H0.
  { split; [split; [done | cbn; lia]|]. intros _ _. split; [constructor|]. split; [constructor|].
    cbn. set_solver. }
  assert (channel_ok st /\ in_step st) as [Hc Hi].
  { clear Hs. induction Hr as [|st0 st1 st2 Hstep _ IH]; [done|]. destruct H0 as [H0a H0b].
    apply IH. by eapply sched_step_ok. }
  split; [exact Hc|]. intros H1 H2. destruct (Hi H1 H2) as (? & ? & _). done.
Qed.
End Task.

(** ** A scripted clock *)

Module Clock.
(** The wall clock reads off a list; the sleep and the receiver never fail. *)
#[global] Instance scripted : Clocks (list Z) := {|
  wall_now e := (hd 0 e, tl e);
  instant_now e := (0, e);
  sleep e _ := (false, e);
  receiver_gone _ := false
|}.

Definition every_minute : CronSchedule :=
  match from_str (fun _ => false) (chars_of "* * * * *") with
  | Ok s => s
  | Err _ => mkCronSchedule 0 0 0 0 0 false []
  end.

Definition at_ms (ms : Z) : Z := duration_from_millis ms.
Definition module : text := chars_of "a".

(** Armed before the first minute, woken after it. *)
Definition punctual : Sched (list Z) := sched_init [at_ms 59500; at_ms 60001].

Definition pass_of (st : Sched (list Z)) : Sched (list Z) :=
  match schedule_pass module every_minute st with Looping st => st | Parked st | Gone st => st end.
End Clock.

Lemma tick_iff_fire_time_passed_witness :
  exists armed_at now,
    (Clock.pass_of Clock.punctual).(s_readings) = [] ++ [armed_at; now] /\
    (is_duration armed_at ->
       ((exists f, fire_time Clock.every_minute f /\ armed_at < f <= now) <->
        exists due received offer,
          let tick := mkTick Clock.module (u64_sat (as_millis now)) received in
          (Clock.pass_of Clock.punctual).(s_ticks) = [] ++ [(due, tick, offer)] /\
          (offer = Sent <-> Clock.punctual.(s_pending) = []) /\
          (Clock.pass_of Clock.punctual).(s_pending) = [tick])).
Proof.
  apply (tick_iff_fire_time_passed Clock.module Clock.every_minute Clock.punctual
           (Clock.pass_of Clock.punctual) (fun _ => false) (chars_of "* * * * *")).
  - vm_compute. reflexivity.
  - vm_compute. reflexivity.
Defined.

Lemma schedule_ticks_once_in_order_witness :
  let st := Clock.pass_of Clock.punctual in
  (sent_ticks st = st.(s_delivered) ++ st.(s_pending) /\ (length st.(s_pending) <= 1)%nat) /\
  (StronglySorted Z.le st.(s_readings) -> Forall is_duration st.(s_readings) ->
     StronglySorted Z.lt (dues st) /\ Forall (fire_time Clock.every_minute) (dues st)).
Proof.
  apply (schedule_ticks_once_in_order Clock.module Clock.every_minute (fun _ => false)
           (chars_of "* * * * *") [Clock.at_ms 59500; Clock.at_ms 60001]).
  - vm_compute. reflexivity.
  - apply rtc_once, step_pass. vm_compute. reflexivity.
Defined.

(** A fire time that falls between the reading a pass woke at and the reading the
    next one arms from is ticked by neither: here the minute at 60 s, with the
    clock read just before it and just after. *)
Example fire_time_between_readings_is_lost :
  let st := sched_init [Clock.at_ms 58500; Clock.at_ms 60000 - 1; Clock.at_ms 60000; Clock.at_ms 61000] in
  let st := Clock.pass_of (Clock.pass_of st) in
  st.(s_readings) = [Clock.at_ms 58500; Clock.at_ms 60000 - 1; Clock.at_ms 60000; Clock.at_ms 61000] /\
  st.(s_ticks) = [] /\ fires Clock.every_minute 1 = true.
Proof. vm_compute. repeat split. Qed.
