(* ===== verification/HostStore.v ===== *)
(** * HostStore: a module's view of its key-value store

    The guest side of the store, [crates/nexum-sdk/src/host.rs] and
    [store.rs]: the [LocalStoreHost] trait as a class with the laws its clients
    rely on, the trait's default methods over the four required ones, the pager
    behind the default listing, and the helpers built on the trait. *)

From stdpp Require Import prelude list gmap sorting strings.
From Stdlib Require Import ZArith Lia.
From S2P Require Import Prelude StoreApi.

Local Open Scope Z_scope.

Inductive Fault : Type :=
| Unsupported (detail : text)
| Unavailable (detail : text)
| Denied (detail : text)
| FaultRateLimited
| FaultTimeout
| InvalidInput (detail : text)
| Internal (detail : text).

(** ** The trait *)

(** A host call: it answers or faults, and the host moves on. *)
Definition K (H A : Type) : Type := H -> result A Fault * H.

#[export] Instance K_ret H : MRet (K H) := fun A a h => (Ok a, h).
#[export] Instance K_bind H : MBind (K H) := fun A B f m h =>
  match m h with
  | (Ok a, h) => f a h
  | (Err e, h) => (Err e, h)
  end.

(** The required methods; [kv_rows] is what the store holds. *)
Class KvHost (H : Type) : Type := {
  kv_get : text -> K H (option (list Z));
  kv_set : text -> list Z -> K H unit;
  kv_delete : text -> K H unit;
  kv_list_keys : text -> K H (list text);
  kv_rows : H -> gmap text (list Z)
}.

Class KvLaws (H : Type) `{KvHost H} : Prop := {
  kv_get_law h key r h' :
    kv_get key h = (r, h') ->
    kv_rows h' = kv_rows h /\ forall v, r = Ok v -> v = kv_rows h !! key;
  kv_set_law h key value r h' :
    kv_set key value h = (r, h') ->
    kv_rows h' = if is_ok r then <[key := value]> (kv_rows h) else kv_rows h;
  kv_delete_law h key r h' :
    kv_delete key h = (r, h') ->
    kv_rows h' = if is_ok r then delete key (kv_rows h) else kv_rows h;
  kv_list_keys_law h p r h' :
    kv_list_keys p h = (r, h') ->
    kv_rows h' = kv_rows h /\
    forall ks, r = Ok ks ->
      NoDup ks /\ forall k, k ∈ ks <-> is_Some (kv_rows h !! k) /\ starts_with p k = true
}.

(** The methods a host may override. *)
Class LocalStoreHost (H : Type) `{KvHost H} : Type := {
  host_list_entries : ListQuery -> K H EntryPage;
  host_apply : list WriteOp -> K H unit
}.

Definition apply_row (m : gmap text (list Z)) (op : WriteOp) : gmap text (list Z) :=
  match op with
  | OpSet key value => <[key := value]> m
  | OpDelete key => delete key m
  end.

Definition rows_under (p : text) (m : gmap text (list Z)) : list entry := under_prefix p (in_order m).

(** A page is one of an ordered listing that skips no entry; the promise is made
    for stores without an entry under the empty key. *)
Class HostListing (H : Type) `{LocalStoreHost H} : Prop := {
  host_list_entries_law h q r h' :
    host_list_entries q h = (r, h') ->
    kv_rows h' = kv_rows h /\
    forall page, r = Ok page -> kv_rows h !! [] = None -> 0 <= q.(q_limit) -> 0 <= q.(q_scan_limit) ->
      page_of q.(q_filter) (resume_after q.(q_start_after) (rows_under q.(q_prefix) (kv_rows h))) page
}.

(** The host adapter's promise: a batch lands whole or not at all. *)
Class HostAtomic (H : Type) `{LocalStoreHost H} : Prop := {
  host_apply_law h ops r h' :
    host_apply ops h = (r, h') ->
    kv_rows h' = if is_ok r then fold_left apply_row ops (kv_rows h) else kv_rows h
}.

(** ** The default methods *)

Section Defaults.
Context {H : Type} `{KvHost H}.

(** The loop of [page_entries] over the rows left. *)
Fixpoint page_loop (q : ListQuery) (limit scan_limit : Z) (rows : list entry) (examined : Z)
    (page : EntryPage) : EntryPage :=
  match rows with
  | [] => page
  | (key, value) :: rows =>
      if negb (starts_with q.(q_prefix) key) || negb (bytes_lt q.(q_start_after) key)
      then page_loop q limit scan_limit rows examined page
      else if examined =? scan_limit
      then mkEntryPage page.(entries) page.(last_examined) false
      else if kept q.(q_filter) (key, value) then
        if Z.of_nat (length page.(entries)) =? limit
        then mkEntryPage page.(entries) page.(last_examined) false
        else page_loop q limit scan_limit rows (examined + 1)
               (mkEntryPage (page.(entries) ++ [(key, value)]) (Some key) page.(exhausted))
      else page_loop q limit scan_limit rows (examined + 1)
             (mkEntryPage page.(entries) (Some key) page.(exhausted))
  end.

Definition page_entries (q : ListQuery) (rows : list entry) : EntryPage :=
  let limit := if q.(q_limit) =? 0 then u64_max else q.(q_limit) in
  let scan_limit := if q.(q_scan_limit) =? 0 then u64_max else q.(q_scan_limit) in
  page_loop q limit scan_limit rows 0 (mkEntryPage [] None true).

(** [keys.sort()]. *)
Fixpoint insert_key (k : text) (ks : list text) : list text :=
  match ks with
  | [] => [k]
  | k' :: ks' => if bytes_lt k k' then k :: ks else k' :: insert_key k ks'
  end.

Definition sort_keys (ks : list text) : list text := foldr insert_key [] ks.

Fixpoint get_rows (ks : list text) : K H (list entry) :=
  match ks with
  | [] => mret []
  | k :: ks =>
      v ← kv_get k;
      rows ← get_rows ks;
      mret (match v with Some v => (k, v) :: rows | None => rows end)
  end.

Definition list_entries_default (q : ListQuery) : K H EntryPage :=
  ks ← kv_list_keys q.(q_prefix);
  rows ← get_rows (sort_keys ks);
  mret (page_entries q rows).

Fixpoint apply_default (ops : list WriteOp) : K H unit :=
  match ops with
  | [] => mret tt
  | OpSet key value :: ops => kv_set key value;; apply_default ops
  | OpDelete key :: ops => kv_delete key;; apply_default ops
  end.

Definition host_contains (key : text) : K H bool :=
  v ← kv_get key; mret (bool_decide (is_Some v)).

Definition host_len (key : text) : K H (option Z) :=
  v ← kv_get key; mret ((fun v => Z.of_nat (length v)) <$> v).

Definition host_count (p : text) : K H Z :=
  ks ← kv_list_keys p; mret (Z.of_nat (length ks)).

#[export] Instance default_host : LocalStoreHost H := {|
  host_list_entries := list_entries_default;
  host_apply := apply_default
|}.
End Defaults.

(** ** The helpers of store.rs *)

Section Helpers.
Context {H : Type} `{LocalStoreHost H}.

(** [WriteBatch::flush]: the staged operations in one call. *)
Definition flush (ops : list WriteOp) : K H unit :=
  match ops with [] => mret tt | _ => host_apply ops end.

Definition clear_prefix (p : text) : K H Z :=
  ks ← kv_list_keys p;
  let ops := OpDelete <$> ks in
  match ops with
  | [] => mret 0
  | _ => host_apply ops;; mret (Z.of_nat (length ops))
  end.

(** [TypedCell] and [TypedMap]: values under a codec, whose failures become
    internal faults. *)
Section Typed.
Context {T : Type} (encode : T -> result (list Z) text) (decode : list Z -> result T text).

Definition encoded (value : T) : K H (list Z) := fun h =>
  (map_err (fun e => Internal (chars_of "borsh encode failed: " ++ e)) (encode value), h).

Definition decoded (key : text) (v : option (list Z)) : K H (option T) := fun h =>
  (match v with
   | None => Ok None
   | Some bytes =>
       match decode bytes with
       | Ok t => Ok (Some t)
       | Err e =>
           Err (Internal (chars_of "stored value at `" ++ key ++ chars_of "` failed to decode: " ++ e))
       end
   end, h).

Definition cell_get (key : text) : K H (option T) := v ← kv_get key; decoded key v.
Definition cell_set (key : text) (value : T) : K H unit := v ← encoded value; kv_set key v.
Definition cell_clear (key : text) : K H unit := kv_delete key.

Definition full_key (p key : text) : text := p ++ key.
Definition map_insert (p key : text) (value : T) : K H unit := cell_set (full_key p key) value.
Definition map_get (p key : text) : K H (option T) := cell_get (full_key p key).
Definition map_remove (p key : text) : K H unit := kv_delete (full_key p key).
Definition map_keys (p : text) : K H (list text) :=
  ks ← kv_list_keys p;
  mret ((fun k => default k (strip_prefix p k)) <$> ks).
Definition map_clear (p : text) : K H Z := clear_prefix p.
End Typed.

(** [Counter]: a [u64] under the same codec. *)
Section Counter.
Context (encode : Z -> result (list Z) text) (decode : list Z -> result Z text).

Definition counter_get (key : text) : K H Z := v ← cell_get decode key; mret (default 0 v).
Definition counter_set (key : text) (value : Z) : K H unit := cell_set encode key value.
Definition counter_add (key : text) (delta : Z) : K H Z :=
  n ← counter_get key;
  let next := u64_sat (n + delta) in
  counter_set key next;;
  mret next.
End Counter.
End Helpers.

(** ** The default listing meets the contract *)

Section DefaultFacts.
Context {H : Type} `{KvLaws H}.

Lemma kbind_inv {A C} (m : K H A) (f : A -> K H C) h r h' :
  (m ≫= f) h = (r, h') ->
  (exists a h1, m h = (Ok a, h1) /\ f a h1 = (r, h')) \/ (exists e, m h = (Err e, h') /\ r = Err e).
Proof.
  unfold mbind, K_bind. destruct (m h) as [[a|e] h1]; [left; by exists a, h1|].
  intros [= <- <-]. right. by exists e.
Qed.

Lemma insert_key_elem k k' ks : k' ∈ insert_key k ks <-> k' = k \/ k' ∈ ks.
Proof. induction ks as [|a ks IH]; cbn; [set_solver|]. case_match; set_solver. Qed.

Lemma sort_keys_elem k ks : k ∈ sort_keys ks <-> k ∈ ks.
Proof. induction ks as [|a ks IH]; cbn; [done|]. rewrite insert_key_elem, IH. set_solver. Qed.

Abbreviation key_lt := (fun a b : text => bytes_lt a b = true).

Lemma insert_key_sorted k ks :
  StronglySorted key_lt ks -> k ∉ ks -> StronglySorted key_lt (insert_key k ks).
Proof.
  induction 1 as [|a ks Hs IH Ha]; cbn; intros Hn; [by repeat constructor|].
  destruct (bytes_lt k a) eqn:Ek.
  - constructor; [by constructor|]. constructor; [done|].
    eapply Forall_impl; [exact Ha|]. intros x. by apply bytes_lt_trans.
  - constructor; [apply IH; set_solver|]. apply Forall_forall. intros x.
    rewrite insert_key_elem. intros [->|Hin]; [|by rewrite Forall_forall in Ha; apply Ha].
    destruct (bytes_lt_total k a) as [?|[->|?]]; [congruence| |done]. set_solver.
Qed.

Lemma sort_keys_sorted ks : NoDup ks -> StronglySorted key_lt (sort_keys ks).
Proof.
  induction 1 as [|k ks Hn Hd IH]; cbn; [constructor|]. apply insert_key_sorted; [done|].
  by rewrite sort_keys_elem.
Qed.

(** The rows of some keys of a map, in the order of the keys. *)
Definition rows_of (m : gmap text (list Z)) (ks : list text) : list entry :=
  omap (fun k => (fun v => (k, v)) <$> m !! k) ks.

Lemma get_rows_spec ks h r h' :
  get_rows ks h = (r, h') ->
  kv_rows h' = kv_rows h /\ forall rows, r = Ok rows -> rows = rows_of (kv_rows h) ks.
Proof.
  revert h r h'. induction ks as [|k ks IH]; intros h r h' E; cbn in E.
  { injection E as <- <-. split; [done|]. by intros rows [= <-]. }
  apply kbind_inv in E as [(v & h1 & Eg & E)|(e & Eg & ->)].
  2: { destruct (kv_get_law _ _ _ _ Eg) as [-> _]. done. }
  destruct (kv_get_law _ _ _ _ Eg) as [Hr Hv].
  apply kbind_inv in E as [(rows & h2 & Er & E)|(e & Er & ->)].
  2: { destruct (IH _ _ _ Er) as [-> _]. by rewrite Hr. }
  destruct (IH _ _ _ Er) as [Hr2 Hrows]. injection E as <- <-. split; [by rewrite Hr2, Hr|].
  intros rows' [= <-]. rewrite (Hrows rows eq_refl), (Hv v eq_refl), Hr. cbn.
  by destruct (kv_rows h !! k).
Qed.

Lemma rows_of_elem m ks k v : (k, v) ∈ rows_of m ks <-> k ∈ ks /\ m !! k = Some v.
Proof.
  unfold rows_of. rewrite list_elem_of_omap. split.
  - intros (k' & Hk & Hv). destruct (m !! k') eqn:Em; [|done]. cbn in Hv. by simplify_eq.
  - intros [Hk Hm]. exists k. by rewrite Hm.
Qed.

Lemma rows_of_ordered m ks : StronglySorted key_lt ks -> ordered (rows_of m ks).
Proof.
  induction 1 as [|k ks Hs IH Hk]; cbn; [constructor|]. destruct (m !! k) as [v|]; cbn; [|done].
  constructor; [done|]. apply Forall_forall. intros [k' v'] [Hin _]%rows_of_elem.
  rewrite Forall_forall in Hk. by apply Hk.
Qed.

(** What the loop of the pager returns, from any state of the page. *)
Definition wanted (q : ListQuery) (rows : list entry) : list entry :=
  List.filter (fun e => starts_with q.(q_prefix) e.1 && bytes_lt q.(q_start_after) e.1) rows.

Lemma page_loop_spec q limit scan_limit rows : forall examined page,
  exists n : nat,
    let taken := take n (wanted q rows) in
    let page' := page_loop q limit scan_limit rows examined page in
    page'.(entries) = page.(entries) ++ List.filter (kept q.(q_filter)) taken /\
    page'.(last_examined) = match last taken with Some e => Some e.1 | None => page.(last_examined) end /\
    ((length (wanted q rows) <= n)%nat /\ page'.(exhausted) = page.(exhausted) \/
     (n < length (wanted q rows))%nat /\ page'.(exhausted) = false /\
     (examined + Z.of_nat n = scan_limit \/ Z.of_nat (length page'.(entries)) = limit)).
Proof.
  induction rows as [|[key value] rows IH]; intros examined page; cbn [page_loop].
  { exists O. cbn. rewrite app_nil_r. do 2 (split; [done|]). by left. }
  destruct (starts_with (q_prefix q) key && bytes_lt (q_start_after q) key) eqn:Ew.
  2: { replace (negb _ || negb _) with true by (rewrite <- negb_andb, Ew; done).
       destruct (IH examined page) as (n & Hn). exists n. cbn. by rewrite Ew. }
  replace (negb _ || negb _) with false by (rewrite <- negb_andb, Ew; done).
  cbn [wanted List.filter fst]. rewrite Ew. fold (wanted q rows).
  destruct (Z.eqb_spec examined scan_limit) as [->|Hne].
  { exists O. cbn. rewrite app_nil_r. do 2 (split; [done|]). right. split; [lia|].
    split; [done|]. left. lia. }
  assert (forall es n, last (take (S n) ((key, value) :: wanted q rows)) = es ->
            match es with Some e => Some e.1 | None => last_examined page end =
            match last (take n (wanted q rows)) with Some e => Some e.1 | None => Some key end) as Hlast.
  { intros es n <-. cbn [take last]. destruct (take n (wanted q rows)) as [|e es] eqn:Et; [done|].
    cbn [last]. by destruct (last (e :: es)) eqn:El; [|apply last_None in El]. }
  destruct (kept (q_filter q) (key, value)) eqn:Ek.
  - destruct (Z.eqb_spec (Z.of_nat (length (entries page))) limit) as [Hlim|Hlim].
    { exists O. cbn. rewrite app_nil_r. do 2 (split; [done|]). right. split; [lia|].
      split; [done|]. by right. }
    destruct (IH (examined + 1) (mkEntryPage (entries page ++ [(key, value)]) (Some key) (exhausted page)))
      as (n & He & Hl & Hx). exists (S n). cbn [entries last_examined exhausted length] in *.
    split; [|split].
    + rewrite He. cbn. rewrite Ek. by rewrite <- app_assoc.
    + rewrite Hl. symmetry. by eapply Hlast.
    + destruct Hx as [[? ?]|(? & ? & Hor)]; [left; split; [lia|done] | right; split; [lia|]; split; [done|]].
      destruct Hor; [left; lia | by right].
  - destruct (IH (examined + 1) (mkEntryPage (entries page) (Some key) (exhausted page)))
      as (n & He & Hl & Hx). exists (S n). cbn [entries last_examined exhausted length] in *.
    split; [|split].
    + rewrite He. cbn. by rewrite Ek.
    + rewrite Hl. symmetry. by eapply Hlast.
    + destruct Hx as [[? ?]|(? & ? & Hor)]; [left; split; [lia|done] | right; split; [lia|]; split; [done|]].
      destruct Hor; [left; lia | by right].
Qed.

Lemma wanted_resume q rows :
  Forall (fun e : entry => e.1 <> []) rows ->
  wanted q rows = resume_after q.(q_start_after) (under_prefix q.(q_prefix) rows).
Proof.
  intros Hne. unfold wanted, resume_after, under_prefix.
  induction Hne as [|e rows He _ IH]; cbn; [done|].
  destruct (starts_with (q_prefix q) e.1); cbn; [|exact IH]. rewrite IH.
  case_bool_decide as Es; [|done]. rewrite Es. by destruct e.1.
Qed.

Lemma page_entries_page_of q rows :
  0 <= q.(q_limit) -> 0 <= q.(q_scan_limit) -> Forall (fun e : entry => e.1 <> []) rows ->
  page_of q.(q_filter) (resume_after q.(q_start_after) (under_prefix q.(q_prefix) rows))
    (page_entries q rows).
Proof.
  intros Hl Hs Hne. rewrite <- (wanted_resume q rows Hne). unfold page_entries.
  set (limit := if q_limit q =? 0 then _ else _). set (scan := if q_scan_limit q =? 0 then _ else _).
  assert (0 < limit) as Hlim by (unfold limit, u64_max; destruct (Z.eqb_spec (q_limit q) 0); lia).
  assert (0 < scan) as Hscan by (unfold scan, u64_max; destruct (Z.eqb_spec (q_scan_limit q) 0); lia).
  clearbody limit scan. destruct (page_loop_spec q limit scan rows 0 (mkEntryPage [] None true))
    as (n & He & Hlast & Hx). cbn [entries last_examined exhausted app] in *.
  exists n. split; [done|]. split; [by rewrite Hlast; destruct (last _)|].
  destruct Hx as [[Hle ->]|(Hlt & -> & Hor)]; [done|]. split; [|lia].
  destruct n; [exfalso|lia]. destruct Hor as [Hor|Hor]; [lia|]. rewrite He, take_0 in Hor. cbn in Hor. lia.
Qed.

Lemma rows_nonempty_keys (p : text) (m : gmap text (list Z)) :
  m !! [] = None -> Forall (fun e : entry => e.1 <> []) (rows_under p m).
Proof.
  intros Hm. apply Forall_forall. intros [k v] Hin. unfold rows_under, under_prefix in Hin.
  apply list_elem_of_In, List.filter_In in Hin as [Hin _].
  apply list_elem_of_In, in_order_elem in Hin. cbn. intros ->. congruence.
Qed.

Lemma rows_under_elem (p : text) (m : gmap text (list Z)) k v :
  (k, v) ∈ rows_under p m <-> m !! k = Some v /\ starts_with p k = true.
Proof.
  unfold rows_under, under_prefix.
  by rewrite list_elem_of_In, List.filter_In, <- list_elem_of_In, in_order_elem.
Qed.

Lemma rows_under_keys (p : text) (m : gmap text (list Z)) k :
  k ∈ (fst <$> rows_under p m) <-> is_Some (m !! k) /\ starts_with p k = true.
Proof.
  rewrite list_elem_of_fmap. split.
  - intros ([k' v] & -> & [Hm Hp]%rows_under_elem). cbn. by rewrite Hm.
  - intros [[v Hm] Hp]. exists (k, v). split; [done|]. by apply rows_under_elem.
Qed.

Lemma rows_under_NoDup (p : text) (m : gmap text (list Z)) : NoDup (fst <$> rows_under p m).
Proof.
  apply NoDup_fmap_2_strong; [|by apply ordered_NoDup, ordered_filter, in_order_ordered].
  intros [k v] [k' v'] [Hm _]%rows_under_elem [Hm' _]%rows_under_elem Heq. cbn in Heq. subst. congruence.
Qed.

Lemma list_entries_default_spec q h r h' :
  list_entries_default q h = (r, h') ->
  kv_rows h' = kv_rows h /\
  forall page, r = Ok page -> kv_rows h !! [] = None -> 0 <= q.(q_limit) -> 0 <= q.(q_scan_limit) ->
    page_of q.(q_filter) (resume_after q.(q_start_after) (rows_under q.(q_prefix) (kv_rows h))) page.
Proof.
  unfold list_entries_default. intros [(ks & h1 & Ek & E)|(e & Ek & ->)]%kbind_inv.
  2: { destruct (kv_list_keys_law _ _ _ _ Ek) as [-> _]. done. }
  destruct (kv_list_keys_law _ _ _ _ Ek) as [Hr Hks]. destruct (Hks ks eq_refl) as [Hnd Hin].
  apply kbind_inv in E as [(rows & h2 & Er & E)|(e & Er & ->)].
  2: { destruct (get_rows_spec _ _ _ _ Er) as [-> _]. by rewrite Hr. }
  destruct (get_rows_spec _ _ _ _ Er) as [Hr2 Hrows]. injection E as <- <-.
  split; [by rewrite Hr2|]. intros page [= <-] Hempty Hl Hs.
  assert (rows = rows_under (q_prefix q) (kv_rows h)) as ->.
  { rewrite (Hrows rows eq_refl), Hr. apply ordered_unique.
    - by apply rows_of_ordered, sort_keys_sorted.
    - apply ordered_filter, in_order_ordered.
    - intros [k v]. rewrite rows_of_elem, sort_keys_elem, Hin. unfold rows_under, under_prefix.
      rewrite list_elem_of_In, List.filter_In, <- list_elem_of_In, in_order_elem. cbn.
      split; [tauto|]. intros [Hm Hp]. rewrite Hm. done. }
  pose proof (page_entries_page_of q _ Hl Hs (rows_nonempty_keys (q_prefix q) _ Hempty)) as Hp.
  replace (under_prefix (q_prefix q) (rows_under (q_prefix q) (kv_rows h)))
    with (rows_under (q_prefix q) (kv_rows h)) in Hp; [done|].
  unfold rows_under, under_prefix. induction (in_order (kv_rows h)) as [|e l IH]; [done|]. cbn.
  destruct (starts_with (q_prefix q) e.1) eqn:Es; cbn; rewrite ?Es; by rewrite <- IH.
Qed.

#[export] Instance default_listing : HostListing H.
Proof. split. intros h q r h'. apply list_entries_default_spec. Qed.
End DefaultFacts.

(** ** What the helpers do *)

Section HelperFacts.
Context {H : Type} `{HostAtomic H} `{!KvLaws H}.

Lemma fold_delete (ks : list text) (m : gmap text (list Z)) (k : text) :
  fold_left apply_row (OpDelete <$> ks) m !! k = if decide (k ∈ ks) then None else m !! k.
Proof.
  revert m. induction ks as [|a ks IH]; intros m; cbn; [by rewrite decide_False by set_solver|].
  rewrite IH. destruct (decide (k ∈ ks)) as [Hk|Hk].
  - by rewrite decide_True by set_solver.
  - destruct (decide (k = a)) as [->|Ha].
    + rewrite decide_True by set_solver. by rewrite lookup_delete_eq.
    + rewrite decide_False by set_solver. by rewrite lookup_delete_ne by done.
Qed.

(** Clearing a prefix removes exactly the keys under it and returns how
    many there were; one that faults removes none. *)
Theorem clear_prefix_exact p (h : H) :
  match clear_prefix p h with
  | (Ok n, h') =>
      n = Z.of_nat (length (rows_under p (kv_rows h))) /\
      forall k, kv_rows h' !! k = if starts_with p k then None else kv_rows h !! k
  | (Err _, h') => kv_rows h' = kv_rows h
  end.
Proof.
  destruct (clear_prefix p h) as [r h'] eqn:E. unfold clear_prefix in E.
  apply kbind_inv in E as [(ks & h1 & Ek & E)|(e & Ek & ->)].
  2: by destruct (kv_list_keys_law _ _ _ _ Ek).
  destruct (kv_list_keys_law _ _ _ _ Ek) as [Hr Hks]. destruct (Hks ks eq_refl) as [Hnd Hin].
  assert (length ks = length (rows_under p (kv_rows h))) as Hlen.
  { rewrite <- (length_fmap fst (rows_under p (kv_rows h))). apply Permutation_length, NoDup_Permutation.
    - done.
    - apply rows_under_NoDup.
    - intros k. rewrite Hin, rows_under_keys. done. }
  assert (forall m : gmap text (list Z), (forall k, m !! k = if decide (k ∈ ks) then None else kv_rows h !! k) ->
            forall k, m !! k = if starts_with p k then None else kv_rows h !! k) as Hgone.
  { intros m Hm k. rewrite Hm. destruct (decide (k ∈ ks)) as [Hk|Hk].
    - apply Hin in Hk as [_ ->]. done.
    - destruct (starts_with p k) eqn:Es; [|done]. destruct (kv_rows h !! k) eqn:Em; [|done].
      destruct Hk. apply Hin. by rewrite Em. }
  destruct ks as [|k0 ks].
  { cbn in E. injection E as <- <-. rewrite Hr. split; [by rewrite <- Hlen|]. by apply Hgone. }
  set (ops := OpDelete <$> k0 :: ks) in *. cbn [fmap list_fmap] in ops. unfold ops in E.
  apply kbind_inv in E as [([] & h2 & Ea & E)|(e & Ea & ->)]; fold ops in Ea.
  - injection E as <- <-. pose proof (host_apply_law _ _ _ _ Ea) as Hrows. cbn in Hrows.
    split.
    + rewrite <- Hlen. cbn. by rewrite length_fmap.
    + apply Hgone. intros k. rewrite Hrows, Hr. apply (fold_delete (k0 :: ks)).
  - pose proof (host_apply_law _ _ _ _ Ea) as Hrows. cbn in Hrows. by rewrite Hrows, Hr.
Qed.

(** A typed value written under a key of a collection reads back as it
    was written until the next write there, and a write that faults, whether in
    the codec or in the store, leaves every row as it was. *)
Theorem typed_map_round_trip {T} (encode : T -> result (list Z) text)
    (decode : list Z -> result T text) p key value (h : H) :
  (forall t bytes, encode t = Ok bytes -> decode bytes = Ok t) ->
  match map_insert encode p key value h with
  | (Ok _, h1) =>
      (forall k, k <> full_key p key -> kv_rows h1 !! k = kv_rows h !! k) /\
      forall v h2, map_get decode p key h1 = (Ok v, h2) -> v = Some value
  | (Err _, h1) => kv_rows h1 = kv_rows h
  end.
Proof.
  intros Hcodec. destruct (map_insert encode p key value h) as [r h1] eqn:E.
  unfold map_insert, cell_set in E. unfold map_get, cell_get.
  apply kbind_inv in E as [(bytes & h0 & Ee & Es)|(e & Ee & ->)]; unfold encoded in Ee;
    [|by injection Ee as _ ->].
  injection Ee as Ee <-. destruct (encode value) as [b|e'] eqn:Eenc; [|done]. injection Ee as ->.
  pose proof (kv_set_law _ _ _ _ _ Es) as Hrows. destruct r as [[]|]; [|done]. cbn in Hrows.
  split; [intros k Hk; by rewrite Hrows, lookup_insert_ne|].
  intros v h2 [(o & h3 & Eg & Ed)|(e & _ & Ed)]%kbind_inv; [|done].
  destruct (kv_get_law _ _ _ _ Eg) as [_ Hv]. rewrite (Hv o eq_refl), Hrows, lookup_insert_eq in Ed.
  unfold decoded in Ed. rewrite (Hcodec value bytes Eenc) in Ed. by injection Ed as <- _.
Qed.

(** Adding to a counter stores and returns the saturated sum of what
    it held, zero when it was absent; one that faults leaves the store as it was. *)
Theorem counter_add_spec (encode : Z -> result (list Z) text) (decode : list Z -> result Z text)
    key delta (h : H) :
  (forall n bytes, encode n = Ok bytes -> decode bytes = Ok n) ->
  match counter_add encode decode key delta h with
  | (Ok next, h') =>
      exists n bytes,
        match kv_rows h !! key with None => n = 0 | Some old => decode old = Ok n end /\
        next = u64_sat (n + delta) /\ encode next = Ok bytes /\
        kv_rows h' = <[key := bytes]> (kv_rows h) /\
        forall v h2, counter_get decode key h' = (Ok v, h2) -> v = next
  | (Err _, h') => kv_rows h' = kv_rows h
  end.
Proof.
  intros Hcodec. destruct (counter_add _ _ _ _ h) as [r h'] eqn:E. unfold counter_add in E.
  assert (forall hh o hh', counter_get decode key hh = (o, hh') ->
            kv_rows hh' = kv_rows hh /\
            forall n, o = Ok n -> match kv_rows hh !! key with None => n = 0 | Some old => decode old = Ok n end)
    as Hget.
  { unfold counter_get, cell_get. intros hh o hh' [(v & h1 & Ev & Er)|(e & Ev & ->)]%kbind_inv.
    - apply kbind_inv in Ev as [(b & h2 & Eb & Ed)|(e & _ & ?)]; [|done].
      destruct (kv_get_law _ _ _ _ Eb) as [Hr Hb]. rewrite (Hb b eq_refl) in Ed. unfold decoded in Ed.
      injection Er as <- <-. injection Ed as Ed <-. split; [done|]. intros n [= <-].
      destruct (kv_rows hh !! key); [|by injection Ed as <-]. destruct (decode _); [|done].
      by injection Ed as <-.
    - split; [|done]. apply kbind_inv in Ev as [(b & h2 & Eb & Ed)|(e' & Eb & _)].
      + destruct (kv_get_law _ _ _ _ Eb) as [Hr _]. unfold decoded in Ed. by injection Ed as _ <-.
      + by destruct (kv_get_law _ _ _ _ Eb). }
  apply kbind_inv in E as [(n & h1 & En & E)|(e & En & ->)]; [|by apply Hget in En as [-> _]].
  destruct (Hget _ _ _ En) as [Hr Hn]. set (next := u64_sat (n + delta)) in *.
  apply kbind_inv in E as [([] & h2 & Es & E)|(e & Es & ->)].
  - injection E as <- <-. unfold counter_set, cell_set in Es.
    apply kbind_inv in Es as [(bytes & h3 & Ee & Es)|(e & _ & ?)]; [|done]. unfold encoded in Ee.
    injection Ee as Ee <-. destruct (encode next) as [b|] eqn:Eenc; [|done]. injection Ee as ->.
    pose proof (kv_set_law _ _ _ _ _ Es) as Hrows. cbn in Hrows. exists n, bytes.
    split; [by apply Hn|]. do 2 (split; [done|]). split; [by rewrite Hrows, Hr|].
    intros v h4 Ev. destruct (Hget _ _ _ Ev) as [_ Hv]. specialize (Hv v eq_refl).
    rewrite Hrows, lookup_insert_eq in Hv. rewrite (Hcodec next bytes Eenc) in Hv. by injection Hv.
  - unfold counter_set, cell_set in Es.
    apply kbind_inv in Es as [(bytes & h3 & Ee & Es)|(e' & Ee & _)]; unfold encoded in Ee.
    + injection Ee as _ <-. pose proof (kv_set_law _ _ _ _ _ Es) as Hrows. cbn in Hrows.
      by rewrite Hrows, Hr.
    + by injection Ee as _ <-.
Qed.
End HelperFacts.

(** ** An in-memory host

    A map, and a script of which calls fault: the host a module's tests run on. *)

Module Mem.
Record Mem : Type := mkMem { rows : gmap text (list Z); faults : list bool }.

Definition faulted : Fault := Unavailable [].

(** One call: it faults if the script says so. *)
Definition call {A} (f : gmap text (list Z) -> A * gmap text (list Z)) : K Mem A := fun m =>
  match m.(faults) with
  | true :: fs => (Err faulted, mkMem m.(rows) fs)
  | _ => let (a, rows') := f m.(rows) in (Ok a, mkMem rows' (tl m.(faults)))
  end.

#[global] Instance mem_kv : KvHost Mem := {|
  kv_get key := call (fun r => (r !! key, r));
  kv_set key value := call (fun r => (tt, <[key := value]> r));
  kv_delete key := call (fun r => (tt, delete key r));
  kv_list_keys p := call (fun r => (fst <$> rows_under p r, r));
  kv_rows := rows
|}.

Lemma call_inv {A} (f : gmap text (list Z) -> A * gmap text (list Z)) m r m' :
  call f m = (r, m') ->
  m'.(rows) = (if is_ok r then (f m.(rows)).2 else m.(rows)) /\ forall a, r = Ok a -> a = (f m.(rows)).1.
Proof.
  unfold call. destruct (faults m) as [|[] fs]; [|intros [= <- <-]; by cbn|];
    destruct (f (rows m)) as [a rows'] eqn:E; intros [= <- <-]; cbn; (split; [done|]);
    by intros a' [= <-].
Qed.

#[global] Instance mem_laws : KvLaws Mem.
Proof.
  split; cbn.
  - intros m key r m' [Hr Ha]%call_inv. cbn in *. by destruct r.
  - by intros m key value r m' [Hr _]%call_inv.
  - by intros m key r m' [Hr _]%call_inv.
  - intros m p r m' [Hr Ha]%call_inv. cbn in *. split; [by destruct r|]. intros ks ->.
    rewrite (Ha ks eq_refl). split; [apply rows_under_NoDup|]. intros k. apply rows_under_keys.
Qed.

(** A host whose batches are atomic. *)
#[global] Instance mem_host : LocalStoreHost Mem := {|
  host_list_entries := list_entries_default;
  host_apply ops := call (fun r => (tt, fold_left apply_row ops r))
|}.

#[global] Instance mem_atomic : HostAtomic Mem.
Proof. split. by intros m ops r m' [Hr _]%call_inv. Qed.

#[global] Instance mem_listing : HostListing Mem.
Proof. split. intros h q r h'. apply list_entries_default_spec. Qed.

Definition store : Mem :=
  mkMem {[chars_of "a:1" := [7]; chars_of "a:2" := [8]; chars_of "b" := []]} [].
End Mem.

Lemma typed_map_round_trip_witness :
  let h := Mem.store in
  match map_insert (fun n : Z => Ok [n]) (chars_of "a:") (chars_of "1") 9 h with
  | (Ok _, h1) =>
      (forall k, k <> full_key (chars_of "a:") (chars_of "1") -> kv_rows h1 !! k = kv_rows h !! k) /\
      forall v h2, map_get (fun b => match b with [n] => Ok n | _ => Err [] end) (chars_of "a:")
                     (chars_of "1") h1 = (Ok v, h2) -> v = Some 9
  | (Err _, h1) => kv_rows h1 = kv_rows h
  end.
Proof.
  apply (typed_map_round_trip (fun n : Z => Ok [n]) (fun b => match b with [n] => Ok n | _ => Err [] end)
           (chars_of "a:") (chars_of "1") 9 Mem.store).
  by intros t bytes [= <-].
Defined.

Lemma counter_add_spec_witness :
  let encode n := Ok (u64_to_le_bytes n) in
  let decode b := match decode_le 8 b with Some n => Ok n | None => Err [] end in
  let h := Mem.mkMem ∅ [] in
  match counter_add (fun n => if bool_decide (is_u64 n) then encode n else Err []) decode
          (chars_of "n") 5 h with
  | (Ok next, h') => next = 5
  | (Err _, h') => False
  end.
Proof.
  intros encode decode h.
  pose proof (counter_add_spec (fun n => if bool_decide (is_u64 n) then encode n else Err []) decode
                (chars_of "n") 5 h) as Hc.
  assert (forall n bytes, (if bool_decide (is_u64 n) then encode n else Err []) = Ok bytes ->
                          decode bytes = Ok n) as Hcodec.
  { intros n bytes. case_bool_decide as Hn; [|done]. intros [= <-]. unfold decode.
    by rewrite decode_le_u64. }
  specialize (Hc Hcodec). destruct (counter_add _ _ _ _ _) as [[next|e] h'] eqn:E.
  - destruct Hc as (n & bytes & Hn & -> & _). vm_compute in Hn. by subst n.
  - vm_compute in E. discriminate E.
Defined.

Lemma clear_prefix_exact_witness :
  match clear_prefix (chars_of "a:") Mem.store with
  | (Ok n, h') =>
      n = 2 /\
      forall k, kv_rows h' !! k = if starts_with (chars_of "a:") k then None else kv_rows Mem.store !! k
  | (Err _, h') => False
  end.
Proof.
  pose proof (clear_prefix_exact (chars_of "a:") Mem.store) as Hc.
  destruct (clear_prefix (chars_of "a:") Mem.store) as [[n|e] h'] eqn:E.
  - destruct Hc as [Hn Hk]. split; [|exact Hk]. rewrite Hn. vm_compute. reflexivity.
  - vm_compute in E. discriminate E.
Defined.
