(* ===== verification/Keeper.v ===== *)
(** * Keeper: the stores of a conditional-commitment module

    [crates/nexum-sdk/src/keeper.rs]: commitment keys, the commitment set, the
    gates, the receipt journal with its guarded effects, and the retry ledger,
    over the host interface of [HostStore]. The hex rendering of addresses and
    hashes is a parameter. *)

From stdpp Require Import prelude list gmap sorting strings.
From Stdlib Require Import ZArith Lia.
From S2P Require Import Prelude StoreApi HostStore.

Local Open Scope Z_scope.

#[local] Arguments chars_of : simpl never.

(** ** Keys *)

Definition COMMITMENT_PREFIX : text := chars_of "commitment:".
Definition NEXT_BLOCK_PREFIX : text := chars_of "next_block:".
Definition NEXT_EPOCH_PREFIX : text := chars_of "next_epoch:".
Definition SUBMITTED_PREFIX : text := chars_of "submitted:".
Definition OBSERVED_PREFIX : text := chars_of "observed:".
Definition REFUSED_PREFIX : text := chars_of "refused:".

(** [{owner:#x}] and [{hash:#x}]. *)
Definition commitment_key (hex : list Z -> text) (owner hash : list Z) : text :=
  COMMITMENT_PREFIX ++ hex owner ++ 58 :: hex hash.

Record CommitmentRef : Type := mkRef { owner_hex : text; hash_hex : text }.

Definition ref_parse (key : text) : option CommitmentRef :=
  match strip_prefix COMMITMENT_PREFIX key with
  | None => None
  | Some rest =>
      match split_once 58 rest with
      | None => None
      | Some (owner_hex, hash_hex) =>
          if bool_decide (owner_hex = []) || bool_decide (hash_hex = []) then None
          else Some (mkRef owner_hex hash_hex)
      end
  end.

Definition ref_with (p : text) (c : CommitmentRef) : text := p ++ c.(owner_hex) ++ 58 :: c.(hash_hex).
Definition ref_key : CommitmentRef -> text := ref_with COMMITMENT_PREFIX.
Definition next_block_key : CommitmentRef -> text := ref_with NEXT_BLOCK_PREFIX.
Definition next_epoch_key : CommitmentRef -> text := ref_with NEXT_EPOCH_PREFIX.
Definition refused_key : CommitmentRef -> text := ref_with REFUSED_PREFIX.

Inductive Mark : Type := Reserved | Committed.

(** How a guarded submit disposes of its reservation, and what the guard did. *)
Inductive Disposition : Type :=
| Commit
| Release
| Park (until : Z)
| Retain.

Inductive Guarded (T : Type) : Type :=
| Ran (outcome : T)
| Skipped (m : Mark).
Arguments Ran {T}.
Arguments Skipped {T}.
Record Reservation : Type := mkReservation {
  r_key : text;
  r_next_eligible : Z;
  r_body : list Z
}.

Record Tick : Type := mkKeeperTick { tick_chain_id : Z; tick_block : Z; tick_epoch_s : Z }.

Inductive RetryAction : Type :=
| TryNextBlock
| Backoff (seconds : Z)
| DropOnRepeat
| Drop.

Section Keeper.
Context {H : Type} `{LocalStoreHost H}.

(** ** Gates *)

Definition read_u64 (key : text) : K H (option Z) :=
  b ← kv_get key;
  mret (match b with Some b => decode_le 8 b | None => None end).

Definition set_next_block (c : CommitmentRef) (block : Z) : K H unit :=
  kv_set (next_block_key c) (u64_to_le_bytes block).

Definition set_next_epoch (c : CommitmentRef) (epoch_s : Z) : K H unit :=
  kv_set (next_epoch_key c) (u64_to_le_bytes epoch_s).

Definition is_ready (c : CommitmentRef) (block epoch_s : Z) : K H bool :=
  next ← read_u64 (next_block_key c);
  if match next with Some next => block <? next | None => false end then mret false
  else
    next ← read_u64 (next_epoch_key c);
    if match next with Some next => epoch_s <? next | None => false end then mret false
    else mret true.

Definition gates_clear (c : CommitmentRef) : K H unit :=
  kv_delete (next_block_key c);;
  kv_delete (next_epoch_key c).

(** ** The commitment set *)

Definition set_put (hex : list Z -> text) (owner hash value : list Z) : K H text :=
  let key := commitment_key hex owner hash in
  kv_set key value;;
  mret key.

Definition set_get (c : CommitmentRef) : K H (option (list Z)) := kv_get (ref_key c).

Definition set_list : K H (list text) := kv_list_keys COMMITMENT_PREFIX.

Definition set_remove (c : CommitmentRef) : K H unit :=
  gates_clear c;;
  kv_delete (refused_key c);;
  kv_delete (ref_key c).

(** ** The journal *)

Definition RESERVED_TAG : Z := 1.
Definition COMMITTED_TAG : Z := 2.

Definition reserved_value (next_eligible : Z) (body : list Z) : list Z :=
  RESERVED_TAG :: u64_to_be_bytes next_eligible ++ body.

(** A journal is its prefix. *)
Section Journal.
Variable prefix : text.

Definition journal_record (receipt : text) : K H unit := kv_set (prefix ++ receipt) [].

Definition journal_contains (receipt : text) : K H bool :=
  v ← kv_get (prefix ++ receipt); mret (bool_decide (is_Some v)).

Definition reserve (key : text) (body : list Z) : K H unit :=
  kv_set (prefix ++ key) (reserved_value 0 body).

Definition park (key : text) (body : list Z) (until : Z) : K H unit :=
  kv_set (prefix ++ key) (reserved_value until body).

Definition commit (key : text) : K H unit := kv_set (prefix ++ key) [COMMITTED_TAG].

Definition release (key : text) : K H unit := kv_delete (prefix ++ key).

Definition mark_of (v : list Z) : Mark :=
  match v with
  | [] => Committed
  | tag :: _ => if tag =? COMMITTED_TAG then Committed else Reserved
  end.

Definition mark (key : text) : K H (option Mark) :=
  v ← kv_get (prefix ++ key); mret (mark_of <$> v).

(** The reservation an entry of the listing stands for; an empty value is none. *)
Definition reservation_of (e : entry) : option Reservation :=
  match e.2 with
  | [] => None
  | tag :: rest =>
      let key := default e.1 (strip_prefix prefix e.1) in
      Some (if (tag =? RESERVED_TAG) && (9 <=? length e.2)%nat
            then mkReservation key (from_be_bytes (take 8 rest)) (drop 8 rest)
            else mkReservation key 0 rest)
  end.

Definition pending_query (start_after : text) : ListQuery :=
  mkListQuery prefix start_after 0 0 (Some (LacksPrefix [COMMITTED_TAG])).

(** The paging loop; [fuel] bounds the pages, and one more than the entries is
    enough. *)
Fixpoint pending_loop (fuel : nat) (start_after : text) (out : list Reservation)
    : H -> option (result (list Reservation) Fault * H) := fun h =>
  match fuel with
  | O => None
  | S fuel =>
      match host_list_entries (pending_query start_after) h with
      | (Err e, h) => Some (Err e, h)
      | (Ok page, h) =>
          let out := out ++ omap reservation_of page.(entries) in
          match (if page.(exhausted) then None else page.(last_examined)) with
          | None => Some (Ok out, h)
          | Some resume => pending_loop fuel resume out h
          end
      end
  end.

Definition pending (fuel : nat) : H -> option (result (list Reservation) Fault * H) :=
  pending_loop fuel [] [].

(** *** Guarded effects *)

(** [submit] is the effect: it may use the host, and cannot fail the guard. The
    reservation is disposed of as it directs. *)
Definition submit_reserved {T} (key : text) (body : list Z) (submit : H -> (Disposition * T) * H)
    : K H (Guarded T) := fun h =>
  let '(disposition, outcome, h) := submit h in
  match disposition with
  | Commit => let (_, h) := commit key h in (Ok (Ran outcome), h)
  | Release => (release key;; mret (Ran outcome)) h
  | Park until => (park key body until;; mret (Ran outcome)) h
  | Retain => (Ok (Ran outcome), h)
  end.

Definition guard {T} (key : text) (body : list Z) (submit : H -> (Disposition * T) * H)
    : K H (Guarded T) :=
  m ← mark key;
  match m with
  | Some m => mret (Skipped m)
  | None => reserve key body;; submit_reserved key body submit
  end.
End Journal.

(** ** The retry ledger *)

Definition retrier_apply (c : CommitmentRef) (action : RetryAction) (tick : Tick) : K H unit :=
  match action with
  | TryNextBlock => mret tt
  | Backoff seconds => set_next_epoch c (u64_sat (tick.(tick_epoch_s) + seconds))
  | DropOnRepeat =>
      let key := refused_key c in
      seen ← read_u64 key;
      match seen with
      | Some block => if block <? tick.(tick_block) then set_remove c else mret tt
      | None =>
          kv_set key (u64_to_le_bytes tick.(tick_block));;
          set_next_block c (u64_sat (tick.(tick_block) + 1))
      end
  | Drop => set_remove c
  end.

Definition clear_refusal (c : CommitmentRef) : K H unit := kv_delete (refused_key c).
End Keeper.

(** ** Keys do not collide *)

Definition row_prefixes : list text :=
  [COMMITMENT_PREFIX; NEXT_BLOCK_PREFIX; NEXT_EPOCH_PREFIX; REFUSED_PREFIX].

(** A prefix is a word without a colon, and a colon. *)
Lemma row_prefix_word p : p ∈ row_prefixes -> exists w, p = w ++ [58] /\ 58 ∉ w.
Proof.
  assert (Forall (fun p => exists w, p = w ++ [58] /\ 58 ∉ w) row_prefixes) as Hall.
  { assert (forall w : text, forallb (fun c => negb (c =? 58)) w = true -> 58 ∉ w) as Hnot.
    { intros w Hw Hin. rewrite forallb_forall in Hw. apply list_elem_of_In in Hin. by apply Hw in Hin. }
    repeat apply Forall_cons_2; [exists (chars_of "commitment") | exists (chars_of "next_block")
      | exists (chars_of "next_epoch") | exists (chars_of "refused") | apply Forall_nil_2].
    all: split; [reflexivity | apply Hnot; reflexivity]. }
  rewrite Forall_forall in Hall. apply Hall.
Qed.

Lemma ref_with_prefix p p' c c' :
  p ∈ row_prefixes -> p' ∈ row_prefixes -> ref_with p c = ref_with p' c' ->
  p = p' /\ c.(owner_hex) ++ 58 :: c.(hash_hex) = c'.(owner_hex) ++ 58 :: c'.(hash_hex).
Proof.
  intros (w & -> & Hw)%row_prefix_word (w' & -> & Hw')%row_prefix_word E. unfold ref_with in E.
  rewrite <- !app_assoc in E. cbn in E. apply (f_equal (split_once 58)) in E.
  rewrite !split_once_app in E by done. by injection E as -> ->.
Qed.

Lemma ref_with_ne p p' c : p ∈ row_prefixes -> p' ∈ row_prefixes -> p <> p' -> ref_with p c <> ref_with p' c.
Proof. intros Hp Hp' Hne E. by destruct (ref_with_prefix p p' c c Hp Hp' E). Qed.

Lemma ref_parse_inv key c :
  ref_parse key = Some c ->
  key = ref_key c /\ 58 ∉ c.(owner_hex) /\ c.(owner_hex) <> [] /\ c.(hash_hex) <> [].
Proof.
  unfold ref_parse. destruct (strip_prefix _ key) as [rest|] eqn:Es; [|done].
  apply strip_prefix_Some in Es as ->. destruct (split_once 58 rest) as [[o h]|] eqn:Eo; [|done].
  apply split_once_Some in Eo as [-> Ho].
  destruct (bool_decide (o = [])) eqn:E1, (bool_decide (h = [])) eqn:E2; try done.
  apply bool_decide_eq_false in E1, E2. intros [= <-]. done.
Qed.

(** A commitment key parses back to the hex halves it was built from,
    every parsed key is rebuilt byte for byte, and no two rows of the keeper
    share a key: the keys derived from two commitments differ unless both the
    kind of row and the commitment are the same. *)
Theorem commitment_keys_round_trip (hex : list Z -> text) owner hash :
  58 ∉ hex owner -> hex owner <> [] -> hex hash <> [] ->
  let c := mkRef (hex owner) (hex hash) in
  ref_parse (commitment_key hex owner hash) = Some c /\ ref_key c = commitment_key hex owner hash /\
  forall key' c', ref_parse key' = Some c' ->
    ref_key c' = key' /\
    forall p p', p ∈ row_prefixes -> p' ∈ row_prefixes -> ref_with p c = ref_with p' c' ->
      p = p' /\ c = c'.
Proof.
  intros Ho Hone Hhne c. split; [|split; [done|]].
  - unfold ref_parse, commitment_key.
    rewrite (proj2 (strip_prefix_Some COMMITMENT_PREFIX _ (hex owner ++ 58 :: hex hash)) eq_refl).
    rewrite split_once_app by done. rewrite bool_decide_eq_false_2, bool_decide_eq_false_2 by done. done.
  - intros key' c' (-> & Ho' & _)%ref_parse_inv. split; [done|]. intros p p' Hp Hp' E.
    destruct (ref_with_prefix _ _ _ _ Hp Hp' E) as [-> Er]. split; [done|].
    apply (f_equal (split_once 58)) in Er. rewrite !split_once_app in Er by done.
    unfold c in Er. destruct c' as [o' hh']. cbn in Er. unfold c. by injection Er as -> ->.
Qed.

Section Facts.
Context {H : Type} `{HostListing H} `{!KvLaws H}.

Ltac kinv E :=
  let a := fresh "a" in let hh := fresh "hh" in let e := fresh "e" in
  let E1 := fresh "E" in
  let Er := fresh "Er" in
  apply kbind_inv in E as [(a & hh & E1 & E)|(e & E1 & Er)]; [|first [discriminate Er | subst]].

Lemma read_u64_spec key (h : H) r h' :
  read_u64 key h = (r, h') ->
  kv_rows h' = kv_rows h /\
  forall v, r = Ok v -> v = match kv_rows h !! key with Some b => decode_le 8 b | None => None end.
Proof.
  unfold read_u64. intros E. kinv E.
  - destruct (kv_get_law _ _ _ _ E0) as [Hr Hv]. injection E as <- <-. split; [done|].
    intros v [= <-]. by rewrite (Hv a eq_refl).
  - by destruct (kv_get_law _ _ _ _ E0) as [-> _].
Qed.

(** ** Removal *)

(** Deletes in a row, stopping at the first fault. *)
Fixpoint delete_all (ks : list text) : K H unit :=
  match ks with [] => mret tt | k :: ks => kv_delete k;; delete_all ks end.

Definition without (m : gmap text (list Z)) (ks : list text) : gmap text (list Z) :=
  foldl (fun m k => delete k m) m ks.

Lemma without_lookup m ks k : without m ks !! k = if decide (k ∈ ks) then None else m !! k.
Proof.
  revert m. induction ks as [|a ks IH]; intros m; cbn; [by rewrite decide_False by set_solver|].
  rewrite IH. destruct (decide (k ∈ ks)) as [Hk|Hk]; [by rewrite decide_True by set_solver|].
  destruct (decide (k = a)) as [->|Ha].
  - rewrite decide_True by set_solver. by rewrite lookup_delete_eq.
  - rewrite decide_False by set_solver. by rewrite lookup_delete_ne by done.
Qed.

Lemma delete_all_spec ks : forall (h : H) r h',
  delete_all ks h = (r, h') ->
  exists n, kv_rows h' = without (kv_rows h) (take n ks) /\
    if is_ok r then n = length ks else (n < length ks)%nat.
Proof.
  induction ks as [|k ks IH]; intros h r h' E; cbn in E.
  { injection E as <- <-. by exists O. }
  kinv E.
  - pose proof (kv_delete_law _ _ _ _ E0) as Hr. cbn in Hr. destruct (IH _ _ _ E) as (n & Hn & Hok).
    exists (S n). rewrite Hn, Hr. split; [done|]. cbn. destruct r; cbn in *; lia.
  - pose proof (kv_delete_law _ _ _ _ E0) as Hr. exists O. cbn in *. split; [done | lia].
Qed.

Definition derived_keys (c : CommitmentRef) : list text :=
  [next_block_key c; next_epoch_key c; refused_key c].

Lemma set_remove_deletes c (h : H) : set_remove c h = delete_all (derived_keys c ++ [ref_key c]) h.
Proof.
  unfold set_remove, gates_clear, derived_keys. cbn [delete_all app]. unfold mbind, K_bind.
  destruct (kv_delete (next_block_key c) h) as [[[]|e1] h1]; [|reflexivity].
  destruct (kv_delete (next_epoch_key c) h1) as [[[]|e2] h2]; [|reflexivity].
  destruct (kv_delete (refused_key c) h2) as [[[]|e3] h3]; [|reflexivity].
  destruct (kv_delete (ref_key c) h3) as [[[]|e4] h4]; reflexivity.
Qed.

Lemma ref_key_not_derived c : ref_key c ∉ derived_keys c.
Proof.
  unfold derived_keys, ref_key, next_block_key, next_epoch_key, refused_key.
  rewrite !not_elem_of_cons. repeat split; try apply not_elem_of_nil.
  all: apply ref_with_ne; unfold row_prefixes; set_solver.
Qed.

Lemma set_remove_spec c (h : H) r h' :
  set_remove c h = (r, h') ->
  exists ks, (forall k, kv_rows h' !! k = if decide (k ∈ ks) then None else kv_rows h !! k) /\
    if is_ok r then ks = derived_keys c ++ [ref_key c] else ks ⊆ derived_keys c.
Proof.
  rewrite set_remove_deletes. intros (n & Hn & Hok)%delete_all_spec.
  exists (take n (derived_keys c ++ [ref_key c])). split; [intros k; by rewrite Hn, without_lookup|].
  destruct (is_ok r).
  - by rewrite take_ge by lia.
  - rewrite length_app in Hok. cbn in Hok. rewrite take_app_le by (cbn; lia).
    intros k Hk. by eapply subseteq_take.
Qed.

(** Removing a commitment deletes its gate and refusal rows and then
    its own, and nothing else: when every delete lands all four are gone, and
    when one faults the commitment row is still there for the retry, so a derived
    row never outlives its commitment. *)
Theorem remove_never_orphans c (h : H) :
  let (r, h') := set_remove c h in
  (forall k, k ∉ derived_keys c -> k <> ref_key c -> kv_rows h' !! k = kv_rows h !! k) /\
  match r with
  | Ok _ => forall k, k ∈ derived_keys c \/ k = ref_key c -> kv_rows h' !! k = None
  | Err _ =>
      kv_rows h' !! ref_key c = kv_rows h !! ref_key c /\
      forall k, k ∈ derived_keys c -> kv_rows h' !! k = kv_rows h !! k \/ kv_rows h' !! k = None
  end.
Proof.
  destruct (set_remove c h) as [r h'] eqn:E. apply set_remove_spec in E as (ks & Hks & Hr). split.
  - intros k Hd Hk. rewrite Hks. rewrite decide_False; [done|]. intros Hin.
    destruct (is_ok r); [subst ks; set_solver | by apply Hr in Hin].
  - destruct r as [u|e]; cbn [is_ok] in Hr.
    + subst ks. intros k Hk. rewrite Hks. rewrite decide_True; [done|].
      apply elem_of_app. destruct Hk as [Hk| ->]; [by left | right; by apply list_elem_of_singleton].
    + split.
      * rewrite Hks. rewrite decide_False; [done|]. intros Hin. apply Hr in Hin.
        by apply ref_key_not_derived in Hin.
      * intros k _. rewrite Hks. destruct (decide (k ∈ ks)); [by right | by left].
Qed.

(** ** Gates *)

(** A gate row holds back the values below its threshold; an absent or malformed
    row holds nothing back. *)
Definition gate_open (m : gmap text (list Z)) (key : text) (x : Z) : bool :=
  match m !! key with
  | Some b => match decode_le 8 b with Some next => next <=? x | None => true end
  | None => true
  end.

Lemma is_ready_spec c block epoch_s (h : H) r h' :
  is_ready c block epoch_s h = (r, h') ->
  kv_rows h' = kv_rows h /\
  forall b, r = Ok b ->
    b = gate_open (kv_rows h) (next_block_key c) block && gate_open (kv_rows h) (next_epoch_key c) epoch_s.
Proof.
  unfold is_ready. intros E. kinv E.
  2: by destruct (read_u64_spec _ _ _ _ E0) as [-> _].
  destruct (read_u64_spec _ _ _ _ E0) as [Hr Hv]. specialize (Hv a eq_refl).
  assert (gate_open (kv_rows h) (next_block_key c) block
            = negb (match a with Some next => block <? next | None => false end)) as ->.
  { rewrite Hv. unfold gate_open. destruct (kv_rows h !! next_block_key c); [|done].
    destruct (decode_le 8 _); [|done]. by rewrite Z.leb_antisym. }
  destruct (match a with Some _ => _ | None => _ end).
  { injection E as <- <-. split; [done|]. by intros b [= <-]. }
  kinv E.
  2: { destruct (read_u64_spec _ _ _ _ E1) as [-> _]. done. }
  destruct (read_u64_spec _ _ _ _ E1) as [Hr1 Hv1]. specialize (Hv1 a0 eq_refl).
  assert (gate_open (kv_rows h) (next_epoch_key c) epoch_s
            = negb (match a0 with Some next => epoch_s <? next | None => false end)) as ->.
  { rewrite Hv1, Hr. unfold gate_open. destruct (kv_rows h !! next_epoch_key c); [|done].
    destruct (decode_le 8 _); [|done]. by rewrite Z.leb_antisym. }
  destruct (match a0 with Some _ => _ | None => _ end); injection E as <- <-.
  all: split; [by rewrite Hr1|]; by intros b [= <-].
Qed.

(** ** The journal *)

Section JournalFacts.
Variable prefix : text.

Lemma mark_spec key (h : H) r h' :
  mark prefix key h = (r, h') ->
  kv_rows h' = kv_rows h /\ forall m, r = Ok m -> m = mark_of <$> (kv_rows h !! (prefix ++ key)).
Proof.
  unfold mark. intros E. kinv E.
  - destruct (kv_get_law _ _ _ _ E0) as [Hr Hv]. injection E as <- <-. split; [done|].
    intros m [= <-]. by rewrite (Hv a eq_refl).
  - by destruct (kv_get_law _ _ _ _ E0) as [-> _].
Qed.

(** The end of a guarded effect: what the rows are once its disposition ran. *)
Definition disposed {T} (key : text) (body : list Z) (d : Disposition) (outcome : T) (h2 : H)
    (r : result (Guarded T) Fault) (h' : H) : Prop :=
  let k := prefix ++ key in
  match d with
  | Commit =>
      r = Ok (Ran outcome) /\
      (kv_rows h' = <[k := [COMMITTED_TAG]]> (kv_rows h2) \/ kv_rows h' = kv_rows h2)
  | Release =>
      if is_ok r then r = Ok (Ran outcome) /\ kv_rows h' = delete k (kv_rows h2)
      else kv_rows h' = kv_rows h2
  | Park until =>
      if is_ok r
      then r = Ok (Ran outcome) /\ kv_rows h' = <[k := reserved_value until body]> (kv_rows h2)
      else kv_rows h' = kv_rows h2
  | Retain => r = Ok (Ran outcome) /\ h' = h2
  end.

Lemma submit_reserved_spec {T} key body submit (h : H) (r : result (Guarded T) Fault) h' :
  submit_reserved prefix key body submit h = (r, h') ->
  exists d outcome h2, submit h = (d, outcome, h2) /\ disposed key body d outcome h2 r h'.
Proof.
  unfold submit_reserved. destruct (submit h) as [[d outcome] h2] eqn:Es. intros E.
  exists d, outcome, h2. split; [done|]. destruct d as [| |until|]; cbn.
  - unfold commit in E. destruct (kv_set _ _ h2) as [rc hc] eqn:Ec. injection E as <- <-.
    split; [done|]. pose proof (kv_set_law _ _ _ _ _ Ec) as Hr. destruct rc; cbn in Hr; auto.
  - unfold release in E. kinv E; pose proof (kv_delete_law _ _ _ _ E0) as Hr; cbn in Hr; [|done].
    injection E as <- <-. done.
  - unfold park in E. kinv E; pose proof (kv_set_law _ _ _ _ _ E0) as Hr; cbn in Hr; [|done].
    injection E as <- <-. done.
  - by injection E as <- <-.
Qed.

Lemma guard_spec {T} key body submit (h : H) (r : result (Guarded T) Fault) h' :
  guard prefix key body submit h = (r, h') ->
  let k := prefix ++ key in
  (kv_rows h' = kv_rows h /\ (forall submit', guard prefix key body submit' h = (r, h')) /\
     match r with
     | Ok (Ran _) => False
     | Ok (Skipped m) => Some m = mark_of <$> (kv_rows h !! k)
     | Err _ => True
     end) \/
  (kv_rows h !! k = None /\
   exists h1 d outcome h2,
     kv_rows h1 = <[k := reserved_value 0 body]> (kv_rows h) /\ submit h1 = (d, outcome, h2) /\
     disposed key body d outcome h2 r h').
Proof.
  unfold guard. intros E. kinv E.
  2: { left. destruct (mark_spec _ _ _ _ E0) as [-> _]. split; [done|]. split; [|done].
       intros submit'. unfold mbind, K_bind. by rewrite E0. }
  destruct (mark_spec _ _ _ _ E0) as [Hr Hm]. specialize (Hm a eq_refl). destruct a as [m|].
  { injection E as <- <-. left. split; [done|]. split; [|done].
    intros submit'. unfold mbind, K_bind. by rewrite E0. }
  assert (kv_rows h !! (prefix ++ key) = None) as Hnone by (by destruct (kv_rows h !! _)).
  kinv E; pose proof (kv_set_law _ _ _ _ _ E1) as Hs; cbn [is_ok] in Hs.
  - right. split; [done|]. apply submit_reserved_spec in E as (d & outcome & h2 & Es & Hd).
    exists hh0, d, outcome, h2. split; [by rewrite Hs, Hr|]. done.
  - left. split; [by rewrite Hs|]. split; [|done]. intros submit'. unfold mbind, K_bind.
    rewrite E0. unfold mbind, K_bind. by rewrite E1.
Qed.

(** C11: a guarded effect never runs unreserved: either it does not run, and
    then the store is untouched and the result does not depend on it (a marker
    was there, or the marker could not be read or written); or there was no
    marker, it runs on a store that holds its RESERVED marker, and only its own
    disposition decides what becomes of that marker. *)
Theorem guard_reserves_before_the_effect {T} key body submit (h : H) :
  let (r, h') := guard (T := T) prefix key body submit h in
  let k := prefix ++ key in
  (kv_rows h' = kv_rows h /\ (forall submit', guard prefix key body submit' h = (r, h')) /\
     match r with
     | Ok (Ran _) => False
     | Ok (Skipped m) => Some m = mark_of <$> (kv_rows h !! k)
     | Err _ => True
     end) \/
  (kv_rows h !! k = None /\
   exists h1 d outcome h2,
     kv_rows h1 !! k = Some (reserved_value 0 body) /\ submit h1 = (d, outcome, h2) /\
     disposed key body d outcome h2 r h').
Proof.
  destruct (guard prefix key body submit h) as [r h'] eqn:E.
  destruct (guard_spec _ _ _ _ _ _ E) as [Hl|(Hn & h1 & d & outcome & h2 & Hr & Hs & Hd)]; [by left|].
  right. split; [done|]. exists h1, d, outcome, h2. split; [by rewrite Hr, lookup_insert_eq | done].
Qed.

(** C12: an effect that ran and was not released never runs again for its
    key: while the marker it left stands, every later guard on the key skips it
    or faults, whatever effect and body it was given. *)
Theorem guarded_effect_runs_once {T} key body submit (h : H) (outcome : T) h' :
  guard prefix key body submit h = (Ok (Ran outcome), h') ->
  (forall h0, let '(d, _, h1) := submit h0 in
     d <> Release /\ kv_rows h1 !! (prefix ++ key) = kv_rows h0 !! (prefix ++ key)) ->
  forall body' (submit' : H -> (Disposition * T) * H) h3,
    kv_rows h3 !! (prefix ++ key) = kv_rows h' !! (prefix ++ key) ->
    match guard prefix key body' submit' h3 with
    | (Ok (Ran _), _) => False
    | (Ok (Skipped m), h4) => kv_rows h4 = kv_rows h3
    | (Err _, h4) => kv_rows h4 = kv_rows h3
    end.
Proof.
  intros E Hsub body' submit' h3 H3.
  assert (is_Some (kv_rows h' !! (prefix ++ key))) as [v Hv].
  { destruct (guard_spec _ _ _ _ _ _ E) as [(_ & _ & [])|(Hn & h1 & d & o & h2 & Hr & Hs & Hd)].
    specialize (Hsub h1). rewrite Hs in Hsub. destruct Hsub as [Hrel Hkeep].
    rewrite Hr, lookup_insert_eq in Hkeep. destruct d as [| |until|]; cbn in Hd.
    - destruct Hd as [_ [->| ->]]; [by rewrite lookup_insert_eq | by rewrite Hkeep].
    - done.
    - destruct Hd as [_ ->]. by rewrite lookup_insert_eq.
    - destruct Hd as [_ ->]. by rewrite Hkeep. }
  destruct (guard prefix key body' submit' h3) as [r h4] eqn:E'.
  destruct (guard_spec _ _ _ _ _ _ E') as [(Hr & _ & Hc)|(Hn & _)]; [|congruence].
  destruct r as [[]|]; [done..|done].
Qed.

(** *** Pending reservations *)

Lemma pending_loop_spec (m : gmap text (list Z)) :
  m !! [] = None -> forall fuel start_after out (h : H),
    kv_rows h = m ->
    (length (resume_after start_after (rows_under prefix m)) < fuel)%nat ->
    exists r h', pending_loop prefix fuel start_after out h = Some (r, h') /\ kv_rows h' = m /\
      forall res, r = Ok res ->
        res = out ++ omap (reservation_of prefix)
                (List.filter (kept (Some (LacksPrefix [COMMITTED_TAG])))
                   (resume_after start_after (rows_under prefix m))).
Proof.
  intros Hm fuel. induction fuel as [|fuel IH]; intros sa out h Hh Hfuel; [lia|]. cbn [pending_loop].
  destruct (host_list_entries (pending_query prefix sa) h) as [[page|e] h1] eqn:El.
  2: { exists (Err e), h1. split; [done|]. split; [|done].
       destruct (host_list_entries_law _ _ _ _ El) as [-> _]. done. }
  destruct (host_list_entries_law _ _ _ _ El) as [Hr Hp]. rewrite Hh in Hr, Hp.
  specialize (Hp page eq_refl Hm). cbn [pending_query q_prefix q_start_after q_filter q_limit q_scan_limit] in Hp.
  destruct (Hp (Z.le_refl 0) (Z.le_refl 0)) as (n & Ee & Elast & Hx). clear Hp.
  set (l := rows_under prefix m) in *. set (rest := resume_after sa l) in *.
  destruct (exhausted page).
  - eexists _, _. split; [done|]. split; [done|]. intros res [= <-]. by rewrite Ee, take_ge.
  - rewrite Elast. destruct (last (take n rest)) as [e|] eqn:Et; cbn [fmap option_fmap option_map].
    2: { exfalso. apply last_None in Et. apply (f_equal length) in Et. rewrite length_take in Et.
         cbn in Et. lia. }
    assert (resume_after e.1 l = drop n rest) as Er.
    { apply resume_after_take; [|by apply rows_nonempty_keys|done].
      apply ordered_filter, in_order_ordered. }
    destruct (IH e.1 (out ++ omap (reservation_of prefix) (entries page)) h1) as (r & h' & -> & Hrows & Hres);
      [done | rewrite Er, length_drop; lia|].
    exists r, h'. split; [done|]. split; [done|]. intros res Ho.
    rewrite (Hres res Ho), Er, Ee, <- app_assoc, <- omap_app, <- List.filter_app. by rewrite take_drop.
Qed.

Lemma reservation_of_entry key v :
  reservation_of prefix (prefix ++ key, v) =
    match v with
    | [] => None
    | tag :: rest =>
        Some (if (tag =? RESERVED_TAG) && (9 <=? length v)%nat
              then mkReservation key (from_be_bytes (take 8 rest)) (drop 8 rest)
              else mkReservation key 0 rest)
    end.
Proof.
  unfold reservation_of. cbn [fst snd].
  by rewrite (proj2 (strip_prefix_Some prefix (prefix ++ key) key) eq_refl).
Qed.

Lemma reservation_of_reserved key until body :
  is_u64 until ->
  reservation_of prefix (prefix ++ key, reserved_value until body) = Some (mkReservation key until body).
Proof.
  intros Hu. rewrite reservation_of_entry. unfold reserved_value.
  assert (length (u64_to_be_bytes until) = 8%nat) as Hl
    by (unfold u64_to_be_bytes; by rewrite length_reverse, length_to_le_bytes).
  replace (9 <=? _)%nat with true
    by (symmetry; apply Nat.leb_le; cbn [length]; rewrite length_app, Hl; lia).
  cbn [Z.eqb andb]. rewrite take_app_length', drop_app_length' by done. by rewrite from_be_u64.
Qed.

(** On a store that keeps its rows, the paged enumeration of a journal
    ends within one page more than it has entries, and, unless the host faults,
    lists exactly the keys whose marker reads RESERVED, a corrupt tag included,
    each with the body and the earliest retry it was parked with. *)
Theorem pending_agrees_with_mark fuel (h : H) :
  kv_rows h !! [] = None -> (length (rows_under prefix (kv_rows h)) < fuel)%nat ->
  exists r h', pending prefix fuel h = Some (r, h') /\ kv_rows h' = kv_rows h /\
    forall res, r = Ok res ->
      (forall key, key ∈ (r_key <$> res) <->
         mark_of <$> (kv_rows h !! (prefix ++ key)) = Some Reserved) /\
      (forall key until body, is_u64 until ->
         kv_rows h !! (prefix ++ key) = Some (reserved_value until body) ->
         mkReservation key until body ∈ res).
Proof.
  intros Hm Hfuel. destruct (pending_loop_spec (kv_rows h) Hm fuel [] [] h eq_refl) as (r & h' & E & Hr & Hres).
  { by rewrite resume_after_nil. }
  exists r, h'. split; [exact E|]. split; [done|]. intros res Ho. rewrite resume_after_nil in Hres.
  specialize (Hres res Ho). cbn [app] in Hres.
  assert (forall rv, rv ∈ res <-> exists key v, kv_rows h !! (prefix ++ key) = Some v /\
            kept (Some (LacksPrefix [COMMITTED_TAG])) (prefix ++ key, v) = true /\
            reservation_of prefix (prefix ++ key, v) = Some rv) as Hel.
  { intros rv. rewrite Hres, list_elem_of_omap. split.
    - intros ([k v] & Hin & Hrv). rewrite list_elem_of_In, List.filter_In, <- list_elem_of_In in Hin.
      destruct Hin as [Hin Hk]. apply rows_under_elem in Hin as [Hkm [key ->]%starts_with_inv].
      by exists key, v.
    - intros (key & v & Hkm & Hk & Hrv). exists (prefix ++ key, v). split; [|done].
      rewrite list_elem_of_In, List.filter_In, <- list_elem_of_In. split; [|done].
      apply rows_under_elem. split; [done | apply starts_with_app]. }
  split.
  - intros key. rewrite list_elem_of_fmap. split.
    + intros (rv & -> & (key' & v & Hkm & Hk & Hrv)%Hel). rewrite reservation_of_entry in Hrv.
      destruct v as [|tag rest]; [done|]. injection Hrv as Hrv.
      assert (r_key rv = key') as ->. { rewrite <- Hrv. by destruct (_ && _). }
      rewrite Hkm. unfold kept, keeps in Hk. cbn [snd starts_with] in Hk. rewrite andb_true_r in Hk.
      cbn [fmap option_fmap option_map mark_of].
      by destruct (Z.eqb_spec tag COMMITTED_TAG) as [->|]; [rewrite Z.eqb_refl in Hk|].
    + intros Hmark. destruct (kv_rows h !! (prefix ++ key)) as [v|] eqn:Hkm; [|done].
      cbn [fmap option_fmap option_map] in Hmark. injection Hmark as Hmark.
      destruct v as [|tag rest]; [done|]. cbn [mark_of] in Hmark.
      destruct (Z.eqb_spec tag COMMITTED_TAG) as [|Hne]; [done|].
      pose proof (reservation_of_entry key (tag :: rest)) as Hrv. cbn [length] in Hrv.
      eexists. split; [|apply Hel; exists key, (tag :: rest); split; [done|]; split; [|exact Hrv]].
      * by destruct (_ && _).
      * unfold kept, keeps. cbn [snd starts_with]. rewrite andb_true_r.
        by destruct (Z.eqb_spec COMMITTED_TAG tag).
  - intros key until body Hu Hkm. apply Hel. exists key, (reserved_value until body).
    split; [done|]. split; [done|]. by apply reservation_of_reserved.
Qed.
End JournalFacts.

(** ** The retry ledger *)

Lemma gate_after_set (m : gmap text (list Z)) key n x :
  is_u64 n -> gate_open (<[key := u64_to_le_bytes n]> m) key x = (n <=? x).
Proof. intros Hn. unfold gate_open. by rewrite lookup_insert_eq, decode_le_u64. Qed.

Lemma refused_ne_block c : refused_key c <> next_block_key c.
Proof. apply ref_with_ne; unfold row_prefixes; set_solver. Qed.

Lemma refused_ne_ref c : refused_key c <> ref_key c.
Proof. apply ref_with_ne; unfold row_prefixes; set_solver. Qed.

Lemma block_ne_ref c : next_block_key c <> ref_key c.
Proof. apply ref_with_ne; unfold row_prefixes; set_solver. Qed.

(** A refusal is forgiven once: the first one leaves the commitment in
    place and holds it back to the next block; a repeat at the same block changes
    nothing; one at a later block removes the commitment with all its rows. *)
Theorem drop_on_repeat_grants_one_block c tick (h h1 : H) :
  0 <= tick.(tick_block) < u64_max -> kv_rows h !! refused_key c = None ->
  retrier_apply c DropOnRepeat tick h = (Ok tt, h1) ->
  (kv_rows h1 !! ref_key c = kv_rows h !! ref_key c /\
   forall block epoch_s ready h2, is_ready c block epoch_s h1 = (Ok ready, h2) ->
     block <= tick.(tick_block) -> ready = false) /\
  forall tick' h2 h3, kv_rows h2 = kv_rows h1 -> retrier_apply c DropOnRepeat tick' h2 = (Ok tt, h3) ->
    if tick.(tick_block) <? tick'.(tick_block)
    then forall k, k ∈ derived_keys c \/ k = ref_key c -> kv_rows h3 !! k = None
    else kv_rows h3 = kv_rows h1.
Proof.
  intros Hb Hnone E. cbn [retrier_apply] in E. kinv E.
  destruct (read_u64_spec _ _ _ _ E0) as [Hr Hv]. specialize (Hv a eq_refl). rewrite Hnone in Hv. subst a.
  kinv E. pose proof (kv_set_law _ _ _ _ _ E1) as H1r. pose proof (kv_set_law _ _ _ _ _ E) as H2r.
  cbn [is_ok] in H1r, H2r.
  assert (u64_sat (tick_block tick + 1) = tick_block tick + 1) as Hsat by (unfold u64_sat; lia).
  rewrite Hsat, H1r, Hr in H2r. clear H1r Hr.
  pose proof (refused_ne_block c) as N1. pose proof (refused_ne_ref c) as N2.
  pose proof (block_ne_ref c) as N3. split; [split|].
  - rewrite H2r, !lookup_insert_ne by done. done.
  - intros block epoch_s ready h2 Er Hle. destruct (is_ready_spec _ _ _ _ _ _ Er) as [_ Hready].
    rewrite (Hready ready eq_refl), H2r, gate_after_set by (unfold is_u64; lia).
    by replace (_ <=? block) with false by lia.
  - intros tick' h2 h3 Hh2 E'. cbn [retrier_apply] in E'. kinv E'.
    destruct (read_u64_spec _ _ _ _ E2) as [Hr' Hv']. specialize (Hv' a0 eq_refl).
    rewrite Hh2, H2r, lookup_insert_ne, lookup_insert_eq, decode_le_u64 in Hv'
      by (done || unfold is_u64; lia).
    subst a0. destruct (tick_block tick <? tick_block tick').
    + apply set_remove_spec in E' as (ks & Hks & Hok). cbn [is_ok] in Hok. subst ks.
      intros k Hk. rewrite Hks, decide_True; [done|]. apply elem_of_app.
      destruct Hk as [Hk| ->]; [by left | right; by apply list_elem_of_singleton].
    + injection E' as <-. by rewrite Hr'.
Qed.

(** After a backoff the commitment is held back for the seconds asked
    for, to the end of the epoch clock at most, and is not held back by it any
    longer; a row of the wrong length never holds a commitment back. *)
Theorem backoff_holds_back_exactly c seconds tick (h h1 : H) block epoch_s ready h2 :
  is_u64 tick.(tick_epoch_s) -> is_u64 seconds ->
  retrier_apply c (Backoff seconds) tick h = (Ok tt, h1) ->
  is_ready c block epoch_s h1 = (Ok ready, h2) ->
  (ready = true <->
     Z.min (tick.(tick_epoch_s) + seconds) u64_max <= epoch_s /\
     forall b, kv_rows h !! next_block_key c = Some b -> length b = 8%nat -> from_le_bytes b <= block).
Proof.
  intros Ht Hs E Er. cbn [retrier_apply] in E. pose proof (kv_set_law _ _ _ _ _ E) as H1r.
  cbn [is_ok] in H1r. destruct (is_ready_spec _ _ _ _ _ _ Er) as [_ Hready].
  rewrite (Hready ready eq_refl), H1r, gate_after_set
    by (unfold is_u64, u64_sat, u64_max in *; lia).
  unfold gate_open. rewrite lookup_insert_ne
    by (apply ref_with_ne; unfold row_prefixes; set_solver).
  rewrite andb_comm, andb_true_iff, Z.leb_le. unfold u64_sat. apply and_iff_compat_l.
  destruct (kv_rows h !! next_block_key c) as [b|]; [|split; [by intros _ b|done]].
  unfold decode_le. destruct (decide (length b = 8%nat)) as [Hl|Hl].
  - rewrite Z.leb_le. split; [by intros ? b' [= <-]|]. intros Hall. by apply Hall.
  - split; [by intros _ b' [= <-]|done].
Qed.
End Facts.

(** ** On the in-memory host *)

Module KeeperDemo.
Definition hex (b : list Z) : text := chars_of "0x" ++ b.
Definition c : CommitmentRef := mkRef (chars_of "0xa") (chars_of "0xb").
Definition journal : text := SUBMITTED_PREFIX.

(** A commitment with an epoch gate, a parked reservation and a corrupt marker. *)
Definition rows : gmap text (list Z) :=
  {[ref_key c := [9]; next_epoch_key c := u64_to_le_bytes 50;
    journal ++ chars_of "x" := reserved_value 7 [1; 2]; journal ++ chars_of "y" := [77]]}.

Definition mem : Mem.Mem := Mem.mkMem rows [].

(** The third call faults. *)
Definition flaky : Mem.Mem := Mem.mkMem rows [false; false; true].

Definition submit (m : Mem.Mem) : (Disposition * Z) * Mem.Mem := ((Commit, 5), m).

(** The host a completed call leaves behind. *)
Definition after {A} (m : K Mem.Mem A) (h : Mem.Mem) : Mem.Mem := (m h).2.
End KeeperDemo.

Lemma commitment_keys_round_trip_witness :
  let c := mkRef (KeeperDemo.hex [97]) (KeeperDemo.hex [98]) in
  ref_parse (commitment_key KeeperDemo.hex [97] [98]) = Some c /\
  ref_key c = commitment_key KeeperDemo.hex [97] [98] /\
  forall key' c', ref_parse key' = Some c' ->
    ref_key c' = key' /\
    forall p p', p ∈ row_prefixes -> p' ∈ row_prefixes -> ref_with p c = ref_with p' c' ->
      p = p' /\ c = c'.
Proof.
  apply (commitment_keys_round_trip KeeperDemo.hex [97] [98]); [|done..].
  apply (bool_decide_unpack _). vm_compute. exact I.
Defined.

Lemma remove_never_orphans_witness :
  let (r, h') := set_remove KeeperDemo.c KeeperDemo.flaky in
  (forall k, k ∉ derived_keys KeeperDemo.c -> k <> ref_key KeeperDemo.c ->
     kv_rows h' !! k = kv_rows KeeperDemo.flaky !! k) /\
  match r with
  | Ok _ => False
  | Err _ =>
      kv_rows h' !! ref_key KeeperDemo.c = kv_rows KeeperDemo.flaky !! ref_key KeeperDemo.c /\
      forall k, k ∈ derived_keys KeeperDemo.c ->
        kv_rows h' !! k = kv_rows KeeperDemo.flaky !! k \/ kv_rows h' !! k = None
  end.
Proof.
  pose proof (remove_never_orphans KeeperDemo.c KeeperDemo.flaky) as Hr.
  destruct (set_remove KeeperDemo.c KeeperDemo.flaky) as [[u|e] h'] eqn:E; [|exact Hr].
  vm_compute in E. discriminate E.
Defined.

Lemma guard_reserves_before_the_effect_witness :
  let h := KeeperDemo.mem in
  let (r, h') := guard KeeperDemo.journal (chars_of "z") [3] KeeperDemo.submit h in
  kv_rows h !! (KeeperDemo.journal ++ chars_of "z") = None /\
  exists h1 d outcome h2,
    kv_rows h1 !! (KeeperDemo.journal ++ chars_of "z") = Some (reserved_value 0 [3]) /\
    KeeperDemo.submit h1 = (d, outcome, h2) /\
    disposed KeeperDemo.journal (chars_of "z") [3] d outcome h2 r h'.
Proof.
  pose proof (guard_reserves_before_the_effect KeeperDemo.journal (chars_of "z") [3] KeeperDemo.submit
                KeeperDemo.mem) as Hg.
  cbv zeta. destruct (guard _ _ _ _ _) as [r h'] eqn:E.
  destruct Hg as [(_ & _ & Hr)|Hg]; [|exact Hg].
  assert (r = Ok (Ran 5)) as -> by (vm_compute in E; by injection E as <- _). done.
Defined.

Lemma guarded_effect_runs_once_witness :
  match guard KeeperDemo.journal (chars_of "z") [4] KeeperDemo.submit
          (KeeperDemo.after (guard KeeperDemo.journal (chars_of "z") [3] KeeperDemo.submit) KeeperDemo.mem) with
  | (Ok (Ran _), _) => False
  | (Ok (Skipped m), h4) =>
      kv_rows h4 = kv_rows (KeeperDemo.after
        (guard KeeperDemo.journal (chars_of "z") [3] KeeperDemo.submit) KeeperDemo.mem)
  | (Err _, h4) =>
      kv_rows h4 = kv_rows (KeeperDemo.after
        (guard KeeperDemo.journal (chars_of "z") [3] KeeperDemo.submit) KeeperDemo.mem)
  end.
Proof.
  apply (guarded_effect_runs_once KeeperDemo.journal (chars_of "z") [3] KeeperDemo.submit KeeperDemo.mem 5
           (KeeperDemo.after (guard KeeperDemo.journal (chars_of "z") [3] KeeperDemo.submit) KeeperDemo.mem)).
  - vm_compute. reflexivity.
  - intros h0. cbn. done.
  - reflexivity.
Defined.

Lemma pending_agrees_with_mark_witness :
  exists r h', pending KeeperDemo.journal 3 KeeperDemo.mem = Some (r, h') /\
    kv_rows h' = kv_rows KeeperDemo.mem /\
    forall res, r = Ok res ->
      (forall key, key ∈ (r_key <$> res) <->
         mark_of <$> (kv_rows KeeperDemo.mem !! (KeeperDemo.journal ++ key)) = Some Reserved) /\
      (forall key until body, is_u64 until ->
         kv_rows KeeperDemo.mem !! (KeeperDemo.journal ++ key) = Some (reserved_value until body) ->
         mkReservation key until body ∈ res).
Proof.
  apply (pending_agrees_with_mark KeeperDemo.journal 3 KeeperDemo.mem).
  - vm_compute. reflexivity.
  - vm_compute. lia.
Defined.

(** The reservations of the demo store: the parked one and the corrupt one. *)
Example pending_demo :
  fst <$> pending KeeperDemo.journal 3 KeeperDemo.mem
    = Some (Ok [mkReservation (chars_of "x") 7 [1; 2]; mkReservation (chars_of "y") 0 []]).
Proof. vm_compute. reflexivity. Qed.

Lemma drop_on_repeat_grants_one_block_witness :
  let t := mkKeeperTick 1 10 0 in
  let h1 := KeeperDemo.after (retrier_apply KeeperDemo.c DropOnRepeat t) KeeperDemo.mem in
  (kv_rows h1 !! ref_key KeeperDemo.c = kv_rows KeeperDemo.mem !! ref_key KeeperDemo.c /\
   forall block epoch_s ready h2, is_ready KeeperDemo.c block epoch_s h1 = (Ok ready, h2) ->
     block <= 10 -> ready = false) /\
  forall tick' h2 h3, kv_rows h2 = kv_rows h1 ->
    retrier_apply KeeperDemo.c DropOnRepeat tick' h2 = (Ok tt, h3) ->
    if 10 <? tick'.(tick_block)
    then forall k, k ∈ derived_keys KeeperDemo.c \/ k = ref_key KeeperDemo.c -> kv_rows h3 !! k = None
    else kv_rows h3 = kv_rows h1.
Proof.
  intros t h1. apply (drop_on_repeat_grants_one_block KeeperDemo.c t KeeperDemo.mem h1).
  - unfold t, u64_max. cbn. lia.
  - vm_compute. reflexivity.
  - vm_compute. reflexivity.
Defined.

Lemma backoff_holds_back_exactly_witness :
  let t := mkKeeperTick 1 10 100 in
  let h1 := KeeperDemo.after (retrier_apply KeeperDemo.c (Backoff 20) t) KeeperDemo.mem in
  (false = true <->
     Z.min (100 + 20) u64_max <= 119 /\
     forall b, kv_rows KeeperDemo.mem !! next_block_key KeeperDemo.c = Some b -> length b = 8%nat ->
       from_le_bytes b <= 5).
Proof.
  intros t h1.
  apply (backoff_holds_back_exactly KeeperDemo.c 20 t KeeperDemo.mem h1 5 119 false
           (KeeperDemo.after (is_ready KeeperDemo.c 5 119) h1)).
  - unfold t, is_u64, u64_max. cbn. lia.
  - unfold is_u64, u64_max. lia.
  - vm_compute. reflexivity.
  - vm_compute. reflexivity.
Defined.
