(* ===== verification/Policy.v ===== *)
(** * Policy: the operator's grants

    [PolicySection] and its resolution per component
    (crates/nexum-runtime-config/src/policy.rs), the log floors and their
    coherence check, and the ceilings a manifest narrows
    (supervisor/store.rs). *)

From stdpp Require Import prelude list gmap strings.
From Stdlib Require Import ZArith Lia.
From S2P Require Import Prelude Primitives.

Local Open Scope Z_scope.

(** ** Levels *)

(** [tracing::Level], more verbose being greater. *)
Inductive Level : Type := LError | LWarn | LInfo | LDebug | LTrace.

Definition rank (l : Level) : Z :=
  match l with LError => 0 | LWarn => 1 | LInfo => 2 | LDebug => 3 | LTrace => 4 end.

Definition level_max (a b : Level) : Level := if rank a <=? rank b then b else a.

Record LogFilterPolicy : Type := mkLogFilter {
  console : Level;
  retain : Level;
  targets : gmap text Level
}.

Inductive LogVerdict : Type := VDrop | VRetain | VEmit.

Definition verdict (p : LogFilterPolicy) (level : Level) (target : text) : LogVerdict :=
  let c := default p.(console) (p.(targets) !! target) in
  if rank level <=? rank c then VEmit
  else if rank level <=? rank p.(retain) then VRetain
  else VDrop.

(** [check_retention]: the loudest console floor against retention. *)
Definition loudest (p : LogFilterPolicy) : Level :=
  fold_left level_max (snd <$> map_to_list p.(targets)) p.(console).

Definition check_retention (p : LogFilterPolicy) : bool := rank (loudest p) <=? rank p.(retain).

(** ** Ceilings *)

Record DispatchRatePolicy : Type := mkRate { capacity : Z; refill_per_sec : Z }.
Record LogBoundsPolicy : Type := mkLogBounds { max_record_bytes : Z; rate : DispatchRatePolicy }.

Record PolicyCeilings : Type := mkCeilings {
  max_memory_bytes : Z;
  max_fuel_per_dispatch : Z;
  max_state_bytes : Z;
  log_bounds : LogBoundsPolicy
}.

Record ComponentPolicy : Type := mkComponentPolicy {
  cp_max_memory_bytes : option Z;
  cp_max_fuel_per_dispatch : option Z;
  cp_max_state_bytes : option Z;
  cp_max_log_record_bytes : option Z;
  cp_max_log_burst : option Z;
  cp_max_log_records_per_sec : option Z;
  cp_log_print_level : option Level;
  cp_log_retain_level : option Level;
  cp_log_targets : option (gmap text Level);
  cp_capabilities : option (list text);
  cp_http_allow : option (list HostPattern.HostPattern)
}.

Record PolicySection : Type := mkPolicySection {
  ceilings : PolicyCeilings;
  capabilities : option (list text);
  total_max_memory_bytes : option Z;
  component : gmap text ComponentPolicy;
  log_filter : LogFilterPolicy
}.

Record EffectivePolicy : Type := mkEffective {
  eff_ceilings : PolicyCeilings;
  eff_capabilities : option (list text);
  eff_http_allow : option (list HostPattern.HostPattern);
  eff_log_filter : LogFilterPolicy
}.

(** [Option::or]. *)
Definition option_or {A} (a b : option A) : option A := match a with Some x => Some x | None => b end.

Definition for_component (p : PolicySection) (id : text) : EffectivePolicy :=
  let row := p.(component) !! id in
  let c := p.(ceilings) in
  mkEffective
    (mkCeilings
       (default c.(max_memory_bytes) (row ≫= cp_max_memory_bytes))
       (default c.(max_fuel_per_dispatch) (row ≫= cp_max_fuel_per_dispatch))
       (default c.(max_state_bytes) (row ≫= cp_max_state_bytes))
       (mkLogBounds
          (default c.(log_bounds).(max_record_bytes) (row ≫= cp_max_log_record_bytes))
          (mkRate (default c.(log_bounds).(rate).(capacity) (row ≫= cp_max_log_burst))
             (default c.(log_bounds).(rate).(refill_per_sec) (row ≫= cp_max_log_records_per_sec)))))
    (option_or (row ≫= cp_capabilities) p.(capabilities))
    (row ≫= cp_http_allow)
    (mkLogFilter
       (default p.(log_filter).(console)
          (row ≫= fun r => option_or r.(cp_log_print_level) r.(cp_log_retain_level)))
       (default p.(log_filter).(retain) (row ≫= cp_log_retain_level))
       (default p.(log_filter).(targets) (row ≫= cp_log_targets))).

(** The coherence checks at the end of [resolve_policy]. *)
Definition retention_coherent (p : PolicySection) : bool :=
  check_retention p.(log_filter) &&
  forallb (fun id => check_retention (for_component p id).(eff_log_filter))
    (fst <$> map_to_list p.(component)).

(** ** What a manifest asks for *)

Record ResourceSection : Type := mkResources {
  res_max_memory_bytes : option Z;
  res_max_fuel_per_dispatch : option Z;
  res_max_state_bytes : option Z
}.

Record ResolvedLimits : Type := mkLimits { lim_fuel : Z; lim_memory : Z; lim_state_bytes : Z }.

Definition clamp (requested : option Z) (ceiling : Z) : Z :=
  match requested with
  | Some value => if ceiling <? value then ceiling else value
  | None => ceiling
  end.

Definition resolve_module_limits (res : ResourceSection) (c : PolicyCeilings) : ResolvedLimits :=
  mkLimits (clamp res.(res_max_fuel_per_dispatch) c.(max_fuel_per_dispatch))
    (clamp res.(res_max_memory_bytes) c.(max_memory_bytes))
    (clamp res.(res_max_state_bytes) c.(max_state_bytes)).

(** ** Facts *)

Lemma clamp_spec requested ceiling :
  clamp requested ceiling <= ceiling /\
  forall value, requested = Some value -> clamp requested ceiling = Z.min value ceiling.
Proof.
  destruct requested as [v|]; cbn; [|split; [lia | done]].
  destruct (Z.ltb_spec ceiling v); split; try lia; intros value [= <-]; lia.
Qed.

Lemma rank_level_max a b : rank (level_max a b) = Z.max (rank a) (rank b).
Proof. unfold level_max. destruct (Z.leb_spec (rank a) (rank b)); lia. Qed.

Lemma loudest_fold ls c : forall l, l = c \/ l ∈ ls -> rank l <= rank (fold_left level_max ls c).
Proof.
  revert c. induction ls as [|x ls IH]; intros c l Hl; cbn; [set_solver by lia|].
  transitivity (rank (fold_left level_max ls (level_max c x)));
    [|done].
  destruct Hl as [->|[->|Hl]%elem_of_cons]; [| |by apply IH; right].
  all: transitivity (rank (level_max c x)); [rewrite rank_level_max; lia | by apply IH; left].
Qed.

Lemma check_retention_verdict p level target :
  check_retention p = true -> verdict p level target = VEmit -> rank level <= rank p.(retain).
Proof.
  unfold check_retention, loudest, verdict. intros Hc%Z.leb_le Hv.
  destruct (Z.leb_spec (rank level) (rank (default (console p) (targets p !! target)))) as [Hle|];
    [|by case_match].
  transitivity (rank (fold_left level_max (snd <$> map_to_list (targets p)) (console p))); [|done].
  transitivity (rank (default (console p) (targets p !! target))); [done|]. apply loudest_fold.
  destruct (targets p !! target) as [l|] eqn:Et; [right | by left]. cbn.
  apply list_elem_of_fmap. exists (target, l). split; [done|]. by apply elem_of_map_to_list.
Qed.

(** Once a policy passed its coherence checks, no component can print a
    record that is not kept: whatever row it has and whatever target a record
    names, a record emitted to the console also clears the retention floor. *)
Theorem printed_is_retained p id level target :
  retention_coherent p = true ->
  let f := (for_component p id).(eff_log_filter) in
  verdict f level target = VEmit -> rank level <= rank f.(retain).
Proof.
  unfold retention_coherent. intros [Hp Hall]%andb_prop. cbv zeta. intros Hv.
  eapply check_retention_verdict; [|exact Hv]. clear Hv. destruct (component p !! id) as [row|] eqn:Er.
  - rewrite forallb_forall in Hall. apply Hall. apply list_elem_of_In, list_elem_of_fmap.
    exists (id, row). split; [done|]. by apply elem_of_map_to_list.
  - unfold for_component. rewrite Er. cbn. by destruct (log_filter p).
Qed.

(** A manifest can lower its limits and never raise them: what a
    component is granted is at most the operator's ceiling for it, row or
    default, and what it asked for whenever that is lower. *)
Theorem limits_never_exceed_ceilings p id res :
  let c := (for_component p id).(eff_ceilings) in
  let l := resolve_module_limits res c in
  (l.(lim_fuel) <= c.(max_fuel_per_dispatch) /\ l.(lim_memory) <= c.(max_memory_bytes) /\
   l.(lim_state_bytes) <= c.(max_state_bytes)) /\
  (forall v, res.(res_max_fuel_per_dispatch) = Some v -> l.(lim_fuel) = Z.min v c.(max_fuel_per_dispatch)) /\
  (forall v, res.(res_max_memory_bytes) = Some v -> l.(lim_memory) = Z.min v c.(max_memory_bytes)) /\
  (forall v, res.(res_max_state_bytes) = Some v -> l.(lim_state_bytes) = Z.min v c.(max_state_bytes)) /\
  match p.(component) !! id with
  | Some row =>
      (forall v, row.(cp_max_memory_bytes) = Some v -> c.(max_memory_bytes) = v) /\
      (row.(cp_max_memory_bytes) = None -> c.(max_memory_bytes) = p.(ceilings).(max_memory_bytes))
  | None => c = p.(ceilings)
  end.
Proof.
  intros c l. split; [repeat split; apply clamp_spec|].
  do 3 (split; [intros v Hv; by apply clamp_spec|]).
  unfold c, for_component. destruct (component p !! id) as [row|]; cbn.
  - split; [by intros v ->|by intros ->].
  - destruct (ceilings p) as [? ? ? [? []]]. done.
Qed.

Definition quiet_policy : PolicySection :=
  mkPolicySection (mkCeilings 64 1000 50 (mkLogBounds 8192 (mkRate 256 128))) None None
    {[chars_of "a" := mkComponentPolicy None None None None None None None (Some LWarn) None None None]}
    (mkLogFilter LInfo LDebug {[chars_of "t" := LDebug]}).

(** A row that lowers retention alone keeps the inherited target floor, which the
    check refuses. *)
Example quiet_row_is_refused : retention_coherent quiet_policy = false.
Proof. reflexivity. Qed.

Definition calm_policy : PolicySection :=
  mkPolicySection quiet_policy.(ceilings) None None
    {[chars_of "a" := mkComponentPolicy None None None None None None None (Some LWarn) (Some ∅) None None]}
    (mkLogFilter LInfo LDebug {[chars_of "t" := LDebug]}).

Lemma printed_is_retained_witness :
  let f := (for_component calm_policy (chars_of "a")).(eff_log_filter) in
  verdict f LWarn (chars_of "t") = VEmit /\ rank LWarn <= rank f.(retain).
Proof.
  split; [reflexivity|].
  apply (printed_is_retained calm_policy (chars_of "a") LWarn (chars_of "t")); reflexivity.
Defined.
