(* ===== verification/Admission.v ===== *)
(** * Admission: what a component must pass before its code runs

    Boot as one pass over the configured modules: extension wiring
    (supervisor/admission.rs), the pre-pass over manifests, names, chains and
    memory (supervisor/prepass.rs), the digest pins and the one compile path
    (supervisor/artifact.rs), the capability gate
    (crates/nexum-runtime-manifest/src/capabilities.rs), and the load of a module
    (supervisor/load.rs), composed as [Supervisor::boot] composes them
    (supervisor/mod.rs). The file system, the manifest parser, the hash, the
    compiler, the extensions' own checks and the guest's [init] are parameters;
    what boot did to them is traced. *)

From stdpp Require Import prelude list gmap strings.
From Stdlib Require Import ZArith Lia.
From S2P Require Import Prelude Primitives Lifecycle Policy Cron Dispatch.

Local Open Scope Z_scope.

(** ** Capabilities *)

Record NamespaceCaps : Type := mkNamespace { ns_prefix : text; ifaces : list text }.

Definition CORE_CAPABILITIES : list text :=
  [chars_of "chain"; chars_of "local-store"; chars_of "logging"].

Definition CORE_NAMESPACE : NamespaceCaps := mkNamespace (chars_of "nexum:host/") CORE_CAPABILITIES.

Definition WASI_HTTP_PREFIX : text := chars_of "wasi:http/".
Definition HTTP_CAPABILITY : text := chars_of "http".
Definition AMBIENT_WASI_PREFIXES : list text :=
  [chars_of "wasi:io/"; chars_of "wasi:clocks/"; chars_of "wasi:random/"; chars_of "wasi:cli/"].

Inductive WasiCap : Type := Sockets | Filesystem.
Definition WasiCap_ALL : list WasiCap := [Sockets; Filesystem].

Definition wasi_as_str (c : WasiCap) : text :=
  match c with Sockets => chars_of "wasi-sockets" | Filesystem => chars_of "wasi-filesystem" end.

Definition gated_prefix (c : WasiCap) : text :=
  match c with Sockets => chars_of "wasi:sockets/" | Filesystem => chars_of "wasi:filesystem/" end.

Inductive WasiGate : Type := GAmbient | GGated (cap : WasiCap) | GUnknown.

(** [import_name.split('@').next()]. *)
Definition without_version (import_name : text) : text :=
  match split_once 64 import_name with Some (name, _) => name | None => import_name end.

Definition classify_wasi (import_name : text) : WasiGate :=
  let iface := without_version import_name in
  if existsb (fun p => starts_with p iface) AMBIENT_WASI_PREFIXES then GAmbient
  else
    match List.find (fun cap => starts_with (gated_prefix cap) iface) WasiCap_ALL with
    | Some cap => GGated cap
    | None => GUnknown
    end.

(** A registry is its namespaces; the core one is always there. *)
Definition registry_core : list NamespaceCaps := [CORE_NAMESPACE].

Fixpoint find_iface (registry : list NamespaceCaps) (name : text) : option text :=
  match registry with
  | [] => None
  | ns :: registry =>
      match strip_prefix ns.(ns_prefix) name with
      | Some iface => if bool_decide (iface ∈ ns.(ifaces)) then Some iface else find_iface registry name
      | None => find_iface registry name
      end
  end.

Definition wit_import_to_cap (registry : list NamespaceCaps) (import_name : text) : option text :=
  let name := without_version import_name in
  if starts_with WASI_HTTP_PREFIX name then Some HTTP_CAPABILITY else find_iface registry name.

Inductive CapabilityError : Type :=
| Undeclared (capability wit_import : text)
| UnknownWasi (wit_import : text).

(** The gate on one import; [None] lets it pass. *)
Definition refuse_import (declared : list text) (registry : list NamespaceCaps) (import_name : text)
    : option CapabilityError :=
  let name := without_version import_name in
  if starts_with (chars_of "wasi:") name && negb (starts_with WASI_HTTP_PREFIX name) then
    match classify_wasi import_name with
    | GAmbient => None
    | GGated cap =>
        if bool_decide (wasi_as_str cap ∈ declared) then None
        else Some (Undeclared (wasi_as_str cap) import_name)
    | GUnknown => Some (UnknownWasi import_name)
    end
  else
    match wit_import_to_cap registry import_name with
    | Some cap => if bool_decide (cap ∈ declared) then None else Some (Undeclared cap import_name)
    | None => None
    end.

Fixpoint enforce_capabilities (declared : list text) (imports : list text)
    (registry : list NamespaceCaps) : result unit CapabilityError :=
  match imports with
  | [] => Ok tt
  | import_name :: imports =>
      match refuse_import declared registry import_name with
      | Some e => Err e
      | None => enforce_capabilities declared imports registry
      end
  end.

(** ** Data *)

Record LoadedManifest : Type := mkManifest {
  man_name : text;
  man_digest : option (list Z);
  man_resources : ResourceSection;
  man_dependencies : list text;
  man_http_allowlist : list HostPattern.HostPattern;
  man_config : list (text * text);
  man_triggers : list Trigger;
  man_sections : list text
}.

Record ModuleEntry : Type := mkEntry {
  e_id : text;
  e_path : text;
  e_manifest : option text;
  e_digest : option (list Z)
}.

Record ConfiguredChains : Type := mkChains { chain_ids : list Z; defaulted : bool }.

Inductive DigestPin : Type := PinOperator | PinAuthor.

(** Every refusal of a boot, by the enum it belongs to; the messages and the
    context lines around them are not modelled. *)
Inductive Refusal : Type :=
(* BootRefusal *)
| NamespaceClaimed (name held path : text)
| ManifestInvalid (path : text)
| ManifestNotFound (manifest component : text)
| ManifestMissing (component : text)
| UnconfiguredChainDefaulted (name : text) (chain_id : Z)
| UnconfiguredChain (name : text) (chain_id : Z) (configured : list Z)
| TotalMemoryExceeded (id : text) (sum total : Z)
(* LoadRefusal *)
| SectionUnclaimed (owner section : text)
| ExtensionNamespaceClaimed (namespace : text)
| TriggerKindClaimed (kind : text)
| SectionClaimed (section : text)
| UnknownTriggerKind (module kind : text)
| DigestUnpinned (path : text) (actual : list Z)
| CapabilityNotPermitted (id capability : text)
| ChainTriggerNotPermitted (id : text)
(* the digest, capability, extension and engine classes *)
| DigestMismatch (path : text) (pin : DigestPin) (declared actual : list Z)
| CapabilityRefused (e : CapabilityError)
| ExtensionRefused (namespace : text)
| EngineRefused.

(** What a boot did that a later refusal cannot take back: artifact bytes read,
    bytes handed to the compiler, and a guest instantiated with its [init]
    entered. *)
Inductive BootEv : Type :=
| BRead (path : text) (bytes : list Z)
| BCompiled (path : text) (bytes : list Z)
| BInit (name : text) (imports : list text) (config : list (text * text)).

(** A wired extension. *)
Record Ext : Type := mkExt {
  ext_namespace : text;
  ext_kinds : list text;
  ext_sections : list text;
  ext_capabilities : NamespaceCaps;
  ext_admit_worker : text -> list text -> bool
}.

(** ** The extensions *)

Definition capability_registry (exts : list Ext) : list NamespaceCaps :=
  registry_core ++ (ext_capabilities <$> exts).

Definition extension_trigger_kinds (exts : list Ext) : list text := flat_map ext_kinds exts.

Fixpoint enforce_extension_sections (owner : text) (sections : list text) (exts : list Ext)
    : result unit Refusal :=
  match sections with
  | [] => Ok tt
  | key :: sections =>
      if existsb (fun ext => bool_decide (key ∈ ext.(ext_sections))) exts
      then enforce_extension_sections owner sections exts
      else Err (SectionUnclaimed owner key)
  end.

(** The first name claimed twice, among those a set already holds. *)
Fixpoint claim_all (taken names : list text) : result (list text) text :=
  match names with
  | [] => Ok taken
  | name :: names => if bool_decide (name ∈ taken) then Err name else claim_all (name :: taken) names
  end.

Fixpoint unique_from (exts : list Ext) (namespaces kinds sections : list text) : result unit Refusal :=
  match exts with
  | [] => Ok tt
  | ext :: exts =>
      if bool_decide (ext.(ext_namespace) ∈ namespaces)
      then Err (ExtensionNamespaceClaimed ext.(ext_namespace))
      else
        match claim_all kinds ext.(ext_kinds) with
        | Err kind => Err (TriggerKindClaimed kind)
        | Ok kinds =>
            match claim_all sections ext.(ext_sections) with
            | Err section => Err (SectionClaimed section)
            | Ok sections => unique_from exts (ext.(ext_namespace) :: namespaces) kinds sections
            end
        end
  end.

Definition enforce_extension_uniqueness (exts : list Ext) : result unit Refusal :=
  unique_from exts [] [] [].

(** ** The pre-pass *)

Definition claim_namespace (ledger : gmap text text) (name path : text)
    : result (gmap text text) Refusal :=
  match ledger !! name with
  | Some held => Err (NamespaceClaimed name held path)
  | None => Ok (<[name := path]> ledger)
  end.

Definition unconfigured_chain (name : text) (chain_id : Z) (chains : ConfiguredChains) : Refusal :=
  if chains.(defaulted) then UnconfiguredChainDefaulted name chain_id
  else UnconfiguredChain name chain_id chains.(chain_ids).

Definition trigger_chain (t : Trigger) : option Z :=
  match t with
  | TBlock chain_id => Some chain_id
  | TEvent chain_id _ _ _ _ _ => Some chain_id
  | _ => None
  end.

Fixpoint enforce_trigger_chains (name : text) (triggers : list Trigger) (chains : ConfiguredChains)
    : result unit Refusal :=
  match triggers with
  | [] => Ok tt
  | t :: triggers =>
      match trigger_chain t with
      | Some chain_id =>
          if bool_decide (chain_id ∈ chains.(chain_ids)) then enforce_trigger_chains name triggers chains
          else Err (unconfigured_chain name chain_id chains)
      | None => enforce_trigger_chains name triggers chains
      end
  end.

Fixpoint sum_reservations (total sum : Z) (reservations : list (text * Z)) : result unit Refusal :=
  match reservations with
  | [] => Ok tt
  | (id, memory) :: reservations =>
      let sum := u64_sat (sum + memory) in
      if total <? sum then Err (TotalMemoryExceeded id sum total)
      else sum_reservations total sum reservations
  end.

Definition enforce_total_reservation (policy : PolicySection) (reservations : list (text * Z))
    : result unit Refusal :=
  match policy.(total_max_memory_bytes) with
  | None => Ok tt
  | Some total => sum_reservations total 0 reservations
  end.

(** ** Loading one module *)

Definition enforce_policy_capabilities (id : text) (m : LoadedManifest)
    (permitted : option (list text)) : result unit Refusal :=
  match permitted with
  | None => Ok tt
  | Some permitted =>
      match List.find (fun declared => negb (bool_decide (declared ∈ permitted))) m.(man_dependencies) with
      | Some declared => Err (CapabilityNotPermitted id declared)
      | None =>
          if existsb (fun t => bool_decide (is_Some (trigger_chain t))) m.(man_triggers) &&
             negb (bool_decide (chars_of "chain" ∈ permitted))
          then Err (ChainTriggerNotPermitted id)
          else Ok tt
      end
  end.

Definition default_init_config (config : list (text * text)) (namespace : text) : list (text * text) :=
  match config with [] => [(chars_of "name", namespace)] | _ => config end.

Record DigestPolicy : Type := mkPins {
  operator : option (list Z);
  author : option (list Z);
  require_operator : bool
}.

Definition unpinned (p : DigestPolicy) : bool :=
  bool_decide (p.(operator) = None) && bool_decide (p.(author) = None).

(** A loaded module: what dispatch reads, and what its stores are built from. *)
Record Loaded : Type := mkLoaded {
  ld_name : text;
  ld_digest : list Z;
  ld_imports : list text;
  ld_limits : ResolvedLimits;
  ld_http_allowlist : list HostPattern.HostPattern;
  ld_http_operator_allow : option (list HostPattern.HostPattern);
  ld_triggers : list Trigger;
  ld_health : Health;
  ld_verified : bool
}.

Record EngineConfig : Type := mkConfig {
  cfg_modules : list ModuleEntry;
  cfg_policy : PolicySection;
  cfg_chains : ConfiguredChains;
  cfg_require_component_digest : bool
}.

Section Boot.
(** The file system's paths, and the manifest loader, which parses a file and
    validates it against the registry. *)
Context (path_exists : text -> bool) (path_parent : text -> option text)
        (path_join : text -> text -> text)
        (manifest_load : list NamespaceCaps -> text -> option LoadedManifest).
(** The artifact: its bytes, their hash, the compiler, the imports it reads off. *)
Context (read_file : text -> option (list Z)) (sha256 : list Z -> list Z)
        (compile : list Z -> option (list text)).
(** A fresh store, the instantiation and [init]: [None] is an engine refusal, and
    the boolean is whether the guest returned without a fault. *)
Context (instantiate : text -> list Z -> list (text * text) -> option bool).

(** Results with the trace of what was done. *)
Definition A (X : Type) : Type := list BootEv -> result X Refusal * list BootEv.
Definition ret {X} (x : X) : A X := fun tr => (Ok x, tr).
Definition fail {X} (e : Refusal) : A X := fun tr => (Err e, tr).
Definition lift {X} (r : result X Refusal) : A X := fun tr => (r, tr).
Definition bind {X Y} (m : A X) (f : X -> A Y) : A Y := fun tr =>
  match m tr with (Ok x, tr) => f x tr | (Err e, tr) => (Err e, tr) end.
Definition emit_ev (e : BootEv) : A unit := fun tr => (Ok tt, tr ++ [e]).

Definition resolve_manifest_path (path : text) (explicit : option text) : option text :=
  match explicit with
  | Some p => Some p
  | None =>
      match path_parent path with
      | None => None
      | Some dir =>
          let canonical := path_join dir (chars_of "component.toml") in
          if path_exists canonical then Some canonical else None
      end
  end.

Definition load_required_manifest (path : text) (explicit : option text)
    (registry : list NamespaceCaps) : result LoadedManifest Refusal :=
  match resolve_manifest_path path explicit with
  | Some p =>
      if path_exists p then
        match manifest_load registry p with Some m => Ok m | None => Err (ManifestInvalid p) end
      else Err (ManifestNotFound p path)
  | None => Err (ManifestMissing path)
  end.

(** The loop of [prepass::run]. *)
Fixpoint prepass_loop (cfg : EngineConfig) (registry : list NamespaceCaps) (ledger : gmap text text) (entries : list ModuleEntry)
    : result (list (LoadedManifest * ResolvedLimits)) Refusal :=
  match entries with
  | [] => Ok []
  | entry :: entries =>
      match load_required_manifest entry.(e_path) entry.(e_manifest) registry with
      | Err e => Err e
      | Ok m =>
          match claim_namespace ledger m.(man_name) entry.(e_path) with
          | Err e => Err e
          | Ok ledger =>
              match enforce_trigger_chains m.(man_name) m.(man_triggers) cfg.(cfg_chains) with
              | Err e => Err e
              | Ok _ =>
                  let limits := resolve_module_limits m.(man_resources)
                                  (for_component cfg.(cfg_policy) entry.(e_id)).(eff_ceilings) in
                  match prepass_loop cfg registry ledger entries with
                  | Err e => Err e
                  | Ok rest => Ok ((m, limits) :: rest)
                  end
              end
          end
      end
  end.

Definition prepass (cfg : EngineConfig) (registry : list NamespaceCaps)
    : result (list (LoadedManifest * ResolvedLimits)) Refusal :=
  match prepass_loop cfg registry ∅ cfg.(cfg_modules) with
  | Err e => Err e
  | Ok manifests =>
      match enforce_total_reservation cfg.(cfg_policy)
              (zip_with (fun entry m => (entry.(e_id), m.2.(lim_memory))) cfg.(cfg_modules) manifests) with
      | Err e => Err e
      | Ok _ => Ok manifests
      end
  end.

(** A pin that is present has to match. *)
Definition check_pin (path : text) (pin : DigestPin) (declared : option (list Z)) (actual : list Z)
    : A unit :=
  match declared with
  | None => ret tt
  | Some d => if bool_decide (actual = d) then ret tt else fail (DigestMismatch path pin d actual)
  end.

(** The one compile path: the bytes, their digest, the pins, and only then the
    compiler. *)
Definition read_verified_component (path : text) (pins : DigestPolicy) : A (list text * list Z) :=
  match read_file path with
  | None => fail EngineRefused
  | Some bytes =>
      bind (emit_ev (BRead path bytes)) (fun _ =>
      let actual := sha256 bytes in
      bind (check_pin path PinOperator pins.(operator) actual) (fun _ =>
      bind (check_pin path PinAuthor pins.(author) actual) (fun _ =>
      if bool_decide (pins.(operator) = None) && pins.(require_operator)
      then fail (DigestUnpinned path actual)
      else
        match compile bytes with
        | None => fail EngineRefused
        | Some imports => bind (emit_ev (BCompiled path bytes)) (fun _ => ret (imports, actual))
        end)))
  end.

(** The extensions' own admission, in wiring order. *)
Definition admit_worker (exts : list Ext) (namespace : text) (sections : list text) : A unit :=
  match List.find (fun ext => negb (ext.(ext_admit_worker) namespace sections)) exts with
  | Some ext => fail (ExtensionRefused ext.(ext_namespace))
  | None => ret tt
  end.

Definition admit_and_verify (exts : list Ext) (path : text) (m : LoadedManifest)
    (registry : list NamespaceCaps) (pins : DigestPolicy) : A (list text * list Z) :=
  bind (lift (enforce_extension_sections m.(man_name) m.(man_sections) exts)) (fun _ =>
  bind (admit_worker exts m.(man_name) m.(man_sections)) (fun _ =>
  bind (read_verified_component path pins) (fun '(imports, digest) =>
  match enforce_capabilities m.(man_dependencies) imports registry with
  | Err e => fail (CapabilityRefused e)
  | Ok _ => ret (imports, digest)
  end))).

(** The extension kinds a manifest names that no wired extension declares. *)
Definition unknown_kind (exts : list Ext) (triggers : list Trigger) : option text :=
  match List.find (fun t => match t with
                            | TExtension kind _ => negb (bool_decide (kind ∈ extension_trigger_kinds exts))
                            | _ => false
                            end) triggers with
  | Some (TExtension kind _) => Some kind
  | _ => None
  end.

Definition load_module (cfg : EngineConfig) (exts : list Ext) (entry : ModuleEntry)
    (m : LoadedManifest) (resolved : ResolvedLimits) : A Loaded :=
  let effective := for_component cfg.(cfg_policy) entry.(e_id) in
  bind (lift (enforce_policy_capabilities entry.(e_id) m effective.(eff_capabilities))) (fun _ =>
  let registry := capability_registry exts in
  let pins := mkPins entry.(e_digest) m.(man_digest) cfg.(cfg_require_component_digest) in
  bind (admit_and_verify exts entry.(e_path) m registry pins) (fun '(imports, digest) =>
  let config := default_init_config m.(man_config) m.(man_name) in
  bind (emit_ev (BInit m.(man_name) imports config)) (fun _ =>
  match instantiate m.(man_name) digest config with
  | None => fail EngineRefused
  | Some init_succeeded =>
      match unknown_kind exts m.(man_triggers) with
      | Some kind => fail (UnknownTriggerKind m.(man_name) kind)
      | None =>
          ret (mkLoaded m.(man_name) digest imports resolved m.(man_http_allowlist)
                 effective.(eff_http_allow) m.(man_triggers) (from_init init_succeeded)
                 (negb (unpinned pins)))
      end
  end))).

Fixpoint load_modules (cfg : EngineConfig) (exts : list Ext) (entries : list ModuleEntry)
    (manifests : list (LoadedManifest * ResolvedLimits)) : A (list Loaded) :=
  match entries, manifests with
  | entry :: entries, (m, resolved) :: manifests =>
      bind (load_module cfg exts entry m resolved) (fun loaded =>
      bind (load_modules cfg exts entries manifests) (fun rest => ret (loaded :: rest)))
  | _, _ => ret []
  end.

Definition boot (cfg : EngineConfig) (exts : list Ext) : A (list Loaded) :=
  bind (lift (enforce_extension_uniqueness exts)) (fun _ =>
  bind (lift (prepass cfg (capability_registry exts))) (fun manifests =>
  load_modules cfg exts cfg.(cfg_modules) manifests)).

(** [boot_single]: the same admission for one component, with no ledger. *)
Definition boot_single (cfg : EngineConfig) (exts : list Ext) (entry : ModuleEntry) : A (list Loaded) :=
  bind (lift (enforce_extension_uniqueness exts)) (fun _ =>
  bind (lift (load_required_manifest entry.(e_path) entry.(e_manifest) (capability_registry exts))) (fun m =>
  bind (lift (enforce_trigger_chains m.(man_name) m.(man_triggers) cfg.(cfg_chains))) (fun _ =>
  let resolved := resolve_module_limits m.(man_resources)
                    (for_component cfg.(cfg_policy) entry.(e_id)).(eff_ceilings) in
  bind (lift (enforce_total_reservation cfg.(cfg_policy) [(entry.(e_id), resolved.(lim_memory))])) (fun _ =>
  bind (load_module cfg exts entry m resolved) (fun loaded => ret [loaded]))))).

(** ** What an import may be *)

(** The rule an import has to satisfy, in terms of its name alone: every gated
    surface it lies in is granted, and nothing under [wasi:] is unrecognised. *)
Record authorised (registry : list NamespaceCaps) (granted : text -> Prop) (import_name : text) : Prop :=
  mkAuthorised {
    auth_gated cap : starts_with (gated_prefix cap) (without_version import_name) = true ->
      granted (wasi_as_str cap);
    auth_http : starts_with WASI_HTTP_PREFIX (without_version import_name) = true -> granted HTTP_CAPABILITY;
    auth_known : starts_with (chars_of "wasi:") (without_version import_name) = true ->
      exists p, starts_with p (without_version import_name) = true /\
        (p = WASI_HTTP_PREFIX \/ p ∈ AMBIENT_WASI_PREFIXES \/ exists cap, p = gated_prefix cap);
    auth_core iface : without_version import_name = chars_of "nexum:host/" ++ iface ->
      iface ∈ CORE_CAPABILITIES -> granted iface;
    auth_extension ns iface : ns ∈ registry -> without_version import_name = ns.(ns_prefix) ++ iface ->
      iface ∈ ns.(ifaces) -> starts_with (chars_of "wasi:") (without_version import_name) = false ->
      exists ns' iface', ns' ∈ registry /\ without_version import_name = ns'.(ns_prefix) ++ iface' /\
        iface' ∈ ns'.(ifaces) /\ granted iface'
  }.

(** Two prefixes of one text are comparable. *)
Lemma prefixes_comparable p q s :
  starts_with p s = true -> starts_with q s = true -> starts_with p q = true \/ starts_with q p = true.
Proof.
  revert q s. induction p as [|a p IH]; intros [|b q] [|c s]; cbn; try (by auto).
  intros [->%Z.eqb_eq Hp]%andb_prop [->%Z.eqb_eq Hq]%andb_prop. rewrite Z.eqb_refl. cbn. eauto.
Qed.

Lemma find_iface_Some registry name iface :
  find_iface registry name = Some iface ->
  exists ns, ns ∈ registry /\ name = ns.(ns_prefix) ++ iface /\ iface ∈ ns.(ifaces).
Proof.
  induction registry as [|ns registry IH]; cbn; [done|]. intros H.
  destruct (strip_prefix (ns_prefix ns) name) as [i|] eqn:E; [case_bool_decide as Hi|].
  - injection H as ->. apply strip_prefix_Some in E. exists ns. split_and!; [set_solver|done|done].
  - destruct (IH H) as (ns' & ? & ?). exists ns'. split; [set_solver|done].
  - destruct (IH H) as (ns' & ? & ?). exists ns'. split; [set_solver|done].
Qed.

Lemma find_iface_None registry name ns iface :
  find_iface registry name = None -> ns ∈ registry -> name = ns.(ns_prefix) ++ iface ->
  iface ∈ ns.(ifaces) -> False.
Proof.
  induction registry as [|n registry IH]; cbn; [set_solver|]. intros H Hns Hname Hi.
  apply elem_of_cons in Hns as [->|Hns].
  - apply strip_prefix_Some in Hname. rewrite Hname, bool_decide_true in H by done. done.
  - apply (IH (ltac:(by repeat case_match))); done.
Qed.

(** A concrete prefix rules another out. *)
Lemma prefixes_clash p q s :
  starts_with p q = false -> starts_with q p = false ->
  starts_with p s = true -> starts_with q s = false.
Proof.
  intros Hpq Hqp Hp. destruct (starts_with q s) eqn:Hq; [|done].
  destruct (prefixes_comparable p q s Hp Hq); congruence.
Qed.

Lemma prefix_trans p q s : starts_with p q = true -> starts_with q s = true -> starts_with p s = true.
Proof.
  intros [r ->]%starts_with_inv [t ->]%starts_with_inv. rewrite <- app_assoc. apply starts_with_app.
Qed.

Lemma gated_is_wasi cap name :
  starts_with (gated_prefix cap) name = true ->
  starts_with (chars_of "wasi:") name = true /\ starts_with WASI_HTTP_PREFIX name = false /\
  existsb (fun p => starts_with p name) AMBIENT_WASI_PREFIXES = false /\
  List.find (fun cap => starts_with (gated_prefix cap) name) WasiCap_ALL = Some cap.
Proof.
  intros H. split_and!.
  - eapply prefix_trans; [|exact H]. by destruct cap.
  - eapply prefixes_clash; [| |exact H]; by destruct cap.
  - cbn [existsb AMBIENT_WASI_PREFIXES]. rewrite !orb_false_iff.
    split_and!; [..|done]; (eapply prefixes_clash; [| |exact H]; by destruct cap).
  - destruct cap; cbn [List.find WasiCap_ALL]; [by rewrite H|]. rewrite H.
    by rewrite (prefixes_clash (gated_prefix Filesystem) (gated_prefix Sockets) _ eq_refl eq_refl H).
Qed.

Lemma refuse_import_authorised declared exts i :
  refuse_import declared (capability_registry exts) i = None ->
  authorised (capability_registry exts) (fun cap => cap ∈ declared) i.
Proof.
  unfold refuse_import, classify_wasi, wit_import_to_cap. intros H. split.
  - intros cap (Hw & Hh & Ha & Hf)%gated_is_wasi. rewrite Hw, Hh, Ha, Hf in H. cbn [negb andb] in H.
    by case_bool_decide.
  - intros Hh. rewrite Hh, andb_false_r in H. by case_bool_decide.
  - intros Hw. rewrite Hw in H. destruct (starts_with WASI_HTTP_PREFIX _) eqn:Hh; [by eauto|].
    cbn [negb andb] in H. destruct (existsb _ _) eqn:Ha.
    + apply existsb_exists in Ha as (p & Hp & ?). exists p. rewrite list_elem_of_In. auto.
    + destruct (List.find _ _) as [cap|] eqn:Hf; [|done]. apply List.find_some in Hf as [_ Hf]. eauto 6.
  - intros iface Hname Hi.
    assert (Hc : starts_with (chars_of "nexum:host/") (without_version i) = true)
      by (rewrite Hname; apply starts_with_app).
    rewrite (prefixes_clash (chars_of "nexum:host/") (chars_of "wasi:") _ eq_refl eq_refl Hc) in H.
    rewrite (prefixes_clash (chars_of "nexum:host/") WASI_HTTP_PREFIX _ eq_refl eq_refl Hc) in H.
    apply strip_prefix_Some in Hname. cbn [andb find_iface capability_registry registry_core app ns_prefix
      CORE_NAMESPACE ifaces] in H. rewrite Hname, bool_decide_true in H by done. by case_bool_decide.
  - intros ns iface Hns Hname Hi Hw. rewrite Hw in H. cbn [andb] in H.
    destruct (starts_with WASI_HTTP_PREFIX _) eqn:Hh.
    { rewrite (prefix_trans (chars_of "wasi:") WASI_HTTP_PREFIX _ eq_refl Hh) in Hw. done. }
    destruct (find_iface _ _) as [cap|] eqn:Hf.
    + apply find_iface_Some in Hf as (ns' & ? & ? & ?). case_bool_decide; [|done]. eauto 8.
    + by edestruct find_iface_None.
Qed.

Lemma enforce_capabilities_authorised declared imports exts :
  enforce_capabilities declared imports (capability_registry exts) = Ok tt ->
  Forall (authorised (capability_registry exts) (fun cap => cap ∈ declared)) imports.
Proof.
  induction imports as [|i imports IH]; cbn; [by constructor|]. intros H.
  destruct (refuse_import _ _ _) eqn:E; [done|]. constructor; [by apply refuse_import_authorised | auto].
Qed.

Lemma authorised_mono registry (P Q : text -> Prop) i :
  (forall cap, P cap -> Q cap) -> authorised registry P i -> authorised registry Q i.
Proof.
  intros HPQ [Hg Hh Hk Hc He]. split; [eauto..|].
  intros ns iface H1 H2 H3 H4. destruct (He ns iface H1 H2 H3 H4) as (ns' & iface' & ? & ? & ? & ?).
  exists ns', iface'. eauto.
Qed.

(** ** Reasoning about a traced computation *)

(** Whatever [m] ends with, it only appended events that satisfy [P]; a value
    satisfies [Q] and a refusal [R]. *)
Definition holds {X} (P : BootEv -> Prop) (Q : X -> Prop) (R : Refusal -> Prop) (m : A X) : Prop :=
  forall tr, exists evs, (m tr).2 = tr ++ evs /\ Forall P evs /\
    match (m tr).1 with Ok x => Q x | Err e => R e end.

Lemma holds_ret {X} P (Q : X -> Prop) R x : Q x -> holds P Q R (ret x).
Proof. intros HQ tr. exists []. rewrite app_nil_r. split_and!; [done|constructor|done]. Qed.

Lemma holds_fail {X} P (Q : X -> Prop) (R : Refusal -> Prop) e : R e -> holds P Q R (fail e).
Proof. intros HQ tr. exists []. rewrite app_nil_r. split_and!; [done|constructor|done]. Qed.

Lemma holds_lift {X} P (R : Refusal -> Prop) (r : result X Refusal) :
  (forall e, r = Err e -> R e) -> holds P (fun x => r = Ok x) R (lift r).
Proof.
  intros HR tr. exists []. rewrite app_nil_r. split_and!; [done|constructor|]. cbn. destruct r; eauto.
Qed.

Lemma holds_emit (P : BootEv -> Prop) R e : P e -> holds P (fun _ => True) R (emit_ev e).
Proof. intros HP tr. exists [e]. split_and!; [done|by repeat constructor|done]. Qed.

Lemma holds_bind {X Y} P (Q : X -> Prop) (Q' : Y -> Prop) R m (f : X -> A Y) :
  holds P Q R m -> (forall x, Q x -> holds P Q' R (f x)) -> holds P Q' R (bind m f).
Proof.
  intros Hm Hf tr. destruct (Hm tr) as (evs & Htr & HP & HQ). unfold bind.
  destruct (m tr) as [[x|e] tr1]; cbn in *; subst tr1; [|by exists evs].
  destruct (Hf x HQ (tr ++ evs)) as (evs' & -> & HP' & HQ').
  exists (evs ++ evs'). rewrite app_assoc, Forall_app. done.
Qed.

Lemma holds_weaken {X} (P P' : BootEv -> Prop) (Q Q' : X -> Prop) (R R' : Refusal -> Prop) m :
  holds P Q R m -> (forall e, P e -> P' e) -> (forall x, Q x -> Q' x) -> (forall e, R e -> R' e) ->
  holds P' Q' R' m.
Proof.
  intros Hm HP HQ HR tr. destruct (Hm tr) as (evs & Htr & HF & Hx). exists evs.
  split_and!; [done | by eapply Forall_impl | destruct (m tr) as [[] ?]; cbn in *; auto].
Qed.

(** ** One module *)

(** Every pin that is present is the hash of [bytes], and the operator's is
    present when required. *)
Definition pinned (pins : DigestPolicy) (bytes : list Z) : Prop :=
  (forall d, pins.(operator) = Some d -> sha256 bytes = d) /\
  (forall d, pins.(author) = Some d -> sha256 bytes = d) /\
  (pins.(require_operator) = true -> is_Some pins.(operator)).

(** What the operator grants a component: its declared capabilities, all of them
    within the permitted list when there is one. *)
Definition granted_to (cfg : EngineConfig) (entry : ModuleEntry) (m : LoadedManifest) (cap : text) : Prop :=
  cap ∈ m.(man_dependencies) /\
  forall permitted, (for_component cfg.(cfg_policy) entry.(e_id)).(eff_capabilities) = Some permitted ->
    cap ∈ permitted.

Definition pins_of (cfg : EngineConfig) (entry : ModuleEntry) (m : LoadedManifest) : DigestPolicy :=
  mkPins entry.(e_digest) m.(man_digest) cfg.(cfg_require_component_digest).

(** What loading an entry may do. *)
Definition lawful (cfg : EngineConfig) (exts : list Ext) (entry : ModuleEntry) (m : LoadedManifest)
    (e : BootEv) : Prop :=
  match e with
  | BRead path bytes => path = entry.(e_path) /\ read_file path = Some bytes
  | BCompiled path bytes =>
      path = entry.(e_path) /\ read_file path = Some bytes /\ pinned (pins_of cfg entry m) bytes
  | BInit name imports config =>
      name = m.(man_name) /\
      (exists bytes, read_file entry.(e_path) = Some bytes /\ compile bytes = Some imports /\
        pinned (pins_of cfg entry m) bytes) /\
      Forall (authorised (capability_registry exts) (granted_to cfg entry m)) imports
  end.

(** The refusals of the pre-pass. *)
Definition is_boot_refusal (e : Refusal) : bool :=
  match e with
  | NamespaceClaimed _ _ _ | ManifestInvalid _ | ManifestNotFound _ _ | ManifestMissing _
  | UnconfiguredChainDefaulted _ _ | UnconfiguredChain _ _ _ | TotalMemoryExceeded _ _ _ => true
  | _ => false
  end.

Lemma enforce_policy_ok id m permitted :
  enforce_policy_capabilities id m (Some permitted) = Ok tt ->
  (forall cap, cap ∈ m.(man_dependencies) -> cap ∈ permitted) /\
  (forall t, t ∈ m.(man_triggers) -> is_Some (trigger_chain t) -> chars_of "chain" ∈ permitted).
Proof.
  unfold enforce_policy_capabilities. destruct (List.find _ _) eqn:Ef; [done|].
  destruct (_ && _) eqn:Eb; [done|]. intros _. split.
  - intros cap Hc%list_elem_of_In. pose proof (List.find_none _ _ Ef _ Hc) as Hn. cbn in Hn.
    apply negb_false_iff in Hn. by apply bool_decide_eq_true in Hn.
  - intros t Ht%list_elem_of_In Hs. apply andb_false_iff in Eb as [Eb|Eb].
    + exfalso. eapply not_true_iff_false; [exact Eb|]. apply existsb_exists. exists t.
      by rewrite bool_decide_true.
    + apply negb_false_iff in Eb. by apply bool_decide_eq_true in Eb.
Qed.

Lemma check_pin_ok P (R : Refusal -> Prop) path pin declared actual :
  (forall d, R (DigestMismatch path pin d actual)) ->
  holds P (fun _ => forall d, declared = Some d -> actual = d) R (check_pin path pin declared actual).
Proof.
  intros HR. unfold check_pin. destruct declared as [d|]; [|by apply holds_ret].
  case_bool_decide; [apply holds_ret; by intros ? [= <-] | apply holds_fail, HR].
Qed.

Lemma read_verified_ok cfg exts entry m :
  holds (lawful cfg exts entry m)
    (fun r => exists bytes, read_file entry.(e_path) = Some bytes /\ compile bytes = Some r.1 /\
       r.2 = sha256 bytes /\ pinned (pins_of cfg entry m) bytes)
    (fun e => is_boot_refusal e = false)
    (read_verified_component entry.(e_path) (pins_of cfg entry m)).
Proof.
  unfold read_verified_component. destruct (read_file (e_path entry)) as [bytes|] eqn:Er;
    [|by apply holds_fail].
  eapply holds_bind; [by apply holds_emit|]. intros [] _.
  eapply holds_bind; [by apply check_pin_ok|]. intros [] Hop.
  eapply holds_bind; [by apply check_pin_ok|]. intros [] Hau.
  destruct (_ && _) eqn:Eb; [by apply holds_fail|].
  assert (Hpin : pinned (pins_of cfg entry m) bytes).
  { split_and!; [done..|]. intros Hreq. rewrite Hreq, andb_true_r in Eb.
    apply bool_decide_eq_false in Eb. by apply not_eq_None_Some. }
  destruct (compile bytes) as [imports|] eqn:Ec; [|by apply holds_fail].
  eapply holds_bind; [by apply holds_emit|]. intros [] _. apply holds_ret. by exists bytes.
Qed.

(** Why a module that loads may run, and as what. *)
Record load_facts (cfg : EngineConfig) (exts : list Ext) (entry : ModuleEntry) (m : LoadedManifest)
    (resolved : ResolvedLimits) (l : Loaded) : Prop := mkLoadFacts {
  lf_name : l.(ld_name) = m.(man_name);
  lf_limits : l.(ld_limits) = resolved;
  lf_triggers : l.(ld_triggers) = m.(man_triggers);
  lf_http : l.(ld_http_allowlist) = m.(man_http_allowlist);
  lf_http_operator :
    l.(ld_http_operator_allow) = (for_component cfg.(cfg_policy) entry.(e_id)).(eff_http_allow);
  lf_bytes : exists bytes, read_file entry.(e_path) = Some bytes /\ compile bytes = Some l.(ld_imports) /\
    l.(ld_digest) = sha256 bytes /\ pinned (pins_of cfg entry m) bytes;
  lf_imports : Forall (authorised (capability_registry exts) (granted_to cfg entry m)) l.(ld_imports);
  lf_chain : forall permitted t,
    (for_component cfg.(cfg_policy) entry.(e_id)).(eff_capabilities) = Some permitted ->
    t ∈ m.(man_triggers) -> is_Some (trigger_chain t) -> chars_of "chain" ∈ permitted;
  lf_kinds : forall kind params, TExtension kind params ∈ m.(man_triggers) ->
    kind ∈ extension_trigger_kinds exts;
  lf_verified : l.(ld_verified) = true <-> is_Some entry.(e_digest) \/ is_Some m.(man_digest);
  lf_health : exists ok,
    instantiate m.(man_name) l.(ld_digest) (default_init_config m.(man_config) m.(man_name)) = Some ok /\
    l.(ld_health) = from_init ok
}.

Lemma unknown_kind_none exts triggers kind params :
  unknown_kind exts triggers = None -> TExtension kind params ∈ triggers ->
  kind ∈ extension_trigger_kinds exts.
Proof.
  unfold unknown_kind. destruct (List.find _ _) as [t|] eqn:Ef.
  - apply List.find_some in Ef as [_ Ef]. by destruct t.
  - intros _ Ht%list_elem_of_In. pose proof (List.find_none _ _ Ef _ Ht) as Hn. cbn in Hn.
    apply negb_false_iff in Hn. by apply bool_decide_eq_true in Hn.
Qed.

Lemma unpinned_iff pins : negb (unpinned pins) = true <-> is_Some pins.(operator) \/ is_Some pins.(author).
Proof.
  unfold unpinned. rewrite negb_andb, orb_true_iff, !negb_true_iff, !bool_decide_eq_false.
  by rewrite !not_eq_None_Some.
Qed.

Lemma admit_and_verify_ok cfg exts entry m :
  holds (lawful cfg exts entry m)
    (fun r => (exists bytes, read_file entry.(e_path) = Some bytes /\ compile bytes = Some r.1 /\
       r.2 = sha256 bytes /\ pinned (pins_of cfg entry m) bytes) /\
       enforce_capabilities m.(man_dependencies) r.1 (capability_registry exts) = Ok tt)
    (fun e => is_boot_refusal e = false)
    (admit_and_verify exts entry.(e_path) m (capability_registry exts) (pins_of cfg entry m)).
Proof.
  unfold admit_and_verify. eapply holds_bind.
  { apply holds_lift. intros e. induction (man_sections m); cbn; [done|].
    case_match; [auto|]. by intros [= <-]. }
  intros [] _. apply (holds_bind _ (fun _ => True)).
  { unfold admit_worker. destruct (List.find _ _); [by apply holds_fail | by apply holds_ret]. }
  intros [] _. eapply holds_bind; [apply read_verified_ok|]. intros [imports digest] Hb.
  destruct (enforce_capabilities _ _ _) as [[]|e] eqn:Ee; [by apply holds_ret | by apply holds_fail].
Qed.

Lemma load_module_ok cfg exts entry m resolved :
  holds (lawful cfg exts entry m) (load_facts cfg exts entry m resolved)
    (fun e => is_boot_refusal e = false) (load_module cfg exts entry m resolved).
Proof.
  unfold load_module.
  set (permitted := eff_capabilities _).
  eapply holds_bind.
  { apply holds_lift. intros e. unfold enforce_policy_capabilities. repeat case_match; by intros [= <-]. }
  intros [] Hpol.
  eapply holds_bind; [apply admit_and_verify_ok|].
  intros [imports digest] [(bytes & Hr & Hc & Hd & Hpin) Ecap]. cbn [fst snd] in *.
  assert (Hauth : Forall (authorised (capability_registry exts) (granted_to cfg entry m)) imports).
  { eapply Forall_impl; [by apply enforce_capabilities_authorised|]. intros i.
    apply authorised_mono. intros cap Hcap. split; [done|]. intros pm Hpm.
    unfold permitted in Hpol. rewrite Hpm in Hpol. by apply enforce_policy_ok in Hpol as [Hin _]; auto. }
  eapply holds_bind; [apply holds_emit; split_and!; eauto|]. intros _ _.
  destruct (instantiate _ _ _) as [ok|] eqn:Ei; [|by apply holds_fail].
  destruct (unknown_kind _ _) eqn:Ek; [by apply holds_fail|].
  apply holds_ret. split; try done.
  - by exists bytes.
  - intros pm t Hpm Ht Hs. unfold permitted in Hpol. rewrite Hpm in Hpol.
    apply enforce_policy_ok in Hpol as [_ Hch]. eauto.
  - intros kind params. by apply unknown_kind_none.
  - apply unpinned_iff.
  - by exists ok.
Qed.

(** ** The whole boot *)

(** The manifest of an entry, its limits and its chains, as the pre-pass left them. *)
Definition resolved_as (cfg : EngineConfig) (registry : list NamespaceCaps) (entry : ModuleEntry)
    (p : LoadedManifest * ResolvedLimits) : Prop :=
  load_required_manifest entry.(e_path) entry.(e_manifest) registry = Ok p.1 /\
  p.2 = resolve_module_limits p.1.(man_resources)
          (for_component cfg.(cfg_policy) entry.(e_id)).(eff_ceilings) /\
  Forall (fun t => forall chain_id, trigger_chain t = Some chain_id ->
            chain_id ∈ cfg.(cfg_chains).(chain_ids)) p.1.(man_triggers).

Lemma enforce_trigger_chains_ok name triggers chains :
  enforce_trigger_chains name triggers chains = Ok tt ->
  Forall (fun t => forall chain_id, trigger_chain t = Some chain_id -> chain_id ∈ chains.(chain_ids)) triggers.
Proof.
  induction triggers as [|t triggers IH]; cbn; [by constructor|].
  destruct (trigger_chain t) as [c|] eqn:Et; [case_bool_decide; [|done]|]; intros Hok;
    (constructor; [|by apply IH]); rewrite Et; by intros ? [= <-].
Qed.

Lemma prepass_loop_ok cfg registry ledger entries manifests :
  prepass_loop cfg registry ledger entries = Ok manifests ->
  Forall2 (resolved_as cfg registry) entries manifests /\
  NoDup ((man_name ∘ fst) <$> manifests) /\
  Forall (fun p => ledger !! p.1.(man_name) = None) manifests.
Proof.
  revert ledger manifests. induction entries as [|entry entries IH]; cbn; intros ledger manifests.
  { intros [= <-]. split_and!; constructor. }
  destruct (load_required_manifest _ _ _) as [m|] eqn:El; [|done]. unfold claim_namespace.
  destruct (ledger !! man_name m) eqn:Eg; [done|].
  destruct (enforce_trigger_chains _ _ _) as [[]|] eqn:Ec; [|done].
  destruct (prepass_loop _ _ _ _) as [rest|] eqn:Er; [|done]. intros [= <-].
  destruct (IH _ _ Er) as (H2 & Hnd & Hfresh). rewrite fmap_cons, NoDup_cons. split_and!.
  - constructor; [|done]. split_and!; [done|done|by eapply enforce_trigger_chains_ok].
  - intros ([q l] & Hq & Hin)%list_elem_of_fmap. rewrite Forall_forall in Hfresh.
    apply Hfresh in Hin. cbn in *. rewrite <- Hq, lookup_insert_eq in Hin. done.
  - done.
  - constructor; [done|]. eapply Forall_impl; [exact Hfresh|]. cbn. intros q Hq.
    by apply lookup_insert_None in Hq as [].
Qed.

Lemma sum_reservations_ok total sum reservations :
  sum_reservations total sum reservations = Ok tt -> sum <= total < u64_max ->
  foldr Z.add sum (snd <$> reservations) <= total.
Proof.
  revert sum. induction reservations as [|[id mem] rs IH]; cbn; intros sum H Hs; [lia|].
  destruct (Z.ltb_spec total (u64_sat (sum + mem))); [done|].
  assert (Hsat : u64_sat (sum + mem) = sum + mem) by (unfold u64_sat in *; lia).
  rewrite Hsat in *. specialize (IH _ H ltac:(lia)).
  assert (foldr Z.add (sum + mem) (snd <$> rs) = mem + foldr Z.add sum (snd <$> rs)) as <-; [|done].
  clear. induction (snd <$> rs) as [|x xs IHx]; cbn; [lia|]. rewrite IHx. lia.
Qed.

Lemma claim_all_ok taken names taken' :
  claim_all taken names = Ok taken' -> NoDup taken -> NoDup taken' /\ taken' ≡ₚ names ++ taken.
Proof.
  revert taken. induction names as [|n names IH]; cbn; intros taken H Hnd; [by injection H as <-|].
  case_bool_decide as Hn; [done|]. destruct (IH _ H) as [H1 H2]; [by constructor|].
  split; [done|]. rewrite H2. symmetry. apply Permutation_middle.
Qed.

Lemma unique_from_ok exts ns ks ss :
  unique_from exts ns ks ss = Ok tt -> NoDup ns -> NoDup ks -> NoDup ss ->
  NoDup ((ext_namespace <$> exts) ++ ns) /\ NoDup (flat_map ext_kinds exts ++ ks) /\
  NoDup (flat_map ext_sections exts ++ ss).
Proof.
  revert ns ks ss. induction exts as [|e exts IH]; cbn; intros ns ks ss H Hn Hk Hs; [done|].
  case_bool_decide as Hin; [done|].
  destruct (claim_all ks _) as [ks'|] eqn:Ek; [|done]. destruct (claim_all ss _) as [ss'|] eqn:Es; [|done].
  apply claim_all_ok in Ek as [Hk' Pk]; [|done]. apply claim_all_ok in Es as [Hs' Ps]; [|done].
  destruct (IH _ _ _ H) as (H1 & H2 & H3); [by constructor|done|done|].
  rewrite Pk in H2. rewrite Ps in H3. split_and!.
  - by rewrite Permutation_middle.
  - rewrite <- app_assoc, Permutation_app_swap_app. done.
  - rewrite <- app_assoc, Permutation_app_swap_app. done.
Qed.

(** An event of a boot: lawful for one of the configured entries. *)
Definition boot_lawful (cfg : EngineConfig) (exts : list Ext) (e : BootEv) : Prop :=
  exists entry m, entry ∈ cfg.(cfg_modules) /\
    load_required_manifest entry.(e_path) entry.(e_manifest) (capability_registry exts) = Ok m /\ lawful cfg exts entry m e.

(** What a boot established of one entry. *)
Definition booted (cfg : EngineConfig) (exts : list Ext) (entry : ModuleEntry) (l : Loaded) : Prop :=
  exists p, resolved_as cfg (capability_registry exts) entry p /\ load_facts cfg exts entry p.1 p.2 l.

Lemma load_modules_ok cfg exts entries manifests :
  (forall entry, entry ∈ entries -> entry ∈ cfg.(cfg_modules)) ->
  Forall2 (resolved_as cfg (capability_registry exts)) entries manifests ->
  holds (boot_lawful cfg exts)
    (fun ls => Forall2 (booted cfg exts) entries ls /\
       ld_name <$> ls = (man_name ∘ fst) <$> manifests /\
       ld_limits <$> ls = snd <$> manifests)
    (fun e => is_boot_refusal e = false) (load_modules cfg exts entries manifests).
Proof.
  intros Hin H2. revert Hin.
  induction H2 as [|entry [m resolved] entries manifests Hres H2 IH]; intros Hin; cbn.
  { by apply holds_ret. }
  eapply holds_bind.
  { eapply holds_weaken; [apply load_module_ok| |exact (fun _ H => H)|exact (fun _ H => H)].
    intros e He. exists entry, m. split_and!; [set_solver|apply Hres|done]. }
  intros l Hl. eapply holds_bind; [apply IH; set_solver|]. intros ls (Hls & Hn & Hm).
  apply holds_ret. rewrite !fmap_cons, Hn, Hm. split_and!.
  - constructor; [by exists (m, resolved) | done].
  - f_equal. apply Hl.
  - f_equal. apply Hl.
Qed.

Lemma boot_shape cfg exts :
  (exists e, forall tr, boot cfg exts tr = (Err e, tr)) \/
  exists manifests, enforce_extension_uniqueness exts = Ok tt /\ prepass cfg (capability_registry exts) = Ok manifests /\
    Forall2 (resolved_as cfg (capability_registry exts)) cfg.(cfg_modules) manifests /\
    forall tr, boot cfg exts tr = load_modules cfg exts cfg.(cfg_modules) manifests tr.
Proof.
  unfold boot, bind, lift. destruct (enforce_extension_uniqueness exts) as [[]|e]; [|left; by exists e].
  destruct (prepass cfg _) as [manifests|e] eqn:Ep; [|left; by exists e].
  right. exists manifests. split_and!; [done|done| |done].
  unfold prepass in Ep. destruct (prepass_loop _ _ _ _) as [ms|] eqn:El; [|done].
  case_match; [|done]. injection Ep as <-. by apply prepass_loop_ok in El as [].
Qed.

(** C4: whatever a boot ends with, nothing ran that was not granted. Every
    artifact handed to the compiler is the file its entry names, hashes to every
    pin that is present, and carries an operator pin when the configuration
    requires one; every guest whose [init] was entered was compiled from such an
    artifact, and each of its imports lies only in surfaces its manifest declares
    and the operator's capability list, if there is one, contains, with no
    [wasi:] interface left unrecognised. A refusal of the pre-pass comes before
    any artifact was read. *)
Theorem boot_runs_only_what_was_granted cfg exts :
  Forall (boot_lawful cfg exts) (boot cfg exts []).2 /\
  match (boot cfg exts []).1 with
  | Err e => is_boot_refusal e = true -> (boot cfg exts []).2 = []
  | Ok _ => True
  end.
Proof.
  destruct (boot_shape cfg exts) as [[e He]|(manifests & _ & _ & H2 & Hboot)].
  - rewrite He. split; [constructor|done].
  - rewrite Hboot.
    destruct (load_modules_ok cfg exts _ _ (fun _ H => H) H2 []) as (evs & Htr & HF & Hr).
    rewrite Htr. split; [done|]. destruct (load_modules _ _ _ _ _).1; [done|congruence].
Qed.

(** C36: a boot that succeeds leaves a coherent runtime. Component names are
    distinct, so no two modules share a store namespace; every module carries
    the limits its manifest resolves to under the operator's ceilings, and their
    memory sums within the aggregate cap; its block and event triggers name
    configured chains only, and with a capability list only under the [chain]
    grant; its extension triggers name wired kinds; it is marked verified
    exactly when a pin was present, and alive exactly when [init] returned
    without a fault. No extension namespace, trigger kind or section has two
    owners. *)
Theorem boot_leaves_a_coherent_runtime cfg exts tr loaded tr' :
  boot cfg exts tr = (Ok loaded, tr') ->
  Forall2 (booted cfg exts) cfg.(cfg_modules) loaded /\
  NoDup (ld_name <$> loaded) /\
  (forall total, cfg.(cfg_policy).(total_max_memory_bytes) = Some total -> 0 <= total < u64_max ->
     foldr Z.add 0 ((lim_memory ∘ ld_limits) <$> loaded) <= total) /\
  NoDup (ext_namespace <$> exts) /\ NoDup (extension_trigger_kinds exts) /\
  NoDup (flat_map ext_sections exts).
Proof.
  intros Hb. destruct (boot_shape cfg exts) as [[e He]|(manifests & Hu & Hp & H2 & Hboot)]; [congruence|].
  rewrite Hboot in Hb.
  destruct (load_modules_ok cfg exts _ _ (fun _ H => H) H2 tr) as (evs & _ & _ & Hr).
  rewrite Hb in Hr. cbn in Hr. destruct Hr as (Hbooted & Hn & Hl).
  apply unique_from_ok in Hu as (H3 & H4 & H5); [|constructor..]. rewrite !app_nil_r in *.
  unfold prepass in Hp. destruct (prepass_loop _ _ _ _) as [ms|] eqn:El; [|done].
  destruct (enforce_total_reservation _ _) as [[]|] eqn:Et; [|done]. injection Hp as ->.
  split_and!; [done| | |done..].
  - rewrite Hn. by apply prepass_loop_ok in El as (_ & ? & _).
  - intros total Htot Hrange. unfold enforce_total_reservation in Et. rewrite Htot in Et.
    apply sum_reservations_ok in Et; [|lia]. rewrite list_fmap_compose, Hl, <- list_fmap_compose.
    enough ((lim_memory ∘ snd) <$> manifests =
      snd <$> zip_with (fun entry m => (e_id entry, lim_memory m.2)) (cfg_modules cfg) manifests) as ->;
      [done|].
    clear -H2. induction H2; cbn; [done|]. by f_equal.
Qed.
End Boot.

(** ** A concrete boot *)

Definition demo_manifest (triggers : list Trigger) : LoadedManifest :=
  mkManifest (chars_of "keeper") (Some [1; 2]) (mkResources (Some 1000) None None) [chars_of "chain"] []
    [] triggers [].

Definition demo_config : EngineConfig :=
  mkConfig [mkEntry (chars_of "keeper") (chars_of "keeper.wasm") None (Some [1; 2])]
    (mkPolicySection (mkCeilings 64 1000 50 (mkLogBounds 8192 (mkRate 256 128))) (Some [chars_of "chain"])
       (Some 100) ∅ (mkLogFilter LInfo LDebug ∅))
    (mkChains [1] false) true.

Definition demo_boot (triggers : list Trigger) (imports : list text) : A (list Loaded) :=
  boot (fun _ => true) (fun _ => Some (chars_of ".")) (fun dir f => dir ++ chars_of "/" ++ f)
    (fun _ _ => Some (demo_manifest triggers))
    (fun _ => Some [1; 2]) id (fun _ => Some imports) (fun _ _ _ => Some true) demo_config [].

Definition demo_loaded : list Loaded :=
  [mkLoaded (chars_of "keeper") [1; 2] [chars_of "nexum:host/chain@0.1.0"; chars_of "wasi:io/streams"]
     (mkLimits 1000 64 50) [] None [TBlock 1] (from_init true) true].

Definition demo_trace (imports : list text) : list BootEv :=
  [BRead (chars_of "keeper.wasm") [1; 2]; BCompiled (chars_of "keeper.wasm") [1; 2];
   BInit (chars_of "keeper") imports [(chars_of "name", chars_of "keeper")]].

Lemma boot_leaves_a_coherent_runtime_witness :
  demo_boot [TBlock 1] [chars_of "nexum:host/chain@0.1.0"; chars_of "wasi:io/streams"] [] =
    (Ok demo_loaded, demo_trace [chars_of "nexum:host/chain@0.1.0"; chars_of "wasi:io/streams"]) /\
  NoDup (ld_name <$> demo_loaded).
Proof.
  split; [vm_compute; reflexivity|].
  apply (boot_leaves_a_coherent_runtime (fun _ => true) (fun _ => Some (chars_of "."))
    (fun dir f => dir ++ chars_of "/" ++ f) (fun _ _ => Some (demo_manifest [TBlock 1])) (fun _ => Some [1; 2]) id
    (fun _ => Some [chars_of "nexum:host/chain@0.1.0"; chars_of "wasi:io/streams"])
    (fun _ _ _ => Some true) demo_config [] [] demo_loaded
    (demo_trace [chars_of "nexum:host/chain@0.1.0"; chars_of "wasi:io/streams"])).
  vm_compute; reflexivity.
Defined.

(** An import of an undeclared or unknown surface is refused before [init]. *)
Example undeclared_socket_is_refused :
  demo_boot [TBlock 1] [chars_of "wasi:sockets/tcp@0.2.0"] [] =
  (Err (CapabilityRefused (Undeclared (chars_of "wasi-sockets") (chars_of "wasi:sockets/tcp@0.2.0"))),
   [BRead (chars_of "keeper.wasm") [1; 2]; BCompiled (chars_of "keeper.wasm") [1; 2]]).
Proof. vm_compute. reflexivity. Qed.

(** An extension trigger nobody wired is refused only after the guest's [init]
    ran, although [LoadRefusal] is documented as the refusals ahead of
    instantiation. *)
Example unknown_kind_refused_after_init :
  demo_boot [TExtension (chars_of "mail") []] [] [] =
  (Err (UnknownTriggerKind (chars_of "keeper") (chars_of "mail")), demo_trace []).
Proof. vm_compute. reflexivity. Qed.

Lemma boot_runs_only_what_was_granted_witness :
  let b := demo_boot [TBlock 1] [chars_of "wasi:sockets/tcp@0.2.0"] [] in
  b.2 <> [] /\
  Forall (boot_lawful (fun _ => true) (fun _ => Some (chars_of ".")) (fun dir f => dir ++ chars_of "/" ++ f)
    (fun _ _ => Some (demo_manifest [TBlock 1])) (fun _ => Some [1; 2]) id
    (fun _ => Some [chars_of "wasi:sockets/tcp@0.2.0"]) demo_config []) b.2.
Proof.
  split; [vm_compute; discriminate|].
  apply (boot_runs_only_what_was_granted (fun _ => true) (fun _ => Some (chars_of "."))
    (fun dir f => dir ++ chars_of "/" ++ f) (fun _ _ => Some (demo_manifest [TBlock 1]))
    (fun _ => Some [1; 2]) id (fun _ => Some [chars_of "wasi:sockets/tcp@0.2.0"])
    (fun _ _ _ => Some true) demo_config []).
Defined.
