(* ===== verification/Sources.v ===== *)
(** * Sources: what the launch path opens

    [Supervisor::source_plan], [SourcePlan::viability] and the filter of an event
    source (supervisor/sources.rs).  The plan is folded over the modules and their
    triggers as the code does, with the store it reads the resume cursors from
    threaded through. *)

From stdpp Require Import prelude list gmap strings sorting.
From Stdlib Require Import ZArith Lia.
From S2P Require Import Prelude Primitives StoreApi Lifecycle Cron Cursors Dispatch LocalStoreSafety.

Local Open Scope Z_scope.

#[local] Arguments chars_of : simpl never.

(** [sort_by_key(|c| c.id())], a stable sort, and [dedup]. *)
Fixpoint insert_chain (c : Z) (l : list Z) : list Z :=
  match l with
  | [] => [c]
  | d :: l' => if c <=? d then c :: l else d :: insert_chain c l'
  end.

Definition sort_chains (l : list Z) : list Z := foldr insert_chain [] l.

Fixpoint dedup (l : list Z) : list Z :=
  match l with
  | [] => []
  | c :: l' => match dedup l' with
               | d :: r => if c =? d then d :: r else c :: d :: r
               | [] => [c]
               end
  end.

Inductive Viability : Type := Nothing | DeadHoldTriggers | Live.

Section Plan.
(** alloy's [Filter] and its builders. *)
Context {F : Type} (filter_new : F) (filter_address filter_event_signature : F -> list Z -> F).
(** The cursor key's hash and hex formats. *)
Context (keccak256 : list Z -> list Z) (hex_address hex_topic hex_digest : list Z -> text).
Context {S B : Type} `{StateStore S}.

Record EventSource : Type := mkEventSource {
  es_module : text;
  es_chain : Z;
  es_filter : F;
  es_cursor_key : option text;
  es_initial_cursor : option Z;
  es_max_lookback : option Z
}.

Record ScheduleSource : Type := mkScheduleSource { ss_module : text; ss_cron : CronSchedule }.

Record SourcePlan : Type := mkSourcePlan {
  block_chains : list Z;
  event_sources : list EventSource;
  schedule_sources : list ScheduleSource;
  demanded_extension_kinds : gset text;
  dead_hold_triggers : bool
}.

Definition build_alloy_filter (address event_signature : option (list Z)) : F :=
  let filter := filter_new in
  let filter := match address with Some addr => filter_address filter addr | None => filter end in
  match event_signature with Some topic => filter_event_signature filter topic | None => filter end.

Definition cursor_key_of (chain : Z) (address event_signature : option (list Z)) : text :=
  chainlog_cursor_key keccak256 hex_address hex_topic hex_digest chain address event_signature.

(** One trigger of a live module. *)
Definition plan_trigger (module : text) (acc : SourcePlan * S) (trigger : Trigger) : SourcePlan * S :=
  let (p, s) := acc in
  match trigger with
  | TBlock chain_id =>
      (mkSourcePlan (p.(block_chains) ++ [chain_id]) p.(event_sources) p.(schedule_sources)
         p.(demanded_extension_kinds) p.(dead_hold_triggers), s)
  | TEvent chain_id address event_signature resume max_lookback start_block =>
      let filter := build_alloy_filter address event_signature in
      let '(cursor_key, initial_cursor, s) :=
        if resume then
          let key := cursor_key_of chain_id address event_signature in
          let (stored, s) := read_chain_log_cursor s module key in
          (Some key, match stored with Some c => Some c | None => start_block end, s)
        else (None, None, s) in
      (mkSourcePlan p.(block_chains)
         (p.(event_sources) ++
            [mkEventSource module chain_id filter cursor_key initial_cursor max_lookback])
         p.(schedule_sources) p.(demanded_extension_kinds) p.(dead_hold_triggers), s)
  | TExtension extension_kind _ =>
      (mkSourcePlan p.(block_chains) p.(event_sources) p.(schedule_sources)
         ({[extension_kind]} ∪ p.(demanded_extension_kinds)) p.(dead_hold_triggers), s)
  | TSchedule cron =>
      (mkSourcePlan p.(block_chains) p.(event_sources)
         (p.(schedule_sources) ++ [mkScheduleSource module cron])
         p.(demanded_extension_kinds) p.(dead_hold_triggers), s)
  end.

Definition plan_module (acc : SourcePlan * S) (m : @LoadedModule B) : SourcePlan * S :=
  if dispatchable m.(m_health) then fold_left (plan_trigger m.(m_name)) m.(m_triggers) acc
  else
    let (p, s) := acc in
    (mkSourcePlan p.(block_chains) p.(event_sources) p.(schedule_sources) p.(demanded_extension_kinds)
       (p.(dead_hold_triggers) || negb (bool_decide (m.(m_triggers) = []))), s).

Definition source_plan (modules : list (@LoadedModule B)) (s : S) : SourcePlan * S :=
  let (p, s) := fold_left plan_module modules (mkSourcePlan [] [] [] ∅ false, s) in
  (mkSourcePlan (dedup (sort_chains p.(block_chains))) p.(event_sources) p.(schedule_sources)
     p.(demanded_extension_kinds) p.(dead_hold_triggers), s).

Definition viability (p : SourcePlan) (open_extension_sources : Z) : Viability :=
  if negb (bool_decide (p.(block_chains) = [])) || negb (bool_decide (p.(event_sources) = []))
     || negb (bool_decide (p.(schedule_sources) = [])) || (0 <? open_extension_sources)
  then Live
  else if p.(dead_hold_triggers) then DeadHoldTriggers
  else Nothing.

(** ** Sorting *)

Lemma insert_chain_perm c l : insert_chain c l ≡ₚ c :: l.
Proof.
  induction l as [|d l IH]; cbn; [done|]. destruct (c <=? d); [done|]. rewrite IH. constructor.
Qed.

Lemma sort_chains_perm l : sort_chains l ≡ₚ l.
Proof.
  induction l as [|c l IH]; cbn; [done|]. rewrite insert_chain_perm. by constructor.
Qed.

Lemma insert_chain_sorted c l : StronglySorted Z.le l -> StronglySorted Z.le (insert_chain c l).
Proof.
  induction 1 as [|d l Hs IH Hall]; cbn; [by repeat constructor|].
  destruct (Z.leb_spec c d).
  - constructor; [by constructor|]. constructor; [lia|]. eapply Forall_impl; [exact Hall|]. cbn. lia.
  - constructor; [done|]. rewrite Forall_forall in *. intros x Hx.
    assert (x ∈ c :: l) as [->|Hin]%elem_of_cons; [by rewrite <- insert_chain_perm|lia|by apply Hall].
Qed.

Lemma sort_chains_sorted l : StronglySorted Z.le (sort_chains l).
Proof. induction l; cbn; [constructor | by apply insert_chain_sorted]. Qed.

Lemma dedup_elem c l : c ∈ dedup l <-> c ∈ l.
Proof.
  induction l as [|d l IH]; cbn; [done|]. rewrite elem_of_cons, <- IH. destruct (dedup l) as [|e r].
  - set_solver.
  - destruct (Z.eqb_spec d e) as [->|]; set_solver.
Qed.

Lemma dedup_sorted l : StronglySorted Z.le l -> StronglySorted Z.lt (dedup l).
Proof.
  induction 1 as [|c l Hs IH Hall]; cbn; [constructor|].
  assert (Hle : Forall (Z.le c) (dedup l)).
  { rewrite Forall_forall in *. intros x Hx. apply Hall. by apply dedup_elem. }
  destruct (dedup l) as [|d r]; [by repeat constructor|].
  apply Forall_cons in Hle as [Hcd _]. destruct (Z.eqb_spec c d) as [->|Hne]; [done|].
  constructor; [done|]. constructor; [lia|]. inversion IH; subst. eapply Forall_impl; [eassumption|].
  cbn. lia.
Qed.

(** ** What the plan is of *)

(** The triggers of the live modules, in order, each with its module. *)
Definition live_triggers (modules : list (@LoadedModule B)) : list (text * Trigger) :=
  flat_map (fun m => if dispatchable m.(m_health) then (m.(m_name),.) <$> m.(m_triggers) else []) modules.

Definition block_chain_of (x : text * Trigger) : option Z :=
  match x.2 with TBlock chain_id => Some chain_id | _ => None end.

Definition schedule_of (x : text * Trigger) : option ScheduleSource :=
  match x.2 with TSchedule cron => Some (mkScheduleSource x.1 cron) | _ => None end.

Definition is_event (x : text * Trigger) : bool := match x.2 with TEvent _ _ _ _ _ _ => true | _ => false end.

(** Where a [resume] trigger starts: the cell it finds in [s], or its declared
    block; that block too when the store could not be read. *)
Definition resumes_at (s : S) (module key : text) (start_block initial : option Z) : Prop :=
  initial = match durable s (module, key) with Some c => Some c | None => start_block end \/
  (initial = start_block /\
   exists s1 e s2, store_get s1 (host_namespace module) key = (Err e, s2)).

(** The source an event trigger opens. *)
Definition opened (s : S) (x : text * Trigger) (es : EventSource) : Prop :=
  match x.2 with
  | TEvent chain_id address event_signature resume max_lookback start_block =>
      es.(es_module) = x.1 /\ es.(es_chain) = chain_id /\
      es.(es_filter) = build_alloy_filter address event_signature /\
      es.(es_max_lookback) = max_lookback /\
      let key := cursor_key_of chain_id address event_signature in
      if resume then es.(es_cursor_key) = Some key /\ resumes_at s x.1 key start_block es.(es_initial_cursor)
      else es.(es_cursor_key) = None /\ es.(es_initial_cursor) = None
  | _ => False
  end.

Record plan_of (s0 : S) (ts : list (text * Trigger)) (p : SourcePlan) (s : S) : Prop := mkPlanOf {
  po_blocks : p.(block_chains) = omap block_chain_of ts;
  po_events : Forall2 (opened s0) (List.filter is_event ts) p.(event_sources);
  po_schedules : p.(schedule_sources) = omap schedule_of ts;
  po_kinds : forall kind, kind ∈ p.(demanded_extension_kinds) <->
    exists module filters, (module, TExtension kind filters) ∈ ts;
  po_store : forall id key, store_holds s id key = store_holds s0 id key
}.

Context `{!StateStoreLaws S}.

Lemma read_cursor_resumes s0 s module key start_block :
  (forall id k, store_holds s id k = store_holds s0 id k) ->
  let (stored, s') := read_chain_log_cursor s module key in
  resumes_at s0 module key start_block (match stored with Some c => Some c | None => start_block end) /\
  (forall id k, store_holds s' id k = store_holds s0 id k).
Proof.
  intros Hs. unfold read_chain_log_cursor. destruct (store_get _ _ _) as [r s'] eqn:Eg.
  destruct (store_get_holds _ _ _ _ _ Eg) as [Hsame Hv]. split; [|by intros; rewrite Hsame].
  destruct r as [v|e]; [left | right; split; [done|by eauto]].
  unfold durable. cbn [fst snd]. rewrite <- Hs, <- (Hv v eq_refl). by destruct v.
Qed.

Lemma plan_trigger_ok s0 ts p s module t p' s' :
  plan_of s0 ts p s -> plan_trigger module (p, s) t = (p', s') ->
  plan_of s0 (ts ++ [(module, t)]) p' s' /\ p'.(dead_hold_triggers) = p.(dead_hold_triggers).
Proof.
  intros [Hb He Hs Hk Hst] Hp. destruct t; cbn in Hp.
  - injection Hp as <- <-. split; [|done].
    split; cbn; rewrite ?omap_app, ?List.filter_app; cbn; rewrite ?app_nil_r; try done;
      [by rewrite Hb | set_solver].
  - destruct resume.
    + destruct (read_chain_log_cursor s module (cursor_key_of chain_id address event_signature))
        as [stored s1] eqn:Er. injection Hp as <- <-.
      pose proof (read_cursor_resumes s0 s module (cursor_key_of chain_id address event_signature)
        start_block Hst) as Hr. rewrite Er in Hr. destruct Hr as [Hr Hst'].
      split; [|done]. split; cbn; rewrite ?omap_app, ?List.filter_app; cbn; rewrite ?app_nil_r; try done;
        [apply Forall2_app; [done|]; constructor; [by split_and! | constructor] | set_solver].
    + injection Hp as <- <-. split; [|done].
      split; cbn; rewrite ?omap_app, ?List.filter_app; cbn; rewrite ?app_nil_r; try done;
        [apply Forall2_app; [done|]; constructor; [by split_and! | constructor] | set_solver].
  - injection Hp as <- <-. split; [|done].
    split; cbn; rewrite ?omap_app, ?List.filter_app; cbn; rewrite ?app_nil_r; try done.
    intros kind. rewrite elem_of_union, elem_of_singleton, Hk. set_solver.
  - injection Hp as <- <-. split; [|done].
    split; cbn; rewrite ?omap_app, ?List.filter_app; cbn; rewrite ?app_nil_r; try done;
      [by rewrite Hs | set_solver].
Qed.

Lemma plan_triggers_ok s0 ts p s module triggers p' s' :
  plan_of s0 ts p s -> fold_left (plan_trigger module) triggers (p, s) = (p', s') ->
  plan_of s0 (ts ++ ((module,.) <$> triggers)) p' s' /\ p'.(dead_hold_triggers) = p.(dead_hold_triggers).
Proof.
  revert ts p s. induction triggers as [|t triggers IH]; intros ts p s Hp Hf; cbn [fold_left] in Hf.
  { injection Hf as <- <-. by rewrite app_nil_r. }
  destruct (plan_trigger module (p, s) t) as [p1 s1] eqn:E1.
  destruct (plan_trigger_ok _ _ _ _ _ _ _ _ Hp E1) as [Hp1 <-].
  rewrite fmap_cons, cons_middle, app_assoc. by apply IH with s1.
Qed.

Lemma plan_modules_ok s0 ts p s modules p' s' :
  plan_of s0 ts p s -> fold_left plan_module modules (p, s) = (p', s') ->
  plan_of s0 (ts ++ live_triggers modules) p' s' /\
  (p'.(dead_hold_triggers) = true <-> p.(dead_hold_triggers) = true \/
   exists m, m ∈ modules /\ dispatchable m.(m_health) = false /\ m.(m_triggers) <> []).
Proof.
  revert ts p s. induction modules as [|m modules IH]; intros ts p s Hp Hf; cbn [fold_left] in Hf.
  { injection Hf as <- <-. cbn. rewrite app_nil_r. set_solver. }
  cbn [live_triggers flat_map]. unfold plan_module at 2 in Hf. destruct (dispatchable (m_health m)) eqn:Ed.
  - destruct (fold_left (plan_trigger (m_name m)) (m_triggers m) (p, s)) as [p1 s1] eqn:E1.
    destruct (plan_triggers_ok _ _ _ _ _ _ _ _ Hp E1) as [Hp1 Hd].
    destruct (IH _ _ _ Hp1 Hf) as [HA HB]. rewrite app_assoc. split; [done|]. rewrite HB, Hd.
    setoid_rewrite elem_of_cons. naive_solver congruence.
  - rewrite app_nil_l. destruct Hp as [Hb He Hs Hk Hst].
    edestruct (IH ts) as [HA HB]; [|exact Hf|]; [by split|].
    split; [done|]. rewrite HB. cbn. rewrite orb_true_iff, negb_true_iff, bool_decide_eq_false.
    setoid_rewrite elem_of_cons. naive_solver.
Qed.

Lemma plan_start s : plan_of s [] (mkSourcePlan [] [] [] ∅ false) s.
Proof. split; [done|constructor|done| |done]. cbn. set_solver. Qed.

Lemma dedup_nil l : dedup (sort_chains l) = [] <-> l = [].
Proof.
  split; [|by intros ->]. destruct l as [|c l]; [done|]. intros E.
  assert (c ∈ dedup (sort_chains (c :: l))) as Hc; [|by rewrite E in Hc; apply not_elem_of_nil in Hc].
  rewrite dedup_elem, sort_chains_perm. set_solver.
Qed.

(** A live trigger that is not an extension's leaves a mark in the plan. *)
Lemma plan_of_driving s0 ts p s :
  plan_of s0 ts p s ->
  (p.(block_chains) = [] /\ p.(event_sources) = [] /\ p.(schedule_sources) = []) <->
  (forall module t, (module, t) ∈ ts -> exists kind filters, t = TExtension kind filters).
Proof.
  intros [Hb He Hs _ _]. rewrite Hb, Hs. split.
  - intros (H1 & H2 & H3) module t Ht. rewrite H2 in He. apply Forall2_nil_inv_r in He.
    destruct t; [exfalso..| |exfalso]; [| |by eauto|].
    + eapply (not_elem_of_nil chain_id). rewrite <- H1. apply list_elem_of_omap. eauto.
    + eapply (not_elem_of_nil (module, TEvent chain_id address event_signature resume max_lookback start_block)).
      rewrite <- He. apply list_elem_of_In, List.filter_In. split; [by apply list_elem_of_In|done].
    + eapply (not_elem_of_nil (mkScheduleSource module cron)). rewrite <- H3. apply list_elem_of_omap. eauto.
  - intros Hall. split_and!.
    + apply elem_of_nil_inv. intros c ([m t] & Hin & Ht)%list_elem_of_omap.
      by destruct (Hall _ _ Hin) as (? & ? & ->).
    + destruct (event_sources p) as [|es l]; [done|]. exfalso.
      destruct (List.filter is_event ts) as [|[m t] l'] eqn:Ef; [by inversion He|].
      assert ((m, t) ∈ List.filter is_event ts) as [Hin Ht]%list_elem_of_In%List.filter_In
        by (rewrite Ef; set_solver).
      apply list_elem_of_In in Hin. by destruct (Hall _ _ Hin) as (? & ? & ->).
    + apply elem_of_nil_inv. intros c ([m t] & Hin & Ht)%list_elem_of_omap.
      by destruct (Hall _ _ Hin) as (? & ? & ->).
Qed.

(** The plan opens what the live modules declare and nothing else.
    Block chains are the chains of their block triggers, sorted and each once;
    every event trigger opens one source, in declaration order, tagged with its
    module, under its filter, and a [resume] trigger starts from its stored
    cursor before its declared block, while any other starts at head; schedules
    and extension kinds likewise. A dead module contributes to none of them. The
    plan leaves the store as it was. *)
Theorem source_plan_projects_live_triggers modules s :
  let (p, s') := source_plan modules s in
  let ts := live_triggers modules in
  StronglySorted Z.lt p.(block_chains) /\
  (forall chain, chain ∈ p.(block_chains) <-> exists module, (module, TBlock chain) ∈ ts) /\
  Forall2 (opened s) (List.filter is_event ts) p.(event_sources) /\
  p.(schedule_sources) = omap schedule_of ts /\
  (forall kind, kind ∈ p.(demanded_extension_kinds) <->
     exists module filters, (module, TExtension kind filters) ∈ ts) /\
  (p.(dead_hold_triggers) = true <->
     exists m, m ∈ modules /\ dispatchable m.(m_health) = false /\ m.(m_triggers) <> []) /\
  (forall id key, store_holds s' id key = store_holds s id key).
Proof.
  unfold source_plan. destruct (fold_left plan_module modules _) as [p s'] eqn:E.
  destruct (plan_modules_ok _ _ _ _ _ _ _ (plan_start s) E) as [[Hb He Hs Hk Hst] Hd].
  cbn in *. split_and!; try done.
  - apply dedup_sorted, sort_chains_sorted.
  - intros chain. rewrite dedup_elem, sort_chains_perm, Hb, list_elem_of_omap. split.
    + intros ([m t] & Hin & Ht). destruct t; try done. injection Ht as <-. by exists m.
    + intros [m Hin]. by exists (m, TBlock chain).
  - rewrite Hd. naive_solver.
Qed.

(** The launch verdict. The engine is live exactly when an extension
    opened a source or some dispatchable module declares a block, event or
    schedule trigger; otherwise the verdict says whether a module that is not
    dispatchable declares a trigger. *)
Theorem viability_is_exact modules s opened_sources :
  let v := viability (source_plan modules s).1 opened_sources in
  (v <> Live <-> opened_sources <= 0 /\
     forall module t, (module, t) ∈ live_triggers modules -> exists kind filters, t = TExtension kind filters) /\
  (v <> Live -> (v = DeadHoldTriggers <->
     exists m, m ∈ modules /\ dispatchable m.(m_health) = false /\ m.(m_triggers) <> [])).
Proof.
  unfold source_plan. destruct (fold_left plan_module modules _) as [p s'] eqn:E.
  destruct (plan_modules_ok _ _ _ _ _ _ _ (plan_start s) E) as [Hp Hd].
  apply plan_of_driving in Hp. cbn [app] in Hp. rewrite <- Hp. unfold viability.
  cbn [block_chains event_sources schedule_sources dead_hold_triggers fst].
  rewrite (bool_decide_ext _ _ (dedup_nil (block_chains p))).
  destruct (_ || _) eqn:Eb; cbn.
  - split; [|done]. split; [done|]. intros (Ho & H1 & H2 & H3).
    rewrite !bool_decide_true in Eb by done. cbn in Eb. destruct (Z.ltb_spec 0 opened_sources); [lia|done].
  - rewrite !orb_false_iff, !negb_false_iff, !bool_decide_eq_true, Z.ltb_ge in Eb.
    destruct (dead_hold_triggers p); split; try (split; [by intros; naive_solver|done]); intros _;
      split; naive_solver.
Qed.
End Plan.

(** ** A concrete plan *)

Module PlanDemo.
Definition demo_store : Faulty (T := Demo.table) := (Demo.store0, []).

Definition live_module : @LoadedModule unit :=
  mkLoadedModule (chars_of "a")
    [TBlock 10; TEvent 1 (Some CursorDemo.addr) None true None (Some 7); TBlock 1;
     TExtension (chars_of "mail") []] health_alive tt 0 100 100 true.

Definition dead_module : @LoadedModule unit :=
  mkLoadedModule (chars_of "b") [TBlock 5] health_dead tt 0 100 100 true.

(** A live module that only waits for an extension. *)
Definition waiting_module : @LoadedModule unit :=
  mkLoadedModule (chars_of "c") [TExtension (chars_of "mail") []] health_alive tt 0 100 100 true.

Definition plan (modules : list (@LoadedModule unit)) :=
  @source_plan (list (list Z)) [] (fun f a => a :: f) (fun f a => a :: f)
    CursorDemo.digest32 CursorDemo.hex0x CursorDemo.hex0x CursorDemo.hex0x _ unit
    (local_state_store Demo.digest) modules demo_store.
End PlanDemo.

Example plan_demo :
  let p := (PlanDemo.plan [PlanDemo.live_module; PlanDemo.dead_module]).1 in
  block_chains p = [1; 10] /\ es_initial_cursor <$> event_sources p = [Some 7] /\
  dead_hold_triggers p = true.
Proof. vm_compute. done. Qed.

(** [Viability::Nothing] and [DeadHoldTriggers] are documented as no module
    declaring a trigger, and every declared trigger being a dead module's; a live
    module whose extension opened no source meets neither. *)
Example waiting_module_is_nothing :
  viability (PlanDemo.plan [PlanDemo.waiting_module]).1 0 = Nothing /\
  viability (PlanDemo.plan [PlanDemo.waiting_module; PlanDemo.dead_module]).1 0 = DeadHoldTriggers.
Proof. vm_compute. done. Qed.

Lemma source_plan_projects_live_triggers_witness :
  StronglySorted Z.lt (block_chains (PlanDemo.plan [PlanDemo.live_module; PlanDemo.dead_module]).1).
Proof.
  pose proof (@source_plan_projects_live_triggers (list (list Z)) [] (fun f a => a :: f) (fun f a => a :: f)
    CursorDemo.digest32 CursorDemo.hex0x CursorDemo.hex0x CursorDemo.hex0x _ unit
    (local_state_store Demo.digest) (local_store_laws Demo.digest (fun _ => eq_refl))
    [PlanDemo.live_module; PlanDemo.dead_module] PlanDemo.demo_store) as H.
  unfold PlanDemo.plan. destruct (source_plan _ _ _ _ _ _ _ _ _). exact (proj1 H).
Defined.

Lemma viability_is_exact_witness :
  viability (PlanDemo.plan [PlanDemo.live_module; PlanDemo.dead_module]).1 0 = Live /\
  (viability (PlanDemo.plan [PlanDemo.dead_module]).1 0 <> Live ->
   viability (PlanDemo.plan [PlanDemo.dead_module]).1 0 = DeadHoldTriggers <->
   exists m, m ∈ [PlanDemo.dead_module] /\ dispatchable (m_health m) = false /\ m_triggers m <> []).
Proof.
  split; [vm_compute; reflexivity|].
  apply (@viability_is_exact (list (list Z)) [] (fun f a => a :: f) (fun f a => a :: f)
    CursorDemo.digest32 CursorDemo.hex0x CursorDemo.hex0x CursorDemo.hex0x _ unit
    (local_state_store Demo.digest) (local_store_laws Demo.digest (fun _ => eq_refl))
    [PlanDemo.dead_module] PlanDemo.demo_store 0).
Defined.
