(* ===== verification/IpAddr.v ===== *)
(** * IpAddr: the addresses the outbound gate judges

    The standard library's [IpAddr] as the gate of
    crates/nexum-runtime-http/src/http.rs uses it: the address classes, the
    IPv4-mapped spellings, and the textual forms [str::parse] accepts. *)

From stdpp Require Import prelude list gmap strings.
From Stdlib Require Import ZArith Lia.
From S2P Require Import Prelude.

Local Open Scope Z_scope.

(** An IPv4 address is its four octets, an IPv6 address its eight segments. *)
Record Ipv4Addr : Type := mkV4 { oct_a : Z; oct_b : Z; oct_c : Z; oct_d : Z }.
Definition Ipv6Addr : Type := list Z.

Inductive IpAddr : Type := V4 (ip : Ipv4Addr) | V6 (segments : Ipv6Addr).

#[export] Instance Ipv4Addr_eq_dec : EqDecision Ipv4Addr.
Proof. solve_decision. Defined.
#[export] Instance IpAddr_eq_dec : EqDecision IpAddr.
Proof. solve_decision. Defined.

Definition is_u16 (x : Z) : Prop := 0 <= x <= 65535.
Definition v4_ok (ip : Ipv4Addr) : Prop :=
  is_u8 ip.(oct_a) /\ is_u8 ip.(oct_b) /\ is_u8 ip.(oct_c) /\ is_u8 ip.(oct_d).
Definition v6_ok (ip : Ipv6Addr) : Prop := length ip = 8%nat /\ Forall is_u16 ip.
Definition ip_ok (ip : IpAddr) : Prop := match ip with V4 ip => v4_ok ip | V6 ip => v6_ok ip end.

(** ** Classes *)

Definition v4_is_loopback (ip : Ipv4Addr) : bool := ip.(oct_a) =? 127.
Definition v4_is_private (ip : Ipv4Addr) : bool :=
  (ip.(oct_a) =? 10)
  || ((ip.(oct_a) =? 172) && (16 <=? ip.(oct_b)) && (ip.(oct_b) <=? 31))
  || ((ip.(oct_a) =? 192) && (ip.(oct_b) =? 168)).
Definition v4_is_link_local (ip : Ipv4Addr) : bool := (ip.(oct_a) =? 169) && (ip.(oct_b) =? 254).
Definition v4_is_unspecified (ip : Ipv4Addr) : bool := bool_decide (ip = mkV4 0 0 0 0).
Definition v4_is_broadcast (ip : Ipv4Addr) : bool := bool_decide (ip = mkV4 255 255 255 255).
Definition v4_is_multicast (ip : Ipv4Addr) : bool := (224 <=? ip.(oct_a)) && (ip.(oct_a) <=? 239).

Definition segment0 (ip : Ipv6Addr) : Z := default 0 (head ip).
Definition v6_is_loopback (ip : Ipv6Addr) : bool := bool_decide (ip = [0; 0; 0; 0; 0; 0; 0; 1]).
Definition v6_is_unspecified (ip : Ipv6Addr) : bool := bool_decide (ip = [0; 0; 0; 0; 0; 0; 0; 0]).
Definition v6_is_multicast (ip : Ipv6Addr) : bool := Z.land (segment0 ip) 0xff00 =? 0xff00.

(** ** The mapped spellings *)

Definition to_ipv6_mapped (ip : Ipv4Addr) : Ipv6Addr :=
  [0; 0; 0; 0; 0; 0xffff; ip.(oct_a) * 256 + ip.(oct_b); ip.(oct_c) * 256 + ip.(oct_d)].

Definition to_ipv4_mapped (ip : Ipv6Addr) : option Ipv4Addr :=
  match ip with
  | [s0; s1; s2; s3; s4; s5; s6; s7] =>
      if bool_decide ([s0; s1; s2; s3; s4; s5] = [0; 0; 0; 0; 0; 0xffff])
      then Some (mkV4 (Z.shiftr s6 8) (Z.land s6 255) (Z.shiftr s7 8) (Z.land s7 255))
      else None
  | _ => None
  end.

(** ** Parsing

    The standard library's parser: each reader returns what it read and the
    rest, or leaves its input alone. *)

Definition to_digit (radix c : Z) : option Z :=
  let d :=
    if (48 <=? c) && (c <=? 57) then c - 48
    else if (97 <=? c) && (c <=? 122) then c - 87
    else if (65 <=? c) && (c <=? 90) then c - 55
    else radix in
  if d <? radix then Some d else None.

(** Digits as long as there are any; [None] past [max_digits]. *)
Fixpoint read_digits (radix : Z) (max_digits : nat) (acc : Z) (s : text) : option (Z * text) :=
  match s with
  | [] => Some (acc, [])
  | c :: s' =>
      match to_digit radix c with
      | None => Some (acc, s)
      | Some d =>
          match max_digits with
          | O => None
          | S max_digits => read_digits radix max_digits (acc * radix + d) s'
          end
      end
  end.

Definition read_number (radix : Z) (max_digits : nat) (allow_zero_prefix : bool) (max : Z) (s : text)
    : option (Z * text) :=
  match read_digits radix max_digits 0 s with
  | Some (v, rest) =>
      let count := (length s - length rest)%nat in
      if (count =? 0)%nat then None
      else if negb allow_zero_prefix && bool_decide (head s = Some 48) && (1 <? count)%nat then None
      else if v <=? max then Some (v, rest)
      else None
  | None => None
  end.

Definition read_given_char (c : Z) (s : text) : option text :=
  match s with x :: s => if x =? c then Some s else None | [] => None end.

Definition read_separator {A} (sep : Z) (index : nat) (inner : text -> option (A * text)) (s : text)
    : option (A * text) :=
  if (0 <? index)%nat then
    match read_given_char sep s with Some s => inner s | None => None end
  else inner s.

Definition read_octet (i : nat) (s : text) : option (Z * text) :=
  read_separator 46 i (read_number 10 3 false 255) s.

Definition read_ipv4_addr (s : text) : option (Ipv4Addr * text) :=
  match read_octet 0 s with
  | Some (a, s) =>
      match read_octet 1 s with
      | Some (b, s) =>
          match read_octet 2 s with
          | Some (c, s) =>
              match read_octet 3 s with
              | Some (d, s) => Some (mkV4 a b c d, s)
              | None => None
              end
          | None => None
          end
      | None => None
      end
  | None => None
  end.

(** [read_groups]: the groups read, whether a trailing IPv4 address was among
    them, and the rest. *)
Fixpoint read_groups (todo : nat) (i : nat) (s : text) : list Z * bool * text :=
  match todo with
  | O => ([], false, s)
  | S todo' =>
      let v4 := if (0 <? todo')%nat then read_separator 58 i read_ipv4_addr s else None in
      match v4 with
      | Some (ip, s) =>
          ([ip.(oct_a) * 256 + ip.(oct_b); ip.(oct_c) * 256 + ip.(oct_d)], true, s)
      | None =>
          match read_separator 58 i (read_number 16 4 true 65535) s with
          | Some (g, s) =>
              let '(gs, v4, s) := read_groups todo' (S i) s in (g :: gs, v4, s)
          | None => ([], false, s)
          end
      end
  end.

Definition read_ipv6_addr (s : text) : option (Ipv6Addr * text) :=
  let '(front, front_v4, s) := read_groups 8 0 s in
  if (length front =? 8)%nat then Some (front, s)
  else if front_v4 then None
  else
    match read_given_char 58 s with
    | Some s =>
        match read_given_char 58 s with
        | Some s =>
            let '(back, _, s) := read_groups (8 - (length front + 1)) 0 s in
            Some (front ++ replicate (8 - length front - length back) 0 ++ back, s)
        | None => None
        end
    | None => None
    end.

(** [str::parse]: nothing may be left over. *)
Definition parse_all {A} (r : option (A * text)) : option A :=
  match r with Some (a, []) => Some a | _ => None end.

Definition parse_ipv6 (s : text) : option Ipv6Addr := parse_all (read_ipv6_addr s).

Definition parse_ip (s : text) : option IpAddr :=
  match read_ipv4_addr s with
  | Some (ip, rest) => parse_all (Some (V4 ip, rest))
  | None => V6 <$> parse_ipv6 s
  end.

Example parse_examples :
  parse_ip (chars_of "169.254.169.254") = Some (V4 (mkV4 169 254 169 254)) /\
  parse_ip (chars_of "010.0.0.1") = None /\ parse_ip (chars_of "1.2.3") = None /\
  parse_ip (chars_of "256.0.0.1") = None /\
  parse_ip (chars_of "::1") = Some (V6 [0; 0; 0; 0; 0; 0; 0; 1]) /\
  parse_ip (chars_of "::ffff:127.0.0.1") = Some (V6 [0; 0; 0; 0; 0; 0xffff; 0x7f00; 1]) /\
  parse_ip (chars_of "fe80::1:2") = Some (V6 [0xfe80; 0; 0; 0; 0; 0; 1; 2]) /\
  parse_ip (chars_of "1:2:3:4:5:6:7:8") = Some (V6 [1; 2; 3; 4; 5; 6; 7; 8]) /\
  parse_ip (chars_of "1:2:3:4:5:6:7::") = Some (V6 [1; 2; 3; 4; 5; 6; 7; 0]) /\
  parse_ip (chars_of "1::2::3") = None /\ parse_ip (chars_of "1:2:3:4:5:6:7:8:9") = None /\
  parse_ip (chars_of "::12345") = None /\ parse_ip (chars_of "example.com") = None.
Proof. vm_compute. done. Qed.

(** ** Ranges

    An address as a number, and the ranges a prefix length cuts out. *)

Definition v4_bits (ip : Ipv4Addr) : Z :=
  ip.(oct_a) * 2 ^ 24 + ip.(oct_b) * 2 ^ 16 + ip.(oct_c) * 2 ^ 8 + ip.(oct_d).
Definition v6_bits (ip : Ipv6Addr) : Z := fold_left (fun acc s => acc * 65536 + s) ip 0.

Inductive Cidr : Type := Net4 (base : Ipv4Addr) (len : Z) | Net6 (base : Ipv6Addr) (len : Z).

(** Both address and base agree on the first [len] bits, within one family. *)
Definition cidr_contains (net : Cidr) (ip : IpAddr) : bool :=
  match net, ip with
  | Net4 base len, V4 ip => v4_bits ip / 2 ^ (32 - len) =? v4_bits base / 2 ^ (32 - len)
  | Net6 base len, V6 ip => v6_bits ip / 2 ^ (128 - len) =? v6_bits base / 2 ^ (128 - len)
  | _, _ => false
  end.

(** A boolean fact about every byte or every 16-bit segment is decided by trying
    them all. *)
Fixpoint holds_from (f : Z -> bool) (n : nat) (x : Z) : bool :=
  match n with O => true | S n => f x && holds_from f n (x + 1) end.

Lemma forall_below (n : Z) (f : Z -> bool) :
  holds_from f (Z.to_nat n) 0 = true -> forall x, 0 <= x < n -> f x = true.
Proof.
  enough (forall k y, holds_from f k y = true -> forall x, y <= x < y + Z.of_nat k -> f x = true) as Hk.
  { intros H x Hx. apply (Hk _ 0 H). lia. }
  intros k. induction k as [|k IH]; intros y H x Hx; [lia|]. apply andb_prop in H as [H1 H2].
  destruct (decide (x = y)) as [->|]; [done|]. apply (IH _ H2). lia.
Qed.

Lemma v4_of_segments a b c d :
  is_u8 a -> is_u8 b -> is_u8 c -> is_u8 d ->
  mkV4 (Z.shiftr (a * 256 + b) 8) (Z.land (a * 256 + b) 255)
       (Z.shiftr (c * 256 + d) 8) (Z.land (c * 256 + d) 255) = mkV4 a b c d.
Proof.
  unfold is_u8, u8_max. intros Ha Hb Hc Hd. change 255 with (Z.ones 8).
  rewrite !Z.shiftr_div_pow2, !Z.land_ones by lia. f_equal; div_lia.
Qed.

(** The mapped spelling names the same address, and only that one does. *)
Lemma mapped_round_trip ip : v4_ok ip -> to_ipv4_mapped (to_ipv6_mapped ip) = Some ip.
Proof.
  intros (Ha & Hb & Hc & Hd). unfold to_ipv4_mapped, to_ipv6_mapped.
  rewrite bool_decide_true by done. f_equal. destruct ip. by apply v4_of_segments.
Qed.

Lemma mapped_inv ip v4 : v6_ok ip -> to_ipv4_mapped ip = Some v4 -> ip = to_ipv6_mapped v4 /\ v4_ok v4.
Proof.
  intros [Hlen Hall]. destruct ip as [|s0 [|s1 [|s2 [|s3 [|s4 [|s5 [|s6 [|s7 [|]]]]]]]]]; try done.
  cbn. case_bool_decide as E; [|done]. injection E as -> -> -> -> -> ->. intros [= <-].
  rewrite !Forall_cons in Hall. destruct Hall as (_ & _ & _ & _ & _ & _ & H6 & H7 & _).
  unfold is_u16 in *. change 255 with (Z.ones 8). rewrite !Z.shiftr_div_pow2, !Z.land_ones by lia.
  unfold to_ipv6_mapped, v4_ok, is_u8, u8_max. cbn [oct_a oct_b oct_c oct_d].
  split; [repeat f_equal; div_lia | split_and!; div_lia].
Qed.
