(* ===== verification/HttpGate.v ===== *)
(** * HttpGate: the outbound HTTP gate

    crates/nexum-runtime-http/src/http.rs: which requests leave the host, what
    they carry, how long they may take, and how much of a response comes back.
    The resolver and the HTTP backend are the class [Net]; requests and URIs are
    the parts of the [http] crate's types the gate reads. *)

From stdpp Require Import prelude list gmap strings.
From Stdlib Require Import ZArith Lia.
From S2P Require Import Prelude Primitives IpAddr.

Local Open Scope Z_scope.

#[local] Arguments chars_of : simpl never.

(** ** Data *)

(** The wasi:http error codes the gate produces; the backend's own are opaque. *)
Inductive HttpError : Type :=
| HttpRequestDenied
| HttpRequestUriInvalid
| DestinationIpProhibited
| ConnectionTimeout
| ConnectionReadTimeout
| HttpResponseBodySize (cap : Z)
| BackendError (code : Z).

Record Authority : Type := mkAuthority { auth_host : text; auth_port : option text }.
Record Uri : Type := mkUri { uri_authority : option Authority; uri_rest : text }.
Definition uri_host (u : Uri) : option text := auth_host <$> u.(uri_authority).

Inductive Frame : Type := FData (data : list Z) | FTrailers.

Record Request : Type := mkRequest {
  req_uri : Uri;
  req_headers : list (text * text);
  req_body : list Frame
}.

Record RequestOptions : Type := mkOptions {
  connect_timeout : option Z;
  first_byte_timeout : option Z;
  between_bytes_timeout : option Z
}.

Record OutboundHttpLimits : Type := mkHttpLimits {
  connect_timeout_max : Z;
  first_byte_timeout_max : Z;
  between_bytes_timeout_max : Z;
  total_deadline : Z;
  response_body_max_bytes : Z
}.

Inductive HttpRefusal : Type := RAllowlist | RDestination.

(** What a send did that can be seen from outside: refusals counted, names looked
    up, and requests handed to the backend. *)
Inductive HttpEv : Type :=
| HRefused (r : HttpRefusal)
| HLookup (host : text)
| HSent (request : Request) (options : RequestOptions).

(** ** Addresses this host will not reach *)

(** 100.64.0.0/10. *)
Definition is_shared_nat_v4 (ip : Ipv4Addr) : bool :=
  (ip.(oct_a) =? 100) && (Z.land ip.(oct_b) 192 =? 64).

Definition is_prohibited_v4 (ip : Ipv4Addr) : bool :=
  v4_is_loopback ip || v4_is_private ip || v4_is_link_local ip || v4_is_unspecified ip
  || v4_is_broadcast ip || v4_is_multicast ip || is_shared_nat_v4 ip.

(** fc00::/7 and fe80::/10. *)
Definition is_unique_local_v6 (ip : Ipv6Addr) : bool := Z.land (segment0 ip) 0xfe00 =? 0xfc00.
Definition is_unicast_link_local_v6 (ip : Ipv6Addr) : bool := Z.land (segment0 ip) 0xffc0 =? 0xfe80.

Definition is_prohibited_v6 (ip : Ipv6Addr) : bool :=
  v6_is_loopback ip || v6_is_unspecified ip || v6_is_multicast ip || is_unique_local_v6 ip
  || is_unicast_link_local_v6 ip.

Definition is_prohibited (ip : IpAddr) : bool :=
  match ip with
  | V4 v4 => is_prohibited_v4 v4
  | V6 v6 => match to_ipv4_mapped v6 with Some v4 => is_prohibited_v4 v4 | None => is_prohibited_v6 v6 end
  end.

(** A URI keeps the brackets of an IPv6 literal. *)
Definition parse_ip_literal (host : text) : option IpAddr :=
  match strip_prefix (chars_of "[") host ≫= fun s => reverse <$> strip_prefix (chars_of "]") (reverse s) with
  | Some inner => V6 <$> parse_ipv6 inner
  | None => parse_ip host
  end.

Section Gate.
(** [ipnet::IpNet] and its [contains]; what [HeaderValue::from_str] accepts. *)
Context {N : Type} (net_contains : N -> IpAddr -> bool) (header_value_ok : text -> bool).

Record HttpGate : Type := mkGate {
  g_module : text;
  allowlist : list HostPattern.HostPattern;
  operator_allow : option (list HostPattern.HostPattern);
  limits : OutboundHttpLimits;
  permitted : list IpAddr;
  denied : list N
}.

Definition in_denied (denied : list N) (ip : IpAddr) : bool :=
  let alternate :=
    match ip with
    | V4 v4 => Some (V6 (to_ipv6_mapped v4))
    | V6 v6 => V4 <$> to_ipv4_mapped v6
    end in
  existsb (fun net => net_contains net ip ||
                      match alternate with Some alt => net_contains net alt | None => false end) denied.

(** ** The allowlist *)

Definition gate_admit (uri : Uri) (allowlist : list HostPattern.HostPattern)
    (operator_allow : option (list HostPattern.HostPattern)) : result unit HttpError :=
  match uri_host uri with
  | None => Err HttpRequestUriInvalid
  | Some host =>
      if HostPattern.host_allowed host allowlist
         && match operator_allow with Some allow => HostPattern.host_allowed host allow | None => true end
      then Ok tt
      else Err HttpRequestDenied
  end.

(** [HeaderMap::insert]: the one value of the name from here on. *)
Definition header_insert (name value : text) (headers : list (text * text)) : list (text * text) :=
  (name, value) :: List.filter (fun h => negb (bool_decide (h.1 = name))) headers.

Definition HOST : text := chars_of "host".

Definition pin_host_header (request : Request) : result Request HttpError :=
  match request.(req_uri).(uri_authority) with
  | None => Err HttpRequestUriInvalid
  | Some authority =>
      let value := match authority.(auth_port) with
                   | Some port => authority.(auth_host) ++ chars_of ":" ++ port
                   | None => authority.(auth_host)
                   end in
      if header_value_ok value
      then Ok (mkRequest request.(req_uri) (header_insert HOST value request.(req_headers)) request.(req_body))
      else Err HttpRequestUriInvalid
  end.

(** Every field leaves set, at the guest's value or the maximum. *)
Definition cap (guest : option Z) (max : Z) : option Z :=
  Some (match guest with Some t => Z.min t max | None => max end).

Definition clamp (options : option RequestOptions) (l : OutboundHttpLimits) : RequestOptions :=
  let options := default (mkOptions None None None) options in
  mkOptions (cap options.(connect_timeout) l.(connect_timeout_max))
    (cap options.(first_byte_timeout) l.(first_byte_timeout_max))
    (cap options.(between_bytes_timeout) l.(between_bytes_timeout_max)).

(** ** Sending *)

(** The outside world of one send. [None] is an answer still outstanding when the
    total deadline fires; an inner [None] of the lookup is a resolution failure.
    A response carries its body's frames. *)
Class Net (W : Type) : Type := {
  lookup_host : W -> text -> option (option (list IpAddr));
  default_send_request : W -> Request -> RequestOptions -> option (result (list Frame) HttpError)
}.

Context {W : Type} `{Net W}.

Definition refused (permitted : list IpAddr) (denied : list N) (ip : IpAddr) : bool :=
  in_denied denied ip || (is_prohibited ip && negb (bool_decide (ip ∈ permitted))).

(** [None] when the deadline fires inside it. *)
Definition reject_prohibited_destination (w : W) (uri : Uri) (permitted : list IpAddr) (denied : list N)
    : option (result unit HttpError) * list HttpEv :=
  match uri_host uri with
  | None => (Some (Ok tt), [])
  | Some host =>
      match parse_ip_literal host with
      | Some ip => (Some (if refused permitted denied ip then Err DestinationIpProhibited else Ok tt), [])
      | None =>
          (match lookup_host w host with
           | None => None
           | Some None => Some (Ok tt)
           | Some (Some addrs) =>
               Some (if existsb (refused permitted denied) addrs then Err DestinationIpProhibited else Ok tt)
           end, [HLookup host])
      end
  end.

(** The response body under its cap: bytes still admissible, and the cap. *)
Record CappedBody : Type := mkCapped { remaining : Z; body_cap : Z }.

Definition send_with_limits (w : W) (request : Request) (options : RequestOptions)
    (l : OutboundHttpLimits) (permitted : list IpAddr) (denied : list N)
    : result (list Frame * CappedBody) HttpError * list HttpEv :=
  match reject_prohibited_destination w request.(req_uri) permitted denied with
  | (None, tr) => (Err ConnectionTimeout, tr)
  | (Some (Err code), tr) => (Err code, tr ++ [HRefused RDestination])
  | (Some (Ok _), tr) =>
      (match default_send_request w request options with
       | None => Err ConnectionTimeout
       | Some (Err code) => Err code
       | Some (Ok frames) => Ok (frames, mkCapped l.(response_body_max_bytes) l.(response_body_max_bytes))
       end, tr ++ [HSent request options])
  end.

(** A refused request's body is read to its end and dropped; only the code comes
    back. *)
Definition refuse (request : Request) (code : HttpError) : result (list Frame * CappedBody) HttpError :=
  Err code.

Definition send_request (gate : HttpGate) (w : W) (request : Request) (options : option RequestOptions)
    : result (list Frame * CappedBody) HttpError * list HttpEv :=
  match gate_admit request.(req_uri) gate.(allowlist) gate.(operator_allow) with
  | Err code =>
      (refuse request code,
       match code with HttpRequestDenied => [HRefused RAllowlist] | _ => [] end)
  | Ok _ =>
      match pin_host_header request with
      | Err code => (refuse request code, [])
      | Ok request =>
          send_with_limits w request (clamp options gate.(limits)) gate.(limits) gate.(permitted) gate.(denied)
      end
  end.

(** ** The response body *)

Inductive FramePoll : Type :=
| Pending
| EndOfBody
| Ready (frame : Frame)
| Failed (e : HttpError).

(** [poll_frame], given whether the deadline has fired and what the inner body
    would answer; the deadline is looked at first, so the inner body is then not
    polled. *)
Definition poll_frame (deadline_fired : bool) (inner : FramePoll) (me : CappedBody) : FramePoll * CappedBody :=
  if deadline_fired then (Failed ConnectionReadTimeout, me)
  else
    match inner with
    | Ready (FData data) =>
        let len := Z.of_nat (length data) in
        if me.(remaining) <? len then (Failed (HttpResponseBodySize me.(body_cap)), me)
        else (Ready (FData data), mkCapped (me.(remaining) - len) me.(body_cap))
    | other => (other, me)
    end.

(** A body polled again and again. *)
Fixpoint poll_all (polls : list (bool * FramePoll)) (me : CappedBody) : list FramePoll * CappedBody :=
  match polls with
  | [] => ([], me)
  | (fired, inner) :: polls =>
      let (out, me) := poll_frame fired inner me in
      let (outs, me) := poll_all polls me in
      (out :: outs, me)
  end.

Definition frame_bytes (p : FramePoll) : Z :=
  match p with Ready (FData data) => Z.of_nat (length data) | _ => 0 end.

(** ** What leaves the host *)

Lemma header_insert_one name value headers :
  List.filter (fun h => bool_decide (h.1 = name)) (header_insert name value headers) = [(name, value)].
Proof.
  unfold header_insert. cbn. rewrite bool_decide_true by done. f_equal.
  induction headers as [|h headers IH]; cbn; [done|]. case_bool_decide as E; cbn; [done|].
  by rewrite bool_decide_false.
Qed.

Lemma cap_bounded guest max : exists t, cap guest max = Some t /\ t <= max /\
  (forall g, guest = Some g -> g <= max -> t = g).
Proof.
  unfold cap. destruct guest as [g|]; eexists; (split; [done|]); split; try lia.
  all: intros ? [= <-] ?; lia.
Qed.

(** The [Host] value a URI's authority pins. *)
Definition host_value (a : Authority) : text :=
  match a.(auth_port) with
  | Some port => a.(auth_host) ++ chars_of ":" ++ port
  | None => a.(auth_host)
  end.

(** Why a request may be handed to the backend, and as what. *)
Record sendable (gate : HttpGate) (w : W) (request : Request) (r : Request) (o : RequestOptions) : Prop :=
  mkSendable {
    sd_authority : exists a, request.(req_uri).(uri_authority) = Some a /\
      HostPattern.host_allowed a.(auth_host) gate.(allowlist) = true /\
      (forall allow, gate.(operator_allow) = Some allow ->
         HostPattern.host_allowed a.(auth_host) allow = true) /\
      (match parse_ip_literal a.(auth_host) with
       | Some ip => refused gate.(permitted) gate.(denied) ip = false
       | None => forall addrs ip, lookup_host w a.(auth_host) = Some (Some addrs) -> ip ∈ addrs ->
                   refused gate.(permitted) gate.(denied) ip = false
       end) /\
      List.filter (fun h => bool_decide (h.1 = HOST)) r.(req_headers) = [(HOST, host_value a)];
    sd_same : r.(req_uri) = request.(req_uri) /\ r.(req_body) = request.(req_body);
    sd_connect : exists t, o.(connect_timeout) = Some t /\ t <= gate.(limits).(connect_timeout_max);
    sd_first : exists t, o.(first_byte_timeout) = Some t /\ t <= gate.(limits).(first_byte_timeout_max);
    sd_between : exists t, o.(between_bytes_timeout) = Some t /\ t <= gate.(limits).(between_bytes_timeout_max)
  }.

Lemma clamp_bounded options l :
  let o := clamp options l in
  (exists t, o.(connect_timeout) = Some t /\ t <= l.(connect_timeout_max)) /\
  (exists t, o.(first_byte_timeout) = Some t /\ t <= l.(first_byte_timeout_max)) /\
  (exists t, o.(between_bytes_timeout) = Some t /\ t <= l.(between_bytes_timeout_max)).
Proof.
  cbn. split_and!; edestruct cap_bounded as (t & Ht & Hle & _); exists t; (split; [exact Ht|exact Hle]).
Qed.

Lemma reject_ok w uri permitted denied r tr a :
  reject_prohibited_destination w uri permitted denied = (r, tr) -> uri_authority uri = Some a ->
  Forall (fun e => e = HLookup a.(auth_host)) tr /\
  (r = Some (Ok tt) ->
     match parse_ip_literal a.(auth_host) with
     | Some ip => refused permitted denied ip = false
     | None => forall addrs ip, lookup_host w a.(auth_host) = Some (Some addrs) -> ip ∈ addrs ->
                 refused permitted denied ip = false
     end).
Proof.
  unfold reject_prohibited_destination, uri_host. intros Hr Ha. rewrite Ha in Hr. cbn in Hr.
  destruct (parse_ip_literal (auth_host a)) as [ip|]; injection Hr as <- <-.
  - split; [constructor|]. destruct (refused permitted denied ip); [by intros [=] | done].
  - split; [by repeat constructor|]. intros Hr addrs ip El Hin. rewrite El in Hr.
    destruct (existsb _ _) eqn:Ee; [done|]. apply not_true_iff_false in Ee.
    apply not_true_iff_false. intros Href. apply Ee. apply existsb_exists. exists ip.
    by rewrite <- list_elem_of_In.
Qed.

(** Every path through the gate. *)
Lemma send_request_judged gate w request options :
  let (res, tr) := send_request gate w request options in
  (tr = [] \/ tr = [HRefused RAllowlist] \/
   exists looked last, tr = looked ++ last /\
     (forall e, e ∈ looked -> exists host, uri_host request.(req_uri) = Some host /\ e = HLookup host) /\
     (last = [] \/ last = [HRefused RDestination] \/
      exists r o, last = [HSent r o] /\ sendable gate w request r o)) /\
  (HRefused RAllowlist ∈ tr -> res = Err HttpRequestDenied) /\
  (HRefused RDestination ∈ tr -> res = Err DestinationIpProhibited).
Proof.
  unfold send_request, gate_admit, uri_host.
  destruct (uri_authority (req_uri request)) as [a|] eqn:Ea; cbn.
  2: { split_and!; [by left|set_solver..]. }
  destruct (_ && _) eqn:Eallow.
  2: { split_and!; [by right; left|done|]. intros H1. apply list_elem_of_singleton in H1. done. }
  apply andb_prop in Eallow as [Hal Hop]. unfold pin_host_header. rewrite Ea.
  change (match auth_port a with Some port => _ | None => _ end) with (host_value a).
  destruct (header_value_ok (host_value a)); [|split_and!; [by left|set_solver..]].
  unfold send_with_limits. cbn [req_uri].
  destruct (reject_prohibited_destination w (req_uri request) (permitted gate) (denied gate))
    as [r tr] eqn:Er.
  destruct (reject_ok _ _ _ _ _ _ _ Er Ea) as [Htr Hgo]. rewrite Forall_forall in Htr.
  assert (Hlook : forall e, e ∈ tr -> exists host, Some (auth_host a) = Some host /\ e = HLookup host)
    by (intros e He; exists (auth_host a); split; [done|by apply Htr]).
  assert (Hnot : forall x, HRefused x ∈ tr -> False) by (intros x Hx; by apply Htr in Hx).
  destruct r as [[[]|code]|].
  - split_and!; [right; right|by intros [?%Hnot|?%list_elem_of_singleton]%elem_of_app..].
    exists tr. eexists. split; [reflexivity|]. split; [done|]. right; right. do 2 eexists. split; [done|].
    destruct (clamp_bounded options (limits gate)) as (H1 & H2 & H3).
    split; [|done|exact H1|exact H2|exact H3].
    exists a. split_and!; [done|done| |by apply Hgo|apply header_insert_one].
    intros allow Hsome. by rewrite Hsome in Hop.
  - assert (code = DestinationIpProhibited) as ->.
    { unfold reject_prohibited_destination, uri_host in Er. rewrite Ea in Er. cbn in Er.
      repeat case_match; simplify_eq; done. }
    split_and!; [right; right| |done].
    + exists tr, [HRefused RDestination]. eauto.
    + intros [?%Hnot|[=]%list_elem_of_singleton]%elem_of_app. done.
  - split_and!; [right; right|by intros ?%Hnot..].
    exists tr, []. rewrite app_nil_r. eauto.
Qed.


Lemma poll_all_spec polls me :
  0 <= me.(remaining) ->
  let (outs, me') := poll_all polls me in
  sumZ (frame_bytes <$> outs) = me.(remaining) - me'.(remaining) /\
  0 <= me'.(remaining) <= me.(remaining) /\
  Forall2 (fun p out =>
    out = p.2 \/ (p.1 = true /\ out = Failed ConnectionReadTimeout) \/
    (out = Failed (HttpResponseBodySize me.(body_cap)) /\ p.1 = false /\
     exists left, me'.(remaining) <= left <= me.(remaining) /\ left < frame_bytes p.2)) polls outs.
Proof.
  revert me. induction polls as [|[fired inner] polls IH]; intros me Hme; cbn.
  { split_and!; [lia..|constructor]. }
  destruct (poll_frame fired inner me) as [out me1] eqn:E1.
  assert (H1 : frame_bytes out = remaining me - remaining me1 /\ 0 <= remaining me1 <= remaining me /\
            body_cap me1 = body_cap me /\
            (out = inner \/ (fired = true /\ out = Failed ConnectionReadTimeout) \/
             (out = Failed (HttpResponseBodySize (body_cap me)) /\ fired = false /\
              remaining me < frame_bytes inner /\ remaining me1 = remaining me))).
  { unfold poll_frame in E1. destruct fired; [injection E1 as <- <-; cbn; split_and!; auto; lia|].
    destruct inner as [| |[data|]|e]; try (injection E1 as <- <-; cbn; split_and!; auto; lia).
    destruct (Z.ltb_spec (remaining me) (Z.of_nat (length data))); injection E1 as <- <-; cbn;
      split_and!; auto; try lia. right; right. split_and!; auto. }
  destruct H1 as (Hb & Hr & Hc & Hout). specialize (IH me1 ltac:(lia)).
  destruct (poll_all polls me1) as [outs me2]. destruct IH as (Hs & Hr2 & HF).
  cbn [fmap list_fmap]. change (sumZ (?x :: ?l)) with (x + sumZ l). split_and!; [lia..|].
  constructor.
  - cbn [fst snd]. destruct Hout as [->|[[-> ->]|(-> & -> & Hlt & Heq)]]; [auto..|].
    right; right. split_and!; [done..|]. exists (remaining me). lia.
  - rewrite Hc in HF. eapply Forall2_impl; [exact HF|]. cbn. intros p o [?|[?|(-> & ? & left & ? & ?)]]; auto.
    right; right. split_and!; [done..|]. exists left. lia.
Qed.

(** C26: however the body is polled, past an error and past the deadline too,
    no more than the cap's bytes are handed on; a data frame is either handed on
    unchanged or answered by the size error, and the latter only when it would
    exceed the cap. *)
Theorem body_never_exceeds_cap polls cap :
  0 <= cap ->
  let (outs, me) := poll_all polls (mkCapped cap cap) in
  sumZ (frame_bytes <$> outs) <= cap /\
  Forall2 (fun p out =>
    out = p.2 \/ (p.1 = true /\ out = Failed ConnectionReadTimeout) \/
    (out = Failed (HttpResponseBodySize cap) /\ p.1 = false /\
     exists used, 0 <= used <= sumZ (frame_bytes <$> outs) /\ cap < used + frame_bytes p.2)) polls outs.
Proof.
  intros Hcap. pose proof (poll_all_spec polls (mkCapped cap cap) Hcap) as Hspec.
  destruct (poll_all polls (mkCapped cap cap)) as [outs me]. cbn in Hspec.
  destruct Hspec as (Hs & Hr & HF). split; [lia|]. eapply Forall2_impl; [exact HF|].
  cbn. intros p o [?|[?|(-> & ? & left & ? & ?)]]; auto. right; right. split_and!; [done..|].
  exists (cap - left). lia.
Qed.
End Gate.

(** ** The prohibited ranges *)

(** Loopback, the three private ranges, link-local, unspecified, broadcast,
    multicast and carrier-grade NAT space, as prefixes. *)
Definition PROHIBITED_V4 : list (Ipv4Addr * Z) :=
  [(mkV4 127 0 0 0, 8); (mkV4 10 0 0 0, 8); (mkV4 172 16 0 0, 12); (mkV4 192 168 0 0, 16);
   (mkV4 169 254 0 0, 16); (mkV4 0 0 0 0, 32); (mkV4 255 255 255 255, 32); (mkV4 224 0 0 0, 4);
   (mkV4 100 64 0 0, 10)].

(** Loopback, unspecified, multicast, unique-local and link-local. *)
Definition PROHIBITED_V6 : list Cidr :=
  [Net6 [0; 0; 0; 0; 0; 0; 0; 1] 128; Net6 [0; 0; 0; 0; 0; 0; 0; 0] 128;
   Net6 [0xff00; 0; 0; 0; 0; 0; 0; 0] 8; Net6 [0xfc00; 0; 0; 0; 0; 0; 0; 0] 7;
   Net6 [0xfe80; 0; 0; 0; 0; 0; 0; 0] 10].

Definition PROHIBITED : list Cidr :=
  ((fun n => Net4 n.1 n.2) <$> PROHIBITED_V4)
  ++ ((fun n => Net6 (to_ipv6_mapped n.1) (96 + n.2)) <$> PROHIBITED_V4) ++ PROHIBITED_V6.

Lemma nat_bits b : is_u8 b -> Z.land b 192 =? 64 = (b / 64 =? 1).
Proof.
  intros Hb. apply Bool.eqb_true_iff.
  apply (forall_below 256 (fun b => Bool.eqb (Z.land b 192 =? 64) (b / 64 =? 1)));
    [vm_compute; reflexivity | unfold is_u8, u8_max in Hb; lia].
Qed.

Lemma v4_prefixes ip : v4_ok ip ->
  v4_bits ip / 2 ^ (32 - 8) = ip.(oct_a) /\ v4_bits ip / 2 ^ (32 - 16) = ip.(oct_a) * 256 + ip.(oct_b) /\
  v4_bits ip / 2 ^ (32 - 12) = ip.(oct_a) * 16 + ip.(oct_b) / 16 /\
  v4_bits ip / 2 ^ (32 - 10) = ip.(oct_a) * 4 + ip.(oct_b) / 64 /\
  v4_bits ip / 2 ^ (32 - 4) = ip.(oct_a) / 16 /\ v4_bits ip / 2 ^ (32 - 32) = v4_bits ip.
Proof.
  destruct ip as [a b c d]. unfold v4_ok, v4_bits, is_u8, u8_max. cbn [oct_a oct_b oct_c oct_d].
  intros (Ha & Hb & Hc & Hd).
  change (32 - 8) with 24; change (32 - 16) with 16; change (32 - 12) with 20;
  change (32 - 10) with 22; change (32 - 4) with 28; change (32 - 32) with 0.
  split_and!; div_lia.
Qed.

(** What each listed prefix comes to on the octets. *)
Lemma v4_nets ip : v4_ok ip ->
  (fun n => cidr_contains (Net4 n.1 n.2) (V4 ip)) <$> PROHIBITED_V4 =
  [ip.(oct_a) =? 127; ip.(oct_a) =? 10; ip.(oct_a) * 16 + ip.(oct_b) / 16 =? 2753;
   ip.(oct_a) * 256 + ip.(oct_b) =? 49320; ip.(oct_a) * 256 + ip.(oct_b) =? 43518;
   v4_bits ip =? 0; v4_bits ip =? 4294967295; ip.(oct_a) / 16 =? 14; ip.(oct_a) * 4 + ip.(oct_b) / 64 =? 401].
Proof.
  intros Hok. destruct (v4_prefixes ip Hok) as (H8 & H16 & H12 & H10 & H4 & H32).
  cbn [fmap list_fmap PROHIBITED_V4 cidr_contains fst snd]. by rewrite H8, H16, H12, H10, H4, H32.
Qed.

Lemma existsb_fmap {A} (f : A -> bool) l : existsb f l = existsb id (f <$> l).
Proof. induction l as [|x l IH]; cbn; [done|]. by rewrite IH. Qed.

Lemma prohibited_v4_iff ip : v4_ok ip ->
  is_prohibited_v4 ip = existsb (fun n => cidr_contains (Net4 n.1 n.2) (V4 ip)) PROHIBITED_V4.
Proof.
  intros Hok. rewrite existsb_fmap, v4_nets by done. apply Bool.eq_iff_eq_true.
  unfold is_prohibited_v4, is_shared_nat_v4, v4_is_unspecified, v4_is_broadcast.
  rewrite nat_bits by apply Hok. cbn [existsb id].
  unfold v4_is_loopback, v4_is_private, v4_is_link_local, v4_is_multicast.
  rewrite !orb_true_iff, !andb_true_iff, !Z.eqb_eq, !Z.leb_le, !bool_decide_eq_true.
  destruct ip as [a b c d]. unfold v4_ok, v4_bits, is_u8, u8_max in *. cbn [oct_a oct_b oct_c oct_d id] in *.
  assert (mkV4 a b c d = mkV4 0 0 0 0 <-> a * 2 ^ 24 + b * 2 ^ 16 + c * 2 ^ 8 + d = 0) as ->
    by (split; [intros [= -> -> -> ->]; done | intros ?; f_equal; lia]).
  assert (mkV4 a b c d = mkV4 255 255 255 255 <-> a * 2 ^ 24 + b * 2 ^ 16 + c * 2 ^ 8 + d = 4294967295) as ->
    by (split; [intros [= -> -> -> ->]; done | intros ?; f_equal; lia]).
  Z.to_euclidean_division_equations. lia.
Qed.

(** The high bits of an IPv6 address, and a mapped address under its prefixes. *)
Lemma v6_high s0 s1 s2 s3 s4 s5 s6 s7 k :
  v6_ok [s0; s1; s2; s3; s4; s5; s6; s7] -> k = 7 \/ k = 8 \/ k = 10 ->
  v6_bits [s0; s1; s2; s3; s4; s5; s6; s7] / 2 ^ (128 - k) = s0 / 2 ^ (16 - k).
Proof.
  intros [_ Hall] Hk. rewrite !Forall_cons in Hall. unfold is_u16 in Hall. unfold v6_bits. cbn [fold_left].
  destruct_or! Hk; subst k; [change (128 - 7) with 121|change (128 - 8) with 120|change (128 - 10) with 118];
    [change (16 - 7) with 9|change (16 - 8) with 8|change (16 - 10) with 6]; div_lia.
Qed.

Lemma v6_mapped_bits ip : v6_bits (to_ipv6_mapped ip) = 0xffff * 2 ^ 32 + v4_bits ip.
Proof. unfold v6_bits, v4_bits, to_ipv6_mapped. cbn [fold_left]. lia. Qed.

Lemma mapped_net base len ip : v4_ok base -> v4_ok ip -> 0 <= len <= 32 ->
  cidr_contains (Net6 (to_ipv6_mapped base) (96 + len)) (V6 (to_ipv6_mapped ip)) =
  cidr_contains (Net4 base len) (V4 ip).
Proof.
  intros Hb Hi Hl. cbn [cidr_contains]. rewrite !v6_mapped_bits.
  replace (128 - (96 + len)) with (32 - len) by lia.
  replace (2 ^ 32) with (2 ^ len * 2 ^ (32 - len)) by (rewrite <- Z.pow_add_r by lia; f_equal; lia).
  rewrite !Z.mul_assoc, !Z.div_add_l by (apply Z.pow_nonzero; lia).
  apply Bool.eq_iff_eq_true. rewrite !Z.eqb_eq. lia.
Qed.

Lemma v4_bits_range ip : v4_ok ip -> 0 <= v4_bits ip < 2 ^ 32.
Proof. unfold v4_ok, v4_bits, is_u8, u8_max. lia. Qed.

(** An address outside the mapped block is in no mapped prefix. *)
Lemma unmapped_net base len ip : v4_ok base -> v6_ok ip -> 0 <= len <= 32 -> to_ipv4_mapped ip = None ->
  cidr_contains (Net6 (to_ipv6_mapped base) (96 + len)) (V6 ip) = false.
Proof.
  intros Hb Hi Hl Hn. cbn [cidr_contains]. apply Z.eqb_neq. intros E. rewrite v6_mapped_bits in E.
  replace (128 - (96 + len)) with (32 - len) in E by lia.
  apply (f_equal (fun x => x / 2 ^ len)) in E.
  rewrite !Z.div_div, <- !Z.pow_add_r in E by (try apply Z.pow_nonzero; try apply Z.pow_pos_nonneg; lia).
  replace (32 - len + len) with 32 in E by lia.
  pose proof (v4_bits_range base Hb). rewrite Z.div_add_l, (Z.div_small (v4_bits base)) in E by lia.
  destruct Hi as [Hlen Hall].
  destruct ip as [|s0 [|s1 [|s2 [|s3 [|s4 [|s5 [|s6 [|s7 [|]]]]]]]]]; try done.
  rewrite !Forall_cons in Hall. unfold is_u16 in Hall. unfold v6_bits in E. cbn [fold_left] in E.
  assert (s0 = 0 /\ s1 = 0 /\ s2 = 0 /\ s3 = 0 /\ s4 = 0 /\ s5 = 0xffff) as (-> & -> & -> & -> & -> & ->)
    by (Z.to_euclidean_division_equations; lia).
  cbn in Hn. done.
Qed.

Lemma segment_masks s : is_u16 s ->
  (Z.land s 0xff00 =? 0xff00) = (s / 2 ^ (16 - 8) =? 255) /\
  (Z.land s 0xfe00 =? 0xfc00) = (s / 2 ^ (16 - 7) =? 126) /\
  (Z.land s 0xffc0 =? 0xfe80) = (s / 2 ^ (16 - 10) =? 1018).
Proof.
  intros Hs.
  assert (holds_from (fun s => Bool.eqb (Z.land s 0xff00 =? 0xff00) (s / 2 ^ (16 - 8) =? 255)
            && Bool.eqb (Z.land s 0xfe00 =? 0xfc00) (s / 2 ^ (16 - 7) =? 126)
            && Bool.eqb (Z.land s 0xffc0 =? 0xfe80) (s / 2 ^ (16 - 10) =? 1018)) (Z.to_nat 65536) 0 = true) as Hall
    by (vm_compute; reflexivity).
  pose proof (forall_below 65536 _ Hall s ltac:(unfold is_u16 in Hs; lia)) as H.
  clear Hall. apply andb_prop in H as [H H3]. apply andb_prop in H as [H1 H2].
  apply Bool.eqb_prop in H1, H2, H3. auto.
Qed.

Lemma prohibited_v6_iff ip : v6_ok ip ->
  is_prohibited_v6 ip = existsb (fun n => cidr_contains n (V6 ip)) PROHIBITED_V6.
Proof.
  intros Hi. destruct Hi as [Hlen Hall].
  destruct ip as [|s0 [|s1 [|s2 [|s3 [|s4 [|s5 [|s6 [|s7 [|]]]]]]]]]; try done.
  pose proof (conj Hlen Hall : v6_ok _) as Hok. rewrite !Forall_cons in Hall.
  unfold is_prohibited_v6, v6_is_multicast, is_unique_local_v6, is_unicast_link_local_v6.
  change (segment0 [s0; s1; s2; s3; s4; s5; s6; s7]) with s0.
  cbn [PROHIBITED_V6 existsb cidr_contains].
  destruct (segment_masks s0) as (-> & -> & ->); [apply Hall|].
  rewrite (v6_high s0 s1 s2 s3 s4 s5 s6 s7 8), (v6_high s0 s1 s2 s3 s4 s5 s6 s7 7),
    (v6_high s0 s1 s2 s3 s4 s5 s6 s7 10) by auto.
  unfold v6_is_loopback, v6_is_unspecified. rewrite orb_false_r, !orb_assoc.
  assert (forall k, 0 <= k < 2 ->
            bool_decide (([s0; s1; s2; s3; s4; s5; s6; s7] : Ipv6Addr) = [0; 0; 0; 0; 0; 0; 0; k]) =
            (v6_bits [s0; s1; s2; s3; s4; s5; s6; s7] / 2 ^ (128 - 128) =? v6_bits [0; 0; 0; 0; 0; 0; 0; k] / 2 ^ (128 - 128)))
    as Hk.
  { intros k Hk. apply Bool.eq_iff_eq_true. rewrite bool_decide_eq_true, Z.eqb_eq.
    change (2 ^ (128 - 128)) with 1. rewrite !Z.div_1_r. unfold v6_bits. cbn [fold_left].
    unfold is_u16 in Hall. split; [by intros [= -> -> -> -> -> -> -> ->]|]. intros E.
    repeat f_equal; lia. }
  rewrite (Hk 1), (Hk 0) by lia. done.
Qed.

(** The addresses refused by default are exactly the listed CIDR
    ranges, the IPv4 ones under their IPv4-mapped spelling too, so no spelling of
    an address escapes its range and nothing outside the ranges is refused. *)
Theorem prohibited_is_the_range_list ip :
  ip_ok ip -> is_prohibited ip = existsb (fun net => cidr_contains net ip) PROHIBITED.
Proof.
  unfold PROHIBITED. rewrite !existsb_app. intros Hok.
  assert (Hbases : forall n, n ∈ PROHIBITED_V4 -> v4_ok n.1 /\ 0 <= n.2 <= 32).
  { apply Forall_forall. repeat constructor; cbn; unfold is_u8, u8_max; lia. }
  assert (Hcast : forall {A} (f : A -> Cidr) l,
            existsb (fun net => cidr_contains net ip) (f <$> l) = existsb (fun x => cidr_contains (f x) ip) l).
  { intros A f l. induction l as [|x l IH]; cbn; [done|]. by rewrite IH. }
  assert (Hext : forall (f g : Ipv4Addr * Z -> bool), (forall n, n ∈ PROHIBITED_V4 -> f n = g n) ->
            existsb f PROHIBITED_V4 = existsb g PROHIBITED_V4).
  { intros f g Hfg. rewrite (existsb_fmap f), (existsb_fmap g). f_equal.
    apply list_fmap_ext. intros i n Hn. apply Hfg. by eapply list_elem_of_lookup_2. }
  assert (Hnone : forall (f : Ipv4Addr * Z -> bool), (forall n, n ∈ PROHIBITED_V4 -> f n = false) ->
            existsb f PROHIBITED_V4 = false) by (intros f Hf; by rewrite (Hext f (fun _ => false) Hf)).
  rewrite !Hcast. destruct ip as [ip|ip]; cbn [is_prohibited ip_ok] in *.
  - rewrite (prohibited_v4_iff ip Hok), (Hnone (fun n => cidr_contains (Net6 _ _) _)) by done.
    cbn [existsb PROHIBITED_V6 cidr_contains]. by rewrite !orb_false_r.
  - rewrite (Hnone (fun n => cidr_contains (Net4 _ _) _)) by done. rewrite orb_false_l.
    destruct (to_ipv4_mapped ip) as [v4|] eqn:Em.
    + destruct (mapped_inv _ _ Hok Em) as [-> Hv4].
      rewrite (Hext _ (fun n => cidr_contains (Net4 n.1 n.2) (V4 v4)))
        by (intros n Hn; destruct (Hbases n Hn); by apply mapped_net).
      rewrite (prohibited_v4_iff v4 Hv4).
      rewrite <- prohibited_v6_iff by done. unfold is_prohibited_v6.
      change (segment0 (to_ipv6_mapped v4)) with 0. by rewrite orb_false_r.
    + rewrite Hnone by (intros n Hn; destruct (Hbases n Hn); by apply unmapped_net).
      rewrite orb_false_l. by apply prohibited_v6_iff.
Qed.

(** ** A concrete gate *)

Module GateDemo.
(** A resolver that answers everything with one list, a backend that answers with
    one body. *)
Record Backend : Type := mkBackend { answers : list IpAddr; body : list Frame }.

#[global] Instance backend_net : Net Backend := {|
  lookup_host w _ := Some (Some w.(answers));
  default_send_request w _ _ := Some (Ok w.(body))
|}.

Definition gate (permitted : list IpAddr) (denied : list Cidr) : HttpGate (N := Cidr) :=
  mkGate (chars_of "m") [HostPattern.parse (chars_of "*.example.com"); HostPattern.parse (chars_of "127.0.0.1");
    HostPattern.parse (chars_of "[::ffff:127.0.0.1]")] None (mkHttpLimits 10 20 30 40 5) permitted denied.

Definition request (host : text) : Request :=
  mkRequest (mkUri (Some (mkAuthority host (Some (chars_of "8080")))) []) [(HOST, chars_of "evil.test")] [].

Definition send (permitted : list IpAddr) (denied : list Cidr) (answers : list IpAddr) (host : text) :=
  send_request cidr_contains (fun _ => true) (gate permitted denied) (mkBackend answers []) (request host)
    (Some (mkOptions (Some 99) None (Some 3))).
End GateDemo.

Example send_examples :
  (GateDemo.send [] [] [V4 (mkV4 93 184 216 34)] (chars_of "api.example.com")).2 =
    [HLookup (chars_of "api.example.com");
     HSent (mkRequest (GateDemo.request (chars_of "api.example.com")).(req_uri)
              [(HOST, chars_of "api.example.com:8080")] []) (mkOptions (Some 10) (Some 20) (Some 3))] /\
  GateDemo.send [] [] [V4 (mkV4 93 184 216 34); V4 (mkV4 169 254 169 254)] (chars_of "api.example.com") =
    (Err DestinationIpProhibited, [HLookup (chars_of "api.example.com"); HRefused RDestination]) /\
  GateDemo.send [] [] [] (chars_of "example.com") = (Err HttpRequestDenied, [HRefused RAllowlist]) /\
  (GateDemo.send [V4 (mkV4 127 0 0 1)] [] [] (chars_of "127.0.0.1")).1 = Ok ([], mkCapped 5 5) /\
  (GateDemo.send [V4 (mkV4 127 0 0 1)] [] [] (chars_of "[::ffff:127.0.0.1]")).1 = Err DestinationIpProhibited /\
  (GateDemo.send [V4 (mkV4 127 0 0 1)] [Net6 [0; 0; 0; 0; 0; 0xffff; 0x7f00; 0] 104] [] (chars_of "127.0.0.1")).1 =
    Err DestinationIpProhibited.
Proof. vm_compute. done. Qed.


Lemma body_never_exceeds_cap_witness :
  let polls := [(false, Ready (FData [1; 2])); (false, Ready (FData [3; 4])); (false, Ready (FData [5]));
                (false, EndOfBody)] in
  let outs := (poll_all polls (mkCapped 3 3)).1 in
  outs = [Ready (FData [1; 2]); Failed (HttpResponseBodySize 3); Ready (FData [5]); EndOfBody] /\
  sumZ (frame_bytes <$> outs) <= 3.
Proof.
  split; [reflexivity|].
  refine (proj1 (body_never_exceeds_cap [(false, Ready (FData [1; 2])); (false, Ready (FData [3; 4]));
    (false, Ready (FData [5])); (false, EndOfBody)] 3 _)). lia.
Defined.

Lemma prohibited_is_the_range_list_witness :
  is_prohibited (V6 [0; 0; 0; 0; 0; 0xffff; 0xa9fe; 0xa9fe]) = true /\
  existsb (fun net => cidr_contains net (V6 [0; 0; 0; 0; 0; 0xffff; 0xa9fe; 0xa9fe])) PROHIBITED = true.
Proof.
  split; [reflexivity|]. rewrite <- prohibited_is_the_range_list; [reflexivity|].
  split; [reflexivity|]. repeat constructor; vm_compute; discriminate.
Defined.
