(* ===== verification/Logs.v ===== *)
(** * Logs: module log records and their retention

    crates/nexum-runtime-logs/src/logs.rs (records and their cost) and
    logs/store.rs (the byte-bounded in-memory store). Text is its UTF-8 bytes,
    instants are integers, and the append counter is unbounded. The theorem: the
    store refines a map from runs to their full histories, of which it shows the
    longest tail within the budget. *)

From stdpp Require Import prelude list gmap strings.
From Stdlib Require Import ZArith Lia.
From S2P Require Import Prelude Policy.

Local Open Scope Z_scope.

#[local] Arguments chars_of : simpl never.

(** ** Records *)

Record RunId : Type := mkRunId { run_module : text; run_seq : Z; started_at : Z }.

#[export] Instance RunId_eq_dec : EqDecision RunId.
Proof. solve_decision. Defined.
#[export] Instance RunId_countable : Countable RunId.
Proof.
  refine (inj_countable' (fun r => (r.(run_module), r.(run_seq), r.(started_at)))
            (fun p => mkRunId p.1.1 p.1.2 p.2) _). by intros [].
Defined.

Inductive LogChannel : Type := HostInterface | Stdout | Stderr | Panic.

Record LogSource : Type := mkLogSource {
  target : text;
  file : option text;
  line : option Z
}.
Definition LogSource_default : LogSource := mkLogSource [] None None.

(** A float is its bit pattern. *)
Inductive LogValue : Type :=
| VText (t : text)
| VUnsigned (n : Z)
| VSigned (n : Z)
| VFloat (bits : Z)
| VBoolean (b : bool).

Record LogField : Type := mkField { field_name : text; field_value : LogValue }.

Record LogRecord : Type := mkRecord {
  rec_run : RunId;
  rec_ts : Z;
  rec_channel : LogChannel;
  rec_level : Level;
  message : text;
  source : LogSource;
  fields : list LogField
}.

Definition len (t : text) : Z := Z.of_nat (length t).

Definition RECORD_OVERHEAD : Z := 208.
Definition FIELD_OVERHEAD : Z := 64.

Definition source_cost (s : LogSource) : Z := len s.(target) + default 0 (len <$> s.(file)).
Definition value_cost (v : LogValue) : Z :=
  match v with VText t => len t | VUnsigned _ | VSigned _ | VFloat _ => 8 | VBoolean _ => 1 end.
Definition field_cost (f : LogField) : Z := FIELD_OVERHEAD + len f.(field_name) + value_cost f.(field_value).

(** Charged against a run's retention budget. *)
Definition cost (r : LogRecord) : Z :=
  RECORD_OVERHEAD + len r.(message) + source_cost r.(source) + sumZ (field_cost <$> r.(fields)).

(** ** The retention store *)

Record Ring : Type := mkRing {
  ring_records : list (Z * LogRecord);
  ring_bytes : Z;
  ring_appended : Z;
  ring_cap : Z
}.

Definition ring_new (cap : Z) : Ring := mkRing [] 0 0 cap.

(** [while bytes > cap && records.len() > 1]. *)
Fixpoint ring_evict (cap bytes : Z) (records : list (Z * LogRecord)) : list (Z * LogRecord) * Z :=
  match records with
  | (_, evicted) :: (_ :: _) as rest =>
      if cap <? bytes then ring_evict cap (bytes - cost evicted) rest else (records, bytes)
  | _ => (records, bytes)
  end.

Definition ring_push (r : Ring) (record : LogRecord) : Ring :=
  let seq := r.(ring_appended) in
  let (records, bytes) :=
    ring_evict r.(ring_cap) (r.(ring_bytes) + cost record) (r.(ring_records) ++ [(seq, record)]) in
  mkRing records bytes (seq + 1) r.(ring_cap).

Record RunMeta : Type := mkRunMeta {
  meta_run : RunId;
  meta_appended : Z;
  meta_retained : Z;
  meta_retained_bytes : Z;
  first_ts : option Z;
  last_ts : option Z
}.

Definition ring_meta (r : Ring) (run : RunId) : RunMeta :=
  mkRunMeta run r.(ring_appended) (Z.of_nat (length r.(ring_records))) r.(ring_bytes)
    (match r.(ring_records) with e :: _ => Some e.2.(rec_ts) | [] => None end)
    (match reverse r.(ring_records) with e :: _ => Some e.2.(rec_ts) | [] => None end).

Record LogPage : Type := mkLogPage { page_records : list LogRecord; next_cursor : Z }.
Definition LogPage_default : LogPage := mkLogPage [] 0.

Definition ring_page (r : Ring) (cursor : Z) : LogPage :=
  mkLogPage (snd <$> List.filter (fun e => cursor <=? e.1) r.(ring_records)) r.(ring_appended).

Record ModuleRuns : Type := mkModuleRuns { order : list RunId; rings : gmap RunId Ring }.
Definition ModuleRuns_new : ModuleRuns := mkModuleRuns [] ∅.

Record LogRetentionLimits : Type := mkRetention { bytes_per_run : Z; runs_retained : Z }.

Record RunLogStore : Type := mkLogStore {
  log_modules : gmap text ModuleRuns;
  log_limits : LogRetentionLimits
}.

Definition log_store_new (limits : LogRetentionLimits) : RunLogStore := mkLogStore ∅ limits.

(** Whole runs beyond the cap, oldest first. *)
Fixpoint evict_runs (retained : Z) (order : list RunId) (rings : gmap RunId Ring)
    : list RunId * gmap RunId Ring :=
  match order with
  | old :: rest =>
      if retained <? Z.of_nat (length order) then evict_runs retained rest (delete old rings)
      else (order, rings)
  | [] => ([], rings)
  end.

Definition register (limits : LogRetentionLimits) (run : RunId) (entry : ModuleRuns) : ModuleRuns :=
  if bool_decide (is_Some (entry.(rings) !! run)) then entry
  else
    let (order, rings) := evict_runs limits.(runs_retained) (entry.(order) ++ [run])
                            (<[run := ring_new limits.(bytes_per_run)]> entry.(rings)) in
    mkModuleRuns order rings.

Definition log_append (s : RunLogStore) (record : LogRecord) : RunLogStore :=
  let run := record.(rec_run) in
  let entry := register s.(log_limits) run
                 (default ModuleRuns_new (s.(log_modules) !! run.(run_module))) in
  let entry :=
    match entry.(rings) !! run with
    | Some ring => mkModuleRuns entry.(order) (<[run := ring_push ring record]> entry.(rings))
    | None => entry
    end in
  mkLogStore (<[run.(run_module) := entry]> s.(log_modules)) s.(log_limits).

Definition log_list_runs (s : RunLogStore) (module : text) : list RunMeta :=
  match s.(log_modules) !! module with
  | None => []
  | Some entry => omap (fun run => (fun ring => ring_meta ring run) <$> (entry.(rings) !! run)) entry.(order)
  end.

Definition log_read (s : RunLogStore) (run : RunId) (cursor : Z) : LogPage :=
  match s.(log_modules) !! run.(run_module) ≫= fun entry => entry.(rings) !! run with
  | Some ring => ring_page ring cursor
  | None => LogPage_default
  end.

(** ** Retention: what a run keeps *)

Definition total (l : list (Z * LogRecord)) : Z := sumZ ((fun e => cost e.2) <$> l).

(** The records of a history, numbered from [start]. *)
Fixpoint numbered (start : Z) (h : list LogRecord) : list (Z * LogRecord) :=
  match h with [] => [] | r :: h => (start, r) :: numbered (start + 1) h end.

(** [k] is the longest tail of [l] within the budget, and at least the newest record. *)
Record longest_tail (cap : Z) (l k : list (Z * LogRecord)) : Prop := {
  tail_of : exists pre, l = pre ++ k;
  tail_newest : l <> [] -> k <> [];
  tail_bound : total k <= cap \/ (length k <= 1)%nat;
  tail_max : forall pre' k', l = pre' ++ k' -> total k' <= cap -> (length k' <= length k)%nat
}.

Lemma len_nonneg t : 0 <= len t.
Proof. unfold len. lia. Qed.

Lemma sumZ_nonneg {A} (f : A -> Z) (l : list A) : (forall x, 0 <= f x) -> 0 <= sumZ (f <$> l).
Proof. intros Hf. induction l as [|x l IH]; [done|]. rewrite fmap_cons. cbn [sumZ foldr]. fold (sumZ (f <$> l)).
  pose proof (Hf x). lia.
Qed.

Lemma source_cost_nonneg s : 0 <= source_cost s.
Proof.
  unfold source_cost. destruct s.(file) as [f|]; cbn.
  - pose proof (len_nonneg s.(target)). pose proof (len_nonneg f). lia.
  - pose proof (len_nonneg s.(target)). lia.
Qed.

Lemma field_cost_nonneg f : 0 <= field_cost f.
Proof.
  unfold field_cost, FIELD_OVERHEAD. pose proof (len_nonneg f.(field_name)).
  destruct f.(field_value) as [t| | | |]; cbn; [pose proof (len_nonneg t)|..]; lia.
Qed.

Lemma cost_pos r : 0 < cost r.
Proof.
  unfold cost, RECORD_OVERHEAD. pose proof (len_nonneg r.(message)).
  pose proof (source_cost_nonneg r.(source)).
  pose proof (sumZ_nonneg field_cost r.(fields) field_cost_nonneg). lia.
Qed.

Lemma total_app l1 l2 : total (l1 ++ l2) = total l1 + total l2.
Proof. unfold total. by rewrite fmap_app, sumZ_app. Qed.

Lemma total_nonneg l : 0 <= total l.
Proof. apply sumZ_nonneg. intros e. pose proof (cost_pos e.2). lia. Qed.

Lemma numbered_app start h1 h2 :
  numbered start (h1 ++ h2) = numbered start h1 ++ numbered (start + Z.of_nat (length h1)) h2.
Proof.
  revert start. induction h1 as [|r h1 IH]; intros start; cbn.
  - by rewrite Z.add_0_r.
  - rewrite IH. do 3 f_equal. lia.
Qed.

Lemma ring_evict_tail cap bytes l :
  bytes = total l ->
  longest_tail cap l (ring_evict cap bytes l).1 /\
  (ring_evict cap bytes l).2 = total (ring_evict cap bytes l).1.
Proof.
  revert bytes. induction l as [|[n e] l IH]; intros bytes Hb; cbn.
  - split; [split|done]; [by exists []|done|cbn; lia|]. intros [|? ?] [|? ?]; [done..|]; done.
  - destruct l as [|e' rest]; cbn.
    + split; [split|done]; [by exists []|done|cbn; lia|].
      intros pre' k' Heq _. apply (f_equal length) in Heq. rewrite length_app in Heq. cbn in *. lia.
    + destruct (Z.ltb_spec cap bytes) as [Hlt|Hge]; cbn.
      * destruct (IH (bytes - cost e)) as [Ht Hs].
        { rewrite Hb. change ((n, e) :: e' :: rest) with ([(n, e)] ++ e' :: rest).
          rewrite total_app. unfold total at 1. cbn. lia. }
        split; [|done]. destruct Ht as [[pre Hpre] Hne Hbd Hmax]. split.
        -- exists ((n, e) :: pre). by rewrite Hpre at 1.
        -- intros _. by apply Hne.
        -- done.
        -- intros [|p pre'] k' Heq Hle; cbn in Heq.
           ++ subst k'. lia.
           ++ eapply Hmax; [|done]. by injection Heq.
      * split; [split|done]; [by exists []|done|lia|].
        intros pre' k' Heq _. rewrite Heq, length_app. lia.
Qed.

(** A ring holds what its run's history leaves. *)
Record ring_holds (cap : Z) (h : list LogRecord) (r : Ring) : Prop := {
  holds_cap : r.(ring_cap) = cap;
  holds_appended : r.(ring_appended) = Z.of_nat (length h);
  holds_bytes : r.(ring_bytes) = total r.(ring_records);
  holds_tail : longest_tail cap (numbered 0 h) r.(ring_records)
}.

Lemma ring_new_holds cap : 0 <= cap -> ring_holds cap [] (ring_new cap).
Proof.
  intros Hcap. split; [done..|]. split; [by exists []|done|cbn; lia|].
  intros [|? ?] [|? ?]; [done..|]; done.
Qed.

Lemma app_tail_length {A} (p1 k1 p2 k2 : list A) :
  p1 ++ k1 = p2 ++ k2 -> (length k1 <= length k2)%nat -> exists q, k2 = q ++ k1.
Proof.
  intros Heq Hlen. apply app_eq_inv in Heq as [(q & -> & ->)|(q & -> & ->)]; [by exists q|].
  rewrite length_app in Hlen. assert (q = []) as -> by (apply nil_length_inv; lia). by exists [].
Qed.

Lemma longest_tail_snoc cap l k x k2 :
  longest_tail cap l k -> longest_tail cap (k ++ [x]) k2 -> longest_tail cap (l ++ [x]) k2.
Proof.
  intros [[pre ->] Hne Hbd Hmax] [[pre2 Hpre2] Hne2 Hbd2 Hmax2]. split.
  - exists (pre ++ pre2). by rewrite <- !(assoc_L (++)), Hpre2.
  - intros _. apply Hne2. by destruct k.
  - done.
  - intros pre' k' Heq Hle.
    destruct (decide (k' = [])) as [->|Hk']; [cbn; lia|].
    apply exists_last in Hk' as (k0 & y & ->).
    rewrite (assoc_L (++)) in Heq. apply app_inj_tail in Heq as [Heq <-].
    rewrite total_app in Hle. pose proof (total_nonneg [x]).
    assert (length k0 <= length k)%nat as Hlen by (apply (Hmax pre'); [done|lia]).
    destruct (app_tail_length pre' k0 pre k) as [q ->]; [done..|].
    apply (Hmax2 q); [by rewrite (assoc_L (++))|]. by rewrite total_app.
Qed.

Lemma ring_push_holds cap h r record :
  ring_holds cap h r -> ring_holds cap (h ++ [record]) (ring_push r record).
Proof.
  intros [Hc Ha Hb Ht]. unfold ring_push.
  destruct (ring_evict_tail cap (r.(ring_bytes) + cost record) (r.(ring_records) ++ [(r.(ring_appended), record)]))
    as [Hev Hbytes].
  { rewrite total_app, Hb. unfold total at 3. unfold sumZ. cbn [fmap list_fmap foldr snd]. lia. }
  rewrite Hc. destruct (ring_evict _ _ _) as [records bytes]; cbn in *.
  split; cbn; [done| |done|].
  - rewrite length_app, Ha. cbn. lia.
  - rewrite numbered_app, Z.add_0_l, <- Ha. by eapply longest_tail_snoc.
Qed.

(** ** The store refines a map from runs to histories *)

(** Runs in order of first record, each with every record appended since. *)
Notation Histories := (list (RunId * list LogRecord)).

Fixpoint extend (run : RunId) (r : LogRecord) (a : Histories) : Histories :=
  match a with
  | [] => []
  | (run', h) :: a => if decide (run' = run) then (run', h ++ [r]) :: a else (run', h) :: extend run r a
  end.

Definition newest {A} (n : Z) (l : list A) : list A := drop (length l - Z.to_nat n) l.

Definition spec_append (limits : LogRetentionLimits) (r : LogRecord) (a : Histories) : Histories :=
  if bool_decide (r.(rec_run) ∈ a.*1) then extend r.(rec_run) r a
  else newest limits.(runs_retained) (a ++ [(r.(rec_run), [r])]).

Definition spec_store (limits : LogRetentionLimits) (rs : list LogRecord) (module : text) : Histories :=
  fold_left (fun a r => if decide (r.(rec_run).(run_module) = module) then spec_append limits r a else a) rs [].

Definition history_of (a : Histories) (run : RunId) : option (list LogRecord) :=
  find_map (fun e => if decide (e.1 = run) then Some e.2 else None) a.

Record runs_hold (limits : LogRetentionLimits) (a : Histories) (entry : ModuleRuns) : Prop := {
  hold_order : entry.(order) = a.*1;
  hold_nodup : NoDup a.*1;
  hold_count : Z.of_nat (length a) <= limits.(runs_retained);
  hold_rings : forall run h, (run, h) ∈ a ->
    exists r, entry.(rings) !! run = Some r /\ ring_holds limits.(bytes_per_run) h r;
  hold_none : forall run, run ∉ a.*1 -> entry.(rings) !! run = None
}.

Lemma newest_in {A} n (l : list A) x : x ∈ newest n l -> x ∈ l.
Proof.
  intros Hx. rewrite <- (take_drop (length l - Z.to_nat n) l). apply elem_of_app. by right.
Qed.

Lemma newest_NoDup {A} n (l : list A) : NoDup l -> NoDup (newest n l).
Proof.
  intros Hnd. rewrite <- (take_drop (length l - Z.to_nat n) l) in Hnd.
  by apply NoDup_app in Hnd as (_ & _ & ?).
Qed.

Lemma newest_cons {A} n (x : A) l : Z.of_nat (length (x :: l)) > n -> 0 <= n -> newest n (x :: l) = newest n l.
Proof.
  intros Hgt Hn. unfold newest. cbn [length] in *.
  by replace (S (length l) - Z.to_nat n)%nat with (S (length l - Z.to_nat n)) by lia.
Qed.

Lemma newest_all {A} n (l : list A) : Z.of_nat (length l) <= n -> newest n l = l.
Proof. intros Hle. unfold newest. by replace (length l - Z.to_nat n)%nat with O by lia. Qed.

Lemma evict_runs_spec n order rings :
  0 <= n -> NoDup order ->
  (evict_runs n order rings).1 = newest n order /\
  (forall run, run ∈ newest n order -> (evict_runs n order rings).2 !! run = rings !! run) /\
  (forall run, run ∉ newest n order -> rings !! run = None \/ run ∈ order -> (evict_runs n order rings).2 !! run = None).
Proof.
  intros Hn. revert rings. induction order as [|old rest IH]; intros rings Hnd.
  - cbn. set_solver.
  - cbn [evict_runs]. apply NoDup_cons in Hnd as [Hold Hnd].
    destruct (Z.ltb_spec n (Z.of_nat (length (old :: rest)))) as [Hlt|Hge].
    + rewrite newest_cons by lia. destruct (IH (delete old rings) Hnd) as (Ho & Hin & Hout).
      split; [done|]. split.
      * intros run Hrun. rewrite (Hin _ Hrun). apply lookup_delete_ne.
        intros ->. apply Hold. by eapply newest_in.
      * intros run Hrun Hor. apply Hout; [done|].
        destruct (decide (run = old)) as [->|Hne]; [left; apply lookup_delete_eq|].
        rewrite lookup_delete_ne by done. set_solver.
    + rewrite newest_all by lia. cbn. split; [done|]. split; [done|]. set_solver.
Qed.

Lemma elem_fst {A B} (x : A) (y : B) (l : list (A * B)) : (x, y) ∈ l -> x ∈ l.*1.
Proof. intros Hin. apply list_elem_of_fmap. by exists (x, y). Qed.

Lemma extend_fst run r a : (extend run r a).*1 = a.*1.
Proof.
  induction a as [|[run' h] a IH]; [done|]. cbn [extend].
  destruct (decide _) as [->|]; rewrite !fmap_cons; [done|]. by rewrite IH.
Qed.

Lemma extend_elem run r a run' h' :
  NoDup a.*1 -> (run', h') ∈ extend run r a ->
  (run' <> run /\ (run', h') ∈ a) \/ (run' = run /\ exists h, h' = h ++ [r] /\ (run, h) ∈ a).
Proof.
  intros Hnd. induction a as [|[run0 h0] a IH]; [by intros ?%elem_of_nil|].
  rewrite fmap_cons in Hnd. apply NoDup_cons in Hnd as [Hni Hnd]. cbn [extend].
  destruct (decide _) as [->|Hne].
  - intros [Heq|Hin]%elem_of_cons.
    + injection Heq as -> ->. right. split; [done|]. exists h0. split; [done|]. by left.
    + left. split; [|by right]. intros ->. apply Hni. by eapply elem_fst.
  - intros [Heq|Hin]%elem_of_cons.
    + injection Heq as -> ->. left. split; [done|]. by left.
    + destruct (IH Hnd Hin) as [[? ?]|(-> & h & -> & ?)]; [left; split; [done|by right]|].
      right. split; [done|]. exists h. split; [done|by right].
Qed.

Lemma history_of_Some a run h : history_of a run = Some h -> (run, h) ∈ a.
Proof.
  unfold history_of. induction a as [|[run0 h0] a IH]; [done|]. cbn.
  destruct (decide (run0 = run)) as [->|]; [intros [= ->]; by left|]. intros ?%IH. by right.
Qed.

Lemma history_of_None a run : history_of a run = None -> run ∉ a.*1.
Proof.
  unfold history_of. induction a as [|[run0 h0] a IH]; [by intros _ ?%elem_of_nil|]. cbn.
  destruct (decide (run0 = run)) as [->|Hne]; [done|]. intros Hn%IH [->|Hin]%elem_of_cons; [done|]. by apply Hn.
Qed.

Lemma newest_fmap {A B} (f : A -> B) n l : f <$> newest n l = newest n (f <$> l).
Proof. unfold newest. by rewrite fmap_drop, length_fmap. Qed.

Lemma newest_snoc {A} n (l : list A) x : 1 <= n -> exists l', newest n (l ++ [x]) = l' ++ [x].
Proof.
  intros Hn. unfold newest. rewrite length_app. cbn [length].
  rewrite drop_app_le by lia. by eexists.
Qed.

(** One append on the runs of the record's module. *)
Definition runs_append (limits : LogRetentionLimits) (record : LogRecord) (entry : ModuleRuns) : ModuleRuns :=
  let entry := register limits record.(rec_run) entry in
  match entry.(rings) !! record.(rec_run) with
  | Some ring => mkModuleRuns entry.(order) (<[record.(rec_run) := ring_push ring record]> entry.(rings))
  | None => entry
  end.

Lemma log_append_modules s record module :
  (log_append s record).(log_modules) !! module =
  if decide (record.(rec_run).(run_module) = module)
  then Some (runs_append s.(log_limits) record (default ModuleRuns_new (s.(log_modules) !! module)))
  else s.(log_modules) !! module.
Proof.
  unfold log_append, runs_append. cbn. destruct (decide _) as [<-|Hne].
  - by rewrite lookup_insert_eq.
  - by rewrite lookup_insert_ne.
Qed.

Section Refinement.
Context (limits : LogRetentionLimits).
Context (Hbytes : 0 <= limits.(bytes_per_run)) (Hruns : 1 <= limits.(runs_retained)).

Lemma runs_append_holds a entry record :
  runs_hold limits a entry -> runs_hold limits (spec_append limits record a) (runs_append limits record entry).
Proof.
  intros [Ho Hnd Hc Hr Hno]. unfold spec_append, runs_append, register.
  set (run := record.(rec_run)) in *.
  destruct (decide (run ∈ a.*1)) as [Hin|Hni].
  - rewrite (bool_decide_eq_true_2 _ Hin).
    apply list_elem_of_fmap in Hin as ([run0 h] & -> & Hin). cbn in *.
    destruct (Hr _ _ Hin) as (r & Hrun & Hh).
    rewrite bool_decide_eq_true_2 by (by rewrite Hrun). rewrite Hrun.
    split; cbn; rewrite ?extend_fst; try done.
    + enough (length (extend run0 record a) = length a) as -> by done.
      by rewrite <- (length_fmap fst), extend_fst, length_fmap.
    + intros run' h' [[Hne Hin']|(-> & h0 & -> & Hin')]%extend_elem; [| |done].
      * rewrite lookup_insert_ne by done. by apply Hr.
      * destruct (Hr _ _ Hin') as (r0 & Hr0 & Hh0). rewrite Hrun in Hr0. injection Hr0 as <-.
        eexists. rewrite lookup_insert_eq. split; [done|]. by apply ring_push_holds.
    + intros run' Hni'. rewrite lookup_insert_ne; [by apply Hno|].
      intros ->. by apply Hni', (elem_fst _ h).
  - rewrite (bool_decide_eq_false_2 _ Hni).
    rewrite bool_decide_eq_false_2 by (rewrite (Hno _ Hni); by intros []).
    assert (NoDup (order entry ++ [run])) as Hnd'.
    { rewrite Ho. apply NoDup_app. split; [done|]. split; [|apply NoDup_singleton].
      intros x Hx ->%list_elem_of_singleton. done. }
    destruct (evict_runs_spec limits.(runs_retained) (order entry ++ [run])
                (<[run := ring_new limits.(bytes_per_run)]> entry.(rings))) as (Eo & Ein & Eout); [lia|done|].
    destruct (evict_runs _ _ _) as [order' rings']. cbn in Eo, Ein, Eout. cbn.
    assert ((newest limits.(runs_retained) (a ++ [(run, [record])])).*1 = order') as Hfst.
    { by rewrite newest_fmap, fmap_app, Eo, Ho. }
    destruct (newest_snoc limits.(runs_retained) (order entry ++ []) run) as [o' Ho']; [done|].
    rewrite app_nil_r in Ho'.
    assert (run ∈ newest limits.(runs_retained) (order entry ++ [run])) as Hrun by (rewrite Ho'; set_solver).
    rewrite (Ein _ Hrun), lookup_insert_eq.
    split; cbn.
    + done.
    + rewrite Hfst, Eo. by apply newest_NoDup.
    + unfold newest. rewrite length_drop. lia.
    + intros run' h' Hin'. assert (run' ∈ newest limits.(runs_retained) (order entry ++ [run])) as Hin2
        by (rewrite <- Eo, <- Hfst; by eapply elem_fst).
      apply newest_in, elem_of_app in Hin' as [Hin'|Heq%list_elem_of_singleton].
      * assert (run' <> run) by (intros ->; by apply Hni, (elem_fst _ h')).
        rewrite lookup_insert_ne, (Ein _ Hin2), lookup_insert_ne by done. by apply Hr.
      * injection Heq as -> ->. eexists. rewrite lookup_insert_eq. split; [done|].
        exact (ring_push_holds _ [] (ring_new _) record (ring_new_holds _ Hbytes)).
    + intros run' Hni'. rewrite Hfst, Eo in Hni'.
      rewrite lookup_insert_ne by (by intros ->). apply Eout; [done|].
      rewrite lookup_insert_ne by (by intros ->). rewrite elem_of_app, Ho.
      destruct (decide (run' ∈ a.*1)) as [?|Hni2]; [by right; left|left; by apply Hno].
Qed.

Lemma spec_store_snoc rs r module :
  spec_store limits (rs ++ [r]) module =
  if decide (r.(rec_run).(run_module) = module) then spec_append limits r (spec_store limits rs module)
  else spec_store limits rs module.
Proof. unfold spec_store. by rewrite fold_left_app. Qed.

Definition filled (rs : list LogRecord) : RunLogStore := fold_left log_append rs (log_store_new limits).

Lemma filled_limits rs : (filled rs).(log_limits) = limits.
Proof.
  unfold filled. change limits with (log_store_new limits).(log_limits) at 2.
  generalize (log_store_new limits). induction rs as [|r rs IH]; intros s; [done|]. cbn. by rewrite IH.
Qed.

Lemma filled_holds rs module :
  runs_hold limits (spec_store limits rs module) (default ModuleRuns_new ((filled rs).(log_modules) !! module)).
Proof.
  induction rs as [|r rs IH] using rev_ind.
  - cbn. split; cbn; [done|constructor|lia|by intros ? ? ?%elem_of_nil|done].
  - rewrite spec_store_snoc. unfold filled. rewrite fold_left_app. cbn [fold_left].
    fold (filled rs). rewrite log_append_modules, filled_limits.
    destruct (decide _) as [<-|]; [cbn [default]; by apply runs_append_holds|done].
Qed.
End Refinement.

(** A run's line in a listing agrees with its history. *)
Definition meta_agrees (cap : Z) (e : RunId * list LogRecord) (m : RunMeta) : Prop :=
  m.(meta_run) = e.1 /\ m.(meta_appended) = Z.of_nat (length e.2) /\
  exists k, longest_tail cap (numbered 0 e.2) k /\
    m.(meta_retained) = Z.of_nat (length k) /\ m.(meta_retained_bytes) = total k.

Lemma list_runs_agrees limits a (rs : gmap RunId Ring) :
  (forall run h, (run, h) ∈ a -> exists r, rs !! run = Some r /\ ring_holds limits.(bytes_per_run) h r) ->
  Forall2 (meta_agrees limits.(bytes_per_run)) a
    (omap (fun run => (fun ring => ring_meta ring run) <$> (rs !! run)) a.*1).
Proof.
  induction a as [|[run h] a IH]; intros Hr; [constructor|]. rewrite fmap_cons. cbn [omap list_omap].
  destruct (Hr run h) as (r & Hrun & [Hc Ha Hb Ht]); [by left|]. cbn. rewrite Hrun. cbn.
  constructor; [|apply IH; intros; apply Hr; by right].
  split; [done|]. split; [done|]. by exists r.(ring_records).
Qed.

(** C25: after any sequence of appends the store answers as the map from runs to
    full histories does, keeping a module's newest [runs_retained] runs: a page is
    the part from the cursor on of the longest tail of the run's history within
    [bytes_per_run] (never less than the newest record), its cursor is the length of
    the history, an evicted or unknown run yields the empty page, and the listing
    names the retained runs in order with their counts. *)
Theorem log_store_refines (limits : LogRetentionLimits) (rs : list LogRecord) :
  0 <= limits.(bytes_per_run) -> 1 <= limits.(runs_retained) ->
  (forall run cursor,
    match history_of (spec_store limits rs run.(run_module)) run with
    | None => log_read (filled limits rs) run cursor = LogPage_default
    | Some h => exists k, longest_tail limits.(bytes_per_run) (numbered 0 h) k /\
        log_read (filled limits rs) run cursor =
          mkLogPage (snd <$> List.filter (fun e => cursor <=? e.1) k) (Z.of_nat (length h))
    end) /\
  (forall module,
    let a := spec_store limits rs module in
    Z.of_nat (length a) <= limits.(runs_retained) /\
    Forall2 (meta_agrees limits.(bytes_per_run)) a (log_list_runs (filled limits rs) module)).
Proof.
  intros Hb Hn. split.
  - intros run cursor. pose proof (filled_holds limits Hb Hn rs run.(run_module)) as [_ _ _ Hr Hno].
    unfold log_read. destruct (history_of _ run) as [h|] eqn:Eh.
    + destruct (Hr _ _ (history_of_Some _ _ _ Eh)) as (r & Hrun & [_ Ha _ Ht]).
      exists r.(ring_records). split; [done|].
      destruct (log_modules _ !! _); cbn in *; [|done]. rewrite Hrun. unfold ring_page. by rewrite Ha.
    + specialize (Hno _ (history_of_None _ _ Eh)).
      destruct (log_modules _ !! _); cbn in *; [|done]. by rewrite Hno.
  - intros module. pose proof (filled_holds limits Hb Hn rs module) as [Ho _ Hc Hr _].
    split; [done|]. unfold log_list_runs.
    destruct (log_modules _ !! _) as [entry|]; cbn in *.
    + rewrite Ho. by apply list_runs_agrees.
    + rewrite (fmap_nil_inv fst _ (eq_sym Ho)). constructor.
Qed.

Definition run_of (n : Z) : RunId := mkRunId (chars_of "m") n 0.
Definition record_of (n ts : Z) (msg : text) : LogRecord :=
  mkRecord (run_of n) ts HostInterface LInfo msg LogSource_default [].

(** Three records in a budget of two keep the two newest; a third run evicts the first. *)
Example retention_examples :
  let limits := mkRetention (2 * 209) 2 in
  let rs := [record_of 0 1 [65]; record_of 0 2 [66]; record_of 0 3 [67]] in
  log_read (filled limits rs) (run_of 0) 0 = mkLogPage [record_of 0 2 [66]; record_of 0 3 [67]] 3 /\
  log_read (filled limits (rs ++ [record_of 1 4 []; record_of 2 5 []])) (run_of 0) 0 = LogPage_default /\
  (meta_run <$> log_list_runs (filled limits (rs ++ [record_of 1 4 []; record_of 2 5 []])) (chars_of "m"))
    = [run_of 1; run_of 2].
Proof. split_and!; vm_compute; reflexivity. Qed.

Lemma log_store_refines_witness :
  exists k, longest_tail 418 (numbered 0 [record_of 0 1 [65]; record_of 0 2 [66]; record_of 0 3 [67]]) k /\
    log_read (filled (mkRetention 418 2) [record_of 0 1 [65]; record_of 0 2 [66]; record_of 0 3 [67]]) (run_of 0) 2 =
      mkLogPage (snd <$> List.filter (fun e => 2 <=? e.1) k) 3.
Proof.
  exact (proj1 (log_store_refines (mkRetention 418 2)
    [record_of 0 1 [65]; record_of 0 2 [66]; record_of 0 3 [67]] ltac:(cbn; lia) ltac:(cbn; lia)) (run_of 0) 2).
Defined.
