(* ===== verification/LogGate.v ===== *)
(** * LogGate: the gate in front of the log store

    crates/nexum-runtime-logs/src/logs.rs (router) and logs/{bounds,filter,stdio}.rs:
    the byte and rate gate of a run, the operator's filter in front of it, and the
    line capture of a guest's output. The decimal form of a float is a parameter;
    the token bucket is used through the interface dispatch uses it by. *)

From stdpp Require Import prelude list gmap strings.
From Stdlib Require Import ZArith Lia.
From S2P Require Import Prelude Policy Dispatch Logs.

Local Open Scope Z_scope.

#[local] Arguments chars_of : simpl never.

(** ** The router: the console lines emitted, and the store *)

Record LogRouter : Type := mkRouter { console_lines : list LogRecord; retained : RunLogStore }.

Definition router_retain (r : LogRouter) (record : LogRecord) : LogRouter :=
  mkRouter r.(console_lines) (log_append r.(retained) record).

Definition router_record (r : LogRouter) (record : LogRecord) : LogRouter :=
  router_retain (mkRouter (r.(console_lines) ++ [record]) r.(retained)) record.

(** ** The per-run gate *)

Definition TRUNCATION_MARKER : text := chars_of "...[truncated]".
Definition TARGET_ALLOWANCE : Z := 128.

(** [str::is_char_boundary]. *)
Definition is_char_boundary (t : text) (i : nat) : bool :=
  match i with
  | O => true
  | _ => match t !! i with
         | Some b => negb (is_cont b)
         | None => (i =? length t)%nat
         end
  end.

(** [while !text.is_char_boundary(keep) { keep -= 1 }]. *)
Fixpoint floor_boundary (t : text) (keep : nat) : nat :=
  match keep with
  | O => O
  | S keep' => if is_char_boundary t keep then keep else floor_boundary t keep'
  end.

Definition truncate_to (t : text) (budget : Z) : text * bool :=
  if len t <=? budget then (t, false)
  else
    let keep := floor_boundary t (Z.to_nat (sat_sub budget (len TRUNCATION_MARKER))) in
    let t := take keep t in
    (if len TRUNCATION_MARKER <=? budget then t ++ TRUNCATION_MARKER else t, true).

(** What the gate counts. *)
Inductive LogEv : Type :=
| LRateDropped (channel : LogChannel)
| LTruncated (channel : LogChannel)
| LFieldsDropped (channel : LogChannel) (n : Z)
| LFiltered (channel : LogChannel).

(** [String::from_utf8_lossy]: each maximal ill-formed prefix becomes U+FFFD. *)
Definition REPLACEMENT : text := [239; 191; 189].

Definition second3 (b b1 : Z) : bool :=
  is_cont b1 && negb ((b =? 224) && (b1 <? 160)) && negb ((b =? 237) && (159 <? b1)).
Definition second4 (b b1 : Z) : bool :=
  is_cont b1 && negb ((b =? 240) && (b1 <? 144)) && negb ((b =? 244) && (143 <? b1)).

Fixpoint from_utf8_lossy (bs : list Z) : text :=
  match bs with
  | [] => []
  | b :: rest =>
      if (0 <=? b) && (b <? 128) then b :: from_utf8_lossy rest
      else if (194 <=? b) && (b <=? 223) then
        match rest with
        | b1 :: rest1 => if is_cont b1 then b :: b1 :: from_utf8_lossy rest1
                         else REPLACEMENT ++ from_utf8_lossy rest
        | [] => REPLACEMENT
        end
      else if (224 <=? b) && (b <=? 239) then
        match rest with
        | b1 :: rest1 =>
            if second3 b b1 then
              match rest1 with
              | b2 :: rest2 => if is_cont b2 then b :: b1 :: b2 :: from_utf8_lossy rest2
                               else REPLACEMENT ++ from_utf8_lossy rest1
              | [] => REPLACEMENT
              end
            else REPLACEMENT ++ from_utf8_lossy rest
        | [] => REPLACEMENT
        end
      else if (240 <=? b) && (b <=? 244) then
        match rest with
        | b1 :: rest1 =>
            if second4 b b1 then
              match rest1 with
              | b2 :: rest2 =>
                  if is_cont b2 then
                    match rest2 with
                    | b3 :: rest3 => if is_cont b3 then b :: b1 :: b2 :: b3 :: from_utf8_lossy rest3
                                     else REPLACEMENT ++ from_utf8_lossy rest2
                    | [] => REPLACEMENT
                    end
                  else REPLACEMENT ++ from_utf8_lossy rest1
              | [] => REPLACEMENT
              end
            else REPLACEMENT ++ from_utf8_lossy rest
        | [] => REPLACEMENT
        end
      else REPLACEMENT ++ from_utf8_lossy rest
  end.

Section Gate.
(** [f64]'s [Display]. *)
Context (float_text : Z -> text).
Context {B : Type} `{RateLimiter B}.

Definition value_text (v : LogValue) : text :=
  match v with
  | VText t => t
  | VUnsigned n => decimal n
  | VSigned n => if n <? 0 then chars_of "-" ++ decimal (- n) else decimal n
  | VFloat bits => float_text bits
  | VBoolean b => if b then chars_of "true" else chars_of "false"
  end.

Definition rendered_len (f : LogField) : Z := len f.(field_name) + len (value_text f.(field_value)) + 2.

Definition wire_bytes (r : LogRecord) : Z :=
  len r.(message) + source_cost r.(source) + sumZ (rendered_len <$> r.(fields)).

(** [key=value] pairs joined by spaces, for the host event. *)
Definition render_pair (f : LogField) : text :=
  f.(field_name) ++ chars_of "=" ++ value_text f.(field_value).

Definition render_fields (fs : list LogField) : option text :=
  match fs with
  | [] => None
  | first :: rest =>
      Some (fold_left (fun line f => line ++ chars_of " " ++ render_pair f) rest (render_pair first))
  end.

(** Fields yielded last first; the argument is the list reversed. *)
Fixpoint yield_fields (cap total : Z) (dropped : Z) (rev : list LogField) : list LogField * Z * Z :=
  match rev with
  | f :: rest => if cap <? total then yield_fields cap (total - rendered_len f) (dropped + 1) rest
                 else (rev, total, dropped)
  | [] => ([], total, dropped)
  end.

(** The call site goes next. *)
Definition drop_call_site (cap total : Z) (r : LogRecord) : LogRecord * Z * bool :=
  match r.(source).(file) with
  | Some file =>
      if cap <? total
      then (mkRecord r.(rec_run) r.(rec_ts) r.(rec_channel) r.(rec_level) r.(message)
              (mkLogSource r.(source).(target) None None) r.(fields), total - len file, true)
      else (r, total, false)
  | None => (r, total, false)
  end.

(** Then the message, then the target. *)
Definition shorten_text (cap : Z) (r : LogRecord) : LogRecord * bool :=
  let reserved := Z.min (Z.min (len r.(source).(target)) TARGET_ALLOWANCE) cap in
  let (message, cut1) := truncate_to r.(message) (cap - reserved) in
  let spare := cap - len message in
  let (target, cut2) := truncate_to r.(source).(target) (Z.min spare TARGET_ALLOWANCE) in
  (mkRecord r.(rec_run) r.(rec_ts) r.(rec_channel) r.(rec_level) message
     (mkLogSource target r.(source).(file) r.(source).(line)) r.(fields), cut1 || cut2).

(** Size only: what [LogBounds::admit] does once a token was spent. *)
Definition fit (cap : Z) (r : LogRecord) : LogRecord * bool * Z :=
  let '(rev, total, dropped) := yield_fields cap (wire_bytes r) 0 (reverse r.(fields)) in
  let r := mkRecord r.(rec_run) r.(rec_ts) r.(rec_channel) r.(rec_level) r.(message) r.(source) (reverse rev) in
  let '(r, total, shortened) := drop_call_site cap total r in
  if cap <? total then
    let (r, cut) := shorten_text cap r in (r, shortened || cut, dropped)
  else (r, shortened, dropped).

Record LogBounds : Type := mkBounds { bounds_policy : LogBoundsPolicy; bounds_rate : B }.

Definition bounds_admit (b : LogBounds) (r : LogRecord) (now : Z) : option LogRecord * LogBounds * list LogEv :=
  let (ok, rate) := try_acquire b.(bounds_rate) now in
  let b := mkBounds b.(bounds_policy) rate in
  if ok : bool then
    let '(r, shortened, dropped) := fit b.(bounds_policy).(max_record_bytes) r in
    (Some r, b,
     (if shortened : bool then [LTruncated r.(rec_channel)] else [])
     ++ (if 0 <? dropped then [LFieldsDropped r.(rec_channel) dropped] else []))
  else (None, b, [LRateDropped r.(rec_channel)]).

(** ** The filter *)

Definition route (filter : LogFilterPolicy) (router : LogRouter) (b : LogBounds) (r : LogRecord) (now : Z)
    : LogRouter * LogBounds * list LogEv :=
  match verdict filter r.(rec_level) r.(source).(target) with
  | VDrop => (router, b, [LFiltered r.(rec_channel)])
  | v =>
      match bounds_admit b r now with
      | (None, b, evs) => (router, b, evs)
      | (Some r, b, evs) =>
          (match v with VEmit => router_record router r | _ => router_retain router r end, b, evs)
      end
  end.

(** ** Line capture *)

(** [SystemTime::now] and [Instant::now], read from a clock. *)
Context {K : Type} (tick : K -> Z * Z * K).

(** What every capture point of a run shares. *)
Record Sink : Type := mkSink {
  sk_router : LogRouter;
  sk_bounds : LogBounds;
  sk_clock : K;
  sk_events : list LogEv
}.

Record LineWriter : Type := mkWriter {
  w_filter : LogFilterPolicy;
  w_run : RunId;
  w_channel : LogChannel;
  buf : list Z
}.

Definition level_for (c : LogChannel) : Level := match c with Stderr => LWarn | _ => LInfo end.

(** [bytes.strip_suffix(b"\r").unwrap_or(bytes)]. *)
Definition strip_cr (bytes : list Z) : list Z :=
  match reverse bytes with 13 :: rest => reverse rest | _ => bytes end.

(** [LineWriter::route]. *)
Definition line_route (w : LineWriter) (bytes : list Z) (s : Sink) : Sink :=
  match strip_cr bytes with
  | [] => s
  | bytes =>
      let '(ts, now, k) := tick s.(sk_clock) in
      let record := mkRecord w.(w_run) ts w.(w_channel) (level_for w.(w_channel))
                      (from_utf8_lossy bytes) LogSource_default [] in
      let '(router, bounds, evs) := route w.(w_filter) s.(sk_router) s.(sk_bounds) record now in
      mkSink router bounds k (s.(sk_events) ++ evs)
  end.

Definition with_buf (w : LineWriter) (b : list Z) : LineWriter :=
  mkWriter w.(w_filter) w.(w_run) w.(w_channel) b.

(** The loop over complete lines. *)
Fixpoint drain_lines (fuel : nat) (w : LineWriter) (s : Sink) : LineWriter * Sink :=
  match fuel, split_once 10 w.(buf) with
  | S fuel, Some (line, rest) => drain_lines fuel (with_buf w rest) (line_route w line s)
  | _, _ => (w, s)
  end.

Definition drain (w : LineWriter) (s : Sink) : LineWriter * Sink :=
  let (w, s) := drain_lines (length w.(buf)) w s in
  if s.(sk_bounds).(bounds_policy).(max_record_bytes) <? len w.(buf)
  then (with_buf w [], line_route w w.(buf) s)
  else (w, s).

Definition flush_remainder (w : LineWriter) (s : Sink) : LineWriter * Sink :=
  match w.(buf) with
  | [] => (w, s)
  | rest => (with_buf w [], line_route w rest s)
  end.

Definition poll_write (w : LineWriter) (s : Sink) (data : list Z) : LineWriter * Sink :=
  drain (with_buf w (w.(buf) ++ data)) s.
Definition poll_flush (w : LineWriter) (s : Sink) : LineWriter * Sink := (w, s).
Definition poll_shutdown (w : LineWriter) (s : Sink) : LineWriter * Sink := flush_remainder w s.
Definition drop_writer (w : LineWriter) (s : Sink) : Sink := (flush_remainder w s).2.
End Gate.


(** ** UTF-8: one character at a time *)

(** The bytes of one character. *)
Definition utf8_char (c : list Z) : bool :=
  match c with
  | [b] => (0 <=? b) && (b <? 128)
  | [b; b1] => (194 <=? b) && (b <=? 223) && is_cont b1
  | [b; b1; b2] => (224 <=? b) && (b <=? 239) && second3 b b1 && is_cont b2
  | [b; b1; b2; b3] => (240 <=? b) && (b <=? 244) && second4 b b1 && is_cont b2 && is_cont b3
  | _ => false
  end.

Ltac bool_hyps :=
  repeat match goal with
  | H : (_ && _) = true |- _ => apply andb_true_iff in H as [? ?]
  | H : (_ <=? _) = true |- _ => apply Z.leb_le in H
  | H : (_ <? _) = true |- _ => apply Z.ltb_lt in H
  end.

Ltac use_bools := repeat match goal with H : ?x = true |- context [?x] => rewrite H end.

Ltac skip_tests :=
  repeat match goal with
  | |- context [(?a <=? ?b)] => first
      [rewrite (proj2 (Z.leb_le a b)) by lia | rewrite (proj2 (Z.leb_gt a b)) by lia]
  | |- context [(?a <? ?b)] => first
      [rewrite (proj2 (Z.ltb_lt a b)) by lia | rewrite (proj2 (Z.ltb_ge a b)) by lia]
  end.

Lemma utf8_char_app c rest : utf8_char c = true -> utf8_valid (c ++ rest) = utf8_valid rest.
Proof.
  unfold utf8_char. intros Hc. destruct c as [|b [|b1 [|b2 [|b3 [|? ?]]]]]; try done; bool_hyps; cbn [app utf8_valid].
  - by skip_tests.
  - skip_tests. cbn [andb]. by use_bools.
  - unfold second3 in *. bool_hyps. skip_tests. cbn [andb]. by use_bools.
  - unfold second4 in *. bool_hyps. skip_tests. cbn [andb]. by use_bools.
Qed.

Lemma utf8_valid_inv t :
  utf8_valid t = true -> t = [] \/ exists c rest, t = c ++ rest /\ utf8_char c = true /\ utf8_valid rest = true.
Proof.
  destruct t as [|b rest]; [by left|]. intros Hv. right. cbn [utf8_valid] in Hv.
  destruct (_ && _) eqn:E1; [by exists [b], rest|].
  destruct (_ && _) eqn:E2 in Hv.
  { destruct rest as [|b1 rest]; [done|]. bool_hyps. exists [b; b1], rest. cbn [utf8_char]. skip_tests. by use_bools. }
  destruct (_ && _) eqn:E3 in Hv.
  { destruct rest as [|b1 [|b2 rest]]; [done..|]. bool_hyps. exists [b; b1; b2], rest.
    cbn [utf8_char]. unfold second3. skip_tests. by use_bools. }
  destruct (_ && _) eqn:E4 in Hv; [|done].
  destruct rest as [|b1 [|b2 [|b3 rest]]]; [done..|]. bool_hyps. exists [b; b1; b2; b3], rest.
  cbn [utf8_char]. unfold second4. skip_tests. by use_bools.
Qed.

Lemma utf8_ind (P : list Z -> Prop) :
  P [] -> (forall c rest, utf8_char c = true -> utf8_valid rest = true -> P rest -> P (c ++ rest)) ->
  forall t, utf8_valid t = true -> P t.
Proof.
  intros H0 Hs t. induction t as [t IH] using (induction_ltof1 _ length); unfold ltof in IH.
  intros [->|(c & rest & -> & Hc & Hr)]%utf8_valid_inv; [done|].
  apply Hs; [done..|]. apply IH; [|done]. rewrite length_app. destruct c; [done|cbn; lia].
Qed.

Lemma utf8_valid_app a b : utf8_valid a = true -> utf8_valid b = true -> utf8_valid (a ++ b) = true.
Proof.
  intros Ha Hb. revert a Ha. apply utf8_ind; [done|].
  intros c rest Hc _ IH. by rewrite <- (assoc_L (++)), utf8_char_app.
Qed.

(** Inside a character no position is a boundary. *)
Lemma inside_char c rest k :
  utf8_char c = true -> (0 < k < length c)%nat -> is_char_boundary (c ++ rest) k = false.
Proof.
  unfold utf8_char, is_char_boundary. intros Hc Hk.
  destruct c as [|b [|b1 [|b2 [|b3 [|? ?]]]]]; try done; unfold second3, second4 in Hc; bool_hyps; cbn in Hk;
    destruct k as [|[|[|[|k]]]]; try lia; cbn; by use_bools.
Qed.

Lemma boundary_shift c rest k :
  c <> [] -> is_char_boundary (c ++ rest) (length c + k) = true -> is_char_boundary rest k = true.
Proof.
  intros Hc. unfold is_char_boundary. destruct (length c + k)%nat as [|n] eqn:E; [destruct c; done|].
  rewrite <- E, lookup_app_r, length_app by lia. replace (length c + k - length c)%nat with k by lia.
  destruct k as [|k]; [done|]. destruct (rest !! S k); [done|].
  rewrite !Nat.eqb_eq. lia.
Qed.

Lemma take_boundary t : utf8_valid t = true ->
  forall k, is_char_boundary t k = true -> utf8_valid (take k t) = true.
Proof.
  revert t. apply (utf8_ind (fun t => forall k, is_char_boundary t k = true -> utf8_valid (take k t) = true)).
  - intros k _. by rewrite take_nil.
  - intros c rest Hc Hr IH k Hk. destruct (decide (k = O)) as [->|Hk0]; [done|].
    destruct (decide (k < length c)%nat) as [Hlt|Hge].
    + rewrite inside_char in Hk by (done || lia). done.
    + replace k with (length c + (k - length c))%nat in * by lia.
      rewrite take_app_add'; [|done]. rewrite utf8_char_app by done. apply IH.
      apply (boundary_shift c); [by destruct c|done].
Qed.

(** ** Truncation *)

Lemma sumZ_cons x l : sumZ (x :: l) = x + sumZ l.
Proof. done. Qed.

Lemma floor_boundary_spec t keep :
  is_char_boundary t (floor_boundary t keep) = true /\ (floor_boundary t keep <= keep)%nat.
Proof.
  induction keep as [|keep [IH1 IH2]]; [done|]. cbn [floor_boundary].
  destruct (is_char_boundary t (S keep)) eqn:E; [done|]. split; [done|lia].
Qed.

Lemma len_app a b : len (a ++ b) = len a + len b.
Proof. unfold len. rewrite length_app. lia. Qed.

Lemma len_take n t : len (take n t) <= Z.of_nat n.
Proof. unfold len. rewrite length_take. lia. Qed.

Lemma truncate_to_spec t budget :
  0 <= budget ->
  len (truncate_to t budget).1 <= budget /\
  (len t <= budget -> truncate_to t budget = (t, false)) /\
  (utf8_valid t = true -> utf8_valid (truncate_to t budget).1 = true) /\
  len (truncate_to t budget).1 <= Z.max budget (len t).
Proof.
  intros Hb. unfold truncate_to. destruct (Z.leb_spec (len t) budget) as [Hle|Hgt]; [cbn; split_and!; [lia|done|done|lia]|].
  set (keep := floor_boundary _ _). destruct (floor_boundary_spec t (Z.to_nat (sat_sub budget (len TRUNCATION_MARKER)))) as [Hbd Hle].
  fold keep in Hbd, Hle. pose proof (len_take keep t). unfold sat_sub in Hle.
  assert (len (take keep t) <= sat_sub budget (len TRUNCATION_MARKER)) as Hlen by (unfold sat_sub; lia).
  unfold sat_sub in Hlen.
  assert (len (if len TRUNCATION_MARKER <=? budget then take keep t ++ TRUNCATION_MARKER else take keep t) <= budget) as Hfit.
  { destruct (Z.leb_spec (len TRUNCATION_MARKER) budget); [rewrite len_app|]; lia. }
  cbn [fst]. split_and!; [done|lia| |lia].
  intros Hv. pose proof (take_boundary t Hv keep Hbd).
  destruct (_ <=? budget); [by apply utf8_valid_app|done].
Qed.

Section Fitting.
Context (float_text : Z -> text).
#[local] Notation rendered_len := (rendered_len float_text).
#[local] Notation wire_bytes := (wire_bytes float_text).
#[local] Notation fit := (fit float_text).

Lemma rendered_len_nonneg f : 0 <= rendered_len f.
Proof. unfold LogGate.rendered_len. pose proof (len_nonneg f.(field_name)). pose proof (len_nonneg (value_text float_text f.(field_value))). lia. Qed.

Lemma yield_fields_spec cap total dropped rev :
  exists gone kept total',
    yield_fields float_text cap total dropped rev = (kept, total', dropped + Z.of_nat (length gone)) /\
    rev = gone ++ kept /\ total' = total - sumZ (rendered_len <$> gone) /\
    (total' <= cap \/ kept = []) /\ (total <= cap -> gone = []).
Proof.
  revert total dropped. induction rev as [|f rev IH]; intros total dropped; cbn [yield_fields].
  - exists [], [], total. split_and!; [f_equal; cbn [length]; lia|done|symmetry; apply Z.sub_0_r|by right|done].
  - destruct (Z.ltb_spec cap total) as [Hlt|Hge].
    + destruct (IH (total - rendered_len f) (dropped + 1)) as (gone & kept & t' & -> & -> & Ht & Hor & _).
      exists (f :: gone), kept, t'. split_and!.
      * f_equal. cbn [length]. lia.
      * done.
      * rewrite Ht, fmap_cons. rewrite sumZ_cons. lia.
      * done.
      * lia.
    + exists [], (f :: rev), total. split_and!; [f_equal; cbn [length]; lia|done|symmetry; apply Z.sub_0_r|left; lia|done].
Qed.

Lemma sumZ_reverse l : sumZ (reverse l) = sumZ l.
Proof.
  induction l as [|x l IH]; [done|]. rewrite reverse_cons, sumZ_app, IH, !sumZ_cons. change (sumZ []) with 0. lia.
Qed.

(** The console line of a record's fields is within what the cap charged for them. *)
Lemma render_fields_len fs :
  default 0 (len <$> render_fields float_text fs) <= sumZ (rendered_len <$> fs).
Proof.
  destruct fs as [|f fs]; [done|]. cbn [render_fields fmap option_fmap option_map default from_option].
  assert (forall f, len (render_pair float_text f) = rendered_len f - 1) as Hp.
  { intros g. unfold render_pair, LogGate.rendered_len. rewrite !len_app. change (len (chars_of "=")) with 1. lia. }
  assert (forall line, len (fold_left (fun line f => line ++ chars_of " " ++ render_pair float_text f) fs line)
            = len line + sumZ (rendered_len <$> fs)) as Hfold.
  { induction fs as [|g fs IH]; intros line; [symmetry; apply Z.add_0_r|]. cbn [fold_left].
    rewrite IH, !len_app, Hp, fmap_cons, sumZ_cons. change (len (chars_of " ")) with 1. lia. }
  rewrite Hfold, Hp, fmap_cons, sumZ_cons. unfold id. lia.
Qed.

Lemma source_cost_eq s : source_cost s = len s.(target) + match s.(file) with Some f => len f | None => 0 end.
Proof. unfold source_cost. by destruct s.(file). Qed.

(** What no stage changes. *)
Definition stamp (r : LogRecord) : RunId * Z * LogChannel * Level :=
  (r.(rec_run), r.(rec_ts), r.(rec_channel), r.(rec_level)).

(** What every stage keeps of the text. *)
Record keeps (r r' : LogRecord) : Prop := {
  keeps_stamp : stamp r' = stamp r;
  keeps_message : utf8_valid r.(message) = true -> utf8_valid r'.(message) = true;
  keeps_target : utf8_valid r.(source).(target) = true -> utf8_valid r'.(source).(target) = true
}.

Lemma keeps_refl r : keeps r r.
Proof. done. Qed.

Lemma keeps_trans r1 r2 r3 : keeps r1 r2 -> keeps r2 r3 -> keeps r1 r3.
Proof. intros [? ? ?] [? ? ?]. split; [congruence|auto..]. Qed.

Lemma fit_fields cap r :
  exists kept gone total,
    yield_fields float_text cap (wire_bytes r) 0 (reverse r.(fields)) = (reverse kept, total, Z.of_nat (length gone)) /\
    r.(fields) = kept ++ gone /\
    total = len r.(message) + source_cost r.(source) + sumZ (rendered_len <$> kept) /\
    (total <= cap \/ kept = []) /\ (wire_bytes r <= cap -> gone = []).
Proof.
  destruct (yield_fields_spec cap (wire_bytes r) 0 (reverse r.(fields)))
    as (gone & kept & t' & -> & Hrev & Ht & Hor & Hsmall).
  assert (r.(fields) = reverse kept ++ reverse gone) as Hf.
  { by rewrite <- reverse_app, <- Hrev, reverse_involutive. }
  exists (reverse kept), (reverse gone), t'. rewrite reverse_involutive, length_reverse, Z.add_0_l.
  split_and!; [done|done| | |].
  - rewrite Ht. unfold LogGate.wire_bytes. rewrite Hf, fmap_app, sumZ_app, !fmap_reverse, !sumZ_reverse. lia.
  - destruct Hor as [?| ->]; [by left|by right].
  - intros Hle. by rewrite (Hsmall Hle).
Qed.

Lemma drop_call_site_spec cap r :
  let '(r', total, dropped) := drop_call_site cap (wire_bytes r) r in
  total = wire_bytes r' /\ r'.(fields) = r.(fields) /\ keeps r r' /\
  (wire_bytes r <= cap -> r' = r /\ dropped = false) /\ (total <= cap \/ r'.(source).(file) = None).
Proof.
  unfold drop_call_site. destruct (file _) as [f|] eqn:Ef; [|split_and!; try done; by right].
  destruct (Z.ltb_spec cap (wire_bytes r)) as [Hlt|Hge].
  - split_and!; try done; [|lia|by right]. unfold LogGate.wire_bytes. rewrite !source_cost_eq, Ef. cbn [message source target file fields]. lia.
  - split_and!; try done; by left.
Qed.

Lemma shorten_text_spec cap r :
  0 <= cap -> r.(source).(file) = None -> r.(fields) = [] ->
  let r' := (shorten_text cap r).1 in
  wire_bytes r' <= cap /\ r'.(fields) = [] /\ keeps r r'.
Proof.
  intros Hcap Hfile Hfs. unfold shorten_text. set (reserved := Z.min _ cap).
  assert (0 <= reserved <= cap) as Hres
    by (unfold reserved, TARGET_ALLOWANCE; pose proof (len_nonneg r.(source).(target)); lia).
  destruct (truncate_to_spec r.(message) (cap - reserved) ltac:(lia)) as (Hm & _ & Hmv & _).
  destruct (truncate_to r.(message) _) as [m cut1]. cbn in Hm, Hmv.
  destruct (truncate_to_spec r.(source).(target) (Z.min (cap - len m) TARGET_ALLOWANCE)
              ltac:(unfold TARGET_ALLOWANCE; lia)) as (Ht & _ & Htv & _).
  destruct (truncate_to r.(source).(target) _) as [t cut2]. cbn in Ht, Htv. cbn [fst fields].
  split_and!; [|done|by split].
  unfold LogGate.wire_bytes. rewrite source_cost_eq. cbn [message source target file fields].
  rewrite Hfile, Hfs. change (sumZ _) with 0. lia.
Qed.

Lemma fit_spec cap r :
  0 <= cap ->
  let '(r', shortened, dropped) := fit cap r in
  wire_bytes r' <= cap /\
  (exists gone, r.(fields) = r'.(fields) ++ gone /\ dropped = Z.of_nat (length gone)) /\
  (wire_bytes r <= cap -> r' = r /\ shortened = false) /\ keeps r r'.
Proof.
  intros Hcap. unfold LogGate.fit.
  destruct (fit_fields cap r) as (kept & gone & total & -> & Hf & Ht & Hor & Hsmall).
  rewrite reverse_involutive.
  set (r1 := mkRecord _ _ _ _ _ _ _). assert (total = wire_bytes r1) as -> by done.
  assert (keeps r r1) as Hk1 by done.
  assert (wire_bytes r <= cap -> r1 = r) as Hr1.
  { intros Hle. rewrite (Hsmall Hle), app_nil_r in Hf. unfold r1. rewrite <- Hf. by destruct r. }
  pose proof (drop_call_site_spec cap r1) as Hd.
  destruct (drop_call_site _ _ _) as [[r2 t2] sh]. destruct Hd as (-> & Hf2 & Hk2 & Hs2 & Hor2).
  destruct (Z.ltb_spec cap (wire_bytes r2)) as [Hlt|Hge].
  - assert (~ wire_bytes r1 <= cap) as Hbig by (intros Hle; destruct (Hs2 Hle) as [-> _]; lia).
    assert (r2.(fields) = []) as Hnil by (rewrite Hf2; by destruct Hor as [?| ->]).
    destruct Hor2 as [?|Hfile]; [lia|].
    destruct (shorten_text_spec cap r2 Hcap Hfile Hnil) as (Hw & Hf3 & Hk3).
    destruct (shorten_text cap r2) as [r3 cut]. cbn in Hw, Hf3, Hk3.
    split_and!; [done| | |by eauto using keeps_trans].
    + exists gone. rewrite Hf3, <- Hnil, Hf2. done.
    + intros Hle. destruct Hbig. by rewrite (Hr1 Hle).
  - split_and!; [done| | |by eauto using keeps_trans].
    + exists gone. by rewrite Hf2.
    + intros Hle. rewrite (Hr1 Hle) in Hs2. auto.
Qed.

(** What the gate lets through is within the operator's byte cap, and so is
    the line the console writes for it. The fields kept are the first ones, in order,
    and the count reported is of those dropped; a record already within the cap is
    untouched; truncated text is still well-formed UTF-8; the run, time, channel and
    level never change. *)
Theorem admitted_record_fits (cap : Z) (r : LogRecord) :
  0 <= cap ->
  let '(r', shortened, dropped) := fit cap r in
  wire_bytes r' <= cap /\
  len r'.(message) + len r'.(source).(target) + default 0 (len <$> render_fields float_text r'.(fields)) <= cap /\
  (exists gone, r.(fields) = r'.(fields) ++ gone /\ dropped = Z.of_nat (length gone)) /\
  (wire_bytes r <= cap -> r' = r /\ shortened = false) /\
  keeps r r'.
Proof.
  intros Hcap. pose proof (fit_spec cap r Hcap) as Hspec.
  destruct (fit cap r) as [[r' shortened] dropped]. destruct Hspec as (Hw & Hrest).
  split_and!; [done| |apply Hrest..].
  pose proof (render_fields_len r'.(fields)). unfold LogGate.wire_bytes in Hw.
  rewrite source_cost_eq in Hw. destruct (file _) as [f|]; [pose proof (len_nonneg f)|]; lia.
Qed.
End Fitting.

(** ** Captured output *)

Section Capture.
Context (float_text : Z -> text).
Context {B : Type} `{RateLimiter B} {K : Type} (tick : K -> Z * Z * K).
#[local] Notation line_route := (line_route float_text tick).
#[local] Notation drain_lines := (drain_lines float_text tick).
#[local] Notation poll_write := (poll_write float_text tick).
#[local] Notation poll_shutdown := (poll_shutdown float_text tick).
#[local] Notation cap s := (s.(sk_bounds).(bounds_policy).(max_record_bytes)).

(** The pieces of output handed to [route], each with whether a newline ended it. *)
Notation pieces := (list (list Z * bool)).

Definition unpiece (ps : pieces) : list Z := flat_map (fun p => p.1 ++ if p.2 : bool then [10] else []) ps.

Definition route_all (w : LineWriter) (ps : list (list Z)) (s : Sink) : Sink :=
  fold_left (fun s p => line_route w p s) ps s.

Definition write_all (w : LineWriter) (s : Sink) (chunks : list (list Z)) : LineWriter * Sink :=
  fold_left (fun ws data => poll_write ws.1 ws.2 data) chunks (w, s).

Lemma route_keeps_policy filter router b r now :
  (route float_text filter router b r now).1.2.(bounds_policy) = b.(bounds_policy).
Proof.
  unfold route, bounds_admit. destruct (verdict _ _ _); [done|..];
    (destruct (try_acquire _ _) as [[] ?]; [destruct (fit _ _ _) as [[? ?] ?]|]; done).
Qed.

Lemma line_route_cap w p s : cap (line_route w p s) = cap s.
Proof.
  unfold LogGate.line_route. destruct (strip_cr p); [done|].
  destruct (tick _) as [[ts now] k]. pose proof (route_keeps_policy w.(w_filter) s.(sk_router) s.(sk_bounds)) as Hp.
  match goal with |- context [route ?a ?b ?c ?d ?e ?f] => specialize (Hp e f) end.
  destruct (route _ _ _ _ _ _) as [[router bounds] evs]. cbn in *. by rewrite Hp.
Qed.

Lemma line_route_buf w b p s : line_route (with_buf w b) p s = line_route w p s.
Proof. done. Qed.

Lemma route_all_buf w b ps s : route_all (with_buf w b) ps s = route_all w ps s.
Proof. done. Qed.

Lemma route_all_cap w ps s : cap (route_all w ps s) = cap s.
Proof.
  unfold route_all. revert s. induction ps as [|p ps IH]; intros s; [done|]. cbn. by rewrite IH, line_route_cap.
Qed.

Lemma route_all_app w ps qs s : route_all w (ps ++ qs) s = route_all w qs (route_all w ps s).
Proof. apply fold_left_app. Qed.

Lemma unpiece_cons p ps : unpiece (p :: ps) = p.1 ++ (if p.2 : bool then [10] else []) ++ unpiece ps.
Proof. unfold unpiece. cbn [flat_map]. by rewrite (assoc_L (++)). Qed.

Lemma unpiece_app ps qs : unpiece (ps ++ qs) = unpiece ps ++ unpiece qs.
Proof. apply flat_map_app. Qed.

(** The loop takes every complete line off the front, with fuel for each byte. *)
Lemma drain_lines_spec fuel w s :
  (length w.(buf) <= fuel)%nat ->
  exists ps rest,
    drain_lines fuel w s = (with_buf w rest, route_all w ps s) /\
    w.(buf) = unpiece ((fun p => (p, true)) <$> ps) ++ rest /\
    10 ∉ rest /\ Forall (fun p => 10 ∉ p) ps.
Proof.
  revert w s. induction fuel as [|fuel IH]; intros w s Hf.
  - exists [], []. assert (w.(buf) = []) as E by (apply nil_length_inv; lia).
    split_and!; [destruct w; cbn in *; by subst|done|set_solver|done].
  - cbn [LogGate.drain_lines]. destruct (split_once 10 w.(buf)) as [[line rest]|] eqn:E.
    + apply split_once_Some in E as [Eb Hline].
      destruct (IH (with_buf w rest) (line_route w line s)) as (ps & rest' & -> & Hr & Hn & Hps).
      { cbn. rewrite Eb, length_app in Hf. cbn in Hf. lia. }
      exists (line :: ps), rest'. split_and!; [done| |done|by constructor].
      rewrite Eb. cbn [buf with_buf] in Hr. rewrite Hr, fmap_cons. cbn. by rewrite <- !(assoc_L (++)).
    + exists [], w.(buf). split_and!; [by destruct w|done| |done].
      intros Hin. apply list_elem_of_split_l in Hin as (a & b & Hab & Ha).
      rewrite Hab, split_once_app in E; done.
Qed.

(** A piece is a line without its newline, or an overlong run of bytes without one. *)
Definition well_cut (c : Z) (p : list Z * bool) : Prop := 10 ∉ p.1 /\ (p.2 = false -> c < len p.1).

Lemma poll_write_spec w s data :
  0 <= cap s ->
  exists ps rest,
    poll_write w s data = (with_buf w rest, route_all w ps.*1 s) /\
    w.(buf) ++ data = unpiece ps ++ rest /\
    10 ∉ rest /\ len rest <= cap s /\ Forall (well_cut (cap s)) ps.
Proof.
  intros Hcap. unfold LogGate.poll_write, drain.
  destruct (drain_lines_spec (length (with_buf w (w.(buf) ++ data)).(buf)) (with_buf w (w.(buf) ++ data)) s)
    as (ps & rest & -> & Hb & Hn & Hps); [done|]. cbn [buf with_buf] in *.
  assert (((fun p => (p, true)) <$> ps).*1 = ps) as Hfst by (rewrite <- list_fmap_compose; apply list_fmap_id).
  assert (Forall (well_cut (cap s)) ((fun p => (p, true)) <$> ps)) as Hcut.
  { apply Forall_fmap. eapply Forall_impl; [exact Hps|]. intros p Hp. by split. }
  rewrite route_all_cap. destruct (Z.ltb_spec (cap s) (len rest)) as [Hlt|Hge].
  - exists (((fun p => (p, true)) <$> ps) ++ [(rest, false)]), []. split_and!.
    + by rewrite fmap_app, Hfst, route_all_app.
    + rewrite Hb, unpiece_app, app_nil_r. f_equal. cbn. by rewrite !app_nil_r.
    + set_solver.
    + done.
    + apply Forall_app. split; [done|]. by apply Forall_singleton.
  - exists ((fun p => (p, true)) <$> ps), rest. rewrite Hfst. by split_and!.
Qed.

(** Over any sequence of writes: what was routed, and what is still buffered. *)
Lemma write_all_spec w s chunks :
  0 <= cap s -> 10 ∉ w.(buf) -> len w.(buf) <= cap s ->
  exists ps rest,
    write_all w s chunks = (with_buf w rest, route_all w ps.*1 s) /\
    w.(buf) ++ concat chunks = unpiece ps ++ rest /\
    10 ∉ rest /\ len rest <= cap s /\ Forall (well_cut (cap s)) ps.
Proof.
  intros Hcap. revert w s Hcap. induction chunks as [|data chunks IH]; intros w s Hcap Hn Hl.
  - exists [], w.(buf). split_and!; [by destruct w|by rewrite app_nil_r|done..].
  - unfold write_all. cbn [fold_left fst snd].
    destruct (poll_write_spec w s data Hcap) as (ps & rest & -> & Hb & Hn' & Hl' & Hps). cbn [fst snd].
    destruct (IH (with_buf w rest) (route_all w ps.*1 s)) as (ps' & rest' & Hw & Hb' & Hn2 & Hl2 & Hps2);
      rewrite ?route_all_cap; [done..|]. rewrite route_all_cap in Hl2, Hps2.
    exists (ps ++ ps'), rest'. split_and!; [|..|done|done|by apply Forall_app].
    + unfold write_all in Hw. rewrite Hw, fmap_app, route_all_app. done.
    + cbn [concat buf with_buf] in *.
      rewrite (assoc_L (++)), Hb, <- (assoc_L (++)), Hb', unpiece_app. by rewrite (assoc_L (++)).
Qed.

Lemma split_terminated ps rest :
  Forall (fun p => 10 ∉ p.1 /\ p.2 = true) ps -> 10 ∉ rest -> split 10 (unpiece ps ++ rest) = ps.*1 ++ [rest].
Proof.
  intros Hps Hr. induction Hps as [|[p t] ps [Hp Ht] _ IH].
  - by apply split_single.
  - cbn in Hp, Ht. subst t. rewrite unpiece_cons. cbn [fst snd]. rewrite <- !(assoc_L (++)). cbn [app].
    rewrite split_app, IH by done. done.
Qed.

Lemma split_head p b : 10 ∉ p -> exists x xs, split 10 (p ++ b) = x :: xs /\ len p <= len x.
Proof.
  intros Hp. induction p as [|c p IH]; cbn [app].
  - destruct b as [|c b]; cbn [split]; [by eexists _, _|].
    destruct (c =? 10); [by eexists _, _|]. destruct (split 10 b); eexists _, _; (split; [done|]); apply len_nonneg.
  - apply not_elem_of_cons in Hp as [Hc Hp]. cbn [split]. rewrite (proj2 (Z.eqb_neq c 10)) by congruence.
    destruct (IH Hp) as (x & xs & -> & Hl). exists (c :: x), xs. split; [done|].
    unfold len in *. cbn [length]. lia.
Qed.

(** A run of bytes without the separator lies within one of the parts. *)
Lemma split_contains a p b : 10 ∉ p -> exists x, x ∈ split 10 (a ++ p ++ b) /\ len p <= len x.
Proof.
  intros Hp. induction a as [|c a (x & Hx & Hl)]; cbn [app].
  - destruct (split_head p b Hp) as (x & xs & -> & Hl). exists x. split; [by left|done].
  - cbn [split]. destruct (c =? 10); [exists x; split; [by right|done]|].
    destruct (split 10 (a ++ p ++ b)) as [|y ys]; [by apply elem_of_nil in Hx|].
    apply elem_of_cons in Hx as [->|Hx].
    + exists (c :: y). split; [by left|]. unfold len in *. cbn [length]. lia.
    + exists x. split; [by right|done].
Qed.

Lemma all_terminated c ps rest :
  Forall (well_cut c) ps -> Forall (fun l => len l <= c) (split 10 (unpiece ps ++ rest)) ->
  Forall (fun p => 10 ∉ p.1 /\ p.2 = true) ps.
Proof.
  intros Hps Hsplit. apply Forall_forall. intros [p t] Hin.
  destruct (proj1 (Forall_forall _ _) Hps _ Hin) as [Hp Ht]. split; [done|]. destruct t; [done|].
  specialize (Ht eq_refl). cbn in *. apply list_elem_of_split in Hin as (ps1 & ps2 & ->).
  destruct (split_contains (unpiece ps1) p (unpiece ps2 ++ rest) Hp) as (x & Hx & Hl).
  rewrite unpiece_app, unpiece_cons, <- !(assoc_L (++)) in Hsplit. cbn [fst snd app] in Hsplit.
  pose proof (proj1 (Forall_forall _ _) Hsplit _ Hx). cbn in *. lia.
Qed.

Lemma flush_routes w s : (flush_remainder float_text tick w s).2 = line_route w w.(buf) s.
Proof. unfold flush_remainder. by destruct w.(buf) eqn:E. Qed.

(** Output is captured losslessly and in order, however it is chunked into
    writes. Every byte written is in a routed piece or still buffered; the buffer
    holds no complete line and never exceeds the record cap; a piece cut without a
    newline is longer than the cap; and when no line of the output is longer than
    the cap, the records left after shutdown are those of the output split at its
    newlines, whatever the chunks. *)
Theorem capture_is_chunk_invariant (w : LineWriter) (s : Sink) (chunks : list (list Z)) :
  0 <= cap s -> w.(buf) = [] ->
  (exists ps rest,
    write_all w s chunks = (with_buf w rest, route_all w ps.*1 s) /\ concat chunks = unpiece ps ++ rest /\
    10 ∉ rest /\ len rest <= cap s /\ Forall (well_cut (cap s)) ps) /\
  (Forall (fun l => len l <= cap s) (split 10 (concat chunks)) ->
   (let (w', s') := write_all w s chunks in (poll_shutdown w' s').2) = route_all w (split 10 (concat chunks)) s).
Proof.
  intros Hcap Hbuf.
  destruct (write_all_spec w s chunks Hcap) as (ps & rest & Hw & Hb & Hn & Hl & Hps);
    [rewrite Hbuf; set_solver|by rewrite Hbuf|]. rewrite Hbuf in Hb. cbn [app] in Hb.
  split; [by eauto 10|]. intros Hlines. rewrite Hb in Hlines |- *.
  rewrite split_terminated by eauto using all_terminated.
  rewrite Hw. unfold LogGate.poll_shutdown. rewrite flush_routes, route_all_app. done.
Qed.
End Capture.

(** ** Decoding *)

Lemma replacement_app t : utf8_valid (REPLACEMENT ++ t) = utf8_valid t.
Proof. by apply utf8_char_app. Qed.

(** A captured line is well-formed text, and text that already was is unchanged. *)
Lemma lossy_valid bs : utf8_valid (from_utf8_lossy bs) = true.
Proof.
  induction bs as [bs IH] using (induction_ltof1 _ length); unfold ltof in IH.
  destruct bs as [|b rest]; [done|]. cbn [from_utf8_lossy].
  assert (forall c t, utf8_char c = true -> (length t < length (b :: rest))%nat -> utf8_valid (c ++ from_utf8_lossy t) = true)
    as Hstep by (intros c t Hc Ht; rewrite utf8_char_app by done; by apply IH).
  cbn [length] in Hstep.
  destruct ((0 <=? b) && (b <? 128)) eqn:E1; [apply (Hstep [b]); [done|lia]|].
  destruct ((194 <=? b) && (b <=? 223)) eqn:E2.
  { destruct rest as [|b1 rest]; [done|]. destruct (is_cont b1) eqn:C1; [|apply Hstep; [done|cbn; lia]].
    apply (Hstep [b; b1]); [cbn [utf8_char]; by rewrite E2, C1|cbn; lia]. }
  destruct ((224 <=? b) && (b <=? 239)) eqn:E3.
  { destruct rest as [|b1 rest]; [done|]. destruct (second3 b b1) eqn:C1; [|apply Hstep; [done|cbn; lia]].
    destruct rest as [|b2 rest]; [done|]. destruct (is_cont b2) eqn:C2; [|apply Hstep; [done|cbn; lia]].
    apply (Hstep [b; b1; b2]); [cbn [utf8_char]; by rewrite E3, C1, C2|cbn; lia]. }
  destruct ((240 <=? b) && (b <=? 244)) eqn:E4; [|apply Hstep; [done|cbn; lia]].
  destruct rest as [|b1 rest]; [done|]. destruct (second4 b b1) eqn:C1; [|apply Hstep; [done|cbn; lia]].
  destruct rest as [|b2 rest]; [done|]. destruct (is_cont b2) eqn:C2; [|apply Hstep; [done|cbn; lia]].
  destruct rest as [|b3 rest]; [done|]. destruct (is_cont b3) eqn:C3; [|apply Hstep; [done|cbn; lia]].
  apply (Hstep [b; b1; b2; b3]); [cbn [utf8_char]; by rewrite E4, C1, C2, C3|cbn; lia].
Qed.

(** One step of the decoder. *)
Lemma lossy_step b rest :
  from_utf8_lossy (b :: rest) =
    ltac:(let t := eval cbn [from_utf8_lossy] in (from_utf8_lossy (b :: rest)) in exact t).
Proof. reflexivity. Qed.

Lemma lossy_char_app c rest : utf8_char c = true -> from_utf8_lossy (c ++ rest) = c ++ from_utf8_lossy rest.
Proof.
  unfold utf8_char. intros Hc.
  destruct c as [|b [|b1 [|b2 [|b3 [|? ?]]]]]; try done; bool_hyps; cbn [app]; rewrite lossy_step;
    skip_tests; cbn [andb]; cbv iota; by use_bools.
Qed.

Lemma lossy_id t : utf8_valid t = true -> from_utf8_lossy t = t.
Proof.
  revert t. apply utf8_ind; [done|]. intros c rest Hc _ IH. by rewrite lossy_char_app, IH.
Qed.

(** ** Examples *)

#[local] Instance counted : RateLimiter Z :=
  {| try_acquire b _ := if 0 <? b then (true, b - 1) else (false, b) |}.

Definition plain_filter : LogFilterPolicy := mkLogFilter LTrace LTrace ∅.
Definition bytes_of (n : nat) : text := replicate n 97.
Definition sink_of (tokens capacity : Z) : Sink :=
  mkSink (mkRouter [] (log_store_new (mkRetention 100000 4)))
    (mkBounds (mkLogBounds capacity (mkRate 10 10)) tokens) tt [].
Definition still (k : unit) : Z * Z * unit := (0, 0, k).
Definition stdout_writer : LineWriter := mkWriter plain_filter (run_of 0) Stdout [].

(** A line split across three writes is one record; the carriage return is dropped. *)
Example capture_examples :
  let out := write_all (fun _ => []) still stdout_writer (sink_of 5 64) [[104; 105]; [13]; [10; 120; 10; 10; 121]] in
  (message <$> out.2.(sk_router).(console_lines)) = [[104; 105]; [120]] /\ out.1.(buf) = [121] /\
  (message <$> (poll_shutdown (fun _ => []) still out.1 out.2).2.(sk_router).(console_lines)) = [[104; 105]; [120]; [121]].
Proof. split_and!; vm_compute; reflexivity. Qed.

(** The target is cut to the allowance although 290 bytes of the cap are spare. *)
Example allowance_is_a_ceiling :
  let r := mkRecord (run_of 0) 0 HostInterface LInfo (bytes_of 10) (mkLogSource (bytes_of 400) None None) [] in
  let '(r', _, _) := fit (fun _ => []) 300 r in
  (len r'.(message), len r'.(source).(target)) = (10, 128).
Proof. vm_compute. reflexivity. Qed.

Lemma admitted_record_fits_witness :
  let r := mkRecord (run_of 0) 0 HostInterface LInfo (bytes_of 40) (mkLogSource (bytes_of 9) (Some (bytes_of 30)) (Some 7))
             [mkField (bytes_of 3) (VUnsigned 17); mkField (bytes_of 4) (VBoolean true)] in
  0 <= 32 /\ wire_bytes (fun _ => []) (fit (fun _ => []) 32 r).1.1 <= 32.
Proof.
  intros r. split; [lia|]. pose proof (admitted_record_fits (fun _ => []) 32 r ltac:(lia)) as Hfit.
  destruct (fit _ _ _) as [[r' sh] d]. exact (proj1 Hfit).
Defined.

Lemma capture_is_chunk_invariant_witness :
  (let (w', s') := write_all (fun _ => []) still stdout_writer (sink_of 5 64) [[104; 105]; [13]; [10; 120; 10; 10; 121]] in
   (poll_shutdown (fun _ => []) still w' s').2)
  = route_all (fun _ => []) still stdout_writer (split 10 [104; 105; 13; 10; 120; 10; 10; 121]) (sink_of 5 64).
Proof.
  apply (proj2 (capture_is_chunk_invariant (fun _ => []) still stdout_writer (sink_of 5 64)
    [[104; 105]; [13]; [10; 120; 10; 10; 121]] ltac:(cbn; lia) eq_refl)).
  vm_compute. repeat constructor; discriminate.
Defined.
