(* ===== verification/StoreFormat.v ===== *)
(** * StoreFormat: the store's format stamp and its migrations

    crates/nexum-runtime-store/src/format.rs: opening a store file, refusing one
    stamped by a newer engine, and bringing an older one forward in the transaction
    that also writes the new stamp.

    redb is a dependency. The class [Redb] has the calls the code makes on a file;
    its laws say that a failed or aborted transaction and a repair leave the
    committed tables as they were. Any call may fail. *)

From stdpp Require Import prelude list gmap strings.
From Stdlib Require Import ZArith Lia.
From S2P Require Import Prelude LocalStore.

Local Open Scope Z_scope.
Local Open Scope rust_scope.

#[local] Arguments chars_of : simpl never.

(** ** The file *)

(** The tables of a committed database; [None] is a table that does not exist. *)
Record Tables (D : Type) : Type := mkTables {
  t_data : option D;
  t_meta : option (gmap text (list Z))
}.
Arguments mkTables {D} _ _.
Arguments t_data {D} _.
Arguments t_meta {D} _.

Inductive ReadOnlyOpen : Type := RoOpened | RoRepairAborted | RoFailed.

Class Redb (F D : Type) : Type := {
  (** [fs::metadata(path).is_ok_and(|file| file.len() > 0)]. *)
  has_bytes : F -> bool;
  view : F -> Tables D;
  empty_table : D;
  (** [ReadOnlyDatabase::open]. *)
  ro_open : F -> ReadOnlyOpen;
  (** [Database::create]: whether it opened, and the file it leaves. *)
  db_create : F -> bool * F;
  (** [txn.commit()] of a transaction that made the tables these. *)
  db_commit : F -> Tables D -> bool * F;
  (** Dropping a writable handle. *)
  db_drop : F -> F
}.

Class RedbLaws (F D : Type) `{Redb F D} : Prop := {
  no_bytes_no_tables (f : F) : has_bytes f = false -> view f = mkTables None None;
  create_keeps (f : F) : view (db_create f).2 = view f;
  commit_atomic (f : F) t : view (db_commit f t).2 = if (db_commit f t).1 then t else view f;
  drop_keeps (f : F) : view (db_drop f) = view f
}.

(** ** The format *)

Definition FORMAT_VERSION : Z := 1.
Definition FORMAT_VERSION_KEY : text := chars_of "format_version".

Inductive FormatFound : Type := Fresh | Unstamped | Stamped (version : Z).

#[export] Instance FormatFound_eq_dec : EqDecision FormatFound.
Proof. solve_decision. Defined.

Section Format.
Context {F D : Type} `{Redb F D}.

(** A step rewrites the tables of its transaction, or fails. *)
Definition MigrationStep : Type := Tables D -> option (Tables D).

Definition MIGRATIONS : list MigrationStep := [].

Record Format : Type := mkFormat { fmt_version : Z; fmt_steps : list MigrationStep }.

Definition ENGINE : Format := mkFormat FORMAT_VERSION MIGRATIONS.

(** [u32::to_le_bytes] and back. *)
Definition stamp_bytes (version : Z) : list Z := to_le_bytes 4 version.

Definition read_stamp (stamp : option (list Z)) : option Z :=
  match stamp ≫= decode_le 4 with
  | Some version => if version =? 0 then None else Some version
  | None => None
  end.

Definition read_found (faults : TxnFaults) (t : Tables D) : result FormatFound StorageError :=
  if begin_fails faults then Err STxn
  else if open_table_fails faults then Err STable
  else match t.(t_meta) with
       | Some meta =>
           if read_fails faults then Err SStorage
           else match read_stamp (meta !! FORMAT_VERSION_KEY) with
                | Some version => Ok (Stamped version)
                | None => Err SFormatStampUnreadable
                end
       | None =>
           match t.(t_data) with
           | Some _ => Ok Unstamped
           | None => Ok Fresh
           end
       end.

Definition refuse_newer (fmt : Format) (found : FormatFound) : result unit StorageError :=
  match found with
  | Stamped version =>
      if fmt.(fmt_version) <? version then Err (SFormatTooNew version fmt.(fmt_version)) else Ok tt
  | _ => Ok tt
  end.

(** The steps from [from] on, each numbered by the version it leaves. *)
Fixpoint run_steps (from : Z) (steps : list MigrationStep) (t : Tables D) : result (Tables D) StorageError :=
  match steps with
  | [] => Ok t
  | step :: steps =>
      match step t with
      | Some t => run_steps (from + 1) steps t
      | None => Err (SMigration from (from + 1))
      end
  end.

Definition migrate (fmt : Format) (from : Z) (t : Tables D) : result (Tables D) StorageError :=
  run_steps from (drop (Z.to_nat (sat_sub from 1)) fmt.(fmt_steps)) t.

(** A database to read, or [None] for one that must be created or repaired first. *)
Definition open_read_only (file : F) : result (option (Tables D)) StorageError :=
  if has_bytes file then
    match ro_open file with
    | RoOpened => Ok (Some (view file))
    | RoRepairAborted => Ok None
    | RoFailed => Err SOpen
    end
  else Ok None.

(** Which reads and writes fail. *)
Record OpenFaults : Type := mkOpenFaults { first_read : TxnFaults; second_read : TxnFaults; write : TxnFaults }.

Definition no_open_faults : OpenFaults := mkOpenFaults no_faults no_faults no_faults.

(** The refusal through the read-only handle. *)
Definition check_read_only (fmt : Format) (faults : OpenFaults) (file : F) : result unit StorageError :=
  let? ro := open_read_only file in
  match ro with
  | Some t => let? found := read_found faults.(first_read) t in refuse_newer fmt found
  | None => Ok tt
  end.

(** The tables the open-time transaction is about to commit. *)
Definition new_tables (fmt : Format) (found : FormatFound) (faults : TxnFaults) (t : Tables D)
    : result (Tables D) StorageError :=
  let? t :=
    match found with
    | Stamped version => migrate fmt version t
    | Unstamped => migrate fmt 1 t
    | Fresh =>
        if open_table_fails faults then Err STable
        else Ok (mkTables (Some (default empty_table t.(t_data))) t.(t_meta))
    end in
  if open_table_fails faults then Err STable
  else if write_fails faults then Err SStorage
  else Ok (mkTables t.(t_data) (Some (<[FORMAT_VERSION_KEY := stamp_bytes fmt.(fmt_version)]> (default ∅ t.(t_meta))))).

(** With the writable handle open: what it found, or the error, and the file left. *)
Definition open_writable (fmt : Format) (faults : OpenFaults) (file : F) : result FormatFound StorageError * F :=
  match read_found faults.(second_read) (view file) with
  | Err e => (Err e, db_drop file)
  | Ok found =>
      match refuse_newer fmt found with
      | Err e => (Err e, db_drop file)
      | Ok _ =>
          if bool_decide (found = Stamped fmt.(fmt_version)) then (Ok found, file)
          else if begin_fails faults.(write) then (Err STxn, db_drop file)
          else match new_tables fmt found faults.(write) (view file) with
               | Err e => (Err e, db_drop file)
               | Ok t =>
                   match db_commit file t with
                   | (true, file) => (Ok found, file)
                   | (false, file) => (Err SCommit, db_drop file)
                   end
               end
      end
  end.

Definition open (fmt : Format) (faults : OpenFaults) (file : F) : result FormatFound StorageError * F :=
  match check_read_only fmt faults file with
  | Err e => (Err e, file)
  | Ok _ =>
      match db_create file with
      | (true, file) => open_writable fmt faults file
      | (false, file) => (Err SOpen, file)
      end
  end.
End Format.

(** ** What an open does to a file *)

Section Opening.
Context {F D : Type} `{RedbLaws F D}.
#[local] Notation Format := (Format (D := D)).

(** The tables a successful open leaves, from those it found. *)
Definition upgraded (fmt : Format) (t t' : Tables D) : Prop :=
  exists found, read_found no_faults t = Ok found /\ refuse_newer fmt found = Ok tt /\
    ((found = Stamped fmt.(fmt_version) /\ t' = t) \/
     (found <> Stamped fmt.(fmt_version) /\ new_tables (F := F) fmt found no_faults t = Ok t')).

Lemma read_found_ok faults (t : Tables D) found :
  read_found faults t = Ok found -> read_found no_faults t = Ok found.
Proof. unfold read_found. destruct faults as [[] [] [] ? ?]; cbn; try done. by destruct (t_meta t). Qed.

Lemma new_tables_ok (fmt : Format) found faults t t' :
  new_tables (F := F) fmt found faults t = Ok t' -> new_tables (F := F) fmt found no_faults t = Ok t'.
Proof.
  unfold new_tables. destruct faults as [? [] ? [] ?]; cbn; destruct found; try done;
    by destruct (migrate _ _ _).
Qed.

Lemma open_writable_spec fmt faults file :
  match open_writable (F := F) (D := D) fmt faults file with
  | (Err _, file') => view file' = view file
  | (Ok found, file') => read_found no_faults (view file) = Ok found /\ upgraded fmt (view file) (view file')
  end.
Proof.
  unfold open_writable. destruct (read_found _ _) as [found|] eqn:Er; [|apply drop_keeps].
  apply read_found_ok in Er. destruct (refuse_newer _ _) as [[]|] eqn:En; [|apply drop_keeps].
  destruct (bool_decide_reflect (found = Stamped fmt.(fmt_version))) as [Heq|Hne].
  - split; [done|]. exists found. eauto.
  - destruct (begin_fails _); [apply drop_keeps|].
    destruct (new_tables _ _ _ _) as [t|] eqn:Et; [|apply drop_keeps]. apply new_tables_ok in Et.
    pose proof (commit_atomic file t) as Hc. destruct (db_commit file t) as [[] file']; cbn in Hc.
    + split; [done|]. exists found. rewrite Hc. eauto.
    + by rewrite drop_keeps.
Qed.

Lemma open_spec fmt faults file :
  match open (F := F) (D := D) fmt faults file with
  | (Err _, file') => view file' = view file
  | (Ok found, file') => read_found no_faults (view file) = Ok found /\ upgraded fmt (view file) (view file')
  end.
Proof.
  unfold open. destruct (check_read_only _ _ _); [|done].
  pose proof (create_keeps file) as Hk. destruct (db_create file) as [[] file']; cbn in Hk; [|done].
  pose proof (open_writable_spec fmt faults file') as Hw.
  destruct (open_writable _ _ _) as [[found|e] file2]; rewrite <- Hk; done.
Qed.

Lemma stamp_reads version : 0 < version <= u32_max -> read_stamp (Some (stamp_bytes version)) = Some version.
Proof.
  intros Hv. unfold read_stamp, stamp_bytes. cbn [mbind option_bind]. unfold decode_le.
  rewrite decide_True by apply length_to_le_bytes.
  rewrite from_to_le_bytes by (unfold u32_max in Hv; lia). by rewrite (proj2 (Z.eqb_neq version 0)) by lia.
Qed.

Lemma new_tables_stamp (fmt : Format) found t t' :
  0 < fmt.(fmt_version) <= u32_max -> new_tables (F := F) fmt found no_faults t = Ok t' ->
  read_found no_faults t' = Ok (Stamped fmt.(fmt_version)).
Proof.
  intros Hv. unfold new_tables. cbn [open_table_fails write_fails no_faults].
  destruct (match found with Fresh => _ | Unstamped => _ | Stamped v => _ end) as [t1|]; [|done].
  intros [= <-]. unfold read_found. cbn [begin_fails open_table_fails read_fails no_faults t_meta].
  by rewrite lookup_insert_eq, stamp_reads.
Qed.

Lemma upgraded_stamp (fmt : Format) t t' :
  0 < fmt.(fmt_version) <= u32_max -> upgraded fmt t t' -> read_found no_faults t' = Ok (Stamped fmt.(fmt_version)).
Proof.
  intros Hv (found & Hr & _ & [[-> ->]|[_ Hn]]); [done|]. by eapply new_tables_stamp.
Qed.

(** C27: opening is all or nothing. An error, whichever call failed and however far
    the migration had come, leaves the tables as they were; a success reports what
    was on disk and leaves either the same tables (already current) or those of the
    one transaction that ran the remaining steps and wrote the stamp, and the file
    then reads as stamped with the engine's version. *)
Theorem open_all_or_nothing (fmt : Format) (faults : OpenFaults) (file : F) :
  0 < fmt.(fmt_version) <= u32_max ->
  match open fmt faults file with
  | (Err _, file') => view file' = view file
  | (Ok found, file') =>
      read_found no_faults (view file) = Ok found /\ upgraded fmt (view file) (view file') /\
      read_found no_faults (view file') = Ok (Stamped fmt.(fmt_version))
  end.
Proof.
  intros Hv. pose proof (open_spec fmt faults file) as Ho.
  destruct (open _ _ _) as [[found|e] file']; [|done]. destruct Ho as [Hr Hu].
  eauto using upgraded_stamp.
Qed.

(** A file stamped by a newer engine is never opened. When it can be read
    without a repair the refusal comes before any writable handle exists, and the
    file is the one that was there; otherwise its tables are. *)
Theorem newer_stamp_refused (fmt : Format) (faults : OpenFaults) (file : F) (version : Z) :
  read_found no_faults (view file) = Ok (Stamped version) -> fmt.(fmt_version) < version ->
  (exists e, (open fmt faults file).1 = Err e) /\
  (ro_open file = RoOpened -> (open fmt faults file).2 = file) /\
  view (open fmt faults file).2 = view file /\
  (ro_open file = RoOpened -> faults.(first_read) = no_faults ->
   open fmt faults file = (Err (SFormatTooNew version fmt.(fmt_version)), file)).
Proof.
  intros Hr Hlt.
  assert (has_bytes file = true) as Hbytes.
  { destruct (has_bytes file) eqn:E; [done|]. by rewrite (no_bytes_no_tables file E) in Hr. }
  assert (forall found, read_found faults.(first_read) (view file) = Ok found -> found = Stamped version) as Hfound.
  { intros found Hf%read_found_ok. congruence. }
  assert (refuse_newer fmt (Stamped version) = Err (SFormatTooNew version fmt.(fmt_version))) as Hrefuse.
  { unfold refuse_newer. by rewrite (proj2 (Z.ltb_lt _ _) Hlt). }
  assert (ro_open file = RoOpened -> exists e, check_read_only fmt faults file = Err e) as Hearly.
  { intros Hro. unfold check_read_only, open_read_only. rewrite Hbytes, Hro. cbn.
    destruct (read_found faults.(first_read) (view file)) as [found|]; [|by eexists].
    rewrite (Hfound _ eq_refl), Hrefuse. by eexists. }
  pose proof (open_spec fmt faults file) as Ho. destruct (open fmt faults file) as [[found|e] file'] eqn:E.
  - exfalso. destruct Ho as [Hf (found' & Hf' & Hn & _)]. rewrite Hr in Hf'. injection Hf' as <-. congruence.
  - split_and!; [by eexists| |done|].
    + intros Hro. destruct (Hearly Hro) as [e' He']. unfold open in E. rewrite He' in E. by injection E.
    + intros Hro Hnf. unfold open, check_read_only, open_read_only in E. rewrite Hbytes, Hro, Hnf in E. cbv beta iota in E.
      rewrite Hr, Hrefuse in E. done.
Qed.

(** Reopening: nothing fails, the file needs no repair, and it is current. *)
Lemma reopen_current (fmt : Format) (file : F) :
  read_found no_faults (view file) = Ok (Stamped fmt.(fmt_version)) ->
  ro_open file = RoOpened -> (db_create file).1 = true ->
  open fmt no_open_faults file = (Ok (Stamped fmt.(fmt_version)), (db_create file).2).
Proof.
  intros Hr Hro Hcr. unfold open, check_read_only, open_read_only. rewrite Hro.
  pose proof (create_keeps file) as Hk. destruct (db_create file) as [ok file']. cbn in Hcr, Hk. subst ok.
  assert (refuse_newer fmt (Stamped fmt.(fmt_version)) = Ok tt) as Hn by (unfold refuse_newer; by rewrite Z.ltb_irrefl).
  unfold open_writable. cbn [first_read second_read no_open_faults]. rewrite Hk, Hr.
  destruct (has_bytes file); cbv beta iota; rewrite ?Hr, ?Hn, bool_decide_eq_true_2 by done; by rewrite ?Hn.
Qed.

(** A step that reads and writes the data table only. *)
Definition data_only (step : MigrationStep (D := D)) : Prop :=
  exists f, forall t, step t = (fun d => mkTables d t.(t_meta)) <$> f t.(t_data).

Lemma run_steps_app n m a b (t t1 t2 : Tables D) :
  run_steps n a t = Ok t1 -> run_steps m b t1 = Ok t2 -> run_steps n (a ++ b) t = Ok t2.
Proof.
  revert n t. induction a as [|step a IH]; intros n t; cbn [run_steps app].
  - intros [= ->]. revert n m t1. induction b as [|step b IH]; intros n m t1; [done|]. cbn.
    destruct (step t1); [apply IH|done].
  - destruct (step t); [apply IH|done].
Qed.

Lemma run_steps_data n steps (t t' : Tables D) :
  Forall data_only steps -> run_steps n steps t = Ok t' ->
  t'.(t_meta) = t.(t_meta) /\
  forall m, run_steps n steps (mkTables t.(t_data) m) = Ok (mkTables t'.(t_data) m).
Proof.
  intros Hs. revert n t. induction Hs as [|step steps [f Hf] _ IH]; intros n t; cbn [run_steps].
  - intros [= ->]. done.
  - rewrite Hf. destruct (f t.(t_data)) as [d|] eqn:E; [|done]. cbn. intros Hr.
    destruct (IH _ _ Hr) as [Hm Hall]. cbn in *. split; [done|]. intros m.
    rewrite Hf. cbn. rewrite E. cbn. apply Hall.
Qed.

(** Where a migration starts. *)
Definition start_of (found : FormatFound) : option Z :=
  match found with Stamped v => Some v | Unstamped => Some 1 | Fresh => None end.

Lemma new_tables_from (fmt : Format) found from t t' :
  start_of found = Some from ->
  (new_tables (F := F) fmt found no_faults t = Ok t' <->
   exists t1, migrate fmt from t = Ok t1 /\
     t' = mkTables t1.(t_data) (Some (<[FORMAT_VERSION_KEY := stamp_bytes fmt.(fmt_version)]> (default ∅ t1.(t_meta))))).
Proof.
  intros Hs. unfold new_tables. destruct found; [done|..]; injection Hs as <-;
    cbn [open_table_fails write_fails no_faults]; destruct (migrate _ _ _) as [t1|];
    (split; [intros [= <-]; by exists t1|intros (t2 & [= ->] & ->); done]) || (split; [done|by intros (? & ? & _)]).
Qed.

Lemma drop_take_drop {A} (a b : nat) (l : list A) : (a <= b)%nat -> drop a l = drop a (take b l) ++ drop b l.
Proof.
  intros Hab. rewrite <- (take_drop b l) at 1. rewrite drop_app, length_take.
  destruct (decide (b <= length l)%nat).
  - f_equal. by replace (a - b `min` length l)%nat with O by lia.
  - rewrite (drop_ge l b) by lia. by rewrite drop_nil.
Qed.

(** An upgrade does not depend on the engine releases in between. Take the
    steps of the newer release, of which the older one ships an initial part; when
    they touch the data table only, a file opened by the older release and then by
    the newer has the tables it would have had from the newer alone. *)
Theorem upgrade_path_independent (v1 v2 : Z) (steps : list (MigrationStep (D := D))) (t t1 t2 : Tables D) :
  1 <= v1 <= v2 -> v2 <= u32_max -> Z.of_nat (length steps) = v2 - 1 -> Forall data_only steps ->
  read_found no_faults t <> Ok Fresh ->
  upgraded (mkFormat v1 (take (Z.to_nat (v1 - 1)) steps)) t t1 ->
  upgraded (mkFormat v2 steps) t1 t2 ->
  upgraded (mkFormat v2 steps) t t2.
Proof.
  intros Hv Hmax Hlen Hdata Hfresh Hup1 Hup2. assert (0 < v1 <= u32_max) as Hv1 by lia.
  pose proof (upgraded_stamp (mkFormat v1 (take (Z.to_nat (v1 - 1)) steps)) _ _ Hv1 Hup1) as Hst.
  destruct Hup1 as (found & Hr & Hn & [[-> ->]|[Hne Hnew]]); [done|]. cbn [fmt_version] in *.
  destruct Hup2 as (found2 & Hr2 & _ & H2). rewrite Hst in Hr2. injection Hr2 as <-.
  destruct (start_of found) as [from|] eqn:Hs; [|by destruct found].
  assert (from <= v1) as Hfrom.
  { destruct found as [| |v]; [done|injection Hs as <-; lia|injection Hs as ->].
    unfold refuse_newer in Hn. cbn [fmt_version] in Hn. destruct (Z.ltb_spec v1 from); [done|lia]. }
  apply (new_tables_from _ _ _ _ _ Hs) in Hnew as (ta & Hta & ->). unfold migrate in Hta. cbn [fmt_steps] in Hta.
  exists found. split; [done|]. split.
  { unfold refuse_newer in *. destruct found as [| |v]; try done. injection Hs as ->. cbn [fmt_version].
    destruct (Z.ltb_spec v2 from); [lia|done]. }
  right. cbn [fmt_version fmt_steps] in *.
  assert (found <> Stamped v2) as Hne2.
  { intros ->. injection Hs as <-. apply Hne. f_equal. lia. }
  split; [done|]. apply (new_tables_from _ _ _ _ _ Hs).
  assert (take (Z.to_nat (v1 - 1)) steps = steps \/ v1 < v2) as Hall.
  { destruct (decide (v1 = v2)) as [->|]; [left; apply take_ge; lia|right; lia]. }
  destruct H2 as [[[= ->] ->]|[Hne3 Hnew2]].
  - exists ta. split; [|done]. unfold migrate. cbn [fmt_steps]. destruct Hall as [<-|]; [done|lia].
  - apply (new_tables_from _ (Stamped v1) v1 _ _ eq_refl) in Hnew2 as (tb & Htb & ->).
    unfold migrate in Htb. cbn [fmt_steps fmt_version] in Htb.
    assert (Forall data_only (drop (Z.to_nat (sat_sub v1 1)) steps)) as Hd by (by apply Forall_drop).
    destruct (run_steps_data _ _ _ _ Hd Htb) as [Hmb Hb]. cbn [t_data t_meta] in Hmb, Hb.
    exists (mkTables tb.(t_data) ta.(t_meta)). cbn [t_data t_meta fmt_version]. split.
    + unfold migrate. cbn [fmt_steps].
      rewrite (drop_take_drop _ (Z.to_nat (v1 - 1)) steps) by (unfold sat_sub; lia).
      eapply run_steps_app; [exact Hta|]. destruct ta as [da ma]. cbn [t_data t_meta] in *.
      replace (Z.to_nat (v1 - 1)) with (Z.to_nat (sat_sub v1 1)) by (unfold sat_sub; lia). apply Hb.
    + rewrite Hmb. cbn [default from_option]. unfold id. by rewrite insert_insert_eq.
Qed.
End Opening.

(** ** A file in memory *)

(** The tables, whether it needs a repair, and how often a writable handle opened it. *)
Record MemFile : Type := mkMem { mem_tables : option (Tables Z); mem_unclean : bool; mem_opens : nat }.

#[local] Instance mem_redb : Redb MemFile Z := {|
  has_bytes f := bool_decide (is_Some f.(mem_tables));
  view f := default (mkTables None None) f.(mem_tables);
  empty_table := 0;
  ro_open f := if f.(mem_unclean) then RoRepairAborted else RoOpened;
  db_create f := (true, mkMem (Some (default (mkTables None None) f.(mem_tables))) false (S f.(mem_opens)));
  db_commit f t := (true, mkMem (Some t) f.(mem_unclean) f.(mem_opens));
  db_drop f := f
|}.

#[local] Instance mem_redb_laws : RedbLaws MemFile Z.
Proof. split; try done. by intros [[t|] ? ?]. Qed.

Definition add_one : MigrationStep (D := Z) := fun t => (fun d => mkTables d t.(t_meta)) <$> Some (Z.succ <$> t.(t_data)).
Definition fail_step : MigrationStep (D := Z) := fun _ => None.
Definition old_file : MemFile := mkMem (Some (mkTables (Some 5) None)) false 0.
Definition stamped_file (data version : Z) : MemFile :=
  mkMem (Some (mkTables (Some data) (Some {[FORMAT_VERSION_KEY := stamp_bytes version]}))) false 0.

(** An unstamped file is carried through every step; a failing step leaves it alone;
    a fresh file is created at the current version and reopens as it. *)
Example open_examples :
  let fmt := mkFormat 3 [add_one; add_one] in
  (open fmt no_open_faults old_file).1 = Ok Unstamped /\
  view (open fmt no_open_faults old_file).2 = view (stamped_file 7 3) /\
  (open (mkFormat 3 [add_one; fail_step]) no_open_faults old_file).1 = Err (SMigration 2 3) /\
  view (open (mkFormat 3 [add_one; fail_step]) no_open_faults old_file).2 = view old_file /\
  (open ENGINE no_open_faults (mkMem None false 0)).1 = Ok Fresh /\
  (open ENGINE no_open_faults (open ENGINE no_open_faults (mkMem None false 0)).2).1 = Ok (Stamped 1).
Proof. split_and!; vm_compute; reflexivity. Qed.

Lemma open_all_or_nothing_witness :
  view (open (mkFormat 3 [add_one; fail_step]) no_open_faults old_file).2 = view old_file.
Proof.
  assert ((open (mkFormat 3 [add_one; fail_step]) no_open_faults old_file).1 = Err (SMigration 2 3)) as E
    by (vm_compute; reflexivity).
  assert (0 < 3 <= u32_max) as Hv by (unfold u32_max; lia).
  pose proof (open_all_or_nothing (mkFormat 3 [add_one; fail_step]) no_open_faults old_file Hv) as Ho.
  destruct (open _ _ old_file) as [r file']. cbn [fst] in E. subst r. exact Ho.
Defined.

Lemma newer_stamp_refused_witness :
  (open ENGINE no_open_faults (stamped_file 5 2)).2 = stamped_file 5 2.
Proof.
  assert (read_found no_faults (view (stamped_file 5 2)) = Ok (Stamped 2)) as E by (vm_compute; reflexivity).
  exact (proj1 (proj2 (newer_stamp_refused ENGINE no_open_faults (stamped_file 5 2) 2 E ltac:(vm_compute; reflexivity))) eq_refl).
Defined.

Lemma add_one_data_only : data_only add_one.
Proof. by exists (fun d => Some (Z.succ <$> d)). Qed.

Lemma upgrade_path_independent_witness :
  upgraded (F := MemFile) (mkFormat 3 [add_one; add_one]) (view old_file) (view (stamped_file 7 3)).
Proof.
  refine (upgrade_path_independent 2 3 [add_one; add_one] (view old_file) (view (stamped_file 6 2)) (view (stamped_file 7 3))
    ltac:(lia) ltac:(vm_compute; discriminate) eq_refl ltac:(repeat constructor; apply add_one_data_only) _ _ _).
  - discriminate.
  - exists Unstamped. split; [reflexivity|]. split; [reflexivity|]. right. split; [discriminate|vm_compute; reflexivity].
  - exists (Stamped 2). split; [vm_compute; reflexivity|]. split; [reflexivity|]. right.
    split; [discriminate|vm_compute; reflexivity].
Defined.
