(* ===== verification/BlockSource.v ===== *)
(** * BlockSource: the block source tasks and the source fleet

    crates/nexum-runtime-supervisor/src/runtime/event_loop.rs: the reconnect-aware
    task of one chain's block source, as steps over a node that may answer
    anything, and the functions that open one task per chain and per event source.

    The provider's stream, the channel to the event loop and the clocks are the
    class [BlockFeed]. What the task was handed and what it sent, the pauses it
    took and the gauge it set are recorded in its state. *)

From stdpp Require Import prelude list gmap strings.
From Stdlib Require Import ZArith Lia.
From S2P Require Import Prelude RestartPolicy Cron Dispatch ChainLog Tasks EventLoop Sources.
Local Open Scope rust_scope.
Local Open Scope Z_scope.

Definition SOURCE_KIND_BLOCK : text := chars_of "block".
Definition SOURCE_KIND_CHAIN_LOG : text := chars_of "chain-log".
Definition SOURCE_KIND_SCHEDULE : text := chars_of "schedule".
Definition RECONNECT_CHANNEL_BUF : Z := 64.
Definition BLOCK_GAP_LOG_THRESHOLD : Z := duration_from_secs 60.

(** [labels.join(", ")]. *)
Fixpoint join_names (died : list text) : text :=
  match died with
  | [] => []
  | [l] => l
  | l :: rest => l ++ chars_of ", " ++ join_names rest
  end.

Definition dead_task_names (died : list text) : text :=
  match died with [] => chars_of "unknown" | _ => join_names died end.

(** ** One task *)

(** The open, the stream's next item ([None] its end), the channel, and the two clock
    readings a received item is stamped with. *)
Class BlockFeed (P : Type) : Type := {
  bf_open : P -> bool * P;
  bf_next : P -> option (option Header) * P;
  bf_send : P -> TaggedBlock -> bool * P;
  bf_received : P -> Z * P;
  bf_now : P -> Z * P
}.

Inductive BlockEv : Type :=
| BOpened (attempt : Z)
| BReconnected
| BHealthy
| BGapClosed (gap : Z)
| BHead (number : Z)
| BPause (attempt backoff : Z).

Inductive TaskPhase : Type := Opening | Pumping | Exited.

#[export] Instance TaskPhase_eq_dec : EqDecision TaskPhase.
Proof. solve_decision. Defined.

Section Block.
Context {P : Type} `{BlockFeed P}.
(** The chain's id and the jitter seed. *)
Context (chain seed : Z).

Record BlockTask : Type := mkBlockTask {
  bt_phase : TaskPhase;
  bt_attempt : Z;
  bt_last_event : option Z;
  bt_feed : P;
  (** Items the stream yielded, items the channel took. *)
  bt_yielded : list TaggedBlock;
  bt_sent : list TaggedBlock;
  bt_events : list BlockEv
}.

Definition block_task_new (p : P) : BlockTask := mkBlockTask Opening 0 None p [] [] [].

Definition block_pause (st : BlockTask) : BlockTask :=
  let attempt := u32_sat (st.(bt_attempt) + 1) in
  mkBlockTask Opening attempt st.(bt_last_event) st.(bt_feed) st.(bt_yielded) st.(bt_sent)
    (st.(bt_events) ++ [BPause attempt (backoff_for attempt seed)]).

Definition block_open (st : BlockTask) : BlockTask :=
  let (ok, p) := bf_open st.(bt_feed) in
  let st := mkBlockTask st.(bt_phase) st.(bt_attempt) st.(bt_last_event) p st.(bt_yielded) st.(bt_sent) st.(bt_events) in
  if ok : bool then
    mkBlockTask Pumping st.(bt_attempt) st.(bt_last_event) st.(bt_feed) st.(bt_yielded) st.(bt_sent)
      (st.(bt_events) ++ BOpened st.(bt_attempt) :: if st.(bt_attempt) =? 0 then [] else [BReconnected])
  else block_pause st.

(** The quiet before this event. *)
Definition healthy (now : Z) (st : BlockTask) : bool :=
  (0 <? st.(bt_attempt))
  && match st.(bt_last_event) with Some t => HEALTHY_WINDOW <=? duration_since now t | None => false end.

Definition block_next (st : BlockTask) : BlockTask :=
  match bf_next st.(bt_feed) with
  | (None, p) =>
      block_pause (mkBlockTask st.(bt_phase) st.(bt_attempt) st.(bt_last_event) p st.(bt_yielded) st.(bt_sent) st.(bt_events))
  | (Some item, p) =>
      let (received, p) := bf_received p in
      let (now, p) := bf_now p in
      let attempt := if healthy now st then 0 else st.(bt_attempt) in
      let gap := block_stream_gap_to_log now st.(bt_last_event) BLOCK_GAP_LOG_THRESHOLD in
      let events :=
        st.(bt_events)
        ++ (if healthy now st then [BHealthy] else [])
        ++ (match gap with Some gap => [BGapClosed gap] | None => [] end)
        ++ (match item with Some header => [BHead header.(header_number)] | None => [] end) in
      let tagged : TaggedBlock :=
        match item with Some header => Ok (chain, header, received) | None => Err chain end in
      let (taken, p) := bf_send p tagged in
      mkBlockTask (if taken : bool then Pumping else Exited) attempt (Some now) p
        (st.(bt_yielded) ++ [tagged]) (st.(bt_sent) ++ if taken then [tagged] else []) events
  end.

Definition block_step (st : BlockTask) : BlockTask :=
  match st.(bt_phase) with
  | Opening => block_open st
  | Pumping => block_next st
  | Exited => st
  end.

Definition block_run (n : nat) (st : BlockTask) : BlockTask := Nat.iter n block_step st.
End Block.

(** ** The fleet *)

Definition ChainLogResume : Type := option text * option Z * option Z.

Inductive SourceTask (F : Type) : Type :=
| BlockTaskOf (chain : Z)
| ChainLogTaskOf (module : text) (chain : Z) (filter : F) (resume : ChainLogResume)
| ScheduleTaskOf (module : text) (cron : CronSchedule)
(* a task an extension spawned under its own label *)
| ExtensionTaskOf (label : text).
Arguments BlockTaskOf {F} chain.
Arguments ChainLogTaskOf {F} module chain filter resume.
Arguments ScheduleTaskOf {F} module cron.
Arguments ExtensionTaskOf {F} label.

Definition block_label (chain : Z) : text := SOURCE_KIND_BLOCK ++ chars_of ":" ++ decimal chain.
Definition chain_log_label (chain : Z) (module : text) : text :=
  SOURCE_KIND_CHAIN_LOG ++ chars_of ":" ++ decimal chain ++ chars_of ":" ++ module.
Definition schedule_label (module : text) (cron : CronSchedule) : text :=
  SOURCE_KIND_SCHEDULE ++ chars_of ":" ++ module ++ chars_of ":" ++ cron.(expression).

Section Fleet.
Context {F : Type}.

(** The executor's tasks, by spawn order, and the handles of the set; each stream is
    the receiver of the task of that number. *)
Record Fleet : Type := mkFleet { spawned : list (SourceTask F); set : TaskSet; streams : list nat }.

Definition spawn_source (label : text) (task : SourceTask F) (f : Fleet) : Fleet :=
  mkFleet (f.(spawned) ++ [task]) (push f.(set) label (length f.(spawned))) (f.(streams) ++ [length f.(spawned)]).

Definition open_block_streams (chains : list Z) (f : Fleet) : Fleet :=
  fold_left (fun f chain => spawn_source (block_label chain) (BlockTaskOf chain) f) chains f.

Definition open_chain_log_streams (sources : list (Sources.EventSource (F := F))) (f : Fleet) : Fleet :=
  fold_left (fun f s =>
    spawn_source (chain_log_label s.(Sources.es_chain) s.(Sources.es_module))
      (ChainLogTaskOf s.(Sources.es_module) s.(Sources.es_chain) s.(Sources.es_filter)
         (s.(Sources.es_cursor_key), s.(Sources.es_initial_cursor), s.(Sources.es_max_lookback))) f) sources f.

Definition open_schedule_streams (sources : list Sources.ScheduleSource) (f : Fleet) : Fleet :=
  fold_left (fun f s =>
    spawn_source (schedule_label s.(Sources.ss_module) s.(Sources.ss_cron))
      (ScheduleTaskOf s.(Sources.ss_module) s.(Sources.ss_cron)) f) sources f.

(** [SourceContext::spawn]: the extension keeps the receiver. *)
Definition spawn_extension (label : text) (f : Fleet) : Fleet :=
  mkFleet (f.(spawned) ++ [ExtensionTaskOf label]) (push f.(set) label (length f.(spawned))) f.(streams).
End Fleet.

(** ** What the task relays *)

Section Relay.
Context {P : Type} `{BlockFeed P} (chain seed : Z).
#[local] Notation step := (block_step chain seed).
#[local] Notation run := (block_run chain seed).

(** The failure count a log of events explains: a pause counts one more, a healthy
    event forgets, an open reports the count it reached. *)
Definition explain (count : option Z) (e : BlockEv) : option Z :=
  match count with
  | None => None
  | Some a =>
      match e with
      | BPause k d => if (k =? u32_sat (a + 1)) && (d =? backoff_for k seed) then Some k else None
      | BOpened k => if k =? a then Some a else None
      | BReconnected => if 0 <? a then Some a else None
      | BHealthy => if 0 <? a then Some 0 else None
      | BGapClosed gap => if BLOCK_GAP_LOG_THRESHOLD <=? gap then Some a else None
      | BHead _ => Some a
      end
  end.

Record block_inv (st : BlockTask (P := P)) : Prop := {
  inv_attempt : is_u32 st.(bt_attempt);
  inv_explained : fold_left explain st.(bt_events) (Some 0) = Some st.(bt_attempt);
  inv_pauses : forall k d, BPause k d ∈ st.(bt_events) -> 1 <= k /\ d <= RESTART_MAX_BACKOFF;
  inv_relayed : if decide (st.(bt_phase) = Exited)
                then exists last, st.(bt_yielded) = st.(bt_sent) ++ [last]
                else st.(bt_yielded) = st.(bt_sent)
}.

Lemma backoff_below_cap k : 1 <= k -> backoff_for k seed <= RESTART_MAX_BACKOFF.
Proof.
  intros Hk. etransitivity; [by apply backoff_for_bounds|].
  unfold curve_ms, duration_from_millis, RESTART_MAX_BACKOFF, duration_from_secs, NANOS_PER_MILLI, NANOS_PER_SEC. lia.
Qed.

Lemma block_pause_inv st : st.(bt_phase) <> Exited -> block_inv st -> block_inv (block_pause seed st).
Proof.
  intros Hph [Ha He Hp Hr]. rewrite decide_False in Hr by done. unfold block_pause.
  assert (1 <= u32_sat (st.(bt_attempt) + 1) <= u32_max) as Hk
    by (unfold u32_sat, is_u32, u32_max in *; lia).
  split; cbn [bt_attempt bt_events bt_yielded bt_sent bt_phase].
  - unfold is_u32. lia.
  - rewrite fold_left_app, He. cbn [fold_left explain]. by rewrite !Z.eqb_refl.
  - intros k d [Hin|Heq%list_elem_of_singleton]%elem_of_app; [by apply Hp|].
    injection Heq as -> ->. split; [lia|]. apply backoff_below_cap. lia.
  - done.
Qed.

Lemma block_open_inv st : st.(bt_phase) = Opening -> block_inv st -> block_inv (block_open seed st).
Proof.
  intros Hph [Ha He Hp Hr]. unfold block_open. rewrite decide_False in Hr by (by rewrite Hph).
  destruct (bf_open _) as [[] p]; cbn [bt_attempt bt_events bt_yielded bt_sent bt_phase bt_last_event bt_feed].
  - split; cbn [bt_attempt bt_events bt_yielded bt_sent bt_phase]; [done| | |done].
    + rewrite fold_left_app, He. cbn [fold_left explain]. rewrite Z.eqb_refl.
      destruct (Z.eqb_spec st.(bt_attempt) 0) as [E|Hne]; [done|]. cbn [fold_left explain].
      unfold is_u32 in Ha. by rewrite (proj2 (Z.ltb_lt 0 st.(bt_attempt))) by lia.
    + intros k d [Hin|Hin]%elem_of_app; [by apply Hp|].
      destruct (_ =? 0); set_solver.
  - apply block_pause_inv; [cbn; by rewrite Hph|].
    split; cbn [bt_attempt bt_events bt_yielded bt_sent bt_phase]; try done. by rewrite Hph.
Qed.

Lemma block_next_inv st : st.(bt_phase) = Pumping -> block_inv st -> block_inv (block_next chain seed st).
Proof.
  intros Hph [Ha He Hp Hr]. unfold block_next. rewrite decide_False in Hr by (by rewrite Hph).
  destruct (bf_next _) as [[item|] p].
  2: { apply block_pause_inv; [cbn; by rewrite Hph|].
       split; cbn [bt_attempt bt_events bt_yielded bt_sent bt_phase]; try done. by rewrite Hph. }
  destruct (bf_received p) as [received p1], (bf_now p1) as [now p2].
  set (tagged := match item with Some _ => _ | None => _ end).
  destruct (bf_send p2 tagged) as [taken p3].
  split; cbn [bt_attempt bt_events bt_yielded bt_sent bt_phase].
  - destruct (healthy now st); [unfold is_u32, u32_max; lia|done].
  - rewrite !fold_left_app, He.
    assert (fold_left explain (if healthy now st then [BHealthy] else []) (Some st.(bt_attempt))
            = Some (if healthy now st then 0 else st.(bt_attempt))) as ->.
    { destruct (healthy now st) eqn:Eh; [|done]. cbn [fold_left explain].
      unfold healthy in Eh. apply andb_true_iff in Eh as [-> _]. done. }
    assert (forall a, fold_left explain
              (match block_stream_gap_to_log now st.(bt_last_event) BLOCK_GAP_LOG_THRESHOLD with
               | Some gap => [BGapClosed gap] | None => [] end) (Some a) = Some a) as ->.
    { intros a. unfold block_stream_gap_to_log. destruct st.(bt_last_event) as [t|]; [|done].
      destruct (Z.leb_spec BLOCK_GAP_LOG_THRESHOLD (duration_since now t)) as [Hle|]; [|done].
      cbn [fold_left explain]. by rewrite (proj2 (Z.leb_le _ _) Hle). }
    by destruct item.
  - intros k d Hin. apply Hp. rewrite !elem_of_app in Hin.
    destruct Hin as [?|[Hin|[Hin|Hin]]]; [done|exfalso..].
    + destruct (healthy now st); set_solver.
    + destruct (block_stream_gap_to_log _ _ _); set_solver.
    + destruct item; set_solver.
  - destruct taken; rewrite Hr; [done|]. rewrite app_nil_r. by exists tagged.
Qed.

Lemma block_step_inv st : block_inv st -> block_inv (step st).
Proof.
  intros Hi. unfold block_step. destruct (bt_phase st) eqn:E; [by apply block_open_inv|by apply block_next_inv|done].
Qed.

(** Whatever the node answers, after any number of steps every block (and
    every stream error) the source yielded was handed to the event loop once and in
    order, and the task ends only when the receiver refused the last of them. Its log
    explains the failure count: each pause is one more failure and waits the backoff
    of that count, at most five minutes, and only a reset sets it back. *)
Theorem block_source_relays_in_order (p : P) (n : nat) :
  let st := run n (block_task_new p) in
  (if decide (st.(bt_phase) = Exited)
   then exists last, st.(bt_yielded) = st.(bt_sent) ++ [last]
   else st.(bt_yielded) = st.(bt_sent)) /\
  fold_left explain st.(bt_events) (Some 0) = Some st.(bt_attempt) /\ is_u32 st.(bt_attempt) /\
  (forall k d, BPause k d ∈ st.(bt_events) -> 1 <= k /\ d = backoff_for k seed /\ d <= RESTART_MAX_BACKOFF).
Proof.
  intros st. assert (block_inv st) as [Ha He Hp Hr].
  { unfold st, block_run. induction n as [|n IH]; cbn [Nat.iter nat_rect]; [|by apply block_step_inv].
    split; cbn; [unfold is_u32, u32_max; lia|done|set_solver|done]. }
  split_and!; [done..|]. intros k d Hin. destruct (Hp k d Hin) as [Hk Hd]. split_and!; [done| |done].
  apply list_elem_of_split in Hin as (l1 & l2 & E). rewrite E, fold_left_app in He. cbn [fold_left] in He.
  assert (forall l, fold_left explain l None = None) as Hnone by (induction l; done).
  destruct (fold_left explain l1 (Some 0)) as [a|]; cbn [explain] in He; [|by rewrite Hnone in He].
  destruct (_ && _) eqn:Eb; [|by rewrite Hnone in He]. apply andb_true_iff in Eb as [_ Eb]. by apply Z.eqb_eq.
Qed.
End Relay.

(** ** What the fleet runs *)

Section FleetFacts.
Context {F : Type}.
Notation SourceTask := (SourceTask F).

Definition label_of (t : SourceTask) : text :=
  match t with
  | BlockTaskOf chain => block_label chain
  | ChainLogTaskOf module chain _ _ => chain_log_label chain module
  | ScheduleTaskOf module cron => schedule_label module cron
  | ExtensionTaskOf label => label
  end.

(** What a chain source's label says of its task: its chain, and its module unless it
    reads blocks. *)
Definition identity (t : SourceTask) : option (Z * option text) :=
  match t with
  | BlockTaskOf chain => Some (chain, None)
  | ChainLogTaskOf module chain _ _ => Some (chain, Some module)
  | ScheduleTaskOf _ _ | ExtensionTaskOf _ => None
  end.

Definition chain_log_task (s : Sources.EventSource (F := F)) : SourceTask :=
  ChainLogTaskOf s.(es_module) s.(es_chain) s.(es_filter) (s.(es_cursor_key), s.(es_initial_cursor), s.(es_max_lookback)).

Definition schedule_task_of (s : ScheduleSource) : SourceTask := ScheduleTaskOf s.(ss_module) s.(ss_cron).

(** A fleet whose handles are those of its tasks, in order, and whose streams are
    those of the tasks from [base] on, which its own openers spawned. *)
Record fleet_of (base : nat) (ts : list SourceTask) (f : Fleet (F := F)) : Prop := {
  of_base : (base <= length ts)%nat;
  of_spawned : f.(spawned) = ts;
  of_handles : f.(set).(handles) = zip (label_of <$> ts) (seq 0 (length ts));
  of_streams : f.(streams) = seq base (length ts - base);
  of_died : f.(set).(died) = []
}.

Lemma handles_snoc ts (t : SourceTask) :
  zip (label_of <$> ts) (seq 0 (length ts)) ++ [(label_of t, length ts)] =
  zip (label_of <$> ts ++ [t]) (seq 0 (length (ts ++ [t]))).
Proof.
  rewrite length_app, seq_app, fmap_app, zip_with_app by (by rewrite length_fmap, length_seq). done.
Qed.

Lemma spawn_source_of base ts f t :
  fleet_of base ts f -> fleet_of base (ts ++ [t]) (spawn_source (label_of t) t f).
Proof.
  intros [Hb Hs Hh Hst Hd]. split; cbn [spawn_source push set handles spawned streams died];
    rewrite ?Hs, ?Hh, ?Hst; [rewrite length_app; lia | done | apply handles_snoc | | done].
  rewrite length_app. cbn [length]. replace (length ts + 1 - base)%nat with (length ts - base + 1)%nat by lia.
  rewrite seq_app. f_equal. cbn. f_equal. lia.
Qed.

Lemma spawn_extension_of ts f label :
  fleet_of (length ts) ts f -> fleet_of (length (ts ++ [ExtensionTaskOf label])) (ts ++ [ExtensionTaskOf label]) (spawn_extension label f).
Proof.
  intros [Hb Hs Hh Hst Hd]. split; cbn [spawn_extension push set handles spawned streams died];
    rewrite ?Hs, ?Hh, ?Hst; [done | done | apply (handles_snoc ts (ExtensionTaskOf label)) | | done].
  by rewrite !Nat.sub_diag.
Qed.

(** An opener that spawns one task a source. *)
Lemma open_each_of {X} (task : X -> SourceTask) (open : X -> Fleet -> Fleet) base xs ts f :
  (forall x f, open x f = spawn_source (label_of (task x)) (task x) f) ->
  fleet_of base ts f -> fleet_of base (ts ++ (task <$> xs)) (fold_left (fun f x => open x f) xs f).
Proof.
  intros Ho. revert ts f. induction xs as [|x xs IH]; intros ts f Hf; [by rewrite app_nil_r|].
  cbn [fold_left]. rewrite fmap_cons, cons_middle, (assoc_L (++)). apply IH. rewrite Ho. by apply spawn_source_of.
Qed.

Lemma label_inj t1 t2 i1 i2 :
  identity t1 = Some i1 -> identity t2 = Some i2 -> is_u64 i1.1 -> is_u64 i2.1 ->
  label_of t1 = label_of t2 -> i1 = i2.
Proof.
  destruct t1 as [c1|m1 c1 f1 r1|m1 c1|l1], t2 as [c2|m2 c2 f2 r2|m2 c2|l2]; cbn [identity label_of];
    intros [= <-] [= <-]; cbn [fst]; intros H1 H2 Hl; try discriminate Hl.
  - unfold block_label in Hl. by apply app_inv_head, app_inv_head, decimal_inj in Hl as ->.
  - unfold chain_log_label in Hl. apply app_inv_head, app_inv_head in Hl.
    change (chars_of ":") with [58] in Hl. cbn [app] in Hl.
    assert (split_once 58 (decimal c1 ++ 58 :: m1) = split_once 58 (decimal c2 ++ 58 :: m2)) as E by by rewrite Hl.
    rewrite !split_once_app in E by (by apply decimal_not_in). injection E as Hd ->.
    by apply decimal_inj in Hd as ->.
Qed.

(** The tasks of a plan, after the ones the extensions spawned. *)
Definition plan_tasks (labels : list text) (chains : list Z) (sources : list (Sources.EventSource (F := F)))
    (schedules : list ScheduleSource) : list SourceTask :=
  (ExtensionTaskOf <$> labels) ++ (BlockTaskOf <$> chains) ++ (chain_log_task <$> sources) ++
  (schedule_task_of <$> schedules).

Definition open_fleet (labels : list text) (chains : list Z) (sources : list (Sources.EventSource (F := F)))
    (schedules : list ScheduleSource) : Fleet :=
  open_schedule_streams schedules
    (open_chain_log_streams sources
       (open_block_streams chains
          (fold_left (fun f l => spawn_extension l f) labels (mkFleet [] task_set_new [])))).

Lemma open_fleet_of labels chains sources schedules :
  fleet_of (length labels) (plan_tasks labels chains sources schedules) (open_fleet labels chains sources schedules).
Proof.
  unfold plan_tasks, open_fleet. rewrite !(assoc_L (++)).
  apply (open_each_of schedule_task_of (fun s => spawn_source _ _)); [done|].
  apply (open_each_of chain_log_task (fun s => spawn_source _ _)); [done|].
  apply (open_each_of BlockTaskOf (fun c => spawn_source _ _)); [done|].
  rewrite <- (length_fmap (ExtensionTaskOf (F := F)) labels). induction labels as [|l labels IH] using rev_ind; [done|].
  rewrite fold_left_app, fmap_app. cbn [fold_left]. by apply (spawn_extension_of _ _ l).
Qed.

(** The sources opened for a plan are exactly its tasks: one task a block chain, one
    an event source and one a schedule, in order, each with its own handle and
    receiver and with the source's filter, resume settings and expression, beside
    the tasks the extensions spawned. A chain source's label names its source: tasks with one
    label read the same chain, for the same module. *)
Theorem fleet_is_the_plan (labels : list text) (chains : list Z) (sources : list (Sources.EventSource (F := F)))
    (schedules : list ScheduleSource) :
  Forall is_u64 chains -> Forall (fun s => is_u64 s.(es_chain)) sources ->
  let ts := plan_tasks labels chains sources schedules in
  fleet_of (length labels) ts (open_fleet labels chains sources schedules) /\
  forall t1 t2 i1 i2, t1 ∈ ts -> t2 ∈ ts -> identity t1 = Some i1 -> identity t2 = Some i2 ->
    label_of t1 = label_of t2 -> i1 = i2.
Proof.
  intros Hc Hs ts. split; [apply open_fleet_of|].
  assert (forall t i, t ∈ ts -> identity t = Some i -> is_u64 i.1) as Hid.
  { intros t i. unfold ts, plan_tasks. rewrite !elem_of_app, !list_elem_of_fmap.
    intros [(l & -> & _)|[(c & -> & Hin)|[(s & -> & Hin)|(s & -> & _)]]] [= <-].
    - by apply (proj1 (Forall_forall _ _) Hc).
    - by apply (proj1 (Forall_forall _ _) Hs). }
  intros t1 t2 i1 i2 H1 H2 E1 E2. apply (label_inj t1 t2); eauto.
Qed.
End FleetFacts.

(** ** A scripted source *)

(** Opens and stream items in order; items arrive 12 s apart but for the gaps. *)
Inductive Script : Type := PlayOpen (ok : bool) | PlayItem (gap : Z) (item : option Header) | PlayEnd.
Record Tape : Type := mkTape { tape : list Script; tape_clock : Z; room : nat }.

#[local] Instance tape_feed : BlockFeed Tape := {|
  bf_open t := match t.(tape) with
               | PlayOpen ok :: rest => (ok, mkTape rest t.(tape_clock) t.(room))
               | _ => (false, t)
               end;
  bf_next t := match t.(tape) with
               | PlayItem gap item :: rest => (Some item, mkTape rest (t.(tape_clock) + duration_from_secs gap) t.(room))
               | PlayEnd :: rest => (None, mkTape rest t.(tape_clock) t.(room))
               | _ => (None, t)
               end;
  bf_send t _ := match t.(room) with O => (false, t) | S n => (true, mkTape t.(tape) t.(tape_clock) n) end;
  bf_received t := (t.(tape_clock), t);
  bf_now t := (t.(tape_clock), t)
|}.

Definition header_at (n : Z) : Header := mkHeader n [] 0.
Definition steady (n : nat) : list Script := (fun i => PlayItem 12 (Some (header_at (Z.of_nat i)))) <$> seq 0 n.

(** Twenty minutes of blocks every 12 s after one reconnect leave the failure count
    where it was; one silent minute clears it. *)
Example healthy_window_measures_silence :
  (block_run 1 0 102 (block_task_new (mkTape (PlayOpen false :: PlayOpen true :: steady 100) 0 200))).(bt_attempt) = 1 /\
  (block_run 1 0 5 (block_task_new
     (mkTape [PlayOpen false; PlayOpen true; PlayItem 12 None; PlayItem 60 None; PlayEnd] 0 200))).(bt_events)
  = [BPause 1 (backoff_for 1 0); BOpened 1; BReconnected; BHealthy; BGapClosed (duration_from_secs 60);
     BPause 1 (backoff_for 1 0)].
Proof. split; vm_compute; reflexivity. Qed.

(** A full channel whose receiver is gone ends the task, with one item not taken. *)
Example receiver_gone_ends_the_task :
  let st := block_run 1 0 9 (block_task_new (mkTape (PlayOpen true :: steady 5) 0 2)) in
  st.(bt_phase) = Exited /\ length st.(bt_sent) = 2%nat /\ length st.(bt_yielded) = 3%nat.
Proof. split_and!; vm_compute; reflexivity. Qed.

Lemma fleet_is_the_plan_witness :
  let s := Sources.mkEventSource (F := unit) (chars_of "m") 10 tt None (Some 3) None in
  fleet_of 1 (plan_tasks [chars_of "x"] [1; 10] [s] []) (open_fleet [chars_of "x"] [1; 10] [s] []).
Proof.
  intros s. refine (proj1 (fleet_is_the_plan [chars_of "x"] [1; 10] [s] [] _ _)); repeat constructor; vm_compute; discriminate.
Defined.
