(* ===== verification/Toml.v ===== *)
(** * Toml: the values a TOML document parses to

    The data the manifest and world readers work on, with the accessors of
    [toml::Value] they use, and the typed reads serde makes of a value. Parsing a
    document is the [toml] crate's and an argument of the readers. *)

From stdpp Require Import prelude list strings.
From Stdlib Require Import ZArith Lia.
From S2P Require Import Prelude.

Local Open Scope rust_scope.
Local Open Scope Z_scope.

(** A TOML value; a table lists its keys in the order it is iterated. *)
Inductive Toml : Type :=
| TomlString (s : text)
| TomlInteger (i : Z)
| TomlFloat (bits : Z)
| TomlBoolean (b : bool)
| TomlDatetime (d : text)
| TomlArray (items : list Toml)
| TomlTable (entries : list (text * Toml)).

Definition as_str (v : Toml) : option text := match v with TomlString s => Some s | _ => None end.
Definition as_array (v : Toml) : option (list Toml) := match v with TomlArray l => Some l | _ => None end.
Definition as_table (v : Toml) : option (list (text * Toml)) := match v with TomlTable t => Some t | _ => None end.
Definition is_table (v : Toml) : bool := match v with TomlTable _ => true | _ => false end.

Definition table_get (key : text) (t : list (text * Toml)) : option Toml :=
  snd <$> List.find (fun e => bool_decide (e.1 = key)) t.

(** [Value::get] with a string key. *)
Definition value_get (key : text) (v : Toml) : option Toml := as_table v ≫= table_get key.

(** [ok_or]. *)
Definition ok_or {A E} (e : E) (o : option A) : result A E := match o with Some x => Ok x | None => Err e end.

(** [iter().map(f).collect::<Result<_, _>>()]. *)
Fixpoint collect {A B E} (f : A -> result B E) (l : list A) : result (list B) E :=
  match l with
  | [] => Ok []
  | x :: l => let? y := f x in let? ys := collect f l in Ok (y :: ys)
  end.


Lemma collect_Ok {A B E} (f : A -> result B E) l ys : collect f l = Ok ys -> Forall2 (fun x y => f x = Ok y) l ys.
Proof.
  revert ys. induction l as [|x l IH]; intros ys; cbn [collect]; [by intros [= <-]|].
  destruct (f x) as [y|] eqn:Ef; [|done]. destruct (collect f l) as [zs|]; [|done].
  intros [= <-]. constructor; [done|by apply IH].
Qed.

(** ** What serde reads *)

(** An integer of the document is an [i64]; a [u64] or [usize] takes it when it is not
    negative. *)
Definition read_string : Toml -> option text := as_str.
Definition read_u64 (v : Toml) : option Z := match v with TomlInteger i => if 0 <=? i then Some i else None | _ => None end.
Definition read_bool (v : Toml) : option bool := match v with TomlBoolean b => Some b | _ => None end.

Fixpoint read_list {A} (f : Toml -> option A) (l : list Toml) : option (list A) :=
  match l with
  | [] => Some []
  | v :: l => match f v, read_list f l with Some x, Some xs => Some (x :: xs) | _, _ => None end
  end.
Definition read_vec {A} (f : Toml -> option A) (v : Toml) : option (list A) := as_array v ≫= read_list f.

Fixpoint read_entries {A} (f : Toml -> option A) (l : list (text * Toml)) : option (list (text * A)) :=
  match l with
  | [] => Some []
  | (k, v) :: l => match f v, read_entries f l with Some x, Some xs => Some ((k, x) :: xs) | _, _ => None end
  end.

(** A required field, a field with a default, an optional one. *)
Definition field {A} (f : Toml -> option A) (key : text) (t : list (text * Toml)) : option A := table_get key t ≫= f.
Definition field_or {A} (f : Toml -> option A) (d : A) (key : text) (t : list (text * Toml)) : option A :=
  match table_get key t with Some v => f v | None => Some d end.
Definition field_opt {A} (f : Toml -> option A) (key : text) (t : list (text * Toml)) : option (option A) :=
  match table_get key t with Some v => Some <$> f v | None => Some None end.

(** [deny_unknown_fields]. *)
Definition only_fields (keys : list text) (t : list (text * Toml)) : bool :=
  forallb (fun e => bool_decide (e.1 ∈ keys)) t.

Lemma read_entries_keys {A} (f : Toml -> option A) l ys : read_entries f l = Some ys -> ys.*1 = l.*1.
Proof.
  revert ys. induction l as [|[k v] l IH]; intros ys; cbn [read_entries]; [by intros [= <-]|].
  destruct (f v); [|done]. destruct (read_entries f l) as [xs|]; [|done]. intros [= <-].
  rewrite !fmap_cons. cbn [fst]. by rewrite (IH xs).
Qed.
