(* ===== verification/World.v ===== *)
(** * World: the WIT world a module is built against

    crates/nexum-world/src/lib.rs: the capability rows, the readers of the manifest
    and of the extension registry, [synthesize], and the search for WIT packages.
    The theorems tie the world to the gate a module is admitted through: what a
    module built from its manifest imports is exactly what it declared, and the
    capability check at load lets it pass.

    The TOML parser and the hex parser of topics are parameters; a path is its
    components, innermost first, and the file system two predicates on paths. *)

From stdpp Require Import prelude list gmap strings.
From Stdlib Require Import ZArith Lia.
From S2P Require Import Prelude Primitives Policy Admission Toml.

Local Open Scope rust_scope.
Local Open Scope Z_scope.

#[local] Arguments chars_of : simpl never.

(** ** Names *)

Inductive Cap : Type := CChain | CLocalStore | CLogging | CHttp.

#[export] Instance Cap_eq_dec : EqDecision Cap.
Proof. solve_decision. Defined.

Definition Cap_VARIANTS : list Cap := [CChain; CLocalStore; CLogging; CHttp].

Definition cap_as_str (c : Cap) : text :=
  match c with
  | CChain => chars_of "chain"
  | CLocalStore => chars_of "local-store"
  | CLogging => chars_of "logging"
  | CHttp => chars_of "http"
  end.

(** [name.parse::<Cap>()]. *)
Definition parse_cap (name : text) : option Cap :=
  List.find (fun c => bool_decide (cap_as_str c = name)) Cap_VARIANTS.

Definition WASI_GATES : list text := cap_as_str CHttp :: (wasi_as_str <$> WasiCap_ALL).

Inductive TriggerKind : Type := TKBlock | TKEvent | TKSchedule.

Definition trigger_as_str (k : TriggerKind) : text :=
  match k with
  | TKBlock => chars_of "block"
  | TKEvent => chars_of "event"
  | TKSchedule => chars_of "schedule"
  end.

Definition parse_trigger (s : text) : option TriggerKind :=
  List.find (fun k => bool_decide (trigger_as_str k = s)) [TKBlock; TKEvent; TKSchedule].

(** ** Rows *)

Record Capability : Type := mkCapability {
  cap_name : Cap;
  cap_import : option text;
  cap_packages : list text;
  cap_adapter : option text
}.

Definition CORE : list Capability := [
  mkCapability CChain (Some (chars_of "nexum:host/chain@0.1.0")) [] (Some (chars_of "chain"));
  mkCapability CLocalStore (Some (chars_of "nexum:host/local-store@0.1.0")) [] (Some (chars_of "local_store"));
  mkCapability CLogging (Some (chars_of "nexum:host/logging@0.1.0")) [] (Some (chars_of "logging"));
  mkCapability CHttp None [] None
].

(** Names of the rows that carry an import. *)
Definition CORE_IFACES : list text :=
  omap (fun c => match c.(cap_import) with Some _ => Some (cap_as_str c.(cap_name)) | None => None end) CORE.

Record ExtensionRow : Type := mkRow { row_name : text; row_import : text; row_packages : list text }.

Record ModuleWorld : Type := mkWorld { wit : text; packages : list text; adapters : list text }.

(** A path, innermost component first. *)
Definition path : Type := list text.

Inductive WorldError : Type :=
| WNotToml (file : text)
| WReplacedCapabilities
| WMissingDependencies
| WDependenciesNotATable
| WDependencyNotATable (name : text)
| WTriggersNotAnArray
| WEventSignatureNotAString
| WInvalidTopic (topic : text)
| WExtensionsNotATable
| WExtensionNotATable (name : text)
| WExtensionMissingImport (name : text)
| WExtensionPackagesNotAnArray (name : text)
| WExtensionPackageNotAString (name : text)
| WExtensionCollision (name : text)
| WUnknownDependency (name : text) (known : list text)
| WNoWitTree (start : path)
| WMissingWitPackage (package : text) (tree : path)
| WNoManifestDir.

(** ** Manifests *)

Section Manifests.
Context (parse_toml : text -> option (list (text * Toml))) (parse_b256 : text -> option (list Z)).

Definition manifest_capabilities (s : text) : result (list text) WorldError :=
  let? value := ok_or (WNotToml (chars_of "component.toml")) (parse_toml s) in
  match table_get (chars_of "capabilities") value with
  | Some _ => Err WReplacedCapabilities
  | None =>
      let? deps := ok_or WMissingDependencies (table_get (chars_of "dependencies") value) in
      let? table := ok_or WDependenciesNotATable (as_table deps) in
      match List.find (fun e => negb (is_table e.2)) table with
      | Some (name, _) => Err (WDependencyNotATable name)
      | None => Ok table.*1
      end
  end.

(** The loop over the triggers, with the topics so far. *)
Fixpoint event_topics (topics : list (list Z)) (triggers : list Toml) : result (list (list Z)) WorldError :=
  match triggers with
  | [] => Ok topics
  | trigger :: triggers =>
      match (value_get (chars_of "on") trigger ≫= as_str) ≫= parse_trigger with
      | Some TKEvent =>
          match value_get (chars_of "event_signature") trigger with
          | None => event_topics topics triggers
          | Some raw =>
              let? raw := ok_or WEventSignatureNotAString (as_str raw) in
              let? topic := ok_or (WInvalidTopic raw) (parse_b256 raw) in
              event_topics (if bool_decide (topic ∈ topics) then topics else topics ++ [topic]) triggers
          end
      | _ => event_topics topics triggers
      end
  end.

Definition manifest_event_topics (s : text) : result (list (list Z)) WorldError :=
  let? value := ok_or (WNotToml (chars_of "component.toml")) (parse_toml s) in
  match table_get (chars_of "trigger") value with
  | None => Ok []
  | Some triggers => let? triggers := ok_or WTriggersNotAnArray (as_array triggers) in event_topics [] triggers
  end.

Definition extension_row (e : text * Toml) : result ExtensionRow WorldError :=
  let (name, row) := e in
  let? row := ok_or (WExtensionNotATable name) (as_table row) in
  let? import := ok_or (WExtensionMissingImport name) (table_get (chars_of "import") row ≫= as_str) in
  let? packages :=
    match table_get (chars_of "packages") row with
    | None => Ok []
    | Some value =>
        let? items := ok_or (WExtensionPackagesNotAnArray name) (as_array value) in
        collect (fun item => ok_or (WExtensionPackageNotAString name) (as_str item)) items
    end in
  Ok (mkRow name import packages).

Definition manifest_extensions (s : text) : result (list ExtensionRow) WorldError :=
  let? value := ok_or (WNotToml (chars_of "extensions.toml")) (parse_toml s) in
  match table_get (chars_of "extensions") value with
  | None => Ok []
  | Some extensions =>
      let? extensions := ok_or WExtensionsNotATable (as_table extensions) in
      collect extension_row extensions
  end.
End Manifests.

(** ** Synthesis *)

(** The first row whose name a core capability or an earlier row has. *)
Fixpoint colliding (prior : list text) (extensions : list ExtensionRow) : option text :=
  match extensions with
  | [] => None
  | ext :: rest =>
      if bool_decide (is_Some (parse_cap ext.(row_name))) || bool_decide (ext.(row_name) ∈ prior)
      then Some ext.(row_name)
      else colliding (prior ++ [ext.(row_name)]) rest
  end.

Fixpoint declared_caps (extensions : list ExtensionRow) (declared : list text) : result (list Cap) WorldError :=
  match declared with
  | [] => Ok []
  | name :: declared =>
      match parse_cap name with
      | Some cap => let? caps := declared_caps extensions declared in Ok (cap :: caps)
      | None =>
          if bool_decide (name ∈ (row_name <$> extensions)) then declared_caps extensions declared
          else Err (WUnknownDependency name ((cap_as_str <$> Cap_VARIANTS) ++ (row_name <$> extensions)))
      end
  end.

Definition import_line (import : text) : text := chars_of "    import " ++ import ++ chars_of ";" ++ [10].

Definition add_package (packages : list text) (package : text) : list text :=
  if bool_decide (package ∈ packages) then packages else packages ++ [package].

(** The state of the two emission loops. *)
Record Emission : Type := mkEmission { em_imports : text; em_packages : list text; em_adapters : list text }.

Definition emit_core (caps : list Cap) (e : Emission) (cap : Capability) : Emission :=
  if bool_decide (cap.(cap_name) ∈ caps) then
    mkEmission
      (e.(em_imports) ++ match cap.(cap_import) with Some import => import_line import | None => [] end)
      (fold_left add_package cap.(cap_packages) e.(em_packages))
      (e.(em_adapters) ++ match cap.(cap_adapter) with Some adapter => [adapter] | None => [] end)
  else e.

Definition emit_extension (declared : list text) (e : Emission) (ext : ExtensionRow) : Emission :=
  if bool_decide (ext.(row_name) ∈ declared) then
    mkEmission (e.(em_imports) ++ import_line ext.(row_import))
      (fold_left add_package ext.(row_packages) e.(em_packages)) e.(em_adapters)
  else e.

Definition WIT_HEAD : text :=
  chars_of "package nexum:module-world;" ++ [10; 10] ++ chars_of "world module {" ++ [10]
  ++ chars_of "    use nexum:host/types@0.1.0.{config, trigger, fault};" ++ [10; 10].
Definition WIT_TAIL : text :=
  [10] ++ chars_of "    export init: func(config: config) -> result<_, fault>;" ++ [10]
  ++ chars_of "    export on-trigger: func(trigger: trigger) -> result<_, fault>;" ++ [10] ++ chars_of "}" ++ [10].

Definition synthesize (declared : list text) (extensions : list ExtensionRow) : result ModuleWorld WorldError :=
  match colliding [] extensions with
  | Some name => Err (WExtensionCollision name)
  | None =>
      let? caps := declared_caps extensions declared in
      let e := fold_left (emit_core caps) CORE (mkEmission [] [chars_of "nexum-host"] []) in
      let e := fold_left (emit_extension declared) extensions e in
      Ok (mkWorld (WIT_HEAD ++ e.(em_imports) ++ WIT_TAIL) e.(em_packages) e.(em_adapters))
  end.

(** ** Packages on disk *)

(** The first ancestor, from the path itself up, that has what is looked for. *)
Fixpoint find_up (here : path -> option path) (cur : path) : option path :=
  match here cur with
  | Some found => Some found
  | None => match cur with [] => None | _ :: parent => find_up here parent end
  end.

Section Disk.
Context (is_file is_dir : path -> bool).

Definition find_extensions_manifest (start : path) : option path :=
  find_up (fun cur => let candidate := chars_of "extensions.toml" :: cur in
                      if is_file candidate then Some candidate else None) start.

Definition find_wit_tree (start : path) : option path :=
  find_up (fun cur => let wit := chars_of "wit" :: cur in if is_dir wit then Some wit else None) start.

Definition resolve_wit_package (wit : path) (package : text) : option path :=
  List.find is_dir [package :: chars_of "deps" :: wit; package :: wit].

Definition resolve_wit_packages (start : path) (packages : list text) : result (list path) WorldError :=
  let? wit := ok_or (WNoWitTree start) (find_wit_tree start) in
  collect (fun package => ok_or (WMissingWitPackage package wit) (resolve_wit_package wit package)) packages.

(** [CARGO_MANIFEST_DIR] is the argument. *)
Definition manifest_dir (var : option path) : result path WorldError := ok_or WNoManifestDir var.

Definition manifest_wit_packages (var : option path) (packages : list text) : result (list path) WorldError :=
  let? dir := manifest_dir var in resolve_wit_packages dir packages.
End Disk.

(** ** Reading a world back *)

(** The import a line of WIT text declares. *)
Definition line_import (line : text) : option text :=
  strip_prefix (chars_of "    import ") line ≫= fun rest =>
    match reverse rest with
    | 59 :: import => Some (reverse import)
    | _ => None
    end.

Definition wit_imports (t : text) : list text := omap line_import (split 10 t).

Lemma split_at_sep h x : split 10 (h ++ 10 :: x) = split 10 h ++ split 10 x.
Proof.
  induction h as [|c h IH]; [done|]. cbn [app split]. destruct (c =? 10); [by rewrite IH|].
  rewrite IH. destruct (split 10 h) as [|w ws] eqn:E; [|done].
  destruct h as [|d h]; cbn in E; [done|]. destruct (d =? 10); [done|]. by destruct (split 10 h).
Qed.

Lemma wit_imports_app h x : wit_imports (h ++ 10 :: x) = wit_imports h ++ wit_imports x.
Proof. unfold wit_imports. by rewrite split_at_sep, omap_app. Qed.

Lemma line_import_line import : line_import (chars_of "    import " ++ import ++ chars_of ";") = Some import.
Proof.
  unfold line_import. rewrite (proj2 (strip_prefix_Some _ _ _) eq_refl). cbn [mbind option_bind].
  rewrite reverse_app. change (reverse (chars_of ";")) with [59]. cbn [app]. by rewrite reverse_involutive.
Qed.

Lemma wit_imports_line import rest : 10 ∉ import -> wit_imports (import_line import ++ rest) = import :: wit_imports rest.
Proof.
  intros Hi. unfold import_line.
  replace ((chars_of "    import " ++ import ++ chars_of ";" ++ [10]) ++ rest)
    with ((chars_of "    import " ++ import ++ chars_of ";") ++ 10 :: rest) by (by rewrite <- !(assoc_L (++))).
  rewrite wit_imports_app. unfold wit_imports at 1. rewrite split_single.
  - cbn [omap list_omap]. by rewrite line_import_line.
  - rewrite !elem_of_app. intros [H|[H|H]]; [|done|]; vm_compute in H; set_solver.
Qed.

(** What a declaration asks the world to import. *)
Definition world_imports (declared : list text) (extensions : list ExtensionRow) : list text :=
  omap (fun c => if bool_decide (cap_as_str c.(cap_name) ∈ declared) then c.(cap_import) else None) CORE
  ++ (row_import <$> List.filter (fun e => bool_decide (e.(row_name) ∈ declared)) extensions).

Definition lines_of (imports : list text) : text := concat (import_line <$> imports).

Lemma wit_imports_lines imports rest :
  Forall (fun i => 10 ∉ i) imports -> wit_imports (lines_of imports ++ rest) = imports ++ wit_imports rest.
Proof.
  intros Hi. induction Hi as [|i imports Hi _ IH]; [done|]. unfold lines_of. rewrite fmap_cons. cbn [concat].
  rewrite <- (assoc_L (++)), wit_imports_line by done. fold (lines_of imports). by rewrite IH.
Qed.

Lemma wit_head_imports rest : wit_imports (WIT_HEAD ++ rest) = wit_imports rest.
Proof.
  assert (exists h, WIT_HEAD = h ++ [10] /\ wit_imports h = []) as (h & -> & Hh).
  { eexists (take (length WIT_HEAD - 1) WIT_HEAD). split; vm_compute; reflexivity. }
  rewrite <- (assoc_L (++)). cbn [app]. by rewrite wit_imports_app, Hh.
Qed.

(** ** What is emitted *)

Lemma cap_name_inj c c' : cap_as_str c = cap_as_str c' -> c = c'.
Proof. by destruct c, c'. Qed.

Lemma parse_cap_Some name c : parse_cap name = Some c <-> cap_as_str c = name.
Proof.
  unfold parse_cap. split.
  - intros H. apply List.find_some in H as [_ H]. by apply bool_decide_eq_true in H.
  - intros <-. by destruct c.
Qed.

Lemma parse_cap_None name : parse_cap name = None -> forall c, cap_as_str c <> name.
Proof. intros H c Hc%parse_cap_Some. congruence. Qed.

Lemma declared_caps_spec extensions declared :
  match declared_caps extensions declared with
  | Ok caps => (forall c, c ∈ caps <-> cap_as_str c ∈ declared) /\
      Forall (fun d => is_Some (parse_cap d) \/ d ∈ (row_name <$> extensions)) declared
  | Err e => exists d, d ∈ declared /\ parse_cap d = None /\ d ∉ (row_name <$> extensions) /\
      e = WUnknownDependency d ((cap_as_str <$> Cap_VARIANTS) ++ (row_name <$> extensions))
  end.
Proof.
  induction declared as [|d declared IH]; cbn [declared_caps]; [split; [set_solver|done]|].
  destruct (parse_cap d) as [cap|] eqn:Ec.
  - destruct (declared_caps extensions declared) as [caps|e].
    + destruct IH as [Hc Hf]. split; [|constructor; eauto]. apply parse_cap_Some in Ec. intros c.
      rewrite !elem_of_cons, Hc. split; intros [H|H]; [left; congruence|by right| |by right].
      left. apply cap_name_inj. congruence.
    + destruct IH as (x & Hx & ? & ? & ?). exists x. split_and!; [by right|done..].
  - case_bool_decide as Hn.
    + destruct (declared_caps extensions declared) as [caps|e].
      * destruct IH as [Hc Hf]. split; [|by constructor; eauto]. intros c. rewrite Hc, elem_of_cons.
        split; [by right|]. intros [H|H]; [|done]. by apply (parse_cap_None d) in H.
      * destruct IH as (x & Hx & ? & ? & ?). exists x. split_and!; [by right|done..].
    + exists d. split_and!; [by left|done..].
Qed.

Lemma colliding_spec prior extensions :
  (forall name, colliding prior extensions = Some name ->
     exists e, e ∈ extensions /\ e.(row_name) = name /\
       (is_Some (parse_cap name) \/ ~ NoDup (prior ++ (row_name <$> extensions)))) /\
  (colliding prior extensions = None -> NoDup prior ->
     NoDup (prior ++ (row_name <$> extensions)) /\ Forall (fun e => parse_cap e.(row_name) = None) extensions).
Proof.
  revert prior. induction extensions as [|ext rest IH]; intros prior; cbn [colliding].
  - split; [done|]. intros _ Hp. by rewrite app_nil_r.
  - destruct (bool_decide_reflect (is_Some (parse_cap ext.(row_name)))) as [Hs|Hs]; cbn [orb].
    { split; [|done]. intros name [= <-]. exists ext. split_and!; [by left|done|by left]. }
    destruct (bool_decide_reflect (ext.(row_name) ∈ prior)) as [Hin|Hni].
    { split; [|done]. intros name [= <-]. exists ext. split_and!; [by left|done|right].
      rewrite NoDup_app. intros (_ & Hd & _). apply (Hd _ Hin). rewrite fmap_cons. by left. }
    destruct (IH (prior ++ [ext.(row_name)])) as [IH1 IH2].
    replace (prior ++ (row_name <$> ext :: rest)) with ((prior ++ [ext.(row_name)]) ++ (row_name <$> rest))
      by (by rewrite <- (assoc_L (++))). split.
    + intros name Hn. destruct (IH1 _ Hn) as (e & He & ? & ?). exists e. split_and!; [by right|done..].
    + intros Hn Hp. destruct (IH2 Hn) as [Hd Hf].
      * apply NoDup_app. split_and!; [done| |apply NoDup_singleton]. intros x Hx ->%list_elem_of_singleton. done.
      * split; [done|]. constructor; [|done]. destruct (parse_cap _); [|done]. by destruct Hs.
Qed.

Lemma add_package_spec ps q :
  NoDup ps -> NoDup (add_package ps q) /\ (forall p, p ∈ add_package ps q <-> p ∈ ps \/ p = q) /\
  exists more, add_package ps q = ps ++ more.
Proof.
  intros Hnd. unfold add_package. case_bool_decide as Hq.
  - split_and!; [done| |by exists []; rewrite app_nil_r]. intros p. split; [by left|]. intros [?| ->]; done.
  - split_and!; [| |by eexists].
    + apply NoDup_app. split_and!; [done| |apply NoDup_singleton]. intros x Hx ->%list_elem_of_singleton. done.
    + intros p. by rewrite elem_of_app, list_elem_of_singleton.
Qed.

Lemma add_packages_spec qs ps :
  NoDup ps -> NoDup (fold_left add_package qs ps) /\ (forall p, p ∈ fold_left add_package qs ps <-> p ∈ ps \/ p ∈ qs) /\
  exists more, fold_left add_package qs ps = ps ++ more.
Proof.
  revert ps. induction qs as [|q qs IH]; intros ps Hnd; cbn [fold_left].
  - split_and!; [done| |by exists []; rewrite app_nil_r]. intros p. rewrite elem_of_nil. tauto.
  - destruct (add_package_spec ps q Hnd) as (Hn & He & m1 & Hm). destruct (IH _ Hn) as (Hn' & He' & m2 & Hm').
    split_and!; [done| |].
    + intros p. rewrite He', He, elem_of_cons. tauto.
    + exists (m1 ++ m2). by rewrite Hm', Hm, (assoc_L (++)).
Qed.

Lemma emit_extensions_spec declared extensions e :
  NoDup e.(em_packages) ->
  let chosen := List.filter (fun x => bool_decide (x.(row_name) ∈ declared)) extensions in
  let e' := fold_left (emit_extension declared) extensions e in
  e'.(em_imports) = e.(em_imports) ++ lines_of (row_import <$> chosen) /\
  e'.(em_adapters) = e.(em_adapters) /\ NoDup e'.(em_packages) /\
  (exists more, e'.(em_packages) = e.(em_packages) ++ more) /\
  (forall p, p ∈ e'.(em_packages) <-> p ∈ e.(em_packages) \/ exists x, x ∈ chosen /\ p ∈ x.(row_packages)).
Proof.
  revert e. induction extensions as [|x xs IH]; intros e Hnd; cbn [fold_left List.filter].
  - split_and!; [by rewrite app_nil_r|done|done|exists []; by rewrite app_nil_r|].
    intros p. split; [by left|]. intros [?|(? & ?%elem_of_nil & _)]; done.
  - unfold emit_extension at 2 4 6 8 10. destruct (bool_decide (x.(row_name) ∈ declared)) eqn:Ex; [|by apply IH].
    destruct (add_packages_spec x.(row_packages) e.(em_packages) Hnd) as (Hn1 & He1 & m1 & Hm1).
    specialize (IH (mkEmission (e.(em_imports) ++ import_line x.(row_import))
      (fold_left add_package x.(row_packages) e.(em_packages)) e.(em_adapters)) Hn1).
    cbn [em_imports em_packages em_adapters] in IH. destruct IH as (Hi & Ha & Hn & [m2 Hm2] & He).
    split_and!; [|done|done| |].
    + rewrite Hi, fmap_cons. unfold lines_of. rewrite fmap_cons. cbn [concat]. by rewrite (assoc_L (++)).
    + exists (m1 ++ m2). by rewrite Hm2, Hm1, (assoc_L (++)).
    + intros p. rewrite He, He1. split.
      * intros [[?|?]|(y & ? & ?)]; [by left|right; exists x; split; [by left|done]|right; exists y; split; [by right|done]].
      * intros [?|(y & [->|?]%elem_of_cons & ?)]; [by left; left|by left; right|right; by exists y].
Qed.

Lemma emit_core_spec (caps : list Cap) (declared : list text) :
  (forall c, c ∈ caps <-> cap_as_str c ∈ declared) ->
  let chosen {A} (f : Capability -> option A) :=
    omap (fun c => if bool_decide (cap_as_str c.(cap_name) ∈ declared) then f c else None) CORE in
  fold_left (emit_core caps) CORE (mkEmission [] [chars_of "nexum-host"] []) =
  mkEmission (lines_of (chosen cap_import)) [chars_of "nexum-host"] (chosen cap_adapter).
Proof.
  intros Hc chosen. unfold chosen, CORE, lines_of.
  cbn [fold_left omap list_omap cap_name cap_import cap_adapter].
  unfold emit_core. cbn [cap_name cap_import cap_adapter cap_packages fold_left].
  rewrite !(bool_decide_ext _ _ (Hc _)).
  repeat (destruct (bool_decide _); cbn [em_imports em_packages em_adapters app fmap list_fmap concat]);
    rewrite ?app_nil_r, <- ?(assoc_L (++)); done.
Qed.

Lemma core_imports_one_line (declared : list text) :
  Forall (fun i => 10 ∉ i)
    (omap (fun c => if bool_decide (cap_as_str c.(cap_name) ∈ declared) then c.(cap_import) else None) CORE).
Proof.
  apply Forall_forall. intros i Hi. apply list_elem_of_omap in Hi as (c & Hc & Hi).
  destruct (bool_decide _); [|done].
  assert (forallb (fun c => match c.(cap_import) with Some i => negb (bool_decide (10 ∈ i)) | None => true end) CORE = true)
    as Hall by (vm_compute; reflexivity).
  apply list_elem_of_In in Hc. apply (proj1 (forallb_forall _ _) Hall) in Hc. rewrite Hi in Hc.
  apply negb_true_iff in Hc. by apply bool_decide_eq_false in Hc.
Qed.

(** The whole result, once the two checks passed. *)
Lemma synthesize_Ok (declared : list text) (extensions : list ExtensionRow) w :
  synthesize declared extensions = Ok w ->
  NoDup (row_name <$> extensions) /\ Forall (fun e => parse_cap e.(row_name) = None) extensions /\
  Forall (fun d => is_Some (parse_cap d) \/ d ∈ (row_name <$> extensions)) declared /\
  w.(wit) = WIT_HEAD ++ lines_of (world_imports declared extensions) ++ WIT_TAIL /\
  w.(adapters) = omap (fun c => if bool_decide (cap_as_str c.(cap_name) ∈ declared) then c.(cap_adapter) else None) CORE /\
  NoDup w.(packages) /\ (exists more, w.(packages) = chars_of "nexum-host" :: more) /\
  (forall p, p ∈ w.(packages) <-> p = chars_of "nexum-host" \/
     exists e, e ∈ extensions /\ e.(row_name) ∈ declared /\ p ∈ e.(row_packages)).
Proof.
  unfold synthesize. destruct (colliding_spec [] extensions) as [_ Hcol].
  destruct (colliding [] extensions); [done|]. destruct (Hcol eq_refl (NoDup_nil_2)) as [Hnd Hcaps].
  pose proof (declared_caps_spec extensions declared) as Hd.
  destruct (declared_caps extensions declared) as [caps|]; [|done]. destruct Hd as [Hc Hf].
  rewrite (emit_core_spec caps declared Hc). intros [= <-]. cbn [wit packages adapters].
  match goal with |- context [fold_left (emit_extension declared) extensions ?e] =>
    destruct (emit_extensions_spec declared extensions e (NoDup_singleton _)) as (Hi & Ha & Hn & [m Hm] & He) end.
  cbn [em_imports em_adapters em_packages] in *. rewrite Hi, Ha, Hm. split_and!; [done..| | | |by eexists|].
  - unfold world_imports, lines_of. by rewrite fmap_app, concat_app, <- !(assoc_L (++)).
  - done.
  - by rewrite <- Hm.
  - intros p. rewrite <- Hm, He, list_elem_of_singleton. split.
    + intros [?|(x & Hx & ?)]; [by left|right]. exists x.
      apply list_elem_of_In, List.filter_In in Hx as [Hx Hb]. apply bool_decide_eq_true in Hb.
      split_and!; [by apply list_elem_of_In|done..].
    + intros [?|(x & Hx & Hb & ?)]; [by left|right]. exists x. split; [|done].
      apply list_elem_of_In, List.filter_In. split; [by apply list_elem_of_In|]. by apply bool_decide_eq_true.
Qed.

(** ** Properties *)

(** C21: the world a module is built against imports exactly the interfaces of the
    dependencies its manifest declares, core rows before extension rows: reading the
    imports back from the WIT text gives those of the declared rows and no others.
    The resolve path lists [nexum-host] and the packages of the declared
    extensions, each once. *)
Theorem world_imports_exactly_the_declared (declared : list text) (extensions : list ExtensionRow) (w : ModuleWorld) :
  synthesize declared extensions = Ok w -> Forall (fun e => 10 ∉ e.(row_import)) extensions ->
  wit_imports w.(wit) = world_imports declared extensions /\
  NoDup w.(packages) /\
  (forall p, p ∈ w.(packages) <-> p = chars_of "nexum-host" \/
     exists e, e ∈ extensions /\ e.(row_name) ∈ declared /\ p ∈ e.(row_packages)).
Proof.
  intros (_ & _ & _ & Hw & _ & Hn & _ & Hp)%synthesize_Ok Hone. split_and!; [|done..].
  rewrite Hw, wit_head_imports, wit_imports_lines.
  - replace (wit_imports WIT_TAIL) with (@nil text) by (vm_compute; reflexivity). apply app_nil_r.
  - unfold world_imports. apply Forall_app. split; [apply core_imports_one_line|].
    apply Forall_fmap, Forall_forall. intros e [He _]%list_elem_of_In%List.filter_In.
    apply (proj1 (Forall_forall _ _) Hone). by apply list_elem_of_In.
Qed.

(** Synthesis accepts a manifest exactly when extension names are unique and
    none is a core capability, and every dependency is a core capability or a
    registered extension. *)
Theorem synthesize_accepts_iff (declared : list text) (extensions : list ExtensionRow) :
  is_ok (synthesize declared extensions) = true <->
  NoDup (row_name <$> extensions) /\ Forall (fun e => parse_cap e.(row_name) = None) extensions /\
  Forall (fun d => is_Some (parse_cap d) \/ d ∈ (row_name <$> extensions)) declared.
Proof.
  split.
  - destruct (synthesize declared extensions) as [w|] eqn:E; [|done]. apply synthesize_Ok in E. tauto.
  - intros (Hnd & Hcaps & Hdecl). unfold synthesize.
    destruct (colliding [] extensions) as [name|] eqn:Ec.
    { destruct (proj1 (colliding_spec [] extensions) _ Ec) as (e & He & <- & [Hs|Hs]); [|done].
      rewrite (proj1 (Forall_forall _ _) Hcaps _ He) in Hs. by destruct Hs. }
    pose proof (declared_caps_spec extensions declared) as Hd.
    destruct (declared_caps extensions declared) as [caps|]; [done|].
    destruct Hd as (d & Hin & Hnone & Hni & _).
    destruct (proj1 (Forall_forall _ _) Hdecl _ Hin) as [Hs|?]; [rewrite Hnone in Hs; by destruct Hs|done].
Qed.

Lemma enforce_capabilities_all declared imports registry :
  (forall i, i ∈ imports -> refuse_import declared registry i = None) ->
  enforce_capabilities declared imports registry = Ok tt.
Proof.
  induction imports as [|i imports IH]; intros H; [done|]. cbn [enforce_capabilities].
  rewrite H by (by left). apply IH. intros j Hj. apply H. by right.
Qed.

(** The runtime's registry has the core namespace first; its interfaces are the rows. *)
Lemma core_import_gated declared registry c i :
  c ∈ CORE -> c.(cap_import) = Some i -> cap_as_str c.(cap_name) ∈ declared ->
  refuse_import declared (registry_core ++ registry) i = None.
Proof.
  intros Hc Hi Hd.
  assert (starts_with (chars_of "wasi:") (without_version i) = false /\ starts_with WASI_HTTP_PREFIX (without_version i) = false
    /\ strip_prefix (chars_of "nexum:host/") (without_version i) = Some (cap_as_str c.(cap_name))
    /\ cap_as_str c.(cap_name) ∈ CORE_CAPABILITIES) as (Hw & Hh & Hs & Hcore).
  { unfold CORE in Hc. repeat (apply elem_of_cons in Hc as [->|Hc]; [cbn in Hi|]); try done; try (by apply elem_of_nil in Hc);
      injection Hi as <-; (split_and!; [vm_compute; reflexivity..|]); unfold CORE_CAPABILITIES; set_solver. }
  unfold refuse_import, wit_import_to_cap. rewrite Hw, Hh. cbn [andb registry_core app find_iface ns_prefix ifaces CORE_NAMESPACE].
  rewrite Hs, bool_decide_true by done. by rewrite bool_decide_true.
Qed.

(** The registry row agrees with the runtime's registry: the import is gated by the
    name the module declares. *)
Definition registered (registry : list NamespaceCaps) (e : ExtensionRow) : Prop :=
  starts_with (chars_of "wasi:") (without_version e.(row_import)) = false /\
  wit_import_to_cap registry e.(row_import) = Some e.(row_name).

(** The capability check over a synthesized world. *)
Lemma synthesized_admitted (declared : list text) (extensions : list ExtensionRow)
    (w : ModuleWorld) (namespaces : list NamespaceCaps) (imports : list text) :
  synthesize declared extensions = Ok w -> Forall (fun e => 10 ∉ e.(row_import)) extensions ->
  Forall (registered (registry_core ++ namespaces)) extensions ->
  (forall i, i ∈ imports -> i ∈ wit_imports w.(wit)) ->
  enforce_capabilities declared imports (registry_core ++ namespaces) = Ok tt.
Proof.
  intros (_ & _ & _ & Hw & _)%synthesize_Ok Hone Hreg Himp. apply enforce_capabilities_all. intros i Hi.
  apply Himp in Hi. rewrite Hw, wit_head_imports, wit_imports_lines in Hi.
  2: { unfold world_imports. apply Forall_app. split; [apply core_imports_one_line|].
       apply Forall_fmap, Forall_forall. intros e [He _]%list_elem_of_In%List.filter_In.
       apply (proj1 (Forall_forall _ _) Hone). by apply list_elem_of_In. }
  replace (wit_imports WIT_TAIL) with (@nil text) in Hi by (vm_compute; reflexivity). rewrite app_nil_r in Hi.
  unfold world_imports in Hi. apply elem_of_app in Hi as [Hi|Hi].
  - apply list_elem_of_omap in Hi as (c & Hc & Hi). case_bool_decide as Hd; [|done]. by eapply core_import_gated.
  - apply list_elem_of_fmap in Hi as (e & -> & [He Hd]%list_elem_of_In%List.filter_In).
    apply bool_decide_eq_true in Hd. apply list_elem_of_In in He.
    destruct (proj1 (Forall_forall _ _) Hreg _ He) as [Hnw Hcap].
    unfold refuse_import. rewrite Hnw. cbn [andb]. rewrite Hcap. by rewrite bool_decide_true.
Qed.

(** The compiler and the runtime agree. A module that imports only what its
    synthesized world lets it import passes the capability check made at load, with
    the same declared dependencies, whenever the extension rows it was built with
    agree with the runtime's registry. *)
Theorem synthesized_world_is_admitted (declared : list text) (extensions : list ExtensionRow)
    (w : ModuleWorld) (namespaces : list NamespaceCaps) (imports : list text) :
  synthesize declared extensions = Ok w -> Forall (fun e => 10 ∉ e.(row_import)) extensions ->
  Forall (registered (registry_core ++ namespaces)) extensions ->
  (forall i, i ∈ imports -> i ∈ wit_imports w.(wit)) ->
  enforce_capabilities declared imports (registry_core ++ namespaces) = Ok tt.
Proof. exact (synthesized_admitted declared extensions w namespaces imports). Qed.

(** ** Packages *)

Lemma find_up_spec here start found :
  find_up here start = Some found <->
  exists below cur, start = below ++ cur /\ here cur = Some found /\
    forall b1 b2, below = b1 ++ b2 -> b2 <> [] -> here (b2 ++ cur) = None.
Proof.
  induction start as [|c start IH]; cbn [find_up].
  - split.
    + destruct (here []) eqn:E; [|done]. intros [= ->]. exists [], []. split_and!; [done..|].
      intros b1 b2 H. symmetry in H. by apply app_nil in H as [_ ->].
    + intros (below & cur & H & Hh & _). symmetry in H. apply app_nil in H as [-> ->]. by rewrite Hh.
  - destruct (here (c :: start)) as [f|] eqn:E.
    + split.
      * intros [= ->]. exists [], (c :: start). split_and!; [done..|].
        intros b1 b2 H. symmetry in H. by apply app_nil in H as [_ ->].
      * intros (below & cur & H & Hh & Hnone). destruct below as [|b below].
        -- cbn in H. subst cur. congruence.
        -- rewrite H in E. by rewrite (Hnone [] (b :: below)) in E.
    + rewrite IH. split.
      * intros (below & cur & -> & Hh & Hnone). exists (c :: below), cur. split_and!; [done..|].
        intros [|b b1] b2 Hb Hne; cbn in Hb.
        -- by subst b2.
        -- apply (Hnone b1 b2); [by injection Hb|done].
      * intros (below & cur & H & Hh & Hnone). destruct below as [|b below]; cbn in H; [subst cur; congruence|].
        injection H as <- ->. exists below, cur. split_and!; [done..|].
        intros b1 b2 -> Hne. by apply (Hnone (c :: b1) b2).
Qed.

(** Package resolution uses the nearest WIT tree alone. A package is resolved to
    the vendored directory of the tree of the closest ancestor that has one, or
    else to the owned directory of that tree; no outer tree is consulted. *)
Theorem packages_from_the_nearest_tree (is_dir : path -> bool) (start : path) (names : list text) (dirs : list path) :
  resolve_wit_packages is_dir start names = Ok dirs ->
  exists below cur, start = below ++ cur /\ is_dir (chars_of "wit" :: cur) = true /\
    (forall b1 b2, below = b1 ++ b2 -> b2 <> [] -> is_dir (chars_of "wit" :: (b2 ++ cur)) = false) /\
    Forall2 (fun name dir =>
      is_dir dir = true /\
      (dir = name :: chars_of "deps" :: chars_of "wit" :: cur \/
       (dir = name :: chars_of "wit" :: cur /\ is_dir (name :: chars_of "deps" :: chars_of "wit" :: cur) = false))) names dirs.
Proof.
  unfold resolve_wit_packages. destruct (find_wit_tree is_dir start) as [tree|] eqn:Et; [|done]. cbn [ok_or].
  unfold find_wit_tree in Et. apply find_up_spec in Et as (below & cur & -> & Hh & Hnone).
  destruct (is_dir (chars_of "wit" :: cur)) eqn:Ed; [|done]. injection Hh as <-.
  intros Hc%collect_Ok. exists below, cur. split_and!; [done..| |].
  - intros b1 b2 Hb Hne. specialize (Hnone b1 b2 Hb Hne). cbn beta zeta in Hnone. by destruct (is_dir (chars_of "wit" :: (b2 ++ cur))).
  - eapply Forall2_impl; [exact Hc|]. intros name dir. unfold resolve_wit_package. cbn [List.find].
    destruct (is_dir (name :: chars_of "deps" :: chars_of "wit" :: cur)) eqn:E1.
    + intros [= <-]. split; [done|by left].
    + destruct (is_dir (name :: chars_of "wit" :: cur)) eqn:E2; [|done]. intros [= <-]. split; [done|by right].
Qed.

(** ** Examples *)

Definition acme : ExtensionRow :=
  mkRow (chars_of "acme") (chars_of "acme:api/acme@0.1.0") [chars_of "acme-api"; chars_of "nexum-host"].

Example synthesize_examples :
  (exists w, synthesize [chars_of "acme"; chars_of "chain"; chars_of "http"] [acme] = Ok w /\
     wit_imports w.(wit) = [chars_of "nexum:host/chain@0.1.0"; chars_of "acme:api/acme@0.1.0"] /\
     w.(packages) = [chars_of "nexum-host"; chars_of "acme-api"] /\ w.(adapters) = [chars_of "chain"]) /\
  synthesize [chars_of "chian"] [] = Err (WUnknownDependency (chars_of "chian") (cap_as_str <$> Cap_VARIANTS)) /\
  synthesize [] [acme; acme] = Err (WExtensionCollision (chars_of "acme")).
Proof. split_and!; [eexists; split_and!|..]; vm_compute; reflexivity. Qed.

Lemma world_imports_exactly_the_declared_witness :
  exists w, synthesize [chars_of "chain"; chars_of "acme"] [acme] = Ok w /\
    wit_imports w.(wit) = world_imports [chars_of "chain"; chars_of "acme"] [acme].
Proof.
  eexists. split; [vm_compute; reflexivity|].
  refine (proj1 (world_imports_exactly_the_declared [chars_of "chain"; chars_of "acme"] [acme] _ _ _));
    [vm_compute; reflexivity|].
  constructor; [|constructor]. apply (bool_decide_eq_false_1 _). vm_compute. reflexivity.
Defined.

Lemma synthesized_world_is_admitted_witness :
  enforce_capabilities [chars_of "chain"; chars_of "acme"] [chars_of "acme:api/acme@0.1.0"]
    (registry_core ++ [mkNamespace (chars_of "acme:api/") [chars_of "acme"]]) = Ok tt.
Proof.
  eapply (synthesized_world_is_admitted _ [acme]).
  - vm_compute. reflexivity.
  - constructor; [|constructor]. apply (bool_decide_eq_false_1 _). vm_compute. reflexivity.
  - constructor; [|constructor]. split; vm_compute; reflexivity.
  - intros i ->%list_elem_of_singleton. apply (bool_decide_eq_true_1 _). vm_compute. reflexivity.
Defined.

Lemma packages_from_the_nearest_tree_witness :
  let is_dir := fun p : path => bool_decide (p ∈ [[chars_of "wit"; chars_of "g"]; [chars_of "a"; chars_of "wit"; chars_of "g"];
                                          [chars_of "wit"]; [chars_of "a"; chars_of "wit"]]) in
  resolve_wit_packages is_dir [chars_of "m"; chars_of "g"] [chars_of "a"] = Ok [[chars_of "a"; chars_of "wit"; chars_of "g"]] /\
  exists below cur, [chars_of "m"; chars_of "g"] = below ++ cur /\ is_dir (chars_of "wit" :: cur) = true.
Proof.
  intros is_dir. assert (resolve_wit_packages is_dir [chars_of "m"; chars_of "g"] [chars_of "a"]
    = Ok [[chars_of "a"; chars_of "wit"; chars_of "g"]]) as E by (vm_compute; reflexivity).
  split; [exact E|].
  destruct (packages_from_the_nearest_tree is_dir _ _ _ E) as (below & cur & Hs & Hd & _).
  exists below, cur. split; [exact Hs|exact Hd].
Defined.
