(* ===== verification/Manifest.v ===== *)
(** * Manifest: loading component.toml

    crates/nexum-runtime-manifest/src/{types,load,error}.rs: the shapes serde reads a
    manifest into, the validation that makes a [LoadedManifest] of them, and the
    check against the capability registry. [load] is what admission takes as its
    manifest loader.

    A section that serde reads into a struct is read from its table form; how the
    [toml] crate treats a struct written as an array is its own and left out.

    The TOML parser, the hex parsers of addresses and topics and the text of a
    nested or floating-point config value are parameters. A table lists its entries
    in key order, the order both [toml::Table] and [BTreeMap] iterate. *)

From stdpp Require Import prelude list gmap strings.
From Stdlib Require Import ZArith Lia.
From S2P Require Import Prelude Primitives Policy Cron Dispatch Admission Toml World.

Local Open Scope rust_scope.
Local Open Scope Z_scope.

#[local] Arguments chars_of : simpl never.

(** ** Shapes *)

Record Dependency : Type := mkDependency { dep_hosts : list text }.

Record ComponentSection : Type := mkComponent {
  cs_name : text;
  cs_version : text;
  cs_digest : option text;
  cs_resources : ResourceSection
}.

Record Manifest : Type := mkRawManifest {
  raw_component : ComponentSection;
  raw_dependencies : option (list (text * Dependency));
  raw_config : list (text * Toml);
  raw_triggers : list (list (text * Toml));
  raw_extensions : list (text * Toml)
}.

Inductive CoreTrigger : Type :=
| CoreBlock (chain_id : Z)
| CoreEvent (chain_id : Z) (address event_signature : option text) (resume : bool)
    (max_lookback start_block : option Z)
| CoreSchedule (cron : text).

Inductive ParseError : Type :=
| PIo
| PToml
| PUnknownCapability (name : text) (known : text)
| PInvalidModuleName (name : text)
| PBlankModuleName
| PUntrimmedModuleName (name : text)
| PMissingCapabilities
| PMisplacedDependencyAttribute (dependency attribute : text)
| PInvalidComponentDigest (value : text)
| PMissingTriggerKind (index : Z)
| PInvalidTrigger (index : Z) (kind : text)
| PInvalidEventAddress (value : text)
| PInvalidEventTopic (value : text)
| PNonStringTriggerFilter (key : text)
| PStartBlockWithoutResume (start_block : Z)
| PInvalidScheduleCron (value : text) (cause : CronError).

(** ** Reading the shapes *)

Definition read_dependency (v : Toml) : option Dependency :=
  as_table v ≫= fun t =>
  if only_fields [chars_of "hosts"] t
  then mkDependency <$> field_or (read_vec read_string) [] (chars_of "hosts") t else None.

Definition read_resources (v : Toml) : option ResourceSection :=
  as_table v ≫= fun t =>
  if only_fields [chars_of "max_memory_bytes"; chars_of "max_fuel_per_dispatch"; chars_of "max_state_bytes"] t then
    field_opt read_u64 (chars_of "max_memory_bytes") t ≫= fun memory =>
    field_opt read_u64 (chars_of "max_fuel_per_dispatch") t ≫= fun fuel =>
    field_opt read_u64 (chars_of "max_state_bytes") t ≫= fun state =>
    Some (mkResources memory fuel state)
  else None.

Definition ComponentSection_default : ComponentSection := mkComponent [] [] None (mkResources None None None).

Definition read_component (v : Toml) : option ComponentSection :=
  as_table v ≫= fun t =>
  if only_fields [chars_of "name"; chars_of "version"; chars_of "digest"; chars_of "resources"] t then
    field_or read_string [] (chars_of "name") t ≫= fun name =>
    field_or read_string [] (chars_of "version") t ≫= fun version =>
    field_opt read_string (chars_of "digest") t ≫= fun digest =>
    field_or read_resources (mkResources None None None) (chars_of "resources") t ≫= fun resources =>
    Some (mkComponent name version digest resources)
  else None.

Definition CORE_SECTIONS : list text :=
  [chars_of "component"; chars_of "dependencies"; chars_of "config"; chars_of "trigger"].

(** The extensions take every key no field has. *)
Definition read_manifest (t : list (text * Toml)) : option Manifest :=
  field_or read_component ComponentSection_default (chars_of "component") t ≫= fun component =>
  field_opt (fun v => as_table v ≫= read_entries read_dependency) (chars_of "dependencies") t ≫= fun dependencies =>
  field_or as_table [] (chars_of "config") t ≫= fun config =>
  field_or (read_vec as_table) [] (chars_of "trigger") t ≫= fun triggers =>
  Some (mkRawManifest component dependencies config triggers
          (List.filter (fun e => negb (bool_decide (e.1 ∈ CORE_SECTIONS))) t)).

(** The tag is [on]; other keys a variant does not have are ignored. *)
Definition read_core_trigger (kind : TriggerKind) (t : list (text * Toml)) : option CoreTrigger :=
  match kind with
  | TKBlock => CoreBlock <$> field read_u64 (chars_of "chain_id") t
  | TKEvent =>
      field read_u64 (chars_of "chain_id") t ≫= fun chain_id =>
      field_opt read_string (chars_of "address") t ≫= fun address =>
      field_opt read_string (chars_of "event_signature") t ≫= fun event_signature =>
      field_or read_bool false (chars_of "resume") t ≫= fun resume =>
      field_opt read_u64 (chars_of "max_lookback") t ≫= fun max_lookback =>
      field_opt read_u64 (chars_of "start_block") t ≫= fun start_block =>
      Some (CoreEvent chain_id address event_signature resume max_lookback start_block)
  | TKSchedule => CoreSchedule <$> field read_string (chars_of "cron") t
  end.

(** ** The registry's names *)

Definition is_known (registry : list NamespaceCaps) (name : text) : bool :=
  bool_decide (name ∈ WASI_GATES) || existsb (fun ns => bool_decide (name ∈ ns.(ifaces))) registry.

Fixpoint join_with (sep : text) (names : list text) : text :=
  match names with [] => [] | [n] => n | n :: rest => n ++ sep ++ join_with sep rest end.

Definition known_names (registry : list NamespaceCaps) : text :=
  join_with (chars_of ", ") (flat_map ifaces registry ++ WASI_GATES).

(** ** Validation *)

Section Validation.
Context (unicode_alphabetic : Z -> bool) (parse_address parse_b256 : text -> option (list Z)).
(** The hex decoder of a digest. *)
Context (decode : nat -> text -> option (list Z)).
(** The text of a float, and of an array or a table. *)
Context (float_text : Z -> text) (value_text : Toml -> text).
Context (parse_toml : text -> option (list (text * Toml))) (read_to_string : text -> option text).

(** [.map(parse).transpose()?]. *)
Definition transpose {A B E} (f : A -> result B E) (o : option A) : result (option B) E :=
  match o with Some x => let? y := f x in Ok (Some y) | None => Ok None end.

Definition core_trigger (trigger : CoreTrigger) : result Trigger ParseError :=
  match trigger with
  | CoreBlock chain_id => Ok (TBlock chain_id)
  | CoreEvent chain_id address event_signature resume max_lookback start_block =>
      let? start_block :=
        match start_block with
        | Some height => if resume : bool then Ok (Some height) else Err (PStartBlockWithoutResume height)
        | None => Ok None
        end in
      let? address := transpose (fun raw => ok_or (PInvalidEventAddress raw) (parse_address raw)) address in
      let? event_signature := transpose (fun raw => ok_or (PInvalidEventTopic raw) (parse_b256 raw)) event_signature in
      Ok (TEvent chain_id address event_signature resume max_lookback start_block)
  | CoreSchedule cron =>
      match from_str unicode_alphabetic cron with
      | Ok schedule => Ok (TSchedule schedule)
      | Err cause => Err (PInvalidScheduleCron cron cause)
      end
  end.

(** The string filters of an extension's trigger. *)
Fixpoint trigger_filters (t : list (text * Toml)) : result (list (text * text)) ParseError :=
  match t with
  | [] => Ok []
  | (key, value) :: t =>
      if bool_decide (key = chars_of "on") then trigger_filters t
      else match value with
           | TomlString value => let? filters := trigger_filters t in Ok ((key, value) :: filters)
           | _ => Err (PNonStringTriggerFilter key)
           end
  end.

Definition from_table (index : Z) (t : list (text * Toml)) : result Trigger ParseError :=
  match table_get (chars_of "on") t ≫= as_str with
  | None => Err (PMissingTriggerKind index)
  | Some kind =>
      match parse_trigger kind with
      | None => let? filters := trigger_filters t in Ok (TExtension kind filters)
      | Some core =>
          let? trigger := ok_or (PInvalidTrigger index kind) (read_core_trigger core t) in
          core_trigger trigger
      end
  end.

(** [zip(1..)], then [collect]. *)
Fixpoint from_tables (index : Z) (ts : list (list (text * Toml))) : result (list Trigger) ParseError :=
  match ts with
  | [] => Ok []
  | t :: ts => let? trigger := from_table index t in let? triggers := from_tables (index + 1) ts in Ok (trigger :: triggers)
  end.

Definition stringify_toml_value (v : Toml) : text :=
  match v with
  | TomlString s => s
  | TomlInteger i => if i <? 0 then chars_of "-" ++ decimal (- i) else decimal i
  | TomlFloat bits => float_text bits
  | TomlBoolean b => if b then chars_of "true" else chars_of "false"
  | TomlDatetime d => d
  | TomlArray _ | TomlTable _ => value_text v
  end.

Definition module_name (raw : text) : result text ParseError :=
  match ModuleId.parse raw with
  | Ok name => Ok name
  | Err ModuleId.Blank => Err PBlankModuleName
  | Err (ModuleId.UnsafePathComponent name) => Err (PInvalidModuleName name)
  | Err (ModuleId.Untrimmed name) => Err (PUntrimmedModuleName name)
  end.

(** The validated manifest, beside the attributes of its dependencies. *)
Definition try_from (m : Manifest) : result (LoadedManifest * list (text * Dependency)) ParseError :=
  let? name := module_name m.(raw_component).(cs_name) in
  let? digest :=
    transpose (fun raw => match Digest.from_str decode raw with Ok d => Ok d | Err _ => Err (PInvalidComponentDigest raw) end)
      m.(raw_component).(cs_digest) in
  let? triggers := from_tables 1 m.(raw_triggers) in
  let? dependencies := ok_or PMissingCapabilities m.(raw_dependencies) in
  let http_allowlist :=
    match List.find (fun e => bool_decide (e.1 = cap_as_str CHttp)) dependencies with
    | Some (_, dep) => HostPattern.parse <$> dep.(dep_hosts)
    | None => []
    end in
  Ok (mkManifest name digest m.(raw_component).(cs_resources) dependencies.*1 http_allowlist
        ((fun e => (e.1, stringify_toml_value e.2)) <$> m.(raw_config)) triggers m.(raw_extensions).*1,
      dependencies).

(** The registry cross-check and the placement of [hosts], entry by entry. *)
Fixpoint check_dependencies (registry : list NamespaceCaps) (deps : list (text * Dependency)) : result unit ParseError :=
  match deps with
  | [] => Ok tt
  | (name, dep) :: deps =>
      if negb (is_known registry name) then Err (PUnknownCapability name (known_names registry))
      else if negb (bool_decide (dep.(dep_hosts) = [])) && negb (bool_decide (name = cap_as_str CHttp))
      then Err (PMisplacedDependencyAttribute name (chars_of "hosts"))
      else check_dependencies registry deps
  end.

Definition load (registry : list NamespaceCaps) (path : text) : result LoadedManifest ParseError :=
  let? raw := ok_or PIo (read_to_string path) in
  let? manifest := ok_or PToml (parse_toml raw ≫= read_manifest) in
  let? loaded := try_from manifest in
  let? _ := check_dependencies registry loaded.2 in
  Ok loaded.1.

(** What admission asks of the loader. *)
Definition manifest_load (registry : list NamespaceCaps) (path : text) : option LoadedManifest :=
  match load registry path with Ok m => Some m | Err _ => None end.
End Validation.

(** ** What a loaded manifest satisfies *)

Definition trigger_ok (t : Trigger) : Prop :=
  match t with
  | TBlock chain_id => 0 <= chain_id
  | TEvent chain_id _ _ resume max_lookback start_block =>
      0 <= chain_id /\ (forall b, max_lookback = Some b -> 0 <= b) /\
      (forall b, start_block = Some b -> 0 <= b /\ resume = true)
  | TExtension kind filters => parse_trigger kind = None /\ chars_of "on" ∉ filters.*1
  | TSchedule cron => wf_schedule cron
  end.

Record manifest_ok (decode : nat -> text -> option (list Z)) (registry : list NamespaceCaps) (m : LoadedManifest) : Prop := {
  ok_name : ModuleId.parse m.(man_name) = Ok m.(man_name);
  ok_digest : forall d, m.(man_digest) = Some d -> exists s, Digest.from_str decode s = Ok d;
  ok_triggers : Forall trigger_ok m.(man_triggers);
  ok_known : Forall (fun d => is_known registry d = true) m.(man_dependencies);
  ok_hosts : m.(man_http_allowlist) <> [] -> HTTP_CAPABILITY ∈ m.(man_dependencies);
  ok_sections : Forall (fun s => s ∉ CORE_SECTIONS) m.(man_sections)
}.

Section Facts.
Context (unicode_alphabetic : Z -> bool) (parse_address parse_b256 : text -> option (list Z)).
Context (decode : nat -> text -> option (list Z)) (float_text : Z -> text) (value_text : Toml -> text).
Context (parse_toml : text -> option (list (text * Toml))) (read_to_string : text -> option text).
#[local] Notation core_trigger := (core_trigger unicode_alphabetic parse_address parse_b256).
#[local] Notation from_table := (from_table unicode_alphabetic parse_address parse_b256).
#[local] Notation from_tables := (from_tables unicode_alphabetic parse_address parse_b256).
#[local] Notation try_from := (try_from unicode_alphabetic parse_address parse_b256 decode float_text value_text).
#[local] Notation load := (load unicode_alphabetic parse_address parse_b256 decode float_text value_text parse_toml read_to_string).

Lemma read_u64_nonneg v z : read_u64 v = Some z -> 0 <= z.
Proof. destruct v; cbn; try done. destruct (Z.leb_spec 0 i); [|done]. by intros [= <-]. Qed.

Lemma field_u64 key t z : field read_u64 key t = Some z -> 0 <= z.
Proof. unfold field. destruct (table_get key t); [|done]. apply read_u64_nonneg. Qed.

Lemma field_opt_u64 key t o z : field_opt read_u64 key t = Some o -> o = Some z -> 0 <= z.
Proof.
  unfold field_opt. destruct (table_get key t) as [v|]; [|by intros [= <-]]. cbn.
  destruct (read_u64 v) as [y|] eqn:E; cbn; [|done]. intros [= <-] [= ->]. by eapply read_u64_nonneg.
Qed.

Ltac take_fields := repeat match goal with
  | H : (_ ≫= _) = Some _ |- _ => apply bind_Some in H as (? & ? & H); cbn beta in H
  | H : (_ <$> _) = Some _ |- _ => apply fmap_Some in H as (? & ? & H)
  end.

Lemma trigger_filters_no_on t fs : trigger_filters t = Ok fs -> chars_of "on" ∉ fs.*1.
Proof.
  revert fs. induction t as [|[k v] t IH]; intros fs; cbn [trigger_filters]; [intros [= <-]; set_solver|].
  case_bool_decide as Hk; [apply IH|]. destruct v; try done.
  destruct (trigger_filters t) as [fs'|]; [|done]. intros [= <-]. rewrite fmap_cons. specialize (IH _ eq_refl). set_solver.
Qed.

(** What a core table converts to. *)
Lemma read_core_trigger_ok kind t c tr :
  read_core_trigger kind t = Some c -> core_trigger c = Ok tr -> trigger_ok tr.
Proof.
  destruct kind; cbn [read_core_trigger]; intros Hr; take_fields; simplify_eq; cbn [Manifest.core_trigger].
  - intros [= <-]. by eapply field_u64.
  - intros Hc. repeat (case_match; [|done]). simplify_eq. cbn. split; [by eapply field_u64|]. split.
    + intros b. by eapply field_opt_u64.
    + intros b ->. match goal with H : match ?o with Some _ => _ | None => _ end = Ok (Some b) |- _ =>
        destruct o as [h|] eqn:Eo; [|done]; destruct x2; [|done]; injection H as -> end.
      split; [by eapply field_opt_u64|done].
  - destruct (from_str _ x) eqn:E; [|done]. intros [= <-]. by eapply from_str_wf.
Qed.

Lemma from_table_ok index t tr : from_table index t = Ok tr -> trigger_ok tr.
Proof.
  unfold Manifest.from_table. destruct (table_get (chars_of "on") t ≫= as_str) as [kind|]; [|done].
  destruct (parse_trigger kind) as [core|] eqn:Ek.
  - destruct (read_core_trigger core t) as [c|] eqn:Ec; [|done]. cbn [ok_or]. by apply read_core_trigger_ok with core t.
  - destruct (trigger_filters t) as [fs|] eqn:Ef; [|done]. intros [= <-]. split; [done|]. by eapply trigger_filters_no_on.
Qed.

Lemma from_tables_spec index ts trs :
  from_tables index ts = Ok trs -> Forall2 (fun t tr => exists i, from_table i t = Ok tr) ts trs.
Proof.
  revert index trs. induction ts as [|t ts IH]; intros index trs; cbn [Manifest.from_tables]; [by intros [= <-]|].
  destruct (from_table index t) as [tr|] eqn:Et; [|done].
  destruct (from_tables (index + 1) ts) as [trs'|] eqn:Es; [|done]. intros [= <-]. constructor; [by eexists|by eapply IH].
Qed.

Lemma check_dependencies_known registry deps :
  check_dependencies registry deps = Ok tt -> Forall (fun d => is_known registry d = true) deps.*1.
Proof.
  induction deps as [|[name dep] deps IH]; cbn [check_dependencies]; [constructor|].
  destruct (is_known registry name) eqn:E; [|done]. cbn [negb]. destruct (_ && _); [done|].
  intros H. rewrite fmap_cons. constructor; [done|by apply IH].
Qed.

(** The parts of a successful load. *)
Lemma load_parts registry path m :
  load registry path = Ok m ->
  exists raw t man deps,
    read_to_string path = Some raw /\ parse_toml raw = Some t /\ read_manifest t = Some man /\
    try_from man = Ok (m, deps) /\ check_dependencies registry deps = Ok tt.
Proof.
  unfold Manifest.load. destruct (read_to_string path) as [raw|]; [|done]. cbn [ok_or].
  destruct (parse_toml raw) as [t|] eqn:Ep; [|done]. cbn [mbind option_bind].
  destruct (read_manifest t) as [man|] eqn:Er; [|done]. cbn [ok_or].
  destruct (try_from man) as [[m' deps]|] eqn:Et; [|done]. cbn [fst snd].
  destruct (check_dependencies registry deps) as [[]|] eqn:Ec; [|done]. intros [= <-].
  by exists raw, t, man, deps.
Qed.

Lemma try_from_parts man m deps :
  try_from man = Ok (m, deps) ->
  ModuleId.parse man.(raw_component).(cs_name) = Ok m.(man_name) /\
  (forall d, m.(man_digest) = Some d -> exists s, Digest.from_str decode s = Ok d) /\
  from_tables 1 man.(raw_triggers) = Ok m.(man_triggers) /\
  man.(raw_dependencies) = Some deps /\ m.(man_dependencies) = deps.*1 /\
  (m.(man_http_allowlist) <> [] -> HTTP_CAPABILITY ∈ deps.*1) /\
  m.(man_sections) = man.(raw_extensions).*1.
Proof.
  unfold Manifest.try_from, module_name.
  destruct (ModuleId.parse _) as [name|err] eqn:En; [|by destruct err].
  destruct (transpose _ _) as [digest|] eqn:Ed; [|done].
  destruct (from_tables 1 _) as [trs|] eqn:Et; [|done].
  destruct (raw_dependencies man) as [ds|] eqn:Er; [|done]. cbn [ok_or]. intros [= <- <-]. cbn.
  split_and!; try done.
  - intros d ->. unfold transpose in Ed. destruct (cs_digest _) as [raw|]; [|done].
    destruct (Digest.from_str decode raw) eqn:Edd; [|done]. injection Ed as <-. by exists raw.
  - destruct (List.find _ ds) as [[k dep]|] eqn:Ef; [|done]. intros _.
    apply List.find_some in Ef as [Hin Hk]. apply bool_decide_eq_true in Hk. cbn in Hk.
    apply list_elem_of_fmap. exists (k, dep). split; [by rewrite Hk|by apply list_elem_of_In].
Qed.

Lemma read_manifest_parts t man :
  read_manifest t = Some man ->
  Forall (fun s => s ∉ CORE_SECTIONS) man.(raw_extensions).*1 /\
  field_opt (fun v => as_table v ≫= read_entries read_dependency) (chars_of "dependencies") t = Some man.(raw_dependencies) /\
  field_or (read_vec as_table) [] (chars_of "trigger") t = Some man.(raw_triggers).
Proof.
  unfold read_manifest. intros Hr. take_fields. simplify_eq. cbn [raw_extensions raw_dependencies raw_triggers].
  split_and!; [|done..]. apply Forall_fmap, Forall_forall. intros e [_ He]%list_elem_of_In%List.filter_In.
  apply negb_true_iff, bool_decide_eq_false in He. done.
Qed.

(** C19: every manifest the loader accepts is well formed, whatever the file
    holds: its name is a valid module id, its digest parses, its triggers have
    non-negative chain ids and heights, a start height only where a cursor is kept,
    schedules that denote real dates and no core kind passed off as an extension's,
    every dependency is known to the registry, and hosts are listed only for a
    declared http dependency. *)
Theorem loaded_manifest_is_valid (registry : list NamespaceCaps) (path : text) (m : LoadedManifest) :
  load registry path = Ok m -> manifest_ok decode registry m.
Proof.
  intros (raw & t & man & deps & _ & _ & Hr & Ht & Hc)%load_parts.
  destruct (try_from_parts _ _ _ Ht) as (Hn & Hd & Hts & _ & Hdeps & Hh & Hs).
  destruct (read_manifest_parts _ _ Hr) as (Hsec & _).
  split.
  - destruct (ModuleId.parse_ok _ _ Hn) as [E _]. by rewrite <- E in Hn.
  - done.
  - apply from_tables_spec in Hts. apply Forall_forall. intros tr Hin.
    apply list_elem_of_lookup in Hin as [i Hi].
    destruct (Forall2_lookup_r _ _ _ _ _ Hts Hi) as (tb & _ & [k Hk]). by eapply from_table_ok.
  - rewrite Hdeps. by apply check_dependencies_known.
  - by rewrite Hdeps.
  - by rewrite Hs.
Qed.

(** ** The two readers of a manifest *)

(** The topic an event trigger filters on. *)
Definition topic_of (t : Trigger) : option (list Z) :=
  match t with TEvent _ _ event_signature _ _ _ => event_signature | _ => None end.

(** Keeping the first of each. *)
Definition distinct (acc l : list (list Z)) : list (list Z) :=
  fold_left (fun acc x => if bool_decide (x ∈ acc) then acc else acc ++ [x]) l acc.

Lemma read_list_Forall2 {A} (f : Toml -> option A) l ys : read_list f l = Some ys -> Forall2 (fun v y => f v = Some y) l ys.
Proof.
  revert ys. induction l as [|v l IH]; intros ys; cbn [read_list]; [by intros [= <-]|].
  destruct (f v) eqn:E; [|done]. destruct (read_list f l); [|done]. intros [= <-]. constructor; [done|by apply IH].
Qed.

(** One trigger table, read by the macro's loop and by the loader. *)
Lemma event_topics_step i t tr acc rest :
  from_table i t = Ok tr ->
  event_topics parse_b256 acc (TomlTable t :: rest) = event_topics parse_b256 (distinct acc (option_list (topic_of tr))) rest.
Proof.
  unfold Manifest.from_table. cbn [event_topics]. unfold value_get. cbn [as_table mbind option_bind].
  destruct (table_get (chars_of "on") t) as [v|]; [|done]. cbn [mbind option_bind].
  destruct (as_str v) as [kind|]; [|done]. cbn [mbind option_bind].
  destruct (parse_trigger kind) as [core|] eqn:Ek.
  2: { destruct (trigger_filters t); [|done]. by intros [= <-]. }
  destruct (read_core_trigger core t) as [c|] eqn:Ec; [|done]. cbn [ok_or].
  destruct core; cbn [read_core_trigger] in Ec; take_fields; simplify_eq; cbn [Manifest.core_trigger].
  - by intros [= <-].
  - intros Hc. repeat (case_match; [|done]). simplify_eq. cbn [topic_of].
    match goal with H : field_opt read_string (chars_of "event_signature") t = Some ?o |- _ => rename H into Hf end.
    unfold field_opt in Hf. destruct (table_get (chars_of "event_signature") t) as [raw|].
    + unfold read_string in Hf. destruct (as_str raw) as [s|]; [|done]. cbn in Hf. injection Hf as <-. cbn [ok_or].
      match goal with H : transpose _ (Some s) = Ok ?o |- _ => cbn in H; destruct (parse_b256 s); [|done]; by injection H as <- end.
    + injection Hf as <-. match goal with H : transpose _ None = Ok ?o |- _ => by injection H as <- end.
  - destruct (from_str _ _); [|done]. by intros [= <-].
Qed.

Lemma event_topics_agree vs ts trs acc :
  Forall2 (fun v t => as_table v = Some t) vs ts -> Forall2 (fun t tr => exists i, from_table i t = Ok tr) ts trs ->
  event_topics parse_b256 acc vs = Ok (distinct acc (omap topic_of trs)).
Proof.
  intros Hv. revert trs acc. induction Hv as [|v t vs ts Hvt _ IH]; intros trs acc Ht; inversion_clear Ht as [|? tr ? trs' [i Hi] Hts].
  - done.
  - destruct v; try done. injection Hvt as ->. rewrite (event_topics_step i t tr) by done.
    rewrite (IH trs') by done. f_equal. cbn [omap list_omap]. unfold distinct. by destruct (topic_of tr).
Qed.

(** The build and the runtime read one manifest alike. For a manifest the
    runtime loads, the dependencies the macro derives the module's world from are
    those the loader declares (unless the retired [capabilities] section is there,
    which the macro refuses), and the topics it generates decoders for are the
    distinct event signatures of the loaded triggers, in order. *)
Theorem build_reads_what_the_runtime_loads (registry : list NamespaceCaps) (path raw : text) (m : LoadedManifest) :
  read_to_string path = Some raw -> load registry path = Ok m ->
  (chars_of "capabilities" ∉ m.(man_sections) -> manifest_capabilities parse_toml raw = Ok m.(man_dependencies)) /\
  manifest_event_topics parse_toml parse_b256 raw = Ok (distinct [] (omap topic_of m.(man_triggers))).
Proof.
  intros Hraw (raw' & t & man & deps & Hraw' & Hp & Hr & Ht & _)%load_parts. rewrite Hraw in Hraw'. injection Hraw' as <-.
  destruct (try_from_parts _ _ _ Ht) as (_ & _ & Hts & Hsome & Hdeps & _ & Hsec).
  destruct (read_manifest_parts _ _ Hr) as (_ & Hfd & Hft). split.
  - intros Hcap. unfold manifest_capabilities. rewrite Hp. cbn [ok_or].
    destruct (table_get (chars_of "capabilities") t) as [v|] eqn:Eg.
    { exfalso. apply Hcap. rewrite Hsec. unfold read_manifest in Hr. take_fields. simplify_eq. cbn [raw_extensions].
      unfold table_get in Eg. apply fmap_Some in Eg as ([k v'] & Hf & ->). apply List.find_some in Hf as [Hin Hk].
      apply bool_decide_eq_true in Hk. cbn in Hk. subst k. apply list_elem_of_fmap. eexists (_, _). split; [reflexivity|].
      apply list_elem_of_In, List.filter_In. split; [exact Hin|]. vm_compute. reflexivity. }
    unfold field_opt in Hfd. destruct (table_get (chars_of "dependencies") t) as [v|]; [|congruence]. cbn [ok_or].
    destruct (as_table v) as [tb|]; [|done]. cbn [mbind option_bind ok_or] in Hfd |- *.
    destruct (read_entries read_dependency tb) as [ds|] eqn:Ee; [|done]. cbn in Hfd.
    assert (ds = deps) as -> by congruence.
    destruct (List.find _ tb) as [[k v']|] eqn:Ef.
    { exfalso. apply List.find_some in Ef as [Hin Hk]. apply list_elem_of_In in Hin.
      assert (Forall (fun e => is_table e.2 = true) tb) as Hall.
      { clear -Ee. revert deps Ee. induction tb as [|[k v] tb IH]; intros ds; cbn [read_entries]; [constructor|].
        destruct (read_dependency v) eqn:E; [|done]. destruct (read_entries read_dependency tb); [|done].
        intros _. constructor; [|by eapply IH]. unfold read_dependency in E. by destruct v. }
      apply (proj1 (Forall_forall _ _) Hall) in Hin. cbn in Hin, Hk. by rewrite Hin in Hk. }
    by rewrite Hdeps, <- (read_entries_keys _ _ _ Ee).
  - unfold manifest_event_topics. rewrite Hp. cbn [ok_or]. apply from_tables_spec in Hts.
    unfold field_or in Hft. destruct (table_get (chars_of "trigger") t) as [v|].
    + unfold read_vec in Hft. destruct (as_array v) as [vs|]; [|done]. cbn [mbind option_bind ok_or] in Hft |- *.
      apply read_list_Forall2 in Hft. by eapply event_topics_agree.
    + injection Hft as Hnil. rewrite <- Hnil in Hts. by inversion_clear Hts.
Qed.
End Facts.

(** ** Examples *)

Definition demo_table : list (text * Toml) := [
  (chars_of "component", TomlTable [(chars_of "name", TomlString (chars_of "demo"))]);
  (chars_of "config", TomlTable [(chars_of "depth", TomlInteger (-3)); (chars_of "on", TomlBoolean true)]);
  (chars_of "dependencies", TomlTable [
     (chars_of "chain", TomlTable []);
     (chars_of "http", TomlTable [(chars_of "hosts", TomlArray [TomlString (chars_of "*.acme.io")])])]);
  (chars_of "feeds", TomlTable []);
  (chars_of "trigger", TomlArray [
     TomlTable [(chars_of "chain_id", TomlInteger 1); (chars_of "event_signature", TomlString (chars_of "t"));
                (chars_of "on", TomlString (chars_of "event")); (chars_of "resume", TomlBoolean true);
                (chars_of "start_block", TomlInteger 5)];
     TomlTable [(chars_of "feed", TomlString (chars_of "x")); (chars_of "on", TomlString (chars_of "feed"))];
     TomlTable [(chars_of "chain_id", TomlInteger 2); (chars_of "event_signature", TomlString (chars_of "t"));
                (chars_of "on", TomlString (chars_of "event"))]])
].

Definition demo_parse (raw : text) : option (list (text * Toml)) := Some demo_table.
Definition demo_hex (raw : text) : option (list Z) := Some raw.
Definition demo_load (table : list (text * Toml)) : result LoadedManifest ParseError :=
  load (fun _ => false) demo_hex demo_hex (fun _ _ => None) (fun _ => []) (fun _ => []) (fun _ => Some table)
    (fun _ => Some []) registry_core [].

Example load_examples :
  demo_load demo_table = Ok (mkManifest (chars_of "demo") None (mkResources None None None)
    [chars_of "chain"; chars_of "http"] [HostPattern.parse (chars_of "*.acme.io")]
    [(chars_of "depth", chars_of "-3"); (chars_of "on", chars_of "true")]
    [TEvent 1 None (Some (chars_of "t")) true None (Some 5);
     TExtension (chars_of "feed") [(chars_of "feed", chars_of "x")];
     TEvent 2 None (Some (chars_of "t")) false None None] [chars_of "feeds"]) /\
  demo_load [] = Err PBlankModuleName /\
  demo_load [(chars_of "component", TomlTable [(chars_of "name", TomlString (chars_of "m"))])] = Err PMissingCapabilities /\
  demo_load [(chars_of "component", TomlTable [(chars_of "name", TomlString (chars_of "m"))]);
             (chars_of "dependencies", TomlTable [(chars_of "chain", TomlTable [(chars_of "hosts", TomlArray [TomlString []])])])]
    = Err (PMisplacedDependencyAttribute (chars_of "chain") (chars_of "hosts")) /\
  demo_load [(chars_of "component", TomlTable [(chars_of "name", TomlString (chars_of "m"))]);
             (chars_of "trigger", TomlArray [TomlTable [(chars_of "chain_id", TomlInteger 1);
               (chars_of "on", TomlString (chars_of "event")); (chars_of "start_block", TomlInteger 5)]])]
    = Err (PStartBlockWithoutResume 5).
Proof. split_and!; vm_compute; reflexivity. Qed.

Lemma loaded_manifest_is_valid_witness :
  exists m, demo_load demo_table = Ok m /\ manifest_ok (fun _ _ => None) registry_core m.
Proof.
  eexists. split; [vm_compute; reflexivity|].
  eapply (loaded_manifest_is_valid (fun _ => false) demo_hex demo_hex (fun _ _ => None) (fun _ => []) (fun _ => [])
    (fun _ => Some demo_table) (fun _ => Some []) registry_core []). vm_compute. reflexivity.
Defined.

Lemma build_reads_what_the_runtime_loads_witness :
  manifest_capabilities demo_parse [] = Ok [chars_of "chain"; chars_of "http"] /\
  manifest_event_topics demo_parse demo_hex [] = Ok [chars_of "t"].
Proof.
  destruct (demo_load demo_table) as [m|e] eqn:E; [|vm_compute in E; discriminate].
  destruct (build_reads_what_the_runtime_loads (fun _ => false) demo_hex demo_hex (fun _ _ => None) (fun _ => []) (fun _ => [])
    demo_parse (fun _ => Some []) registry_core [] [] m eq_refl E) as [H1 H2].
  vm_compute in E. injection E as <-. split.
  - apply H1. apply (bool_decide_eq_false_1 _). vm_compute. reflexivity.
  - exact H2.
Defined.
