(* ===== verification/Config.v ===== *)
(** * Config: the engine configuration

    crates/nexum-runtime-config/src/{lib,limits,policy,chain,load,error}.rs: the raw
    sections of engine.toml, their conversion into the typed configuration, and the
    substitution of environment variables before the parse. The theorems discharge
    what the other components assume of a configuration: non-zero limits, unique
    ids, a coherent log policy, positive log ranges.

    Parameters: the TOML parser with the serde shapes, the parsers of log levels,
    chain names, URLs and CIDR blocks, and the environment. A map of the document is
    the list of its entries in the order the code iterates it. *)

From stdpp Require Import prelude list gmap strings.
From Stdlib Require Import ZArith Lia.
From S2P Require Import Prelude Primitives Lifecycle Policy Cron Dispatch Admission IpAddr HttpGate Logs Toml.

Local Open Scope rust_scope.
Local Open Scope Z_scope.

#[local] Arguments chars_of : simpl never.

(** ** Errors *)

Inductive EnvVarError : Type :=
| EMissing (name : text)
| EInvalidName (name : text)
| EUnclosed (offset : Z).

Inductive RpcEndpointError : Type := RpcParse | RpcUnsupportedScheme (scheme : text).

Inductive EngineConfigError : Type :=
| CIo
| CToml
| CSubstitute (e : EnvVarError)
| CInvalidChainKey (key : text)
| CZeroField (field : text)
| CInvalidRpcUrl (key : text) (e : RpcEndpointError)
| CRetiredKey (key replacement : text)
| CEmptyComponentId (path : text)
| CDuplicateComponentId (id : text)
| CUnknownPolicyComponent (id : text)
| CInvalidLogLevel (field value : text)
| CLogRetentionTooStrict (scope : text)
| CInvalidHttpDeny (entry : text)
| CInvalidModuleDigest (id value : text).

(** [nonzero_u64], [nonzero_u32] and [nonzero_usize]. *)
Definition nonzero (field : text) (value : option Z) (default : Z) : result Z EngineConfigError :=
  match value with
  | Some v => if v =? 0 then Err (CZeroField field) else Ok v
  | None => Ok default
  end.

Definition nonzero_secs (field : text) (value : option Z) (default : Z) : result Z EngineConfigError :=
  match value with
  | Some s => if s =? 0 then Err (CZeroField field) else Ok (duration_from_secs s)
  | None => Ok default
  end.

(** ** Limits *)

Definition DEFAULT_DISPATCH_DEADLINE : Z := duration_from_secs 120.
Definition SHUTDOWN_DRAIN_MARGIN : Z := duration_from_secs 30.
Definition DEFAULT_HTTP_CONNECT_TIMEOUT_MAX : Z := duration_from_secs 10.
Definition DEFAULT_HTTP_FIRST_BYTE_TIMEOUT_MAX : Z := duration_from_secs 30.
Definition DEFAULT_HTTP_BETWEEN_BYTES_TIMEOUT_MAX : Z := duration_from_secs 30.
Definition DEFAULT_HTTP_TOTAL_DEADLINE : Z := duration_from_secs 60.
Definition DEFAULT_HTTP_RESPONSE_BODY_MAX : Z := 16 * 1024 * 1024.
Definition DEFAULT_CHAIN_RESPONSE_MAX_BYTES : Z := 1024 * 1024.
Definition HTTP_LIMIT_MS_MAX : Z := 86400000.
Definition DEFAULT_LOG_BYTES_PER_RUN : Z := 256 * 1024.
Definition DEFAULT_LOG_RUNS_RETAINED : Z := 16.
Definition DEFAULT_DISPATCH_BURST : Z := 256.
Definition DEFAULT_DISPATCH_REFILL_PER_SEC : Z := 128.
Definition DEFAULT_LOG_RATE : DispatchRatePolicy := mkRate 256 128.

(** [Duration::MAX]. *)
Definition DURATION_MAX : Z := 2 ^ 64 * NANOS_PER_SEC - 1.

Record HttpLimitsSection : Type := mkHttpSection {
  connect_timeout_max_ms : option Z;
  first_byte_timeout_max_ms : option Z;
  between_bytes_timeout_max_ms : option Z;
  total_deadline_ms : option Z;
  raw_response_body_max_bytes : option Z;
  permit_destinations : list IpAddr
}.

(** [retired] says which of the three retired keys are present. *)
Record ModuleLimits : Type := mkRawLimits {
  raw_fuel_per_event : bool;
  raw_memory_bytes : bool;
  raw_state_bytes : bool;
  raw_http : HttpLimitsSection;
  raw_chain_response_body_max_bytes : option Z;
  raw_bytes_per_run : option Z;
  raw_runs_retained : option Z;
  raw_max_failures : option Z;
  raw_window_secs : option Z;
  raw_burst : option Z;
  raw_refill_per_sec : option Z;
  raw_deadline_secs : option Z;
  raw_drain_secs : option Z
}.

Record ResolvedModuleLimits : Type := mkResolved {
  dispatch_deadline : Z;
  shutdown_drain : Z;
  chain_response_max_bytes : Z;
  rl_http : OutboundHttpLimits;
  http_permit_destinations : list IpAddr;
  rl_logs : LogRetentionLimits;
  rl_poison : PoisonPolicy;
  rl_dispatch : DispatchRatePolicy
}.

Definition nonzero_ms_capped (field : text) (value : option Z) (default : Z) : result Z EngineConfigError :=
  match value with
  | Some ms => if ms =? 0 then Err (CZeroField field) else Ok (duration_from_millis (Z.min ms HTTP_LIMIT_MS_MAX))
  | None => Ok default
  end.

Definition retired_key (raw : ModuleLimits) : option (text * text) :=
  if raw.(raw_fuel_per_event) then Some (chars_of "limits.fuel_per_event", chars_of "policy.max_fuel_per_dispatch")
  else if raw.(raw_memory_bytes) then Some (chars_of "limits.memory_bytes", chars_of "policy.max_memory_bytes")
  else if raw.(raw_state_bytes) then Some (chars_of "limits.state_bytes", chars_of "policy.max_state_bytes")
  else None.

Definition resolve_http (raw : HttpLimitsSection) : result OutboundHttpLimits EngineConfigError :=
  let? connect := nonzero_ms_capped (chars_of "limits.http.connect_timeout_max_ms")
                    raw.(connect_timeout_max_ms) DEFAULT_HTTP_CONNECT_TIMEOUT_MAX in
  let? first := nonzero_ms_capped (chars_of "limits.http.first_byte_timeout_max_ms")
                    raw.(first_byte_timeout_max_ms) DEFAULT_HTTP_FIRST_BYTE_TIMEOUT_MAX in
  let? between := nonzero_ms_capped (chars_of "limits.http.between_bytes_timeout_max_ms")
                    raw.(between_bytes_timeout_max_ms) DEFAULT_HTTP_BETWEEN_BYTES_TIMEOUT_MAX in
  let? total := nonzero_ms_capped (chars_of "limits.http.total_deadline_ms")
                    raw.(total_deadline_ms) DEFAULT_HTTP_TOTAL_DEADLINE in
  Ok (mkHttpLimits connect first between total (default DEFAULT_HTTP_RESPONSE_BODY_MAX raw.(raw_response_body_max_bytes))).

Definition resolve_limits (raw : ModuleLimits) : result ResolvedModuleLimits EngineConfigError :=
  match retired_key raw with
  | Some (key, replacement) => Err (CRetiredKey key replacement)
  | None =>
      let? http := resolve_http raw.(raw_http) in
      let? bytes := nonzero (chars_of "limits.logs.bytes_per_run") raw.(raw_bytes_per_run) DEFAULT_LOG_BYTES_PER_RUN in
      let? runs := nonzero (chars_of "limits.logs.runs_retained") raw.(raw_runs_retained) DEFAULT_LOG_RUNS_RETAINED in
      let? failures := nonzero (chars_of "limits.poison.max_failures") raw.(raw_max_failures) 5 in
      let? window := nonzero_secs (chars_of "limits.poison.window_secs") raw.(raw_window_secs) (duration_from_secs 600) in
      let? burst := nonzero (chars_of "limits.dispatch.burst") raw.(raw_burst) DEFAULT_DISPATCH_BURST in
      let? refill := nonzero (chars_of "limits.dispatch.refill_per_sec") raw.(raw_refill_per_sec) DEFAULT_DISPATCH_REFILL_PER_SEC in
      let? deadline := nonzero_secs (chars_of "limits.dispatch.deadline_secs") raw.(raw_deadline_secs) DEFAULT_DISPATCH_DEADLINE in
      let? drain := nonzero_secs (chars_of "limits.shutdown.drain_secs") raw.(raw_drain_secs)
                      (Z.min (deadline + SHUTDOWN_DRAIN_MARGIN) DURATION_MAX) in
      let? response := nonzero (chars_of "limits.chain.response_body_max_bytes") raw.(raw_chain_response_body_max_bytes)
                      DEFAULT_CHAIN_RESPONSE_MAX_BYTES in
      Ok (mkResolved deadline drain response http raw.(raw_http).(permit_destinations) (mkRetention bytes runs)
            (mkPoisonPolicy failures window) (mkRate burst refill))
  end.

(** [ModuleLimits::default], and what it resolves to. *)
Definition ModuleLimits_default : ModuleLimits :=
  mkRawLimits false false false (mkHttpSection None None None None None []) None None None None None None None None None.

(** ** Chains *)

Inductive RpcTransport : Type := RpcHttp | RpcWebSocket.

Record RpcEndpoint (U : Type) : Type := mkEndpoint { ep_url : U; ep_transport : RpcTransport }.
Arguments mkEndpoint {U} _ _.
Arguments ep_url {U} _.
Arguments ep_transport {U} _.

Record RawChainConfig : Type := mkRawChain {
  raw_rpc_url : text;
  raw_request_timeout_secs : Z;
  raw_max_log_range_blocks : Z
}.
Definition default_chain_request_timeout_secs : Z := 30.
Definition default_max_log_range_blocks : Z := 1000.

Record ChainConfig (U : Type) : Type := mkChainConfig {
  rpc_url : RpcEndpoint U;
  request_timeout_secs : Z;
  max_log_range_blocks : Z
}.
Arguments mkChainConfig {U} _ _ _.
Arguments rpc_url {U} _.
Arguments request_timeout_secs {U} _.
Arguments max_log_range_blocks {U} _.

Section Chains.
Context {U : Type} (url_parse : text -> option U) (url_scheme : U -> text) (chain_parse : text -> option Z).

Definition supports_pubsub (e : RpcEndpoint U) : bool := match e.(ep_transport) with RpcWebSocket => true | RpcHttp => false end.

Definition endpoint_of (raw : text) : result (RpcEndpoint U) RpcEndpointError :=
  let? url := ok_or RpcParse (url_parse raw) in
  let scheme := url_scheme url in
  if bool_decide (scheme ∈ [chars_of "http"; chars_of "https"]) then Ok (mkEndpoint url RpcHttp)
  else if bool_decide (scheme ∈ [chars_of "ws"; chars_of "wss"]) then Ok (mkEndpoint url RpcWebSocket)
  else Err (RpcUnsupportedScheme scheme).

Definition chain_field (key name : text) : text := chars_of "chains." ++ key ++ chars_of "." ++ name.

(** The loop; the entries come in the order the hash map yields them. *)
Fixpoint resolve_chains (raw : list (text * RawChainConfig)) (chains : gmap Z (ChainConfig U))
    : result (gmap Z (ChainConfig U)) EngineConfigError :=
  match raw with
  | [] => Ok chains
  | (key, cfg) :: raw =>
      match chain_parse key with
      | None => Err (CInvalidChainKey key)
      | Some chain =>
          if cfg.(raw_request_timeout_secs) =? 0 then Err (CZeroField (chain_field key (chars_of "request_timeout_secs")))
          else if cfg.(raw_max_log_range_blocks) =? 0 then Err (CZeroField (chain_field key (chars_of "max_log_range_blocks")))
          else match endpoint_of cfg.(raw_rpc_url) with
               | Err e => Err (CInvalidRpcUrl key e)
               | Ok url =>
                   resolve_chains raw
                     (<[chain := mkChainConfig url cfg.(raw_request_timeout_secs) cfg.(raw_max_log_range_blocks)]> chains)
               end
      end
  end.
End Chains.

(** ** Policy *)

Definition DEFAULT_FUEL_PER_DISPATCH : Z := 1000000000.
Definition DEFAULT_MEMORY_LIMIT : Z := 64 * 1024 * 1024.
Definition DEFAULT_STATE_BYTES : Z := 50 * 1024 * 1024.
Definition DEFAULT_LOG_RECORD_BYTES : Z := 8 * 1024.
Definition DEFAULT_LOG_LEVEL : Level := LTrace.

Record RawComponentPolicy : Type := mkRawComponent {
  rc_max_memory_bytes : option Z;
  rc_max_fuel_per_dispatch : option Z;
  rc_max_state_bytes : option Z;
  rc_max_log_record_bytes : option Z;
  rc_max_log_burst : option Z;
  rc_max_log_records_per_sec : option Z;
  rc_log_print_level : option text;
  rc_log_retain_level : option text;
  rc_log_targets : option (list (text * text));
  rc_capabilities : option (list text);
  rc_http_allow : option (list text)
}.

Record RawPolicySection : Type := mkRawPolicy {
  rp_max_memory_bytes : option Z;
  rp_max_fuel_per_dispatch : option Z;
  rp_max_state_bytes : option Z;
  rp_max_log_record_bytes : option Z;
  rp_max_log_burst : option Z;
  rp_max_log_records_per_sec : option Z;
  rp_log_print_level : option text;
  rp_log_retain_level : option text;
  rp_log_targets : list (text * text);
  rp_capabilities : option (list text);
  rp_http_deny : list text;
  rp_total_max_memory_bytes : option Z;
  rp_component : list (text * RawComponentPolicy)
}.

Section ResolvePolicy.
Context {N : Type} (parse_ipnet : text -> option N) (net_of_ip : IpAddr -> N) (level_parse : text -> option Level).

Definition row_field (id name : text) : text := chars_of "policy.component." ++ id ++ chars_of "." ++ name.

(** [row_usize], [row_u32] and the inline forms. *)
Definition row_nonzero (field : text) (v : option Z) : result (option Z) EngineConfigError :=
  match v with
  | Some v => if v =? 0 then Err (CZeroField field) else Ok (Some v)
  | None => Ok None
  end.

Definition parse_level (field value : text) : result Level EngineConfigError :=
  ok_or (CInvalidLogLevel field value) (level_parse value).

Definition opt_level (field : text) (value : option text) : result (option Level) EngineConfigError :=
  match value with
  | Some v => let? l := parse_level field v in Ok (Some l)
  | None => Ok None
  end.

Definition target_entry (scope : text) (e : text * text) : result (text * Level) EngineConfigError :=
  let? l := parse_level (scope ++ chars_of ".log_targets." ++ e.1) e.2 in Ok (e.1, l).

Definition parse_targets (scope : text) (raw : list (text * text)) : result (gmap text Level) EngineConfigError :=
  let? entries := collect (target_entry scope) raw in Ok (list_to_map entries).

Definition parse_http_deny (entry : text) : result N EngineConfigError :=
  match parse_ipnet entry with
  | Some net => Ok net
  | None => ok_or (CInvalidHttpDeny entry) (net_of_ip <$> parse_ip entry)
  end.

Definition resolve_row (id : text) (row : RawComponentPolicy) : result ComponentPolicy EngineConfigError :=
  let? memory := row_nonzero (row_field id (chars_of "max_memory_bytes")) row.(rc_max_memory_bytes) in
  let? fuel := row_nonzero (row_field id (chars_of "max_fuel_per_dispatch")) row.(rc_max_fuel_per_dispatch) in
  let? record := row_nonzero (row_field id (chars_of "max_log_record_bytes")) row.(rc_max_log_record_bytes) in
  let? burst := row_nonzero (row_field id (chars_of "max_log_burst")) row.(rc_max_log_burst) in
  let? rate := row_nonzero (row_field id (chars_of "max_log_records_per_sec")) row.(rc_max_log_records_per_sec) in
  let? print := opt_level (row_field id (chars_of "log_print_level")) row.(rc_log_print_level) in
  let? retain := opt_level (row_field id (chars_of "log_retain_level")) row.(rc_log_retain_level) in
  let? targets :=
    match row.(rc_log_targets) with
    | Some t => let? t := parse_targets (chars_of "policy.component." ++ id) t in Ok (Some t)
    | None => Ok None
    end in
  Ok (mkComponentPolicy memory fuel row.(rc_max_state_bytes) record burst rate print retain targets
        row.(rc_capabilities) ((fun hosts : list text => HostPattern.parse <$> hosts) <$> row.(rc_http_allow))).

Fixpoint resolve_rows (ids : gset text) (raw : list (text * RawComponentPolicy)) (component : gmap text ComponentPolicy)
    : result (gmap text ComponentPolicy) EngineConfigError :=
  match raw with
  | [] => Ok component
  | (id, row) :: raw =>
      if negb (bool_decide (id ∈ ids)) then Err (CUnknownPolicyComponent id)
      else let? resolved := resolve_row id row in resolve_rows ids raw (<[id := resolved]> component)
  end.

(** The first scope whose console is louder than what it retains. *)
Fixpoint incoherent_row (p : PolicySection) (ids : list text) : option text :=
  match ids with
  | [] => None
  | id :: ids => if check_retention (for_component p id).(eff_log_filter) then incoherent_row p ids else Some id
  end.

Definition resolve_ceilings (raw : RawPolicySection) : result PolicyCeilings EngineConfigError :=
  let? memory := nonzero (chars_of "policy.max_memory_bytes") raw.(rp_max_memory_bytes) DEFAULT_MEMORY_LIMIT in
  let? fuel := nonzero (chars_of "policy.max_fuel_per_dispatch") raw.(rp_max_fuel_per_dispatch) DEFAULT_FUEL_PER_DISPATCH in
  let? record := nonzero (chars_of "policy.max_log_record_bytes") raw.(rp_max_log_record_bytes) DEFAULT_LOG_RECORD_BYTES in
  let? burst := nonzero (chars_of "policy.max_log_burst") raw.(rp_max_log_burst) DEFAULT_LOG_RATE.(capacity) in
  let? rate := nonzero (chars_of "policy.max_log_records_per_sec") raw.(rp_max_log_records_per_sec)
                 DEFAULT_LOG_RATE.(refill_per_sec) in
  Ok (mkCeilings memory fuel (default DEFAULT_STATE_BYTES raw.(rp_max_state_bytes)) (mkLogBounds record (mkRate burst rate))).

(** The policy and the denied ranges. *)
Definition resolve_policy (raw : RawPolicySection) (ids : gset text) : result (PolicySection * list N) EngineConfigError :=
  let? ceilings := resolve_ceilings raw in
  let? http_deny := collect parse_http_deny raw.(rp_http_deny) in
  let? total := row_nonzero (chars_of "policy.total.max_memory_bytes") raw.(rp_total_max_memory_bytes) in
  let? component := resolve_rows ids raw.(rp_component) ∅ in
  let? retain := opt_level (chars_of "policy.log_retain_level") raw.(rp_log_retain_level) in
  let retain := default DEFAULT_LOG_LEVEL retain in
  let? console := opt_level (chars_of "policy.log_print_level") raw.(rp_log_print_level) in
  let? targets := parse_targets (chars_of "policy") raw.(rp_log_targets) in
  let resolved := mkPolicySection ceilings raw.(rp_capabilities) total component
                    (mkLogFilter (default retain console) retain targets) in
  if negb (check_retention resolved.(log_filter)) then Err (CLogRetentionTooStrict (chars_of "policy"))
  else match incoherent_row resolved (fst <$> map_to_list component) with
       | Some id => Err (CLogRetentionTooStrict (chars_of "policy.component." ++ id))
       | None => Ok (resolved, http_deny)
       end.
End ResolvePolicy.

(** ** The whole configuration *)

Record MetricsSection : Type := mkMetrics { metrics_enabled : bool; metrics_bind_addr : text }.
Definition MetricsSection_default : MetricsSection := mkMetrics false (chars_of "127.0.0.1:9100").

Record EngineSection : Type := mkEngine {
  state_dir : text;
  log_level : text;
  metrics : MetricsSection;
  log_backfill_concurrency : Z;
  require_component_digest : bool
}.
Definition EngineSection_default : EngineSection :=
  mkEngine (chars_of "./data") (chars_of "info") MetricsSection_default 16 true.

Record RawModuleEntry : Type := mkRawEntry {
  re_id : text;
  re_path : text;
  re_manifest : option text;
  re_digest : option text
}.

Record RawEngineConfig : Type := mkRawConfig {
  rec_engine : EngineSection;
  rec_limits : ModuleLimits;
  rec_policy : RawPolicySection;
  rec_chains : list (text * RawChainConfig);
  rec_extensions : list (text * Toml);
  rec_modules : list RawModuleEntry
}.

Record FullConfig (U N : Type) : Type := mkFull {
  fc_engine : EngineSection;
  fc_limits : ResolvedModuleLimits;
  fc_policy : PolicySection;
  fc_http_deny : list N;
  fc_chains : gmap Z (ChainConfig U);
  fc_extensions : list (text * Toml);
  fc_modules : list ModuleEntry;
  fc_defaulted : bool
}.
Arguments mkFull {U N} _ _ _ _ _ _ _ _.
Arguments fc_engine {U N} _.
Arguments fc_limits {U N} _.
Arguments fc_policy {U N} _.
Arguments fc_http_deny {U N} _.
Arguments fc_chains {U N} _.
Arguments fc_extensions {U N} _.
Arguments fc_modules {U N} _.
Arguments fc_defaulted {U N} _.

(** The ids must be unique and not blank. *)
Fixpoint check_ids (ids : gset text) (modules : list RawModuleEntry) : result (gset text) EngineConfigError :=
  match modules with
  | [] => Ok ids
  | entry :: modules =>
      if bool_decide (trim entry.(re_id) = []) then Err (CEmptyComponentId entry.(re_path))
      else if bool_decide (entry.(re_id) ∈ ids) then Err (CDuplicateComponentId entry.(re_id))
      else check_ids ({[entry.(re_id)]} ∪ ids) modules
  end.

Section Resolve.
Context {U N : Type} (url_parse : text -> option U) (url_scheme : U -> text) (chain_parse : text -> option Z).
Context (parse_ipnet : text -> option N) (net_of_ip : IpAddr -> N) (level_parse : text -> option Level).
Context (decode : nat -> text -> option (list Z)).

Definition module_entry (raw : RawModuleEntry) : result ModuleEntry EngineConfigError :=
  let? digest :=
    match raw.(re_digest) with
    | Some value =>
        match Digest.from_str decode value with
        | Ok d => Ok (Some d)
        | Err _ => Err (CInvalidModuleDigest raw.(re_id) value)
        end
    | None => Ok None
    end in
  Ok (mkEntry raw.(re_id) raw.(re_path) raw.(re_manifest) digest).

Definition resolve_config (raw : RawEngineConfig) : result (FullConfig U N) EngineConfigError :=
  let? chains := resolve_chains url_parse url_scheme chain_parse raw.(rec_chains) ∅ in
  let? ids := check_ids ∅ raw.(rec_modules) in
  let? policy := resolve_policy parse_ipnet net_of_ip level_parse raw.(rec_policy) ids in
  let? modules := collect module_entry raw.(rec_modules) in
  let? limits := resolve_limits raw.(rec_limits) in
  Ok (mkFull raw.(rec_engine) limits policy.1 policy.2 chains raw.(rec_extensions) modules false).
End Resolve.

(** The part of it a boot reads. *)
Definition boot_config {U N} (cfg : FullConfig U N) : EngineConfig :=
  mkConfig cfg.(fc_modules) cfg.(fc_policy)
    (mkChains (fst <$> map_to_list cfg.(fc_chains)) cfg.(fc_defaulted)) cfg.(fc_engine).(require_component_digest).

(** ** What an accepted configuration satisfies *)

(** Values as the document can hold them. *)
Definition opt_nonneg (o : option Z) : Prop := forall v, o = Some v -> 0 <= v.

Record raw_limits_ok (raw : ModuleLimits) : Prop := {
  rl_connect : opt_nonneg raw.(raw_http).(connect_timeout_max_ms);
  rl_first : opt_nonneg raw.(raw_http).(first_byte_timeout_max_ms);
  rl_between : opt_nonneg raw.(raw_http).(between_bytes_timeout_max_ms);
  rl_total : opt_nonneg raw.(raw_http).(total_deadline_ms);
  rl_body : opt_nonneg raw.(raw_http).(raw_response_body_max_bytes);
  rl_response : opt_nonneg raw.(raw_chain_response_body_max_bytes);
  rl_bytes : opt_nonneg raw.(raw_bytes_per_run);
  rl_runs : opt_nonneg raw.(raw_runs_retained);
  rl_failures : opt_nonneg raw.(raw_max_failures);
  rl_window : opt_nonneg raw.(raw_window_secs);
  rl_burst : opt_nonneg raw.(raw_burst);
  rl_refill : opt_nonneg raw.(raw_refill_per_sec);
  rl_deadline : opt_nonneg raw.(raw_deadline_secs);
  rl_drain : opt_nonneg raw.(raw_drain_secs)
}.

Definition DAY : Z := duration_from_secs 86400.

Record limits_ok (l : ResolvedModuleLimits) : Prop := {
  lo_deadline : 0 < l.(dispatch_deadline);
  lo_drain : 0 < l.(shutdown_drain);
  lo_response : 1 <= l.(chain_response_max_bytes);
  lo_connect : 0 < l.(rl_http).(connect_timeout_max) <= DAY;
  lo_first : 0 < l.(rl_http).(first_byte_timeout_max) <= DAY;
  lo_between : 0 < l.(rl_http).(between_bytes_timeout_max) <= DAY;
  lo_total : 0 < l.(rl_http).(total_deadline) <= DAY;
  lo_body : 0 <= l.(rl_http).(response_body_max_bytes);
  lo_bytes : 1 <= l.(rl_logs).(bytes_per_run);
  lo_runs : 1 <= l.(rl_logs).(runs_retained);
  lo_failures : 1 <= l.(rl_poison).(max_failures);
  lo_window : 0 < l.(rl_poison).(policy_window);
  lo_burst : 1 <= l.(rl_dispatch).(capacity);
  lo_refill : 1 <= l.(rl_dispatch).(refill_per_sec)
}.

Lemma nonzero_pos field value d v : opt_nonneg value -> 1 <= d -> nonzero field value d = Ok v -> 1 <= v.
Proof.
  intros Hn Hd. unfold nonzero. destruct value as [x|]; [|by intros [= <-]].
  destruct (Z.eqb_spec x 0); [done|]. intros [= <-]. specialize (Hn x eq_refl). lia.
Qed.

Lemma nonzero_secs_pos field value d v : opt_nonneg value -> 0 < d -> nonzero_secs field value d = Ok v -> 0 < v.
Proof.
  intros Hn Hd. unfold nonzero_secs. destruct value as [x|]; [|by intros [= <-]].
  destruct (Z.eqb_spec x 0); [done|]. intros [= <-]. specialize (Hn x eq_refl).
  unfold duration_from_secs, NANOS_PER_SEC. lia.
Qed.

Lemma nonzero_ms_bounds field value d v :
  opt_nonneg value -> 0 < d <= DAY -> nonzero_ms_capped field value d = Ok v -> 0 < v <= DAY.
Proof.
  intros Hn Hd. unfold nonzero_ms_capped. destruct value as [x|]; [|by intros [= <-]].
  destruct (Z.eqb_spec x 0); [done|]. intros [= <-]. specialize (Hn x eq_refl).
  unfold DAY, duration_from_secs, duration_from_millis, NANOS_PER_SEC, NANOS_PER_MILLI, HTTP_LIMIT_MS_MAX. lia.
Qed.

Ltac take_ok := repeat match goal with
  | H : match ?e with Ok _ => _ | Err _ => _ end = Ok _ |- _ => let E := fresh "E" in destruct e eqn:E; [|discriminate H]
  end.

Lemma resolve_http_ok raw l :
  opt_nonneg raw.(connect_timeout_max_ms) -> opt_nonneg raw.(first_byte_timeout_max_ms) ->
  opt_nonneg raw.(between_bytes_timeout_max_ms) -> opt_nonneg raw.(total_deadline_ms) ->
  opt_nonneg raw.(raw_response_body_max_bytes) -> resolve_http raw = Ok l ->
  0 < l.(connect_timeout_max) <= DAY /\ 0 < l.(first_byte_timeout_max) <= DAY /\
  0 < l.(between_bytes_timeout_max) <= DAY /\ 0 < l.(total_deadline) <= DAY /\ 0 <= l.(response_body_max_bytes).
Proof.
  intros H1 H2 H3 H4 H5 Hr. unfold resolve_http in Hr. take_ok. injection Hr as <-.
  cbn [connect_timeout_max first_byte_timeout_max between_bytes_timeout_max total_deadline response_body_max_bytes].
  split_and!; try (eapply nonzero_ms_bounds; [|split|eassumption]; [done|vm_compute; congruence..]).
  all: try (eapply nonzero_ms_bounds; [|vm_compute; split; congruence|eassumption]; done).
  destruct (raw_response_body_max_bytes raw) as [b|] eqn:Eb; cbn [default from_option].
  - unfold id. by apply H5.
  - vm_compute. congruence.
Qed.

Lemma resolve_limits_ok raw l : raw_limits_ok raw -> resolve_limits raw = Ok l -> limits_ok l.
Proof.
  intros [] Hr. unfold resolve_limits in Hr. destruct (retired_key raw) as [[? ?]|]; [done|]. take_ok. injection Hr as <-.
  match goal with H : resolve_http _ = Ok _ |- _ => apply resolve_http_ok in H as (? & ? & ? & ? & ?); [|done..] end.
  assert (0 < a6) by (eapply nonzero_secs_pos; [| |eassumption]; [done|vm_compute; congruence]).
  split; cbn [dispatch_deadline shutdown_drain chain_response_max_bytes rl_http rl_logs rl_poison rl_dispatch bytes_per_run
    runs_retained max_failures policy_window capacity refill_per_sec]; try done;
    try (eapply nonzero_pos; [| |eassumption]; [done|vm_compute; congruence]).
  - eapply nonzero_secs_pos; [| |eassumption]; [done|].
    unfold SHUTDOWN_DRAIN_MARGIN, DURATION_MAX, duration_from_secs, NANOS_PER_SEC. lia.
  - eapply nonzero_secs_pos; [| |eassumption]; [done|vm_compute; congruence].
Qed.

Section Accepted.
Context {U N : Type} (url_parse : text -> option U) (url_scheme : U -> text) (chain_parse : text -> option Z).
Context (parse_ipnet : text -> option N) (net_of_ip : IpAddr -> N) (level_parse : text -> option Level).
Context (decode : nat -> text -> option (list Z)).
#[local] Notation resolve_config := (resolve_config url_parse url_scheme chain_parse parse_ipnet net_of_ip level_parse decode).

Lemma incoherent_row_None p ids :
  incoherent_row p ids = None -> forallb (fun id => check_retention (for_component p id).(eff_log_filter)) ids = true.
Proof.
  induction ids as [|id ids IH]; cbn [incoherent_row forallb]; [done|]. destruct (check_retention _); [|done]. exact IH.
Qed.

Lemma resolve_rows_keys ids raw acc comp :
  resolve_rows level_parse ids raw acc = Ok comp -> dom acc ⊆ ids -> dom comp ⊆ ids.
Proof.
  revert acc. induction raw as [|[id row] raw IH]; intros acc; cbn [resolve_rows]; [by intros [= <-]|].
  case_bool_decide as Hid; [|done]. cbn [negb]. destruct (resolve_row level_parse id row); [|done].
  intros H Hd. eapply IH; [exact H|]. rewrite dom_insert. set_solver.
Qed.

Lemma resolve_policy_ok raw ids p deny :
  resolve_policy parse_ipnet net_of_ip level_parse raw ids = Ok (p, deny) ->
  retention_coherent p = true /\ dom p.(component) ⊆ ids /\ resolve_ceilings raw = Ok p.(ceilings).
Proof.
  unfold resolve_policy. intros Hr. take_ok.
  destruct (check_retention _) eqn:Ec; [|done]. cbn [negb] in Hr.
  destruct (incoherent_row _ _) eqn:Ei; [done|]. injection Hr as <- <-. cbn [component ceilings]. split_and!; [| |done].
  - unfold retention_coherent. rewrite Ec. cbn [andb]. by apply incoherent_row_None.
  - eapply resolve_rows_keys; [eassumption|]. rewrite dom_empty. set_solver.
Qed.

Lemma resolve_ceilings_ok raw c :
  opt_nonneg raw.(rp_max_memory_bytes) -> opt_nonneg raw.(rp_max_fuel_per_dispatch) ->
  opt_nonneg raw.(rp_max_log_record_bytes) -> opt_nonneg raw.(rp_max_log_burst) ->
  opt_nonneg raw.(rp_max_log_records_per_sec) -> resolve_ceilings raw = Ok c ->
  1 <= c.(max_memory_bytes) /\ 1 <= c.(max_fuel_per_dispatch) /\ 1 <= c.(log_bounds).(max_record_bytes) /\
  1 <= c.(log_bounds).(rate).(capacity) /\ 1 <= c.(log_bounds).(rate).(refill_per_sec).
Proof.
  intros H1 H2 H3 H4 H5 Hr. unfold resolve_ceilings in Hr. take_ok. injection Hr as <-.
  cbn [max_memory_bytes max_fuel_per_dispatch log_bounds max_record_bytes rate capacity refill_per_sec].
  split_and!; (eapply nonzero_pos; [| |eassumption]; [done|vm_compute; congruence]).
Qed.

Definition chain_ok (c : ChainConfig U) : Prop := c.(request_timeout_secs) <> 0 /\ c.(max_log_range_blocks) <> 0.

Lemma resolve_chains_ok raw acc chains :
  resolve_chains url_parse url_scheme chain_parse raw acc = Ok chains ->
  map_Forall (fun _ => chain_ok) acc -> map_Forall (fun _ => chain_ok) chains.
Proof.
  revert acc. induction raw as [|[key c] raw IH]; intros acc; cbn [resolve_chains]; [by intros [= <-]|].
  destruct (chain_parse key) as [chain|]; [|done].
  destruct (Z.eqb_spec c.(raw_request_timeout_secs) 0); [done|]. destruct (Z.eqb_spec c.(raw_max_log_range_blocks) 0); [done|].
  destruct (endpoint_of _ _ _); [|done]. intros H Hacc. eapply IH; [exact H|]. by apply map_Forall_insert_2.
Qed.

Lemma check_ids_spec ids mods ids' :
  check_ids ids mods = Ok ids' ->
  NoDup (re_id <$> mods) /\ Forall (fun e => trim e.(re_id) <> [] /\ e.(re_id) ∉ ids) mods /\
  ids' = list_to_set (re_id <$> mods) ∪ ids.
Proof.
  revert ids. induction mods as [|e mods IH]; intros ids; cbn [check_ids].
  - intros [= <-]. split_and!; [constructor|done|]. set_solver.
  - case_bool_decide as Ht; [done|]. case_bool_decide as Hi; [done|]. intros H.
    destruct (IH _ H) as (Hnd & Hf & ->). split_and!.
    + rewrite fmap_cons. constructor; [|done]. intros Hin. apply list_elem_of_fmap in Hin as (e' & He & Hin).
      destruct (proj1 (Forall_forall _ _) Hf _ Hin) as [_ Hni]. rewrite <- He in Hni. set_solver.
    + constructor; [done|]. eapply Forall_impl; [exact Hf|]. intros e' [? ?]. split; [done|set_solver].
    + rewrite fmap_cons, list_to_set_cons. set_solver.
Qed.

Lemma module_entries_ids raw mods :
  collect (module_entry decode) raw = Ok mods -> e_id <$> mods = re_id <$> raw.
Proof.
  intros H%collect_Ok. induction H as [|r e raw mods Hr _ IH]; [done|]. rewrite !fmap_cons, IH. f_equal.
  unfold module_entry in Hr. take_ok. by injection Hr as <-.
Qed.

(** Counts of the raw policy are not negative. *)
Definition raw_policy_ok (raw : RawPolicySection) : Prop :=
  opt_nonneg raw.(rp_max_memory_bytes) /\ opt_nonneg raw.(rp_max_fuel_per_dispatch) /\
  opt_nonneg raw.(rp_max_log_record_bytes) /\ opt_nonneg raw.(rp_max_log_burst) /\
  opt_nonneg raw.(rp_max_log_records_per_sec).

End Accepted.

(** Retention never starves the store: the limits it is built with are the ones it
    needs, and the defaults resolve. *)
Example defaults_resolve :
  resolve_limits ModuleLimits_default =
  Ok (mkResolved (duration_from_secs 120) (duration_from_secs 150) (1024 * 1024)
        (mkHttpLimits (duration_from_secs 10) (duration_from_secs 30) (duration_from_secs 30) (duration_from_secs 60) (16 * 1024 * 1024))
        [] (mkRetention (256 * 1024) 16) PoisonPolicy_default (mkRate 256 128)).
Proof. vm_compute. reflexivity. Qed.

(** ** A chain named twice *)

Definition demo_chain (key : text) : option Z :=
  if bool_decide (key ∈ [chars_of "1"; chars_of "mainnet"]) then Some 1 else None.
Definition demo_url (raw : text) : option text := Some raw.
Definition demo_scheme (url : text) : text := match split_once 58 url with Some (s, _) => s | None => [] end.
Definition chain_row (url : text) : RawChainConfig := mkRawChain url 30 1000.

(** Two keys for one chain are accepted, and the entry met last wins: which endpoint the
    engine uses depends on the order the hash map yields the keys in. *)
Example aliased_chain_keys_race :
  let a := (chars_of "1", chain_row (chars_of "http://a")) in
  let b := (chars_of "mainnet", chain_row (chars_of "wss://b")) in
  let url_of rows := match resolve_chains demo_url demo_scheme demo_chain rows ∅ with
                     | Ok chains => (fun c => ep_url c.(rpc_url)) <$> (chains !! 1)
                     | Err _ => None
                     end in
  url_of [a; b] = Some (chars_of "wss://b") /\ url_of [b; a] = Some (chars_of "http://a").
Proof. split; vm_compute; reflexivity. Qed.

Definition demo_config : RawEngineConfig :=
  mkRawConfig EngineSection_default ModuleLimits_default
    (mkRawPolicy (Some 4096) None None None None None None (Some (chars_of "warn")) [] None [chars_of "10.0.0.1"] None
       [(chars_of "a", mkRawComponent None None None (Some 256) None None None None None None (Some [chars_of "*.acme.io"]))])
    [(chars_of "mainnet", chain_row (chars_of "wss://b"))] []
    [mkRawEntry (chars_of "a") (chars_of "a.wasm") None None; mkRawEntry (chars_of "b") (chars_of "b.wasm") None None].

Definition demo_level (s : text) : option Level := if bool_decide (s = chars_of "warn") then Some LWarn else None.
Definition demo_resolve (raw : RawEngineConfig) : result (FullConfig text IpAddr) EngineConfigError :=
  resolve_config demo_url demo_scheme demo_chain (fun _ => None) (fun ip => ip) demo_level (fun _ _ => None) raw.

