(* ===== verification/EnvSubst.v ===== *)
(** * EnvSubst: environment variables in engine.toml

    crates/nexum-runtime-config/src/load.rs: the lexer that tells comments from
    strings, the substitution of [${NAME}] outside comments, and [load_or_default].
    The document is its UTF-8 bytes; the environment and the file are arguments. *)

From stdpp Require Import prelude list gmap strings.
From Stdlib Require Import ZArith Lia.
From S2P Require Import Prelude Toml Config.

Local Open Scope rust_scope.
Local Open Scope Z_scope.

#[local] Arguments chars_of : simpl never.

(** ** The lexer *)

Inductive Lex : Type := Bare | Comment | Basic | Literal | MultiBasic | MultiLiteral.

#[export] Instance Lex_eq_dec : EqDecision Lex.
Proof. solve_decision. Defined.

(** The length of the run of a byte at the front. *)
Fixpoint run (quote : Z) (s : text) : nat :=
  match s with b :: s => if b =? quote then S (run quote s) else O | [] => O end.

(** [char::len_utf8] of the first character. *)
Definition char_len (b : Z) : nat :=
  if b <? 128 then 1%nat else if b <? 224 then 2%nat else if b <? 240 then 3%nat else 4%nat.

Definition multi_line_quotes (lex : Lex) (n : nat) : nat * Lex :=
  if (3 <=? n)%nat then (Nat.min n 5, Bare) else (n, lex).

(** The quotes and the comment sign. *)
Definition QUOTE : Z := 34.
Definition APOSTROPHE : Z := 39.
Definition BACKSLASH : Z := 92.
Definition HASH : Z := 35.
Definition NEWLINE : Z := 10.

Definition escaped (s : text) : bool :=
  match s with
  | b :: c :: _ => (b =? BACKSLASH) && ((c =? QUOTE) || (c =? BACKSLASH))
  | _ => false
  end.

Definition step (lex : Lex) (rest : text) : nat * Lex :=
  match rest with
  | [] => (1%nat, lex)
  | b :: _ =>
      match lex with
      | Bare =>
          if b =? HASH then (1%nat, Comment)
          else if b =? QUOTE then if (3 <=? run QUOTE rest)%nat then (3%nat, MultiBasic) else (1%nat, Basic)
          else if b =? APOSTROPHE then if (3 <=? run APOSTROPHE rest)%nat then (3%nat, MultiLiteral) else (1%nat, Literal)
          else (char_len b, lex)
      | Comment => if b =? NEWLINE then (1%nat, Bare) else (char_len b, lex)
      | Basic =>
          if (b =? QUOTE) || (b =? NEWLINE) then (1%nat, Bare)
          else if escaped rest then (2%nat, lex) else (char_len b, lex)
      | Literal => if (b =? APOSTROPHE) || (b =? NEWLINE) then (1%nat, Bare) else (char_len b, lex)
      | MultiBasic =>
          if escaped rest then (2%nat, lex)
          else if b =? QUOTE then multi_line_quotes lex (run QUOTE rest) else (char_len b, lex)
      | MultiLiteral =>
          if b =? APOSTROPHE then multi_line_quotes lex (run APOSTROPHE rest) else (char_len b, lex)
      end
  end.

(** ** The substitution *)

Definition is_valid_env_name (s : text) : bool :=
  match s with
  | [] => false
  | first :: rest =>
      (is_ascii_uppercase first || (first =? 95))
      && forallb (fun c => is_ascii_uppercase c || is_ascii_digit c || (c =? 95)) rest
  end.

Definition OPEN : text := chars_of "${".

Section Substitute.
Context (env : text -> option text).

(** The loop at byte [i], with the text left; what it pushes is in front of the result. *)
Fixpoint substitute_from (fuel : nat) (i : Z) (lex : Lex) (raw : text) : result text EnvVarError :=
  match fuel, raw with
  | _, [] => Ok []
  | O, _ => Ok []
  | S fuel, _ =>
      match (if bool_decide (lex = Comment) then None else strip_prefix OPEN raw) with
      | Some after =>
          match split_once 125 after with
          | None => Err (EUnclosed i)
          | Some (name, rest) =>
              if negb (is_valid_env_name name) then Err (EInvalidName name)
              else match env name with
                   | None => Err (EMissing name)
                   | Some val =>
                       let? out := substitute_from fuel (i + Z.of_nat (length name) + 3) lex rest in Ok (val ++ out)
                   end
          end
      | None =>
          let (n, next) := step lex raw in
          let? out := substitute_from fuel (i + Z.of_nat n) next (drop n raw) in Ok (take n raw ++ out)
      end
  end.

Definition substitute_env_vars (raw : text) : result text EnvVarError := substitute_from (length raw) 0 Bare raw.

Section Load.
Context {U N : Type} (resolve : RawEngineConfig -> result (FullConfig U N) EngineConfigError).
Context (exists_file : text -> bool) (read_to_string : text -> option text) (parse_raw : text -> option RawEngineConfig).
(** [EngineConfig::default]. *)
Context (default_config : FullConfig U N).

Definition load_or_default (path : option text) : result (FullConfig U N) EngineConfigError :=
  let path := default (chars_of "engine.toml") path in
  if negb (exists_file path) then
    Ok (mkFull default_config.(fc_engine) default_config.(fc_limits) default_config.(fc_policy)
          default_config.(fc_http_deny) default_config.(fc_chains) default_config.(fc_extensions)
          default_config.(fc_modules) true)
  else
    let? raw := ok_or CIo (read_to_string path) in
    match substitute_env_vars raw with
    | Err e => Err (CSubstitute e)
    | Ok substituted => let? raw := ok_or CToml (parse_raw substituted) in resolve raw
    end.
End Load.

(** ** What substitution means *)

(** [expands lex raw out]: read in state [lex], [raw] expands to [out]. A placeholder
    outside a comment is replaced by its value, which is not read again; any other
    unit of the lexer is copied. *)
Inductive expands : Lex -> text -> text -> Prop :=
| expands_end lex : expands lex [] []
| expands_var lex name val rest out :
    lex <> Comment -> is_valid_env_name name = true -> env name = Some val -> expands lex rest out ->
    expands lex (OPEN ++ name ++ [125] ++ rest) (val ++ out)
| expands_copy lex unit rest next out :
    unit <> [] -> (lex = Comment \/ starts_with OPEN (unit ++ rest) = false) ->
    (step lex (unit ++ rest)).2 = next -> take (step lex (unit ++ rest)).1 (unit ++ rest) = unit ->
    expands next rest out -> expands lex (unit ++ rest) (unit ++ out).
End Substitute.

(** ** Facts *)

Lemma char_len_pos b : (1 <= char_len b)%nat.
Proof. unfold char_len. repeat destruct (_ <? _); lia. Qed.

Lemma run_pos q b s : b =? q = true -> (1 <= run q (b :: s))%nat.
Proof. intros H. cbn [run]. rewrite H. lia. Qed.

Lemma multi_line_quotes_pos lex n : (1 <= n)%nat -> (1 <= (multi_line_quotes lex n).1)%nat.
Proof. unfold multi_line_quotes. destruct (3 <=? n)%nat; cbn [fst]; lia. Qed.

(** Every unit has a byte, so each round consumes input. *)
Lemma step_pos lex raw : raw <> [] -> (1 <= (step lex raw).1)%nat.
Proof.
  destruct raw as [|b s]; [done|]. intros _. pose proof (char_len_pos b). unfold step.
  destruct lex; repeat case_match; cbn [fst]; try lia; apply multi_line_quotes_pos, run_pos; done.
Qed.

Lemma valid_name_not_in c name :
  is_ascii_uppercase c = false -> is_ascii_digit c = false -> c <> 95 -> is_valid_env_name name = true -> c ∉ name.
Proof.
  intros Hu Hd Hc. destruct name as [|f rest]; [done|]. cbn [is_valid_env_name]. intros [Hf Hr]%andb_true_iff.
  intros [->|Hin]%elem_of_cons.
  - rewrite Hu in Hf. apply Z.eqb_eq in Hf. done.
  - apply list_elem_of_In, (proj1 (forallb_forall _ _) Hr) in Hin. rewrite Hu, Hd in Hin. cbn in Hin.
    apply Z.eqb_eq in Hin. done.
Qed.

Lemma take_unit {A} n (unit rest : list A) : take n (unit ++ rest) = unit -> drop n (unit ++ rest) = rest.
Proof. intros H. apply (app_inv_head unit). rewrite <- H at 1. by rewrite take_drop. Qed.

Section Facts.
Context (env : text -> option text).

Lemma substitute_sound fuel i lex raw out :
  (length raw <= fuel)%nat -> substitute_from env fuel i lex raw = Ok out -> expands env lex raw out.
Proof.
  revert i lex raw out. induction fuel as [|fuel IH]; intros i lex raw out Hf.
  - assert (raw = []) as -> by (apply nil_length_inv; lia). intros [= <-]. constructor.
  - cbn [substitute_from]. destruct raw as [|b s] eqn:Er; [intros [= <-]; constructor|]. rewrite <- Er in *.
    assert (raw <> []) as Hne by congruence.
    destruct (if bool_decide (lex = Comment) then None else strip_prefix OPEN raw) as [after|] eqn:Ev.
    + case_bool_decide as Hlex; [done|]. apply strip_prefix_Some in Ev.
      destruct (split_once 125 after) as [[name rest]|] eqn:Es; [|done]. apply split_once_Some in Es as [-> _].
      destruct (is_valid_env_name name) eqn:En; [|done]. cbn [negb]. destruct (env name) as [val|] eqn:Ee; [|done].
      destruct (substitute_from env fuel _ lex rest) as [out'|] eqn:E; [|done]. intros [= <-].
      rewrite Ev. change (125 :: rest) with ([125] ++ rest). apply expands_var; [done..|].
      eapply IH; [|exact E]. rewrite Ev, !length_app in Hf. cbn [length] in Hf. change (length OPEN) with 2%nat in Hf. lia.
    + pose proof (step_pos lex raw Hne) as Hp. destruct (step lex raw) as [n next] eqn:Est. cbn [fst] in Hp.
      destruct (substitute_from env fuel _ next (drop n raw)) as [out'|] eqn:E; [|done]. intros [= <-].
      rewrite <- (take_drop n raw) at 1. apply (expands_copy env lex _ _ next).
      * intros Hnil. apply (f_equal length) in Hnil. rewrite length_take in Hnil. cbn in Hnil.
        destruct raw; [done|]. cbn in Hnil. lia.
      * rewrite take_drop. case_bool_decide as Hlex; [by left|right].
        destruct (starts_with OPEN raw) eqn:Es; [|done]. apply starts_with_inv in Es as [r ->].
        rewrite (proj2 (strip_prefix_Some OPEN (OPEN ++ r) r) eq_refl) in Ev. done.
      * rewrite take_drop. by rewrite Est.
      * rewrite take_drop. by rewrite Est.
      * eapply IH; [|exact E]. rewrite length_drop. lia.
Qed.

Lemma substitute_complete lex raw out :
  expands env lex raw out -> forall fuel i, (length raw <= fuel)%nat -> substitute_from env fuel i lex raw = Ok out.
Proof.
  induction 1 as [lex|lex name val rest out Hlex Hn He _ IH|lex unit rest next out Hne Hopen Hnext Htake _ IH]; intros fuel i Hf.
  - by destruct fuel.
  - rewrite !length_app in Hf. change (length OPEN) with 2%nat in Hf. cbn [length] in Hf.
    destruct fuel as [|fuel]; [lia|]. cbn [substitute_from].
    destruct (OPEN ++ name ++ [125] ++ rest) as [|b s] eqn:Eraw; [done|]. rewrite <- Eraw.
    rewrite bool_decide_false by done. rewrite (proj2 (strip_prefix_Some OPEN _ (name ++ [125] ++ rest)) eq_refl).
    change ([125] ++ rest) with (125 :: rest).
    rewrite split_once_app by (by apply valid_name_not_in). rewrite Hn, He. cbn [negb]. by rewrite IH by lia.
  - rewrite length_app in Hf. assert (0 < length unit)%nat by (destruct unit; [done|cbn; lia]).
    destruct fuel as [|fuel]; [lia|]. cbn [substitute_from].
    destruct (unit ++ rest) as [|b s] eqn:Eraw; [by apply app_nil in Eraw as [-> _]|]. rewrite <- Eraw in *.
    assert ((if bool_decide (lex = Comment) then None else strip_prefix OPEN (unit ++ rest)) = None) as ->.
    { case_bool_decide as Hlex; [done|]. destruct Hopen as [?|Hs]; [done|].
      destruct (strip_prefix OPEN (unit ++ rest)) as [r|] eqn:E; [|done]. apply strip_prefix_Some in E.
      rewrite E, starts_with_app in Hs. done. }
    destruct (step lex (unit ++ rest)) as [n next'] eqn:Est. cbn [fst snd] in Hnext, Htake. subst next'.
    rewrite (take_unit _ _ _ Htake), Htake. by rewrite IH by lia.
Qed.


(** An expansion is unique. *)
Lemma expands_unique lex raw out1 out2 : expands env lex raw out1 -> expands env lex raw out2 -> out1 = out2.
Proof.
  intros H1 H2. pose proof (substitute_complete _ _ _ H1 (length raw) 0 (le_n _)) as E1.
  rewrite (substitute_complete _ _ _ H2 (length raw) 0 (le_n _)) in E1. by injection E1.
Qed.

(** A document without a placeholder is unchanged. *)
Lemma no_placeholder_identity lex raw :
  contains OPEN raw = false -> expands env lex raw raw.
Proof.
  revert lex. induction raw as [raw IH] using (induction_ltof1 _ length); unfold ltof in IH. intros lex Hc.
  destruct (decide (raw = [])) as [->|Hne]; [constructor|].
  pose proof (step_pos lex raw Hne) as Hp. destruct (step lex raw) as [n next] eqn:Est. cbn [fst] in Hp.
  assert (forall k, contains OPEN (drop k raw) = false) as Hdrop.
  { clear -Hc. intros k. revert raw Hc. induction k as [|k IHk]; intros raw Hc; [done|].
    destruct raw as [|b s]; [done|]. cbn [drop]. apply IHk. cbn [contains] in Hc.
    destruct (starts_with OPEN (b :: s)); [done|]. exact Hc. }
  rewrite <- (take_drop n raw). apply (expands_copy env lex _ _ next).
  - intros Hnil. apply (f_equal length) in Hnil. rewrite length_take in Hnil. cbn in Hnil. destruct raw; [done|]. cbn in Hnil. lia.
  - rewrite take_drop. right. destruct raw as [|b s]; [done|]. cbn [contains] in Hc. by destruct (starts_with OPEN (b :: s)).
  - by rewrite take_drop, Est.
  - by rewrite take_drop, Est.
  - apply IH; [|apply Hdrop]. rewrite length_drop. destruct raw; [done|]. cbn [length]. lia.
Qed.
End Facts.

(** ** Examples *)

Definition demo_env (name : text) : option text := if bool_decide (name = chars_of "KEY") then Some (chars_of "k#1") else None.

(** A comment names an unset variable and is left alone; a hash inside a string opens
    no comment; a value that holds a hash opens none either. *)
Example substitute_examples :
  substitute_env_vars demo_env (chars_of "# ${UNSET}" ++ [10] ++ chars_of "url = 'x#${KEY}' # ${UNSET}")
    = Ok (chars_of "# ${UNSET}" ++ [10] ++ chars_of "url = 'x#k#1' # ${UNSET}") /\
  substitute_env_vars demo_env (chars_of "a = ${KEY}${KEY}") = Ok (chars_of "a = k#1k#1") /\
  substitute_env_vars demo_env (chars_of "a = ${UNSET}") = Err (EMissing (chars_of "UNSET")) /\
  substitute_env_vars demo_env (chars_of "a = ${key}") = Err (EInvalidName (chars_of "key")) /\
  substitute_env_vars demo_env (chars_of "a = ${KEY") = Err (EUnclosed 4).
Proof. split_and!; vm_compute; reflexivity. Qed.
