(* ===== verification/MockStore.v ===== *)
(** * MockStore: the stores module authors test against

    crates/nexum-sdk-test/src/local_store.rs: [MockLocalStore], handles over shared
    rows with injected faults and budgets, and [TrapStore], which wraps any host and
    cuts it off at a chosen write. Both are proved to keep the laws [HostStore] and
    [Keeper] are proved against, so what those prove of a module's helpers is what a
    test of them sees, at every crash point. *)

From stdpp Require Import prelude list gmap sorting strings.
From Stdlib Require Import ZArith Lia.
From S2P Require Import Prelude StoreApi HostStore.

Local Open Scope Z_scope.

#[local] Arguments chars_of : simpl never.

(** ** The mock *)

Record SharedRows : Type := mkShared {
  rows : gmap (text * text) (list Z);
  bytes : Z;
  max_entries : option Z;
  max_bytes : option Z;
  max_page : option nat
}.

(** A handle with the rows it shares. *)
Record MockLocalStore : Type := mkMock {
  shared : SharedRows;
  namespace : text;
  error_patterns : list (text * Fault)
}.

Definition mock_new : MockLocalStore := mkMock (mkShared ∅ 0 None None None) [] [].

(** The empty namespace panics. *)
Definition namespaced (m : MockLocalStore) (ns : text) : option MockLocalStore :=
  if bool_decide (ns = []) then None else Some (mkMock m.(shared) ns []).

(** The rows of a namespace. *)
Definition view (ns : text) (m : gmap (text * text) (list Z)) : gmap text (list Z) :=
  default ∅ (map_curry (M1 := gmap text) (M2 := gmap text) (M12 := gmap (text * text)) m !! ns).

Definition mock_len (m : MockLocalStore) : Z := Z.of_nat (size (view m.(namespace) m.(shared).(rows))).
Definition mock_is_empty (m : MockLocalStore) : bool := mock_len m =? 0.
Definition snapshot (m : MockLocalStore) : gmap text (list Z) := view m.(namespace) m.(shared).(rows).

Definition with_shared (m : MockLocalStore) (s : SharedRows) : MockLocalStore :=
  mkMock s m.(namespace) m.(error_patterns).

Definition set_max_entries (m : MockLocalStore) (limit : Z) : MockLocalStore :=
  with_shared m (mkShared m.(shared).(rows) m.(shared).(bytes) (Some limit) m.(shared).(max_bytes) m.(shared).(max_page)).
Definition set_max_bytes (m : MockLocalStore) (limit : Z) : MockLocalStore :=
  with_shared m (mkShared m.(shared).(rows) m.(shared).(bytes) m.(shared).(max_entries) (Some limit) m.(shared).(max_page)).
Definition set_max_page (m : MockLocalStore) (limit : nat) : MockLocalStore :=
  with_shared m (mkShared m.(shared).(rows) m.(shared).(bytes) m.(shared).(max_entries) m.(shared).(max_bytes) (Some limit)).
Definition fail_on (m : MockLocalStore) (prefix : text) (fault : Fault) : MockLocalStore :=
  mkMock m.(shared) m.(namespace) (m.(error_patterns) ++ [(prefix, fault)]).

Definition check_injected_error (m : MockLocalStore) (key : text) : option Fault :=
  snd <$> List.find (fun p => starts_with p.1 key) m.(error_patterns).

(** A call past the injected faults. *)
Definition mock_call {A} (key : text) (f : MockLocalStore -> result A Fault * MockLocalStore) : K MockLocalStore A :=
  fun m => match check_injected_error m key with
           | Some fault => (Err fault, m)
           | None => f m
           end.

Definition clamp_page (asked cap : Z) : Z := if asked =? 0 then cap else Z.min asked cap.

Definition size_of (t : list Z) : Z := Z.of_nat (length t).

Definition budget_fault (budget : Z) : Fault :=
  Internal (chars_of "MockLocalStore: max bytes (" ++ decimal budget ++ chars_of ") reached").
Definition entries_fault (limit : Z) : Fault :=
  Internal (chars_of "MockLocalStore: max entries (" ++ decimal limit ++ chars_of ") reached").

Definition mock_get (key : text) : K MockLocalStore (option (list Z)) :=
  mock_call key (fun m => (Ok (m.(shared).(rows) !! (m.(namespace), key)), m)).

(** The limit a new row runs into, and the budget a row runs over. *)
Definition full (s : SharedRows) (existing : option nat) : option Z :=
  match existing, s.(max_entries) with
  | None, Some limit => if limit <=? Z.of_nat (size s.(rows)) then Some limit else None
  | _, _ => None
  end.
Definition over_budget (s : SharedRows) (total : Z) : option Z :=
  match s.(max_bytes) with
  | Some budget => if budget <? total then Some budget else None
  | None => None
  end.

Definition mock_set (key : text) (value : list Z) : K MockLocalStore unit :=
  mock_call key (fun m =>
    let s := m.(shared) in
    let compound := (m.(namespace), key) in
    let existing := length <$> (s.(rows) !! compound) in
    match full s existing with
    | Some limit => (Err (entries_fault limit), m)
    | None =>
        let displaced := match existing with Some n => size_of key + Z.of_nat n | None => 0 end in
        let total := s.(bytes) - displaced + size_of key + size_of value in
        match over_budget s total with
        | Some budget => (Err (budget_fault budget), m)
        | None =>
            (Ok tt, with_shared m (mkShared (<[compound := value]> s.(rows)) total s.(max_entries) s.(max_bytes) s.(max_page)))
        end
    end).

Definition mock_delete (key : text) : K MockLocalStore unit :=
  mock_call key (fun m =>
    let s := m.(shared) in
    let compound := (m.(namespace), key) in
    match s.(rows) !! compound with
    | Some value =>
        (Ok tt, with_shared m (mkShared (delete compound s.(rows)) (s.(bytes) - size_of key - size_of value)
                                 s.(max_entries) s.(max_bytes) s.(max_page)))
    | None => (Ok tt, m)
    end).

Definition mock_list_keys (p : text) : K MockLocalStore (list text) :=
  mock_call p (fun m => (Ok (fst <$> rows_under p (snapshot m)), m)).

Definition clamped (s : SharedRows) (q : ListQuery) : ListQuery :=
  match s.(max_page) with
  | Some cap => mkListQuery q.(q_prefix) q.(q_start_after) (clamp_page q.(q_limit) (Z.of_nat cap))
      (clamp_page q.(q_scan_limit) (Z.of_nat cap)) q.(q_filter)
  | None => q
  end.

Definition mock_list_entries (q : ListQuery) : K MockLocalStore EntryPage :=
  mock_call q.(q_prefix) (fun m => (Ok (page_entries (clamped m.(shared) q) (in_order (snapshot m))), m)).

Definition mock_contains (key : text) : K MockLocalStore bool :=
  mock_call key (fun m => (Ok (bool_decide (is_Some (m.(shared).(rows) !! (m.(namespace), key)))), m)).
Definition mock_entry_len (key : text) : K MockLocalStore (option Z) :=
  mock_call key (fun m => (Ok (size_of <$> (m.(shared).(rows) !! (m.(namespace), key))), m)).
Definition mock_count (p : text) : K MockLocalStore Z :=
  mock_call p (fun m => (Ok (Z.of_nat (length (rows_under p (snapshot m)))), m)).

#[export] Instance mock_kv : KvHost MockLocalStore := {|
  kv_get := mock_get;
  kv_set := mock_set;
  kv_delete := mock_delete;
  kv_list_keys := mock_list_keys;
  kv_rows := snapshot
|}.

(** The default batch, one write at a time. *)
#[export] Instance mock_host : LocalStoreHost MockLocalStore := {|
  host_list_entries := mock_list_entries;
  host_apply := apply_default
|}.

(** ** The trap *)

Record TrapStore (H : Type) : Type := mkTrap {
  inner : H;
  writes : Z;
  calls : Z;
  remaining : option Z;
  tripped : bool
}.
Arguments mkTrap {H} _ _ _ _ _.
Arguments inner {H} _.
Arguments writes {H} _.
Arguments calls {H} _.
Arguments remaining {H} _.
Arguments tripped {H} _.

Definition trapped : Fault := Internal (chars_of "TrapStore: trapped").

Section Trap.
Context {H : Type} `{KvHost H}.

Definition trap_new (h : H) : TrapStore H := mkTrap h 0 0 None false.
Definition arm_after (n : Z) (t : TrapStore H) : TrapStore H := mkTrap t.(inner) t.(writes) t.(calls) (Some n) false.
Definition disarm (t : TrapStore H) : TrapStore H := mkTrap t.(inner) t.(writes) t.(calls) None false.

Definition read_gate : K (TrapStore H) unit := fun t =>
  if t.(tripped) then (Err trapped, t)
  else (Ok tt, mkTrap t.(inner) t.(writes) (t.(calls) + 1) t.(remaining) t.(tripped)).

(** The write budget, past the first gate. *)
Definition charge_write : K (TrapStore H) unit := fun t =>
  match t.(remaining) with
  | Some n =>
      if n =? 0 then (Err trapped, mkTrap t.(inner) t.(writes) t.(calls) t.(remaining) true)
      else (Ok tt, mkTrap t.(inner) (t.(writes) + 1) t.(calls) (Some (n - 1)) t.(tripped))
  | None => (Ok tt, mkTrap t.(inner) (t.(writes) + 1) t.(calls) None t.(tripped))
  end.

Definition write_gate : K (TrapStore H) unit := read_gate;; charge_write.

(** A call of the wrapped host. *)
Definition inside {A} (f : K H A) : K (TrapStore H) A := fun t =>
  let (r, h) := f t.(inner) in (r, mkTrap h t.(writes) t.(calls) t.(remaining) t.(tripped)).

(** Every read: get, list_keys, list_entries, contains, len, count. *)
Definition trap_read {A} (f : K H A) : K (TrapStore H) A := read_gate;; inside f.

#[export] Instance trap_kv : KvHost (TrapStore H) := {|
  kv_get key := trap_read (kv_get key);
  kv_set key value := write_gate;; inside (kv_set key value);
  kv_delete key := write_gate;; inside (kv_delete key);
  kv_list_keys p := trap_read (kv_list_keys p);
  kv_rows t := kv_rows t.(inner)
|}.

Definition trap_list_entries `{!LocalStoreHost H} (q : ListQuery) : K (TrapStore H) EntryPage :=
  trap_read (host_list_entries q).
End Trap.

(** ** The laws hold *)

Lemma lookup_view (ns : text) (m : gmap (text * text) (list Z)) (k : text) : view ns m !! k = m !! (ns, k).
Proof.
  unfold view. rewrite <- (lookup_map_curry (M1 := gmap text) (M2 := gmap text) m ns k).
  by destruct (map_curry m !! ns).
Qed.

Lemma view_insert (ns : text) m k v (ns' : text) :
  view ns' (<[(ns, k) := v]> m) = if decide (ns' = ns) then <[k := v]> (view ns m) else view ns' m.
Proof.
  apply map_eq. intros j. rewrite lookup_view. destruct (decide (ns' = ns)) as [->|Hne].
  - destruct (decide (j = k)) as [->|Hk]; [by rewrite !lookup_insert_eq|].
    rewrite !lookup_insert_ne by congruence. by rewrite lookup_view.
  - rewrite lookup_insert_ne by congruence. by rewrite lookup_view.
Qed.

Lemma view_delete (ns : text) m k (ns' : text) :
  view ns' (delete (ns, k) m) = if decide (ns' = ns) then delete k (view ns m) else view ns' m.
Proof.
  apply map_eq. intros j. rewrite lookup_view. destruct (decide (ns' = ns)) as [->|Hne].
  - destruct (decide (j = k)) as [->|Hk]; [by rewrite !lookup_delete_eq|].
    rewrite !lookup_delete_ne by congruence. by rewrite lookup_view.
  - rewrite lookup_delete_ne by congruence. by rewrite lookup_view.
Qed.

Lemma mock_call_inv {A} key (f : MockLocalStore -> result A Fault * MockLocalStore) m r m' :
  mock_call key f m = (r, m') -> (is_ok r = false /\ m' = m) \/ f m = (r, m').
Proof. unfold mock_call. destruct (check_injected_error m key); [intros [= <- <-]; by left|by right]. Qed.

#[export] Instance mock_laws : KvLaws MockLocalStore.
Proof.
  split; cbn [kv_get kv_set kv_delete kv_list_keys kv_rows mock_kv].
  - intros m key r m' [[Hr ->]|Hf]%mock_call_inv; [|cbv beta in Hf; injection Hf as <- <-]; (split; [done|]).
    + intros v ->. done.
    + intros v [= <-]. unfold snapshot. by rewrite lookup_view.
  - intros m key value r m' [[Hr ->]|Hf]%mock_call_inv; [by rewrite Hr|]. revert Hf.
    cbv zeta. destruct (full _ _); [intros [= <- <-]; done|]. destruct (over_budget _ _); intros [= <- <-]; [done|].
    unfold snapshot. cbn. rewrite view_insert. by rewrite decide_True.
  - intros m key r m' [[Hr ->]|Hf]%mock_call_inv; [by rewrite Hr|]. revert Hf. cbv zeta.
    destruct (rows _ !! _) as [v|] eqn:E; intros [= <- <-]; unfold snapshot; cbn.
    + rewrite view_delete. by rewrite decide_True.
    + symmetry. apply delete_id. by rewrite lookup_view.
  - intros m p r m' [[Hr ->]|Hf]%mock_call_inv; [|cbv beta in Hf; injection Hf as <- <-]; (split; [done|]).
    + intros ks ->. done.
    + intros ks [= <-]. split; [apply rows_under_NoDup|]. intros k. apply rows_under_keys.
Qed.

Lemma clamp_page_nonneg asked (cap : nat) : 0 <= asked -> 0 <= clamp_page asked (Z.of_nat cap).
Proof. unfold clamp_page. destruct (Z.eqb_spec asked 0); lia. Qed.

#[export] Instance mock_listing : HostListing MockLocalStore.
Proof.
  split. cbn [host_list_entries mock_host kv_rows mock_kv].
  intros m q r m' [[Hr ->]|Hf]%mock_call_inv; [|cbv beta in Hf; injection Hf as <- <-]; (split; [done|]); [intros page ->; done|].
  intros page [= <-] Hempty Hl Hs. unfold rows_under.
  assert (Forall (fun e : entry => e.1 <> []) (in_order (snapshot m))) as Hne.
  { apply Forall_forall. intros [k v] Hin%in_order_elem Hk. cbn in Hk. subst k. congruence. }
  unfold clamped. destruct (max_page _) as [cap|]; [|by apply page_entries_page_of].
  apply (page_entries_page_of (mkListQuery q.(q_prefix) q.(q_start_after) (clamp_page q.(q_limit) (Z.of_nat cap))
    (clamp_page q.(q_scan_limit) (Z.of_nat cap)) q.(q_filter))); [by apply clamp_page_nonneg..|done].
Qed.

(** A wrapped host keeps its laws, whatever the trap does. *)
Section TrapFacts.
Context {H : Type} `{KvLaws H}.

Lemma read_gate_inv (t : TrapStore H) r t' :
  read_gate t = (r, t') -> t'.(inner) = t.(inner) /\ t'.(remaining) = t.(remaining) /\ t'.(tripped) = t.(tripped) /\
  is_ok r = negb t.(tripped).
Proof. unfold read_gate. destruct (tripped t) eqn:E; intros [= <- <-]; cbn; by rewrite ?E. Qed.

Lemma write_gate_inv (t : TrapStore H) r t' :
  write_gate t = (r, t') ->
  t'.(inner) = t.(inner) /\
  match r with
  | Ok _ => t.(tripped) = false /\ t'.(tripped) = false /\
      match t.(remaining) with
      | Some n => n <> 0 /\ t'.(remaining) = Some (n - 1)
      | None => t'.(remaining) = None
      end
  | Err _ => t'.(tripped) = true /\ (t.(tripped) = false -> t.(remaining) = Some 0)
  end.
Proof.
  unfold write_gate, mbind, K_bind, read_gate, charge_write. destruct (tripped t) eqn:Et.
  - intros [= <- <-]. repeat split; congruence.
  - cbn [remaining]. destruct (remaining t) as [n|] eqn:Er; [destruct (Z.eqb_spec n 0) as [->|Hn]|];
      intros [= <- <-]; cbn; repeat split; congruence.
Qed.

Lemma inside_inv {A} (f : K H A) (t : TrapStore H) r t' :
  inside f t = (r, t') -> f t.(inner) = (r, t'.(inner)) /\ t'.(remaining) = t.(remaining) /\ t'.(tripped) = t.(tripped).
Proof. unfold inside. destruct (f (inner t)) as [r0 h] eqn:E. by intros [= <- <-]. Qed.

Lemma gated_inv {A} (g : K (TrapStore H) unit) (f : K H A) t r t' :
  (g;; inside f) t = (r, t') ->
  (exists e t1, g t = (Err e, t1) /\ r = Err e /\ t' = t1) \/
  (exists t1, g t = (Ok tt, t1) /\ inside f t1 = (r, t')).
Proof.
  unfold mbind, K_bind. destruct (g t) as [[[]|e] t1] eqn:E; [right; eauto|]. intros [= <- <-]. left. eauto.
Qed.

#[export] Instance trap_laws : KvLaws (TrapStore H).
Proof.
  split; cbn [kv_get kv_set kv_delete kv_list_keys kv_rows trap_kv].
  - intros t key r t' [(e & t1 & Hg & -> & ->)|(t1 & Hg & Hi)]%gated_inv; apply read_gate_inv in Hg as (Hin & _).
    + rewrite Hin. split; [done|]. done.
    + apply inside_inv in Hi as (Hf & _). rewrite Hin in Hf. by apply kv_get_law in Hf.
  - intros t key value r t' [(e & t1 & Hg & -> & ->)|(t1 & Hg & Hi)]%gated_inv; apply write_gate_inv in Hg as (Hin & _).
    + by rewrite Hin.
    + apply inside_inv in Hi as (Hf & _). rewrite Hin in Hf. by apply kv_set_law in Hf.
  - intros t key r t' [(e & t1 & Hg & -> & ->)|(t1 & Hg & Hi)]%gated_inv; apply write_gate_inv in Hg as (Hin & _).
    + by rewrite Hin.
    + apply inside_inv in Hi as (Hf & _). rewrite Hin in Hf. by apply kv_delete_law in Hf.
  - intros t p r t' [(e & t1 & Hg & -> & ->)|(t1 & Hg & Hi)]%gated_inv; apply read_gate_inv in Hg as (Hin & _).
    + rewrite Hin. split; [done|]. done.
    + apply inside_inv in Hi as (Hf & _). rewrite Hin in Hf. by apply kv_list_keys_law in Hf.
Qed.
End TrapFacts.

(** ** Crash points *)

Section Crash.
Context {H : Type} `{KvLaws H}.

(** One write of a batch. *)
Definition write_one (op : WriteOp) : K (TrapStore H) unit :=
  match op with
  | OpSet key value => kv_set key value
  | OpDelete key => kv_delete key
  end.

Lemma apply_default_cons op ops t :
  apply_default (op :: ops) t =
  match write_one op t with
  | (Ok _, t1) => apply_default ops t1
  | (Err e, t1) => (Err e, t1)
  end.
Proof. by destruct op. Qed.

(** Past the gate the wrapped host answers; at the gate nothing is written. *)
Lemma write_one_inv op (t : TrapStore H) r t' n :
  write_one op t = (r, t') -> t.(remaining) = Some n -> t.(tripped) = false ->
  kv_rows t' = (if is_ok r then apply_row (kv_rows t) op else kv_rows t) /\
  (n = 0 -> is_ok r = false /\ t'.(tripped) = true) /\
  (n <> 0 -> t'.(tripped) = false /\ t'.(remaining) = Some (n - 1)).
Proof.
  intros Hw Hr Ht. split.
  { destruct op; [by apply kv_set_law in Hw|by apply kv_delete_law in Hw]. }
  assert (exists f : K H unit, (write_gate;; inside f) t = (r, t')) as [f Hg].
  { destruct op as [key value|key]; [by exists (kv_set key value)|by exists (kv_delete key)]. }
  apply gated_inv in Hg as [(e & t1 & Hg & -> & ->)|(t1 & Hg & Hi)]; apply write_gate_inv in Hg as (_ & Hg).
  - destruct Hg as [Htrip Hz]. specialize (Hz Ht). rewrite Hr in Hz. injection Hz as ->. done.
  - destruct Hg as (_ & Htrip & Hrem). rewrite Hr in Hrem. destruct Hrem as [Hn Hrem].
    apply inside_inv in Hi as (_ & Hrem' & Htrip'). rewrite Hrem', Htrip'. done.
Qed.

(** What a batch cut off after at most [n] writes leaves: a prefix of it, all of it
    when the batch succeeds, exactly [n] writes when the trap fired. *)
Lemma apply_default_cut (ops : list WriteOp) : forall (n : nat) (t : TrapStore H) r t',
  apply_default ops t = (r, t') -> t.(remaining) = Some (Z.of_nat n) -> t.(tripped) = false ->
  exists k, (k <= n)%nat /\ (k <= length ops)%nat /\ kv_rows t' = foldl apply_row (kv_rows t) (take k ops) /\
  (is_ok r = true -> k = length ops) /\ (t'.(tripped) = true -> k = n /\ is_ok r = false) /\
  (length ops <= n -> t'.(tripped) = false)%nat.
Proof.
  induction ops as [|op ops IH]; intros n t r t' Hrun Hr Ht.
  - injection Hrun as <- <-. exists 0%nat. rewrite Ht. repeat split; try done; lia.
  - rewrite apply_default_cons in Hrun. destruct (write_one op t) as [r1 t1] eqn:E1.
    destruct (write_one_inv op t r1 t1 _ E1 Hr Ht) as (Hrows & Hzero & HS).
    destruct n as [|n].
    + destruct (Hzero eq_refl) as [Hr1 Htrip]. destruct r1; [done|]. injection Hrun as <- <-.
      exists 0%nat. cbn in *. repeat split; try done; lia.
    + destruct HS as [Htrip Hrem]; [lia|]. destruct r1 as [u|e]; cbn [is_ok] in Hrows.
      * replace (Z.of_nat (S n) - 1) with (Z.of_nat n) in Hrem by lia.
        destruct (IH n t1 r t' Hrun Hrem Htrip) as (k & Hk & Hl & Hrows' & Hok & Hfire & Hfits).
        exists (S k). rewrite Hrows' , Hrows. cbn [length take foldl].
        split_and!; [lia|lia|done|intros; f_equal; auto|intros Hf; apply Hfire in Hf as [-> ?]; done|intros; apply Hfits; lia].
      * injection Hrun as <- <-. exists 0%nat. cbn. repeat split; try done; try lia; congruence.
Qed.
End Crash.

(** A batch over a host armed to trap after [n] writes leaves the rows some prefix of
    the batch makes, never past [n] writes: the whole batch when it succeeds, exactly
    the first [n] writes when the trap fired; a batch of at most [n] writes never
    fires it; and once it fired, every later call of the host faults and writes
    nothing until the trap is disarmed. *)
Theorem trap_cuts_after_n {H} `{KvLaws H} (ops : list WriteOp) (n : nat) (t : TrapStore H) r t' :
  apply_default ops (arm_after (Z.of_nat n) t) = (r, t') ->
  (exists k, (k <= n)%nat /\ (k <= length ops)%nat /\ kv_rows t' = foldl apply_row (kv_rows t) (take k ops) /\
    (is_ok r = true -> k = length ops) /\ (t'.(tripped) = true -> k = n /\ is_ok r = false) /\
    (length ops <= n -> t'.(tripped) = false)%nat) /\
  (t'.(tripped) = true -> forall key value,
    kv_get key t' = (Err trapped, t') /\ kv_set key value t' = (Err trapped, t') /\ kv_delete key t' = (Err trapped, t')) /\
  (disarm t').(tripped) = false.
Proof.
  intros Hrun. split; [by apply (apply_default_cut ops n _ r t') in Hrun|]. split; [|done].
  intros Htrip key value. cbn [kv_get kv_set kv_delete trap_kv].
  unfold trap_read, write_gate, mbind, K_bind, read_gate. by rewrite Htrip.
Qed.

Lemma trap_cuts_after_n_witness :
  let ops := [OpSet [1] [10]; OpSet [2] [20]; OpDelete [1]] in
  let end_state := (apply_default ops (arm_after (Z.of_nat 2) (trap_new mock_new))).2 in
  kv_rows end_state !! [1] = Some [10] /\ kv_set [3] [] end_state = (Err trapped, end_state).
Proof.
  intros ops end_state. split; [by vm_compute|].
  assert (apply_default ops (arm_after (Z.of_nat 2) (trap_new mock_new)) = (Err trapped, end_state)) as E by by vm_compute.
  apply (trap_cuts_after_n ops 2 (trap_new mock_new) (Err trapped) end_state E); by vm_compute.
Defined.

(** ** Accounting *)

(** The bytes the rows hold, every namespace. *)
Definition stored (m : gmap (text * text) (list Z)) : Z :=
  map_fold (fun k v acc => size_of k.2 + size_of v + acc) 0 m.

Definition accounted (s : SharedRows) : Prop := s.(bytes) = stored s.(rows).

Lemma stored_delete m k v : m !! k = Some v -> stored (delete k m) = stored m - size_of k.2 - size_of v.
Proof.
  intros Hk. unfold stored at 2.
  rewrite (map_fold_delete_L _ 0 k v m) by (try done; intros; lia). unfold stored. lia.
Qed.

Lemma stored_insert m k v :
  stored (<[k := v]> m) = stored m - match m !! k with Some v' => size_of k.2 + size_of v' | None => 0 end + size_of k.2 + size_of v.
Proof.
  rewrite <- insert_delete_eq. unfold stored at 1.
  rewrite map_fold_insert_L by (try apply lookup_delete_eq; intros; lia). fold (stored (delete k m)).
  destruct (m !! k) as [v'|] eqn:E; [rewrite (stored_delete m k v') by done; lia|].
  rewrite delete_id by done. lia.
Qed.

Inductive mock_write : Type :=
  | MSet (key : text) (value : list Z)
  | MDelete (key : text).

Definition mock_run (op : mock_write) : K MockLocalStore unit :=
  match op with
  | MSet key value => mock_set key value
  | MDelete key => mock_delete key
  end.

(** The budgets hold of the rows. *)
Definition within_budget (s : SharedRows) : Prop :=
  (forall limit, s.(max_entries) = Some limit -> Z.of_nat (size s.(rows)) <= limit) /\
  (forall budget, s.(max_bytes) = Some budget -> stored s.(rows) <= budget).

Lemma full_none (s : SharedRows) k v :
  full s (length <$> (s.(rows) !! k)) = None ->
  (forall limit, s.(max_entries) = Some limit -> Z.of_nat (size s.(rows)) <= limit) ->
  forall limit, s.(max_entries) = Some limit -> Z.of_nat (size (<[k := v]> s.(rows))) <= limit.
Proof.
  intros Hf Hold limit Hl. specialize (Hold _ Hl). rewrite map_size_insert. unfold full in Hf. rewrite Hl in Hf.
  destruct (rows s !! k); cbn in *; [done|]. destruct (Z.leb_spec limit (Z.of_nat (size (rows s)))); [done|lia].
Qed.

Lemma mock_set_keeps m key value r m' :
  mock_set key value m = (r, m') -> accounted m.(shared) -> within_budget m.(shared) ->
  accounted m'.(shared) /\ within_budget m'.(shared).
Proof.
  intros [[Hr ->]|Hf]%mock_call_inv Ha [He Hb]; [done|]. revert Hf. cbv zeta.
  destruct (full _ _) eqn:Efull; [by intros [= <- <-]|].
  destruct (over_budget _ _) eqn:Eover; [by intros [= <- <-]|]. intros [= <- <-].
  assert (accounted (mkShared (<[(namespace m, key):=value]> (rows (shared m)))
    (bytes (shared m) - match length <$> rows (shared m) !! (namespace m, key) with
                        | Some n => size_of key + Z.of_nat n | None => 0 end + size_of key + size_of value)
    (max_entries (shared m)) (max_bytes (shared m)) (max_page (shared m)))) as Hacc.
  { unfold accounted. cbn [bytes rows]. rewrite stored_insert, Ha. cbn [snd].
    destruct (rows (shared m) !! (namespace m, key)); cbn [fmap option_fmap option_map]; unfold size_of; lia. }
  split; [done|]. split; cbn [shared with_shared max_entries max_bytes rows].
  - by apply full_none.
  - intros budget Hbud. unfold over_budget in Eover. rewrite Hbud in Eover.
    unfold accounted in Hacc. cbn [bytes rows] in Hacc. rewrite <- Hacc.
    destruct (Z.ltb_spec budget (bytes (shared m) - match length <$> rows (shared m) !! (namespace m, key) with
      | Some n => size_of key + Z.of_nat n | None => 0 end + size_of key + size_of value)); [done|lia].
Qed.

Lemma size_of_nonneg t : 0 <= size_of t.
Proof. unfold size_of. lia. Qed.

Lemma mock_delete_keeps m key r m' :
  mock_delete key m = (r, m') -> accounted m.(shared) -> within_budget m.(shared) ->
  accounted m'.(shared) /\ within_budget m'.(shared).
Proof.
  intros [[Hr ->]|Hf]%mock_call_inv Ha [He Hb]; [done|]. revert Hf. cbv zeta.
  destruct (rows _ !! _) as [v|] eqn:E; intros [= <- <-]; [|done].
  pose proof (stored_delete _ _ _ E) as Hd. cbn [snd] in Hd. pose proof (size_of_nonneg key). pose proof (size_of_nonneg v).
  unfold accounted, within_budget. cbn [shared with_shared bytes rows max_entries max_bytes]. rewrite Hd, Ha.
  split; [lia|]. split.
  - intros limit Hl. specialize (He _ Hl). pose proof (map_size_delete_Some _ (rows (shared m)) (mk_is_Some _ _ E)). lia.
  - intros budget Hl. specialize (Hb _ Hl). lia.
Qed.

Lemma mock_other_namespaces op m r m' (ns : text) :
  mock_run op m = (r, m') -> ns <> m.(namespace) -> view ns m'.(shared).(rows) = view ns m.(shared).(rows).
Proof.
  destruct op as [key value|key]; intros [[_ ->]|Hf]%mock_call_inv Hne; try done; revert Hf; cbv zeta.
  - destruct (full _ _); [by intros [= <- <-]|]. destruct (over_budget _ _); intros [= <- <-]; [done|].
    cbn. rewrite view_insert. by rewrite decide_False.
  - destruct (rows _ !! _); intros [= <- <-]; [|done]. cbn. rewrite view_delete. by rewrite decide_False.
Qed.

(** Writes through any of the handles that share the rows, in any order. *)
Definition through (s : SharedRows) (w : (text * list (text * Fault)) * mock_write) : SharedRows :=
  shared (mock_run w.2 (mkMock s w.1.1 w.1.2)).2.

(** Whatever the handles write and in whatever order, the byte counter is exactly
    the bytes the rows hold and the shared budgets are never exceeded; and a write
    through one namespace leaves the rows of every other as they were. *)
Theorem mock_accounts_exactly (s : SharedRows) (ws : list ((text * list (text * Fault)) * mock_write)) (ns : text) :
  accounted s -> within_budget s ->
  accounted (foldl through s ws) /\ within_budget (foldl through s ws) /\
  (Forall (fun w => w.1.1 <> ns) ws -> view ns (foldl through s ws).(rows) = view ns s.(rows)).
Proof.
  revert s. induction ws as [|[[n fs] op] ws IH]; intros s Ha Hb; [done|].
  assert (accounted (through s ((n, fs), op)) /\ within_budget (through s ((n, fs), op))) as [Ha' Hb'].
  { unfold through. cbn [fst snd]. destruct (mock_run op (mkMock s n fs)) as [r m'] eqn:E.
    destruct op; [by eapply (mock_set_keeps (mkMock s n fs))|by eapply (mock_delete_keeps (mkMock s n fs))]. }
  cbn [foldl]. destruct (IH _ Ha' Hb') as (H1 & H2 & H3). split_and!; [done..|].
  intros [Hne Hall]%Forall_cons_1. cbn in Hne. rewrite H3 by done. unfold through. cbn [fst snd].
  destruct (mock_run op (mkMock s n fs)) as [r m'] eqn:E. cbn [snd].
  by apply (mock_other_namespaces op (mkMock s n fs) r m' ns).
Qed.

Lemma mock_accounts_exactly_witness :
  let s := mkShared ∅ 0 (Some 2) (Some 8) None in
  let ws := [(([], []), MSet [1] [2; 3]); (([9], []), MSet [1] [4]); (([9], []), MSet [5] []); (([], []), MSet [1] [7; 7; 7; 7; 7; 7]);
             (([9], []), MDelete [1])] in
  bytes (foldl through s ws) = 3 /\ accounted (foldl through s ws).
Proof.
  intros s ws. split; [by vm_compute|].
  apply (mock_accounts_exactly s ws []); [reflexivity|].
  split; intros x [= <-]; vm_compute; discriminate.
Defined.
