(* ===== verification/ChainHost.v ===== *)
(** * ChainHost: the provider pool and the chain interface of a guest

    crates/nexum-runtime-chain/src/provider_pool.rs, the [ChainMethod]s of
    crates/nexum-world/src/lib.rs, crates/nexum-runtime-wasm/src/error.rs (the chain
    half) and impls/chain.rs: a guest names a chain, a method and its parameters as
    text; the host resolves the method into the permitted read surface, makes one
    bounded round trip, caps the answer and translates every failure into a fixed
    vocabulary.

    alloy is the class [Transport]: the calls of an opened provider, each answered,
    failed or past its deadline, and the parts of a transport error the host looks
    at. *)

From stdpp Require Import prelude list gmap strings sorting.
From Stdlib Require Import ZArith Lia.
From S2P Require Import Prelude HostStore IpAddr Policy Admission Toml Config.

Local Open Scope rust_scope.
Local Open Scope Z_scope.

#[local] Arguments chars_of : simpl never.

(** ** The read surface *)

Inductive ChainMethod : Type :=
| EthBlockNumber | EthCall | EthChainId | EthEstimateGas | EthFeeHistory | EthGasPrice
| EthMaxPriorityFeePerGas | EthGetBalance | EthGetBlockByHash | EthGetBlockByNumber
| EthGetBlockReceipts | EthGetCode | EthGetLogs | EthGetProof | EthGetStorageAt
| EthGetTransactionByHash | EthGetTransactionCount | EthGetTransactionReceipt | NetVersion.

#[export] Instance ChainMethod_eq_dec : EqDecision ChainMethod.
Proof. solve_decision. Defined.

Definition ChainMethod_all : list ChainMethod :=
  [EthBlockNumber; EthCall; EthChainId; EthEstimateGas; EthFeeHistory; EthGasPrice;
   EthMaxPriorityFeePerGas; EthGetBalance; EthGetBlockByHash; EthGetBlockByNumber;
   EthGetBlockReceipts; EthGetCode; EthGetLogs; EthGetProof; EthGetStorageAt;
   EthGetTransactionByHash; EthGetTransactionCount; EthGetTransactionReceipt; NetVersion].

Definition method_as_str (m : ChainMethod) : text :=
  match m with
  | EthBlockNumber => chars_of "eth_blockNumber"
  | EthCall => chars_of "eth_call"
  | EthChainId => chars_of "eth_chainId"
  | EthEstimateGas => chars_of "eth_estimateGas"
  | EthFeeHistory => chars_of "eth_feeHistory"
  | EthGasPrice => chars_of "eth_gasPrice"
  | EthMaxPriorityFeePerGas => chars_of "eth_maxPriorityFeePerGas"
  | EthGetBalance => chars_of "eth_getBalance"
  | EthGetBlockByHash => chars_of "eth_getBlockByHash"
  | EthGetBlockByNumber => chars_of "eth_getBlockByNumber"
  | EthGetBlockReceipts => chars_of "eth_getBlockReceipts"
  | EthGetCode => chars_of "eth_getCode"
  | EthGetLogs => chars_of "eth_getLogs"
  | EthGetProof => chars_of "eth_getProof"
  | EthGetStorageAt => chars_of "eth_getStorageAt"
  | EthGetTransactionByHash => chars_of "eth_getTransactionByHash"
  | EthGetTransactionCount => chars_of "eth_getTransactionCount"
  | EthGetTransactionReceipt => chars_of "eth_getTransactionReceipt"
  | NetVersion => chars_of "net_version"
  end.

(** [ChainMethod::try_from(&str)]: the spelling is the whole of it. *)
Definition parse_method (s : text) : option ChainMethod :=
  List.find (fun m => bool_decide (method_as_str m = s)) ChainMethod_all.

(** ** The vocabulary of guest-visible failures *)

Inductive ChainFaultMessage : Type :=
| ChainNotConfigured | MethodNotPermitted | UpstreamUnavailable | InvalidParams | ResponseOverCap | UpstreamErrorResponse.

Definition ChainFaultMessage_all : list ChainFaultMessage :=
  [ChainNotConfigured; MethodNotPermitted; UpstreamUnavailable; InvalidParams; ResponseOverCap; UpstreamErrorResponse].

Definition message_text (m : ChainFaultMessage) : text :=
  match m with
  | ChainNotConfigured => chars_of "chain has no configured RPC endpoint"
  | MethodNotPermitted => chars_of "method is outside the permitted read-only surface"
  | UpstreamUnavailable => chars_of "upstream RPC endpoint unavailable"
  | InvalidParams => chars_of "request params are not valid JSON"
  | ResponseOverCap => chars_of "chain response exceeds the configured cap"
  | UpstreamErrorResponse => chars_of "upstream node returned an error response"
  end.

Inductive ChainError : Type :=
| CFault (fault : Fault)
| CRpc (code : Z) (message : text) (data : option (list Z)).

(** [fault_message]: what a fault carries. *)
Definition fault_message (f : Fault) : text :=
  match f with
  | Unsupported m | Unavailable m | Denied m | InvalidInput m | Internal m => m
  | FaultRateLimited => chars_of "rate limited"
  | FaultTimeout => chars_of "timeout"
  end.

(** ** What is used of alloy *)

Inductive TransportErrorKind : Type :=
| HttpError (status : Z)
| BackendGone
| PubsubUnavailable
| OtherKind.

(** One link of an error's [source()] chain, as the two downcasts see it. *)
Record SourceError : Type := mkSourceError { reqwest_timed_out : bool; io_timed_out : bool }.

Class TransportErrors (E : Type) : Type := {
  (** The code and the hex-decoded data of a structured error response. *)
  as_error_resp : E -> option (Z * option (list Z));
  is_ser_error : E -> bool;
  as_transport_err : E -> option TransportErrorKind;
  (** The error itself first. *)
  source_chain : E -> list SourceError;
  ser_error : E
}.

(** Calls over an opened provider of type [D]; [N] is the network they change, and
    [None] means that the deadline passed first. *)
Class Transport (N D E Block Filter Log Sub : Type) : Type := {
  raw_request : D -> text -> text -> N -> option (result text E) * N;
  get_block_number : D -> N -> option (result Z E) * N;
  get_block_by_number : D -> Z -> N -> option (result (option Block) E) * N;
  get_logs : D -> Filter -> Z -> Z -> N -> option (result (list Log) E) * N;
  subscribe_blocks : D -> N -> option (result Sub E) * N
}.

(** ** The pool *)

Definition DEFAULT_POLL_INTERVAL : Z := duration_from_secs 2.

(** Canonical blocks the log poller retains. *)
Definition MAX_REORG_DEPTH : Z := 64.

Section Pool.
Context {N D E Block Filter Log Sub U : Type} `{TransportErrors E} `{Transport N D E Block Filter Log Sub}.

Record ChainEndpoint : Type := mkChainEndpoint {
  ep_provider : D;
  ep_timeout : Z;
  ep_supports_pubsub : bool;
  ep_log_range_blocks : Z
}.

Record ProviderPool : Type := mkPool {
  providers : gmap Z ChainEndpoint;
  log_backfill_concurrency : Z;
  poll_interval_override : option Z
}.

Inductive PoolError : Type :=
| UnknownChain (chain : Z)
| Connect (chain : Z) (source : E)
| PoolTimeout
| Rpc (source : E).

(** [tokio::time::timeout] around a call. *)
Definition deadline {A} (call : option (result A E) * N) : result A PoolError * N :=
  match call with
  | (None, n) => (Err PoolTimeout, n)
  | (Some (Ok a), n) => (Ok a, n)
  | (Some (Err e), n) => (Err (Rpc e), n)
  end.

(** Opening a provider: the chain, its URL, whether by pubsub, the request timeout. *)
Context (connect : Z -> U -> bool -> Z -> result D E).

(** The loop of [from_config]. *)
Fixpoint open_chains (entries : list (Z * ChainConfig U)) (opened : gmap Z ChainEndpoint)
    : result (gmap Z ChainEndpoint) PoolError :=
  match entries with
  | [] => Ok opened
  | (chain, cfg) :: entries =>
      let timeout := duration_from_secs cfg.(request_timeout_secs) in
      let pubsub := supports_pubsub cfg.(rpc_url) in
      match connect chain cfg.(rpc_url).(ep_url) pubsub timeout with
      | Err source => Err (Connect chain source)
      | Ok provider =>
          open_chains entries (<[chain := mkChainEndpoint provider timeout pubsub cfg.(max_log_range_blocks)]> opened)
      end
  end.

(** [entries.sort_by_key(|(c, _)| c.id())]. *)
Definition by_id (a b : Z * ChainConfig U) : Prop := a.1 <= b.1.
#[local] Instance by_id_dec : RelDecision by_id := fun a b => Z_le_dec a.1 b.1.

Definition from_config (chains : gmap Z (ChainConfig U)) (concurrency : Z) : result ProviderPool PoolError :=
  let? opened := open_chains (merge_sort by_id (map_to_list chains)) ∅ in
  Ok (mkPool opened concurrency None).

Definition endpoint (pool : ProviderPool) (chain : Z) : result ChainEndpoint PoolError :=
  ok_or (UnknownChain chain) (pool.(providers) !! chain).

Definition pool_provider (pool : ProviderPool) (chain : Z) : result D PoolError :=
  let? ep := endpoint pool chain in Ok ep.(ep_provider).

Definition log_range_blocks (pool : ProviderPool) (chain : Z) : result Z PoolError :=
  let? ep := endpoint pool chain in Ok ep.(ep_log_range_blocks).

(** [Chain::average_blocktime_hint] is the argument. *)
Definition poll_interval (hint : Z -> option Z) (pool : ProviderPool) (chain : Z) : Z :=
  default (default DEFAULT_POLL_INTERVAL (hint chain)) pool.(poll_interval_override).

(** A call over the chain's endpoint. *)
Definition over {A} (pool : ProviderPool) (chain : Z) (call : ChainEndpoint -> N -> result A PoolError * N) (n : N)
    : result A PoolError * N :=
  match endpoint pool chain with
  | Err e => (Err e, n)
  | Ok ep => call ep n
  end.

Definition head_number (pool : ProviderPool) (chain : Z) : N -> result Z PoolError * N :=
  over pool chain (fun ep n => deadline (get_block_number ep.(ep_provider) n)).

Definition block_by_number (pool : ProviderPool) (chain number : Z) : N -> result (option Block) PoolError * N :=
  over pool chain (fun ep n => deadline (get_block_by_number ep.(ep_provider) number n)).

Definition logs_in_range (pool : ProviderPool) (chain : Z) (filter : Filter) (from to : Z)
    : N -> result (list Log) PoolError * N :=
  over pool chain (fun ep n => deadline (get_logs ep.(ep_provider) filter from to n)).

(** How an opened block source is driven. *)
Inductive BlockStream : Type :=
| Subscribed (sub : Sub)
| Polled (provider : D) (head interval buffered : Z).

Definition open_block_source (hint : Z -> option Z) (pool : ProviderPool) (chain : Z)
    : N -> result BlockStream PoolError * N :=
  over pool chain (fun ep n =>
    if ep.(ep_supports_pubsub) then
      let (r, n) := deadline (subscribe_blocks ep.(ep_provider) n) in
      (let? sub := r in Ok (Subscribed sub), n)
    else
      let (r, n) := deadline (get_block_number ep.(ep_provider) n) in
      (let? head := r in
       Ok (Polled ep.(ep_provider) head (poll_interval hint pool chain) (Z.max pool.(log_backfill_concurrency) 1)), n)).

(** How an opened log source is driven. *)
Record EventStream : Type := mkEventStream {
  es_provider : D;
  es_filter : Filter;
  es_start_block : Z;
  es_max_reorg_depth : Z;
  es_concurrency : Z;
  es_interval : Z
}.

Definition open_event_source (hint : Z -> option Z) (pool : ProviderPool) (chain : Z) (filter : Filter) (start_block : Z)
    : result EventStream PoolError :=
  let? ep := endpoint pool chain in
  Ok (mkEventStream ep.(ep_provider) filter start_block MAX_REORG_DEPTH pool.(log_backfill_concurrency)
        (poll_interval hint pool chain)).

(** What the poller yields, and what the stream makes of it. *)
Inductive CanonicalEvent : Type :=
| Added (number : Z) (hash : list Z) (logs : list Log)
| Removed (number : Z) (hash : list Z) (logs : list Log).

Record CanonicalLogBatch : Type := mkBatch {
  batch_number : Z;
  batch_hash : list Z;
  batch_removed : bool;
  batch_logs : list Log
}.

Definition canonical_batch (event : CanonicalEvent) : CanonicalLogBatch :=
  match event with
  | Added number hash logs => mkBatch number hash false logs
  | Removed number hash logs => mkBatch number hash true logs
  end.

(** [RawValue::from_string] succeeds. *)
Context (json_valid : text -> bool).

Definition pool_request (pool : ProviderPool) (chain : Z) (method : ChainMethod) (params : text)
    : N -> result text PoolError * N :=
  over pool chain (fun ep n =>
    if json_valid params then deadline (raw_request ep.(ep_provider) (method_as_str method) params n)
    else (Err (Rpc ser_error), n)).

(** ** The fault funnel *)

Fixpoint timeout_in_source_chain (chain : list SourceError) : bool :=
  match chain with
  | [] => false
  | e :: chain => if e.(reqwest_timed_out) || e.(io_timed_out) then true else timeout_in_source_chain chain
  end.

Definition unavailable : Fault := Unavailable (message_text UpstreamUnavailable).

Definition transport_fault (source : E) : Fault :=
  let by_chain := if timeout_in_source_chain (source_chain source) then FaultTimeout else unavailable in
  match as_transport_err source with
  | Some (HttpError status) =>
      if status =? 429 then FaultRateLimited
      else if status =? 503 then unavailable
      else if (status =? 408) || (status =? 504) then FaultTimeout
      else by_chain
  | Some BackendGone | Some PubsubUnavailable => unavailable
  | _ => by_chain
  end.

Definition i32_or (code fallback : Z) : Z := if (- 2 ^ 31 <=? code) && (code <=? 2 ^ 31 - 1) then code else fallback.

Definition classify_rpc (source : E) : ChainError :=
  match as_error_resp source with
  | Some (code, data) => CRpc (i32_or code (-32603)) (message_text UpstreamErrorResponse) data
  | None =>
      if is_ser_error source then CFault (InvalidInput (message_text InvalidParams))
      else CFault (transport_fault source)
  end.

Definition pool_fault (err : PoolError) : ChainError :=
  match err with
  | UnknownChain _ => CFault (Unsupported (message_text ChainNotConfigured))
  | PoolTimeout => CFault FaultTimeout
  | Rpc source => classify_rpc source
  | Connect _ source => classify_rpc source
  end.

Definition method_denied : ChainError := CFault (Denied (message_text MethodNotPermitted)).
Definition response_over_cap : ChainError := CFault (InvalidInput (message_text ResponseOverCap)).

(** ** The interface *)

(** The metrics a request moves. *)
Inductive ChainEv : Type :=
| Counted (chain_id method outcome : text)
| Capped (chain_id method : text).

Definition resolve_method (method : text) : result ChainMethod ChainError := ok_or method_denied (parse_method method).

Definition chain_label (pool : ProviderPool) (chain : Z) : text :=
  if is_ok (pool_provider pool chain) then decimal chain else chars_of "unconfigured".

Definition count_request (pool : ProviderPool) (chain : Z) (method outcome : text) : ChainEv :=
  Counted (chain_label pool chain) method outcome.

Definition check_response_cap (body : text) (cap chain_id : Z) (method : text) : result unit ChainError * list ChainEv :=
  if cap <? Z.of_nat (length body) then (Err response_over_cap, [Capped (decimal chain_id) method]) else (Ok tt, []).

Definition chain_request (pool : ProviderPool) (cap : Z) (chain_id : Z) (method params : text) (n : N)
    : result text ChainError * N * list ChainEv :=
  match resolve_method method with
  | Err err => (Err err, n, [count_request pool chain_id (chars_of "<denied>") (chars_of "err")])
  | Ok method =>
      let name := method_as_str method in
      let (r, n) := pool_request pool chain_id method params n in
      let (r, evs) :=
        match r with
        | Err err => (Err (pool_fault err), [])
        | Ok body =>
            let (checked, evs) := check_response_cap body cap chain_id name in
            (let? _ := checked in Ok body, evs)
        end in
      (r, n, evs ++ [count_request pool chain_id name (if is_ok r then chars_of "ok" else chars_of "err")])
  end.
End Pool.

(** ** Facts *)

Lemma parse_method_as_str m : parse_method (method_as_str m) = Some m.
Proof. by destruct m; vm_compute. Qed.

Lemma parse_method_Some s m : parse_method s = Some m -> s = method_as_str m.
Proof. intros [_ E]%List.find_some. by apply bool_decide_eq_true in E. Qed.

(** Every text a guest can be told. *)
Definition vocabulary : list text :=
  (message_text <$> ChainFaultMessage_all) ++ [chars_of "rate limited"; chars_of "timeout"].

Lemma message_spoken m : message_text m ∈ vocabulary.
Proof. unfold vocabulary. destruct m; cbn; set_solver. Qed.

Definition guest_sees (e : ChainError) : Prop :=
  match e with
  | CFault f => fault_message f ∈ vocabulary
  | CRpc code message _ => message ∈ vocabulary /\ - 2 ^ 31 <= code <= 2 ^ 31 - 1
  end.

Lemma i32_or_range code : - 2 ^ 31 <= i32_or code (-32603) <= 2 ^ 31 - 1.
Proof. unfold i32_or. destruct (_ && _) eqn:E; [|lia]. apply andb_true_iff in E. lia. Qed.

Section PoolFacts.
Context {N D E Block Filter Log Sub U : Type} `{TransportErrors E} `{!Transport N D E Block Filter Log Sub}.
Context (connect : Z -> U -> bool -> Z -> result D E) (json_valid : text -> bool).

Lemma timeouts_spoken : chars_of "timeout" ∈ vocabulary /\ chars_of "rate limited" ∈ vocabulary.
Proof. unfold vocabulary. set_solver. Qed.

Lemma transport_fault_spoken (source : E) : fault_message (transport_fault source) ∈ vocabulary.
Proof.
  pose proof timeouts_spoken as [Ht Hr].
  assert (fault_message unavailable ∈ vocabulary) as Hu by apply message_spoken.
  unfold transport_fault. by repeat case_match.
Qed.

Lemma pool_fault_spoken (err : PoolError (E := E)) : guest_sees (pool_fault err).
Proof.
  pose proof timeouts_spoken as [Ht _].
  assert (forall source : E, guest_sees (classify_rpc source)) as Hc.
  { intros source. unfold classify_rpc. destruct (as_error_resp source) as [[code data]|]; [split; [apply message_spoken|apply i32_or_range]|].
    destruct (is_ser_error source); [apply (message_spoken InvalidParams)|apply transport_fault_spoken]. }
  destruct err; cbn [pool_fault]; [apply (message_spoken ChainNotConfigured)|apply Hc|done|apply Hc].
Qed.

(** *** Opening *)

Definition endpoint_for (chain : Z) (cfg : ChainConfig U) (ep : ChainEndpoint) : Prop :=
  connect chain cfg.(rpc_url).(ep_url) (supports_pubsub cfg.(rpc_url)) (duration_from_secs cfg.(request_timeout_secs))
    = Ok ep.(ep_provider) /\
  ep.(ep_timeout) = duration_from_secs cfg.(request_timeout_secs) /\
  ep.(ep_supports_pubsub) = supports_pubsub cfg.(rpc_url) /\
  ep.(ep_log_range_blocks) = cfg.(max_log_range_blocks).

Definition connects (e : Z * ChainConfig U) : Prop :=
  exists d, connect e.1 e.2.(rpc_url).(ep_url) (supports_pubsub e.2.(rpc_url)) (duration_from_secs e.2.(request_timeout_secs)) = Ok d.

Lemma open_chains_spec entries : forall opened, NoDup entries.*1 -> (forall c, c ∈ entries.*1 -> opened !! c = None) ->
  match open_chains connect entries opened with
  | Ok all =>
      Forall connects entries /\
      (forall c, c ∉ entries.*1 -> all !! c = opened !! c) /\
      (forall c cfg, (c, cfg) ∈ entries -> exists ep, all !! c = Some ep /\ endpoint_for c cfg ep)
  | Err e =>
      exists pre c cfg post source, entries = pre ++ (c, cfg) :: post /\ Forall connects pre /\ e = Connect c source /\
        connect c cfg.(rpc_url).(ep_url) (supports_pubsub cfg.(rpc_url)) (duration_from_secs cfg.(request_timeout_secs)) = Err source
  end.
Proof.
  induction entries as [|[c cfg] entries IH]; intros opened Hnd Hout; cbn [open_chains].
  - split_and!; [constructor|done|]. intros c cfg Hin. by apply elem_of_nil in Hin.
  - cbn in Hnd. apply NoDup_cons in Hnd as [Hc Hnd]. destruct (connect _ _ _ _) as [d|source] eqn:Ec.
    2: { exists [], c, cfg, entries, source. by split_and!. }
    specialize (IH (<[c := mkChainEndpoint d (duration_from_secs cfg.(request_timeout_secs))
                             (supports_pubsub cfg.(rpc_url)) cfg.(max_log_range_blocks)]> opened) Hnd).
    destruct (open_chains _ entries _) as [all|e].
    + destruct IH as (Hf & Hother & Hin).
      { intros x Hx. rewrite lookup_insert_ne by set_solver. apply Hout. cbn. set_solver. }
      split_and!; [constructor; [by exists d|done]| |].
      * intros x Hx. rewrite Hother by set_solver. apply lookup_insert_ne. set_solver.
      * intros x cfg' [[= -> ->]|Hx]%elem_of_cons; [|by apply Hin].
        rewrite Hother by done. rewrite lookup_insert_eq. eexists. split; [done|]. by split_and!.
    + destruct IH as (pre & x & cfg' & post & source & -> & Hf & -> & Hs).
      { intros x Hx. rewrite lookup_insert_ne by set_solver. apply Hout. cbn. set_solver. }
      exists ((c, cfg) :: pre), x, cfg', post, source. split_and!; try done. constructor; [by exists d|done].
Qed.

(** Boot opens one provider for every configured chain and no other, with the
    timeout, the kind of transport and the log range its entry says, or refuses naming
    a chain that did not connect, every lower chain id having connected. *)
Theorem pool_is_the_config (chains : gmap Z (ChainConfig U)) (concurrency : Z) :
  match from_config connect chains concurrency with
  | Ok pool =>
      pool.(log_backfill_concurrency) = concurrency /\ pool.(poll_interval_override) = None /\
      (forall c, is_Some (pool.(providers) !! c) <-> is_Some (chains !! c)) /\
      (forall c cfg, chains !! c = Some cfg -> exists ep, pool.(providers) !! c = Some ep /\ endpoint_for c cfg ep)
  | Err e =>
      exists c cfg source, chains !! c = Some cfg /\ e = Connect c source /\ ~ connects (c, cfg) /\
        forall c' cfg', chains !! c' = Some cfg' -> c' < c -> connects (c', cfg')
  end.
Proof.
  unfold from_config. set (entries := merge_sort by_id (map_to_list chains)).
  assert (entries ≡ₚ map_to_list chains) as Hperm by apply merge_sort_Permutation.
  assert (StronglySorted by_id entries) as Hsorted.
  { apply StronglySorted_merge_sort; [intros [a ca] [b cb] [x cx]; unfold by_id; cbn; lia|].
    intros [a ca] [b cb]. unfold by_id. cbn. lia. }
  assert (forall c cfg, (c, cfg) ∈ entries <-> chains !! c = Some cfg) as Hel.
  { intros c cfg. by rewrite Hperm, elem_of_map_to_list. }
  assert (NoDup entries.*1) as Hnd by (rewrite Hperm; apply NoDup_fst_map_to_list).
  pose proof (open_chains_spec entries ∅ Hnd (fun c _ => lookup_empty c)) as Hspec.
  destruct (open_chains connect entries ∅) as [all|e]; cbn.
  - destruct Hspec as (_ & Hother & Hin). split_and!; [done..| |].
    + intros c. split.
      * intros [ep Hep]. destruct (decide (c ∈ entries.*1)) as [([c' cfg] & -> & Hc)%list_elem_of_fmap|Hn].
        -- apply Hel in Hc. by exists cfg.
        -- rewrite (Hother c Hn), lookup_empty in Hep. done.
      * intros [cfg Hcfg]. apply Hel in Hcfg. destruct (Hin _ _ Hcfg) as (ep & -> & _). by exists ep.
    + intros c cfg Hcfg%Hel. by apply Hin.
  - destruct Hspec as (pre & c & cfg & post & source & Hent & Hpre & -> & Hfail).
    exists c, cfg, source. split_and!; [apply Hel; rewrite Hent; set_solver|done| |].
    + intros [d Hd]. cbn in Hd. congruence.
    + intros c' cfg' Hc'%Hel Hlt. rewrite Hent in Hc', Hsorted. apply elem_of_app in Hc' as [Hc'|Hc'].
      * by apply (proj1 (Forall_forall _ _) Hpre).
      * apply StronglySorted_app_1_r in Hsorted. apply StronglySorted_inv in Hsorted as [_ Hall].
        apply elem_of_cons in Hc' as [[= -> ->]|Hc']; [lia|].
        apply (proj1 (Forall_forall _ _) Hall) in Hc'. unfold by_id in Hc'. cbn in Hc'. lia.
Qed.

(** *** Requests *)

Lemma chain_label_eq (pool : ProviderPool (D := D)) chain :
  chain_label (E := E) pool chain =
  if decide (is_Some (pool.(providers) !! chain)) then decimal chain else chars_of "unconfigured".
Proof.
  unfold chain_label, pool_provider, endpoint. destruct (providers pool !! chain); cbn.
  - by rewrite decide_True by eauto.
  - rewrite decide_False; [done|]. by apply is_Some_None.
Qed.

(** C15: whatever a guest asks for, at most one round trip is made, and only for a method
    of the read surface, spelled as the guest spelled it, over a configured chain and
    with valid parameters, which are passed on unchanged. What comes back is the
    node's answer within the cap, or a failure told in the fixed vocabulary, whose
    text holds nothing of the node's or the operator's. A request is counted once,
    under the chain only when it is configured and under the method only when it is
    permitted. *)
Theorem chain_request_stays_in_surface (pool : ProviderPool (D := D)) (cap chain_id : Z) (method params : text) (n : N) :
  let '(r, n', evs) := chain_request json_valid pool cap chain_id method params n in
  (n' = n \/
   exists m ep, method = method_as_str m /\ pool.(providers) !! chain_id = Some ep /\ json_valid params = true /\
     n' = (raw_request ep.(ep_provider) method params n).2) /\
  (forall body, r = Ok body -> Z.of_nat (length body) <= cap /\
     exists ep, pool.(providers) !! chain_id = Some ep /\ (raw_request ep.(ep_provider) method params n).1 = Some (Ok body)) /\
  (forall e, r = Err e -> guest_sees e) /\
  (exists capped, evs = capped ++ [Counted
      (if decide (is_Some (pool.(providers) !! chain_id)) then decimal chain_id else chars_of "unconfigured")
      (if decide (is_Some (parse_method method)) then method else chars_of "<denied>")
      (if is_ok r then chars_of "ok" else chars_of "err")] /\
    (capped = [] \/ capped = [Capped (decimal chain_id) method] /\ r = Err response_over_cap)).
Proof.
  rewrite <- chain_label_eq. unfold chain_request, resolve_method. destruct (parse_method method) as [m|] eqn:Em; cbn [ok_or].
  2: { split_and!; [by left|done| |].
       - intros e [= <-]. apply (message_spoken MethodNotPermitted).
       - exists []. split; [|by left]. rewrite decide_False; [done|]. by apply is_Some_None. }
  apply parse_method_Some in Em as Hm. rewrite <- Hm. rewrite decide_True by eauto.
  unfold pool_request, over, endpoint. rewrite <- Hm.
  destruct (providers pool !! chain_id) as [ep|] eqn:Ep; cbn [ok_or].
  2: { split_and!; [by left|done| |].
       - intros e [= <-]. apply (message_spoken ChainNotConfigured).
       - exists []. split; [done|by left]. }
  destruct (json_valid params) eqn:Ej.
  2: { split_and!; [by left|done| |].
       - intros e [= <-]. apply (pool_fault_spoken (Rpc ser_error)).
       - exists []. split; [done|by left]. }
  destruct (raw_request (ep_provider ep) method params n) as [[[body|e]|] n1] eqn:Er; cbn [deadline].
  - unfold check_response_cap. destruct (Z.ltb_spec cap (Z.of_nat (length body))); cbn.
    + split_and!; [right; exists m, ep; by rewrite Er|done| |].
      * intros e [= <-]. apply (message_spoken ResponseOverCap).
      * exists [Capped (decimal chain_id) method]. split; [done|]. by right.
    + split_and!; [right; exists m, ep; by rewrite Er| |done|].
      * intros b [= <-]. split; [lia|]. exists ep. by rewrite Er.
      * exists []. split; [done|by left].
  - split_and!; [right; exists m, ep; by rewrite Er|done| |].
    + intros e' [= <-]. apply (pool_fault_spoken (Rpc e)).
    + exists []. split; [done|by left].
  - split_and!; [right; exists m, ep; by rewrite Er|done| |].
    + intros e' [= <-]. apply (pool_fault_spoken PoolTimeout).
    + exists []. split; [done|by left].
Qed.
End PoolFacts.

(** ** A pool of one chain *)

(** A node that answers every request with five bytes and counts the calls. *)
Definition demo_errors : TransportErrors unit := {|
  as_error_resp _ := None; is_ser_error _ := true; as_transport_err _ := None; source_chain _ := []; ser_error := tt
|}.
Definition demo_transport : Transport Z unit unit unit unit unit unit := {|
  raw_request _ _ _ n := (Some (Ok (chars_of "01234")), n + 1);
  get_block_number _ n := (Some (Ok 7), n + 1);
  get_block_by_number _ _ n := (None, n + 1);
  get_logs _ _ _ _ n := (None, n + 1);
  subscribe_blocks _ n := (None, n + 1)
|}.
Definition demo_pool : ProviderPool (D := unit) := mkPool {[1 := mkChainEndpoint tt 30 false 1000]} 16 None.
Definition ask (cap chain : Z) (method params : text) : result text ChainError * Z * list ChainEv :=
  chain_request (H := demo_errors) (H0 := demo_transport) (fun p => bool_decide (p <> [])) demo_pool cap chain method params 0.

Example chain_request_examples :
  (ask 5 1 (chars_of "eth_call") [91; 93]).1 = (Ok (chars_of "01234"), 1) /\
  (ask 4 1 (chars_of "eth_call") [91; 93]).1 = (Err response_over_cap, 1) /\
  (ask 5 1 (chars_of "eth_sendRawTransaction") [91; 93]).1 = (Err method_denied, 0) /\
  (ask 5 1 (chars_of "eth_call") []).1 = (Err (CFault (InvalidInput (message_text InvalidParams))), 0) /\
  (ask 5 2 (chars_of "eth_call") [91; 93]).1 = (Err (CFault (Unsupported (message_text ChainNotConfigured))), 0).
Proof. split_and!; vm_compute; reflexivity. Qed.
