(* ===== verification/GuestStore.v ===== *)
(** * GuestStore: the local-store interface of a guest

    crates/nexum-runtime-wasm/src/impls/local_store.rs with the local-store half of
    error.rs, over the handle [LocalStore] models: what a guest's call of
    [nexum:host/local-store] does to the store and what it is told. The interface is
    proved to keep the host laws of [HostStore], so that what [HostStore] and [Keeper]
    prove of the SDK holds over the engine's own store, whatever its transactions do.

    A string argument crosses the component boundary as UTF-8, which is what a Rust
    string is; a byte sequence that is none cannot be passed, and the model refuses
    it. *)

From stdpp Require Import prelude list gmap strings.
From Stdlib Require Import ZArith Lia.
From S2P Require Import Prelude StoreApi LocalStore LocalStoreSafety HostStore.

Local Open Scope rust_scope.
Local Open Scope Z_scope.

#[local] Arguments chars_of : simpl never.

(** ** The fault funnel *)

Inductive LocalStoreFaultMessage : Type :=
| QuotaExhausted | WriteNeverFits | ApplyOpsOverCap | ApplyBytesOverCap | ListLimitOverCap | ListScanLimitOverCap | BackendFailure.

Definition LocalStoreFaultMessage_all : list LocalStoreFaultMessage :=
  [QuotaExhausted; WriteNeverFits; ApplyOpsOverCap; ApplyBytesOverCap; ListLimitOverCap; ListScanLimitOverCap; BackendFailure].

Definition store_message (m : LocalStoreFaultMessage) : text :=
  match m with
  | QuotaExhausted => chars_of "local-store namespace quota exhausted"
  | WriteNeverFits => chars_of "local-store write can never fit the namespace quota"
  | ApplyOpsOverCap => chars_of "apply batch exceeds the per-batch op cap"
  | ApplyBytesOverCap => chars_of "apply batch exceeds the per-batch value-byte cap"
  | ListLimitOverCap => chars_of "list-entries exceeds the per-page entry cap"
  | ListScanLimitOverCap => chars_of "list-entries exceeds the per-page scan cap"
  | BackendFailure => chars_of "local-store backend failure"
  end.

Definition store_fault (err : StoreError) : Fault :=
  match err with
  | QuotaExceeded _ _ => Denied (store_message QuotaExhausted)
  | QuotaUnsatisfiable _ _ => Denied (store_message WriteNeverFits)
  | ApplyOpsExceeded _ _ => InvalidInput (store_message ApplyOpsOverCap)
  | ApplyBytesExceeded _ _ => InvalidInput (store_message ApplyBytesOverCap)
  | ListLimitExceeded _ _ => InvalidInput (store_message ListLimitOverCap)
  | ListScanLimitExceeded _ _ => InvalidInput (store_message ListScanLimitOverCap)
  | Backend | InvalidNamespace _ => Internal (store_message BackendFailure)
  end.

(** The refusal of an argument that is no string. *)
Definition not_a_str : Fault := InvalidInput (chars_of "not a string").

(** ** The interface *)

Section Guest.
Context {T : Type} `{OrderedTable T}.

(** The store a guest's handle is on, and the transaction faults still to come. *)
Record GuestState : Type := mkGuestState {
  g_store : LocalStore T;
  g_handle : ModuleStore;
  g_faults : list TxnFaults
}.

Definition next (g : GuestState) : TxnFaults := default no_faults (head g.(g_faults)).
Definition moved (g : GuestState) (s : LocalStore T) : GuestState := mkGuestState s g.(g_handle) (tail g.(g_faults)).

Definition map_err {A} (r : result A StorageError) : result A Fault :=
  match r with Ok a => Ok a | Err e => Err (store_fault (store_error e)) end.

Definition G (A : Type) : Type := GuestState -> result A Fault * GuestState.

(** A call with these string arguments. *)
Definition crossing {A} (strings : list text) (call : G A) : G A := fun g =>
  if forallb utf8_valid strings then call g else (Err not_a_str, g).

Definition reading {A} (call : LocalStore T -> ModuleStore -> TxnFaults -> result A StorageError) : G A := fun g =>
  (map_err (call g.(g_store) g.(g_handle) (next g)), moved g g.(g_store)).

Definition writing {A} (call : LocalStore T -> ModuleStore -> TxnFaults -> result A StorageError * LocalStore T) : G A := fun g =>
  let (r, s) := call g.(g_store) g.(g_handle) (next g) in (map_err r, moved g s).

Definition guest_get (key : text) : G (option (list Z)) :=
  crossing [key] (reading (fun s h f => ms_get s h f key)).
Definition guest_set (key : text) (value : list Z) : G unit :=
  crossing [key] (writing (fun s h f => ms_set s h f key value)).
Definition guest_delete (key : text) : G unit :=
  crossing [key] (writing (fun s h f => ms_delete s h f key)).
Definition guest_list_keys (p : text) : G (list text) :=
  crossing [p] (reading (fun s h f => ms_list_keys s h f p)).
Definition guest_list_entries (q : ListQuery) : G EntryPage :=
  crossing [q.(q_prefix); q.(q_start_after)] (reading (fun s h f => ms_list_entries s h f q)).
Definition guest_contains (key : text) : G bool :=
  crossing [key] (reading (fun s h f => ms_contains s h f key)).
Definition guest_len (key : text) : G (option Z) :=
  crossing [key] (reading (fun s h f => ms_len s h f key)).
Definition guest_count (p : text) : G Z :=
  crossing [p] (reading (fun s h f => ms_count s h f p)).
Definition guest_apply (ops : list WriteOp) : G unit :=
  crossing (op_key <$> ops) (writing (fun s h f => ms_apply s h f ops)).

(** What the guest's namespace holds. *)
Definition guest_rows (g : GuestState) : gmap text (list Z) :=
  list_to_map (ns_entries g.(g_handle) (t_view g.(g_store).(db))).
End Guest.
Arguments GuestState T : clear implicits.

(** ** What every call keeps *)

Section GuestFacts.
Context {T : Type} `{OrderedTableLaws T}.

Record guest_ok (g : GuestState T) : Prop := {
  guest_counters : counters_ok g.(g_store);
  guest_handle : handle_ok g.(g_handle);
  guest_utf8 : forall k v, t_view g.(g_store).(db) !! build_key g.(g_handle) k = Some v -> utf8_valid k = true
}.

Lemma ns_keys_NoDup (h : ModuleStore) m : NoDup (ns_entries h m).*1.
Proof.
  apply NoDup_fmap_2_strong; [|apply ordered_NoDup, ns_entries_ordered].
  intros [k v] [k' v'] H1%ns_entries_elem H2%ns_entries_elem. cbn. intros ->. congruence.
Qed.

Lemma guest_rows_lookup (g : GuestState T) k :
  guest_rows g !! k = t_view g.(g_store).(db) !! build_key g.(g_handle) k.
Proof.
  apply option_eq. intros v. unfold guest_rows. rewrite <- ns_entries_elem.
  symmetry. apply elem_of_list_to_map, ns_keys_NoDup.
Qed.

Lemma in_order_guest_rows (g : GuestState T) :
  in_order (guest_rows g) = ns_entries g.(g_handle) (t_view g.(g_store).(db)).
Proof.
  apply ordered_unique; [apply in_order_ordered|apply ns_entries_ordered|]. intros [k v].
  by rewrite in_order_elem, guest_rows_lookup, ns_entries_elem.
Qed.

(** A call that only reads. *)
Lemma reading_inv {A} strings (call : LocalStore T -> ModuleStore -> TxnFaults -> result A StorageError) g r g' :
  crossing strings (reading call) g = (r, g') ->
  guest_rows g' = guest_rows g /\ (guest_ok g -> guest_ok g') /\
  forall a, r = Ok a -> forallb utf8_valid strings = true /\ call g.(g_store) g.(g_handle) (next g) = Ok a.
Proof.
  unfold crossing, reading. destruct (forallb utf8_valid strings); intros [= <- <-].
  - split; [done|]. split; [by intros [? ? ?]|]. intros a Ha. split; [done|].
    by destruct (call _ _ _); [injection Ha as ->|].
  - split; [done|]. split; [done|]. done.
Qed.

Lemma read_txn_Ok {A} f (k : result A StorageError) a : read_txn f k = Ok a -> k = Ok a.
Proof. unfold read_txn. by repeat case_match. Qed.

(** A call that writes these operations: it lands all of them or fails and writes none. *)
Lemma writing_inv ops (call : LocalStore T -> ModuleStore -> TxnFaults -> result unit StorageError * LocalStore T) g r g' :
  (forall f, match call g.(g_store) g.(g_handle) f with
             | (Err _, s) => s = g.(g_store)
             | (Ok _, s) => t_view s.(db) = fold_left (apply_view g.(g_handle)) ops (t_view g.(g_store).(db)) /\ counters_ok s
             end) ->
  guest_ok g -> crossing (op_key <$> ops) (writing call) g = (r, g') ->
  guest_ok g' /\ guest_rows g' = (if is_ok r then fold_left apply_row ops (guest_rows g) else guest_rows g).
Proof.
  intros Hcall [Hc Hh Hu]. unfold crossing, writing. destruct (forallb _ _) eqn:Eu; [|by intros [= <- <-]].
  specialize (Hcall (next g)). destruct (call _ _ _) as [[[]|e] s].
  2: { intros [= <- <-]. by rewrite Hcall. }
  intros [= <- <-]. destruct Hcall as (Hv & Hc'). cbn [is_ok map_err].
  assert (forall rows m, (forall k, rows !! k = m !! build_key (g_handle g) k) ->
    forall k, fold_left apply_row ops rows !! k = fold_left (apply_view (g_handle g)) ops m !! build_key (g_handle g) k) as Hrows.
  { clear. induction ops as [|op ops IH]; intros rows m Hk k; [apply Hk|]. cbn [fold_left]. apply IH.
    intros k'. destruct op as [key v|key]; cbn.
    - destruct (decide (key = k')) as [->|Hne]; [by rewrite !lookup_insert_eq|].
      rewrite !lookup_insert_ne; [done|by rewrite build_key_inj|done].
    - destruct (decide (key = k')) as [->|Hne]; [by rewrite !lookup_delete_eq|].
      rewrite !lookup_delete_ne; [done|by rewrite build_key_inj|done]. }
  assert (forall rows, (forall k v, rows !! k = Some v -> utf8_valid k = true) ->
    forall k v, fold_left apply_row ops rows !! k = Some v -> utf8_valid k = true) as Hutf.
  { clear -Eu. revert Eu. induction ops as [|op ops IH]; [done|]. cbn [fmap list_fmap forallb fold_left].
    intros [Hop Hrest]%andb_true_iff rows Hk. apply IH; [done|]. intros k v. destruct op as [key w|key]; cbn in *.
    - rewrite lookup_insert_Some. intros [[<- _]|[_ Hv]]; [done|by eapply Hk].
    - rewrite lookup_delete_Some. intros [_ Hv]. by eapply Hk. }
  assert (guest_rows (moved g s) = fold_left apply_row ops (guest_rows g)) as Heq.
  { apply map_eq. intros k. rewrite guest_rows_lookup. cbn. rewrite Hv. symmetry. apply Hrows. apply guest_rows_lookup. }
  split; [|done]. split; cbn; [done..|]. intros k v. rewrite Hv, <- (Hrows (guest_rows g)) by apply guest_rows_lookup.
  apply Hutf. intros k' v'. rewrite guest_rows_lookup. apply Hu.
Qed.

Lemma guest_set_inv g key value r g' :
  guest_ok g -> guest_set key value g = (r, g') ->
  guest_ok g' /\ guest_rows g' = (if is_ok r then <[key := value]> (guest_rows g) else guest_rows g).
Proof.
  intros Hg. apply (writing_inv [OpSet key value]); [|done]. intros f.
  pose proof (ms_set_spec g.(g_store) g.(g_handle) f key value (guest_counters g Hg) (guest_handle g Hg)) as Hw.
  unfold write_result in Hw. destruct (ms_set _ _ _ _ _) as [[]]; [tauto|done].
Qed.

Lemma guest_delete_inv g key r g' :
  guest_ok g -> guest_delete key g = (r, g') ->
  guest_ok g' /\ guest_rows g' = (if is_ok r then delete key (guest_rows g) else guest_rows g).
Proof.
  intros Hg. apply (writing_inv [OpDelete key]); [|done]. intros f.
  apply ms_delete_spec; apply Hg.
Qed.

Lemma guest_apply_inv g ops r g' :
  guest_ok g -> guest_apply ops g = (r, g') ->
  guest_ok g' /\ guest_rows g' = (if is_ok r then fold_left apply_row ops (guest_rows g) else guest_rows g).
Proof.
  intros Hg. apply writing_inv; [|done]. intros f.
  pose proof (ms_apply_spec g.(g_store) g.(g_handle) f ops (guest_counters g Hg) (guest_handle g Hg)) as Hw.
  unfold write_result in Hw. destruct (ms_apply _ _ _ _) as [[]]; [tauto|done].
Qed.

(** *** Listings *)

Definition all_under (p : text) : ListQuery := mkListQuery p [] 0 0 None.

Lemma resume_after_start (l : list entry) : resume_after [] l = l.
Proof. unfold resume_after. induction l as [|e l IH]; [done|]. cbn. f_equal. exact IH. Qed.

Lemma guest_scan (g : GuestState T) p :
  strip g.(g_handle) <$> scan_prefix (build_key g.(g_handle) p) (t_range g.(g_store).(db) (build_key g.(g_handle) p, true)) =
  rows_under p (guest_rows g).
Proof.
  unfold rows_under. rewrite in_order_guest_rows.
  pose proof (scan_range_spec g.(g_handle) g.(g_store).(db) (all_under p)) as Hs.
  unfold list_lower in Hs. cbn [all_under q_start_after q_prefix] in Hs.
  rewrite bool_decide_eq_true_2 in Hs by done. cbn [orb] in Hs. by rewrite Hs, resume_after_start.
Qed.

Lemma omap_all {A B} (f : A -> option B) (g : A -> B) l : Forall (fun x => f x = Some (g x)) l -> omap f l = g <$> l.
Proof. induction 1 as [|x l Hx Hl IH]; [done|]. cbn. rewrite Hx. cbn. by rewrite IH. Qed.

Lemma guest_list_keys_inv g p r g' :
  guest_ok g -> guest_list_keys p g = (r, g') ->
  guest_rows g' = guest_rows g /\
  forall ks, r = Ok ks -> ks = fst <$> rows_under p (guest_rows g).
Proof.
  intros Hg (Hrows & _ & Hr)%reading_inv. split; [done|]. intros ks [_ Hks]%Hr.
  apply read_txn_Ok in Hks. injection Hks as <-. rewrite <- guest_scan, <- list_fmap_compose.
  apply omap_all. apply Forall_forall. intros [k v] Hin. cbn.
  assert ((drop (length (prefix (g_handle g))) k, v) ∈ rows_under p (guest_rows g)) as Hu.
  { rewrite <- guest_scan. apply list_elem_of_fmap. by exists (k, v). }
  unfold rows_under, under_prefix in Hu. apply list_elem_of_In, List.filter_In in Hu as [Hu _].
  apply list_elem_of_In, in_order_elem in Hu. rewrite guest_rows_lookup in Hu.
  by rewrite (guest_utf8 g Hg _ _ Hu).
Qed.

Lemma resolve_u32 asked cap n : 0 <= asked -> cap <= u32_max -> resolve asked cap = Some n -> is_u32 asked.
Proof.
  unfold resolve, is_u32. intros ? ?. destruct (Z.eqb_spec asked 0); [unfold u32_max; lia|].
  destruct (Z.leb_spec asked cap); [lia|done].
Qed.

Lemma guest_list_entries_inv g q r g' :
  guest_ok g -> guest_list_entries q g = (r, g') ->
  guest_rows g' = guest_rows g /\
  forall page, r = Ok page -> 0 <= q.(q_limit) -> 0 <= q.(q_scan_limit) ->
    page_of q.(q_filter) (resume_after q.(q_start_after) (rows_under q.(q_prefix) (guest_rows g))) page.
Proof.
  intros Hg (Hrows & _ & Hr)%reading_inv. split; [done|]. intros page [_ Hp]%Hr Hl Hs.
  unfold rows_under. rewrite in_order_guest_rows.
  destruct (resolved_limit q) as [limit|] eqn:El; [|unfold ms_list_entries in Hp; by rewrite El in Hp].
  destruct (resolved_scan_limit q) as [scan|] eqn:Es; [|unfold ms_list_entries in Hp; by rewrite El, Es in Hp].
  destruct (list_entries_page g.(g_store) g.(g_handle) q limit scan) as (page' & Hp' & Hof); try done.
  - by apply (resolve_u32 _ MAX_LIST_LIMIT limit).
  - by apply (resolve_u32 _ MAX_LIST_SCAN_LIMIT scan).
  - apply Forall_forall. intros [k v] Hin%ns_entries_elem. by apply (guest_utf8 g Hg) in Hin.
  - unfold ms_list_entries in Hp, Hp'. rewrite El, Es in Hp, Hp'. apply read_txn_Ok in Hp, Hp'. congruence.
Qed.

(** ** The host laws *)

(** A state every call so far kept well formed. *)
Record Guest : Type := mkGuest { g_state : GuestState T; g_ok : guest_ok g_state }.

Definition keeping {A} (call : G A) (Hcall : forall g, guest_ok g -> guest_ok (call g).2) : K Guest A :=
  fun g => ((call g.(g_state)).1, mkGuest (call g.(g_state)).2 (Hcall g.(g_state) g.(g_ok))).

Lemma keeping_inv {A} (call : G A) Hcall g r g' :
  keeping call Hcall g = (r, g') -> call g.(g_state) = (r, g'.(g_state)).
Proof. unfold keeping. intros [= <- <-]. cbn. by destruct (call _). Qed.

Lemma reading_keeps {A} strings (call : LocalStore T -> ModuleStore -> TxnFaults -> result A StorageError) g :
  guest_ok g -> guest_ok (crossing strings (reading call) g).2.
Proof. destruct (crossing _ _ g) as [r g'] eqn:E. apply reading_inv in E as (_ & Hk & _). exact Hk. Qed.

Lemma set_keeps key value g : guest_ok g -> guest_ok (guest_set key value g).2.
Proof. intros Hg. destruct (guest_set key value g) as [r g'] eqn:E. by apply guest_set_inv in E as [? _]. Qed.
Lemma delete_keeps key g : guest_ok g -> guest_ok (guest_delete key g).2.
Proof. intros Hg. destruct (guest_delete key g) as [r g'] eqn:E. by apply guest_delete_inv in E as [? _]. Qed.
Lemma apply_keeps ops g : guest_ok g -> guest_ok (guest_apply ops g).2.
Proof. intros Hg. destruct (guest_apply ops g) as [r g'] eqn:E. by apply guest_apply_inv in E as [? _]. Qed.

#[export] Instance guest_kv : KvHost Guest := {|
  kv_get key := keeping (guest_get key) (reading_keeps _ _);
  kv_set key value := keeping (guest_set key value) (set_keeps key value);
  kv_delete key := keeping (guest_delete key) (delete_keeps key);
  kv_list_keys p := keeping (guest_list_keys p) (reading_keeps _ _);
  kv_rows g := guest_rows g.(g_state)
|}.

#[export] Instance guest_host : LocalStoreHost Guest := {|
  host_list_entries q := keeping (guest_list_entries q) (reading_keeps _ _);
  host_apply ops := keeping (guest_apply ops) (apply_keeps ops)
|}.

Lemma guest_kv_laws : KvLaws Guest.
Proof.
  split; cbn [kv_get kv_set kv_delete kv_list_keys kv_rows guest_kv].
  - intros g key r g' Hk%keeping_inv. apply reading_inv in Hk as (Hrows & _ & Hr). split; [done|].
    intros v [_ Hv]%Hr. apply read_txn_Ok in Hv. injection Hv as <-. by rewrite view_get, guest_rows_lookup.
  - intros g key value r g' Hk%keeping_inv. by apply guest_set_inv in Hk as [_ ?]; [|apply g_ok].
  - intros g key r g' Hk%keeping_inv. by apply guest_delete_inv in Hk as [_ ?]; [|apply g_ok].
  - intros g p r g' Hk%keeping_inv. apply guest_list_keys_inv in Hk as [Hrows Hks]; [|apply g_ok].
    split; [done|]. intros ks ->%Hks. split; [apply rows_under_NoDup|]. intros k. apply rows_under_keys.
Qed.

(** ** Faults *)

Definition store_vocabulary : list text := store_message <$> LocalStoreFaultMessage_all.

(** The text a store fault carries. *)
Definition detail_of (f : Fault) : option text :=
  match f with
  | Unsupported d | Unavailable d | Denied d | InvalidInput d | Internal d => Some d
  | FaultRateLimited | FaultTimeout => None
  end.

Lemma store_fault_spoken err : exists d, detail_of (store_fault err) = Some d /\ d ∈ store_vocabulary.
Proof.
  assert (forall m, store_message m ∈ store_vocabulary) as Hm by (intros []; unfold store_vocabulary; cbn; set_solver).
  destruct err; eexists; (split; [reflexivity|]); apply Hm.
Qed.

(** C13: the engine's store, as a guest sees it through the local-store interface, is a
    host the SDK's laws hold of, whatever its transactions do: reads change nothing
    and answer what is held, a write that fails wrote nothing, a batch lands whole or
    not at all, a listing page skips nothing. So every theorem [HostStore] and
    [Keeper] prove over those laws holds over it. What a refused call is told is one
    of seven fixed texts, whatever the quota or the backend said. *)
Theorem guest_store_is_a_lawful_host :
  KvLaws Guest /\ HostListing Guest /\ HostAtomic Guest /\
  (forall err, exists d, detail_of (store_fault err) = Some d /\ d ∈ store_vocabulary).
Proof.
  split_and!; [apply guest_kv_laws| | |apply store_fault_spoken]; split;
    cbn [host_list_entries host_apply kv_rows guest_kv guest_host].
  - intros g q r g' Hk%keeping_inv. apply guest_list_entries_inv in Hk as [Hrows Hp]; [|apply g_ok]. by split; auto.
  - intros g ops r g' Hk%keeping_inv. by apply guest_apply_inv in Hk as [_ ?]; [|apply g_ok].
Qed.
End GuestFacts.

(** ** A guest on an empty store *)

Definition guest_table : Type := gmap (list Z) (list Z).
Definition guest0 : GuestState guest_table := mkGuestState (mkLocalStore ∅ ∅) (mkModuleStore (replicate 32 7) None) [].

Lemma guest0_ok : guest_ok guest0.
Proof.
  split; [by intros p u|reflexivity|]. intros k v Hk. cbn in Hk. done.
Qed.

Definition demo_guest : Guest := mkGuest guest0 guest0_ok.

Example guest_examples :
  (kv_set [107] [1; 2] demo_guest).1 = Ok tt /\
  (kv_get [107] (kv_set [107] [1; 2] demo_guest).2).1 = Ok (Some [1; 2]) /\
  (kv_set [255] [1] demo_guest).1 = Err not_a_str /\
  (host_list_entries (mkListQuery [] [] 2000 0 None) demo_guest).1 = Err (InvalidInput (store_message ListLimitOverCap)).
Proof. split_and!; vm_compute; reflexivity. Qed.

Lemma guest_store_is_a_lawful_host_witness :
  let g := (kv_set [107] [1; 2] demo_guest).2 in
  kv_rows (kv_delete [107] g).2 = ∅ /\ kv_rows g = <[[107] := [1; 2]]> (kv_rows demo_guest).
Proof.
  intros g. destruct (@guest_store_is_a_lawful_host guest_table _ _) as (Hlaws & _).
  split; [by vm_compute|].
  assert (kv_set [107] [1; 2] demo_guest = (Ok tt, g)) as E by by vm_compute.
  exact (@kv_set_law _ _ Hlaws _ _ _ _ _ E).
Defined.
