(* ===== verification/HostGlue.v ===== *)
(** * HostGlue: the logging interface and the resource limiter of a store

    crates/nexum-runtime-wasm/src/impls/logging.rs, which turns a guest's [log] and
    [log-event] calls into records and sends them through the run's filter and gate
    ([LogGate]); and crates/nexum-runtime-wasm/src/limits.rs, the observed limiter.
    The wrapped limiter is wasmtime's and an argument. *)

From stdpp Require Import prelude list gmap strings.
From Stdlib Require Import ZArith Lia.
From S2P Require Import Prelude Policy Dispatch Logs LogGate.

Local Open Scope Z_scope.

#[local] Arguments chars_of : simpl never.

(** ** Logging *)

Inductive WireLevel : Type := WTrace | WDebug | WInfo | WWarn | WError.

Definition lift_level (l : WireLevel) : Level :=
  match l with WTrace => LTrace | WDebug => LDebug | WInfo => LInfo | WWarn => LWarn | WError => LError end.

Inductive WireValue : Type :=
| WireText (t : text)
| WireUnsigned (n : Z)
| WireSigned (n : Z)
| WireFloat (bits : Z)
| WireBoolean (b : bool).

Record WireField : Type := mkWireField { wire_name : text; wire_value : WireValue }.
Record WireSource : Type := mkWireSource { wire_target : text; wire_file : option text; wire_line : option Z }.

Definition lift_field (f : WireField) : LogField :=
  mkField f.(wire_name)
    match f.(wire_value) with
    | WireText t => VText t
    | WireUnsigned n => VUnsigned n
    | WireSigned n => VSigned n
    | WireFloat bits => VFloat bits
    | WireBoolean b => VBoolean b
    end.

(** A guest's call. *)
Inductive GuestLog : Type :=
| GLog (level : WireLevel) (message : text)
| GLogEvent (level : WireLevel) (source : WireSource) (message : text) (fields : list WireField).

Section Logging.
Context (float_text : Z -> text).
Context {B : Type} `{RateLimiter B} {K : Type} (tick : K -> Z * Z * K).
Context (filter : LogFilterPolicy) (run : RunId).

(** The record of a call made at [ts]. *)
Definition log_record (ts : Z) (call : GuestLog) : LogRecord :=
  match call with
  | GLog level message => mkRecord run ts HostInterface (lift_level level) message LogSource_default []
  | GLogEvent level source message fields =>
      mkRecord run ts HostInterface (lift_level level) message
        (mkLogSource source.(wire_target) source.(wire_file) source.(wire_line)) (lift_field <$> fields)
  end.

(** [HostState::route]. *)
Definition host_log (s : Sink (B := B) (K := K)) (call : GuestLog) : Sink :=
  let '(ts, now, k) := tick s.(sk_clock) in
  let '(router, bounds, evs) := route float_text filter s.(sk_router) s.(sk_bounds) (log_record ts call) now in
  mkSink router bounds k (s.(sk_events) ++ evs).

Definition host_logs (calls : list GuestLog) (s : Sink) : Sink := foldl host_log s calls.

(** *** What reaches a sink *)

(** A record a call may leave, under a byte cap. *)
Definition attributed (cap : Z) (r : LogRecord) : Prop :=
  r.(rec_run) = run /\ r.(rec_channel) = HostInterface /\ wire_bytes float_text r <= cap.

Definition record_cap (s : Sink (B := B) (K := K)) : Z := s.(sk_bounds).(bounds_policy).(max_record_bytes).

(** What a call adds: at most one record, to the store, or to both sinks. *)
Definition added (router : LogRouter) (consoled kept : list LogRecord) : LogRouter :=
  mkRouter (router.(console_lines) ++ consoled) (foldl log_append router.(retained) kept).

(** What routing a record adds. *)
Lemma route_adds (f : LogFilterPolicy) router (b : LogBounds (B := B)) (r : LogRecord) now :
  0 <= b.(bounds_policy).(max_record_bytes) ->
  let '(router', b', _) := route float_text f router b r now in
  b'.(bounds_policy) = b.(bounds_policy) /\
  exists consoled kept, router' = added router consoled kept /\
    (kept = [] \/ exists r', kept = [r'] /\ stamp r' = stamp r /\
       wire_bytes float_text r' <= b.(bounds_policy).(max_record_bytes)) /\ (consoled = [] \/ consoled = kept).
Proof.
  intros Hcap. unfold route, added.
  assert (forall router : LogRouter, router = mkRouter (router.(console_lines) ++ []) (foldl log_append router.(retained) [])) as Hnone.
  { intros [lines store]. cbn. by rewrite app_nil_r. }
  destruct (verdict _ _ _) eqn:Ev.
  { split; [done|]. exists [], []. split; [apply Hnone|auto]. }
  all: unfold bounds_admit; destruct (try_acquire _ _) as [[] rate];
    [|split; [done|]; exists [], []; split; [apply Hnone|auto]].
  all: pose proof (fit_spec float_text b.(bounds_policy).(max_record_bytes) r Hcap) as Hfit; cbn [bounds_policy];
    destruct (fit _ _ _) as [[r' shortened] dropped]; destruct Hfit as (Hw & _ & _ & [Hstamp _ _]);
    (split; [done|]).
  - exists [], [r']. cbn. rewrite app_nil_r. split; [done|]. split; [right; eauto|auto].
  - exists [r'], [r']. cbn. split; [done|]. split; [right; eauto|auto].
Qed.

Lemma host_log_adds s call :
  0 <= record_cap s ->
  record_cap (host_log s call) = record_cap s /\
  exists consoled kept, (host_log s call).(sk_router) = added s.(sk_router) consoled kept /\
    (kept = [] \/ exists r, kept = [r] /\ attributed (record_cap s) r) /\ (consoled = [] \/ consoled = kept).
Proof.
  intros Hcap. unfold host_log. destruct (tick _) as [[ts now] k].
  pose proof (route_adds filter s.(sk_router) s.(sk_bounds) (log_record ts call) now Hcap) as Hr.
  destruct (route _ _ _ _ _ _) as [[router b] evs]. destruct Hr as (Hp & consoled & kept & Hadd & Hk & Hc).
  unfold record_cap. cbn [sk_bounds sk_router]. rewrite Hp. split; [done|]. exists consoled, kept. split; [done|]. split; [|done].
  destruct Hk as [->|(r & -> & Hstamp & Hw)]; [auto|right]. exists r. split; [done|].
  unfold stamp in Hstamp. injection Hstamp as Hrun _ Hch _. unfold attributed. rewrite Hrun, Hch. by destruct call.
Qed.

(** Whatever a guest logs, the records that reach a sink carry the run's own
    identity and the host-interface channel and are within the operator's byte cap;
    each call leaves at most one, and nothing is printed that is not retained. *)
Theorem guest_logs_are_attributed (calls : list GuestLog) (s : Sink) :
  0 <= record_cap s ->
  exists consoled kept, (host_logs calls s).(sk_router) = added s.(sk_router) consoled kept /\
    consoled `sublist_of` kept /\ Forall (attributed (record_cap s)) kept /\ (length kept <= length calls)%nat.
Proof.
  unfold host_logs. revert s. induction calls as [|call calls IH]; intros s Hcap.
  - exists [], []. split_and!; [|done|constructor|done]. destruct s as [[lines store] b k evs]. unfold added. cbn. by rewrite app_nil_r.
  - destruct (host_log_adds s call Hcap) as (Hc & con1 & kept1 & Hr & Hk1 & Hc1).
    destruct (IH (host_log s call)) as (con2 & kept2 & Hr2 & Hs2 & Hf2 & Hl2); [by rewrite Hc|].
    exists (con1 ++ con2), (kept1 ++ kept2). cbn [foldl]. rewrite Hr2, Hr. unfold added. cbn.
    rewrite <- app_assoc, foldl_app. rewrite Hc in Hf2. split_and!; [done| | |].
    + apply sublist_app; [|done]. destruct Hc1 as [->| ->]; [apply sublist_nil_l|done].
    + apply Forall_app. split; [|done]. destruct Hk1 as [->|(r & -> & Ha)]; [constructor|by constructor].
    + rewrite length_app. destruct Hk1 as [->|(r & -> & _)]; cbn; lia.
Qed.
End Logging.

(** ** The observed limiter *)

Section Limits.
Context {L Er : Type} (inner_growing : L -> Z -> Z -> option Z -> result bool Er * L).

Record ObservedLimits : Type := mkObserved { limiter : L; memory_bytes : Z }.

Definition observed_new (inner : L) : ObservedLimits := mkObserved inner 0.

Definition memory_growing (o : ObservedLimits) (current desired : Z) (maximum : option Z) : result bool Er * ObservedLimits :=
  let (allow, inner) := inner_growing o.(limiter) current desired maximum in
  match allow with
  | Ok true => (Ok true, mkObserved inner (Z.max o.(memory_bytes) desired))
  | _ => (allow, mkObserved inner o.(memory_bytes))
  end.

(** The growth requests of a run, and what the wrapped limiter answers to them. *)
Fixpoint grow_all (o : ObservedLimits) (asks : list (Z * Z * option Z)) : ObservedLimits * list (result bool Er) :=
  match asks with
  | [] => (o, [])
  | (current, desired, maximum) :: asks =>
      let (r, o) := memory_growing o current desired maximum in
      let (o, rs) := grow_all o asks in
      (o, r :: rs)
  end.

Fixpoint inner_all (l : L) (asks : list (Z * Z * option Z)) : L * list (result bool Er) :=
  match asks with
  | [] => (l, [])
  | (current, desired, maximum) :: asks =>
      let (r, l) := inner_growing l current desired maximum in
      let (l, rs) := inner_all l asks in
      (l, r :: rs)
  end.

Definition allowed (asks : list (Z * Z * option Z)) (rs : list (result bool Er)) : list Z :=
  omap (fun p : (Z * Z * option Z) * result bool Er => match p.2 with Ok true => Some p.1.1.2 | _ => None end) (zip asks rs).

(** Observing changes no answer, and the reading is the largest growth the wrapped
    limiter allowed. *)
Theorem reading_is_the_peak (asks : list (Z * Z * option Z)) (o : ObservedLimits) :
  let (o', rs) := grow_all o asks in
  (o'.(limiter), rs) = inner_all o.(limiter) asks /\
  o'.(memory_bytes) = foldr Z.max o.(memory_bytes) (allowed asks rs).
Proof.
  revert o. induction asks as [|[[current desired] maximum] asks IH]; intros o; [done|].
  cbn [grow_all inner_all]. unfold memory_growing.
  destruct (inner_growing (limiter o) current desired maximum) as [allow inner].
  assert (forall a b l, foldr Z.max (Z.max a b) l = Z.max b (foldr Z.max a l)) as Hmax.
  { intros a b l. induction l as [|x l IHl]; cbn; lia. }
  destruct allow as [[]|e].
  all: match goal with |- context [grow_all ?o ?a] => specialize (IH o); destruct (grow_all o a) as [o' rs] end;
    cbn [limiter memory_bytes] in IH; destruct (inner_all inner _) as [l' rs']; destruct IH as [[= Hl ->] Hm];
    rewrite ?Hmax in Hm; rewrite Hl, Hm; done.
Qed.
End Limits.

(** ** Examples *)

#[local] Instance open_gate : RateLimiter unit := {| try_acquire b _ := (true, b) |}.

Definition glue_sink : Sink := mkSink (mkRouter [] (log_store_new (mkRetention 100000 4)))
  (mkBounds (mkLogBounds 64 (mkRate 10 10)) tt) tt [].
Definition glue_calls : list GuestLog :=
  [GLog WInfo (bytes_of 100); GLogEvent WWarn (mkWireSource (bytes_of 3) None (Some 4)) (bytes_of 5) [mkWireField (bytes_of 2) (WireUnsigned 9)]].
Definition glue_out : Sink := host_logs (fun _ => []) still plain_filter (run_of 0) glue_calls glue_sink.

Lemma guest_logs_are_attributed_witness :
  length glue_out.(sk_router).(console_lines) = 2%nat /\
  exists consoled kept, glue_out.(sk_router) = added glue_sink.(sk_router) consoled kept /\
    Forall (attributed (fun _ => []) (run_of 0) 64) kept.
Proof.
  split; [by vm_compute|].
  destruct (guest_logs_are_attributed (fun _ => []) still plain_filter (run_of 0) glue_calls glue_sink) as (c & k & H1 & _ & H2 & _);
    [by vm_compute|]. by exists c, k.
Defined.

(** A limiter that allows up to 10 bytes: the refused growth is not recorded. *)
Example peak_example :
  (grow_all (fun (l : unit) _ desired _ => (Ok (desired <=? 10) : result bool unit, l)) (observed_new tt)
    [(0, 4, None); (4, 12, None); (0, 3, None)]).1.(memory_bytes) = 4.
Proof. reflexivity. Qed.
