(* ===== verification/GuestConfig.v ===== *)
(** * GuestConfig: a module's settings

    crates/nexum-sdk/src/config.rs and address.rs: lookups in the [config] entries a
    module's [init] receives, the write-once slot that keeps the parsed settings,
    fixed-point decimals and address lists. The text of an error is a parameter, as
    is the parser of one address. *)

From stdpp Require Import prelude list strings.
From Stdlib Require Import ZArith Lia.
From S2P Require Import Prelude HostStore Toml.

Local Open Scope rust_scope.
Local Open Scope Z_scope.

#[local] Arguments chars_of : simpl never.

(** ** Errors *)

Inductive ConfigError : Type :=
| MissingKey (key : text)
| ConfigParse (key : text)
| ConfigRange (key : text)
| NotInitialized
| AlreadyInitialized.

(** [From<ConfigError> for Fault]; [say] is [Display]. *)
Definition config_fault (say : ConfigError -> text) (e : ConfigError) : Fault :=
  match e with
  | NotInitialized => Internal (say e)
  | MissingKey _ | ConfigParse _ | ConfigRange _ | AlreadyInitialized => InvalidInput (say e)
  end.

(** ** The slot *)

Definition Slot (A : Type) : Type := option A.
Definition slot_new {A} : Slot A := None.
Definition slot_store {A} (s : Slot A) (value : A) : result unit ConfigError * Slot A :=
  match s with
  | Some _ => (Err AlreadyInitialized, s)
  | None => (Ok tt, Some value)
  end.
Definition slot_get {A} (s : Slot A) : result A ConfigError := ok_or NotInitialized s.

(** ** Lookups *)

Definition get_optional (entries : list (text * text)) (key : text) : option text :=
  snd <$> List.find (fun e => bool_decide (e.1 = key)) entries.
Definition get_required (entries : list (text * text)) (key : text) : result text ConfigError :=
  ok_or (MissingKey key) (get_optional entries key).

(** ** Fixed-point decimals *)

Definition U256_MAX : Z := 2 ^ 256 - 1.
Definition I256_MAX : Z := 2 ^ 255 - 1.

(** [raw.parse::<U256>()] on ASCII digits. *)
Definition parse_u256_digits (s : text) : option Z :=
  let v := digits_value s in if v <=? U256_MAX then Some v else None.

Definition all_digits (s : text) : bool := forallb is_ascii_digit s.

(** Sign, whole and fraction. *)
Definition decimal_parts (value : text) : bool * (text * text) :=
  let (negative, body) := match strip_prefix [45] value with Some rest => (true, rest) | None => (false, value) end in
  (negative, default (body, []) (split_once 46 body)).

(** The digits of the scaled number. *)
Definition compose (whole frac : text) (decimals : Z) : text :=
  let frac_len := Z.of_nat (length frac) mod 2 ^ 32 in
  if frac_len <=? decimals then whole ++ frac ++ replicate (Z.to_nat (decimals - frac_len)) 48
  else whole ++ take (Z.to_nat decimals) frac.

Definition scale_decimal (value : text) (decimals : Z) (key : text) : result Z ConfigError :=
  let '(negative, (whole, frac)) := decimal_parts value in
  if bool_decide (whole = []) && bool_decide (frac = []) then Err (ConfigParse key)
  else if negb (all_digits whole) || negb (all_digits frac) then Err (ConfigParse key)
  else
    let composed := compose whole frac decimals in
    let raw := if bool_decide (composed = []) then chars_of "0" else composed in
    let? unsigned := ok_or (ConfigParse key) (parse_u256_digits raw) in
    if unsigned <=? I256_MAX then Ok (if negative : bool then - unsigned else unsigned)
    else Err (ConfigRange key).

(** ** Addresses *)

Inductive AddressParse : Type :=
| InvalidAddress (index : Z) (raw : text)
| AddressEmpty.

Section Addresses.
Context (parse_one : text -> option (list Z)).

(** The loop, from the segment [i]. *)
Fixpoint parse_segments (i : Z) (segments : list text) : result (list (list Z)) AddressParse :=
  match segments with
  | [] => Ok []
  | part :: segments =>
      let trimmed := trim part in
      if bool_decide (trimmed = []) then parse_segments (i + 1) segments
      else
        let? addr := ok_or (InvalidAddress i trimmed) (parse_one trimmed) in
        let? rest := parse_segments (i + 1) segments in
        Ok (addr :: rest)
  end.

Definition parse_address_list (raw : text) : result (list (list Z)) AddressParse :=
  let? out := parse_segments 0 (split 44 raw) in
  if bool_decide (out = []) then Err AddressEmpty else Ok out.

Definition parse_address (raw : text) : result (list Z) AddressParse :=
  ok_or (InvalidAddress 0 (trim raw)) (parse_one (trim raw)).
End Addresses.

(** ** Facts *)

Lemma digits_value_app a b : digits_value (a ++ b) = digits_value a * 10 ^ Z.of_nat (length b) + digits_value b.
Proof.
  induction b as [|c b IH] using rev_ind.
  - rewrite app_nil_r. cbn. lia.
  - rewrite app_assoc, !digits_value_snoc, IH, length_app. cbn [length].
    rewrite Nat.add_1_r, Nat2Z.inj_succ, Z.pow_succ_r by lia. lia.
Qed.

Lemma digits_value_zeros n : digits_value (replicate n 48) = 0.
Proof.
  induction n as [|n IH]; [done|].
  rewrite replicate_S_end, digits_value_snoc, IH. reflexivity.
Qed.

Lemma digits_value_bound s : all_digits s = true -> 0 <= digits_value s < 10 ^ Z.of_nat (length s).
Proof.
  unfold all_digits. induction s as [|c s IH] using rev_ind; [cbn; lia|].
  rewrite forallb_app. cbn [forallb]. rewrite andb_true_r. intros [Hs Hc]%andb_true_iff. specialize (IH Hs).
  rewrite digits_value_snoc, length_app. cbn [length]. rewrite Nat.add_1_r, Nat2Z.inj_succ, Z.pow_succ_r by lia.
  unfold is_ascii_digit in Hc. unfold digit_value. lia.
Qed.

Lemma digits_value_take n s :
  all_digits s = true -> (n <= length s)%nat ->
  digits_value (take n s) = digits_value s / 10 ^ Z.of_nat (length s - n).
Proof.
  intros Hd Hn. rewrite <- (take_drop n s) in Hd |- * at 2. unfold all_digits in Hd.
  rewrite forallb_app in Hd. apply andb_true_iff in Hd as [_ Hdrop]. rewrite digits_value_app.
  pose proof (digits_value_bound _ Hdrop) as Hb. rewrite length_drop in Hb |- *.
  rewrite Z.div_add_l by (apply Z.pow_nonzero; lia). rewrite Z.div_small by done. lia.
Qed.

(** The number a decimal spells, scaled and truncated towards zero. *)
Definition scaled (whole frac : text) (decimals : Z) : Z :=
  digits_value whole * 10 ^ decimals + digits_value frac * 10 ^ decimals / 10 ^ Z.of_nat (length frac).

Lemma compose_value whole frac decimals :
  all_digits frac = true -> 0 <= decimals -> Z.of_nat (length frac) < 2 ^ 32 ->
  digits_value (compose whole frac decimals) = scaled whole frac decimals.
Proof.
  intros Hf Hd Hl. unfold compose, scaled. rewrite Z.mod_small by lia.
  destruct (Z.leb_spec (Z.of_nat (length frac)) decimals) as [Hle|Hgt].
  - rewrite !digits_value_app, digits_value_zeros, length_app, length_replicate.
    rewrite Nat2Z.inj_add, Z2Nat.id by lia.
    replace (Z.of_nat (length frac) + (decimals - Z.of_nat (length frac))) with decimals by lia.
    replace (10 ^ decimals) with (10 ^ (decimals - Z.of_nat (length frac)) * 10 ^ Z.of_nat (length frac)) at 3
      by (rewrite <- Z.pow_add_r by lia; f_equal; lia).
    rewrite Z.mul_assoc, Z.div_mul by (apply Z.pow_nonzero; lia). lia.
  - rewrite digits_value_app, digits_value_take by (try done; lia). rewrite length_take_le by lia.
    rewrite Z2Nat.id by lia. f_equal. set (n := (length frac - Z.to_nat decimals)%nat).
    replace (10 ^ Z.of_nat (length frac)) with (10 ^ Z.of_nat n * 10 ^ decimals)
      by (rewrite <- Z.pow_add_r by lia; f_equal; unfold n; lia).
    by rewrite Z.div_mul_cancel_r by (apply Z.pow_nonzero; lia).
Qed.

Lemma pad_zero s : digits_value (if bool_decide (s = []) then chars_of "0" else s) = digits_value s.
Proof. case_bool_decide as E; [by rewrite E|done]. Qed.

(** How a decimal is written: an optional minus sign, digits, an optional point with
    more digits, and not nothing. *)
Inductive spells : text -> bool -> text -> text -> Prop :=
| spells_whole whole : all_digits whole = true -> whole <> [] -> spells whole false whole []
| spells_point whole frac : all_digits whole = true -> all_digits frac = true -> whole ++ frac <> [] ->
    spells (whole ++ 46 :: frac) false whole frac
| spells_minus value whole frac : spells value false whole frac -> spells (45 :: value) true whole frac.

Lemma all_digits_not_in c s : is_ascii_digit c = false -> all_digits s = true -> c ∉ s.
Proof.
  intros Hc Hs Hin. unfold all_digits in Hs. apply list_elem_of_In in Hin.
  apply (proj1 (forallb_forall _ _) Hs) in Hin. congruence.
Qed.

Definition well_spelled (whole frac : text) : Prop :=
  all_digits whole = true /\ all_digits frac = true /\ whole ++ frac <> [].

Lemma unsigned_parts value whole frac :
  spells value false whole frac <->
  default (value, []) (split_once 46 value) = (whole, frac) /\ well_spelled whole frac.
Proof.
  split.
  - intros Hs. inversion Hs as [w Hw Hne E1 E2|w f Hw Hf Hne E1 E2|]; subst.
    + rewrite split_once_none by (by apply all_digits_not_in). cbn. split; [done|]. split_and!; [done..|]. intros [E _]%app_nil. done.
    + rewrite split_once_app by (by apply all_digits_not_in). done.
  - intros [E (Hw & Hf & Hne)]. destruct (split_once 46 value) as [[w f]|] eqn:Es; cbn in E; simplify_eq.
    + apply split_once_Some in Es as [-> _]. by constructor.
    + rewrite app_nil_r in Hne. by constructor.
Qed.

Lemma unsigned_no_minus value whole frac : spells value false whole frac -> strip_prefix [45] value = None.
Proof.
  intros Hs. assert (45 ∉ value) as Hn.
  { inversion Hs as [w Hw Hne|w f Hw Hf Hne|]; subst; [by apply all_digits_not_in|].
    apply not_elem_of_app. split; [by apply all_digits_not_in|].
    apply not_elem_of_cons. split; [done|by apply all_digits_not_in]. }
  destruct (strip_prefix [45] value) as [r|] eqn:E; [|done]. apply strip_prefix_Some in E. subst. set_solver.
Qed.

Lemma spells_parts value negative whole frac :
  spells value negative whole frac <-> decimal_parts value = (negative, (whole, frac)) /\ well_spelled whole frac.
Proof.
  unfold decimal_parts. split.
  - intros Hs. destruct negative.
    + inversion Hs as [| |v w f Hs']; subst. cbn. apply unsigned_parts in Hs' as [-> ?]. done.
    + rewrite (unsigned_no_minus _ _ _ Hs). by apply unsigned_parts in Hs as [-> ?].
  - destruct (strip_prefix [45] value) as [rest|] eqn:E; intros [[= <- Hp] Hw].
    + apply strip_prefix_Some in E as ->. cbn. constructor. by apply unsigned_parts.
    + by apply unsigned_parts.
Qed.

(** A decimal is accepted exactly when it is well spelled and its scaled value,
    truncated towards zero, is within the range of a signed 256-bit integer; the
    answer is that value, so it never wraps. *)
Theorem scale_decimal_truncates (value : text) (decimals : Z) (key : text) (z : Z) :
  0 <= decimals -> Z.of_nat (length value) < 2 ^ 32 ->
  (scale_decimal value decimals key = Ok z <->
   exists negative whole frac, spells value negative whole frac /\ scaled whole frac decimals <= I256_MAX /\
     z = if negative : bool then - scaled whole frac decimals else scaled whole frac decimals).
Proof.
  intros Hd Hlen.
  assert (forall negative whole frac, decimal_parts value = (negative, (whole, frac)) -> Z.of_nat (length frac) < 2 ^ 32) as Hfrac.
  { intros negative whole frac. unfold decimal_parts.
    assert (forall body, (length body <= length value)%nat ->
      Z.of_nat (length (default (body, []) (split_once 46 body)).2) < 2 ^ 32) as Hb.
    { intros body Hbody. destruct (split_once 46 body) as [[a b]|] eqn:Es; cbn; [|lia].
      apply split_once_Some in Es as [-> _]. rewrite length_app in Hbody. cbn in Hbody. lia. }
    destruct (strip_prefix [45] value) as [rest|] eqn:E; intros [= <- Hp].
    - apply strip_prefix_Some in E. specialize (Hb rest). rewrite Hp in Hb. apply Hb. rewrite E. cbn. lia.
    - specialize (Hb value). rewrite Hp in Hb. by apply Hb. }
  unfold scale_decimal. destruct (decimal_parts value) as [neg [whole frac]] eqn:Ep.
  specialize (Hfrac _ _ _ eq_refl). split.
  - destruct (bool_decide (whole = []) && bool_decide (frac = [])) eqn:Eempty; [done|].
    destruct (all_digits whole) eqn:Ew; [|done]. destruct (all_digits frac) eqn:Ef; [|done]. cbn [negb orb].
    unfold parse_u256_digits. rewrite pad_zero, compose_value by done.
    destruct (_ <=? U256_MAX); cbn [ok_or]; [|done].
    destruct (Z.leb_spec (scaled whole frac decimals) I256_MAX) as [Hle|]; [|done]. intros [= <-].
    exists neg, whole, frac. split_and!; [|done|done]. apply spells_parts. rewrite Ep. split; [done|]. split_and!; [done..|].
    intros [-> ->]%app_nil. by rewrite !bool_decide_true in Eempty by done.
  - intros (neg' & whole' & frac' & Hs & Hle & ->). apply spells_parts in Hs as [E (Hw & Hf & Hne)].
    rewrite Ep in E. injection E as <- <- <-. rewrite Hw, Hf.
    replace (bool_decide (whole = []) && bool_decide (frac = [])) with false.
    2: { symmetry. apply andb_false_iff. destruct whole; [right; by destruct frac|by left]. }
    cbn [negb orb]. unfold parse_u256_digits. rewrite pad_zero, compose_value by done.
    rewrite (proj2 (Z.leb_le _ U256_MAX)) by (unfold I256_MAX, U256_MAX in *; lia). cbn [ok_or].
    by rewrite (proj2 (Z.leb_le _ _) Hle).
Qed.

Lemma scale_decimal_truncates_witness :
  scale_decimal (chars_of "-12.3456") 2 (chars_of "threshold") = Ok (-1234).
Proof.
  apply (scale_decimal_truncates (chars_of "-12.3456") 2); [lia|vm_compute; reflexivity|].
  exists true, (chars_of "12"), (chars_of "3456"). split_and!; [|vm_compute; discriminate|vm_compute; reflexivity].
  apply spells_minus. apply (spells_point (chars_of "12") (chars_of "3456")); [reflexivity..|discriminate].
Defined.
