(* ===== verification/GuestModules.v ===== *)
(** * GuestModules: the example modules

    modules/examples: balance-tracker, price-alert and http-probe (their logic.rs), on
    the SDK's helpers (crates/nexum-sdk/src: host.rs, chain/eth_call.rs,
    chain/chainlink.rs, http.rs). A module is a function of the host it is given; what
    it logs is the trace it returns.

    Hex, JSON and ABI decoding and the formatting of addresses are third-party and
    parameters. *)

From stdpp Require Import prelude list gmap strings.
From Stdlib Require Import ZArith Lia.
From S2P Require Import Prelude HostStore ChainHost Toml GuestConfig.

Local Open Scope rust_scope.
Local Open Scope Z_scope.

#[local] Arguments chars_of : simpl never.

(** ** The chain trait *)

Class ChainCalls (H : Type) : Type := {
  host_request : Z -> text -> text -> H -> result text ChainError * H
}.

(** A chain call leaves the module's store alone. *)
Class ChainCallLaws (H : Type) `{KvHost H} `{ChainCalls H} : Prop := {
  host_request_law chain method params h r h' :
    host_request chain method params h = (r, h') -> kv_rows h' = kv_rows h
}.

Definition signed (z : Z) : text := if z <? 0 then chars_of "-" ++ decimal (- z) else decimal z.

(** [From<ChainError> for Fault]; [hex] is [hex::encode_prefixed]. *)
Definition chain_fault (hex : list Z -> text) (e : ChainError) : Fault :=
  match e with
  | CFault fault => fault
  | CRpc code message data =>
      Internal (chars_of "rpc error " ++ signed code ++ chars_of ": " ++ message ++
                match data with Some d => chars_of " (" ++ hex d ++ chars_of ")" | None => [] end)
  end.

(** [str::strip_suffix] of one character. *)
Definition strip_last (c : Z) (s : text) : option text :=
  match reverse s with
  | x :: rest => if x =? c then Some (reverse rest) else None
  | [] => None
  end.

(** [s.parse::<u64>()] and the like: an optional plus sign, then digits. *)
Definition parse_uint (max : Z) (s : text) : option Z :=
  let digits := default s (strip_prefix [43] s) in
  if negb (bool_decide (digits = [])) && all_digits digits && (digits_value digits <=? max)
  then Some (digits_value digits) else None.

(** [u64::is_multiple_of]. *)
Definition is_multiple_of (a b : Z) : bool := if b =? 0 then a =? 0 else a mod b =? 0.

(** The optional throttle two modules share. *)
Definition parse_every (entries : list (text * text)) (refuse : text -> Fault) : result Z Fault :=
  let? n :=
    match get_optional entries (chars_of "every_n_blocks") with
    | Some raw => ok_or (refuse (chars_of "every_n_blocks")) (parse_uint u64_max raw)
    | None => Ok 1
    end in
  if n =? 0 then Err (InvalidInput (chars_of "every_n_blocks must be >= 1")) else Ok n.

(** [?] on a config lookup. *)
Definition of_config {A} (say : ConfigError -> text) (r : result A ConfigError) : result A Fault :=
  match r with Ok a => Ok a | Err e => Err (config_fault say e) end.

Lemma parse_every_positive entries refuse n : parse_every entries refuse = Ok n -> 1 <= n.
Proof.
  unfold parse_every. destruct (get_optional _ _) as [raw|].
  - unfold parse_uint. set (d := default raw (strip_prefix [43] raw)). destruct (_ && _) eqn:E; cbn [ok_or]; [|done].
    apply andb_true_iff in E as [[_ Hd]%andb_true_iff _]. pose proof (digits_value_bound d Hd).
    destruct (Z.eqb_spec (digits_value d) 0) as [|Hne]; [done|]. intros [= <-]. lia.
  - cbn. intros [= <-]. lia.
Qed.

(** ** balance-tracker *)

Module BalanceTracker.

Record Settings : Type := mkSettings { addresses : list (list Z); change_threshold : Z }.

(** What the module logs. *)
Inductive Ev : Type :=
| Changed (addr : list Z) (up : bool) (by_wei prior current : Z)
| Skipped (addr : list Z) (fault : Fault).

Definition abs_diff (a b : Z) : Z := if b <=? a then a - b else b - a.

Definition u256_to_le_bytes (v : Z) : list Z := to_le_bytes 32 v.

Definition parse_u256_le (bytes : list Z) : option Z := decode_le 32 bytes.

Section Settings.
Context (parse_one : text -> option (list Z)) (parse_u256 : text -> option Z).
Context (say : ConfigError -> text) (say_address : AddressParse -> text) (refuse : text -> Fault).

Definition parse_config (entries : list (text * text)) : result Settings Fault :=
  let? addresses_raw := of_config say (get_required entries (chars_of "addresses")) in
  let? change_threshold_raw := of_config say (get_required entries (chars_of "change_threshold")) in
  let? addresses :=
    match parse_address_list parse_one addresses_raw with
    | Ok l => Ok l
    | Err e => Err (InvalidInput (say_address e))
    end in
  let? change_threshold := ok_or (refuse (chars_of "change_threshold")) (parse_u256 change_threshold_raw) in
  Ok (mkSettings addresses change_threshold).
End Settings.

Section Logic.
Context {H : Type} `{KvHost H} `{!ChainCalls H}.
Context (hex_address : list Z -> text) (hex : list Z -> text) (from_hex : text -> option Z).

Definition balance_key (addr : list Z) : text := chars_of "balance:" ++ hex_address addr.

Definition parse_balance_hex (result_json : text) : option Z :=
  body ← strip_prefix [34] (trim result_json) ≫= strip_last 34;
  let digits := default body (strip_prefix (chars_of "0x") body) in
  if bool_decide (digits = []) then Some 0 else from_hex digits.

Definition fetch_balance (chain : Z) (addr : list Z) : K H Z := fun h =>
  let params := [91; 34] ++ hex_address addr ++ [34; 44; 34] ++ chars_of "latest" ++ [34; 93] in
  match host_request chain (chars_of "eth_getBalance") params h with
  | (Err e, h) => (Err (chain_fault hex e), h)
  | (Ok result_json, h) =>
      (ok_or (InvalidInput (chars_of "eth_getBalance result not a hex string: " ++ result_json))
         (parse_balance_hex result_json), h)
  end.

(** The alert against what is stored. *)
Definition alerts (threshold : Z) (addr : list Z) (prior : option Z) (current : Z) : list Ev :=
  match prior with
  | Some prior =>
      if threshold <=? abs_diff current prior
      then [Changed addr (prior <? current) (abs_diff current prior) prior current] else []
  | None => []
  end.

Definition check_one (chain : Z) (threshold : Z) (addr : list Z) (h : H) : result unit Fault * H * list Ev :=
  match fetch_balance chain addr h with
  | (Err e, h) => (Err e, h, [])
  | (Ok current, h) =>
      match kv_get (balance_key addr) h with
      | (Err e, h) => (Err e, h, [])
      | (Ok stored, h) =>
          let evs := alerts threshold addr (stored ≫= parse_u256_le) current in
          let (r, h) := kv_set (balance_key addr) (u256_to_le_bytes current) h in
          (r, h, evs)
      end
  end.

(** The loop of [on_block]. *)
Fixpoint check_all (chain threshold : Z) (addrs : list (list Z)) (h : H) : H * list Ev :=
  match addrs with
  | [] => (h, [])
  | addr :: addrs =>
      let '(r, h, evs) := check_one chain threshold addr h in
      let evs := evs ++ match r with Err e => [Skipped addr e] | Ok _ => [] end in
      let (h, rest) := check_all chain threshold addrs h in
      (h, evs ++ rest)
  end.

Definition on_block (chain : Z) (settings : Settings) (h : H) : result unit Fault * H * list Ev :=
  let (h, evs) := check_all chain settings.(change_threshold) settings.(addresses) h in (Ok tt, h, evs).

(** *** What a block does to the store *)

Context `{!KvLaws H} `{!ChainCallLaws H}.
Hypothesis from_hex_range : forall s v, from_hex s = Some v -> 0 <= v <= U256_MAX.

Notation rows := (gmap text (list Z)).

Definition prior_of (m : rows) (addr : list Z) : option Z := (m !! balance_key addr) ≫= parse_u256_le.

(** One address: a balance was read, compared with the stored one and stored; or the
    address was skipped, which changes nothing. *)
Inductive visit (threshold : Z) (m : rows) (addr : list Z) : rows -> list Ev -> Prop :=
| visit_stored current : 0 <= current <= U256_MAX ->
    visit threshold m addr (<[balance_key addr := u256_to_le_bytes current]> m)
      (alerts threshold addr (prior_of m addr) current)
| visit_unread e : visit threshold m addr m [Skipped addr e]
| visit_unwritten current e : 0 <= current <= U256_MAX ->
    visit threshold m addr m (alerts threshold addr (prior_of m addr) current ++ [Skipped addr e]).

Inductive visits (threshold : Z) : rows -> list (list Z) -> rows -> list Ev -> Prop :=
| visits_nil m : visits threshold m [] m []
| visits_cons m addr addrs m1 evs1 m2 evs2 :
    visit threshold m addr m1 evs1 -> visits threshold m1 addrs m2 evs2 ->
    visits threshold m (addr :: addrs) m2 (evs1 ++ evs2).

Lemma parse_balance_range s v : parse_balance_hex s = Some v -> 0 <= v <= U256_MAX.
Proof.
  unfold parse_balance_hex. destruct (strip_prefix [34] (trim s) ≫= strip_last 34) as [body|]; [|done].
  cbn [mbind option_bind].
  case_bool_decide; [|by apply from_hex_range]. intros [= <-]. unfold U256_MAX. lia.
Qed.

Lemma check_one_visits chain threshold addr h :
  let '(r, h', evs) := check_one chain threshold addr h in
  visit threshold (kv_rows h) addr (kv_rows h')
    (evs ++ match r with Err e => [Skipped addr e] | Ok _ => [] end).
Proof.
  unfold check_one, fetch_balance.
  destruct (host_request _ _ _ h) as [[json|e] h1] eqn:Er; apply host_request_law in Er; rewrite <- Er; [|constructor].
  destruct (parse_balance_hex json) as [current|] eqn:Ep; cbn [ok_or]; [|constructor].
  apply parse_balance_range in Ep.
  destruct (kv_get (balance_key addr) h1) as [[stored|e] h2] eqn:Eg; apply kv_get_law in Eg as [Hrows Hv];
    [|rewrite Hrows; constructor].
  rewrite (Hv stored eq_refl). destruct (kv_set _ _ h2) as [[[]|e] h3] eqn:Es; apply kv_set_law in Es; cbn [is_ok] in Es;
    rewrite Es, Hrows.
  - rewrite app_nil_r. by apply visit_stored.
  - by apply visit_unwritten.
Qed.

Lemma check_all_visits chain threshold addrs : forall h,
  let (h', evs) := check_all chain threshold addrs h in visits threshold (kv_rows h) addrs (kv_rows h') evs.
Proof.
  induction addrs as [|addr addrs IH]; intros h; cbn [check_all]; [constructor|].
  pose proof (check_one_visits chain threshold addr h) as Hv.
  destruct (check_one chain threshold addr h) as [[r h1] evs]. specialize (IH h1).
  destruct (check_all chain threshold addrs h1) as [h2 rest]. by econstructor.
Qed.

Lemma visits_other threshold m addrs m' evs k :
  visits threshold m addrs m' evs -> (forall a, a ∈ addrs -> balance_key a <> k) -> m' !! k = m !! k.
Proof.
  induction 1 as [|m addr addrs m1 evs1 m2 evs2 Hv _ IH]; intros Hk; [done|]. rewrite IH by set_solver.
  destruct Hv; [|done..]. apply lookup_insert_ne. apply Hk. set_solver.
Qed.

Lemma parse_le_bytes v : 0 <= v <= U256_MAX -> parse_u256_le (u256_to_le_bytes v) = Some v.
Proof.
  intros Hv. unfold parse_u256_le, u256_to_le_bytes, decode_le. rewrite length_to_le_bytes, decide_True by done.
  rewrite from_to_le_bytes; [done|]. unfold U256_MAX in Hv. change (256 ^ Z.of_nat 32) with (2 ^ 256). lia.
Qed.

(** A block never fails the module. Every tracked address is visited in turn: its
    balance was read and stored, with an alert exactly when it moved by the threshold
    or more from the stored one, or it was skipped with its fault logged and nothing
    changed. No other row of the store changes, and a stored balance reads back as
    itself on the next block. *)
Theorem every_address_is_visited (chain : Z) (settings : Settings) (h : H) :
  let '(r, h', evs) := on_block chain settings h in
  r = Ok tt /\
  visits settings.(change_threshold) (kv_rows h) settings.(addresses) (kv_rows h') evs /\
  (forall k, (forall a, a ∈ settings.(addresses) -> balance_key a <> k) -> kv_rows h' !! k = kv_rows h !! k) /\
  (forall m a v, 0 <= v <= U256_MAX -> prior_of (<[balance_key a := u256_to_le_bytes v]> m) a = Some v).
Proof.
  unfold on_block. pose proof (check_all_visits chain settings.(change_threshold) settings.(addresses) h) as Hv.
  destruct (check_all _ _ _ h) as [h' evs]. split_and!; [done|done| |].
  - intros k Hk. by eapply visits_other.
  - intros m a v Hr. unfold prior_of. rewrite lookup_insert_eq. by apply parse_le_bytes.
Qed.
End Logic.
End BalanceTracker.

(** ** price-alert *)

Module PriceAlert.

Inductive Direction : Type := Above | Below.

Record Settings : Type := mkSettings {
  oracle_address : list Z;
  threshold_scaled : Z;
  direction : Direction;
  every_n_blocks : Z
}.

(** What the module logs: an oracle that could not be read, or the comparison. *)
Inductive Ev : Type :=
| OracleCallFailed (error : ChainError)
| OracleNotHex (result_json : text)
| OracleDecodeFailed
| Crossed (answer : Z)
| NotCrossed (answer : Z).

Definition classify (answer threshold : Z) (direction : Direction) : bool :=
  match direction with
  | Above => threshold <=? answer
  | Below => answer <=? threshold
  end.

(** Spelled in any case. *)
Definition parse_direction (raw : text) : option Direction :=
  let raw := to_ascii_lowercase raw in
  if bool_decide (raw = chars_of "above") then Some Above
  else if bool_decide (raw = chars_of "below") then Some Below
  else None.

Section Logic.
Context {H : Type} `{ChainCalls H}.
Context (hex_address hex : list Z -> text) (json_str : text -> option text) (hex_decode : text -> option (list Z)).
Context (call_data : list Z) (decode_answer : list Z -> option Z).

(** An array of the call object (to, data) and the tag latest. *)
Definition eth_call_params (to : list Z) (data : list Z) : text :=
  [91; 123; 34] ++ chars_of "to" ++ [34; 58; 34] ++ hex_address to ++ [34; 44; 34] ++ chars_of "data" ++ [34; 58; 34] ++
  hex data ++ [34; 125; 44; 34] ++ chars_of "latest" ++ [34; 93].

Definition parse_eth_call_result (result_json : text) : option (list Z) :=
  s ← json_str result_json;
  hex_decode (default s (strip_prefix (chars_of "0x") s)).

Definition read_latest_answer (chain : Z) (oracle : list Z) (h : H) : option Z * H * list Ev :=
  match host_request chain (chars_of "eth_call") (eth_call_params oracle call_data) h with
  | (Err e, h) => (None, h, [OracleCallFailed e])
  | (Ok result_json, h) =>
      match parse_eth_call_result result_json with
      | None => (None, h, [OracleNotHex result_json])
      | Some bytes =>
          match decode_answer bytes with
          | Some answer => (Some answer, h, [])
          | None => (None, h, [OracleDecodeFailed])
          end
      end
  end.

Definition on_block (chain : Z) (settings : Settings) (block_number : Z) (h : H) : result unit Fault * H * list Ev :=
  if negb (is_multiple_of block_number settings.(every_n_blocks)) then (Ok tt, h, [])
  else
    let '(answer, h, evs) := read_latest_answer chain settings.(oracle_address) h in
    match answer with
    | None => (Ok tt, h, evs)
    | Some answer =>
        (Ok tt, h, evs ++ [if classify answer settings.(threshold_scaled) settings.(direction)
                           then Crossed answer else NotCrossed answer])
    end.

Context (parse_one : text -> option (list Z)) (say : ConfigError -> text) (refuse : text -> Fault).

Definition parse_config (entries : list (text * text)) : result Settings Fault :=
  let? oracle_raw := of_config say (get_required entries (chars_of "oracle_address")) in
  let? oracle_address := ok_or (refuse (chars_of "oracle_address")) (parse_one oracle_raw) in
  let? decimals_raw := of_config say (get_required entries (chars_of "decimals")) in
  let? decimals := ok_or (refuse (chars_of "decimals")) (parse_uint u32_max decimals_raw) in
  if 38 <? decimals then Err (refuse (chars_of "decimals"))
  else
    let? threshold_decimal := of_config say (get_required entries (chars_of "threshold")) in
    let? threshold_scaled := of_config say (scale_decimal threshold_decimal decimals (chars_of "threshold")) in
    let? raw_direction := of_config say (get_required entries (chars_of "direction")) in
    let? direction := ok_or (refuse (chars_of "direction")) (parse_direction raw_direction) in
    let? every_n_blocks := parse_every entries refuse in
    Ok (mkSettings oracle_address threshold_scaled direction every_n_blocks).

Lemma scale_decimal_range value decimals key z : scale_decimal value decimals key = Ok z -> - I256_MAX <= z <= I256_MAX.
Proof.
  unfold scale_decimal. destruct (decimal_parts value) as [neg [whole frac]].
  destruct (_ && _); [done|]. destruct (all_digits whole) eqn:Ew; [|done]. destruct (all_digits frac) eqn:Ef; [|done]. cbn [negb orb].
  set (raw := if bool_decide _ then _ else _). unfold parse_u256_digits.
  assert (all_digits raw = true) as Hd.
  { unfold raw. case_bool_decide; [done|]. unfold compose, all_digits in *.
    destruct (_ <=? _); rewrite ?forallb_app, Ew; cbn [andb].
    - rewrite Ef. cbn [andb]. apply forallb_forall. intros c Hc%list_elem_of_In. by apply elem_of_replicate in Hc as [-> _].
    - apply forallb_forall. intros c Hc%list_elem_of_In. apply elem_of_take in Hc as (i & Hi & _).
      apply list_elem_of_lookup_2, list_elem_of_In in Hi. by apply (proj1 (forallb_forall _ _) Ef). }
  pose proof (digits_value_bound raw Hd) as Hb.
  destruct (_ <=? U256_MAX); cbn [ok_or]; [|done]. destruct (Z.leb_spec (digits_value raw) I256_MAX); [|done].
  intros [= <-]. destruct neg; lia.
Qed.

(** An accepted configuration polls every so many blocks, at least one, against a
    threshold in range; and a block crosses exactly when it is one of those blocks,
    the oracle's answer could be read, and the answer is on the firing side, with the
    threshold itself firing in both directions. No failure of the oracle fails the
    module: each is logged once. *)
Theorem alert_fires_exactly_on_crossing (entries : list (text * text)) (settings : Settings) (chain block_number : Z) (h : H) :
  parse_config entries = Ok settings ->
  1 <= settings.(every_n_blocks) /\ - I256_MAX <= settings.(threshold_scaled) <= I256_MAX /\
  let '(r, h', evs) := on_block chain settings block_number h in
  r = Ok tt /\
  (forall answer, Crossed answer ∈ evs <->
     block_number mod settings.(every_n_blocks) = 0 /\
     (read_latest_answer chain settings.(oracle_address) h).1.1 = Some answer /\
     match settings.(direction) with
     | Above => settings.(threshold_scaled) <= answer
     | Below => answer <= settings.(threshold_scaled)
     end) /\
  (block_number mod settings.(every_n_blocks) = 0 -> length evs = 1%nat) /\
  (block_number mod settings.(every_n_blocks) <> 0 -> h' = h /\ evs = []).
Proof.
  intros Hc. assert (1 <= every_n_blocks settings /\ - I256_MAX <= threshold_scaled settings <= I256_MAX) as [Hn Ht].
  { unfold parse_config in Hc.
    repeat match type of Hc with
           | match ?x with Ok _ => _ | Err _ => _ end = _ => destruct x eqn:?; [|done]
           | (if ?x then _ else _) = _ => destruct x; [done|]
           end.
    injection Hc as <-. cbn. split; [by eapply parse_every_positive|].
    match goal with E : of_config say (scale_decimal ?v ?d ?k) = Ok ?z |- _ =>
      destruct (scale_decimal v d k) eqn:Es; [injection E as ->|done]; by apply scale_decimal_range in Es end. }
  split; [done|]. split; [done|]. unfold on_block, is_multiple_of.
  destruct (Z.eqb_spec (every_n_blocks settings) 0) as [|_]; [lia|].
  destruct (Z.eqb_spec (block_number mod every_n_blocks settings) 0) as [Hm|Hm]; cbn [negb].
  2: { split_and!; [done| |done|done]. intros answer. split; [intros Hin; by apply elem_of_nil in Hin|by intros [? _]]. }
  destruct (read_latest_answer chain (oracle_address settings) h) as [[[answer|] h'] evs] eqn:Er; cbn [fst].
  - assert (evs = []) as ->.
    { unfold read_latest_answer in Er. repeat case_match; by simplify_eq. }
    split_and!; [done| |done|done]. intros a. cbn [app]. rewrite list_elem_of_singleton. unfold classify.
    destruct (direction settings).
    + destruct (Z.leb_spec (threshold_scaled settings) answer); split; [intros [= <-]; done|by intros (_ & [= <-] & _)|done|].
      intros (_ & [= <-] & ?). lia.
    + destruct (Z.leb_spec answer (threshold_scaled settings)); split; [intros [= <-]; done|by intros (_ & [= <-] & _)|done|].
      intros (_ & [= <-] & ?). lia.
  - assert (exists e, evs = [e] /\ forall a, e <> Crossed a) as (e & -> & He).
    { unfold read_latest_answer in Er. repeat case_match; simplify_eq; eauto. }
    split_and!; [done| |done|done]. intros a. rewrite list_elem_of_singleton. split; [|by intros (_ & ? & _)].
    intros E. by destruct (He a).
Qed.
End Logic.
End PriceAlert.

(** ** http-probe *)

(** The SDK's fetch (crates/nexum-sdk/src/http.rs). *)

Inductive FetchError : Type :=
| FetchDenied
| FetchInvalidRequest (detail : text)
| FetchTimeout (detail : text)
| FetchTransport (detail : text).

(** The wasi:http codes [map_error] tells apart. *)
Inductive ErrorCode : Type :=
| ErrHttpRequestDenied
| ErrDnsTimeout | ErrConnectionTimeout | ErrConnectionReadTimeout | ErrConnectionWriteTimeout | ErrHttpResponseTimeout
| ErrHttpRequestMethodInvalid | ErrHttpRequestUriInvalid | ErrHttpRequestUriTooLong | ErrHttpRequestLengthRequired
| ErrOther (name : text).

Record FetchOptions : Type := mkFetchOptions { connect_timeout : Z; first_byte_timeout : Z; between_bytes_timeout : Z }.
Definition DEFAULT_TIMEOUT : Z := duration_from_secs 30.
Definition FetchOptions_default : FetchOptions := mkFetchOptions DEFAULT_TIMEOUT DEFAULT_TIMEOUT DEFAULT_TIMEOUT.

(** An error of the client: a code, or something else with its text. *)
Definition map_error (code_text : ErrorCode -> text) (error : ErrorCode + text) : FetchError :=
  match error with
  | inr detail => FetchTransport detail
  | inl code =>
      match code with
      | ErrHttpRequestDenied => FetchDenied
      | ErrDnsTimeout | ErrConnectionTimeout | ErrConnectionReadTimeout | ErrConnectionWriteTimeout
      | ErrHttpResponseTimeout => FetchTimeout (code_text code)
      | ErrHttpRequestMethodInvalid | ErrHttpRequestUriInvalid | ErrHttpRequestUriTooLong
      | ErrHttpRequestLengthRequired => FetchInvalidRequest (code_text code)
      | ErrOther _ => FetchTransport (code_text code)
      end
  end.

Record Response : Type := mkResponse { status : Z; body : list Z }.

Module HttpProbe.

Record Settings : Type := mkSettings { probe_url : text; denied_url : text; every_n_blocks : Z }.

Inductive Ev : Type :=
| Probed (url : text) (status body_bytes : Z)
| DeniedAsExpected (url : text).

Section Logic.
Context {H Request : Type}.
(** [Fetch::fetch_with], the request builder, and [Display] of a fetch error. *)
Context (fetch_with : Request -> FetchOptions -> H -> result Response FetchError * H).
Context (build_get : text -> option Request) (say_fetch : FetchError -> text) (refuse : text -> Fault).

Definition fetch (request : Request) : H -> result Response FetchError * H := fetch_with request FetchOptions_default.

Definition fetch_err (url : text) (error : FetchError) : Fault :=
  let detail := chars_of "fetch " ++ url ++ chars_of ": " ++ say_fetch error in
  match error with
  | FetchDenied => Denied detail
  | FetchInvalidRequest _ => InvalidInput detail
  | FetchTimeout _ => FaultTimeout
  | FetchTransport _ => Unavailable detail
  end.

Definition get_request (url : text) : result Request Fault := ok_or (refuse url) (build_get url).

Definition probe_allowlisted (url : text) (h : H) : result unit Fault * H * list Ev :=
  match get_request url with
  | Err e => (Err e, h, [])
  | Ok request =>
      match fetch request h with
      | (Err e, h) => (Err (fetch_err url e), h, [])
      | (Ok response, h) => (Ok tt, h, [Probed url response.(status) (Z.of_nat (length response.(body)))])
      end
  end.

(** The two texts of a fetch that was not denied. *)
Definition expected_denied (url : text) (got : text) : Fault :=
  Internal (chars_of "expected " ++ url ++ chars_of " to be denied by the allowlist, got" ++ got).

Definition probe_denied (url : text) (h : H) : result unit Fault * H * list Ev :=
  match get_request url with
  | Err e => (Err e, h, [])
  | Ok request =>
      match fetch request h with
      | (Err FetchDenied, h) => (Ok tt, h, [DeniedAsExpected url])
      | (Ok response, h) => (Err (expected_denied url (chars_of " status " ++ decimal response.(status))), h, [])
      | (Err other, h) => (Err (expected_denied url (chars_of ": " ++ say_fetch other)), h, [])
      end
  end.

Definition on_block (settings : Settings) (block_number : Z) (h : H) : result unit Fault * H * list Ev :=
  if negb (is_multiple_of block_number settings.(every_n_blocks)) then (Ok tt, h, [])
  else
    match probe_allowlisted settings.(probe_url) h with
    | (Err e, h, evs) => (Err e, h, evs)
    | (Ok _, h, evs) => let '(r, h, rest) := probe_denied settings.(denied_url) h in (r, h, evs ++ rest)
    end.

Context (say : ConfigError -> text).

Definition parse_config (entries : list (text * text)) : result Settings Fault :=
  let? probe_url := of_config say (get_required entries (chars_of "probe_url")) in
  let? denied_url := of_config say (get_required entries (chars_of "denied_url")) in
  let? every_n_blocks := parse_every entries refuse in
  Ok (mkSettings probe_url denied_url every_n_blocks).

(** On a block it polls, the module succeeds exactly when the allowlisted URL was
    fetched and the other one, fetched after it, was denied; any other answer to the
    second, a response included, is a fault. *)
Theorem probe_succeeds_iff_gate_holds (settings : Settings) (block_number : Z) (h : H) :
  is_multiple_of block_number settings.(every_n_blocks) = true ->
  (on_block settings block_number h).1.1 = Ok tt <->
  exists rq1 rq2 response h1 h2,
    build_get settings.(probe_url) = Some rq1 /\ build_get settings.(denied_url) = Some rq2 /\
    fetch rq1 h = (Ok response, h1) /\ fetch rq2 h1 = (Err FetchDenied, h2) /\
    on_block settings block_number h =
      (Ok tt, h2, [Probed settings.(probe_url) response.(status) (Z.of_nat (length response.(body)));
                   DeniedAsExpected settings.(denied_url)]).
Proof.
  intros Hm. unfold on_block. rewrite Hm. cbn [negb]. unfold probe_allowlisted, probe_denied, get_request.
  split.
  - destruct (build_get settings.(probe_url)) as [rq1|]; cbn [ok_or]; [|done].
    destruct (fetch rq1 h) as [[response|e] h1] eqn:E1; [|done].
    destruct (build_get settings.(denied_url)) as [rq2|]; cbn [ok_or]; [|done].
    destruct (fetch rq2 h1) as [[r2|[]] h2] eqn:E2; cbn; try done. intros _. by exists rq1, rq2, response, h1, h2.
  - intros (rq1 & rq2 & response & h1 & h2 & -> & -> & E1 & E2 & _). cbn [ok_or]. rewrite E1. cbn. by rewrite E2.
Qed.
End Logic.
End HttpProbe.

(** ** Examples *)

Module ExampleHosts.
(** A node that answers every call with the balance 0x64 or the word 0x64. *)
#[global] Instance mem_chain : ChainCalls Mem.Mem := {|
  host_request _ _ _ h := (Ok [34; 48; 120; 54; 52; 34], h)
|}.
#[global] Instance mem_chain_laws : ChainCallLaws Mem.Mem.
Proof. split. by intros chain method params h r h' [= <- <-]. Qed.

Definition from_hex (s : text) : option Z := if bool_decide (s = [54; 52]) then Some 100 else None.
Definition tracker : BalanceTracker.Settings := BalanceTracker.mkSettings [[1]; [2]] 30.
Definition tracked : Mem.Mem :=
  Mem.mkMem {[chars_of "balance:" ++ [1] := BalanceTracker.u256_to_le_bytes 60;
              chars_of "balance:" ++ [2] := BalanceTracker.u256_to_le_bytes 90]} [].
Definition alert_entries : list (text * text) :=
  [(chars_of "oracle_address", [9]); (chars_of "decimals", chars_of "1"); (chars_of "threshold", chars_of "9.99");
   (chars_of "direction", chars_of "ABOVE"); (chars_of "every_n_blocks", chars_of "4")].
End ExampleHosts.

Example tracker_alerts_once :
  (BalanceTracker.on_block (fun a => a) (fun _ => []) ExampleHosts.from_hex 1 ExampleHosts.tracker ExampleHosts.tracked).2 =
    [BalanceTracker.Changed [1] true 40 60 100].
Proof. vm_compute. reflexivity. Qed.

Lemma every_address_is_visited_witness :
  let '(r, h', _) :=
    BalanceTracker.on_block (fun a => a) (fun _ => []) ExampleHosts.from_hex 1 ExampleHosts.tracker ExampleHosts.tracked in
  r = Ok tt /\ kv_rows h' !! chars_of "other" = kv_rows ExampleHosts.tracked !! chars_of "other".
Proof.
  pose proof (BalanceTracker.every_address_is_visited (fun a => a) (fun _ => []) ExampleHosts.from_hex) as Hall.
  assert (forall s v, ExampleHosts.from_hex s = Some v -> 0 <= v <= U256_MAX) as Hrange.
  { intros s v. unfold ExampleHosts.from_hex. case_bool_decide; [|done]. intros [= <-]. unfold U256_MAX. lia. }
  specialize (Hall Hrange 1 ExampleHosts.tracker ExampleHosts.tracked).
  destruct (BalanceTracker.on_block _ _ _ 1 ExampleHosts.tracker ExampleHosts.tracked) as [[r h'] evs].
  destruct Hall as (Hr & _ & Hother & _). split; [exact Hr|]. apply Hother.
  intros a Ha. cbn in Ha. apply elem_of_cons in Ha as [->|Ha]; [discriminate|].
  apply list_elem_of_singleton in Ha as ->. discriminate.
Defined.

Lemma alert_fires_exactly_on_crossing_witness :
  match PriceAlert.parse_config (fun a => Some a) (fun _ => []) (fun _ => FaultTimeout) ExampleHosts.alert_entries with
  | Ok settings =>
      settings.(PriceAlert.threshold_scaled) = 99 /\
      (PriceAlert.on_block (fun a => a) (fun d => d) (fun s => Some s) (fun s => Some s) [] (fun _ => Some 99)
         1 settings 8 Mem.store).2 = [PriceAlert.Crossed 99] /\
      1 <= settings.(PriceAlert.every_n_blocks)
  | Err _ => False
  end.
Proof.
  destruct (PriceAlert.parse_config _ _ _ _) as [settings|] eqn:E; [|discriminate E].
  pose proof (PriceAlert.alert_fires_exactly_on_crossing (fun a => a) (fun d => d) (fun s => Some s) (fun s => Some s) []
    (fun _ => Some 99) (fun a => Some a) (fun _ => []) (fun _ => FaultTimeout) ExampleHosts.alert_entries settings 1 8 Mem.store E)
    as [Hn _].
  vm_compute in E. injection E as <-. split; [reflexivity|]. split; [vm_compute; reflexivity|exact Hn].
Defined.

Lemma probe_succeeds_iff_gate_holds_witness :
  let fetch_with (rq : text) (_ : FetchOptions) (h : Z) :=
    if bool_decide (rq = [1]) then (Ok (mkResponse 200 [7]), h) else (Err FetchDenied, h) in
  let settings := HttpProbe.mkSettings [1] [2] 1 in
  (HttpProbe.on_block fetch_with (fun u => Some u) (fun _ => []) (fun _ => FaultTimeout) settings 5 0).1.1 = Ok tt.
Proof.
  intros fetch_with settings.
  apply (HttpProbe.probe_succeeds_iff_gate_holds fetch_with (fun u => Some u) (fun _ => []) (fun _ => FaultTimeout) settings 5 0);
    [reflexivity|].
  exists [1], [2], (mkResponse 200 [7]), 0, 0. repeat split.
Defined.
