(* ===== verification/Errors.v ===== *)
(** * Errors: the boot path's error and its refusal labels

    crates/nexum-runtime-supervisor/src/error.rs: [RuntimeError] with the refusals
    it carries, the [error_kind] label a refusal is counted under, and the
    conversion of a backend slot's failure; the [BuildError] of
    crates/nexum-runtime-wasm/src/component/builder.rs and the [ExtensionError] of
    crates/nexum-runtime-api/src/extension.rs as the causes it wraps.

    A [dyn Error] is seen through [downcast] and [source] alone, so it is the list
    of the concrete errors that walking [source] meets, itself first; a type the
    code never downcasts to is [CForeign]. Display strings are not modelled. *)

From stdpp Require Import prelude list strings.
From Stdlib Require Import ZArith Lia.
From S2P Require Import Prelude Primitives Admission LocalStore Manifest Config ChainHost.

(** ** The refusals *)

Inductive BootRefusal : Type :=
| BNamespaceClaimed (name held path : text)
| BManifest (parse : ParseError)
| BManifestNotFound (manifest component : text)
| BManifestMissing (component : text)
| BUnconfiguredChainDefaulted (name : text) (chain_id : Z)
| BUnconfiguredChain (name : text) (chain_id : Z) (configured : list Z)
| BTotalMemoryExceeded (id : text) (sum total : Z).

Inductive LoadRefusal : Type :=
| LSectionUnclaimed (owner section : text)
| LExtensionNamespaceClaimed (namespace : text)
| LTriggerKindClaimed (kind : text)
| LSectionClaimed (section : text)
| LUnknownTriggerKind (module kind : text)
| LDigestUnpinned (path : text) (actual : list Z)
| LCapabilityNotPermitted (id capability : text)
| LChainTriggerNotPermitted (id : text).

Inductive LaunchRefusal : Type :=
| EventLoopGone
| SourceTerminal (chain_id : Z) (reason : text)
| NothingToRun
| AllDeadOverride (modules : Z)
| AllDeadConfigured (modules : Z)
| DeadHold.

Record DigestMismatchError : Type := mkMismatch {
  dm_path : text;
  dm_pin : DigestPin;
  dm_declared : list Z;
  dm_actual : list Z
}.

(** The slot a [BuildError] names, and the hook an [ExtensionError] names. *)
Inductive Slot : Type := SlotChain | SlotStore | SlotLogs.
Inductive Hook : Type := HookLink (namespace : text) | HookAdmit (worker : text) | HookSource (namespace : text).

Inductive Cause : Type :=
| CRuntime (e : RuntimeError)
| CBoot (r : BootRefusal)
| CLoad (r : LoadRefusal)
| CLaunch (r : LaunchRefusal)
| CCapability (e : CapabilityError)
| CDigest (e : DigestMismatchError)
| CPool (e : @PoolError text)
| CStorage (e : StorageError)
| CForeign (what : text)
with RuntimeError : Type :=
| RBoot (r : BootRefusal)
| RLoad (r : LoadRefusal)
| RLaunch (r : LaunchRefusal)
| RCapability (e : CapabilityError)
| RDigest (e : DigestMismatchError)
| RConfig (e : EngineConfigError)
| RPool (e : @PoolError text)
| RBackend (slot : Slot) (source : list Cause)
| RAddOn (source : list Cause)
| RExtension (hook : Hook) (source : list Cause)
| RContext (context : text) (source : RuntimeError)
| REngine (chain : list Cause).

(** ** Labels *)

(** The snake_case variant names. *)
Definition parse_label (e : ParseError) : text :=
  match e with
  | PIo => chars_of "io"
  | PToml => chars_of "toml"
  | PUnknownCapability _ _ => chars_of "unknown_capability"
  | PInvalidModuleName _ => chars_of "invalid_module_name"
  | PBlankModuleName => chars_of "blank_module_name"
  | PUntrimmedModuleName _ => chars_of "untrimmed_module_name"
  | PMissingCapabilities => chars_of "missing_capabilities"
  | PMisplacedDependencyAttribute _ _ => chars_of "misplaced_dependency_attribute"
  | PInvalidComponentDigest _ => chars_of "invalid_component_digest"
  | PMissingTriggerKind _ => chars_of "missing_trigger_kind"
  | PInvalidTrigger _ _ => chars_of "invalid_trigger"
  | PInvalidEventAddress _ => chars_of "invalid_event_address"
  | PInvalidEventTopic _ => chars_of "invalid_event_topic"
  | PNonStringTriggerFilter _ => chars_of "non_string_trigger_filter"
  | PStartBlockWithoutResume _ => chars_of "start_block_without_resume"
  | PInvalidScheduleCron _ _ => chars_of "invalid_schedule_cron"
  end.

(** The wrapped parse class names a manifest refusal. *)
Definition boot_kind (r : BootRefusal) : text :=
  match r with
  | BManifest parse => parse_label parse
  | BNamespaceClaimed _ _ _ => chars_of "namespace_claimed"
  | BManifestNotFound _ _ => chars_of "manifest_not_found"
  | BManifestMissing _ => chars_of "manifest_missing"
  | BUnconfiguredChainDefaulted _ _ => chars_of "unconfigured_chain_defaulted"
  | BUnconfiguredChain _ _ _ => chars_of "unconfigured_chain"
  | BTotalMemoryExceeded _ _ _ => chars_of "total_memory_exceeded"
  end.

Definition load_label (r : LoadRefusal) : text :=
  match r with
  | LSectionUnclaimed _ _ => chars_of "section_unclaimed"
  | LExtensionNamespaceClaimed _ => chars_of "extension_namespace_claimed"
  | LTriggerKindClaimed _ => chars_of "trigger_kind_claimed"
  | LSectionClaimed _ => chars_of "section_claimed"
  | LUnknownTriggerKind _ _ => chars_of "unknown_trigger_kind"
  | LDigestUnpinned _ _ => chars_of "digest_unpinned"
  | LCapabilityNotPermitted _ _ => chars_of "capability_not_permitted"
  | LChainTriggerNotPermitted _ => chars_of "chain_trigger_not_permitted"
  end.

(** The two refusals of a running engine carry no boot-refusal label. *)
Definition launch_kind (r : LaunchRefusal) : option text :=
  match r with
  | EventLoopGone | SourceTerminal _ _ => None
  | NothingToRun => Some (chars_of "nothing_to_run")
  | AllDeadOverride _ => Some (chars_of "all_dead_override")
  | AllDeadConfigured _ => Some (chars_of "all_dead_configured")
  | DeadHold => Some (chars_of "dead_hold_triggers")
  end.

Definition capability_label (e : CapabilityError) : text :=
  match e with
  | Undeclared _ _ => chars_of "undeclared"
  | UnknownWasi _ => chars_of "unknown_wasi"
  end.

(** A store a newer engine wrote is the one slot failure that has a label. *)
Definition backend_kind (source : list Cause) : option text :=
  find_map (fun c => match c with
                     | CStorage (SFormatTooNew _ _) => Some (chars_of "store_format_too_new")
                     | _ => None
                     end) source.

Fixpoint error_kind (e : RuntimeError) : option text :=
  match e with
  | RContext _ source => error_kind source
  | RBoot r => Some (boot_kind r)
  | RLoad r => Some (load_label r)
  | RLaunch r => launch_kind r
  | RCapability v => Some (capability_label v)
  | RDigest _ => Some (chars_of "digest_mismatch")
  | RBackend _ source => backend_kind source
  | RConfig _ | RPool _ | RAddOn _ => None
  | RExtension _ source => find_map untyped_kind source
  | REngine chain => find_map untyped_kind chain
  end
with untyped_kind (c : Cause) : option text :=
  match c with
  | CRuntime e => error_kind e
  | CBoot r => Some (boot_kind r)
  | CLoad r => Some (load_label r)
  | CLaunch r => launch_kind r
  | CCapability v => Some (capability_label v)
  | CDigest _ => Some (chars_of "digest_mismatch")
  | CPool _ | CStorage _ | CForeign _ => None
  end.

(** [RuntimeError::cause]: the error under the context frames, as a [dyn Error]
    to downcast. *)
Fixpoint cause (e : RuntimeError) : list Cause :=
  match e with
  | RContext _ source => cause source
  | RBoot r => [CBoot r]
  | RLoad r => [CLoad r]
  | RLaunch r => [CLaunch r]
  | RCapability v => [CCapability v]
  | RDigest d => [CDigest d]
  | RConfig _ => [CForeign (chars_of "EngineConfigError")]
  | RPool p => [CPool p]
  | RBackend _ source => CForeign (chars_of "BuildError") :: source
  | RAddOn source => source
  | RExtension _ source => CForeign (chars_of "ExtensionError") :: source
  | REngine chain => chain
  end.

(** [From<BuildError>]: a boxed [RuntimeError] or [PoolError] comes out as itself. *)
Definition from_build_error (slot : Slot) (source : list Cause) : RuntimeError :=
  match source with
  | CRuntime nested :: _ => nested
  | CPool pool :: _ => RPool pool
  | _ => RBackend slot source
  end.

(** ** The label set *)

Definition PINNED_LABELS : list text :=
  chars_of <$> ["namespace_claimed"; "manifest_not_found"; "manifest_missing";
    "unconfigured_chain_defaulted"; "unconfigured_chain"; "total_memory_exceeded";
    "io"; "toml"; "unknown_capability"; "invalid_module_name"; "blank_module_name";
    "untrimmed_module_name"; "missing_capabilities"; "misplaced_dependency_attribute";
    "invalid_component_digest"; "missing_trigger_kind"; "invalid_trigger"; "invalid_event_address";
    "invalid_event_topic"; "non_string_trigger_filter"; "start_block_without_resume";
    "invalid_schedule_cron"; "section_unclaimed"; "extension_namespace_claimed";
    "trigger_kind_claimed"; "section_claimed"; "unknown_trigger_kind"; "digest_unpinned";
    "capability_not_permitted"; "chain_trigger_not_permitted"; "nothing_to_run";
    "all_dead_override"; "all_dead_configured"; "dead_hold_triggers"; "undeclared"; "unknown_wasi";
    "digest_mismatch"; "store_format_too_new"].

Definition pinned (kind : option text) : Prop :=
  match kind with Some k => k ∈ PINNED_LABELS | None => True end.

Lemma find_map_pinned {A} (f : A -> option text) l : (forall x, pinned (f x)) -> pinned (find_map f l).
Proof. intros Hf. induction l as [|x l IH]; cbn; [done|]. specialize (Hf x). by destruct (f x). Qed.

Ltac in_pinned := apply (bool_decide_unpack _); vm_compute; exact I.

Lemma boot_kind_pinned r : boot_kind r ∈ PINNED_LABELS.
Proof. destruct r as [| [] | | | | |]; cbn [boot_kind parse_label]; in_pinned. Qed.

Lemma load_label_pinned r : load_label r ∈ PINNED_LABELS.
Proof. destruct r; cbn [load_label]; in_pinned. Qed.

Lemma capability_label_pinned e : capability_label e ∈ PINNED_LABELS.
Proof. destruct e; cbn [capability_label]; in_pinned. Qed.

Lemma digest_label_pinned : chars_of "digest_mismatch" ∈ PINNED_LABELS.
Proof. in_pinned. Qed.

Lemma launch_kind_pinned r : pinned (launch_kind r).
Proof. destruct r; cbn [launch_kind pinned]; try exact I; in_pinned. Qed.

Lemma backend_kind_pinned source : pinned (backend_kind source).
Proof.
  apply find_map_pinned. intros c. destruct c as [| | | | | | |[]|]; try exact I. cbn [pinned]. in_pinned.
Qed.

Create HintDb labels.
#[export] Hint Resolve boot_kind_pinned load_label_pinned capability_label_pinned digest_label_pinned
  launch_kind_pinned backend_kind_pinned : labels.

(** A chain of causes, given the nested errors. *)
Ltac chain_pinned IH :=
  match goal with
  | |- pinned (find_map untyped_kind ?l) =>
      let c := fresh "c" in let l' := fresh "l" in let IHl := fresh "IHl" in
      induction l as [|c l' IHl]; cbn [find_map]; [exact I|];
      destruct c as [e|r|r|r|v|d|p|s|w]; cbn [untyped_kind]; try exact IHl; try (cbn [pinned]; auto with labels; fail);
      [ pose proof (IH e) as He; destruct (error_kind e); [exact He | exact IHl]
      | pose proof (launch_kind_pinned r) as Hr; destruct (launch_kind r); [exact Hr | exact IHl] ]
  end.

Lemma error_kind_pinned : forall e, pinned (error_kind e).
Proof.
  fix IH 1. intros e. destruct e as [r|r|r|v|d|e|p|slot source|source|hook source|context e|chain];
    cbn [error_kind]; try exact I; try (cbn [pinned]; auto with labels; fail).
  - chain_pinned IH.
  - chain_pinned IH.
Qed.

(** An error of each class. *)
Definition specimens : list RuntimeError :=
  let n := chars_of "m" in
  (RBoot <$> [BNamespaceClaimed n n n; BManifestNotFound n n; BManifestMissing n;
     BUnconfiguredChainDefaulted n 1; BUnconfiguredChain n 1 []; BTotalMemoryExceeded n 1 0]) ++
  ((fun p => RBoot (BManifest p)) <$> [PIo; PToml; PUnknownCapability n n; PInvalidModuleName n;
     PBlankModuleName; PUntrimmedModuleName n; PMissingCapabilities; PMisplacedDependencyAttribute n n;
     PInvalidComponentDigest n; PMissingTriggerKind 1; PInvalidTrigger 1 n; PInvalidEventAddress n;
     PInvalidEventTopic n; PNonStringTriggerFilter n; PStartBlockWithoutResume 1;
     PInvalidScheduleCron n (Cron.FieldCount 1)]) ++
  (RLoad <$> [LSectionUnclaimed n n; LExtensionNamespaceClaimed n; LTriggerKindClaimed n;
     LSectionClaimed n; LUnknownTriggerKind n n; LDigestUnpinned n []; LCapabilityNotPermitted n n;
     LChainTriggerNotPermitted n]) ++
  (RLaunch <$> [NothingToRun; AllDeadOverride 1; AllDeadConfigured 1; DeadHold]) ++
  (RCapability <$> [Undeclared n n; UnknownWasi n]) ++
  [RDigest (mkMismatch n PinAuthor [] []);
   RBackend SlotStore [CForeign n; CStorage (SFormatTooNew 2 1)]].

Lemma specimens_cover : error_kind <$> specimens = Some <$> PINNED_LABELS.
Proof. vm_compute. reflexivity. Qed.

(** The refusal labels are a closed set: an error is counted under a label of
    the pinned list, however deep it is wrapped, each label of the list names the
    errors of some class, and no two classes share one. *)
Theorem error_kinds_are_pinned :
  (forall kind, (exists e, error_kind e = Some kind) <-> kind ∈ PINNED_LABELS) /\
  NoDup PINNED_LABELS /\
  (forall slot source, error_kind (from_build_error slot source) =
     match source with
     | CRuntime nested :: _ => error_kind nested
     | CPool _ :: _ => None
     | _ => backend_kind source
     end).
Proof.
  split_and!.
  - intros kind. split.
    + intros [e He]. pose proof (error_kind_pinned e) as Hp. by rewrite He in Hp.
    + intros Hk. apply (list_elem_of_fmap_2 Some) in Hk. rewrite <- specimens_cover in Hk.
      apply list_elem_of_fmap in Hk as (e & He & _). by exists e.
  - apply (bool_decide_unpack _). vm_compute. exact I.
  - by intros slot [|[] source].
Qed.

(** ** Examples *)

(** A typed refusal an embedder's hook boxed keeps its label; a wrapped string has
    none. *)
Example boxed_refusal_keeps_its_label :
  error_kind (RContext (chars_of "load module m.wasm")
    (RExtension (HookAdmit (chars_of "m")) [CForeign (chars_of "wrap"); CCapability (UnknownWasi (chars_of "wasi:x"))]))
  = Some (chars_of "unknown_wasi") /\
  error_kind (REngine [CForeign (chars_of "engine gone")]) = None.
Proof. split; vm_compute; reflexivity. Qed.
