(* ===== verification/AddOns.v ===== *)
(** * AddOns: the metric table, the observability add-on and its probe

    crates/nexum-runtime-metrics/src/lib.rs: the table of the metrics the runtime
    emits. crates/nexum-runtime/src/addons.rs: the Prometheus add-on, which binds
    the listener, installs the recorder with the histogram bounds, describes the
    table and serves [/metrics], [/healthz] and [/readyz]. The sockets, the exporter
    and the HTTP server are parameters; what an install did is traced. *)

From stdpp Require Import prelude list strings.
From Stdlib Require Import ZArith Lia QArith Sorted.
From S2P Require Import Prelude Lifecycle Dispatch Config.

Local Open Scope Z_scope.

(** ** The table *)

Inductive Kind : Type := Counter | Gauge | Histogram.

Record Metric : Type := mkMetric { metric_name : text; metric_kind : Kind; metric_help : text }.

Definition METRICS : list Metric :=
  [
   mkMetric (chars_of "nexum_runtime_boot_refusals_total") Counter
     (chars_of "Boot refusals by error kind.");
   mkMetric (chars_of "nexum_runtime_capability_denials_total") Counter
     (chars_of "Capability requests the host refused, by capability, reason, and module.");
   mkMetric (chars_of "nexum_runtime_chain_head_height") Gauge
     (chars_of "Chain head height the runtime last observed, by chain.");
   mkMetric (chars_of "nexum_runtime_chain_last_delivered_height") Gauge
     (chars_of "Highest block height delivered to a module, by chain.");
   mkMetric (chars_of "nexum_runtime_chain_request_total") Counter
     (chars_of "Chain JSON-RPC requests by chain and outcome.");
   mkMetric (chars_of "nexum_runtime_chain_response_capped_total") Counter
     (chars_of "Chain responses truncated at the configured size cap.");
   mkMetric (chars_of "nexum_runtime_delivery_latency_seconds") Histogram
     (chars_of "Seconds from the host receiving a trigger from its source to the handler starting, by module and trigger kind.");
   mkMetric (chars_of "nexum_runtime_dispatch_block_age_seconds") Histogram
     (chars_of "Wall-clock seconds from a block's own timestamp to the handler starting, by module, trigger kind and chain. Not the engine's latency: it includes propagation and any polling interval.");
   mkMetric (chars_of "nexum_runtime_dispatch_dropped_total") Counter
     (chars_of "Triggers dropped before dispatch, by reason.");
   mkMetric (chars_of "nexum_runtime_dispatch_latency_seconds") Histogram
     (chars_of "Wall-clock seconds to dispatch one trigger, by module and outcome.");
   mkMetric (chars_of "nexum_runtime_log_fields_dropped_total") Counter
     (chars_of "Structured log fields dropped past the per-record byte cap, by module and channel.");
   mkMetric (chars_of "nexum_runtime_log_records_dropped_total") Counter
     (chars_of "Module log records dropped whole by the per-run log rate limit, by module and channel.");
   mkMetric (chars_of "nexum_runtime_log_records_filtered_total") Counter
     (chars_of "Module log records dropped by the operator log filter, by module and channel. An operator choice, not a loss.");
   mkMetric (chars_of "nexum_runtime_log_records_truncated_total") Counter
     (chars_of "Module log records shortened to fit the per-record byte cap, by module and channel.");
   mkMetric (chars_of "nexum_runtime_module_errors_total") Counter
     (chars_of "Module traps by fault label.");
   mkMetric (chars_of "nexum_runtime_module_fuel_consumed") Gauge
     (chars_of "Fuel the module's last dispatch spent, out of its per-dispatch ceiling.");
   mkMetric (chars_of "nexum_runtime_module_memory_bytes") Gauge
     (chars_of "Largest linear memory the module holds, as of its last dispatch.");
   mkMetric (chars_of "nexum_runtime_module_poisoned") Gauge
     (chars_of "Modules quarantined by the poison policy or an unrecoverable event source.");
   mkMetric (chars_of "nexum_runtime_module_restarts_total") Counter
     (chars_of "Module restarts after a trap.");
   mkMetric (chars_of "nexum_runtime_module_state") Gauge
     (chars_of "Per-module lifecycle state: 1 on the module's current state and 0 on the other three.");
   mkMetric (chars_of "nexum_runtime_module_unverified") Gauge
     (chars_of "Modules loaded with neither an operator nor an author digest pin.");
   mkMetric (chars_of "nexum_runtime_run_end_total") Counter
     (chars_of "Event-loop exits by reason; " ++ [34] ++ chars_of "stream_ended" ++ [34] ++ chars_of " is a source pump that panicked or was aborted.");
   mkMetric (chars_of "nexum_runtime_source_reconnects_total") Counter
     (chars_of "Source reconnects by source_kind and chain; source_kind " ++ [34] ++ chars_of "chain-log" ++ [34] ++ chars_of " also carries module.");
   mkMetric (chars_of "nexum_runtime_start_time_seconds") Gauge
     (chars_of "Unix time the engine started, in seconds; time() minus this is the uptime.")].

(** ** Histogram bounds, in seconds *)

Local Open Scope Q_scope.

Definition DISPATCH_LATENCY_BUCKETS : list Q :=
  [5 # 1000; 1 # 100; 25 # 1000; 5 # 100; 1 # 10; 25 # 100; 5 # 10; 1; 25 # 10; 5; 10].

Definition DELIVERY_LATENCY_BUCKETS : list Q :=
  [25 # 1000000; 5 # 100000; 1 # 10000; 25 # 100000; 5 # 10000; 1 # 1000; 25 # 10000; 1 # 100; 1 # 10;
   5 # 10; 1; 5].

Definition BLOCK_AGE_BUCKETS : list Q :=
  [25 # 100; 5 # 10; 1; 2; 4; 6; 8; 12; 16; 24; 36; 60].

Definition HISTOGRAM_BUCKETS : list (text * list Q) :=
  [(chars_of "nexum_runtime_dispatch_latency_seconds", DISPATCH_LATENCY_BUCKETS);
   (chars_of "nexum_runtime_delivery_latency_seconds", DELIVERY_LATENCY_BUCKETS);
   (chars_of "nexum_runtime_dispatch_block_age_seconds", BLOCK_AGE_BUCKETS)].

Local Close Scope Q_scope.

(** ** The probe *)

Definition state_label (s : ModuleState) : text :=
  match s with
  | MAlive => chars_of "alive"
  | MBackoff => chars_of "backoff"
  | MDead => chars_of "dead"
  | MPoisoned => chars_of "poisoned"
  end.

Definition bool_text (b : bool) : text := if b then chars_of "true" else chars_of "false".

Definition NEWLINE : text := [10].

Definition healthz : text := chars_of "ok" ++ NEWLINE.

Definition readiness_body (snapshot : list (text * ModuleState)) : text :=
  (chars_of "ready: " ++ bool_text (ready snapshot) ++ NEWLINE) ++
  concat ((fun e => e.1 ++ chars_of ": " ++ state_label e.2 ++ NEWLINE) <$> snapshot).

Definition readyz (snapshot : list (text * ModuleState)) : Z * text :=
  (if ready snapshot then 200 else 503, readiness_body snapshot).

(** ** The add-on *)

Record AddOnHandle : Type := mkHandle { addon_name : text }.
Definition named (name : text) : AddOnHandle := mkHandle name.

Section Prometheus.
(** Socket addresses, listeners, and the exporter's builder with its recorder. *)
Context {Addr Listener Builder Recorder : Type}.
Context (parse_addr : text -> option Addr) (tcp_bind : Addr -> option Listener)
        (set_nonblocking : Listener -> bool) (local_addr : Listener -> option Addr)
        (from_std : Listener -> bool).
Context (builder_new : Builder) (set_buckets_for_metric : Builder -> text -> list Q -> option Builder)
        (install_recorder : Builder -> option Recorder).

Inductive PrometheusError : Type :=
| BindAddr (addr : text)
| ListenerRefused (addr : Addr)
| RecorderRefused.

(** What an install leaves in the process. *)
Inductive AddOnEv : Type :=
| EvRecorder (r : Recorder)
| EvDescribed (name : text) (kind : Kind) (help : text)
| EvServing (addr : Addr) (l : Listener) (r : Recorder).

Definition prometheus_builder : option Builder :=
  fold_left (fun builder e => builder ≫= fun b => set_buckets_for_metric b e.1 e.2)
    HISTOGRAM_BUCKETS (Some builder_new).

Definition bind_listener (bind_addr : text) : result (Addr * Listener) PrometheusError :=
  match parse_addr bind_addr with
  | None => Err (BindAddr bind_addr)
  | Some addr =>
      match tcp_bind addr with
      | None => Err (ListenerRefused addr)
      | Some listener =>
          if negb (set_nonblocking listener) then Err (ListenerRefused addr)
          else
            let bound := default addr (local_addr listener) in
            if negb (from_std listener) then Err (ListenerRefused addr) else Ok (bound, listener)
      end
  end.

Definition describe_all : list AddOnEv :=
  (fun m => EvDescribed m.(metric_name) m.(metric_kind) m.(metric_help)) <$> METRICS.

Definition install (metrics : MetricsSection) : result AddOnHandle PrometheusError * list AddOnEv :=
  let bound :=
    if metrics.(metrics_enabled)
    then match bind_listener metrics.(metrics_bind_addr) with Ok b => Ok (Some b) | Err e => Err e end
    else Ok None in
  match bound with
  | Err e => (Err e, [])
  | Ok bound =>
      match prometheus_builder ≫= install_recorder with
      | None => (Err RecorderRefused, [])
      | Some handle =>
          (Ok (named (chars_of "prometheus")),
           EvRecorder handle :: describe_all ++
           match bound with Some (addr, listener) => [EvServing addr listener handle] | None => [] end)
      end
  end.

Definition recorder_of (e : AddOnEv) : option Recorder := match e with EvRecorder r => Some r | _ => None end.
Definition served (e : AddOnEv) : option (Addr * Recorder) :=
  match e with EvServing a _ r => Some (a, r) | _ => None end.

Lemma omap_described {B} (f : AddOnEv -> option B) (tail : list AddOnEv) :
  (forall n k h, f (EvDescribed n k h) = None) -> omap f (describe_all ++ tail) = omap f tail.
Proof.
  intros Hf. rewrite omap_app. unfold describe_all. generalize METRICS as ms. intros ms.
  replace (omap f (_ <$> ms)) with (@nil B); [done|]. induction ms as [|m ms IH]; cbn; [done|]. by rewrite Hf.
Qed.

(** The observability add-on installs all or nothing: when the address is
    refused, or the recorder is, no recorder and no endpoint are left behind; when
    it succeeds there is one recorder, every metric of the table is described, and
    the endpoint is served exactly when the operator enabled it, from that
    recorder, at the address that was bound. *)
Theorem install_is_all_or_nothing metrics :
  let (r, evs) := install metrics in
  match r with
  | Err _ => evs = []
  | Ok h =>
      h.(addon_name) = chars_of "prometheus" /\
      exists rec, omap recorder_of evs = [rec] /\ describe_all ⊆ evs /\
        (metrics.(metrics_enabled) = false -> omap served evs = []) /\
        (metrics.(metrics_enabled) = true ->
           exists addr l, bind_listener metrics.(metrics_bind_addr) = Ok (addr, l) /\
             omap served evs = [(addr, rec)])
  end.
Proof.
  unfold install. generalize (prometheus_builder ≫= install_recorder) as recorder. intros recorder.
  assert (forall rec tail, describe_all ⊆ EvRecorder rec :: describe_all ++ tail) as Hdesc
    by (intros rec tail e He; apply elem_of_cons; right; apply elem_of_app; by left).
  destruct (metrics_enabled metrics);
    [destruct (bind_listener (metrics_bind_addr metrics)) as [[addr l]|e] eqn:Eb; [|reflexivity]|];
    (destruct recorder as [rec|]; [|reflexivity]); (split; [reflexivity|]); exists rec;
    cbn [omap list_omap recorder_of served]; rewrite !omap_described by reflexivity;
    (split; [reflexivity|]; split; [apply Hdesc|]; split; intros Hx; try discriminate Hx; try reflexivity).
  by exists addr, l.
Qed.
End Prometheus.

(** ** The table and the bounds *)

Fixpoint increasing (l : list Q) : bool :=
  match l with
  | x :: (y :: _) as l' => negb (Qle_bool y x) && increasing l'
  | _ => true
  end.

Definition histograms : list text :=
  metric_name <$> List.filter (fun m => match m.(metric_kind) with Histogram => true | _ => false end) METRICS.

(** No metric is described twice, and the exporter renders every histogram
    of the table, and nothing else, as buckets over positive bounds that increase. *)
Theorem histograms_have_buckets :
  NoDup (metric_name <$> METRICS) /\
  histograms ⊆+ (fst <$> HISTOGRAM_BUCKETS) /\ (fst <$> HISTOGRAM_BUCKETS) ⊆+ histograms /\
  Forall (fun e => increasing (0%Q :: e.2) = true /\ e.2 <> []) HISTOGRAM_BUCKETS.
Proof.
  split_and!.
  - apply (bool_decide_unpack _). vm_compute. exact I.
  - apply (bool_decide_unpack _). vm_compute. exact I.
  - apply (bool_decide_unpack _). vm_compute. exact I.
  - repeat constructor; try (vm_compute; reflexivity); discriminate.
Qed.

(** ** Examples *)

Definition demo_metrics (enabled : bool) (addr : text) : MetricsSection := mkMetrics enabled addr.

Definition demo_install (free : bool) :=
  install (Addr := text) (Listener := text) (Builder := list text) (Recorder := list text)
    (fun s => if bool_decide (s = []) then None else Some s)
    (fun a => if free then Some a else None) (fun _ => true) (fun l => Some l) (fun _ => true)
    [] (fun b name buckets => if bool_decide (buckets = []) then None else Some (b ++ [name])) Some.

(** A port that is taken leaves nothing behind; a free one serves every histogram's
    buckets; a disabled listener still records. *)
Example taken_port_leaves_nothing :
  (demo_install false (demo_metrics true (chars_of "127.0.0.1:9100"))).2 = [] /\
  omap served (demo_install true (demo_metrics true (chars_of "127.0.0.1:9100"))).2
    = [(chars_of "127.0.0.1:9100", fst <$> HISTOGRAM_BUCKETS)] /\
  omap recorder_of (demo_install false (demo_metrics false [])).2 = [fst <$> HISTOGRAM_BUCKETS].
Proof. split_and!; vm_compute; reflexivity. Qed.

Example readiness_reads :
  readyz [(chars_of "a", MPoisoned); (chars_of "b", MAlive)]
    = (200, chars_of "ready: true" ++ NEWLINE ++ chars_of "a: poisoned" ++ NEWLINE ++ chars_of "b: alive" ++ NEWLINE) /\
  readyz [] = (503, chars_of "ready: false" ++ NEWLINE).
Proof. split; vm_compute; reflexivity. Qed.
