(* ===== verification/Launch.v ===== *)
(** * Launch: assembling a runtime, launching it, waiting for it

    crates/nexum-runtime/src/builder.rs: the builder stages, [open_and_launch],
    [AssembledRuntime::launch] and [RuntimeHandle::wait]; the slot builders of
    crates/nexum-runtime-wasm/src/component/builder.rs and
    crates/nexum-runtime-store/src/builder.rs; [build_linker], [assemble] and
    [count_boot_refusal] of the supervisor; the preset of
    crates/nexum-runtime/src/preset.rs; and the launcher of
    crates/nexum-launch/src/lib.rs.

    The launch composes the boot of [Admission], the plan of [Sources], the source
    tasks of [BlockSource] and the loop of [EventLoop]. wasmtime, the add-ons and the
    extensions' hooks are parameters; what a launch did is traced. An error is the
    source's up to the context frames around it, which carry no label of their own
    ([Errors.error_kind]). *)

From stdpp Require Import prelude list gmap strings.
From Stdlib Require Import ZArith Lia Sorted.
From S2P Require Import Prelude Primitives Lifecycle StoreApi Cursors Policy Cron Dispatch Tasks EventLoop Admission Sources BlockSource Manifest Config Errors AddOns.

Local Open Scope Z_scope.

(** ** Effects *)

Inductive LaunchEv {K : Type} : Type :=
| LAddOn (name : text)
| LStartTime
| LEngine
| LClock (namespace : text) (wall : K)
| LLinked (namespace : text)
| LBoot (e : BootEv)
| LCritical (name : text)
| LSources (namespace : text)
| LPumps (labels : list text)
| LLoop
| LCounted (kind : text).
Arguments LaunchEv K : clear implicits.

Section Effects.
Context {K : Type}.

(** [count_boot_refusal]. *)
Definition count_boot_refusal (refusal : RuntimeError) : list (LaunchEv K) :=
  match error_kind refusal with Some kind => [LCounted kind] | None => [] end.

(** A launch: the error it refused with or its result, and what it did. *)
Definition L (X : Type) : Type := result X RuntimeError * list (LaunchEv K).

#[export] Instance L_ret : MRet L := fun X x => (Ok x, []).
#[export] Instance L_bind : MBind L := fun X Y f m =>
  match m with
  | (Ok x, tr) => let (r, tr') := f x in (r, tr ++ tr')
  | (Err e, tr) => (Err e, tr)
  end.

Definition tell (evs : list (LaunchEv K)) : L unit := (Ok tt, evs).
Definition refuse {X} (e : RuntimeError) : L X := (Err e, []).

(** [inspect_err(count_boot_refusal)]. *)
Definition counted {X} (m : L X) : L X :=
  match m with
  | (Ok x, tr) => (Ok x, tr)
  | (Err e, tr) => (Err e, tr ++ count_boot_refusal e)
  end.

Definition refuse_launch {X} (r : LaunchRefusal) : L X := counted (refuse (RLaunch r)).
End Effects.
Arguments L K X : clear implicits.

(** [WasiClockOverride] and the wall clock it makes effective. *)
Record WasiClockOverride (K : Type) : Type := mkClocks { wall : K; monotonic : K }.
Arguments mkClocks {K}.
Arguments wall {K}.
Arguments monotonic {K}.

Definition effective_wall {K} (host_wall : K) (clocks : option (WasiClockOverride K)) : K :=
  match clocks with Some clocks => clocks.(wall) | None => host_wall end.

(** ** What is assembled *)

(** An add-on, by what installing it answers. *)
Record AddOn : Type := mkAddOn { install_add_on : MetricsSection -> result AddOnHandle (list Cause) }.

(** An extension: what admission reads, its linker hook, and its sources for the
    demanded kinds: the labels of the tasks it spawned and how many streams it
    returned. *)
Record Extension (C : Type) : Type := mkExtension {
  x_ext : Ext;
  x_link : result unit (list Cause);
  x_open_sources : C -> gset text -> list text * result nat (list Cause)
}.
Arguments mkExtension {C}.
Arguments x_ext {C}.
Arguments x_link {C}.
Arguments x_open_sources {C}.

(** ** The backends *)

Record Components (P S G : Type) : Type := mkComponents { c_chain : P; c_store : S; c_logs : G }.
Arguments mkComponents {P S G}.
Arguments c_chain {P S G}.
Arguments c_store {P S G}.
Arguments c_logs {P S G}.

(** A component builder, by what building it in a context answers. *)
Record ComponentsBuilder (X P S G : Type) : Type := mkComponentsBuilder {
  b_chain : X -> result P (list Cause);
  b_store : X -> result S (list Cause);
  b_logs : X -> result G (list Cause)
}.
Arguments mkComponentsBuilder {X P S G}.
Arguments b_chain {X P S G}.
Arguments b_store {X P S G}.
Arguments b_logs {X P S G}.

Definition with_logs {X P S G G2} (b : ComponentsBuilder X P S G) (logs : X -> result G2 (list Cause))
    : ComponentsBuilder X P S G2 := mkComponentsBuilder b.(b_chain) b.(b_store) logs.

Definition build_components {X P S G} (b : ComponentsBuilder X P S G) (ctx : X)
    : result (Components P S G) (Slot * list Cause) :=
  match b.(b_chain) ctx with
  | Err e => Err (SlotChain, e)
  | Ok chain =>
      match b.(b_store) ctx with
      | Err e => Err (SlotStore, e)
      | Ok store =>
          match b.(b_logs) ctx with
          | Err e => Err (SlotLogs, e)
          | Ok logs => Ok (mkComponents chain store logs)
          end
      end
  end.

(** [LocalStoreBuilder::build] on the blocking pool; the task's join answers nothing
    when it panicked. *)
Definition build_local_store {S} (create_dir_all : text -> bool) (path_join : text -> text -> text)
    (open : text -> result S LocalStore.StorageError) (joined : bool) (data_dir : text)
    : result S (list Cause) :=
  if negb joined then Err [CForeign (chars_of "local-store open task ended abnormally")]
  else if negb (create_dir_all data_dir) then Err [CForeign (chars_of "create data directory")]
  else
    match open (path_join data_dir (chars_of "local-store.redb")) with
    | Ok store => Ok store
    | Err source => Err [CForeign (chars_of "StoreOpenError"); CStorage source]
    end.

Section Launch.
(** The parameters of the boot. *)
Context (path_exists : text -> bool) (path_parent : text -> option text)
        (path_join : text -> text -> text)
        (manifest_load : list NamespaceCaps -> text -> option LoadedManifest)
        (read_file : text -> option (list Z)) (sha256 : list Z -> list Z)
        (compile : list Z -> option (list text))
        (instantiate : text -> list Z -> list (text * text) -> option bool).
(** What a refusal of the boot carries that its model does not: the class a manifest
    was refused under, and the causes an engine failure and an extension's refusal
    wrap. *)
Context (parse_error : text -> ParseError) (engine_causes : list Cause)
        (admit_causes : text -> list Cause).
(** [Path::file_stem], the wasmtime engine, and the core interfaces of the linker. *)
Context (file_stem : text -> option text) (engine_new link_core : result unit (list Cause)).
(** The sources' filters and cursor keys, and the pieces of a loaded module that are
    made at load. *)
Context {F : Type} (filter_new : F) (filter_address filter_event_signature : F -> list Z -> F)
        (keccak256 : list Z -> list Z) (hex_address hex_topic hex_digest : list Z -> text).
Context {U N B W P S G : Type} `{RateLimiter B} `{World W} `{StateStore S}.
Context (fresh_bucket : DispatchRatePolicy -> B) (world0 : W).
(** The host's own clocks. *)
Context {K : Type} (host_wall : K).

Notation Cfg := (FullConfig U N).
Notation Exts := (list (Extension Cfg)).

(** ** The refusals of the boot *)

Definition runtime_error (r : Refusal) : RuntimeError :=
  match r with
  | NamespaceClaimed name held path => RBoot (BNamespaceClaimed name held path)
  | ManifestInvalid path => RBoot (BManifest (parse_error path))
  | ManifestNotFound manifest component => RBoot (BManifestNotFound manifest component)
  | ManifestMissing component => RBoot (BManifestMissing component)
  | UnconfiguredChainDefaulted name chain_id => RBoot (BUnconfiguredChainDefaulted name chain_id)
  | UnconfiguredChain name chain_id configured => RBoot (BUnconfiguredChain name chain_id configured)
  | TotalMemoryExceeded id sum total => RBoot (BTotalMemoryExceeded id sum total)
  | SectionUnclaimed owner section => RLoad (LSectionUnclaimed owner section)
  | ExtensionNamespaceClaimed namespace => RLoad (LExtensionNamespaceClaimed namespace)
  | TriggerKindClaimed kind => RLoad (LTriggerKindClaimed kind)
  | SectionClaimed section => RLoad (LSectionClaimed section)
  | UnknownTriggerKind module kind => RLoad (LUnknownTriggerKind module kind)
  | DigestUnpinned path actual => RLoad (LDigestUnpinned path actual)
  | CapabilityNotPermitted id capability => RLoad (LCapabilityNotPermitted id capability)
  | ChainTriggerNotPermitted id => RLoad (LChainTriggerNotPermitted id)
  | DigestMismatch path pin declared actual => RDigest (mkMismatch path pin declared actual)
  | CapabilityRefused e => RCapability e
  | ExtensionRefused namespace => RExtension (HookAdmit namespace) (admit_causes namespace)
  | EngineRefused => REngine engine_causes
  end.

(** A boot's result and effects as the launch sees them, counted. *)
Definition booted {X} (m : Admission.A X) : L K X :=
  counted match m [] with
          | (Ok x, tr) => (Ok x, LBoot <$> tr)
          | (Err e, tr) => (Err (runtime_error e), LBoot <$> tr)
          end.

(** ** The steps of a launch *)

Fixpoint install_add_ons (add_ons : list AddOn) (metrics : MetricsSection) : L K (list AddOnHandle) :=
  match add_ons with
  | [] => mret []
  | add_on :: add_ons =>
      match add_on.(install_add_on) metrics with
      | Err e => refuse (RAddOn e)
      | Ok handle =>
          tell [LAddOn handle.(addon_name)];;
          handles ← install_add_ons add_ons metrics;
          mret (handle :: handles)
      end
  end.

Definition engine : L K unit :=
  match engine_new with Ok _ => tell [LEngine] | Err e => refuse (REngine e) end.

Definition attach_wall_clock (exts : Exts) (clocks : option (WasiClockOverride K)) : L K unit :=
  let wall := effective_wall host_wall clocks in
  tell ((fun x => LClock x.(x_ext).(ext_namespace) wall) <$> exts).

Fixpoint link_extensions (exts : Exts) : L K unit :=
  match exts with
  | [] => mret tt
  | x :: exts =>
      match x.(x_link) with
      | Err e => refuse (RExtension (HookLink x.(x_ext).(ext_namespace)) e)
      | Ok _ => tell [LLinked x.(x_ext).(ext_namespace)];; link_extensions exts
      end
  end.

Definition build_linker (exts : Exts) : L K unit :=
  match link_core with
  | Err e => refuse (REngine e)
  | Ok _ => link_extensions exts
  end.

(** The entry and the policy a module-source override boots under: no configured
    component, so no policy row and no operator pin apply to it. *)
Definition override_entry (wasm : text) (manifest : option text) : ModuleEntry :=
  mkEntry (default (chars_of "module") (file_stem wasm)) wasm manifest None.

(** The [BootEnv] of an override, which has no list of modules. *)
Definition override_config (cfg : Cfg) : EngineConfig :=
  let policy := cfg.(fc_policy) in
  mkConfig []
    (mkPolicySection policy.(ceilings) policy.(capabilities) policy.(total_max_memory_bytes) ∅
       policy.(log_filter))
    (boot_config cfg).(cfg_chains) false.

Definition boot_modules (wasm manifest : option text) (cfg : Cfg) (exts : Exts) : L K (list Loaded) :=
  match wasm with
  | Some wasm =>
      booted (boot_single path_exists path_parent path_join manifest_load read_file sha256 compile
                instantiate (override_config cfg) (x_ext <$> exts) (override_entry wasm manifest))
  | None =>
      if bool_decide (cfg.(fc_modules) = []) then refuse_launch NothingToRun
      else booted (boot path_exists path_parent path_join manifest_load read_file sha256 compile
                     instantiate (boot_config cfg) (x_ext <$> exts))
  end.

(** [load::module]'s record, as dispatch reads it. *)
Definition loaded_module (cfg : Cfg) (l : Loaded) : @LoadedModule B :=
  mkLoadedModule l.(ld_name) l.(ld_triggers) l.(ld_health) (fresh_bucket cfg.(fc_limits).(rl_dispatch)) 0
    l.(ld_limits).(lim_fuel) cfg.(fc_limits).(dispatch_deadline) l.(ld_verified).

(** [assemble], over the store the components hold. *)
Definition assemble (cfg : Cfg) (store : S) (modules : list (@LoadedModule B)) : Supervisor B W S :=
  mkSupervisor modules cfg.(fc_limits).(rl_poison) ChainLogCursors_default ∅ false None store world0 [].

Definition stop_on (s : Supervisor B W S) : Supervisor B W S :=
  mkSupervisor s.(modules) s.(policy) s.(chain_log_cursors) s.(delivered_frontier) true s.(health)
    s.(store) s.(world) s.(trace).

(** The write side of [health_channel], whose snapshot starts empty. *)
Definition publish_health_to (s : Supervisor B W S) : Supervisor B W S := set_health (Some []) s.

(** The extensions' sources, in wiring order. *)
Fixpoint open_extension_sources (cfg : Cfg) (kinds : gset text) (exts : Exts) : L K (list text * nat) :=
  match exts with
  | [] => mret ([], 0%nat)
  | x :: exts =>
      let (labels, opened) := x.(x_open_sources) cfg kinds in
      tell [LSources x.(x_ext).(ext_namespace)];;
      match opened with
      | Err e => refuse (RExtension (HookSource x.(x_ext).(ext_namespace)) e)
      | Ok streams =>
          rest ← open_extension_sources cfg kinds exts;
          mret (labels ++ rest.1, (streams + rest.2)%nat)
      end
  end.

(** ** The handle *)

Notation Plan := (@SourcePlan F).

(** The event-loop task: already complete, or spawned over a supervisor, the streams
    it was declared with and the pump tasks, whose schedules read [wall]. *)
Inductive LoopTask : Type :=
| LoopDone (end_ : RunEnd)
| LoopSpawned (s : Supervisor B W S) (d : Declared) (fleet : Fleet (F := F)) (wall : K).

Record RuntimeHandle : Type := mkRuntimeHandle {
  h_event_loop : LoopTask;
  h_logs : G;
  h_drain_timeout : Z;
  h_add_ons : list AddOnHandle
}.

Definition declared (plan : Plan) (extension_streams : nat) : Declared :=
  mkDeclared (length plan.(event_sources)) (negb (bool_decide (plan.(block_chains) = [])))
    (negb (extension_streams =? 0)%nat) (negb (bool_decide (plan.(schedule_sources) = []))).

Record Assembled : Type := mkAssembled {
  a_components : Components P S G;
  a_extensions : Exts;
  a_add_ons : list AddOn;
  a_wasm : option text;
  a_manifest : option text;
  a_clocks : option (WasiClockOverride K)
}.

Definition os_signal_listener : text := chars_of "os-signal-listener".

(** [AssembledRuntime::launch]. *)
Definition launch (a : Assembled) (cfg : Cfg) : L K RuntimeHandle :=
  add_on_handles ← install_add_ons a.(a_add_ons) cfg.(fc_engine).(metrics);
  tell [LStartTime];;
  engine;;
  attach_wall_clock a.(a_extensions) a.(a_clocks);;
  build_linker a.(a_extensions);;
  loaded ← boot_modules a.(a_wasm) a.(a_manifest) cfg a.(a_extensions);
  let supervisor := assemble cfg a.(a_components).(c_store) (loaded_module cfg <$> loaded) in
  let (plan, store') := source_plan filter_new filter_address filter_event_signature keccak256
                          hex_address hex_topic hex_digest supervisor.(modules) supervisor.(store) in
  if (alive_count supervisor =? 0)%nat then
    let modules := Z.of_nat (length supervisor.(modules)) in
    refuse_launch (if bool_decide (is_Some a.(a_wasm)) then AllDeadOverride modules else AllDeadConfigured modules)
  else
    tell [LCritical os_signal_listener];;
    opened ← open_extension_sources cfg plan.(demanded_extension_kinds) a.(a_extensions);
    let handle event_loop :=
      mkRuntimeHandle event_loop a.(a_components).(c_logs) cfg.(fc_limits).(shutdown_drain) add_on_handles in
    match viability plan (Z.of_nat opened.2) with
    | DeadHoldTriggers => refuse_launch DeadHold
    | Nothing => mret (handle (LoopDone EndNothingLive))
    | Live =>
        let fleet := open_fleet opened.1 plan.(block_chains) plan.(event_sources) plan.(schedule_sources) in
        let supervisor := publish_health_to (stop_on (assemble cfg store' (loaded_module cfg <$> loaded))) in
        tell [LPumps (fst <$> fleet.(set).(handles)); LLoop];;
        mret (handle (LoopSpawned supervisor (declared plan opened.2) fleet (effective_wall host_wall a.(a_clocks))))
    end.

(** The builders' context is the config; a backend's refusal is counted here. *)
Definition open_and_launch (cfg : Cfg) (exts : Exts) (add_ons : list AddOn) (wasm manifest : option text)
    (clocks : option (WasiClockOverride K)) (components : ComponentsBuilder Cfg P S G) : L K RuntimeHandle :=
  c ← counted match build_components components cfg with
              | Ok c => mret c
              | Err (slot, source) => refuse (from_build_error slot source)
              end;
  launch (mkAssembled c exts add_ons wasm manifest clocks) cfg.

(** ** The builder stages *)

Record Preset : Type := mkPreset {
  p_components : ComponentsBuilder Cfg P S G;
  p_add_ons : list AddOn;
  p_extensions : Cfg -> Exts
}.

(** [CoreRuntime]: the backends of the default builders, the Prometheus add-on, no
    extension. *)
Definition core_runtime (components : ComponentsBuilder Cfg P S G) (prometheus : AddOn) : Preset :=
  mkPreset components [prometheus] (fun _ => []).

Record RuntimeBuilder : Type := mkRuntimeBuilder { rb_config : Cfg }.

Record PresetBuilder : Type := mkPresetBuilder {
  pb_config : Cfg;
  pb_preset : Preset;
  pb_extensions : Exts;
  pb_wasm : option text;
  pb_manifest : option text;
  pb_clocks : option (WasiClockOverride K)
}.

Record PresetComponentsBuilder : Type := mkPresetComponentsBuilder {
  pc_config : Cfg;
  pc_extensions : Exts;
  pc_add_ons : list AddOn;
  pc_wasm : option text;
  pc_manifest : option text;
  pc_clocks : option (WasiClockOverride K);
  pc_components : ComponentsBuilder Cfg P S G
}.

Record TypedBuilder : Type := mkTypedBuilder {
  tb_config : Cfg;
  tb_extensions : Exts;
  tb_wasm : option text;
  tb_manifest : option text;
  tb_clocks : option (WasiClockOverride K)
}.

Record ReadyBuilder : Type := mkReadyBuilder {
  rd_config : Cfg;
  rd_extensions : Exts;
  rd_wasm : option text;
  rd_manifest : option text;
  rd_clocks : option (WasiClockOverride K);
  rd_components : ComponentsBuilder Cfg P S G;
  rd_add_ons : list AddOn
}.

Definition with_types (b : RuntimeBuilder) : TypedBuilder := mkTypedBuilder b.(rb_config) [] None None None.
Definition with_runtime (b : RuntimeBuilder) (preset : Preset) : PresetBuilder :=
  mkPresetBuilder b.(rb_config) preset [] None None None.

Definition pb_with_extensions (b : PresetBuilder) (exts : Exts) : PresetBuilder :=
  mkPresetBuilder b.(pb_config) b.(pb_preset) (b.(pb_extensions) ++ exts) b.(pb_wasm) b.(pb_manifest) b.(pb_clocks).
Definition pb_with_module_source (b : PresetBuilder) (wasm manifest : option text) : PresetBuilder :=
  mkPresetBuilder b.(pb_config) b.(pb_preset) b.(pb_extensions) wasm manifest b.(pb_clocks).
Definition pb_with_wasi_clocks (b : PresetBuilder) (clocks : WasiClockOverride K) : PresetBuilder :=
  mkPresetBuilder b.(pb_config) b.(pb_preset) b.(pb_extensions) b.(pb_wasm) b.(pb_manifest) (Some clocks).
Definition pb_with_components (b : PresetBuilder)
    (map : ComponentsBuilder Cfg P S G -> ComponentsBuilder Cfg P S G) : PresetComponentsBuilder :=
  let extensions := b.(pb_preset).(p_extensions) b.(pb_config) ++ b.(pb_extensions) in
  let add_ons := b.(pb_preset).(p_add_ons) in
  mkPresetComponentsBuilder b.(pb_config) extensions add_ons b.(pb_wasm) b.(pb_manifest) b.(pb_clocks)
    (map b.(pb_preset).(p_components)).
Definition pb_launch (b : PresetBuilder) : L K RuntimeHandle :=
  let extensions := b.(pb_preset).(p_extensions) b.(pb_config) ++ b.(pb_extensions) in
  open_and_launch b.(pb_config) extensions b.(pb_preset).(p_add_ons) b.(pb_wasm) b.(pb_manifest) b.(pb_clocks)
    b.(pb_preset).(p_components).

Definition pc_launch (b : PresetComponentsBuilder) : L K RuntimeHandle :=
  open_and_launch b.(pc_config) b.(pc_extensions) b.(pc_add_ons) b.(pc_wasm) b.(pc_manifest) b.(pc_clocks)
    b.(pc_components).

Definition tb_with_extensions (b : TypedBuilder) (exts : Exts) : TypedBuilder :=
  mkTypedBuilder b.(tb_config) (b.(tb_extensions) ++ exts) b.(tb_wasm) b.(tb_manifest) b.(tb_clocks).
Definition tb_with_module_source (b : TypedBuilder) (wasm manifest : option text) : TypedBuilder :=
  mkTypedBuilder b.(tb_config) b.(tb_extensions) wasm manifest b.(tb_clocks).
Definition tb_with_wasi_clocks (b : TypedBuilder) (clocks : WasiClockOverride K) : TypedBuilder :=
  mkTypedBuilder b.(tb_config) b.(tb_extensions) b.(tb_wasm) b.(tb_manifest) (Some clocks).
Definition tb_with_components (b : TypedBuilder) (components : ComponentsBuilder Cfg P S G) : ReadyBuilder :=
  mkReadyBuilder b.(tb_config) b.(tb_extensions) b.(tb_wasm) b.(tb_manifest) b.(tb_clocks) components [].

Definition with_add_ons (b : ReadyBuilder) (add_ons : list AddOn) : ReadyBuilder :=
  mkReadyBuilder b.(rd_config) b.(rd_extensions) b.(rd_wasm) b.(rd_manifest) b.(rd_clocks) b.(rd_components) add_ons.
Definition rd_launch (b : ReadyBuilder) : L K RuntimeHandle :=
  open_and_launch b.(rd_config) b.(rd_extensions) b.(rd_add_ons) b.(rd_wasm) b.(rd_manifest) b.(rd_clocks)
    b.(rd_components).

(** ** The launcher *)

Inductive Command : Type := CmdDigest (path : text).

Record Cli : Type := mkCli {
  command : option Command;
  cli_wasm : option text;
  cli_manifest : option text;
  engine_config : option text;
  pretty_logs : bool;
  cli_log_backfill_concurrency : option Z
}.

(** The flag over the loaded config. *)
Definition with_backfill_flag (cli : Cli) (cfg : Cfg) : Cfg :=
  match cli.(cli_log_backfill_concurrency) with
  | None => cfg
  | Some n =>
      let e := cfg.(fc_engine) in
      mkFull (mkEngine e.(state_dir) e.(log_level) e.(metrics) n e.(require_component_digest))
        cfg.(fc_limits) cfg.(fc_policy) cfg.(fc_http_deny) cfg.(fc_chains) cfg.(fc_extensions)
        cfg.(fc_modules) cfg.(fc_defaulted)
  end.

(** The launch of nexum-launch, up to its [wait]: the config load is
    [EnvSubst.load_or_default]. *)
Definition launch_cli (load_or_default : option text -> result Cfg EngineConfigError) (preset : Preset) (cli : Cli)
    : L K RuntimeHandle :=
  match load_or_default cli.(engine_config) with
  | Err e => refuse (RConfig e)
  | Ok cfg =>
      pb_launch (pb_with_module_source
        (with_runtime (mkRuntimeBuilder (with_backfill_flag cli cfg)) preset) cli.(cli_wasm) cli.(cli_manifest))
  end.
End Launch.

(** ** The digest subcommand *)

(** [write_digest]: one line, or nothing when the artifact does not read. *)
Definition write_digest (read_file : text -> option (list Z)) (sha256 : list Z -> list Z)
    (hex : list Z -> text) (path : text) : option text :=
  bytes ← read_file path;
  Some (Digest.display hex (sha256 bytes) ++ [10]).

(** ** The process *)

(** [RunError]; the runtime's own is transparent. *)
Inductive RunError : Type := RunRuntime (e : RuntimeError) | RunDigest (path : text).

(** [run]: what a subcommand printed or refused, or how the launch of the preset ended. *)
Definition run {K} (digest : text -> option text) (launched : Cli -> L K unit) (cli : Cli)
    : result (option text) RunError * list (LaunchEv K) :=
  match cli.(command) with
  | Some (CmdDigest path) => (match digest path with Some out => Ok (Some out) | None => Err (RunDigest path) end, [])
  | None =>
      match launched cli with
      | (Ok _, tr) => (Ok None, tr)
      | (Err e, tr) => (Err (RunRuntime e), tr)
      end
  end.

(** The filter of the log: the environment's, else the configured level, else [info]. *)
Definition env_filter {F} (try_from_default_env : option F) (try_new : text -> option F) (info : F) (level : text) : F :=
  default info (match try_from_default_env with Some f => Some f | None => try_new level end).

(** ** Waiting *)

(** One poll of [wait]'s biased select. *)
Record WaitPoll : Type := mkWaitPoll {
  poll_join : option (option RunEnd);
  poll_critical : option text;
  poll_signal : bool
}.

Inductive WaitArm : Type := ArmJoined (joined : option RunEnd) | ArmCritical (name : text) | ArmSignal.

Definition wait_arm (p : WaitPoll) : option WaitArm :=
  match p.(poll_join), p.(poll_critical), p.(poll_signal) with
  | Some joined, _, _ => Some (ArmJoined joined)
  | None, Some name, _ => Some (ArmCritical name)
  | None, None, true => Some ArmSignal
  | None, None, false => None
  end.

Inductive WaitEnd : Type := Returned (r : result unit RuntimeError) | ExitProcess (code : Z).

(** [finish_wait]; [None] is a loop that panicked or was aborted. *)
Definition finish_wait {K} (joined : option RunEnd) : L K unit :=
  match joined with
  | Some (EndSourceTerminal term) => refuse_launch (SourceTerminal term.(term_chain_id) term.(term_reason))
  | Some EndShutdown | Some EndNothingLive => mret tt
  | Some EndStreamEnded | None => refuse_launch EventLoopGone
  end.

(** [wait] over the polls until one is ready, the drain that follows a signal, and the
    loop's join after it; [None] while nothing is ready. *)
Definition wait (polls : list WaitPoll) (drain : Drain.DrainOutcome) (joined_after : option RunEnd)
    : option WaitEnd :=
  match find_map wait_arm polls with
  | None => None
  | Some (ArmJoined joined) => Some (Returned (finish_wait (K := unit) joined).1)
  | Some (ArmCritical _) | Some ArmSignal =>
      match drain with
      | Drain.Drained => Some (Returned (finish_wait (K := unit) joined_after).1)
      | Drain.TimedOut _ => Some (ExitProcess 1)
      end
  end.
