(* ===== verification/LaunchSafety.v ===== *)
(** * LaunchSafety: what a launch guarantees

    Theorems over [Launch]: the order of a launch's steps, how its refusals are
    counted, which sources a launched runtime pumps, what a module-source override
    is isolated from, and what the builder paths and the waiting side promise. *)

From stdpp Require Import prelude list gmap strings.
From Stdlib Require Import ZArith Lia Sorted.
From S2P Require Import Prelude Primitives Lifecycle StoreApi LocalStore LocalStoreSafety Cursors Policy Cron Dispatch Tasks EventLoop Admission Sources BlockSource Manifest Config Errors AddOns Launch DispatchSafety.

Local Open Scope Z_scope.

(** ** Counting *)

Section Counting.
Context {K : Type}.

Definition count_of (e : LaunchEv K) : option text := match e with LCounted kind => Some kind | _ => None end.
Definition counts (tr : list (LaunchEv K)) : list text := omap count_of tr.
#[local] Arguments counts : simpl never.

(** The hooks whose refusals go straight to the caller. *)
Definition hooked (e : RuntimeError) : Prop :=
  match e with
  | REngine _ | RExtension (HookLink _) _ | RExtension (HookSource _) _ => True
  | _ => False
  end.

(** A result counts nothing, a refusal its label, once; a hook's may go uncounted. *)
Definition accounted {X} (m : L K X) : Prop :=
  match m.1 with
  | Ok _ => counts m.2 = []
  | Err e => counts m.2 = option_list (error_kind e) \/ (hooked e /\ counts m.2 = [])
  end.

Lemma counts_app tr tr' : counts (tr ++ tr') = counts tr ++ counts tr'.
Proof. apply omap_app. Qed.

Lemma accounted_ret {X} (x : X) : accounted (mret x).
Proof. done. Qed.

Lemma accounted_tell evs : counts evs = [] -> accounted (tell evs).
Proof. done. Qed.

Lemma accounted_bind {X Y} (m : L K X) (f : X -> L K Y) :
  accounted m -> (forall x, m.1 = Ok x -> accounted (f x)) -> accounted (m ≫= f).
Proof.
  destruct m as [[x|e] tr]; unfold accounted, mbind; cbn; [|done]. intros Htr Hf.
  specialize (Hf x eq_refl). destruct (f x) as [[y|e] tr']; cbn in *; rewrite counts_app, Htr; exact Hf.
Qed.

Lemma accounted_counted {X} (m : L K X) : counts m.2 = [] -> accounted (counted m).
Proof.
  destruct m as [[x|e] tr]; unfold accounted; cbn; [done|]. intros Htr. left.
  rewrite counts_app, Htr. unfold count_boot_refusal. by destruct (error_kind e).
Qed.

Lemma accounted_refuse_launch {X} (r : LaunchRefusal) : accounted (refuse_launch (X := X) r).
Proof. by apply accounted_counted. Qed.

Lemma accounted_hook {X} (e : RuntimeError) : hooked e \/ error_kind e = None -> accounted (refuse (X := X) e).
Proof. intros [He|He]; [right | left; cbn; rewrite He]; done. Qed.
End Counting.

(** ** Ordering *)

Section Ordering.
Context {K : Type}.

Definition phase (e : LaunchEv K) : nat :=
  match e with
  | LAddOn _ => 0
  | LStartTime => 1
  | LEngine => 2
  | LClock _ _ => 3
  | LLinked _ => 4
  | LBoot _ => 5
  | LCritical _ => 6
  | LSources _ => 7
  | LPumps _ => 8
  | LLoop => 9
  | LCounted _ => 10
  end%nat.

(** The events of [m] come in phase order, none before [lo], and none past [hi] when
    it goes on. *)
Record phased (lo hi : nat) {X} (m : L K X) : Prop := {
  ph_sorted : StronglySorted Nat.le (phase <$> m.2);
  ph_lower : Forall (fun e => lo <= phase e)%nat m.2;
  ph_upper : is_ok m.1 = true -> Forall (fun e => phase e <= hi)%nat m.2
}.

Lemma sorted_app (a b : list nat) n :
  StronglySorted Nat.le a -> StronglySorted Nat.le b -> Forall (fun x => x <= n)%nat a ->
  Forall (fun x => n <= x)%nat b -> StronglySorted Nat.le (a ++ b).
Proof.
  intros Ha Hb Hu Hl. induction a as [|x a IH]; [done|]. cbn.
  inversion Ha as [|? ? Ha' Hx]; subst. inversion Hu as [|? ? Hxn Hu']; subst. constructor; [auto|].
  apply Forall_app. split; [done|]. eapply Forall_impl; [exact Hl|]. cbn. lia.
Qed.

Lemma phased_bind {X Y} lo mid hi (m : L K X) (f : X -> L K Y) :
  (lo <= mid <= hi)%nat -> phased lo mid m -> (forall x, m.1 = Ok x -> phased mid hi (f x)) -> phased lo hi (m ≫= f).
Proof.
  intros Hle [Hs Hl Hu] Hf. destruct m as [[x|e] tr]; cbn in *; [|by split].
  destruct (Hf x eq_refl) as [Hs' Hl' Hu']. destruct (f x) as [r tr']; cbn in *. split; cbn.
  - rewrite fmap_app. apply (sorted_app _ _ mid); [done..| |]; apply Forall_fmap; [by apply Hu | exact Hl'].
  - apply Forall_app. split; [done|]. eapply Forall_impl; [exact Hl'|]. cbn. lia.
  - intros Hr. apply Forall_app. split; [|by apply Hu'].
    eapply Forall_impl; [by apply Hu|]. cbn. lia.
Qed.

(** Events of one phase, with a last count allowed after a refusal. *)
Lemma phased_one {X} p (m : L K X) : Forall (fun e => phase e = p) m.2 -> phased p p m.
Proof.
  intros Hp. split; [|eapply Forall_impl; [exact Hp|cbn; lia]|intros _; eapply Forall_impl; [exact Hp|cbn; lia]].
  induction Hp as [|e tr He Hp IH]; cbn; [constructor|]. constructor; [done|]. apply Forall_fmap.
  eapply Forall_impl; [exact Hp|]. cbn. lia.
Qed.

Lemma phased_mono {X} lo lo' hi hi' (m : L K X) :
  (lo' <= lo)%nat -> (hi <= hi')%nat -> phased lo hi m -> phased lo' hi' m.
Proof.
  intros H1 H2 [Hs Hl Hu]. split; [done| |intros Hok].
  - eapply Forall_impl; [exact Hl|]. cbn. lia.
  - eapply Forall_impl; [exact (Hu Hok)|]. cbn. lia.
Qed.

Lemma phased_at {X} p lo hi (m : L K X) :
  (lo <= p <= hi)%nat -> Forall (fun e => phase e = p) m.2 -> phased lo hi m.
Proof. intros Hp Hm. apply (phased_mono p _ p); [lia..|]. by apply phased_one. Qed.

Lemma phased_counted {X} p (m : L K X) : (p <= 10)%nat -> Forall (fun e => phase e = p) m.2 -> phased p p (counted m).
Proof.
  intros Hp Hm. destruct m as [[x|e] tr]; [by apply phased_one|]. cbn in Hm.
  pose proof (phased_one (X := X) p (Err e, tr) Hm) as [Hs Hl _].
  assert (Forall (fun ev => phase ev = 10%nat) (count_boot_refusal (K := K) e)) as Hc.
  { unfold count_boot_refusal. destruct (error_kind e); repeat constructor. }
  assert (StronglySorted Nat.le (phase <$> count_boot_refusal (K := K) e)) as Hsc.
  { unfold count_boot_refusal. destruct (error_kind e); repeat constructor. }
  split; cbn in *; [|apply Forall_app; split; [done|]|done].
  - rewrite fmap_app. apply (sorted_app _ _ p); [done..| |]; apply Forall_fmap;
      (eapply Forall_impl; [first [exact Hm | exact Hc]|]); cbn; lia.
  - eapply Forall_impl; [exact Hc|]. cbn. lia.
Qed.
End Ordering.

(** ** The launch *)

Section Launched.
Context (path_exists : text -> bool) (path_parent : text -> option text)
        (path_join : text -> text -> text)
        (manifest_load : list NamespaceCaps -> text -> option LoadedManifest)
        (read_file : text -> option (list Z)) (sha256 : list Z -> list Z)
        (compile : list Z -> option (list text))
        (instantiate : text -> list Z -> list (text * text) -> option bool).
Context (parse_error : text -> ParseError) (engine_causes : list Cause)
        (admit_causes : text -> list Cause).
Context (file_stem : text -> option text) (engine_new link_core : result unit (list Cause)).
Context {F : Type} (filter_new : F) (filter_address filter_event_signature : F -> list Z -> F)
        (keccak256 : list Z -> list Z) (hex_address hex_topic hex_digest : list Z -> text).
Context {U N B W P S G : Type} `{RateLimiter B} `{World W} `{StateStore S}.
Context (fresh_bucket : DispatchRatePolicy -> B) (world0 : W).
Context {K : Type} (host_wall : K).

Notation Cfg := (FullConfig U N).
#[local] Notation booted := (booted (K := K) parse_error engine_causes admit_causes).
#[local] Notation boot_modules := (boot_modules (K := K) (U := U) (N := N) path_exists path_parent path_join
  manifest_load read_file sha256 compile instantiate parse_error engine_causes admit_causes file_stem).
#[local] Notation launch := (launch (F := F) (U := U) (N := N) (B := B) (W := W) (P := P) (S := S) (G := G) (K := K)
  path_exists path_parent path_join manifest_load read_file sha256 compile instantiate parse_error engine_causes
  admit_causes file_stem engine_new link_core filter_new filter_address filter_event_signature keccak256 hex_address
  hex_topic hex_digest fresh_bucket world0 host_wall).
#[local] Notation open_and_launch := (open_and_launch (F := F) (U := U) (N := N) (B := B) (W := W) (P := P) (S := S)
  (G := G) (K := K) path_exists path_parent path_join manifest_load read_file sha256 compile instantiate parse_error
  engine_causes admit_causes file_stem engine_new link_core filter_new filter_address filter_event_signature keccak256
  hex_address hex_topic hex_digest fresh_bucket world0 host_wall).

Lemma counts_boot (tr : list BootEv) : counts (LBoot (K := K) <$> tr) = [].
Proof. by induction tr. Qed.

Lemma counts_clock (exts : list (Extension Cfg)) (w : K) :
  counts ((fun x => LClock x.(x_ext).(ext_namespace) w) <$> exts) = [].
Proof. by induction exts. Qed.

Lemma accounted_booted {X} (m : Admission.A X) : accounted (booted m).
Proof. apply accounted_counted. by destruct (m []) as [[x|e] tr]; apply counts_boot. Qed.

Lemma phased_booted {X} (m : Admission.A X) : phased 5 5 (booted m).
Proof.
  apply phased_counted; [lia|]. destruct (m []) as [[x|e] tr]; cbn; by apply Forall_fmap, Forall_true.
Qed.

Lemma accounted_add_ons add_ons ms : accounted (install_add_ons (K := K) add_ons ms).
Proof.
  induction add_ons as [|a add_ons IH]; cbn [install_add_ons]; [done|].
  destruct (install_add_on a ms); [|by apply accounted_hook; right].
  apply accounted_bind; [done|]. intros _ _. apply accounted_bind; [exact IH|]. done.
Qed.

Lemma phased_add_ons add_ons ms : phased 0 0 (install_add_ons (K := K) add_ons ms).
Proof.
  induction add_ons as [|a add_ons IH]; cbn [install_add_ons]; [by apply phased_one|].
  destruct (install_add_on a ms); [|by apply phased_one].
  apply (phased_bind 0 0 0); [lia|by apply phased_one; repeat constructor|]. intros _ _.
  apply (phased_bind 0 0 0); [lia|exact IH|]. intros ? _. by apply phased_one.
Qed.

Lemma accounted_linker (exts : list (Extension Cfg)) : accounted (build_linker (K := K) link_core exts).
Proof.
  unfold build_linker. destruct link_core; [|by apply accounted_hook; left].
  induction exts as [|x exts IH]; cbn [link_extensions]; [done|].
  destruct (x_link x); [|by apply accounted_hook; left]. apply accounted_bind; [done|]. by intros.
Qed.

Lemma phased_linker (exts : list (Extension Cfg)) : phased 4 4 (build_linker (K := K) link_core exts).
Proof.
  unfold build_linker. destruct link_core; [|by apply phased_one].
  induction exts as [|x exts IH]; cbn [link_extensions]; [by apply phased_one|].
  destruct (x_link x); [|by apply phased_one].
  apply (phased_bind 4 4 4); [lia|by apply phased_one; repeat constructor|]. by intros.
Qed.

Lemma accounted_sources cfg kinds (exts : list (Extension Cfg)) :
  accounted (open_extension_sources (K := K) cfg kinds exts).
Proof.
  induction exts as [|x exts IH]; cbn [open_extension_sources]; [done|].
  destruct (x_open_sources x cfg kinds) as [labels [n|e]]; (apply accounted_bind; [done|]; intros _ _).
  - apply accounted_bind; [exact IH|]. done.
  - by apply accounted_hook; left.
Qed.

Lemma phased_sources cfg kinds (exts : list (Extension Cfg)) :
  phased 7 7 (open_extension_sources (K := K) cfg kinds exts).
Proof.
  induction exts as [|x exts IH]; cbn [open_extension_sources]; [by apply phased_one|].
  destruct (x_open_sources x cfg kinds) as [labels [n|e]];
    (apply (phased_bind 7 7 7); [lia|by apply phased_one; repeat constructor|]; intros _ _).
  - apply (phased_bind 7 7 7); [lia|exact IH|]. intros ? _. by apply phased_one.
  - by apply phased_one.
Qed.

Lemma accounted_boot_modules wasm manifest cfg exts : accounted (boot_modules wasm manifest cfg exts).
Proof.
  unfold Launch.boot_modules. destruct wasm; [apply accounted_booted|].
  case_bool_decide; [apply accounted_refuse_launch | apply accounted_booted].
Qed.

Lemma phased_boot_modules wasm manifest cfg exts : phased 5 5 (boot_modules wasm manifest cfg exts).
Proof.
  unfold Launch.boot_modules. destruct wasm; [apply phased_booted|].
  case_bool_decide; [by apply phased_counted; [lia|constructor] | apply phased_booted].
Qed.

Lemma accounted_launch a cfg : accounted (launch a cfg).
Proof.
  unfold Launch.launch.
  apply accounted_bind; [apply accounted_add_ons|]. intros handles _.
  apply accounted_bind; [done|]. intros _ _.
  apply accounted_bind; [unfold engine; destruct engine_new; [done | by apply accounted_hook; left]|]. intros _ _.
  apply accounted_bind; [by apply accounted_tell, counts_clock|]. intros _ _.
  apply accounted_bind; [apply accounted_linker|]. intros _ _.
  apply accounted_bind; [apply accounted_boot_modules|]. intros loaded _.
  destruct (source_plan _ _ _ _ _ _ _ _ _) as [plan store'].
  destruct (alive_count _ =? 0)%nat; [apply accounted_refuse_launch|].
  apply accounted_bind; [done|]. intros _ _.
  apply accounted_bind; [apply accounted_sources|]. intros opened _.
  destruct (viability plan _); [done | apply accounted_refuse_launch | done].
Qed.

Lemma phased_launch a cfg : phased 0 9 (launch a cfg).
Proof.
  unfold Launch.launch.
  apply (phased_bind 0 0 9); [lia|apply phased_add_ons|]. intros handles _.
  apply (phased_bind 0 1 9); [lia|apply (phased_at 1); [lia|by repeat constructor]|]. intros _ _.
  apply (phased_bind 1 2 9); [lia|apply (phased_at 2); [lia|unfold engine; destruct engine_new; by repeat constructor]|].
  intros _ _.
  apply (phased_bind 2 3 9); [lia|apply (phased_at 3); [lia|by apply Forall_fmap, Forall_true]|]. intros _ _.
  apply (phased_bind 3 4 9); [lia|apply (phased_mono 4 _ 4), phased_linker; lia|]. intros _ _.
  apply (phased_bind 4 5 9); [lia|apply (phased_mono 5 _ 5), phased_boot_modules; lia|]. intros loaded _.
  destruct (source_plan _ _ _ _ _ _ _ _ _) as [plan store'].
  destruct (alive_count _ =? 0)%nat; [apply (phased_mono 5 _ 5); [lia..|]; by apply phased_counted; [lia|constructor]|].
  apply (phased_bind 5 6 9); [lia|apply (phased_at 6); [lia|by repeat constructor]|]. intros _ _.
  apply (phased_bind 6 7 9); [lia|apply (phased_mono 7 _ 7), phased_sources; lia|]. intros opened _.
  destruct (viability plan _).
  - apply (phased_at 7); [lia|constructor].
  - apply (phased_mono 7 _ 7); [lia..|]. by apply phased_counted; [lia|constructor].
  - split; cbn; repeat constructor; cbn; lia.
Qed.

Lemma accounted_open_and_launch cfg exts add_ons wasm manifest clocks components :
  accounted (open_and_launch cfg exts add_ons wasm manifest clocks components).
Proof.
  unfold Launch.open_and_launch. apply accounted_bind; [|intros c _; apply accounted_launch].
  apply accounted_counted. by destruct (build_components components cfg) as [c|[slot source]].
Qed.

(** Every refusal is counted once, under its own label: a launch that
    returns a handle counts nothing, and one that refuses counts the refusal's label
    exactly once and nothing when it has none, whether a backend, the boot or the
    launcher refused. Only what the engine, the linker or an extension's own hooks
    refused with may go uncounted, never a manifest, policy, capability, digest or
    launch refusal. *)
Theorem refusals_counted_once cfg exts add_ons wasm manifest clocks components :
  let m := open_and_launch cfg exts add_ons wasm manifest clocks components in
  match m.1 with
  | Ok _ => counts m.2 = []
  | Err e =>
      (counts m.2 = option_list (error_kind e) \/ counts m.2 = []) /\
      (match e with RBoot _ | RLoad _ | RLaunch _ | RCapability _ | RDigest _ | RBackend _ _ => True | _ => False end ->
       counts m.2 = option_list (error_kind e))
  end.
Proof.
  intros m. pose proof (accounted_open_and_launch cfg exts add_ons wasm manifest clocks components) as Ha.
  fold m in Ha. unfold accounted in Ha. destruct m.1 as [h|e]; [done|].
  destruct Ha as [Ha|[Hh Ha]]; [by auto|]. split; [by right|]. destruct e as [| | | | | | | | | hook s | |]; try done.
Qed.

Lemma add_ons_phase add_ons ms :
  Forall (fun e => phase e = 0%nat) (install_add_ons (K := K) add_ons ms).2.
Proof.
  induction add_ons as [|a add_ons IH]; cbn [install_add_ons]; [constructor|].
  destruct (install_add_on a ms); [|constructor].
  destruct (install_add_ons (K := K) add_ons ms) as [[hs|e] tr]; cbn; constructor; auto.
  rewrite app_nil_r. exact IH.
Qed.

(** C37: a launch goes through its phases in order: the add-ons install before
    anything else, the engine and the linker are built before a component is
    compiled or run, the source tasks and the event loop start after every
    component was admitted, and a refusal is the last thing recorded. A failed
    add-on refuses the launch with its own error and leaves no module code compiled,
    run or pumped. *)
Theorem launch_runs_in_order a cfg :
  StronglySorted Nat.le (phase <$> (launch a cfg).2) /\
  (forall e, (install_add_ons (K := K) a.(a_add_ons) cfg.(fc_engine).(metrics)).1 = Err e ->
     (launch a cfg).1 = Err e /\ Forall (fun e => phase e = 0%nat) (launch a cfg).2).
Proof.
  split; [apply phased_launch|]. intros e. unfold Launch.launch.
  pose proof (add_ons_phase (a_add_ons a) (metrics (fc_engine cfg))) as Hp.
  destruct (install_add_ons (K := K) (a_add_ons a) (metrics (fc_engine cfg))) as [[hs|e'] tr0]; [done|].
  cbn. by intros [= ->].
Qed.

(** ** What a launched runtime pumps *)

Lemma L_bind_ok {X Y} (m : L K X) (f : X -> L K Y) y tr :
  m ≫= f = (Ok y, tr) -> exists x tr1 tr2, m = (Ok x, tr1) /\ f x = (Ok y, tr2) /\ tr = tr1 ++ tr2.
Proof.
  destruct m as [[x|e] tr1]; cbn; [|done]. destruct (f x) as [r tr2] eqn:E. intros [= -> <-]. by exists x, tr1, tr2.
Qed.

#[local] Notation filter_of := (build_alloy_filter filter_new filter_address filter_event_signature).
#[local] Notation key_of := (cursor_key_of keccak256 hex_address hex_topic hex_digest).
#[local] Notation modules_of cfg loaded := (loaded_module (U := U) (N := N) (B := B) fresh_bucket cfg <$> loaded).

(** The task that pumps a live module's trigger. *)
Definition pumps (x : text * Trigger) (t : SourceTask F) : Prop :=
  match x.2, t with
  | TBlock chain, BlockTaskOf chain' => chain = chain'
  | TSchedule cron, ScheduleTaskOf module cron' => module = x.1 /\ cron = cron'
  | TEvent chain address signature resume lookback _, ChainLogTaskOf module chain' filter (key, _, lookback') =>
      module = x.1 /\ chain = chain' /\ filter = filter_of address signature /\ lookback = lookback' /\
      key = (if resume then Some (key_of chain address signature) else None)
  | _, _ => False
  end.

Lemma opened_pumps s x es :
  opened filter_new filter_address filter_event_signature keccak256 hex_address hex_topic hex_digest s x es ->
  pumps x (chain_log_task es).
Proof.
  unfold opened, pumps, chain_log_task. destruct x.2; try done.
  intros (-> & <- & -> & <- & Hk). by destruct resume; destruct Hk as [-> _].
Qed.

Definition from_extension (t : SourceTask F) : Prop := match t with ExtensionTaskOf _ => True | _ => False end.

Lemma launch_ok a cfg h tr :
  launch a cfg = (Ok h, tr) ->
  exists loaded labels streams,
    (boot_modules a.(a_wasm) a.(a_manifest) cfg a.(a_extensions)).1 = Ok loaded /\
    let sup := assemble world0 cfg a.(a_components).(c_store) (modules_of cfg loaded) in
    let ps := source_plan filter_new filter_address filter_event_signature keccak256 hex_address hex_topic hex_digest
                (modules_of cfg loaded) a.(a_components).(c_store) in
    alive_count sup <> 0%nat /\ h.(h_drain_timeout) = cfg.(fc_limits).(shutdown_drain) /\
    match viability ps.1 (Z.of_nat streams) with
    | DeadHoldTriggers => False
    | Nothing => h.(h_event_loop) = LoopDone EndNothingLive
    | Live => h.(h_event_loop) =
        LoopSpawned (publish_health_to (stop_on (assemble world0 cfg ps.2 (modules_of cfg loaded))))
          (declared ps.1 streams)
          (open_fleet labels ps.1.(block_chains) ps.1.(event_sources) ps.1.(schedule_sources))
          (effective_wall host_wall a.(a_clocks))
    end.
Proof.
  intros Hl. unfold Launch.launch in Hl.
  apply L_bind_ok in Hl as (handles & ? & ? & _ & Hl & ->).
  apply L_bind_ok in Hl as (? & ? & ? & _ & Hl & ->).
  apply L_bind_ok in Hl as (? & ? & ? & _ & Hl & ->).
  apply L_bind_ok in Hl as (? & ? & ? & _ & Hl & ->).
  apply L_bind_ok in Hl as (? & ? & ? & _ & Hl & ->).
  apply L_bind_ok in Hl as (loaded & ? & ? & Hb & Hl & ->).
  cbn [modules store] in Hl.
  destruct (source_plan _ _ _ _ _ _ _ _ _) as [plan store'] eqn:Ep in Hl.
  destruct (alive_count _ =? 0)%nat eqn:Ea in Hl; [done|]. apply Nat.eqb_neq in Ea.
  apply L_bind_ok in Hl as (? & ? & ? & _ & Hl & ->).
  apply L_bind_ok in Hl as ([labels streams] & ? & ? & _ & Hl & ->).
  exists loaded, labels, streams. rewrite Hb. split; [done|]. cbn zeta. split; [exact Ea|].
  unfold assemble in Ep. cbn [modules store] in Ep. rewrite Ep. cbn [fst snd] in Hl |- *.
  destruct (viability plan (Z.of_nat streams)); [| done |].
  - by injection Hl as <- <-.
  - apply L_bind_ok in Hl as (? & ? & ? & _ & Hl & ->). by injection Hl as <- <-.
Qed.
End Launched.

Section Served.
Context (path_exists : text -> bool) (path_parent : text -> option text)
        (path_join : text -> text -> text)
        (manifest_load : list NamespaceCaps -> text -> option LoadedManifest)
        (read_file : text -> option (list Z)) (sha256 : list Z -> list Z)
        (compile : list Z -> option (list text))
        (instantiate : text -> list Z -> list (text * text) -> option bool).
Context (parse_error : text -> ParseError) (engine_causes : list Cause)
        (admit_causes : text -> list Cause).
Context (file_stem : text -> option text) (engine_new link_core : result unit (list Cause)).
Context {F : Type} (filter_new : F) (filter_address filter_event_signature : F -> list Z -> F)
        (keccak256 : list Z -> list Z) (hex_address hex_topic hex_digest : list Z -> text).
Context {U N B W P S G : Type} `{RateLimiter B} `{World W} `{StateStoreLaws S}.
Context (fresh_bucket : DispatchRatePolicy -> B) (world0 : W).
Context {K : Type} (host_wall : K).

#[local] Notation launch := (launch (F := F) (U := U) (N := N) (B := B) (W := W) (P := P) (S := S) (G := G) (K := K)
  path_exists path_parent path_join manifest_load read_file sha256 compile instantiate parse_error engine_causes
  admit_causes file_stem engine_new link_core filter_new filter_address filter_event_signature keccak256 hex_address
  hex_topic hex_digest fresh_bucket world0 host_wall).
#[local] Notation pumps := (pumps filter_new filter_address filter_event_signature keccak256 hex_address hex_topic hex_digest).

Lemma fleet_pumps labels modules s :
  let p := (source_plan filter_new filter_address filter_event_signature keccak256 hex_address hex_topic hex_digest
              (B := B) modules s).1 in
  let tasks := (open_fleet labels p.(block_chains) p.(event_sources) p.(schedule_sources)).(spawned) in
  (forall t, t ∈ tasks -> from_extension t \/ exists x, x ∈ live_triggers modules /\ pumps x t) /\
  (forall x, x ∈ live_triggers modules ->
     (exists kind filters, x.2 = TExtension kind filters) \/ exists t, t ∈ tasks /\ pumps x t).
Proof.
  intros p tasks.
  pose proof (source_plan_projects_live_triggers filter_new filter_address filter_event_signature keccak256 hex_address
                hex_topic hex_digest modules s) as Hp.
  subst p. destruct (source_plan _ _ _ _ _ _ _ _ _) as [p s']. cbn [fst] in *.
  destruct Hp as (_ & Hb & He & Hs & _).
  assert (tasks = plan_tasks labels p.(block_chains) p.(event_sources) p.(schedule_sources)) as -> by apply open_fleet_of.
  unfold plan_tasks. split.
  - intros t. rewrite !elem_of_app, !list_elem_of_fmap.
    intros [(l & -> & _)|[(c & -> & Hc)|[(es & -> & Hes)|(ss & -> & Hss)]]]; [by left|right..].
    + apply Hb in Hc as [m Hm]. by exists (m, TBlock c).
    + apply list_elem_of_lookup in Hes as [i Hi]. destruct (Forall2_lookup_r _ _ _ _ _ He Hi) as (x & Hx & Ho).
      exists x. split; [|by eapply opened_pumps]. apply list_elem_of_lookup_2 in Hx.
      apply list_elem_of_In, filter_In in Hx as [Hx _]. by apply list_elem_of_In.
    + rewrite Hs, list_elem_of_omap in Hss. destruct Hss as ([m t] & Hin & Ht). exists (m, t). split; [done|].
      unfold schedule_of in Ht. destruct t; try done. by injection Ht as <-.
  - intros [m t] Hx. destruct t as [c|c addr sig resume lookback start|kind filters|cron].
    + right. exists (BlockTaskOf c). rewrite !elem_of_app, !list_elem_of_fmap. split; [|done].
      right; left. exists c. split; [done|]. apply Hb. by exists m.
    + right. assert ((m, TEvent c addr sig resume lookback start) ∈ List.filter is_event (live_triggers modules)) as Hf.
      { apply list_elem_of_In, filter_In. split; [by apply list_elem_of_In | done]. }
      apply list_elem_of_lookup in Hf as [i Hi]. destruct (Forall2_lookup_l _ _ _ _ _ He Hi) as (es & Hes & Ho).
      exists (chain_log_task es). split; [|by eapply opened_pumps]. rewrite !elem_of_app, !list_elem_of_fmap.
      right; right; left. exists es. split; [done|]. by eapply list_elem_of_lookup_2.
    + left. by exists kind, filters.
    + right. exists (ScheduleTaskOf m cron). rewrite !elem_of_app, !list_elem_of_fmap. split; [|done].
      right; right; right. exists (mkScheduleSource m cron). split; [done|]. rewrite Hs, list_elem_of_omap.
      by exists (m, TSchedule cron).
Qed.

(** C8: a launch that returns a handle booted some live module, and the runtime it
    returned pumps exactly what the live modules declare: each block, event and
    schedule trigger of a live module has a source task, with its filter, cursor key
    and expression, every task that is not an extension's pumps such a trigger, and
    the loop runs over the booted modules with the stop signal and the readiness
    channel bound, its schedules on the clock the extensions were handed. Otherwise
    the loop is already over, no live module declares a trigger of those kinds and no
    dead module holds one. *)
Theorem launched_runtime_serves_live_triggers a cfg h tr :
  launch a cfg = (Ok h, tr) ->
  exists loaded,
    (boot_modules (K := K) path_exists path_parent path_join manifest_load read_file sha256 compile instantiate
       parse_error engine_causes admit_causes file_stem a.(a_wasm) a.(a_manifest) cfg a.(a_extensions)).1 = Ok loaded /\
    let mods := loaded_module fresh_bucket cfg <$> loaded in
    (exists m, m ∈ mods /\ dispatchable m.(m_health) = true) /\
    match h.(h_event_loop) with
    | LoopDone e =>
        e = EndNothingLive /\
        (forall module t, (module, t) ∈ live_triggers mods -> exists kind filters, t = TExtension kind filters) /\
        (forall m, m ∈ mods -> dispatchable m.(m_health) = false -> m.(m_triggers) = [])
    | LoopSpawned s d fleet wall =>
        s.(modules) = mods /\ s.(stop) = true /\ s.(health) = Some [] /\
        wall = effective_wall host_wall a.(a_clocks) /\
        (forall t, t ∈ fleet.(spawned) -> from_extension t \/ exists x, x ∈ live_triggers mods /\ pumps x t) /\
        (forall x, x ∈ live_triggers mods ->
           (exists kind filters, x.2 = TExtension kind filters) \/ exists t, t ∈ fleet.(spawned) /\ pumps x t)
    end.
Proof.
  intros Hl. apply launch_ok in Hl as (loaded & labels & streams & Hb & Hal & _ & Hv). cbv zeta in Hal, Hv.
  exists loaded. split; [exact Hb|]. set (mods := loaded_module fresh_bucket cfg <$> loaded) in *. cbv zeta. split.
  { unfold alive_count, assemble in Hal. cbn [modules] in Hal.
    destruct (List.filter _ mods) as [|m ms] eqn:Ef; [done|].
    assert (In m (List.filter (fun m => dispatchable (m_health m)) mods)) as Hin by (rewrite Ef; by left).
    apply filter_In in Hin as [Hin Hd]. exists m. split; [by apply list_elem_of_In | done]. }
  pose proof (viability_is_exact filter_new filter_address filter_event_signature keccak256 hex_address hex_topic
                hex_digest mods (c_store (a_components a)) (Z.of_nat streams)) as [Hx Hd]. cbv zeta in Hx, Hd.
  destruct (viability _ _) eqn:Ev in Hv; [|done|]; rewrite Hv.
  - assert (viability (source_plan filter_new filter_address filter_event_signature keccak256 hex_address hex_topic
              hex_digest mods (c_store (a_components a))).1 (Z.of_nat streams) <> Live) as Hn by (rewrite Ev; done).
    split; [done|]. split; [by apply (proj1 Hx Hn)|]. intros m Hm Hdm.
    destruct (m_triggers m) as [|t ts] eqn:Et; [done|]. exfalso.
    assert (Nothing = DeadHoldTriggers) as [=]. rewrite <- Ev. apply (proj2 (Hd Hn)). exists m.
    split; [done|]. split; [done|]. rewrite Et. done.
  - split_and!; try done; apply fleet_pumps.
Qed.
End Served.

(** ** The override *)

Section Override.
Context (path_exists : text -> bool) (path_parent : text -> option text)
        (path_join : text -> text -> text)
        (manifest_load : list NamespaceCaps -> text -> option LoadedManifest)
        (read_file : text -> option (list Z)) (sha256 : list Z -> list Z)
        (compile : list Z -> option (list text))
        (instantiate : text -> list Z -> list (text * text) -> option bool).
Context (parse_error : text -> ParseError) (engine_causes : list Cause)
        (admit_causes : text -> list Cause).
Context (file_stem : text -> option text) (engine_new link_core : result unit (list Cause)).
Context {F : Type} (filter_new : F) (filter_address filter_event_signature : F -> list Z -> F)
        (keccak256 : list Z -> list Z) (hex_address hex_topic hex_digest : list Z -> text).
Context {U N B W P S G : Type} `{RateLimiter B} `{World W} `{StateStore S}.
Context (fresh_bucket : DispatchRatePolicy -> B) (world0 : W).
Context {K : Type} (host_wall : K).

#[local] Notation launch := (launch (F := F) (U := U) (N := N) (B := B) (W := W) (P := P) (S := S) (G := G) (K := K)
  path_exists path_parent path_join manifest_load read_file sha256 compile instantiate parse_error engine_causes
  admit_causes file_stem engine_new link_core filter_new filter_address filter_event_signature keccak256 hex_address
  hex_topic hex_digest fresh_bucket world0 host_wall).
#[local] Notation boot_modules := (boot_modules (K := K) (U := U) (N := N) path_exists path_parent path_join
  manifest_load read_file sha256 compile instantiate parse_error engine_causes admit_causes file_stem).

(** A config with other modules, policy rows and digest requirement. *)
Definition reconfigured (cfg : FullConfig U N) (ms : list ModuleEntry) (rows : gmap text ComponentPolicy)
    (require : bool) : FullConfig U N :=
  let e := cfg.(fc_engine) in
  let p := cfg.(fc_policy) in
  mkFull (mkEngine e.(state_dir) e.(log_level) e.(metrics) e.(log_backfill_concurrency) require)
    cfg.(fc_limits)
    (mkPolicySection p.(ceilings) p.(capabilities) p.(total_max_memory_bytes) rows p.(log_filter))
    cfg.(fc_http_deny) cfg.(fc_chains) cfg.(fc_extensions) ms cfg.(fc_defaulted).

Lemma L_bind_ext {X Y} (m : L K X) (f g : X -> L K Y) : (forall x, f x = g x) -> m ≫= f = m ≫= g.
Proof. intros Hfg. destruct m as [[x|e] tr]; cbn; [by rewrite Hfg | done]. Qed.

Lemma open_sources_same cfg cfg' kinds (exts : list (Extension (FullConfig U N))) :
  (forall x kinds, x ∈ exts -> x.(x_open_sources) cfg' kinds = x.(x_open_sources) cfg kinds) ->
  open_extension_sources (K := K) cfg' kinds exts = open_extension_sources cfg kinds exts.
Proof.
  induction exts as [|x exts IH]; intros Hx; cbn [open_extension_sources]; [done|].
  rewrite (Hx x kinds) by set_solver. by rewrite IH by set_solver.
Qed.

(** A component named on the command line runs under the operator's
    defaults and nothing else: whatever modules, per-component policy rows and digest
    requirement the configuration has, the launch boots the same component under the
    same limits and ends the same way, as long as the extensions do not read those
    settings themselves. *)
Theorem override_ignores_configured_components a cfg ms rows require :
  is_Some a.(a_wasm) ->
  (forall x kinds, x ∈ a.(a_extensions) ->
     x.(x_open_sources) (reconfigured cfg ms rows require) kinds = x.(x_open_sources) cfg kinds) ->
  launch a (reconfigured cfg ms rows require) = launch a cfg.
Proof.
  intros [wasm Hw] Hx. unfold Launch.launch.
  assert (boot_modules a.(a_wasm) a.(a_manifest) (reconfigured cfg ms rows require) a.(a_extensions) =
          boot_modules a.(a_wasm) a.(a_manifest) cfg a.(a_extensions)) as -> by (rewrite Hw; reflexivity).
  assert (forall kinds, open_extension_sources (K := K) (reconfigured cfg ms rows require) kinds a.(a_extensions) =
            open_extension_sources cfg kinds a.(a_extensions)) as Ho
    by (intros kinds; by apply open_sources_same).
  repeat (apply L_bind_ext; intros ?; cbv beta zeta).
  change (assemble world0 (reconfigured cfg ms rows require)) with (assemble (S := S) (B := B) world0 cfg).
  change (loaded_module fresh_bucket (reconfigured cfg ms rows require)) with (loaded_module fresh_bucket cfg).
  destruct (source_plan _ _ _ _ _ _ _ _ _) as [plan store']. destruct (_ =? 0)%nat; [done|].
  apply L_bind_ext; intros _. by rewrite Ho.
Qed.
End Override.

(** ** The builder paths *)

Section Builders.
Context (path_exists : text -> bool) (path_parent : text -> option text)
        (path_join : text -> text -> text)
        (manifest_load : list NamespaceCaps -> text -> option LoadedManifest)
        (read_file : text -> option (list Z)) (sha256 : list Z -> list Z)
        (compile : list Z -> option (list text))
        (instantiate : text -> list Z -> list (text * text) -> option bool).
Context (parse_error : text -> ParseError) (engine_causes : list Cause)
        (admit_causes : text -> list Cause).
Context (file_stem : text -> option text) (engine_new link_core : result unit (list Cause)).
Context {F : Type} (filter_new : F) (filter_address filter_event_signature : F -> list Z -> F)
        (keccak256 : list Z -> list Z) (hex_address hex_topic hex_digest : list Z -> text).
Context {U N B W P S G : Type} `{RateLimiter B} `{World W} `{StateStore S}.
Context (fresh_bucket : DispatchRatePolicy -> B) (world0 : W).
Context {K : Type} (host_wall : K).

#[local] Notation at_launch f := (f path_exists path_parent path_join manifest_load read_file sha256 compile instantiate
  parse_error engine_causes admit_causes file_stem engine_new link_core F filter_new filter_address filter_event_signature
  keccak256 hex_address hex_topic hex_digest U N B W P S G _ fresh_bucket world0 K host_wall).

(** A preset is the sugar it claims to be: launching it with appended
    extensions, a module source and clocks is launching the explicit stages with the
    preset's extensions before the appended ones, its backends and its add-ons; and
    so is launching it with its backends mapped through, for the mapped backends. *)
Theorem preset_is_the_explicit_assembly cfg preset exts wasm manifest clocks map :
  let pb := pb_with_wasi_clocks (pb_with_module_source (pb_with_extensions
              (with_runtime (K := K) (mkRuntimeBuilder (U := U) (N := N) cfg) preset) exts) wasm manifest) clocks in
  let explicit components :=
    with_add_ons (tb_with_components (P := P) (S := S) (G := G)
      (tb_with_wasi_clocks (tb_with_module_source (tb_with_extensions (with_types (K := K) (mkRuntimeBuilder cfg))
         (preset.(p_extensions) cfg ++ exts)) wasm manifest) clocks)
      components) preset.(p_add_ons) in
  at_launch (@pb_launch) pb = at_launch (@rd_launch) (explicit preset.(p_components)) /\
  at_launch (@pc_launch) (pb_with_components pb map) = at_launch (@rd_launch) (explicit (map preset.(p_components))).
Proof. split; reflexivity. Qed.
End Builders.

(** ** Waiting *)

(** [wait] answers as soon as the loop has joined, whatever else is ready; after a
    signal or a critical task's end it answers the drained loop's end, and a drain
    past its deadline exits the process with 1. It answers [Ok] exactly for a loop
    that was shut down or had nothing live, and no refusal of a running engine is
    counted as a boot refusal. *)
Theorem wait_reports_how_the_loop_ended (polls : list WaitPoll) drain after :
  (forall p rest joined, polls = p :: rest -> p.(poll_join) = Some joined ->
     wait polls drain after = Some (Returned (finish_wait (K := unit) joined).1)) /\
  (wait polls drain after = None <-> Forall (fun p => wait_arm p = None) polls) /\
  (forall code, wait polls drain after = Some (ExitProcess code) <->
     code = 1 /\ (exists n, drain = Drain.TimedOut n) /\
     exists arm, find_map wait_arm polls = Some arm /\ forall joined, arm <> ArmJoined joined) /\
  (forall joined, (finish_wait (K := unit) joined).1 = Ok tt <-> joined = Some EndShutdown \/ joined = Some EndNothingLive) /\
  (forall joined, counts (finish_wait (K := unit) joined).2 = []).
Proof.
  split_and!.
  - intros p rest joined -> Hj. unfold wait. cbn [find_map]. unfold wait_arm. by rewrite Hj.
  - unfold wait. induction polls as [|p polls IH]; cbn [find_map]; [by split|].
    rewrite Forall_cons. destruct (wait_arm p) as [[joined|name|]|]; [..|naive_solver];
      (split; [destruct drain; done | by intros [[=] _]]).
  - intros code. unfold wait. destruct (find_map wait_arm polls) as [[joined|name|]|]; [|destruct drain..|];
      naive_solver.
  - intros [[]|]; cbn; naive_solver.
  - by intros [[]|].
Qed.

(** ** The process *)

(** A subcommand never launches: it is answered ahead of the configuration, with no
    effect of a launch and whatever else the command line carries; and without one the
    process ends as its launch did, errors included. *)
Theorem subcommand_never_launches {K} (digest : text -> option text) (launched launched' : Cli -> L K unit) (cli : Cli) :
  (forall path, cli.(command) = Some (CmdDigest path) ->
     run digest launched cli = run digest launched' cli /\ (run digest launched cli).2 = [] /\
     ((run digest launched cli).1 = Err (RunDigest path) <-> digest path = None)) /\
  (cli.(command) = None -> (run digest launched cli).2 = (launched cli).2 /\
     forall e, (run digest launched cli).1 = Err (RunRuntime e) <-> (launched cli).1 = Err e).
Proof.
  unfold run. split.
  - intros path ->. split_and!; [done|done|]. destruct (digest path); naive_solver.
  - intros ->. destruct (launched cli) as [[[]|e] tr]; naive_solver.
Qed.

(** ** The digest subcommand *)

Section PrintedDigest.
Context (read_file : text -> option (list Z)) (sha256 : list Z -> list Z).
Context (hex : list Z -> text) (decode : nat -> text -> option (list Z)).
Hypothesis decode_hex : forall d, length d = 32%nat -> Forall is_u8 d -> decode 32 (hex d) = Some d.
Hypothesis hex_plain : forall d,
  starts_with (chars_of "0x") (hex d) = false /\ starts_with (chars_of "0X") (hex d) = false.
Hypothesis sha256_digest : forall bytes, length (sha256 bytes) = 32%nat /\ Forall is_u8 (sha256 bytes).

(** The line [digest] prints for an artifact, without its newline, is a valid
    pin that parses back to the artifact's hash, so an entry that carries it admits
    exactly the bytes that hash alike; an artifact that does not read prints nothing. *)
Theorem printed_digest_pins_the_artifact path :
  match write_digest read_file sha256 hex path with
  | None => read_file path = None
  | Some out =>
      exists bytes pin, read_file path = Some bytes /\ out = pin ++ [10] /\
        (sha256 bytes <> replicate 32 0 ->
         Digest.from_str decode pin = Ok (sha256 bytes) /\
         forall path' bytes' tr, check_pin path' PinOperator (Some (sha256 bytes)) (sha256 bytes') tr =
           (if bool_decide (sha256 bytes' = sha256 bytes) then Ok tt
            else Err (DigestMismatch path' PinOperator (sha256 bytes) (sha256 bytes')), tr))
  end.
Proof.
  unfold write_digest. destruct (read_file path) as [bytes|]; cbn [mbind option_bind]; [|done].
  exists bytes, (Digest.display hex (sha256 bytes)). split_and!; [done..|]. intros Hz. split.
  - destruct (sha256_digest bytes) as [Hl Hb]. unfold Digest.from_str, Digest.display.
    rewrite split_once_app by (vm_compute; set_solver). rewrite bool_decide_eq_true_2 by done. cbn [negb].
    destruct (hex_plain (sha256 bytes)) as [-> ->]. cbn [orb]. rewrite decode_hex by done.
    by rewrite bool_decide_eq_false_2.
  - intros path' bytes' tr. unfold check_pin. by case_bool_decide.
Qed.
End PrintedDigest.

(** ** Demonstrations *)

Module LaunchDemo.
Definition policy_of (rows : gmap text ComponentPolicy) : PolicySection :=
  let p := Admission.demo_config.(cfg_policy) in
  mkPolicySection p.(ceilings) p.(capabilities) p.(total_max_memory_bytes) rows p.(log_filter).

Definition config (ms : list ModuleEntry) : FullConfig text unit :=
  mkFull EngineSection_default
    (mkResolved (duration_from_secs 30) (duration_from_secs 35) 1000 (HttpGate.mkHttpLimits 1 1 1 1 1) []
       (Logs.mkRetention 100 2) PoisonPolicy_default (mkRate 256 128))
    (policy_of ∅) [] (<[1 := mkChainConfig (mkEndpoint (chars_of "http://n") RpcHttp) 1 1]> ∅) [] ms false.

(** An extension whose link hook is refused, or that opens one source. *)
Definition mail (link : result unit (list Cause)) : Extension (FullConfig text unit) :=
  mkExtension (mkExt (chars_of "mail") [chars_of "mail"] [] (mkNamespace (chars_of "acme:mail/") []) (fun _ _ => true))
    link (fun _ kinds => if bool_decide (chars_of "mail" ∈ kinds) then ([chars_of "mail-poll"], Ok 1%nat) else ([], Ok 0%nat)).

Definition prometheus (ok : bool) : AddOn :=
  mkAddOn (fun _ => if ok then Ok (named (chars_of "prometheus")) else Err [CForeign (chars_of "port taken")]).

Definition assembled (wasm : option text) (add_on : bool) (exts : list (Extension (FullConfig text unit))) :=
  mkAssembled (mkComponents tt PlanDemo.demo_store tt) exts [prometheus add_on] wasm None (None : option (WasiClockOverride Z)).

(** A launch of the component of [Admission.demo_boot] with these triggers. *)
Definition run (triggers : list Trigger) (init : bool) a cfg :=
  launch (U := text) (N := unit) (F := list (list Z)) (B := unit) (W := Script.Script) (P := unit) (G := unit)
    (S := Faulty (T := Demo.table))
    (fun _ => true) (fun _ => Some (chars_of ".")) (fun dir f => dir ++ chars_of "/" ++ f)
    (fun _ _ => Some (demo_manifest triggers)) (fun _ => Some [1; 2]) id (fun _ => Some []) (fun _ _ _ => Some init)
    (fun _ => PIo) [] (fun _ => []) Some (Ok tt) (Ok tt)
    [] (fun f a => a :: f) (fun f a => a :: f) CursorDemo.digest32 CursorDemo.hex0x CursorDemo.hex0x CursorDemo.hex0x
    (fun _ => tt) (Script.mkScript 0 [] [] None) 0 a cfg.

Definition entry : ModuleEntry := mkEntry (chars_of "keeper") (chars_of "keeper.wasm") None (Some [1; 2]).
End LaunchDemo.

(** A configured component with a block trigger runs; one that waits for mail runs on
    the extension's source; with no trigger the loop is over at once; a dead one
    refuses. *)
Example launches :
  let outcome triggers init :=
    match LaunchDemo.run triggers init (LaunchDemo.assembled None true [LaunchDemo.mail (Ok tt)])
            (LaunchDemo.config [LaunchDemo.entry]) with
    | (Ok h, _) => match h.(h_event_loop) with
                   | LoopSpawned _ d fleet _ => Ok (Some (d, fst <$> fleet.(BlockSource.set).(handles)))
                   | LoopDone _ => Ok None
                   end
    | (Err e, tr) => Err (error_kind e, counts tr)
    end in
  outcome [TBlock 1] true = Ok (Some (mkDeclared 0 true false false, [chars_of "block:1"])) /\
  outcome [TExtension (chars_of "mail") []] true = Ok (Some (mkDeclared 0 false true false, [chars_of "mail-poll"])) /\
  outcome [] true = Ok None /\
  outcome [TBlock 1] false = Err (Some (chars_of "all_dead_configured"), [chars_of "all_dead_configured"]) /\
  outcome [TBlock 9] true = Err (Some (chars_of "unconfigured_chain"), [chars_of "unconfigured_chain"]).
Proof. split_and!; vm_compute; reflexivity. Qed.

(** A typed refusal that an extension's link hook boxed has a label, and the launch
    does not count it; the same refusal from its admission hook is counted. *)
Example link_refusal_is_not_counted :
  let m := LaunchDemo.run [] true
             (LaunchDemo.assembled None true [LaunchDemo.mail (Err [CCapability (UnknownWasi (chars_of "wasi:x"))])])
             (LaunchDemo.config [LaunchDemo.entry]) in
  (exists e, m.1 = Err e /\ error_kind e = Some (chars_of "unknown_wasi")) /\ counts m.2 = [].
Proof. split; [eexists; split; vm_compute; reflexivity | vm_compute; reflexivity]. Qed.

(** A taken port refuses before anything else happened. *)
Example failed_add_on_boots_nothing :
  LaunchDemo.run [TBlock 1] true (LaunchDemo.assembled None false []) (LaunchDemo.config [LaunchDemo.entry])
  = (Err (RAddOn [CForeign (chars_of "port taken")]), []).
Proof. vm_compute. reflexivity. Qed.

Lemma launched_runtime_serves_live_triggers_witness :
  exists h tr,
    LaunchDemo.run [TBlock 1] true (LaunchDemo.assembled None true []) (LaunchDemo.config [LaunchDemo.entry]) = (Ok h, tr) /\
    match h.(h_event_loop) with
    | LoopDone _ => False
    | LoopSpawned s d fleet wall => s.(stop) = true /\ wall = 0
    end.
Proof.
  destruct (LaunchDemo.run [TBlock 1] true (LaunchDemo.assembled None true []) (LaunchDemo.config [LaunchDemo.entry]))
    as [[h|e] tr] eqn:E; [|vm_compute in E; discriminate].
  exists h, tr. split; [reflexivity|]. assert (exists s d f w, h.(h_event_loop) = LoopSpawned s d f w) as (s & d & f & w & Hh)
    by (vm_compute in E; injection E as <- <-; cbn; eauto 6).
  destruct (launched_runtime_serves_live_triggers _ _ _ _ _ _ _ _ _ _ _ _ _ _ _ _ _ _ _ _ _ _ _ _ _ _ _ _ E)
    as (loaded & _ & _ & Hm).
  rewrite Hh in Hm |- *. destruct Hm as (_ & Hs & _ & Hw & _). by split.
Defined.

Lemma override_ignores_configured_components_witness :
  LaunchDemo.run [TBlock 1] true (LaunchDemo.assembled (Some (chars_of "keeper.wasm")) true [])
    (reconfigured (LaunchDemo.config []) [LaunchDemo.entry] ∅ false)
  = LaunchDemo.run [TBlock 1] true (LaunchDemo.assembled (Some (chars_of "keeper.wasm")) true []) (LaunchDemo.config []).
Proof.
  refine (override_ignores_configured_components _ _ _ _ _ _ _ _ _ _ _ _ _ _ _ _ _ _ _ _ _ _ _ _ _ (LaunchDemo.config []) _ _ _ _ _).
  - by eexists.
  - intros x kinds Hx. by apply not_elem_of_nil in Hx.
Defined.

Lemma printed_digest_pins_the_artifact_witness :
  match write_digest (fun _ => Some [1]) (fun _ => replicate 32 171) Digest.Codec.encode (chars_of "a.wasm") with
  | None => False
  | Some out => exists pin, out = pin ++ [10] /\ Digest.from_str Digest.Codec.decode pin = Ok (replicate 32 171)
  end.
Proof.
  pose proof (printed_digest_pins_the_artifact (fun _ => Some [1]) (fun _ => replicate 32 171) Digest.Codec.encode
    Digest.Codec.decode) as Hp.
  destruct (write_digest _ _ _ _) as [out|] eqn:E; [|vm_compute in E; discriminate].
  specialize (fun H1 H2 H3 => Hp H1 H2 H3 (chars_of "a.wasm")). rewrite E in Hp. destruct Hp as (bytes & pin & _ & Ho & Hq).
  - intros d Hl Hb. unfold Digest.Codec.decode. rewrite Digest.Codec.decode_all_encode by exact Hb.
    rewrite decide_True by exact Hl. reflexivity.
  - intros d. split; [apply (Digest.Codec.encode_not_0x 120) | apply (Digest.Codec.encode_not_0x 88)]; reflexivity || lia.
  - intros bytes. split; [reflexivity|]. repeat constructor; vm_compute; discriminate.
  - exists pin. split; [exact Ho|]. apply Hq. vm_compute. discriminate.
Defined.
