(* ===== verification/Float64.v ===== *)
(** * Float64: binary64 arithmetic on non-negative numbers

    The [f64] operations the rate limiter uses, as the standard library's
    specification of IEEE 754 binary64 ([SpecFloat], precision 53, exponent 1024),
    and what they guarantee on the non-negative numbers: results stay valid, the
    order is the order of the values, rounding never takes a result below a
    representable lower bound, and the operations that are exact are. *)

From Stdlib Require Import ZArith Lia Bool SpecFloat.

Local Open Scope Z_scope.

(** ** The operations *)

Definition f64_add : spec_float -> spec_float -> spec_float := SFadd 53 1024.
Definition f64_sub : spec_float -> spec_float -> spec_float := SFsub 53 1024.
Definition f64_mul : spec_float -> spec_float -> spec_float := SFmul 53 1024.
Definition f64_div : spec_float -> spec_float -> spec_float := SFdiv 53 1024.

(** [u32 as f64], [u64 as f64]: the nearest number, ties to even. *)
Definition f64_of_Z (z : Z) : spec_float := binary_normalize 53 1024 z 0 false.

(** [f64::min]: a NaN loses. *)
Definition f64_min (x y : spec_float) : spec_float :=
  match SFcompare x y with
  | Some Gt => y
  | Some _ => x
  | None => match x with S754_nan => y | _ => x end
  end.

Definition f64_ge (x y : spec_float) : bool :=
  match SFcompare x y with Some (Gt | Eq) => true | _ => false end.

(** ** Values *)

(** A number as an integer multiple of [2 ^ -4000]; every product of two numbers is
    one. *)
Definition SCALE : Z := 4000.
Definition exact (m e : Z) : Z := m * 2 ^ (e + SCALE).
Definition val (f : spec_float) : Z :=
  match f with S754_finite false m e => exact (Zpos m) e | _ => 0 end.

Notation valid := (bounded 53 1024).
Notation fexp64 := (fexp 53 1024).

(** The non-negative numbers that are not NaN. *)
Definition nn (f : spec_float) : Prop :=
  match f with
  | S754_zero false | S754_infinity false => True
  | S754_finite false m e => valid m e = true
  | _ => False
  end.

(** Not the infinity. *)
Definition fin (f : spec_float) : Prop :=
  match f with S754_infinity _ => False | _ => True end.

Lemma fexp_eq e : fexp64 e = Z.max (e - 53) (-1074).
Proof. reflexivity. Qed.

(** ** Digits *)

Lemma digits_log2 p : Zpos (digits2_pos p) = Z.log2 (Zpos p) + 1.
Proof.
  induction p as [p IH|p IH|]; [| |reflexivity]; cbn [digits2_pos]; rewrite Pos2Z.inj_succ, IH.
  - rewrite Pos2Z.inj_xI, Z.log2_succ_double by lia. lia.
  - rewrite Pos2Z.inj_xO, Z.log2_double by lia. lia.
Qed.

Lemma Zdigits_log2 m : 0 < m -> Zdigits2 m = Z.log2 m + 1.
Proof. destruct m as [|p|p]; [lia| |lia]. intros _. apply digits_log2. Qed.

Lemma digits_bounds m : 0 < m -> 2 ^ (Zdigits2 m - 1) <= m < 2 ^ Zdigits2 m.
Proof.
  intros Hm. rewrite Zdigits_log2 by lia. pose proof (Z.log2_spec m Hm) as [H1 H2].
  replace (Z.log2 m + 1 - 1) with (Z.log2 m) by lia. rewrite Z.add_1_r. auto.
Qed.

Lemma Zdigits_nonneg m : 0 <= m -> 0 <= Zdigits2 m.
Proof. intros Hm. destruct m; cbn; lia. Qed.

Lemma digits_unique m d : 0 < m -> 2 ^ (d - 1) <= m < 2 ^ d -> Zdigits2 m = d.
Proof.
  intros Hm [H1 H2]. rewrite Zdigits_log2 by lia.
  assert (0 <= d - 1) by (destruct (Z_lt_le_dec (d - 1) 0); [|lia];
    assert (2 ^ d <= 1) by (destruct (Z.eq_dec d 0) as [->|]; [reflexivity|]; rewrite Z.pow_neg_r by lia; lia); lia).
  rewrite (Z.log2_unique m (d - 1)); [lia|lia|]. replace (Z.succ (d - 1)) with d by lia. auto.
Qed.

Lemma digits_div m k : 0 < m -> 0 <= k < Zdigits2 m -> Zdigits2 (m / 2 ^ k) = Zdigits2 m - k.
Proof.
  intros Hm Hk. pose proof (digits_bounds m Hm) as [H1 H2].
  assert (0 < 2 ^ k) as Hp by (apply Z.pow_pos_nonneg; lia).
  assert (2 ^ (Zdigits2 m - 1) = 2 ^ (Zdigits2 m - k - 1) * 2 ^ k) as E1
    by (rewrite <- Z.pow_add_r by lia; f_equal; lia).
  assert (2 ^ Zdigits2 m = 2 ^ (Zdigits2 m - k) * 2 ^ k) as E2 by (rewrite <- Z.pow_add_r by lia; f_equal; lia).
  assert (2 ^ (Zdigits2 m - k - 1) <= m / 2 ^ k) as Hl by (apply Z.div_le_lower_bound; lia).
  assert (0 < 2 ^ (Zdigits2 m - k - 1)) by (apply Z.pow_pos_nonneg; lia).
  apply digits_unique; [lia|]. split; [exact Hl|]. apply Z.div_lt_upper_bound; lia.
Qed.

Lemma digits_shift m k : 0 < m -> 0 <= k -> Zdigits2 (m * 2 ^ k) = Zdigits2 m + k.
Proof.
  intros Hm Hk. pose proof (digits_bounds m Hm) as [H1 H2].
  assert (0 < 2 ^ k) as Hp by (apply Z.pow_pos_nonneg; lia).
  pose proof (Zdigits_log2 m Hm). pose proof (Z.log2_nonneg m).
  apply digits_unique; [nia|]. replace (Zdigits2 m + k - 1) with (Zdigits2 m - 1 + k) by lia.
  rewrite !Z.pow_add_r by lia. nia.
Qed.

(** ** Shifting right *)

Lemma iter_pos_iter {A} (f : A -> A) p x : iter_pos f p x = Nat.iter (Pos.to_nat p) f x.
Proof.
  revert x. induction p as [p IH|p IH|]; intros x; cbn [iter_pos]; [| |reflexivity]; rewrite !IH, <- Nat.iter_add.
  - rewrite Pos2Nat.inj_xI, <- Nat.iter_succ_r. f_equal. lia.
  - rewrite Pos2Nat.inj_xO. f_equal. lia.
Qed.

Definition clean (s : shr_record) : Prop := shr_r s = false /\ shr_s s = false.

Lemma shr_1_m s : 0 <= shr_m s -> shr_m (shr_1 s) = shr_m s / 2.
Proof.
  destruct s as [m r t]. cbn [shr_m shr_1]. destruct m as [|[p|p|]|p]; cbn [shr_m]; intros Hm; try reflexivity; try lia.
  - rewrite Pos2Z.inj_xI. rewrite Z.mul_comm, Z.div_add_l by lia. change (1 / 2) with 0. lia.
  - rewrite Pos2Z.inj_xO, Z.mul_comm, Z.div_mul by lia. reflexivity.
Qed.

Lemma shr_1_clean s : clean s -> 0 <= shr_m s -> (2 | shr_m s) -> clean (shr_1 s).
Proof.
  destruct s as [m r t]. intros [Hr Ht] Hm [q Hq]. cbn [shr_m shr_r shr_s] in *.
  rewrite Z.mul_comm in Hq. subst. destruct q as [|q|q]; [split; reflexivity | split; reflexivity | lia].
Qed.

Lemma shr_iter n s : 0 <= shr_m s -> shr_m (Nat.iter n shr_1 s) = shr_m s / 2 ^ Z.of_nat n.
Proof.
  intros Hs. induction n as [|n IH]; [symmetry; apply Z.div_1_r|].
  change (Nat.iter (S n) shr_1 s) with (shr_1 (Nat.iter n shr_1 s)). rewrite shr_1_m by (rewrite IH; apply Z.div_pos; [lia|apply Z.pow_pos_nonneg; lia]).
  rewrite IH, Z.div_div by (try apply Z.pow_nonzero; lia). f_equal.
  rewrite Nat2Z.inj_succ, Z.pow_succ_r by lia. lia.
Qed.

Lemma shr_iter_clean n s : clean s -> 0 <= shr_m s -> (2 ^ Z.of_nat n | shr_m s) -> clean (Nat.iter n shr_1 s).
Proof.
  intros Hc Hs. induction n as [|n IH]; intros Hd; [exact Hc|].
  change (Nat.iter (S n) shr_1 s) with (shr_1 (Nat.iter n shr_1 s)).
  rewrite Nat2Z.inj_succ, Z.pow_succ_r in Hd by lia. destruct Hd as [q Hq].
  assert (0 < 2 ^ Z.of_nat n) as Hp by (apply Z.pow_pos_nonneg; lia).
  assert (shr_m (Nat.iter n shr_1 s) = q * 2) as Em
    by (rewrite shr_iter, Hq by lia; replace (q * (2 * 2 ^ Z.of_nat n)) with (q * 2 * 2 ^ Z.of_nat n) by lia;
        apply Z.div_mul; lia).
  apply shr_1_clean; [apply IH; exists (q * 2); lia | | rewrite Em; exists q; reflexivity].
  rewrite shr_iter by lia. apply Z.div_pos; lia.
Qed.

Lemma shr_spec m e l k : 0 <= m -> 0 <= k ->
  let (s, e') := shr (shr_record_of_loc m l) e k in
  shr_m s = m / 2 ^ k /\ e' = e + k /\ (l = loc_Exact -> (2 ^ k | m) -> clean s).
Proof.
  intros Hm Hk.
  assert (shr_m (shr_record_of_loc m l) = m) as Em by (destruct l as [|[]]; reflexivity).
  assert (l = loc_Exact -> clean (shr_record_of_loc m l)) as Hc by (intros ->; split; reflexivity).
  destruct k as [|p|p]; cbn [shr]; [|rewrite iter_pos_iter|lia].
  - rewrite Em, Z.div_1_r. split; [reflexivity|]. split; [lia|]. auto.
  - rewrite shr_iter by lia. rewrite Em, positive_nat_Z. split; [reflexivity|]. split; [reflexivity|].
    intros Hl Hd. apply shr_iter_clean; [auto | lia|]. rewrite Em, positive_nat_Z. exact Hd.
Qed.

(** ** Rounding *)

Lemma valid_intro m e : 0 < Zpos m -> fexp64 (Zdigits2 (Zpos m) + e) = e -> e <= 971 -> valid m e = true.
Proof.
  intros _ He Hle. unfold bounded, canonical_mantissa. rewrite andb_true_iff. split; [apply Z.eqb_eq, He | apply Z.leb_le, Hle].
Qed.

Lemma valid_elim m e : valid m e = true ->
  fexp64 (Zdigits2 (Zpos m) + e) = e /\ -1074 <= e <= 971 /\ Zpos m < 2 ^ 53 /\ (e <> -1074 -> 2 ^ 52 <= Zpos m).
Proof.
  unfold bounded, canonical_mantissa. rewrite andb_true_iff. intros [He Hle]. apply Z.eqb_eq in He. apply Z.leb_le in Hle.
  change (Zpos (digits2_pos m)) with (Zdigits2 (Zpos m)) in He. rewrite fexp_eq in *.
  pose proof (digits_bounds (Zpos m) eq_refl) as [H1 H2]. split; [exact He|]. split; [lia|]. split.
  - eapply Z.lt_le_trans; [exact H2|]. apply Z.pow_le_mono_r; lia.
  - intros Hne. eapply Z.le_trans; [|exact H1]. apply Z.pow_le_mono_r; lia.
Qed.

(** The number that [m2 * 2 ^ e1] rounds to when it needs at most one more bit. *)
Lemma normalise_spec m2 e1 :
  -1074 <= e1 -> 0 <= m2 <= 2 ^ 53 -> (e1 <> -1074 -> 2 ^ 52 <= m2) ->
  let (s, e2) := shr_fexp 53 1024 m2 e1 loc_Exact in
  let r := match shr_m s with
           | Z0 => S754_zero false
           | Zpos m => if e2 <=? 1024 - 53 then S754_finite false m e2 else S754_infinity false
           | _ => S754_nan
           end in
  (m2 = 0 /\ r = S754_zero false) \/ (r = S754_infinity false /\ 970 < e1) \/
  (exists m3 e3, r = S754_finite false m3 e3 /\ valid m3 e3 = true /\ e1 <= e3 /\ Zpos m3 * 2 ^ (e3 - e1) = m2).
Proof.
  intros He Hm Hn. unfold shr_fexp. destruct (Z.eq_dec m2 0) as [->|Hz]; [|destruct (Z_lt_le_dec m2 (2 ^ 53)) as [Hlt|Hge]].
  - rewrite fexp_eq. change (Zdigits2 0) with 0.
    destruct (Z.max (0 + e1 - 53) (-1074) - e1) as [|p|p] eqn:Ek; [left; split; reflexivity | lia | left; split; reflexivity].
  - pose proof (digits_bounds m2 ltac:(lia)) as [H1 H2].
    assert (Zdigits2 m2 <= 53) as Hd.
    { destruct (Z_lt_le_dec 53 (Zdigits2 m2)); [|lia].
      assert (2 ^ 53 <= 2 ^ (Zdigits2 m2 - 1)) by (apply Z.pow_le_mono_r; lia). lia. }
    assert (fexp64 (Zdigits2 m2 + e1) = e1) as Ek.
    { rewrite fexp_eq. destruct (Z.eq_dec e1 (-1074)) as [->|Hne]; [lia|].
      assert (Zdigits2 m2 = 53); [|lia]. apply digits_unique; [lia|]. split; [exact (Hn Hne) | lia]. }
    rewrite Ek, Z.sub_diag. cbn [shr shr_record_of_loc shr_m]. destruct m2 as [|m|m]; [lia| |lia].
    right. destruct (Z.leb_spec e1 (1024 - 53)); [right | left; split; [reflexivity | lia]].
    exists m, e1. split; [reflexivity|]. split; [apply valid_intro; [lia | exact Ek | lia]|]. split; [lia|].
    rewrite Z.sub_diag. lia.
  - assert (m2 = 2 ^ 53) as -> by lia. change (Zdigits2 (2 ^ 53)) with 54. rewrite fexp_eq.
    replace (Z.max (54 + e1 - 53) (-1074) - e1) with 1 by lia. 
    change (shr (shr_record_of_loc (2 ^ 53) loc_Exact) e1 1) with (Build_shr_record (Zpos (2 ^ 52)) false false, e1 + 1).
    cbn [shr_m]. right.
    destruct (Z.leb_spec (e1 + 1) (1024 - 53)); [right | left; split; [reflexivity | lia]].
    exists (2 ^ 52)%positive, (e1 + 1). split; [reflexivity|]. split.
    + apply valid_intro; [lia | rewrite fexp_eq; change (Zdigits2 (Zpos (2 ^ 52))) with 53; lia | lia].
    + split; [lia|]. replace (e1 + 1 - e1) with 1 by lia. reflexivity.
Qed.

Lemma round_aux_spec m e l :
  let e1 := fexp64 (Zdigits2 m + e) in
  let m1 := m / 2 ^ (e1 - e) in
  0 <= m -> e <= e1 ->
  exists m2, (m2 = m1 \/ m2 = m1 + 1) /\ (l = loc_Exact -> (2 ^ (e1 - e) | m) -> m2 = m1) /\
    let r := binary_round_aux 53 1024 false m e l in
    (m2 = 0 /\ r = S754_zero false) \/ (r = S754_infinity false /\ 970 < e1) \/
    (exists m3 e3, r = S754_finite false m3 e3 /\ valid m3 e3 = true /\ e1 <= e3 /\ Zpos m3 * 2 ^ (e3 - e1) = m2).
Proof.
  intros e1 m1 Hm He.
  pose proof (shr_spec m e l (e1 - e) Hm ltac:(lia)) as Hs.
  destruct (shr (shr_record_of_loc m l) e (e1 - e)) as [s e'] eqn:E1. destruct Hs as (Es & -> & Hc). fold m1 in Es.
  replace (e + (e1 - e)) with e1 in E1 by lia.
  assert (shr_fexp 53 1024 m e l = (s, e1)) as E0 by exact E1.
  set (m2 := round_nearest_even m1 (loc_of_shr_record s)). exists m2.
  assert (m2 = m1 \/ m2 = m1 + 1) as H2
    by (unfold m2; destruct (loc_of_shr_record s) as [|[]]; cbn; auto; destruct (Z.even m1); auto).
  split; [exact H2|]. split.
  { intros Hl Hd. destruct (Hc Hl Hd) as [Hr Ht]. unfold m2. destruct s as [sm sr ss]. cbn in Hr, Ht. subst. reflexivity. }
  assert (0 < 2 ^ (e1 - e)) as Hp by (apply Z.pow_pos_nonneg; lia).
  assert (0 <= m1 < 2 ^ 53 /\ -1074 <= e1 /\ (e1 <> -1074 -> 2 ^ 52 <= m1)) as (Hb & He1 & Hn).
  { pose proof (fexp_eq (Zdigits2 m + e)) as Ee. fold e1 in Ee. clearbody e1. clear Es Hc H2 E0 E1.
    destruct (Z.eq_dec m 0) as [Hz|Hz].
    - unfold m1. rewrite Hz in *. change (Zdigits2 0) with 0 in *. rewrite Z.div_0_l by lia. split; [lia|]. split; lia.
    - pose proof (digits_bounds m ltac:(lia)) as [_ H1]. split; [|split; [lia|]].
      + unfold m1. split; [apply Z.div_pos; lia|]. apply Z.div_lt_upper_bound; [lia|]. eapply Z.lt_le_trans; [exact H1|].
        rewrite <- Z.pow_add_r by lia. apply Z.pow_le_mono_r; lia.
      + intros Hne. assert (Zdigits2 m1 = 53) as Hd by (unfold m1; rewrite digits_div; lia).
        assert (0 < m1) as Hm1.
        { assert (0 <= m1) by (unfold m1; apply Z.div_pos; lia).
          destruct (Z.eq_dec m1 0) as [E|]; [rewrite E in Hd; discriminate | lia]. }
        pose proof (digits_bounds m1 Hm1) as [H3 _]. rewrite Hd in H3. exact H3. }
  pose proof (normalise_spec m2 e1 He1 ltac:(lia) ltac:(intros Hne; specialize (Hn Hne); lia)) as Hns.
  unfold binary_round_aux. rewrite E0, Es. fold m2. destruct (shr_fexp 53 1024 m2 e1 loc_Exact) as [s2 e2]. exact Hns.
Qed.

(** ** Bounds on the result *)

(** At least [v], or infinite. *)
Definition at_least (v : Z) (r : spec_float) : Prop :=
  match r with S754_infinity false => True | _ => v <= val r end.

Lemma exact_shift m k e : 0 <= k -> 0 <= e + SCALE -> exact (m * 2 ^ k) e = exact m (e + k).
Proof.
  intros Hk He. unfold exact. rewrite <- Z.mul_assoc, <- Z.pow_add_r by lia. f_equal. f_equal. lia.
Qed.

Lemma exact_pos m e : 0 < m -> 0 <= e + SCALE -> 0 < exact m e.
Proof. intros Hm He. unfold exact. assert (0 < 2 ^ (e + SCALE)) by (apply Z.pow_pos_nonneg; lia). nia. Qed.

Lemma exact_mono m m' e : 0 <= e + SCALE -> m <= m' -> exact m e <= exact m' e.
Proof. intros He Hm. unfold exact. assert (0 < 2 ^ (e + SCALE)) by (apply Z.pow_pos_nonneg; lia). nia. Qed.

Lemma exact_lt m m' e : 0 <= e + SCALE -> m < m' -> exact m e < exact m' e.
Proof. intros He Hm. unfold exact. assert (0 < 2 ^ (e + SCALE)) by (apply Z.pow_pos_nonneg; lia). nia. Qed.

Lemma valid_range m e : valid m e = true -> -1074 <= e /\ 0 <= e + SCALE.
Proof. intros Hv. apply valid_elim in Hv as (_ & ? & _). unfold SCALE. lia. Qed.

(** A larger exponent is a larger value. *)
Lemma exponent_order m1 e1 m2 e2 :
  valid m1 e1 = true -> valid m2 e2 = true -> e1 < e2 -> exact (Zpos m1) e1 < exact (Zpos m2) e2.
Proof.
  intros H1 H2 He. pose proof (valid_range _ _ H1) as [Hr1 Hs1].
  apply valid_elim in H1 as (_ & _ & Hm1 & _). apply valid_elim in H2 as (_ & _ & _ & Hm2). specialize (Hm2 ltac:(lia)).
  apply Z.lt_le_trans with (exact (2 ^ 53) e1); [apply exact_lt; lia|].
  apply Z.le_trans with (exact (2 ^ 52) e2); [|apply exact_mono; lia].
  change (2 ^ 53) with (1 * 2 ^ 53). change (2 ^ 52) with (1 * 2 ^ 52). rewrite !exact_shift by lia.
  unfold exact. rewrite !Z.mul_1_l. apply Z.pow_le_mono_r; lia.
Qed.

(** The order of the valid positive numbers is the order of their values. *)
Lemma compare_val m1 e1 m2 e2 :
  valid m1 e1 = true -> valid m2 e2 = true ->
  SFcompare (S754_finite false m1 e1) (S754_finite false m2 e2) = Some (exact (Zpos m1) e1 ?= exact (Zpos m2) e2).
Proof.
  intros H1 H2. cbn [SFcompare]. f_equal. destruct (Z.compare_spec e1 e2) as [->|Hlt|Hgt]; symmetry.
  - pose proof (valid_range _ _ H2) as [_ Hs]. change (Pos.compare_cont Eq m1 m2) with (Zpos m1 ?= Zpos m2).
    destruct (Z.compare_spec (Zpos m1) (Zpos m2)) as [E|Hl|Hg].
    + rewrite E. apply Z.compare_refl.
    + apply Z.compare_lt_iff, exact_lt; lia.
    + apply Z.compare_gt_iff, exact_lt; lia.
  - apply Z.compare_lt_iff, exponent_order; assumption.
  - apply Z.compare_gt_iff, exponent_order; assumption.
Qed.

(** Truncation keeps what is above a representable number above it. *)
Lemma truncation_keeps fm fe m e :
  let e1 := fexp64 (Zdigits2 m + e) in
  valid fm fe = true -> 0 < m -> e <= e1 -> 0 <= e + SCALE -> exact (Zpos fm) fe <= exact m e ->
  exact (Zpos fm) fe <= exact (m / 2 ^ (e1 - e)) e1.
Proof.
  intros e1 Hf Hm He Hs Hle. pose proof (valid_range _ _ Hf) as [Hfr Hfs].
  pose proof (valid_elim _ _ Hf) as (_ & _ & Hfu & Hfn). pose proof (digits_bounds m Hm) as [Hd1 Hd2].
  pose proof (fexp_eq (Zdigits2 m + e)) as Ee. fold e1 in Ee. clearbody e1.
  assert (0 < 2 ^ (e1 - e)) as Hp by (apply Z.pow_pos_nonneg; lia).
  pose proof (Zdigits_nonneg m ltac:(lia)) as Hdn.
  assert (fe <= e1) as Hfe.
  { destruct (Z_lt_le_dec e1 fe) as [Hlt|]; [|lia]. exfalso. specialize (Hfn ltac:(lia)).
    assert (exact m e < exact (2 ^ 52) fe) as Hc; [|pose proof (exact_mono (2 ^ 52) (Zpos fm) fe ltac:(lia) Hfn); lia].
    apply Z.lt_le_trans with (exact (1 * 2 ^ Zdigits2 m) e); [apply exact_lt; lia|].
    change (2 ^ 52) with (1 * 2 ^ 52). rewrite !exact_shift by lia. unfold exact. rewrite !Z.mul_1_l.
    apply Z.pow_le_mono_r; lia. }
  destruct (Z.eq_dec fe e1) as [->|Hne].
  - apply exact_mono; [lia|]. apply Z.div_le_lower_bound; [lia|].
    replace e1 with (e + (e1 - e)) in Hle by lia. rewrite <- exact_shift in Hle by lia. unfold exact in Hle.
    assert (0 < 2 ^ (e + SCALE)) by (apply Z.pow_pos_nonneg; lia). nia.
  - apply Z.le_trans with (exact (2 ^ 52) e1).
    + apply Z.lt_le_incl, Z.lt_le_trans with (exact (2 ^ 53) fe); [apply exact_lt; lia|].
      change (2 ^ 53) with (1 * 2 ^ 53). change (2 ^ 52) with (1 * 2 ^ 52). rewrite !exact_shift by lia.
      unfold exact. rewrite !Z.mul_1_l. apply Z.pow_le_mono_r; lia.
    + apply exact_mono; [lia|]. assert (e1 - e = Zdigits2 m - 53) as Ek by lia. apply Z.div_le_lower_bound; [lia|].
      rewrite <- Z.pow_add_r by lia. eapply Z.le_trans; [|exact Hd1]. apply Z.pow_le_mono_r; lia.
Qed.

(** What rounding [m * 2 ^ e] (and a little more) does. *)
Record rounds (m e : Z) (r : spec_float) : Prop := {
  rd_nn : nn r;
  rd_floor : forall f, nn f -> val f <= exact m e -> at_least (val f) r
}.

Lemma round_aux_rounds m e l :
  0 < m -> e <= fexp64 (Zdigits2 m + e) -> 0 <= e + SCALE -> rounds m e (binary_round_aux 53 1024 false m e l).
Proof.
  intros Hm He Hs. destruct (round_aux_spec m e l ltac:(lia) He) as (m2 & H2 & _ & Hr). cbv zeta in Hr.
  pose proof (fexp_eq (Zdigits2 m + e)) as Ee. pose proof (truncation_keeps) as Ht. specialize (fun fm fe => Ht fm fe m e).
  cbv zeta in Ht. set (e1 := fexp64 (Zdigits2 m + e)) in *. clearbody e1. pose proof (Zdigits_nonneg m ltac:(lia)).
  assert (forall f, nn f -> val f <= exact m e -> val f <= exact m2 e1) as Hf.
  { intros f Hn Hv. destruct f as [[]|[]| |[] fm fe]; cbn [nn val] in *; try contradiction.
    - unfold exact. assert (0 < 2 ^ (e1 + SCALE)) by (apply Z.pow_pos_nonneg; lia).
      assert (0 <= m / 2 ^ (e1 - e)) by (apply Z.div_pos; [lia|apply Z.pow_pos_nonneg; lia]). nia.
    - unfold exact. assert (0 < 2 ^ (e1 + SCALE)) by (apply Z.pow_pos_nonneg; lia).
      assert (0 <= m / 2 ^ (e1 - e)) by (apply Z.div_pos; [lia|apply Z.pow_pos_nonneg; lia]). nia.
    - specialize (Ht fm fe Hn Hm ltac:(lia) Hs Hv). eapply Z.le_trans; [exact Ht|]. apply exact_mono; lia. }
  destruct Hr as [[-> ->]|[[-> _]|(m3 & e3 & -> & Hv & He3 & Em)]].
  - split; [exact I|]. intros f Hn Hle. specialize (Hf f Hn Hle). exact Hf.
  - split; [exact I|]. intros; exact I.
  - split; [exact Hv|]. intros f Hn Hle. specialize (Hf f Hn Hle). cbn [at_least val].
    rewrite <- Em, exact_shift in Hf by lia. replace (e1 + (e3 - e1)) with e3 in Hf by lia. exact Hf.
Qed.

(** ** Addition, multiplication, conversion *)

Lemma iter_xO m d : Zpos (Pos.iter xO m d) = Zpos m * 2 ^ Zpos d.
Proof.
  rewrite Pos2Nat.inj_iter. rewrite <- (positive_nat_Z d). induction (Pos.to_nat d) as [|n IH]; [cbn; lia|].
  change (nat_rect _ m (fun _ => xO) (S n)) with (xO (nat_rect (fun _ => positive) m (fun _ => xO) n)).
  rewrite Pos2Z.inj_xO, IH, Nat2Z.inj_succ, Z.pow_succ_r by lia. lia.
Qed.

Lemma shl_align_spec m e e' :
  let (mz, ez) := shl_align m e e' in
  ez = Z.min e e' /\ Zpos mz = Zpos m * 2 ^ (e - ez).
Proof.
  unfold shl_align. destruct (e' - e) as [|d|d] eqn:E.
  - split; [lia|]. rewrite Z.sub_diag. lia.
  - split; [lia|]. rewrite Z.sub_diag. lia.
  - split; [lia|]. rewrite iter_xO. do 2 f_equal. lia.
Qed.

(** The sum of what was aligned. *)
Lemma round_rounds m e :
  0 <= fexp64 (Zdigits2 (Zpos m) + e) + SCALE -> 0 <= e + SCALE -> rounds (Zpos m) e (binary_round 53 1024 false m e).
Proof.
  intros Hs1 Hs. unfold binary_round. change (Zpos (digits2_pos m)) with (Zdigits2 (Zpos m)).
  set (e1 := fexp64 (Zdigits2 (Zpos m) + e)) in *. pose proof (shl_align_spec m e e1) as Ha.
  destruct (shl_align m e e1) as [mz ez]. destruct Ha as [Hez Hmz].
  assert (rounds (Zpos mz) ez (binary_round_aux 53 1024 false (Zpos mz) ez loc_Exact)) as [Hn Hf].
  { apply round_aux_rounds; [lia| |lia]. rewrite Hmz, digits_shift by lia.
    replace (Zdigits2 (Zpos m) + (e - ez) + ez) with (Zdigits2 (Zpos m) + e) by lia. fold e1. lia. }
  split; [exact Hn|]. intros f Hnf Hv. apply Hf; [exact Hnf|]. rewrite Hmz, exact_shift by lia.
  replace (ez + (e - ez)) with e by lia. exact Hv.
Qed.

(** When the bits that would be shifted out are zero, nothing is lost. *)
Lemma round_exact m e :
  let e1 := fexp64 (Zdigits2 (Zpos m) + e) in
  0 <= e + SCALE -> e1 <= 970 -> (e <= e1 -> (2 ^ (e1 - e) | Zpos m)) ->
  exists m3 e3, binary_round 53 1024 false m e = S754_finite false m3 e3 /\ valid m3 e3 = true /\
    exact (Zpos m3) e3 = exact (Zpos m) e.
Proof.
  intros e1 Hs He1 Hd. unfold binary_round. change (Zpos (digits2_pos m)) with (Zdigits2 (Zpos m)). fold e1.
  pose proof (shl_align_spec m e e1) as Ha. destruct (shl_align m e e1) as [mz ez]. destruct Ha as [Hez Hmz].
  assert (fexp64 (Zdigits2 (Zpos mz) + ez) = e1) as Ed.
  { rewrite Hmz, digits_shift by lia. replace (Zdigits2 (Zpos m) + (e - ez) + ez) with (Zdigits2 (Zpos m) + e) by lia. reflexivity. }
  pose proof (round_aux_spec (Zpos mz) ez loc_Exact) as Hr. cbv zeta in Hr. rewrite Ed in Hr.
  destruct (Hr ltac:(lia) ltac:(lia)) as (m2 & _ & Hex & Hc). clear Hr.
  assert (2 ^ (e1 - ez) | Zpos mz) as Hdz.
  { destruct (Z_le_gt_dec e e1) as [Hle|Hgt].
    - assert (ez = e) as -> by lia. rewrite Hmz, Z.sub_diag, Z.mul_1_r. auto.
    - assert (ez = e1) as -> by lia. rewrite Z.sub_diag. exists (Zpos mz). lia. }
  specialize (Hex eq_refl Hdz). assert (0 < 2 ^ (e1 - ez)) as Hp by (apply Z.pow_pos_nonneg; lia).
  destruct Hdz as [q Hq]. rewrite Hq, Z.div_mul in Hex by lia.
  assert (e1 = Z.max (Zdigits2 (Zpos m) + e - 53) (-1074)) as Ee by apply fexp_eq. assert (0 <= e1 + SCALE) by (unfold SCALE; lia).
  destruct Hc as [[Hz _]|[[_ Hbig]|(m3 & e3 & -> & Hv & He3 & Em)]]; [nia | lia |].
  exists m3, e3. split; [reflexivity|]. split; [exact Hv|].
  replace e3 with (e1 + (e3 - e1)) by lia. rewrite <- exact_shift, Em, Hex by lia.
  replace e1 with (ez + (e1 - ez)) at 1 by lia. rewrite <- exact_shift, <- Hq, Hmz, exact_shift by lia. f_equal. lia.
Qed.

Lemma round_pos_scale m e : 0 <= fexp64 (Zdigits2 m + e) + SCALE.
Proof. rewrite fexp_eq. unfold SCALE. lia. Qed.

Lemma val_nonneg r : nn r -> 0 <= val r.
Proof.
  destruct r as [[]|[]| |[] m e]; cbn [nn val]; try contradiction; try lia. intros Hv.
  apply Z.lt_le_incl, exact_pos; [lia|]. apply (valid_range _ _ Hv).
Qed.

Lemma at_least_nonpos v r : nn r -> v <= 0 -> at_least v r.
Proof.
  intros Hn Hv. pose proof (val_nonneg r Hn). destruct r as [[]|[]| |[] m e]; cbn [at_least]; try exact I; lia.
Qed.

(** A sum is a valid number, at least as large as what either summand dominates. *)
Lemma f64_add_spec x y :
  nn x -> nn y ->
  nn (f64_add x y) /\
  (forall f, nn f -> at_least (val f) x \/ at_least (val f) y -> at_least (val f) (f64_add x y)).
Proof.
  intros Hx Hy. unfold f64_add.
  destruct x as [[]|[]| |[] m1 e1]; try contradiction.
  - assert (SFadd 53 1024 (S754_zero false) y = y) as -> by (destruct y as [[]|[]| |[] m e]; try contradiction; reflexivity).
    split; [exact Hy|]. intros f Hf [H|H]; [apply at_least_nonpos; assumption | exact H].
  - assert (SFadd 53 1024 (S754_infinity false) y = S754_infinity false) as ->
      by (destruct y as [[]|[]| |[] m e]; try contradiction; reflexivity).
    split; [exact I|]. intros; exact I.
  - destruct y as [[]|[]| |[] m2 e2]; try contradiction; cbn [SFadd].
    + split; [exact Hx|]. intros f Hf [H|H]; [exact H | apply at_least_nonpos; [exact Hx | exact H]].
    + split; [exact I|]. intros; exact I.
    + cbn [nn] in Hx, Hy. pose proof (valid_range _ _ Hx). pose proof (valid_range _ _ Hy).
      set (ez := Z.min e1 e2).
      pose proof (shl_align_spec m1 e1 ez) as H1. destruct (shl_align m1 e1 ez) as [a ea]. destruct H1 as [Hea Ha].
      pose proof (shl_align_spec m2 e2 ez) as H2. destruct (shl_align m2 e2 ez) as [b eb]. destruct H2 as [Heb Hb].
      cbn [fst cond_Zopp]. assert (ea = ez /\ eb = ez) as [-> ->] by lia.
      change (Zpos a + Zpos b) with (Zpos (a + b)). cbn [binary_normalize].
      destruct (round_rounds (a + b) ez (round_pos_scale _ _) ltac:(lia)) as [Hn Hf].
      split; [exact Hn|]. intros f Hnf Hor. apply Hf; [exact Hnf|]. rewrite Pos2Z.inj_add.
      assert (exact (Zpos m1) e1 = exact (Zpos a) ez) as E1
        by (rewrite Ha, exact_shift by lia; f_equal; lia).
      assert (exact (Zpos m2) e2 = exact (Zpos b) ez) as E2
        by (rewrite Hb, exact_shift by lia; f_equal; lia).
      destruct Hor as [Hle|Hle]; cbn [at_least val] in Hle; rewrite ?E1, ?E2 in Hle;
        (eapply Z.le_trans; [exact Hle|]); apply exact_mono; lia.
Qed.

(** A product with a positive number is a valid number, and not less than what the
    exact product dominates. *)
Lemma f64_mul_spec x m2 e2 :
  nn x -> valid m2 e2 = true -> -100 <= e2 -> 2 ^ 52 <= Zpos m2 ->
  let y := S754_finite false m2 e2 in
  nn (f64_mul x y) /\
  (at_least (exact 1 0) x -> at_least (val y) (f64_mul x y)) /\
  (x = S754_zero false -> f64_mul x y = S754_zero false).
Proof.
  intros Hx Hy He2 Hm2 y. unfold f64_mul, y. destruct x as [[]|[]| |[] m1 e1]; try contradiction; cbn [SFmul xorb].
  - split; [exact I|]. split; [|reflexivity]. cbn [at_least val]. intros H. exfalso.
    pose proof (exact_pos 1 0 ltac:(lia) ltac:(unfold SCALE; lia)). lia.
  - split; [exact I|]. split; [intros; exact I | discriminate].
  - cbn [nn] in Hx. pose proof (valid_range _ _ Hx) as [Hr1 _]. pose proof (valid_range _ _ Hy) as [Hr2 _].
    assert (rounds (Zpos (m1 * m2)) (e1 + e2) (binary_round_aux 53 1024 false (Zpos (m1 * m2)) (e1 + e2) loc_Exact)) as [Hn Hf].
    { apply round_aux_rounds; [lia| |unfold SCALE; lia]. rewrite fexp_eq.
      assert (53 <= Zdigits2 (Zpos (m1 * m2))); [|lia]. rewrite Zdigits_log2 by lia.
      assert (52 <= Z.log2 (Zpos (m1 * m2))); [|lia]. apply Z.log2_le_pow2; [lia|]. rewrite Pos2Z.inj_mul. nia. }
    split; [exact Hn|]. split; [|discriminate]. cbn [at_least val]. intros H1.
    apply (Hf (S754_finite false m2 e2)); [exact Hy|]. cbn [val]. rewrite Pos2Z.inj_mul.
    unfold exact in *. rewrite Z.mul_1_l, Z.add_0_l in H1.
    assert (2 ^ SCALE * (Zpos m2 * 2 ^ (e2 + SCALE)) <= Zpos m1 * 2 ^ (e1 + SCALE) * (Zpos m2 * 2 ^ (e2 + SCALE))) as H2
      by (apply Z.mul_le_mono_nonneg_r; [|exact H1]; assert (0 < 2 ^ (e2 + SCALE)) by (apply Z.pow_pos_nonneg; unfold SCALE; lia); nia).
    assert (2 ^ (e1 + SCALE) * 2 ^ (e2 + SCALE) = 2 ^ (e1 + e2 + SCALE) * 2 ^ SCALE) as E
      by (rewrite <- !Z.pow_add_r by (unfold SCALE; lia); f_equal; lia).
    assert (0 < 2 ^ SCALE) as Hp by (apply Z.pow_pos_nonneg; unfold SCALE; lia).
    apply (Z.mul_le_mono_pos_r _ _ (2 ^ SCALE) Hp). revert H2 E. generalize (2 ^ SCALE) as S, (2 ^ (e1 + SCALE)) as A,
      (2 ^ (e2 + SCALE)) as B, (2 ^ (e1 + e2 + SCALE)) as C. intros S A B C H2 E.
    replace (Zpos m1 * Zpos m2 * C * S) with (Zpos m1 * Zpos m2 * (C * S)) by ring. rewrite <- E.
    replace (Zpos m1 * Zpos m2 * (A * B)) with (Zpos m1 * A * (Zpos m2 * B)) by ring.
    replace (Zpos m2 * B * S) with (S * (Zpos m2 * B)) by ring. exact H2.
Qed.

(** ** Numbers from one up *)

Definition ONE : Z := exact 1 0.
Definition f64_one : spec_float := f64_of_Z 1.

Lemma f64_one_eq : f64_one = S754_finite false (2 ^ 52) (-52).
Proof. reflexivity. Qed.

Lemma ONE_eq : ONE = exact (2 ^ 52) (-52).
Proof. unfold ONE. replace 0 with (-52 + 52) by reflexivity. rewrite <- exact_shift by (unfold SCALE; lia). reflexivity. Qed.

Lemma ONE_pos : 0 < ONE.
Proof. apply exact_pos; unfold SCALE; lia. Qed.

Lemma val_one : val f64_one = ONE.
Proof. rewrite ONE_eq. reflexivity. Qed.

Lemma from_one_up m e : valid m e = true -> ONE <= exact (Zpos m) e -> -52 <= e /\ 2 ^ 52 <= Zpos m.
Proof.
  intros Hv Hone. pose proof (valid_range _ _ Hv) as [_ Hs]. apply valid_elim in Hv as (_ & _ & Hu & Hn).
  assert (-52 <= e) as He; [|split; [exact He | apply Hn; lia]].
  destruct (Z_lt_le_dec e (-52)); [|assumption]. exfalso.
  assert (exact (Zpos m) e < ONE) as Hlt; [|lia].
  apply Z.lt_le_trans with (exact (1 * 2 ^ 53) e); [apply exact_lt; lia|].
  rewrite exact_shift by lia. unfold ONE, exact. rewrite !Z.mul_1_l. apply Z.pow_le_mono_r; unfold SCALE; lia.
Qed.

Lemma exact_int z : exact z 0 = z * ONE.
Proof. unfold ONE, exact. rewrite Z.mul_1_l. reflexivity. Qed.

(** An integer below [2 ^ 53] converts exactly; any other becomes a valid number of
    at least one. *)
Lemma f64_of_Z_exact z : 0 < z < 2 ^ 53 ->
  exists m e, f64_of_Z z = S754_finite false m e /\ valid m e = true /\ exact (Zpos m) e = z * ONE.
Proof.
  intros Hz. unfold f64_of_Z. destruct z as [|p|p]; [lia| |lia]. cbn [binary_normalize].
  pose proof (digits_bounds (Zpos p) ltac:(lia)) as [H1 _].
  assert (Zdigits2 (Zpos p) <= 53) as Hd.
  { destruct (Z_lt_le_dec 53 (Zdigits2 (Zpos p))); [|lia].
    assert (2 ^ 53 <= 2 ^ (Zdigits2 (Zpos p) - 1)) by (apply Z.pow_le_mono_r; lia). lia. }
  pose proof (fexp_eq (Zdigits2 (Zpos p) + 0)) as Ee.
  destruct (round_exact p 0) as (m & e & Er & Hv & Ex).
  - unfold SCALE. lia.
  - lia.
  - intros Hle. replace (fexp64 (Zdigits2 (Zpos p) + 0) - 0) with 0 by lia. exists (Zpos p). lia.
  - exists m, e. rewrite Er, Ex, exact_int. auto.
Qed.

Lemma f64_of_Z_nn z : 0 <= z -> nn (f64_of_Z z) /\ (0 < z -> at_least ONE (f64_of_Z z)).
Proof.
  intros Hz. unfold f64_of_Z. destruct z as [|p|p]; [split; [exact I | lia]| |lia]. cbn [binary_normalize].
  destruct (round_rounds p 0 (round_pos_scale _ _) ltac:(unfold SCALE; lia)) as [Hn Hf]. split; [exact Hn|].
  intros _. rewrite <- val_one. apply Hf; [rewrite f64_one_eq; reflexivity|]. rewrite val_one, exact_int.
  pose proof ONE_pos. nia.
Qed.

(** A quotient of two such numbers is a valid number. *)
Lemma f64_div_nn x m2 e2 :
  x = S754_zero false \/ (exists m1 e1, x = S754_finite false m1 e1 /\ valid m1 e1 = true /\ ONE <= exact (Zpos m1) e1) ->
  valid m2 e2 = true -> ONE <= exact (Zpos m2) e2 -> e2 <= 0 -> nn (f64_div x (S754_finite false m2 e2)).
Proof.
  intros Hx Hy H2 He0. destruct (from_one_up _ _ Hy H2) as [He2 Hm2]. pose proof (valid_elim _ _ Hy) as (_ & Hr2 & Hu2 & _).
  destruct Hx as [->|(m1 & e1 & -> & Hv & H1)]; [exact I|].
  destruct (from_one_up _ _ Hv H1) as [He1 Hm1]. pose proof (valid_elim _ _ Hv) as (_ & Hr1 & Hu1 & _).
  unfold f64_div. cbn [SFdiv xorb]. unfold SFdiv_core_binary.
  assert (Zdigits2 (Zpos m1) = 53 /\ Zdigits2 (Zpos m2) = 53) as [-> ->]
    by (split; apply digits_unique; lia).
  rewrite fexp_eq. replace (Z.min (Z.max (53 + e1 - (53 + e2) - 53) (-1074)) (e1 - e2)) with (e1 - e2 - 53) by lia.
  replace (e1 - e2 - (e1 - e2 - 53)) with 53 by lia. cbv beta iota zeta. rewrite Z.shiftl_mul_pow2 by lia.
  pose proof (Z.div_eucl_eq (Zpos m1 * 2 ^ 53) (Zpos m2) ltac:(lia)) as Hq.
  pose proof (Z.mod_pos_bound (Zpos m1 * 2 ^ 53) (Zpos m2) ltac:(lia)) as Hr.
  assert (2 ^ 52 <= Zpos m1 * 2 ^ 53 / Zpos m2) as Hlo by (apply Z.div_le_lower_bound; [lia|nia]).
  unfold Z.div, Z.modulo in *. destruct (Z.div_eucl (Zpos m1 * 2 ^ 53) (Zpos m2)) as [q r].
  apply round_aux_rounds; [lia| |unfold SCALE; lia]. rewrite fexp_eq.
  assert (53 <= Zdigits2 q); [|lia]. rewrite Zdigits_log2 by lia.
  assert (52 <= Z.log2 q); [|lia]. apply Z.log2_le_pow2; lia.
Qed.

(** Taking one from a number between one and [2 ^ 53] is exact. *)
Lemma f64_sub_one m e :
  valid m e = true -> ONE <= exact (Zpos m) e -> e <= 0 ->
  let r := f64_sub (S754_finite false m e) f64_one in
  nn r /\ fin r /\ val r = exact (Zpos m) e - ONE.
Proof.
  intros Hv H1 He r. destruct (from_one_up _ _ Hv H1) as [He1 Hm]. pose proof (valid_elim _ _ Hv) as (_ & _ & Hu & _).
  unfold r, f64_sub. rewrite f64_one_eq. cbn [SFsub]. replace (Z.min e (-52)) with (-52) by lia.
  pose proof (shl_align_spec m e (-52)) as Ha. destruct (shl_align m e (-52)) as [a ea]. destruct Ha as [-> Ha].
  replace (e - Z.min e (-52)) with (e + 52) in Ha by lia. change (fst (shl_align (2 ^ 52) (-52) (-52))) with (2 ^ 52)%positive.
  cbn [fst cond_Zopp]. rewrite Ha. change (Zpos (2 ^ 52)) with (2 ^ 52).
  assert (exact (Zpos m) e - ONE = exact (Zpos m * 2 ^ (e + 52) - 2 ^ 52) (-52)) as Ev.
  { rewrite ONE_eq. unfold exact. rewrite Z.mul_sub_distr_r, <- Z.mul_assoc, <- (Z.pow_add_r 2 (e + 52)) by (unfold SCALE; lia).
    replace (e + 52 + (-52 + SCALE)) with (e + SCALE) by lia. reflexivity. }
  set (D := Zpos m * 2 ^ (e + 52) - 2 ^ 52) in *.
  assert (0 <= D) as HD.
  { unfold D. assert (1 <= 2 ^ (e + 52)) by (apply (Z.pow_le_mono_r 2 0); lia). nia. }
  destruct D as [|p|p] eqn:ED; [| |lia]; cbn [binary_normalize].
  - rewrite Ev. split; [exact I|]. split; [exact I|]. reflexivity.
  - pose proof (digits_bounds (Zpos p) ltac:(lia)) as [Hd1 Hd2]. pose proof (fexp_eq (Zdigits2 (Zpos p) + -52)) as Ee.
    pose proof (digits_log2 p) as Hdl. pose proof (Z.log2_nonneg (Zpos p)).
    assert (Zdigits2 (Zpos p) <= 53 + (e + 52)) as Hd.
    { destruct (Z_lt_le_dec (53 + (e + 52)) (Zdigits2 (Zpos p))); [|lia]. exfalso.
      assert (2 ^ (53 + (e + 52)) <= 2 ^ (Zdigits2 (Zpos p) - 1)) as Hc by (apply Z.pow_le_mono_r; lia).
      rewrite Z.pow_add_r in Hc by lia. assert (0 < 2 ^ (e + 52)) by (apply Z.pow_pos_nonneg; lia). nia. }
    cbn [Zdigits2] in *.
    destruct (round_exact p (-52)) as (m3 & e3 & Er & Hv3 & Ex).
    + unfold SCALE. lia.
    + cbn [Zdigits2]. lia.
    + cbn [Zdigits2]. intros Hle.
      assert (fexp64 (Zpos (digits2_pos p) + -52) - -52 = Zpos (digits2_pos p) - 53) as -> by lia.
      exists ((Zpos m - 2 ^ (- e)) * 2 ^ (e + 52 - (Zpos (digits2_pos p) - 53))).
      rewrite <- Z.mul_assoc, <- Z.pow_add_r by lia.
      replace (e + 52 - (Zpos (digits2_pos p) - 53) + (Zpos (digits2_pos p) - 53)) with (e + 52) by lia.
      rewrite <- ED. unfold D. rewrite Z.mul_sub_distr_r, <- Z.pow_add_r by lia. do 2 f_equal. lia.
    + rewrite Er, Ev. split; [exact Hv3|]. split; [exact I|]. cbn [val]. exact Ex.
Qed.

(** ** Integers *)

(** A product or a sum of integers below [2 ^ 53] is exact. *)
Lemma integer_digits z e : 0 < z < 2 ^ 53 -> e <= 0 ->
  let k := fexp64 (Zdigits2 (z * 2 ^ (- e)) + e) in k <= 0 /\ (e <= k -> (2 ^ (k - e) | z * 2 ^ (- e))).
Proof.
  intros Hz He. pose proof (digits_bounds z ltac:(lia)) as [H1 _].
  assert (Zdigits2 z <= 53) as Hd.
  { destruct (Z_lt_le_dec 53 (Zdigits2 z)); [|lia].
    assert (2 ^ 53 <= 2 ^ (Zdigits2 z - 1)) by (apply Z.pow_le_mono_r; lia). lia. }
  rewrite digits_shift by lia. replace (Zdigits2 z + - e + e) with (Zdigits2 z) by lia.
  pose proof (fexp_eq (Zdigits2 z)) as Ee. intros k. fold k in Ee. split; [lia|]. intros Hk.
  exists (z * 2 ^ (- k)). rewrite <- Z.mul_assoc, <- Z.pow_add_r by lia. do 2 f_equal. lia.
Qed.

(** A positive number that is the integer [z]. *)
Definition is_int (z : Z) (f : spec_float) : Prop :=
  exists m e, f = S754_finite false m e /\ valid m e = true /\ exact (Zpos m) e = z * ONE.

Lemma int_mantissa z m e : 0 < z < 2 ^ 53 -> valid m e = true -> exact (Zpos m) e = z * ONE ->
  -52 <= e <= 0 /\ 2 ^ 52 <= Zpos m /\ Zpos m = z * 2 ^ (- e).
Proof.
  intros Hz Hv Hx. pose proof ONE_pos. destruct (from_one_up m e Hv ltac:(nia)) as [He Hm].
  pose proof (valid_range _ _ Hv) as [_ Hs].
  assert (e <= 0) as He0.
  { destruct (Z_le_gt_dec e 0); [assumption|]. exfalso.
    assert (exact (2 ^ 53) 0 <= exact (Zpos m) e) as Hc; [|rewrite exact_int in Hc; nia].
    apply Z.le_trans with (exact (1 * 2 ^ 52) e); [|apply exact_mono; lia].
    change (2 ^ 53) with (1 * 2 ^ 53). rewrite !exact_shift by (unfold SCALE in *; lia). unfold exact. rewrite !Z.mul_1_l.
    apply Z.pow_le_mono_r; unfold SCALE in *; lia. }
  split; [lia|]. split; [exact Hm|]. rewrite <- exact_int in Hx. replace 0 with (e + - e) in Hx by lia.
  rewrite <- exact_shift in Hx by lia. unfold exact in Hx.
  assert (0 < 2 ^ (e + SCALE)) by (apply Z.pow_pos_nonneg; lia). nia.
Qed.

Lemma int_exact z e : e <= 0 -> 0 <= e + SCALE -> exact (z * 2 ^ (- e)) e = z * ONE.
Proof. intros He Hs. rewrite exact_shift, <- exact_int by lia. f_equal. lia. Qed.

Lemma f64_mul_int a b x y :
  0 < a -> 0 < b -> a * b < 2 ^ 53 -> is_int a x -> is_int b y -> is_int (a * b) (f64_mul x y).
Proof.
  intros Ha Hb Hab (m1 & e1 & -> & Hv1 & Hx1) (m2 & e2 & -> & Hv2 & Hx2).
  destruct (int_mantissa a m1 e1 ltac:(nia) Hv1 Hx1) as (He1 & Hm1 & E1).
  destruct (int_mantissa b m2 e2 ltac:(nia) Hv2 Hx2) as (He2 & Hm2 & E2).
  unfold f64_mul. cbn [SFmul xorb].
  assert (Zpos (m1 * m2) = a * b * 2 ^ (- (e1 + e2))) as Em.
  { rewrite Pos2Z.inj_mul, E1, E2. replace (- (e1 + e2)) with (- e1 + - e2) by lia. rewrite Z.pow_add_r by lia. ring. }
  destruct (integer_digits (a * b) (e1 + e2) ltac:(nia) ltac:(lia)) as [Hk Hd]. rewrite <- Em in Hk, Hd.
  assert (e1 + e2 <= fexp64 (Zdigits2 (Zpos (m1 * m2)) + (e1 + e2))) as Hle.
  { rewrite fexp_eq. assert (53 <= Zdigits2 (Zpos (m1 * m2))); [|lia]. rewrite Zdigits_log2 by lia.
    assert (52 <= Z.log2 (Zpos (m1 * m2))); [|lia]. apply Z.log2_le_pow2; [lia|]. rewrite Pos2Z.inj_mul. nia. }
  destruct (round_aux_spec (Zpos (m1 * m2)) (e1 + e2) loc_Exact ltac:(lia) Hle) as (m' & _ & Hex & Hr).
  specialize (Hd Hle). specialize (Hex eq_refl Hd). cbv zeta in Hr.
  set (k := fexp64 (Zdigits2 (Zpos (m1 * m2)) + (e1 + e2))) in *.
  assert (-1074 <= k) by (unfold k; rewrite fexp_eq; lia). clearbody k.
  assert (0 < 2 ^ (k - (e1 + e2))) by (apply Z.pow_pos_nonneg; lia).
  destruct Hd as [q Hq]. rewrite Hq, Z.div_mul in Hex by lia.
  destruct Hr as [[Hz _]|[[_ Hbig]|(m3 & e3 & Er & Hv & He3 & Em3)]]; [nia | lia |].
  exists m3, e3. split; [exact Er|]. split; [exact Hv|]. rewrite <- (int_exact (a * b) (e1 + e2)) by (unfold SCALE; lia).
  rewrite <- Em, Hq. replace e3 with (k + (e3 - k)) by lia. rewrite <- exact_shift, Em3, Hex by (unfold SCALE; lia).
  rewrite exact_shift by (unfold SCALE; lia). f_equal. lia.
Qed.

Lemma f64_add_int a b x y :
  0 < a -> 0 < b -> a + b < 2 ^ 53 -> is_int a x -> is_int b y -> is_int (a + b) (f64_add x y).
Proof.
  intros Ha Hb Hab (m1 & e1 & -> & Hv1 & Hx1) (m2 & e2 & -> & Hv2 & Hx2).
  destruct (int_mantissa a m1 e1 ltac:(lia) Hv1 Hx1) as (He1 & Hm1 & E1).
  destruct (int_mantissa b m2 e2 ltac:(lia) Hv2 Hx2) as (He2 & Hm2 & E2).
  unfold f64_add. cbn [SFadd]. set (ez := Z.min e1 e2).
  pose proof (shl_align_spec m1 e1 ez) as H1. destruct (shl_align m1 e1 ez) as [p ep]. destruct H1 as [Hep Hp].
  pose proof (shl_align_spec m2 e2 ez) as H2. destruct (shl_align m2 e2 ez) as [q eq]. destruct H2 as [Heq Hq].
  cbn [fst cond_Zopp]. assert (ep = ez /\ eq = ez) as [-> ->] by lia.
  change (Zpos p + Zpos q) with (Zpos (p + q)). cbn [binary_normalize].
  assert (Zpos (p + q) = (a + b) * 2 ^ (- ez)) as Em.
  { rewrite Pos2Z.inj_add, Hp, Hq, E1, E2, <- !Z.mul_assoc, <- !Z.pow_add_r by lia.
    rewrite Z.mul_add_distr_r. do 3 f_equal; lia. }
  destruct (integer_digits (a + b) ez ltac:(lia) ltac:(lia)) as [Hk Hd]. rewrite <- Em in Hk, Hd.
  destruct (round_exact (p + q) ez) as (m3 & e3 & Er & Hv & Ex); [unfold SCALE; lia | lia | exact Hd |].
  exists m3, e3. split; [exact Er|]. split; [exact Hv|]. rewrite Ex, Em. apply int_exact; unfold SCALE; lia.
Qed.
