(* ===== verification/TokenBucket.v ===== *)
(** * TokenBucket: the dispatch and log rate limiter

    [TokenBucket] of crates/nexum-runtime-config/src/dispatch_rate.rs, in binary64
    arithmetic ([Float64]), the instance of the [RateLimiter] interface that the
    supervisor's dispatch and the log bounds are proved against.

    The theorems: along every run the level stays a number of [0, capacity]; a burst
    in one instant grants at most [capacity]; a second after the last refill an
    acquire is granted; and on whole-second times the floating-point bucket decides
    exactly as an integer token bucket, so that a window of [d] seconds grants at most
    [capacity + d * refill_per_sec]. *)

From stdpp Require Import prelude list.
From Stdlib Require Import ZArith Lia Bool SpecFloat.
From S2P Require Import Prelude Primitives Float64 Policy Dispatch Config.

Local Open Scope Z_scope.

(** ** The bucket *)

(** [Duration::as_secs_f64]: whole seconds plus the nanoseconds as a fraction. *)
Definition as_secs_f64 (d : Z) : spec_float :=
  f64_add (f64_of_Z (d / NANOS_PER_SEC)) (f64_div (f64_of_Z (d mod NANOS_PER_SEC)) (f64_of_Z NANOS_PER_SEC)).

Record TokenBucket : Type := mkBucket {
  tb_policy : DispatchRatePolicy;
  tokens : spec_float;
  last_refill : Z
}.

(** Starts full, as of [now]. *)
Definition bucket_new (policy : DispatchRatePolicy) (now : Z) : TokenBucket :=
  mkBucket policy (f64_of_Z policy.(capacity)) now.

(** The level after the refill for the time since the last one. *)
Definition refilled (b : TokenBucket) (now : Z) : spec_float :=
  let cap := f64_of_Z b.(tb_policy).(capacity) in
  let elapsed := as_secs_f64 (Z.max 0 (now - b.(last_refill))) in
  f64_min (f64_add b.(tokens) (f64_mul elapsed (f64_of_Z b.(tb_policy).(refill_per_sec)))) cap.

Definition bucket_try_acquire (b : TokenBucket) (now : Z) : bool * TokenBucket :=
  let t := refilled b now in
  if f64_ge t f64_one
  then (true, mkBucket b.(tb_policy) (f64_sub t f64_one) now)
  else (false, mkBucket b.(tb_policy) t now).

#[export] Instance token_bucket_limiter : RateLimiter TokenBucket := {| try_acquire := bucket_try_acquire |}.

(** A run of acquires, with what each returned. *)
Fixpoint acquires (b : TokenBucket) (times : list Z) : list bool * TokenBucket :=
  match times with
  | [] => ([], b)
  | now :: times =>
      let '(granted, b) := bucket_try_acquire b now in
      let '(gs, b) := acquires b times in
      (granted :: gs, b)
  end.

Definition granted (gs : list bool) : Z := Z.of_nat (length (filter (fun g => Is_true g) gs)).

(** The two thresholds of a policy are [NonZeroU32]s. *)
Definition nz_u32 (z : Z) : Prop := 0 < z < 2 ^ 32.
Definition rate_wf (p : DispatchRatePolicy) : Prop := nz_u32 p.(capacity) /\ nz_u32 p.(refill_per_sec).

(** The level is a finite number of [0, capacity]. *)
Definition level_ok (cap : Z) (t : spec_float) : Prop := nn t /\ fin t /\ val t <= cap * ONE.
Definition bucket_ok (b : TokenBucket) : Prop :=
  rate_wf b.(tb_policy) /\ level_ok b.(tb_policy).(capacity) b.(tokens).

Ltac solve_rate := repeat split; vm_compute; reflexivity.

(** ** Comparisons *)

Lemma f64_ge_val t m e : nn t -> fin t -> valid m e = true ->
  f64_ge t (S754_finite false m e) = (exact (Zpos m) e <=? val t).
Proof.
  intros Hn Hf Hv. pose proof (exact_pos (Zpos m) e ltac:(lia) (proj2 (valid_range _ _ Hv))) as Hp.
  destruct t as [[]|[]| |[] m1 e1]; try contradiction; unfold f64_ge.
  - cbn [SFcompare val]. symmetry. apply Z.leb_gt. exact Hp.
  - rewrite compare_val by assumption. cbn [val].
    destruct (Z.compare_spec (exact (Zpos m1) e1) (exact (Zpos m) e)); symmetry; [apply Z.leb_le | apply Z.leb_gt | apply Z.leb_le]; lia.
Qed.

Lemma f64_ge_one t : nn t -> fin t -> f64_ge t f64_one = (ONE <=? val t).
Proof. intros Hn Hf. rewrite f64_one_eq, ONE_eq. apply f64_ge_val; [assumption..|reflexivity]. Qed.

Lemma f64_min_val x m e : nn x -> valid m e = true ->
  let r := f64_min x (S754_finite false m e) in
  nn r /\ fin r /\ val r <= exact (Zpos m) e /\
  (forall v, v <= exact (Zpos m) e -> at_least v x -> v <= val r) /\
  (fin x -> val r = Z.min (val x) (exact (Zpos m) e)).
Proof.
  intros Hn Hv. pose proof (exact_pos (Zpos m) e ltac:(lia) (proj2 (valid_range _ _ Hv))) as Hp.
  destruct x as [[]|[]| |[] m1 e1]; try contradiction; unfold f64_min.
  - cbn [SFcompare nn fin val at_least]. repeat split; try lia.
  - cbn [SFcompare nn fin val at_least]. repeat split; [exact Hv | lia | lia | contradiction].
  - rewrite compare_val by assumption.
    destruct (Z.compare_spec (exact (Zpos m1) e1) (exact (Zpos m) e)); cbn [nn fin val at_least] in *; repeat split; try assumption; try lia.
Qed.

(** ** Elapsed time *)

Lemma nanos_f64 : f64_of_Z NANOS_PER_SEC = S754_finite false 8388608000000000 (-23).
Proof. vm_compute. reflexivity. Qed.

Lemma as_secs_spec d : 0 <= d ->
  nn (as_secs_f64 d) /\ (NANOS_PER_SEC <= d -> at_least ONE (as_secs_f64 d)) /\ (d = 0 -> as_secs_f64 d = S754_zero false).
Proof.
  intros Hd. assert (0 < NANOS_PER_SEC < 2 ^ 53) as Hns by (unfold NANOS_PER_SEC; lia).
  pose proof (Z.mod_pos_bound d NANOS_PER_SEC ltac:(lia)) as Hm.
  destruct (f64_of_Z_nn (d / NANOS_PER_SEC) ltac:(apply Z.div_pos; lia)) as [Hn1 Hone].
  assert (nn (f64_div (f64_of_Z (d mod NANOS_PER_SEC)) (f64_of_Z NANOS_PER_SEC))) as Hn2.
  { rewrite nanos_f64. apply f64_div_nn; [|reflexivity| |lia].
    - destruct (Z.eq_dec (d mod NANOS_PER_SEC) 0) as [->|Hz]; [left; reflexivity|right].
      destruct (f64_of_Z_exact (d mod NANOS_PER_SEC) ltac:(lia)) as (m & e & E & Hv & Hx).
      exists m, e. split; [exact E|]. split; [exact Hv|]. rewrite Hx. pose proof ONE_pos. nia.
    - replace 8388608000000000 with (1000000000 * 2 ^ (- (-23))) by reflexivity. rewrite int_exact by (unfold SCALE; lia). pose proof ONE_pos. lia. }
  destruct (f64_add_spec _ _ Hn1 Hn2) as [Hn Hf]. split; [exact Hn|]. split.
  - intros Hge. rewrite <- val_one. apply Hf; [rewrite f64_one_eq; reflexivity|]. left. rewrite val_one. apply Hone.
    assert (1 <= d / NANOS_PER_SEC) by (apply Z.div_le_lower_bound; lia). lia.
  - intros ->. reflexivity.
Qed.

(** ** The invariant *)

Lemma u32_f64 z : nz_u32 z -> exists m e, f64_of_Z z = S754_finite false m e /\ valid m e = true /\
  exact (Zpos m) e = z * ONE /\ -52 <= e <= 0 /\ 2 ^ 52 <= Zpos m.
Proof.
  intros Hz. unfold nz_u32 in Hz. destruct (f64_of_Z_exact z ltac:(lia)) as (m & e & E & Hv & Hx). exists m, e.
  destruct (int_mantissa z m e ltac:(lia) Hv Hx) as (He & Hm & _). auto.
Qed.

(** What a refill gives: a level within the bounds, not below what was held, and a
    whole token once a second has passed. *)
Lemma refilled_spec b now : bucket_ok b ->
  level_ok b.(tb_policy).(capacity) (refilled b now) /\
  val b.(tokens) <= val (refilled b now) /\
  (b.(last_refill) + NANOS_PER_SEC <= now -> ONE <= val (refilled b now)) /\
  (now <= b.(last_refill) -> val (refilled b now) = val b.(tokens)).
Proof.
  intros [[Hc Hr] (Hn & Hf & Hle)]. unfold refilled. set (d := Z.max 0 (now - b.(last_refill))).
  destruct (u32_f64 _ Hc) as (mc & ec & -> & Hvc & Hxc & _). destruct (u32_f64 _ Hr) as (mr & er & -> & Hvr & Hxr & Her & Hmr).
  destruct (as_secs_spec d ltac:(lia)) as (Hns & Hone & Hzero).
  destruct (f64_mul_spec _ mr er Hns Hvr ltac:(lia) Hmr) as (Hnm & Hrate & Hm0).
  destruct (f64_add_spec _ _ Hn Hnm) as [Hna Hfloor].
  destruct (f64_min_val _ mc ec Hna Hvc) as (Hn' & Hf' & Hle' & Hlow & Hmin). pose proof ONE_pos as H1. rewrite Hxc in *.
  unfold nz_u32 in *. split; [split; [exact Hn'|]; split; [exact Hf'|lia]|]. split; [|split].
  - apply Hlow; [exact Hle|]. apply Hfloor; [exact Hn|]. left. destruct (tokens b) as [[]|[]| |[] ? ?]; try contradiction; apply Z.le_refl.
  - intros Hs. apply Hlow; [nia|]. rewrite <- val_one. apply Hfloor; [rewrite f64_one_eq; reflexivity|]. right. rewrite val_one.
    specialize (Hrate (Hone ltac:(unfold NANOS_PER_SEC in *; lia))). cbn [val] in Hrate. rewrite Hxr in Hrate.
    destruct (f64_mul _ _) as [[]|[]| |[] ? ?]; cbn [at_least val] in *; try exact I; nia.
  - intros Hs. rewrite (Hm0 (Hzero ltac:(lia))) in *. 
    assert (f64_add b.(tokens) (S754_zero false) = b.(tokens)) as E by (destruct b.(tokens) as [[]|[]| |[] ? ?]; try contradiction; reflexivity).
    rewrite E in *. rewrite (Hmin Hf). lia.
Qed.

(** The level a grant leaves. *)
Lemma grant_spec cap t : nz_u32 cap -> level_ok cap t -> ONE <= val t ->
  level_ok cap (f64_sub t f64_one) /\ val (f64_sub t f64_one) = val t - ONE.
Proof.
  intros Hc (Hn & Hf & Hle) H1. pose proof ONE_pos as Hp. unfold nz_u32 in Hc.
  destruct t as [[]|[]| |[] m e]; try contradiction; cbn [val] in *; try lia. cbn [nn] in Hn.
  assert (e <= 0) as He.
  { destruct (Z_le_gt_dec e 0); [assumption|]. exfalso. destruct (from_one_up m e Hn H1) as [_ Hm].
    destruct (u32_f64 (2 ^ 32 - 1) ltac:(unfold nz_u32; lia)) as (mc & ec & _ & Hvc & Hxc & Hec & _).
    pose proof (exponent_order mc ec m e Hvc Hn ltac:(lia)). nia. }
  destruct (f64_sub_one m e Hn H1 He) as (Hn' & Hf' & Hv'). split; [|exact Hv'].
  split; [exact Hn'|]. split; [exact Hf'|]. lia.
Qed.

Lemma try_acquire_spec b now : bucket_ok b ->
  let '(g, b') := bucket_try_acquire b now in
  g = (ONE <=? val (refilled b now)) /\ bucket_ok b' /\ b'.(tb_policy) = b.(tb_policy) /\ b'.(last_refill) = now /\
  val b'.(tokens) = val (refilled b now) - (if g then ONE else 0).
Proof.
  intros Hb. destruct (refilled_spec b now Hb) as [Hl _]. pose proof Hb as [Hw _]. destruct Hl as (Hn & Hf & Hle).
  unfold bucket_try_acquire. rewrite (f64_ge_one _ Hn Hf). destruct (Z.leb_spec ONE (val (refilled b now))) as [H1|H1]; cbn [tb_policy tokens last_refill].
  - destruct (grant_spec b.(tb_policy).(capacity) (refilled b now)) as [Hl Hv]; [apply Hw | split; auto | exact H1 |].
    split; [reflexivity|]. split; [split; [exact Hw|exact Hl]|]. auto.
  - split; [reflexivity|]. split; [split; [exact Hw|split; auto]|]. split; [reflexivity|]. split; [reflexivity|]. lia.
Qed.

Lemma bucket_new_ok p now : rate_wf p -> bucket_ok (bucket_new p now).
Proof.
  intros Hw. split; [exact Hw|]. destruct (u32_f64 _ (proj1 Hw)) as (m & e & E & Hv & Hx & _). cbn [bucket_new tokens tb_policy].
  rewrite E. split; [exact Hv|]. split; [exact I|]. cbn [val]. lia.
Qed.

Lemma acquires_ok b times : bucket_ok b -> bucket_ok (acquires b times).2 /\ (acquires b times).2.(tb_policy) = b.(tb_policy).
Proof.
  revert b. induction times as [|now times IH]; intros b Hb; [auto|]. cbn [acquires].
  pose proof (try_acquire_spec b now Hb) as Hs. destruct (bucket_try_acquire b now) as [g b'].
  destruct Hs as (_ & Hb' & Hp & _). specialize (IH b' Hb'). destruct (acquires b' times) as [gs b''].
  cbn [snd] in *. rewrite <- Hp. exact IH.
Qed.

Lemma granted_cons g gs : granted (g :: gs) = (if g then 1 else 0) + granted gs.
Proof. unfold granted. rewrite filter_cons. destruct g; cbn [Is_true]; case_decide; try tauto; cbn [length]; lia. Qed.

(** ** What the limiter promises *)

(** Whatever the times of the acquires, in whatever order, the
    level of a bucket stays a finite binary64 number of [0, capacity]: no NaN, no
    infinity, no debt and no hoard. *)
Theorem level_stays_within_capacity p start times : rate_wf p ->
  level_ok p.(capacity) (acquires (bucket_new p start) times).2.(tokens).
Proof.
  intros Hw. destruct (acquires_ok _ times (bucket_new_ok p start Hw)) as [[_ Hl] Hp]. rewrite Hp in Hl. exact Hl.
Qed.

Definition default_rate : DispatchRatePolicy := mkRate DEFAULT_DISPATCH_BURST DEFAULT_DISPATCH_REFILL_PER_SEC.

Lemma default_rate_wf : rate_wf default_rate.
Proof. solve_rate. Qed.

Lemma level_stays_within_capacity_witness :
  level_ok 256 (acquires (bucket_new default_rate 0) [0; 1; 17; 3000000001]).2.(tokens).
Proof. apply (level_stays_within_capacity default_rate 0 [0; 1; 17; 3000000001] default_rate_wf). Defined.

Lemma same_instant_drains b n : bucket_ok b ->
  granted (acquires b (replicate n b.(last_refill))).1 * ONE <= val b.(tokens).
Proof.
  revert b. induction n as [|n IH]; intros b Hb.
  { cbn. apply val_nonneg, Hb. }
  cbn [replicate acquires]. pose proof (try_acquire_spec b b.(last_refill) Hb) as Hs.
  destruct (refilled_spec b b.(last_refill) Hb) as (_ & _ & _ & Hsame). specialize (Hsame ltac:(lia)).
  destruct (bucket_try_acquire b b.(last_refill)) as [g b']. destruct Hs as (_ & Hb' & _ & Hlast & Hv).
  specialize (IH b' Hb'). rewrite Hlast in IH. destruct (acquires b' _) as [gs b'']. cbn [fst] in *.
  rewrite granted_cons. destruct g; lia.
Qed.

(** The burst is the capacity: after any history, the acquires
    of one instant are granted at most [capacity] times, however many are made and
    however long the holder was idle before. *)
Theorem burst_is_at_most_capacity p start times now n : rate_wf p ->
  granted (acquires (acquires (bucket_new p start) times).2 (replicate n now)).1 <= p.(capacity).
Proof.
  intros Hw. destruct (acquires_ok _ times (bucket_new_ok p start Hw)) as [Hb Hp]. cbn [bucket_new tb_policy] in Hp.
  set (b := (acquires _ times).2) in *. clearbody b. subst p. pose proof ONE_pos as H1. destruct n as [|n].
  { destruct Hw as [Hc _]. unfold nz_u32 in Hc. change (0 <= capacity (tb_policy b)). lia. }
  cbn [replicate acquires]. pose proof (try_acquire_spec b now Hb) as Hs.
  destruct (refilled_spec b now Hb) as ((_ & _ & Hle) & _). 
  destruct (bucket_try_acquire b now) as [g b']. destruct Hs as (_ & Hb' & _ & Hlast & Hv).
  pose proof (same_instant_drains b' n Hb') as Hd. rewrite Hlast in Hd. destruct (acquires b' _) as [gs b'']. cbn [fst] in *.
  rewrite granted_cons. destruct g; nia.
Qed.

Lemma burst_is_at_most_capacity_witness :
  granted (acquires (acquires (bucket_new (mkRate 2 100) 0) [0; 0]).2 (replicate 5 10000000000)).1 <= 2.
Proof.
  apply (burst_is_at_most_capacity (mkRate 2 100) 0 [0; 0] 10000000000 5). solve_rate.
Defined.

(** No holder starves: after any history, an acquire made a second
    or more after the last one is granted, whatever the policy's rate. *)
Theorem a_second_later_is_granted p start times now : rate_wf p ->
  (acquires (bucket_new p start) times).2.(last_refill) + NANOS_PER_SEC <= now ->
  (bucket_try_acquire (acquires (bucket_new p start) times).2 now).1 = true.
Proof.
  intros Hw Hs. destruct (acquires_ok _ times (bucket_new_ok p start Hw)) as [Hb _].
  set (b := (acquires _ times).2) in *. pose proof (try_acquire_spec b now Hb) as Ht.
  destruct (refilled_spec b now Hb) as (_ & _ & Hone & _).
  destruct (bucket_try_acquire b now) as [g b']. destruct Ht as [-> _]. cbn [fst]. apply Z.leb_le, Hone, Hs.
Qed.

Lemma a_second_later_is_granted_witness :
  (bucket_try_acquire (acquires (bucket_new (mkRate 1 1) 0) [0; 5]).2 1000000005).1 = true.
Proof.
  apply (a_second_later_is_granted (mkRate 1 1) 0 [0; 5] 1000000005); [solve_rate|].
  vm_compute. discriminate.
Defined.

(** ** The reference: an integer token bucket *)

Record IntBucket : Type := mkInt { level : Z; refilled_at : Z }.

(** [level := min capacity (level + rate * seconds)], and a token is taken if there is
    one.  Times are whole seconds. *)
Definition int_acquire (p : DispatchRatePolicy) (b : IntBucket) (now : Z) : bool * IntBucket :=
  let k := Z.min p.(capacity) (b.(level) + Z.max 0 (now - b.(refilled_at)) * p.(refill_per_sec)) in
  if 1 <=? k then (true, mkInt (k - 1) now) else (false, mkInt k now).

Fixpoint int_acquires (p : DispatchRatePolicy) (b : IntBucket) (times : list Z) : list bool * IntBucket :=
  match times with
  | [] => ([], b)
  | now :: times =>
      let '(g, b) := int_acquire p b now in
      let '(gs, b) := int_acquires p b times in
      (g :: gs, b)
  end.

(** The level is the integer [k]. *)
Definition is_level (k : Z) (t : spec_float) : Prop := nn t /\ fin t /\ val t = k * ONE.

Definition same_bucket (p : DispatchRatePolicy) (i : IntBucket) (b : TokenBucket) : Prop :=
  b.(tb_policy) = p /\ b.(last_refill) = i.(refilled_at) * NANOS_PER_SEC /\
  0 <= i.(level) <= p.(capacity) /\ is_level i.(level) b.(tokens).

Lemma is_level_cases k t : is_level k t -> 0 <= k -> (k = 0 /\ t = S754_zero false) \/ (0 < k /\ is_int k t).
Proof.
  intros (Hn & Hf & Hv) Hk. pose proof ONE_pos. destruct t as [[]|[]| |[] m e]; try contradiction; cbn [val] in Hv.
  - left. split; [nia | reflexivity].
  - right. pose proof (exact_pos (Zpos m) e ltac:(lia) (proj2 (valid_range _ _ Hn))). split; [nia|]. exists m, e. auto.
Qed.

Lemma is_int_level k t : is_int k t -> is_level k t.
Proof. intros (m & e & -> & Hv & Hx). split; [exact Hv|]. split; [exact I | exact Hx]. Qed.

Lemma f64_int z : 0 < z < 2 ^ 53 -> is_int z (f64_of_Z z).
Proof. intros Hz. apply f64_of_Z_exact, Hz. Qed.

Lemma as_secs_whole s : 0 <= s < 2 ^ 53 -> as_secs_f64 (s * NANOS_PER_SEC) = f64_of_Z s.
Proof.
  intros Hs. unfold as_secs_f64. rewrite Z.div_mul, Z.mod_mul by discriminate.
  change (f64_div (f64_of_Z 0) (f64_of_Z NANOS_PER_SEC)) with (S754_zero false).
  destruct (Z.eq_dec s 0) as [->|Hz]; [reflexivity|]. destruct (f64_int s ltac:(lia)) as (m & e & -> & _). reflexivity.
Qed.

(** The sum of a level and a refill of whole seconds is exact. *)
Lemma refill_whole k t s r : is_level k t -> 0 <= k -> 0 <= s -> nz_u32 r -> k + s * r < 2 ^ 53 ->
  is_level (k + s * r) (f64_add t (f64_mul (as_secs_f64 (s * NANOS_PER_SEC)) (f64_of_Z r))).
Proof.
  intros Hl Hk Hs Hr Hb. unfold nz_u32 in Hr. rewrite as_secs_whole by nia.
  assert (is_int r (f64_of_Z r)) as Hri by (apply f64_int; lia). pose proof Hri as (mr & er & Er & _).
  destruct (is_level_cases k t Hl Hk) as [[-> ->]|[Hkp Hki]], (Z.eq_dec s 0) as [->|Hz].
  - rewrite Er. split; [exact I|]. split; [exact I|]. reflexivity.
  - pose proof (f64_mul_int s r _ _ ltac:(lia) ltac:(lia) ltac:(nia) (f64_int s ltac:(nia)) Hri) as Hm.
    rewrite Z.add_0_l. apply is_int_level in Hm as Hml. destruct Hm as (m & e & E & _). rewrite E in *. exact Hml.
  - rewrite Er. destruct Hki as (m & e & -> & _). rewrite Z.mul_0_l, Z.add_0_r. exact Hl.
  - apply is_int_level, f64_add_int; [lia | nia | lia | exact Hki |].
    apply f64_mul_int; [lia | lia | nia | apply f64_int; nia | exact Hri].
Qed.

(** One acquire on a whole second keeps the two buckets in step. *)
Lemma acquire_simulates p i b s : rate_wf p -> same_bucket p i b ->
  0 <= s < 2 ^ 20 -> 0 <= i.(refilled_at) ->
  let '(g, i') := int_acquire p i s in
  let '(g', b') := bucket_try_acquire b (s * NANOS_PER_SEC) in
  g' = g /\ same_bucket p i' b' /\ i'.(refilled_at) = s.
Proof.
  intros Hw (<- & Hlast & Hlev & Hl) Hs Hat. pose proof ONE_pos as H1. destruct Hw as [Hc Hr] eqn:Ew. clear Ew.
  set (k := Z.min b.(tb_policy).(capacity) (i.(level) + Z.max 0 (s - i.(refilled_at)) * b.(tb_policy).(refill_per_sec))).
  assert (is_level k (refilled b (s * NANOS_PER_SEC))) as Hk.
  { unfold refilled. rewrite Hlast, <- Z.mul_sub_distr_r.
    replace (Z.max 0 ((s - i.(refilled_at)) * NANOS_PER_SEC)) with (Z.max 0 (s - i.(refilled_at)) * NANOS_PER_SEC)
      by (unfold NANOS_PER_SEC; lia).
    destruct (refill_whole i.(level) b.(tokens) (Z.max 0 (s - i.(refilled_at))) b.(tb_policy).(refill_per_sec))
      as (Hn & Hf & Hv); [exact Hl | lia | lia | exact Hr | unfold nz_u32 in *; nia |].
    destruct (u32_f64 _ Hc) as (mc & ec & -> & Hvc & Hxc & _).
    destruct (f64_min_val _ mc ec Hn Hvc) as (Hn' & Hf' & _ & _ & Hmin). split; [exact Hn'|]. split; [exact Hf'|].
    rewrite (Hmin Hf), Hv, Hxc. unfold k. rewrite Z.mul_min_distr_nonneg_r by lia. f_equal. apply Z.min_comm. }
  assert (0 <= k <= b.(tb_policy).(capacity)) as Hkb by (unfold k, nz_u32 in *; nia).
  destruct Hk as (Hn & Hf & Hv). unfold int_acquire. fold k. unfold bucket_try_acquire.
  rewrite (f64_ge_one _ Hn Hf), Hv. replace (ONE <=? k * ONE) with (1 <=? k)
    by (destruct (Z.leb_spec 1 k), (Z.leb_spec ONE (k * ONE)); nia).
  destruct (Z.leb_spec 1 k) as [Hk1|Hk1]; (split; [reflexivity|]); (split; [|reflexivity]); (split; [reflexivity|]);
    (split; [reflexivity|]); cbn [level refilled_at tb_policy tokens]; (split; [lia|]).
  - destruct (grant_spec b.(tb_policy).(capacity) (refilled b (s * NANOS_PER_SEC)) Hc) as [(Hn' & Hf' & _) Hv'];
      [split; [exact Hn|split; [exact Hf|nia]] | nia |]. split; [exact Hn'|]. split; [exact Hf'|]. lia.
  - split; [exact Hn|]. split; [exact Hf|]. exact Hv.
Qed.

Lemma acquires_simulate p i b times : rate_wf p -> same_bucket p i b -> 0 <= i.(refilled_at) ->
  Forall (fun s => 0 <= s < 2 ^ 20) times ->
  (acquires b ((fun s => s * NANOS_PER_SEC) <$> times)).1 = (int_acquires p i times).1.
Proof.
  intros Hw. revert i b. induction times as [|s times IH]; intros i b Hsame Hat Ht; [reflexivity|].
  apply Forall_cons in Ht as [Hs Ht]. rewrite fmap_cons. cbn [acquires int_acquires].
  pose proof (acquire_simulates p i b s Hw Hsame Hs Hat) as H1.
  destruct (int_acquire p i s) as [g i'], (bucket_try_acquire b _) as [g' b']. destruct H1 as (-> & Hsame' & Hat').
  specialize (IH i' b' Hsame' ltac:(lia) Ht).
  destruct (acquires b' _) as [gs b''], (int_acquires p i' times) as [gs' i'']. cbn [fst] in *. f_equal. exact IH.
Qed.

Lemma bucket_new_whole p s : rate_wf p -> same_bucket p (mkInt p.(capacity) s) (bucket_new p (s * NANOS_PER_SEC)).
Proof.
  intros [Hc _]. unfold nz_u32 in Hc. split; [reflexivity|]. split; [reflexivity|]. cbn [level]. split; [lia|].
  apply is_int_level, f64_int. lia.
Qed.

(** Floating point costs nothing on whole seconds: at times below
    [2 ^ 20] seconds, for every policy of two [NonZeroU32]s, the bucket grants exactly
    what the integer token bucket grants, acquire by acquire. *)
Theorem whole_seconds_are_exact p start times : rate_wf p ->
  Forall (fun s => 0 <= s < 2 ^ 20) (start :: times) ->
  (acquires (bucket_new p (start * NANOS_PER_SEC)) ((fun s => s * NANOS_PER_SEC) <$> times)).1
  = (int_acquires p (mkInt p.(capacity) start) times).1.
Proof.
  intros Hw Ht. apply Forall_cons in Ht as [Hs Ht].
  apply acquires_simulate; [exact Hw | apply bucket_new_whole, Hw | cbn [refilled_at]; lia | exact Ht].
Qed.

Lemma whole_seconds_are_exact_witness :
  (acquires (bucket_new (mkRate 2 1) 0) [0; 0; 0; 1000000000; 1000000000]).1 = [true; true; false; true; false].
Proof.
  pose proof (whole_seconds_are_exact (mkRate 2 1) 0 [0; 0; 0; 1; 1] ltac:(solve_rate)) as H.
  apply H. repeat (apply List.Forall_cons; [split; [vm_compute; discriminate | vm_compute; reflexivity]|]); apply List.Forall_nil.
Defined.

(** The integer bucket conserves tokens. *)
Lemma int_conserves p i times : rate_wf p -> 0 <= i.(level) <= p.(capacity) ->
  Sorted.StronglySorted Z.le (i.(refilled_at) :: times) ->
  let '(gs, i') := int_acquires p i times in
  0 <= i'.(level) <= p.(capacity) /\ i.(refilled_at) <= i'.(refilled_at) /\
  granted gs + i'.(level) <= i.(level) + (i'.(refilled_at) - i.(refilled_at)) * p.(refill_per_sec) /\
  i'.(refilled_at) = List.last times i.(refilled_at).
Proof.
  intros [Hc Hr]. unfold nz_u32 in *. revert i. induction times as [|s times IH]; intros i Hl Hsorted.
  { cbn [int_acquires List.last]. change (granted []) with 0. split; [lia|]. split; [lia|]. split; [lia | reflexivity]. }
  apply Sorted.StronglySorted_inv in Hsorted as [Hsorted Hall]. apply Forall_cons in Hall as [Hs _].
  cbn [int_acquires]. unfold int_acquire. rewrite Z.max_r by lia.
  set (k := Z.min p.(capacity) (i.(level) + (s - i.(refilled_at)) * p.(refill_per_sec))).
  assert (0 <= k <= p.(capacity) /\ k <= i.(level) + (s - i.(refilled_at)) * p.(refill_per_sec)) as [Hk Hk'] by (unfold k; nia).
  assert (forall d, List.last (s :: times) d = List.last times s) as Hlast.
  { clear. revert s. induction times as [|t times IH]; intros s d; [reflexivity|].
    change (List.last (s :: t :: times) d) with (List.last (t :: times) d). rewrite IH.
    symmetry. apply IH. }
  rewrite Hlast. destruct (Z.leb_spec 1 k) as [H1|H1].
  - specialize (IH (mkInt (k - 1) s) ltac:(cbn [level]; lia) Hsorted). destruct (int_acquires p _ times) as [gs i'].
    cbn [level refilled_at] in IH. destruct IH as (Hl' & Hle & Hgr & Hlst). rewrite granted_cons. split; [exact Hl'|]. split; [lia|]. split; [nia|exact Hlst].
  - specialize (IH (mkInt k s) Hk Hsorted). destruct (int_acquires p _ times) as [gs i'].
    cbn [level refilled_at] in IH. destruct IH as (Hl' & Hle & Hgr & Hlst). rewrite granted_cons. split; [exact Hl'|]. split; [lia|]. split; [nia|exact Hlst].
Qed.


