(* ===== verification/RunStore.v ===== *)
(** * RunStore: the store of one run, and what a guest can do in it

    [StoreSpec], [fresh_run_store] and [build] of supervisor/store.rs, [HostState] of
    crates/nexum-runtime-wasm/src/state.rs, the [Seed] a module is loaded with
    (supervisor/load.rs) and [revive] (supervisor/lifecycle.rs), which builds the store
    of every later run from the same seed.  The host calls a guest makes act on that
    state through the gates of the other files: the HTTP gate, the log bounds and the
    stdio capture, the store handle, the memory limiter.

    The theorems: whatever its manifest asks for, however often it is restarted and
    whatever it calls, a module stays within the operator's policy; and a restart that
    fails leaves the module as it was. *)

From stdpp Require Import prelude list gmap strings.
From Stdlib Require Import ZArith Lia SpecFloat.
From S2P Require Import Prelude Primitives Lifecycle StoreApi LocalStore LocalStoreSafety Dispatch Policy Admission IpAddr HttpGate Logs LogGate HostGlue Config Float64 TokenBucket.

Local Open Scope Z_scope.

#[local] Arguments chars_of : simpl never.

(** ** Specifications *)

Record StoreSpec (N : Type) : Type := mkStoreSpec {
  sp_http_allowlist : list HostPattern.HostPattern;
  sp_http_operator_allow : option (list HostPattern.HostPattern);
  sp_http_limits : OutboundHttpLimits;
  sp_http_permitted : list IpAddr;
  sp_http_denied : list N;
  sp_memory_limit : Z;
  sp_fuel : Z;
  sp_chain_response_max_bytes : Z;
  sp_state_quota : Z;
  sp_log_bounds : LogBoundsPolicy;
  sp_log_filter : LogFilterPolicy
}.
Arguments mkStoreSpec {N} _ _ _ _ _ _ _ _ _ _ _.
Arguments sp_http_allowlist {N} _.
Arguments sp_http_operator_allow {N} _.
Arguments sp_http_limits {N} _.
Arguments sp_http_permitted {N} _.
Arguments sp_http_denied {N} _.
Arguments sp_memory_limit {N} _.
Arguments sp_fuel {N} _.
Arguments sp_chain_response_max_bytes {N} _.
Arguments sp_state_quota {N} _.
Arguments sp_log_bounds {N} _.
Arguments sp_log_filter {N} _.

Section Specs.
Context {U N : Type}.

(** The [StoreSpec] of [load::module]. *)
Definition store_spec (cfg : FullConfig U N) (id : text) (m : LoadedManifest) (resolved : ResolvedLimits) : StoreSpec N :=
  let effective := for_component cfg.(fc_policy) id in
  mkStoreSpec m.(man_http_allowlist) effective.(eff_http_allow) cfg.(fc_limits).(rl_http)
    cfg.(fc_limits).(http_permit_destinations) cfg.(fc_http_deny) resolved.(lim_memory) resolved.(lim_fuel)
    cfg.(fc_limits).(chain_response_max_bytes) resolved.(lim_state_bytes)
    effective.(eff_ceilings).(log_bounds) effective.(eff_log_filter).

(** The cached component, its digest and its init configuration. *)
Record CachedArtifact (C : Type) : Type := mkArtifact {
  art_component : C;
  art_digest : list Z;
  art_init_config : list (text * text)
}.

Record Seed (C : Type) : Type := mkSeed {
  seed_artifact : CachedArtifact C;
  seed_spec : StoreSpec N;
  seed_dispatch_deadline : Z
}.

(** The seed of [load::module], from the verified component. *)
Definition module_seed {C} (cfg : FullConfig U N) (id : text) (m : LoadedManifest) (resolved : ResolvedLimits)
    (component : C) (digest : list Z) : Seed C :=
  mkSeed C (mkArtifact C component digest (default_init_config m.(man_config) m.(man_name)))
    (store_spec cfg id m resolved) cfg.(fc_limits).(dispatch_deadline).
End Specs.
Arguments art_component {C} _.
Arguments art_digest {C} _.
Arguments art_init_config {C} _.
Arguments seed_artifact {N C} _.
Arguments seed_spec {N C} _.
Arguments seed_dispatch_deadline {N C} _.

(** ** Stores *)

(** [SharedLogBounds::new]. *)
Definition log_bounds_new (policy : LogBoundsPolicy) (now : Z) : LogBounds (B := TokenBucket) :=
  mkBounds policy (bucket_new policy.(rate) now).

(** The capture point of one channel; [is_terminal] is [false]. *)
Record StdioStream : Type := mkStdio { ss_filter : LogFilterPolicy; ss_run : RunId; ss_channel : LogChannel }.

(** [async_stream]: each opened stream is a writer of its own, with nothing buffered. *)
Definition async_stream (s : StdioStream) : LineWriter := mkWriter s.(ss_filter) s.(ss_run) s.(ss_channel) [].

Section Stores.
(** [IpNet::contains] and [HeaderValue::from_str]; the clocks an embedder installs. *)
Context {N Clk W : Type} (net_contains : N -> IpAddr -> bool) (header_value_ok : text -> bool) `{Net W}.
(** wasmtime's [StoreLimits]: its builder's [memory_size] and its answer to a growth
    request. *)
Context {L Er : Type} (memory_size : Z -> L) (inner_growing : L -> Z -> Z -> option Z -> result bool Er * L).
(** [Store::set_fuel], which fails on an engine without fuel. *)
Context (set_fuel_ok : Z -> bool).
Context {T : Type} `{OrderedTable T} (keccak256 : list Z -> list Z).
Context (float_text : Z -> text) {K : Type} (tick : K -> Z * Z * K).

(** No environment, no arguments and no preopened directory: the two captured streams
    and the clocks, when they are overridden. *)
Record WasiCtx : Type := mkWasi {
  wasi_stdout : StdioStream;
  wasi_stderr : StdioStream;
  wasi_clocks : option Clk
}.

(** The table holds the output streams the guest opened; a dropped one leaves its
    slot.  The log router, the chain pool and the database are the runtime's, shared by
    every store ([Runtime] below). *)
Record HostState : Type := mkHostState {
  hs_wasi : WasiCtx;
  hs_table : list (option LineWriter);
  hs_limits : ObservedLimits (L := L);
  hs_http_gate : HttpGate (N := N);
  hs_run : RunId;
  hs_log_bounds : LogBounds (B := TokenBucket);
  hs_log_filter : LogFilterPolicy;
  hs_chain_response_max_bytes : Z;
  hs_store : ModuleStore
}.

(** A wasmtime [Store]: its state and its fuel. *)
Record HostStore : Type := mkHostStore { st_state : HostState; st_fuel : Z }.

(** What the stores share, and what left through the gates. *)
Record Runtime : Type := mkRuntime {
  rt_router : LogRouter;
  rt_db : LocalStore T;
  rt_clock : K;
  rt_log_events : list LogEv;
  rt_http : list HttpEv
}.

Inductive StoreRefusal : Type := NamespaceRefused (e : StorageError) | FuelRefused.

(** [build]; [now] is [Instant::now]. *)
Definition build_store (clocks : option Clk) (spec : StoreSpec N) (run : RunId) (now : Z) : result HostStore StoreRefusal :=
  let namespace := run.(run_module) in
  let bounds := log_bounds_new spec.(sp_log_bounds) now in
  let filter := spec.(sp_log_filter) in
  let wasi := mkWasi (mkStdio filter run Stdout) (mkStdio filter run Stderr) clocks in
  let limits := observed_new (memory_size spec.(sp_memory_limit)) in
  match ls_module keccak256 namespace with
  | Err e => Err (NamespaceRefused e)
  | Ok handle =>
      let state :=
        mkHostState wasi [] limits
          (mkGate namespace spec.(sp_http_allowlist) spec.(sp_http_operator_allow) spec.(sp_http_limits)
             spec.(sp_http_permitted) spec.(sp_http_denied))
          run bounds filter spec.(sp_chain_response_max_bytes) (with_quota handle spec.(sp_state_quota)) in
      if set_fuel_ok spec.(sp_fuel) then Ok (mkHostStore state spec.(sp_fuel)) else Err FuelRefused
  end.

(** [fresh_run_store]; [started] is [SystemTime::now]. *)
Definition fresh_run_store (clocks : option Clk) (name : text) (seq : Z) (spec : StoreSpec N) (started now : Z)
    : result (RunId * HostStore) StoreRefusal :=
  let run := mkRunId name seq started in
  match build_store clocks spec run now with
  | Err e => Err e
  | Ok store => Ok (run, store)
  end.

(** ** Host calls *)

Inductive GuestOp : Type :=
| OHttp (net : W) (request : Request) (options : option RequestOptions)
| OLog (call : GuestLog)
| OOpen (channel_is_stderr : bool)
| OWrite (stream : nat) (data : list Z)
| OClose (stream : nat)
| OSet (f : TxnFaults) (key : text) (value : list Z)
| ODelete (f : TxnFaults) (key : text)
| OApply (f : TxnFaults) (ops : list WriteOp)
| OGrow (current desired : Z) (maximum : option Z).

Definition with_wasi_table (st : HostState) (table : list (option LineWriter)) : HostState :=
  mkHostState st.(hs_wasi) table st.(hs_limits) st.(hs_http_gate) st.(hs_run) st.(hs_log_bounds) st.(hs_log_filter)
    st.(hs_chain_response_max_bytes) st.(hs_store).

Definition with_limits (st : HostState) (l : ObservedLimits (L := L)) : HostState :=
  mkHostState st.(hs_wasi) st.(hs_table) l st.(hs_http_gate) st.(hs_run) st.(hs_log_bounds) st.(hs_log_filter)
    st.(hs_chain_response_max_bytes) st.(hs_store).

Definition with_bounds (st : HostState) (b : LogBounds (B := TokenBucket)) : HostState :=
  mkHostState st.(hs_wasi) st.(hs_table) st.(hs_limits) st.(hs_http_gate) st.(hs_run) b st.(hs_log_filter)
    st.(hs_chain_response_max_bytes) st.(hs_store).

(** The shared bounds and router, as the capture points see them. *)
Definition sink_of_run (st : HostState) (rt : Runtime) : Sink (B := TokenBucket) (K := K) :=
  mkSink rt.(rt_router) st.(hs_log_bounds) rt.(rt_clock) rt.(rt_log_events).

Definition after_sink (st : HostState) (rt : Runtime) (s : Sink (B := TokenBucket) (K := K)) : HostState * Runtime :=
  (with_bounds st s.(sk_bounds),
   mkRuntime s.(sk_router) rt.(rt_db) s.(sk_clock) s.(sk_events) rt.(rt_http)).

Definition with_db (rt : Runtime) (db : LocalStore T) : Runtime :=
  mkRuntime rt.(rt_router) db rt.(rt_clock) rt.(rt_log_events) rt.(rt_http).

(** What a call answers. *)
Inductive Answer : Type :=
| ADone
| ANoStream
| AStream (stream : nat)
| AHttp (r : result (list Frame * CappedBody) HttpError)
| AStore (r : result unit StorageError)
| AGrow (r : result bool Er).

Definition host_call (st : HostState) (rt : Runtime) (op : GuestOp) : Answer * (HostState * Runtime) :=
  match op with
  | OHttp net request options =>
      let (res, evs) := send_request net_contains header_value_ok st.(hs_http_gate) net request options in
      (AHttp res, (st, mkRuntime rt.(rt_router) rt.(rt_db) rt.(rt_clock) rt.(rt_log_events) (rt.(rt_http) ++ evs)))
  | OLog call =>
      (ADone, after_sink st rt (host_log float_text tick st.(hs_log_filter) st.(hs_run) (sink_of_run st rt) call))
  | OOpen err =>
      let stream := if err : bool then st.(hs_wasi).(wasi_stderr) else st.(hs_wasi).(wasi_stdout) in
      (AStream (length st.(hs_table)), (with_wasi_table st (st.(hs_table) ++ [Some (async_stream stream)]), rt))
  | OWrite i data =>
      match st.(hs_table) !! i with
      | Some (Some w) =>
          let (w, s) := poll_write float_text tick w (sink_of_run st rt) data in
          (ADone, after_sink (with_wasi_table st (<[i := Some w]> st.(hs_table))) rt s)
      | _ => (ANoStream, (st, rt))
      end
  | OClose i =>
      match st.(hs_table) !! i with
      | Some (Some w) =>
          (ADone, after_sink (with_wasi_table st (<[i := None]> st.(hs_table))) rt (drop_writer float_text tick w (sink_of_run st rt)))
      | _ => (ANoStream, (st, rt))
      end
  | OSet f key value => let (r, db) := ms_set rt.(rt_db) st.(hs_store) f key value in (AStore r, (st, with_db rt db))
  | ODelete f key => let (r, db) := ms_delete rt.(rt_db) st.(hs_store) f key in (AStore r, (st, with_db rt db))
  | OApply f ops => let (r, db) := ms_apply rt.(rt_db) st.(hs_store) f ops in (AStore r, (st, with_db rt db))
  | OGrow current desired maximum =>
      let (r, l) := memory_growing inner_growing st.(hs_limits) current desired maximum in
      (AGrow r, (with_limits st l, rt))
  end.

Definition host_calls (ops : list GuestOp) (p : HostState * Runtime) : HostState * Runtime :=
  foldl (fun p op => (host_call p.1 p.2 op).2) p ops.

(** Dropping a store drops its open streams, each flushing its last line. *)
Definition drop_store (st : HostState) (rt : Runtime) : Runtime :=
  (foldl (fun p w => match w with
                     | Some w => after_sink p.1 p.2 (drop_writer float_text tick w (sink_of_run p.1 p.2))
                     | None => p
                     end) (st, rt) st.(hs_table)).2.

(** ** Instances and restarts *)

Context {C Bind F : Type}.
(** Instantiation with [init] under the deadline: [None] is a trap, a link failure or
    the deadline; the inner result is what the guest's [init] returned. *)
Context (instantiate : CachedArtifact C -> Z -> text -> HostStore -> Runtime ->
           option (Bind * result unit F) * (HostStore * Runtime)).

Record LiveInstance : Type := mkLive {
  lv_bindings : Bind;
  lv_store : HostStore;
  lv_run : RunId;
  lv_bucket : TokenBucket
}.

Record LoadedInstance : Type := mkInstance {
  li_name : text;
  li_live : LiveInstance;
  li_seed : Seed (N := N) C
}.

Inductive ReviveError : Type := LinkerRefused | StoreRefused (e : StoreRefusal) | InstantiateFailed | InitFault (e : F).

(** What a start meets: whether the linker builds, and the two clocks. *)
Record Attempt : Type := mkAttempt { at_linked : bool; at_started : Z; at_now : Z }.

(** [LoadedModule::revive]: bindings, store and run are replaced on success only, and
    the dispatch bucket is never replaced; whichever store is let go is dropped. *)
Definition revive (clocks : option Clk) (m : LoadedInstance) (rt : Runtime) (a : Attempt)
    : result unit ReviveError * (LoadedInstance * Runtime) :=
  if a.(at_linked) then
    match fresh_run_store clocks m.(li_name) (u64_wrap (m.(li_live).(lv_run).(run_seq) + 1)) m.(li_seed).(seed_spec)
            a.(at_started) a.(at_now) with
    | Err e => (Err (StoreRefused e), (m, rt))
    | Ok (run, store) =>
        match instantiate m.(li_seed).(seed_artifact) m.(li_seed).(seed_dispatch_deadline) m.(li_name) store rt with
        | (None, (store, rt)) => (Err InstantiateFailed, (m, drop_store store.(st_state) rt))
        | (Some (_, Err e), (store, rt)) => (Err (InitFault e), (m, drop_store store.(st_state) rt))
        | (Some (bindings, Ok _), (store, rt)) =>
            (Ok tt,
             (mkInstance m.(li_name) (mkLive bindings store run m.(li_live).(lv_bucket)) m.(li_seed),
              drop_store m.(li_live).(lv_store).(st_state) rt))
        end
    end
  else (Err LinkerRefused, (m, rt)).

(** The store and the run of [load::module]: the first run has sequence 0, and a
    guest's init fault loads the module dead. *)
Definition first_run (clocks : option Clk) (name : text) (seed : Seed (N := N) C) (dispatch : DispatchRatePolicy)
    (rt : Runtime) (a : Attempt) : result (LoadedInstance * bool) ReviveError * Runtime :=
  match fresh_run_store clocks name 0 seed.(seed_spec) a.(at_started) a.(at_now) with
  | Err e => (Err (StoreRefused e), rt)
  | Ok (run, store) =>
      match instantiate seed.(seed_artifact) seed.(seed_dispatch_deadline) name store rt with
      | (None, (store, rt)) => (Err InstantiateFailed, drop_store store.(st_state) rt)
      | (Some (bindings, init), (store, rt)) =>
          (Ok (mkInstance name (mkLive bindings store run (bucket_new dispatch a.(at_now))) seed,
               match init with Ok _ => true | Err _ => false end), rt)
      end
  end.

(** ** A module's life *)

(** Host calls of the guest, and restart attempts. *)
Inductive Act : Type := ACall (op : GuestOp) | ARevive (a : Attempt).

Definition act (clocks : option Clk) (p : LoadedInstance * Runtime) (x : Act) : LoadedInstance * Runtime :=
  let (m, rt) := p in
  match x with
  | ACall op =>
      let store := m.(li_live).(lv_store) in
      let '(_, (st, rt)) := host_call store.(st_state) rt op in
      (mkInstance m.(li_name)
         (mkLive m.(li_live).(lv_bindings) (mkHostStore st store.(st_fuel)) m.(li_live).(lv_run) m.(li_live).(lv_bucket))
         m.(li_seed), rt)
  | ARevive a => (revive clocks m rt a).2
  end.

Definition acts (clocks : option Clk) (xs : list Act) (p : LoadedInstance * Runtime) : LoadedInstance * Runtime :=
  foldl (act clocks) p xs.
End Stores.

(** ** Confinement *)

(** What [StoreLimits] promises: a builder's limit is the limiter's, growing never
    changes it, and no growth past it is allowed. *)
Class LimitsLaws {L Er : Type} (memory_size : Z -> L) (inner_growing : L -> Z -> Z -> option Z -> result bool Er * L) : Type := {
  limit_of : L -> Z;
  limit_built z : limit_of (memory_size z) = z;
  limit_kept l current desired maximum : limit_of (inner_growing l current desired maximum).2 = limit_of l;
  limit_holds l current desired maximum : (inner_growing l current desired maximum).1 = Ok true -> desired <= limit_of l
}.

Section Confinement.
Context {N Clk W : Type} (net_contains : N -> IpAddr -> bool) (header_value_ok : text -> bool) `{Net W}.
Context {L Er : Type} (memory_size : Z -> L) (inner_growing : L -> Z -> Z -> option Z -> result bool Er * L)
  `{LimitsLaws L Er memory_size inner_growing}.
Context (set_fuel_ok : Z -> bool).
Context {T : Type} `{OrderedTableLaws T} (keccak256 : list Z -> list Z).
Hypothesis keccak_length : forall x, length (keccak256 x) = 32%nat.
Context (float_text : Z -> text) {K : Type} (tick : K -> Z * Z * K).

Notation HostState := (@HostState N Clk L).
Notation Runtime := (@Runtime T K).
Notation host_call := (host_call net_contains header_value_ok inner_growing float_text tick (Clk := Clk)).
Notation host_calls := (host_calls net_contains header_value_ok inner_growing float_text tick (Clk := Clk)).
Notation drop_store := (drop_store float_text tick).

(** A record of the module, within the cap. *)
Definition owned (name : text) (cap : Z) (r : LogRecord) : Prop :=
  r.(rec_run).(run_module) = name /\ wire_bytes float_text r <= cap.

Definition spec_gate (name : text) (spec : StoreSpec N) : HttpGate (N := N) :=
  mkGate name spec.(sp_http_allowlist) spec.(sp_http_operator_allow) spec.(sp_http_limits)
    spec.(sp_http_permitted) spec.(sp_http_denied).

(** The state of a run is the specification's. *)
Record in_spec (name : text) (spec : StoreSpec N) (st : HostState) : Prop := mkInSpec {
  is_run : st.(hs_run).(run_module) = name;
  is_gate : st.(hs_http_gate) = spec_gate name spec;
  is_bounds : st.(hs_log_bounds).(bounds_policy) = spec.(sp_log_bounds);
  is_filter : st.(hs_log_filter) = spec.(sp_log_filter);
  is_chain : st.(hs_chain_response_max_bytes) = spec.(sp_chain_response_max_bytes);
  is_store : st.(hs_store) = mkModuleStore (keccak256 name) (Some spec.(sp_state_quota));
  is_memory : limit_of st.(hs_limits).(limiter) = spec.(sp_memory_limit) /\
    st.(hs_limits).(memory_bytes) <= Z.max 0 spec.(sp_memory_limit);
  is_streams : st.(hs_wasi).(wasi_stdout).(ss_run).(run_module) = name /\
    st.(hs_wasi).(wasi_stderr).(ss_run).(run_module) = name /\
    Forall (fun w => forall v, w = Some v -> v.(w_run).(run_module) = name) st.(hs_table)
}.

(** What the runtime may have gained: the module's own records within the cap, a
    namespace within the quota, nothing of another namespace, and requests the gate
    judged. *)
Record contained (name : text) (spec : StoreSpec N) (rt rt' : Runtime) : Prop := mkContained {
  ct_logs : exists consoled kept, rt'.(rt_router) = added rt.(rt_router) consoled kept /\
    consoled `sublist_of` kept /\ Forall (owned name spec.(sp_log_bounds).(max_record_bytes)) kept;
  ct_counters : counters_ok rt.(rt_db) -> counters_ok rt'.(rt_db);
  ct_quota : counters_ok rt.(rt_db) -> footprint (keccak256 name) (t_view rt.(rt_db).(db)) <= spec.(sp_state_quota) ->
    footprint (keccak256 name) (t_view rt'.(rt_db).(db)) <= spec.(sp_state_quota);
  ct_frame : counters_ok rt.(rt_db) -> forall k, starts_with (keccak256 name) k = false ->
    t_view rt'.(rt_db).(db) !! k = t_view rt.(rt_db).(db) !! k;
  ct_http : exists evs, rt'.(rt_http) = rt.(rt_http) ++ evs /\
    forall r o, HSent r o ∈ evs -> exists (net : W) request,
      sendable net_contains (spec_gate name spec) net request r o
}.

(** *** The order of runtimes *)

Lemma added_nil router : added router [] [] = router.
Proof. destruct router. unfold added. cbn. by rewrite app_nil_r. Qed.

Lemma added_app router c1 k1 c2 k2 : added (added router c1 k1) c2 k2 = added router (c1 ++ c2) (k1 ++ k2).
Proof. unfold added. cbn. by rewrite <- app_assoc, foldl_app. Qed.

Lemma contained_refl name spec rt : contained name spec rt rt.
Proof.
  split; [|auto..|].
  - exists [], []. rewrite added_nil. auto.
  - exists []. rewrite app_nil_r. split; [done|]. intros r o Hin. by apply not_elem_of_nil in Hin.
Qed.

Lemma contained_trans name spec rt1 rt2 rt3 :
  contained name spec rt1 rt2 -> contained name spec rt2 rt3 -> contained name spec rt1 rt3.
Proof.
  intros [(c1 & k1 & R1 & S1 & O1) C1 Q1 F1 (e1 & E1 & H1')] [(c2 & k2 & R2 & S2 & O2) C2 Q2 F2 (e2 & E2 & H2')]. split.
  - exists (c1 ++ c2), (k1 ++ k2). rewrite R2, R1, added_app. split; [done|]. split; [by apply sublist_app|by apply Forall_app].
  - auto.
  - auto.
  - intros Hc k Hk. rewrite F2 by auto. auto.
  - exists (e1 ++ e2). rewrite E2, E1, app_assoc. split; [done|]. intros r o [Hin|Hin]%elem_of_app; eauto.
Qed.

(** *** The log sinks *)

Notation Sink := (Sink (B := TokenBucket) (K := K)).

Record sink_grows (name : text) (cap : Z) (s s' : Sink) : Prop := mkSinkGrows {
  sg_policy : s'.(sk_bounds).(bounds_policy) = s.(sk_bounds).(bounds_policy);
  sg_router : exists consoled kept, s'.(sk_router) = added s.(sk_router) consoled kept /\
    consoled `sublist_of` kept /\ Forall (owned name cap) kept
}.

Lemma sink_grows_refl name cap s : sink_grows name cap s s.
Proof. split; [done|]. exists [], []. by rewrite added_nil. Qed.

Lemma sink_grows_trans name cap s1 s2 s3 :
  sink_grows name cap s1 s2 -> sink_grows name cap s2 s3 -> sink_grows name cap s1 s3.
Proof.
  intros [P1 (c1 & k1 & R1 & S1 & O1)] [P2 (c2 & k2 & R2 & S2 & O2)]. split; [congruence|].
  exists (c1 ++ c2), (k1 ++ k2). rewrite R2, R1, added_app. split; [done|]. split; [by apply sublist_app|by apply Forall_app].
Qed.

Lemma route_grows name (s : Sink) filter r now k evs :
  0 <= s.(sk_bounds).(bounds_policy).(max_record_bytes) -> r.(rec_run).(run_module) = name ->
  let '(router, b, evs') := route float_text filter s.(sk_router) s.(sk_bounds) r now in
  sink_grows name s.(sk_bounds).(bounds_policy).(max_record_bytes) s (mkSink router b k (evs ++ evs')).
Proof.
  intros Hcap Hrun. pose proof (route_adds float_text filter s.(sk_router) s.(sk_bounds) r now Hcap) as Hr.
  destruct (route _ _ _ _ _ _) as [[router b] evs']. destruct Hr as (Hp & consoled & kept & Hadd & Hk & Hc).
  split; [exact Hp|]. exists consoled, kept. split; [exact Hadd|]. split.
  - destruct Hc as [->| ->]; [apply sublist_nil_l|done].
  - destruct Hk as [->|(r' & -> & Hstamp & Hw)]; [constructor|]. unfold stamp in Hstamp. injection Hstamp as Hr _ _ _.
    constructor; [|constructor]. split; [by rewrite Hr|exact Hw].
Qed.

Lemma host_log_grows name filter run (s : Sink) call :
  0 <= s.(sk_bounds).(bounds_policy).(max_record_bytes) -> run.(run_module) = name ->
  sink_grows name s.(sk_bounds).(bounds_policy).(max_record_bytes) s (host_log float_text tick filter run s call).
Proof.
  intros Hcap Hrun. unfold host_log. destruct (tick _) as [[ts now] k].
  pose proof (route_grows name s filter (log_record run ts call) now k s.(sk_events) Hcap) as Hr.
  destruct (route _ _ _ _ _ _) as [[router b] evs']. apply Hr. by destruct call.
Qed.

Lemma line_route_grows name (w : LineWriter) bytes (s : Sink) :
  0 <= s.(sk_bounds).(bounds_policy).(max_record_bytes) -> w.(w_run).(run_module) = name ->
  sink_grows name s.(sk_bounds).(bounds_policy).(max_record_bytes) s (line_route float_text tick w bytes s).
Proof.
  intros Hcap Hrun. unfold line_route. destruct (strip_cr bytes) as [|b bs]; [apply sink_grows_refl|].
  destruct (tick _) as [[ts now] k].
  pose proof (route_grows name s w.(w_filter) (mkRecord w.(w_run) ts w.(w_channel) (level_for w.(w_channel))
                (from_utf8_lossy (b :: bs)) LogSource_default []) now k s.(sk_events) Hcap Hrun) as Hr.
  destruct (route _ _ _ _ _ _) as [[router b'] evs']. exact Hr.
Qed.

(** A line more, after some. *)
Lemma line_route_after name cap (w : LineWriter) bytes (s s' : Sink) :
  cap = s.(sk_bounds).(bounds_policy).(max_record_bytes) -> 0 <= cap -> w.(w_run).(run_module) = name ->
  sink_grows name cap s s' -> sink_grows name cap s (line_route float_text tick w bytes s').
Proof.
  intros -> Hcap Hrun Hg. eapply sink_grows_trans; [exact Hg|]. destruct Hg as [Hp _]. rewrite <- Hp.
  apply line_route_grows; [by rewrite Hp|done].
Qed.

Lemma drain_lines_grows name cap fuel (w : LineWriter) (s0 s : Sink) :
  cap = s0.(sk_bounds).(bounds_policy).(max_record_bytes) -> 0 <= cap -> w.(w_run).(run_module) = name ->
  sink_grows name cap s0 s ->
  let (w', s') := drain_lines float_text tick fuel w s in w'.(w_run).(run_module) = name /\ sink_grows name cap s0 s'.
Proof.
  intros Ecap Hcap. revert w s. induction fuel as [|fuel IH]; intros w s Hrun Hg; cbn [drain_lines]; [done|].
  destruct (split_once 10 (buf w)) as [[line rest]|]; [|done].
  apply IH; [exact Hrun | by apply line_route_after].
Qed.

Lemma poll_write_grows name (w : LineWriter) (s : Sink) data :
  0 <= s.(sk_bounds).(bounds_policy).(max_record_bytes) -> w.(w_run).(run_module) = name ->
  let (w', s') := poll_write float_text tick w s data in
  w'.(w_run).(run_module) = name /\ sink_grows name s.(sk_bounds).(bounds_policy).(max_record_bytes) s s'.
Proof.
  intros Hcap Hrun. unfold poll_write, drain.
  pose proof (drain_lines_grows name _ (length (buf (with_buf w (buf w ++ data)))) (with_buf w (buf w ++ data)) s s
                eq_refl Hcap Hrun (sink_grows_refl _ _ _)) as Hd.
  destruct (drain_lines _ _ _ _ _) as [w' s']. destruct Hd as [Hr Hg]. destruct (_ <? _); [|done].
  split; [exact Hr|]. by apply line_route_after.
Qed.

Lemma drop_writer_grows name (w : LineWriter) (s : Sink) :
  0 <= s.(sk_bounds).(bounds_policy).(max_record_bytes) -> w.(w_run).(run_module) = name ->
  sink_grows name s.(sk_bounds).(bounds_policy).(max_record_bytes) s (drop_writer float_text tick w s).
Proof.
  intros Hcap Hrun. unfold drop_writer, flush_remainder. destruct (buf w) as [|b bs]; [apply sink_grows_refl|].
  by apply line_route_grows.
Qed.

(** A sink that grew leaves the state in its specification and the runtime contained. *)
Lemma after_sink_ok name spec (st : HostState) rt s :
  in_spec name spec st -> sink_grows name spec.(sp_log_bounds).(max_record_bytes) (sink_of_run st rt) s ->
  in_spec name spec (after_sink st rt s).1 /\ contained name spec rt (after_sink st rt s).2.
Proof.
  intros Hst [Hp Hr]. split.
  - destruct Hst. split; cbn; try done. by rewrite Hp.
  - split; cbn; [exact Hr|auto..|]. exists []. rewrite app_nil_r. split; [done|]. intros r o Hin. by apply not_elem_of_nil in Hin.
Qed.

Lemma with_table_in_spec name spec (st : HostState) table :
  in_spec name spec st -> Forall (fun w => forall v, w = Some v -> v.(w_run).(run_module) = name) table ->
  in_spec name spec (with_wasi_table st table).
Proof. intros [] Ht. split; cbn; try done. naive_solver. Qed.

(** *** Host calls *)

(** A store call through the run's own handle. *)
Lemma store_call_contained name spec (rt : Runtime) c :
  call_handle c = mkModuleStore (keccak256 name) (Some spec.(sp_state_quota)) ->
  contained name spec rt (with_db rt (run_call rt.(rt_db) c).2).
Proof.
  intros Hh. assert (handle_ok (call_handle c)) as Hok by (rewrite Hh; apply keccak_length). split; cbn.
  - exists [], []. by rewrite added_nil.
  - intros Hc. by apply run_call_ok.
  - intros Hc. apply run_call_quota; [done|done|apply keccak_length|]. intros _. by rewrite Hh.
  - intros Hc k Hk. apply run_call_frame; [done|done|]. by rewrite Hh.
  - exists []. rewrite app_nil_r. split; [done|]. intros r o Hin. by apply not_elem_of_nil in Hin.
Qed.

Lemma sent_is_judged name spec (st : HostState) (net : W) request options r o :
  in_spec name spec st ->
  HSent r o ∈ (send_request net_contains header_value_ok st.(hs_http_gate) net request options).2 ->
  sendable net_contains (spec_gate name spec) net request r o.
Proof.
  intros Hst. rewrite (is_gate _ _ _ Hst).
  pose proof (send_request_judged net_contains header_value_ok (spec_gate name spec) net request options) as Hj.
  destruct (send_request _ _ _ _ _ _) as [res tr]. destruct Hj as [Hj _]. cbn [snd]. intros Hin.
  destruct Hj as [->|[->|(looked & last & -> & Hl & Hlast)]]; [by apply not_elem_of_nil in Hin | by apply list_elem_of_singleton in Hin|].
  apply elem_of_app in Hin as [Hin|Hin]; [by destruct (Hl _ Hin) as (? & _ & ?)|].
  destruct Hlast as [->|[->|(r' & o' & -> & Hs)]]; [by apply not_elem_of_nil in Hin | by apply list_elem_of_singleton in Hin|].
  apply list_elem_of_singleton in Hin as [= -> ->]. exact Hs.
Qed.

Lemma grow_in_spec name spec (st : HostState) current desired maximum :
  in_spec name spec st -> in_spec name spec (with_limits st (memory_growing inner_growing st.(hs_limits) current desired maximum).2).
Proof.
  intros Hst. destruct Hst. destruct is_memory0 as [Hl Hm]. split; cbn; try done. unfold memory_growing.
  pose proof (limit_kept st.(hs_limits).(limiter) current desired maximum) as Hk.
  pose proof (limit_holds st.(hs_limits).(limiter) current desired maximum) as Hh.
  destruct (inner_growing _ _ _ _) as [r l]. cbn [fst snd] in *. rewrite Hl in *.
  destruct r as [[]|e]; cbn [snd limiter memory_bytes]; split; try done. specialize (Hh eq_refl). lia.
Qed.

Lemma host_call_ok name spec (st : HostState) (rt : Runtime) op :
  0 <= spec.(sp_log_bounds).(max_record_bytes) -> in_spec name spec st ->
  in_spec name spec (host_call st rt op).2.1 /\ contained name spec rt (host_call st rt op).2.2.
Proof.
  intros Hcap Hst. pose proof (is_streams _ _ _ Hst) as (Hout & Herr & Htab). pose proof (is_bounds _ _ _ Hst) as Hb.
  assert (forall c, call_handle c = st.(hs_store) ->
            in_spec name spec st /\ contained name spec rt (with_db rt (run_call rt.(rt_db) c).2)) as Hstore.
  { intros c Hc. split; [done|]. apply store_call_contained. by rewrite Hc, (is_store _ _ _ Hst). }
  destruct op as [net request options|call|err|i data|i|f key value|f key|f ops|current desired maximum]; cbn [RunStore.host_call].
  - pose proof (fun r o => sent_is_judged name spec st net request options r o Hst) as Hsent.
    destruct (send_request _ _ _ _ _ _) as [res evs]. cbn [fst snd] in *. split; [done|].
    split; cbn; [exists [], []; by rewrite added_nil|auto..|]. exists evs. split; [done|]. intros r o Hin. eauto.
  - apply after_sink_ok; [done|]. rewrite <- Hb. apply (host_log_grows name st.(hs_log_filter) st.(hs_run) (sink_of_run st rt)).
    + cbn. by rewrite Hb.
    + apply (is_run _ _ _ Hst).
  - split; [|apply contained_refl]. cbn [fst snd]. apply with_table_in_spec; [done|]. apply Forall_app. split; [done|].
    constructor; [|constructor]. intros v [= <-]. by destruct err.
  - destruct (hs_table st !! i) as [[w|]|] eqn:Ei; [|split; [done|apply contained_refl]..].
    assert (w.(w_run).(run_module) = name) as Hw by (rewrite Forall_lookup in Htab; by apply (Htab _ _ Ei)).
    pose proof (poll_write_grows name w (sink_of_run st rt) data) as Hp. cbn [sk_bounds sink_of_run] in Hp. rewrite Hb in Hp.
    specialize (Hp Hcap Hw). destruct (poll_write _ _ _ _ _) as [w' s']. destruct Hp as [Hw' Hg]. cbn [snd].
    apply after_sink_ok; [|exact Hg]. apply with_table_in_spec; [done|]. apply Forall_insert; [done|]. by intros v [= <-].
  - destruct (hs_table st !! i) as [[w|]|] eqn:Ei; [|split; [done|apply contained_refl]..].
    assert (w.(w_run).(run_module) = name) as Hw by (rewrite Forall_lookup in Htab; by apply (Htab _ _ Ei)).
    cbn [snd]. apply after_sink_ok; [apply with_table_in_spec; [done|]; apply Forall_insert; done|].
    pose proof (drop_writer_grows name w (sink_of_run st rt)) as Hp. cbn [sk_bounds sink_of_run] in Hp. rewrite Hb in Hp. exact (Hp Hcap Hw).
  - specialize (Hstore (CallSet st.(hs_store) f key value) eq_refl). cbn [run_call] in Hstore.
    destruct (ms_set _ _ _ _ _) as [r db']. exact Hstore.
  - specialize (Hstore (CallDelete st.(hs_store) f key) eq_refl). cbn [run_call] in Hstore.
    destruct (ms_delete _ _ _ _) as [r db']. exact Hstore.
  - specialize (Hstore (CallApply st.(hs_store) f ops) eq_refl). cbn [run_call] in Hstore.
    destruct (ms_apply _ _ _ _) as [r db']. exact Hstore.
  - pose proof (grow_in_spec name spec st current desired maximum Hst) as Hg.
    destruct (memory_growing _ _ _ _ _) as [r l]. split; [exact Hg|apply contained_refl].
Qed.

Lemma host_calls_ok name spec ops (st : HostState) (rt : Runtime) :
  0 <= spec.(sp_log_bounds).(max_record_bytes) -> in_spec name spec st ->
  in_spec name spec (host_calls ops (st, rt)).1 /\ contained name spec rt (host_calls ops (st, rt)).2.
Proof.
  intros Hcap. revert st rt. induction ops as [|op ops IH]; intros st rt Hst; [split; [done|apply contained_refl]|].
  destruct (host_call_ok name spec st rt op Hcap Hst) as [Hst' Hct].
  unfold RunStore.host_calls in *. cbn [foldl fst snd]. destruct (host_call st rt op).2 as [st' rt'] eqn:E.
  destruct (IH st' rt' Hst') as [Hst'' Hct']. split; [exact Hst''|]. by eapply contained_trans.
Qed.

Lemma drop_store_ok name spec (st : HostState) (rt : Runtime) :
  0 <= spec.(sp_log_bounds).(max_record_bytes) -> in_spec name spec st -> contained name spec rt (drop_store st rt).
Proof.
  intros Hcap Hst. unfold RunStore.drop_store. pose proof (is_streams _ _ _ Hst) as (_ & _ & Htab).
  generalize (hs_table st), Htab. clear Htab. intros table Htab.
  enough (contained name spec rt (foldl (fun p w => match w with
      | Some w => after_sink p.1 p.2 (drop_writer float_text tick w (sink_of_run p.1 p.2)) | None => p end) (st, rt) table).2) by done.
  revert st rt Hst. induction Htab as [|w table Hw _ IH]; intros st rt Hst; [apply contained_refl|].
  cbn [foldl fst snd]. destruct w as [w|]; [|by apply IH].
  pose proof (drop_writer_grows name w (sink_of_run st rt)) as Hp. cbn [sk_bounds sink_of_run] in Hp.
  rewrite (is_bounds _ _ _ Hst) in Hp. specialize (Hp Hcap (Hw _ eq_refl)).
  destruct (after_sink_ok name spec st rt _ Hst Hp) as [Hst' Hct]. destruct (after_sink _ _ _) as [st' rt'].
  eapply contained_trans; [exact Hct|]. by apply IH.
Qed.

Lemma fresh_store_in_spec clocks name seq spec started now run (store : HostStore (Clk := Clk)) :
  fresh_run_store memory_size set_fuel_ok keccak256 clocks name seq spec started now = Ok (run, store) ->
  in_spec name spec store.(st_state) /\ store.(st_fuel) = spec.(sp_fuel) /\ run = mkRunId name seq started /\
  store.(st_state).(hs_run) = run.
Proof.
  unfold fresh_run_store, build_store, ls_module. cbn [run_module].
  destruct (bool_decide (name = [])); [done|]. destruct (set_fuel_ok _); [|done]. intros [= <- <-]. split; [|done].
  split; cbn; try done. rewrite limit_built. split; [done|lia].
Qed.

(** *** Restarts *)

Context {C Bind F : Type}.
Context (instantiate : CachedArtifact C -> Z -> text -> HostStore (N := N) (Clk := Clk) (L := L) -> Runtime ->
           option (Bind * result unit F) * (HostStore (N := N) (Clk := Clk) (L := L) * Runtime)).
(** A guest acts on the host through its imports alone, and burns fuel. *)
Hypothesis guest_acts_through_imports : forall art deadline name store rt,
  let '(_, (store', rt')) := instantiate art deadline name store rt in
  (exists ops, host_calls ops (store.(st_state), rt) = (store'.(st_state), rt')) /\ store'.(st_fuel) <= store.(st_fuel).

Notation LoadedInstance := (@LoadedInstance N Clk L C Bind).
Notation revive := (revive memory_size set_fuel_ok keccak256 float_text tick instantiate).
Notation first_run := (first_run memory_size set_fuel_ok keccak256 float_text tick instantiate).
Notation act := (act net_contains header_value_ok memory_size inner_growing set_fuel_ok keccak256 float_text tick instantiate).
Notation acts := (acts net_contains header_value_ok memory_size inner_growing set_fuel_ok keccak256 float_text tick instantiate).

(** An instance whose live store is the one its seed specifies. *)
Record instance_ok (name : text) (seed : Seed (N := N) C) (m : LoadedInstance) : Prop := mkInstanceOk {
  io_name : m.(li_name) = name;
  io_seed : m.(li_seed) = seed;
  io_state : in_spec name seed.(seed_spec) m.(li_live).(lv_store).(st_state);
  io_fuel : m.(li_live).(lv_store).(st_fuel) <= seed.(seed_spec).(sp_fuel)
}.

(** Instantiation on a fresh store. *)
Lemma instantiate_ok clocks name seq (seed : Seed (N := N) C) started now run (store : HostStore (Clk := Clk)) (rt : Runtime) :
  0 <= seed.(seed_spec).(sp_log_bounds).(max_record_bytes) ->
  fresh_run_store memory_size set_fuel_ok keccak256 clocks name seq seed.(seed_spec) started now = Ok (run, store) ->
  let '(_, (store', rt')) := instantiate seed.(seed_artifact) seed.(seed_dispatch_deadline) name store rt in
  in_spec name seed.(seed_spec) store'.(st_state) /\ store'.(st_fuel) <= seed.(seed_spec).(sp_fuel) /\
  contained name seed.(seed_spec) rt rt' /\ contained name seed.(seed_spec) rt (drop_store store'.(st_state) rt').
Proof.
  intros Hcap Hf. apply fresh_store_in_spec in Hf as (Hst & Hfuel & _ & _).
  pose proof (guest_acts_through_imports seed.(seed_artifact) seed.(seed_dispatch_deadline) name store rt) as Hg.
  destruct (instantiate _ _ _ _ _) as [r [store' rt']]. destruct Hg as [(ops & Hops) Hburn].
  destruct (host_calls_ok name seed.(seed_spec) ops store.(st_state) rt Hcap Hst) as [Hst' Hct]. rewrite Hops in Hst', Hct.
  cbn [fst snd] in *. split; [done|]. split; [lia|]. split; [done|]. eapply contained_trans; [exact Hct|]. by apply drop_store_ok.
Qed.

Lemma first_run_ok clocks name (seed : Seed (N := N) C) dispatch (rt : Runtime) a :
  0 <= seed.(seed_spec).(sp_log_bounds).(max_record_bytes) ->
  let '(r, rt') := first_run clocks name seed dispatch rt a in
  contained name seed.(seed_spec) rt rt' /\ forall m alive, r = Ok (m, alive) -> instance_ok name seed m.
Proof.
  intros Hcap. unfold RunStore.first_run. destruct (fresh_run_store _ _ _ _ _ _ _ _ _) as [[run store]|e] eqn:Ef;
    [|split; [apply contained_refl|done]].
  pose proof (instantiate_ok clocks name 0 seed _ _ run store rt Hcap Ef) as Hi.
  destruct (instantiate _ _ _ _ _) as [[[bindings init]|] [store' rt']]; destruct Hi as (Hst & Hfuel & Hct & Hdrop); [|done].
  split; [done|]. intros m alive [= <- _]. by split.
Qed.

Lemma revive_ok clocks name seed (m : LoadedInstance) (rt : Runtime) a :
  0 <= seed.(seed_spec).(sp_log_bounds).(max_record_bytes) -> instance_ok name seed m ->
  instance_ok name seed (revive clocks m rt a).2.1 /\ contained name seed.(seed_spec) rt (revive clocks m rt a).2.2.
Proof.
  intros Hcap Hm. pose proof Hm as [Hn Hs Hst Hf]. unfold RunStore.revive.
  destruct a.(at_linked); [|split; [done|apply contained_refl]]. rewrite Hn, Hs.
  destruct (fresh_run_store _ _ _ _ _ _ _ _ _) as [[run store]|e] eqn:Ef; [|split; [done|apply contained_refl]].
  pose proof (instantiate_ok clocks name _ seed _ _ run store rt Hcap Ef) as Hi.
  destruct (instantiate _ _ _ _ _) as [[[bindings [[]|e]]|] [store' rt']]; destruct Hi as (Hst' & Hfuel & Hct & Hdrop); [|done..].
  split; [by split|]. eapply contained_trans; [exact Hct|]. by apply drop_store_ok.
Qed.

Lemma act_ok clocks name seed (m : LoadedInstance) (rt : Runtime) x :
  0 <= seed.(seed_spec).(sp_log_bounds).(max_record_bytes) -> instance_ok name seed m ->
  instance_ok name seed (act clocks (m, rt) x).1 /\ contained name seed.(seed_spec) rt (act clocks (m, rt) x).2.
Proof.
  intros Hcap Hm. destruct x as [op|a]; [|by apply revive_ok]. pose proof Hm as [Hn Hs Hst Hf]. cbn [RunStore.act].
  destruct (host_call_ok name seed.(seed_spec) _ rt op Hcap Hst) as [Hst' Hct].
  destruct (host_call _ rt op) as [ans [st' rt']]. cbn [fst snd] in *. split; [by split|done].
Qed.

Lemma acts_ok clocks name seed xs (m : LoadedInstance) (rt : Runtime) :
  0 <= seed.(seed_spec).(sp_log_bounds).(max_record_bytes) -> instance_ok name seed m ->
  instance_ok name seed (acts clocks xs (m, rt)).1 /\ contained name seed.(seed_spec) rt (acts clocks xs (m, rt)).2.
Proof.
  intros Hcap. revert m rt. induction xs as [|x xs IH]; intros m rt Hm; [split; [done|apply contained_refl]|].
  destruct (act_ok clocks name seed m rt x Hcap Hm) as [Hm' Hct]. unfold RunStore.acts in *. cbn [foldl].
  destruct (act clocks (m, rt) x) as [m' rt']. destruct (IH m' rt' Hm') as [Hm'' Hct']. split; [done|]. by eapply contained_trans.
Qed.

(** ** What the operator is promised *)

(** C5: the operator's policy holds over everything the author writes
    and the guest does.  For a module loaded under the operator's policy, with limits
    resolved from whatever its manifest asks for: over its first run, any host calls and
    any restart attempts, every record it leaves in the shared log is its own and within
    the policy's byte cap, its namespace stays within the state quota and no other key
    of the database changes, and every request that left was on the author's list and on
    the operator's, to an address neither prohibited nor denied; and whichever run is
    live, its memory reading and its fuel are within the ceilings. *)
Theorem module_stays_within_policy {U} (cfg : FullConfig U N) id (man : LoadedManifest) (component : C) digest
    clocks (rt rt1 : Runtime) a (m : LoadedInstance) alive xs :
  let policy := for_component cfg.(fc_policy) id in
  let ceilings := policy.(eff_ceilings) in
  let limits := resolve_module_limits man.(man_resources) ceilings in
  let gate := mkGate man.(man_name) man.(man_http_allowlist) policy.(eff_http_allow) cfg.(fc_limits).(rl_http)
                cfg.(fc_limits).(http_permit_destinations) cfg.(fc_http_deny) in
  0 <= ceilings.(log_bounds).(max_record_bytes) -> 0 <= ceilings.(max_memory_bytes) -> counters_ok rt.(rt_db) ->
  first_run clocks man.(man_name) (module_seed cfg id man limits component digest) cfg.(fc_limits).(rl_dispatch) rt a
    = (Ok (m, alive), rt1) ->
  let '(m', rt') := acts clocks xs (m, rt1) in
  (exists consoled kept, rt'.(rt_router) = added rt.(rt_router) consoled kept /\ consoled `sublist_of` kept /\
     Forall (owned man.(man_name) ceilings.(log_bounds).(max_record_bytes)) kept) /\
  (footprint (keccak256 man.(man_name)) (t_view rt.(rt_db).(db)) <= limits.(lim_state_bytes) ->
   footprint (keccak256 man.(man_name)) (t_view rt'.(rt_db).(db)) <= ceilings.(max_state_bytes)) /\
  (forall k, starts_with (keccak256 man.(man_name)) k = false -> t_view rt'.(rt_db).(db) !! k = t_view rt.(rt_db).(db) !! k) /\
  (exists evs, rt'.(rt_http) = rt.(rt_http) ++ evs /\
     forall r o, HSent r o ∈ evs -> exists (net : W) request, sendable net_contains gate net request r o) /\
  m'.(li_live).(lv_store).(st_state).(hs_limits).(memory_bytes) <= ceilings.(max_memory_bytes) /\
  m'.(li_live).(lv_store).(st_fuel) <= ceilings.(max_fuel_per_dispatch).
Proof.
  intros policy ceilings limits gate Hcap Hmem Hcount Hfirst. set (seed := module_seed cfg id man limits component digest) in *.
  pose proof (first_run_ok clocks man.(man_name) seed cfg.(fc_limits).(rl_dispatch) rt a Hcap) as Hf. rewrite Hfirst in Hf.
  destruct Hf as [Hct1 Hm]. specialize (Hm m alive eq_refl).
  destruct (acts_ok clocks man.(man_name) seed xs m rt1 Hcap Hm) as [Hm' Hct2]. destruct (acts clocks xs (m, rt1)) as [m' rt'].
  cbn [fst snd] in *. pose proof (contained_trans _ _ _ _ _ Hct1 Hct2) as [Hlogs _ Hquota Hframe Hhttp].
  destruct Hm' as [_ _ Hst Hfuel]. pose proof (is_memory _ _ _ Hst) as [_ Hread].
  cbn [seed module_seed seed_spec store_spec sp_log_bounds sp_state_quota sp_memory_limit sp_fuel] in *.
  destruct (clamp_spec man.(man_resources).(res_max_memory_bytes) ceilings.(max_memory_bytes)) as [Hmem' _].
  destruct (clamp_spec man.(man_resources).(res_max_state_bytes) ceilings.(max_state_bytes)) as [Hst' _].
  destruct (clamp_spec man.(man_resources).(res_max_fuel_per_dispatch) ceilings.(max_fuel_per_dispatch)) as [Hfuel' _].
  unfold limits, resolve_module_limits in *. cbn [lim_memory lim_state_bytes lim_fuel] in *.
  split; [exact Hlogs|]. split; [intros Hle; specialize (Hquota Hcount Hle); lia|]. split; [exact (Hframe Hcount)|].
  split; [exact Hhttp|]. split; lia.
Qed.

(** A restart replaces the run and nothing else.  A failed attempt
    leaves the instance exactly as it was; a successful one keeps the name, the seed
    (the verified component among it) and the dispatch bucket, so a trap buys no fresh
    burst, and mints the next run of the module, whose log bucket is full. *)
Theorem restart_replaces_the_run_only clocks (m : LoadedInstance) (rt : Runtime) a :
  let '(r, (m', _)) := revive clocks m rt a in
  match r with
  | Err _ => m' = m
  | Ok _ =>
      m'.(li_name) = m.(li_name) /\ m'.(li_seed) = m.(li_seed) /\ m'.(li_live).(lv_bucket) = m.(li_live).(lv_bucket) /\
      m'.(li_live).(lv_run) = mkRunId m.(li_name) (u64_wrap (m.(li_live).(lv_run).(run_seq) + 1)) a.(at_started) /\
      exists store bindings, fresh_run_store memory_size set_fuel_ok keccak256 clocks m.(li_name)
               (u64_wrap (m.(li_live).(lv_run).(run_seq) + 1)) m.(li_seed).(seed_spec) a.(at_started) a.(at_now)
             = Ok (m'.(li_live).(lv_run), store) /\
        (instantiate m.(li_seed).(seed_artifact) m.(li_seed).(seed_dispatch_deadline) m.(li_name) store rt).1
          = Some (bindings, Ok tt) /\
        (instantiate m.(li_seed).(seed_artifact) m.(li_seed).(seed_dispatch_deadline) m.(li_name) store rt).2.1
          = m'.(li_live).(lv_store) /\
        store.(st_state).(hs_log_bounds) = log_bounds_new m.(li_seed).(seed_spec).(sp_log_bounds) a.(at_now)
  end.
Proof.
  unfold RunStore.revive. destruct a.(at_linked); [|done].
  destruct (fresh_run_store _ _ _ _ _ _ _ _ _) as [[run store]|e] eqn:Ef; [|done].
  pose proof Ef as Ef'. apply fresh_store_in_spec in Ef' as (_ & _ & -> & _).
  assert (store.(st_state).(hs_log_bounds) = log_bounds_new m.(li_seed).(seed_spec).(sp_log_bounds) a.(at_now)) as Hb.
  { revert Ef. unfold fresh_run_store, build_store. destruct (ls_module _ _); [|done]. destruct (set_fuel_ok _); [|done]. by intros [= <-]. }
  destruct (instantiate _ _ _ _ _) as [[[bindings [[]|e]]|] [store' rt']] eqn:Ei; [|done..]. cbn.
  split_and!; [done..|]. exists store, bindings. rewrite Ei. done.
Qed.
End Confinement.

(** ** A module's life, run *)

Module RunDemo.
Definition policy : PolicySection :=
  mkPolicySection (mkCeilings 1000 500 150 (mkLogBounds 64 (mkRate 2 1))) None None
    {[chars_of "m" := mkComponentPolicy None (Some 400) None None None None None None None None
                        (Some [HostPattern.parse (chars_of "api.example.com")])]}
    (mkLogFilter LTrace LTrace ∅).

Definition cfg : FullConfig text Cidr :=
  mkFull EngineSection_default
    (mkResolved 10 10 64 (mkHttpLimits 10 20 30 40 5) [] (mkRetention 1000 4) PoisonPolicy_default (mkRate 2 1))
    policy [] ∅ [] [] false.

(** The manifest asks for more memory and a wider host list than the operator grants. *)
Definition man : LoadedManifest :=
  mkManifest (chars_of "m") None (mkResources (Some 5000) (Some 9000) None) [] [HostPattern.parse (chars_of "*.example.com")]
    [] [] [].

Definition limits : ResolvedLimits := resolve_module_limits man.(man_resources) (for_component policy (chars_of "m")).(eff_ceilings).
Definition seed : Seed (N := Cidr) unit := module_seed cfg (chars_of "m") man limits tt [1].

Definition grow (l current desired : Z) (maximum : option Z) : result bool unit * Z := (Ok (desired <=? l), l).
#[global] Instance grow_laws : LimitsLaws (fun z => z) grow.
Proof.
  apply (Build_LimitsLaws _ _ (fun z => z) grow (fun l => l)); [done|done|].
  intros l current desired maximum [= Hle%Z.leb_le]. exact Hle.
Defined.

Definition calls : HostState (N := Cidr) (Clk := unit) (L := Z) * Runtime (T := Demo.table) (K := unit) -> _ :=
  host_calls cidr_contains (fun _ => true) grow (fun _ => []) still (Clk := unit) (W := GateDemo.Backend)
    [OOpen false; OWrite 0 (chars_of "up")].

(** [init] opens standard output and leaves an unterminated line in it. *)
Definition instantiate (art : CachedArtifact unit) (deadline : Z) (name : text) (store : HostStore (N := Cidr) (Clk := unit) (L := Z))
    (rt : Runtime (T := Demo.table) (K := unit)) : option (unit * result unit unit) * (HostStore (N := Cidr) (Clk := unit) (L := Z) * Runtime) :=
  let (st, rt) := calls (store.(st_state), rt) in
  (Some (tt, Ok tt), (mkHostStore st (store.(st_fuel) - 1), rt)).

Lemma instantiate_through_imports art deadline name store rt :
  let '(_, (store', rt')) := instantiate art deadline name store rt in
  (exists ops, host_calls cidr_contains (fun _ => true) grow (fun _ => []) still (Clk := unit) (W := GateDemo.Backend) ops
                 (store.(st_state), rt) = (store'.(st_state), rt')) /\ store'.(st_fuel) <= store.(st_fuel).
Proof.
  unfold instantiate. destruct (calls (store.(st_state), rt)) as [st rt'] eqn:E. split; [|cbn; lia].
  eexists. exact E.
Qed.

Definition rt0 : Runtime (T := Demo.table) (K := unit) :=
  mkRuntime (mkRouter [] (log_store_new (mkRetention 1000 4))) Demo.store0 tt [] [].

Definition start : result (LoadedInstance (Bind := unit) * bool) (ReviveError (F := unit)) * Runtime :=
  first_run (fun z => z) (fun _ => true) Demo.digest (fun _ => []) still instantiate None (chars_of "m") seed (mkRate 2 1) rt0
    (mkAttempt true 0 0).

Definition life : list (Act (W := GateDemo.Backend)) :=
  [ACall (OSet no_faults (chars_of "k") [1; 2; 3]); ACall (OGrow 0 900 None); ACall (OGrow 900 1100 None);
   ACall (OHttp (GateDemo.mkBackend [V4 (mkV4 93 184 216 34)] []) (GateDemo.request (chars_of "api.example.com")) None);
   ACall (OHttp (GateDemo.mkBackend [V4 (mkV4 93 184 216 34)] []) (GateDemo.request (chars_of "www.example.com")) None);
   ARevive (mkAttempt true 7 7); ACall (OLog (GLog WInfo (chars_of "hello")))].

Definition lived : option (LoadedInstance (Bind := unit) * Runtime) :=
  match start with
  | (Ok (m, _), rt) =>
      Some (acts cidr_contains (fun _ => true) (fun z => z) grow (fun _ => true) Demo.digest (fun _ => []) still instantiate None life (m, rt))
  | _ => None
  end.
End RunDemo.

(** The unterminated line of the first run is flushed by the restart, the second request
    is not on the operator's list, the second growth is past the ceiling, and the run
    after the restart is numbered 1 with the policy's fuel. *)
Example a_life :
  (fun p => (p.2.(rt_router).(console_lines) ≫= (fun r => [(r.(message), r.(rec_run).(run_seq))]),
             length p.2.(rt_http), p.1.(li_live).(lv_run).(run_seq), p.1.(li_live).(lv_store).(st_fuel),
             p.1.(li_live).(lv_store).(st_state).(hs_limits).(memory_bytes))) <$> RunDemo.lived
  = Some ([(chars_of "up", 0); (chars_of "hello", 1)], 3%nat, 1, 399, 0).
Proof. vm_compute. reflexivity. Qed.

Lemma module_stays_within_policy_witness :
  match RunDemo.lived with
  | Some (m', rt') =>
      footprint (Demo.digest (chars_of "m")) (t_view rt'.(rt_db).(db)) <= 150 /\
      m'.(li_live).(lv_store).(st_state).(hs_limits).(memory_bytes) <= 1000 /\
      m'.(li_live).(lv_store).(st_fuel) <= 400
  | None => False
  end.
Proof.
  unfold RunDemo.lived. destruct RunDemo.start as [[[m alive]|e] rt1] eqn:E; [|exfalso; revert E; vm_compute; discriminate].
  pose proof (module_stays_within_policy cidr_contains (fun _ => true) (fun z => z) RunDemo.grow (fun _ => true) Demo.digest
                (fun x => eq_refl) (fun _ => []) still RunDemo.instantiate RunDemo.instantiate_through_imports
                RunDemo.cfg (chars_of "m") RunDemo.man tt [1] None RunDemo.rt0 rt1 (mkAttempt true 0 0) m alive RunDemo.life) as H.
  cbv zeta in H. specialize (H ltac:(vm_compute; discriminate) ltac:(vm_compute; discriminate)).
  specialize (H ltac:(intros p u Hu; vm_compute in Hu; discriminate) E).
  destruct (acts _ _ _ _ _ _ _ _ _ _ _ _) as [m' rt']. destruct H as (_ & Hq & _ & _ & Hm & Hf).
  split; [apply Hq; vm_compute; discriminate|]. split; [exact Hm|exact Hf].
Defined.

(** A restart whose linker fails, after [init] of the first run. *)
Lemma restart_replaces_the_run_only_witness :
  match RunDemo.start with
  | (Ok (m, _), rt) =>
      (revive (fun z => z) (fun _ => true) Demo.digest (fun _ => []) still RunDemo.instantiate None m rt (mkAttempt false 1 1)).2.1 = m
  | _ => False
  end.
Proof.
  destruct RunDemo.start as [[[m alive]|e] rt1] eqn:E; [|exfalso; revert E; vm_compute; discriminate].
  pose proof (restart_replaces_the_run_only (fun z => z) RunDemo.grow (fun _ => true) Demo.digest (fun _ => []) still
                RunDemo.instantiate None m rt1 (mkAttempt false 1 1)) as H.
  unfold revive in *. cbn [at_linked] in *. exact H.
Defined.
