(* ===== verification/Adapter.v ===== *)
(** * Adapter: the guest side of the WIT boundary

    What crates/nexum-sdk/src/wit_bindgen_macro.rs generates into a module: the
    conversions of faults, chain errors and logs, the [LocalStoreHost] of the imports
    and the log sink; the parts of host.rs and sol_events.rs they are built on; and the
    host's half of the same crossings (impls/local_store.rs, sources.rs).

    The theorems: faults and logs cross the boundary unchanged in both directions, and
    the store a guest sees through the adapter is the store the host serves. *)

From stdpp Require Import prelude list gmap strings.
From Stdlib Require Import ZArith Lia.
From S2P Require Import Prelude StoreApi HostStore ChainHost.

Local Open Scope Z_scope.

#[local] Arguments chars_of : simpl never.

(** ** Faults *)

(** [nexum:host/types.fault], as wit-bindgen generates it. *)
Inductive WireFault : Type :=
| WfUnsupported (detail : text)
| WfUnavailable (detail : text)
| WfDenied (detail : text)
| WfRateLimited
| WfTimeout
| WfInvalidInput (detail : text)
| WfInternal (detail : text).

Definition fault_from_wire (f : WireFault) : Fault :=
  match f with
  | WfUnsupported s => Unsupported s
  | WfUnavailable s => Unavailable s
  | WfDenied s => Denied s
  | WfRateLimited => FaultRateLimited
  | WfTimeout => FaultTimeout
  | WfInvalidInput s => InvalidInput s
  | WfInternal s => Internal s
  end.

(** The closed mirror the lowering goes through. *)
Inductive FaultParts : Type :=
| FpUnsupported (detail : text)
| FpUnavailable (detail : text)
| FpDenied (detail : text)
| FpRateLimited
| FpTimeout
| FpInvalidInput (detail : text)
| FpInternal (detail : text).

Definition fault_parts (f : Fault) : FaultParts :=
  match f with
  | Unsupported s => FpUnsupported s
  | Unavailable s => FpUnavailable s
  | Denied s => FpDenied s
  | FaultRateLimited => FpRateLimited
  | FaultTimeout => FpTimeout
  | InvalidInput s => FpInvalidInput s
  | Internal s => FpInternal s
  end.

Definition fault_to_wire (f : Fault) : WireFault :=
  match fault_parts f with
  | FpUnsupported s => WfUnsupported s
  | FpUnavailable s => WfUnavailable s
  | FpDenied s => WfDenied s
  | FpRateLimited => WfRateLimited
  | FpTimeout => WfTimeout
  | FpInvalidInput s => WfInvalidInput s
  | FpInternal s => WfInternal s
  end.

(** [Fault]'s snake_case label. *)
Definition sdk_fault_label (f : Fault) : text :=
  match f with
  | Unsupported _ => chars_of "unsupported"
  | Unavailable _ => chars_of "unavailable"
  | Denied _ => chars_of "denied"
  | FaultRateLimited => chars_of "rate_limited"
  | FaultTimeout => chars_of "timeout"
  | InvalidInput _ => chars_of "invalid_input"
  | Internal _ => chars_of "internal"
  end.

(** ** Chain errors *)

Inductive WireChainError : Type :=
| WcFault (f : WireFault)
| WcRpc (code : Z) (message : text) (data : option (list Z)).

Definition convert_chain_err (e : WireChainError) : ChainError :=
  match e with
  | WcFault f => CFault (fault_from_wire f)
  | WcRpc code message data => CRpc code message data
  end.

(** [HostFault] of a chain error. *)
Definition chain_fault (e : ChainError) : option Fault :=
  match e with CFault f => Some f | CRpc _ _ _ => None end.

Definition chain_error_label (e : ChainError) : text :=
  match e with CFault f => sdk_fault_label f | CRpc _ _ _ => chars_of "rpc" end.

Section Fold.
(** [i32]'s [Display] and [hex::encode_prefixed]. *)
Context (show : Z -> text) (hex_prefixed : list Z -> text).

(** [From<ChainError> for Fault]. *)
Definition fault_of_chain (e : ChainError) : Fault :=
  match e with
  | CFault f => f
  | CRpc code message data =>
      let m := chars_of "rpc error " ++ show code ++ chars_of ": " ++ message in
      Internal (match data with
                | Some d => m ++ chars_of " (" ++ hex_prefixed d ++ chars_of ")"
                | None => m
                end)
  end.
End Fold.

(** ** Logs *)

(** alloy's RPC log, with its inner address, topics and data. *)
Record AlloyLog : Type := mkAlloyLog {
  al_address : list Z;
  al_topics : list (list Z);
  al_data : list Z;
  al_block_hash : option (list Z);
  al_block_number : option Z;
  al_block_timestamp : option Z;
  al_transaction_hash : option (list Z);
  al_transaction_index : option Z;
  al_log_index : option Z;
  al_removed : bool
}.

(** [nexum:host/types.log], and [LogParts], which borrows it field by field. *)
Record WireLog : Type := mkWireLog {
  wl_chain_id : Z;
  wl_address : list Z;
  wl_topics : list (list Z);
  wl_data : list Z;
  wl_block_hash : option (list Z);
  wl_block_number : option Z;
  wl_block_timestamp : option Z;
  wl_transaction_hash : option (list Z);
  wl_transaction_index : option Z;
  wl_log_index : option Z;
  wl_removed : bool
}.

(** The host's packing. *)
Definition wit_log (log : AlloyLog) (chain : Z) : WireLog :=
  mkWireLog chain log.(al_address) log.(al_topics) log.(al_data) log.(al_block_hash) log.(al_block_number)
    log.(al_block_timestamp) log.(al_transaction_hash) log.(al_transaction_index) log.(al_log_index) log.(al_removed).

(** [FixedBytes::<N>::left_padding_from]: longer input panics. *)
Definition left_padding_from (n : nat) (bytes : list Z) : option (list Z) :=
  if (length bytes <=? n)%nat then Some (replicate (n - length bytes) 0 ++ bytes) else None.

(** [Option::map] with a conversion that may panic. *)
Definition pad_opt (n : nat) (bytes : option (list Z)) : option (option (list Z)) :=
  match bytes with
  | None => Some None
  | Some b => Some <$> left_padding_from n b
  end.

(** [From<LogParts> for Log]; [None] is a panic. *)
Definition log_from_parts (p : WireLog) : option AlloyLog :=
  address ← left_padding_from 20 p.(wl_address);
  topics ← mapM (left_padding_from 32) p.(wl_topics);
  block_hash ← pad_opt 32 p.(wl_block_hash);
  transaction_hash ← pad_opt 32 p.(wl_transaction_hash);
  Some (mkAlloyLog address topics p.(wl_data) block_hash p.(wl_block_number) p.(wl_block_timestamp)
          transaction_hash p.(wl_transaction_index) p.(wl_log_index) p.(wl_removed)).

Fixpoint contains_topic (needle : list Z) (set : list (list Z)) : bool :=
  match set with
  | [] => false
  | t :: set => if bool_decide (t = needle) then true else contains_topic needle set
  end.

(** ** The store imports *)

Record KeyValue : Type := mkKeyValue { kv_key : text; kv_value : list Z }.
Inductive WireWriteOp : Type := WSet (kv : KeyValue) | WDelete (key : text).
Inductive WireFilter : Type := WHasPrefix (bytes : list Z) | WLacksPrefix (bytes : list Z).
Record WirePage : Type := mkWirePage {
  wp_entries : list KeyValue;
  wp_last_examined : option text;
  wp_exhausted : bool
}.

(** [nexum:host/local-store] as a guest imports it. *)
Class WitStore (H : Type) : Type := {
  wit_get : text -> H -> result (option (list Z)) WireFault * H;
  wit_set : text -> list Z -> H -> result unit WireFault * H;
  wit_delete : text -> H -> result unit WireFault * H;
  wit_list_keys : text -> H -> result (list text) WireFault * H;
  wit_list_entries : text -> text -> Z -> Z -> option WireFilter -> H -> result WirePage WireFault * H;
  wit_apply : list WireWriteOp -> H -> result unit WireFault * H;
  wit_contains : text -> H -> result bool WireFault * H;
  wit_len : text -> H -> result (option Z) WireFault * H;
  wit_count : text -> H -> result Z WireFault * H
}.

Definition map_fault {A B E F} (ok : A -> B) (err : E -> F) (r : result A E) : result B F :=
  match r with Ok a => Ok (ok a) | Err e => Err (err e) end.

(** *** The guest's adapter *)

Section GuestSide.
Context {H : Type} `{WitStore H}.

Definition lower_op (op : WriteOp) : WireWriteOp :=
  match op with OpSet key value => WSet (mkKeyValue key value) | OpDelete key => WDelete key end.

Definition lower_filter (f : ValueFilter) : WireFilter :=
  match f with HasPrefix bytes => WHasPrefix bytes | LacksPrefix bytes => WLacksPrefix bytes end.

Definition lift_page (p : WirePage) : EntryPage :=
  mkEntryPage ((fun kv => (kv.(kv_key), kv.(kv_value))) <$> p.(wp_entries)) p.(wp_last_examined) p.(wp_exhausted).

(** A call through the import, with its fault lifted. *)
Definition through {A B} (ok : A -> B) (call : H -> result A WireFault * H) : K H B :=
  fun h => let (r, h) := call h in (map_fault ok fault_from_wire r, h).

Definition adapter_get (key : text) : K H (option (list Z)) := through id (wit_get key).
Definition adapter_set (key : text) (value : list Z) : K H unit := through id (wit_set key value).
Definition adapter_delete (key : text) : K H unit := through id (wit_delete key).
Definition adapter_list_keys (p : text) : K H (list text) := through id (wit_list_keys p).
Definition adapter_apply (ops : list WriteOp) : K H unit := through id (wit_apply (lower_op <$> ops)).
Definition adapter_list_entries (q : ListQuery) : K H EntryPage :=
  through lift_page (wit_list_entries q.(q_prefix) q.(q_start_after) q.(q_limit) q.(q_scan_limit) (lower_filter <$> q.(q_filter))).
Definition adapter_contains (key : text) : K H bool := through id (wit_contains key).
Definition adapter_len (key : text) : K H (option Z) := through id (wit_len key).
Definition adapter_count (p : text) : K H Z := through id (wit_count p).
End GuestSide.

(** *** The host's side *)

Section HostSide.
(** The host's store handle behind the imports. *)
Context {H : Type} `{LocalStoreHost H} (contains : text -> K H bool) (len : text -> K H (option Z)) (count : text -> K H Z).

Definition lift_op (op : WireWriteOp) : WriteOp :=
  match op with WSet kv => OpSet kv.(kv_key) kv.(kv_value) | WDelete key => OpDelete key end.

Definition lift_filter (f : WireFilter) : ValueFilter :=
  match f with WHasPrefix bytes => HasPrefix bytes | WLacksPrefix bytes => LacksPrefix bytes end.

Definition lower_page (p : EntryPage) : WirePage :=
  mkWirePage ((fun e : text * list Z => mkKeyValue e.1 e.2) <$> p.(entries)) p.(last_examined) p.(exhausted).

Definition serve {A B} (ok : A -> B) (call : K H A) : H -> result B WireFault * H :=
  fun h => let (r, h) := call h in (map_fault ok fault_to_wire r, h).

(** The [local_store::Host] implementation. *)
Definition served_store : WitStore H := {|
  wit_get key := serve id (kv_get key);
  wit_set key value := serve id (kv_set key value);
  wit_delete key := serve id (kv_delete key);
  wit_list_keys p := serve id (kv_list_keys p);
  wit_list_entries p start_after limit scan_limit filter :=
    serve lower_page (host_list_entries (mkListQuery p start_after limit scan_limit (lift_filter <$> filter)));
  wit_apply ops := serve id (host_apply (lift_op <$> ops));
  wit_contains key := serve id (contains key);
  wit_len key := serve id (len key);
  wit_count p := serve id (count p)
|}.
End HostSide.

(** ** Crossings *)

Lemma fault_lift_lower f : fault_from_wire (fault_to_wire f) = f.
Proof. by destruct f. Qed.

Lemma fault_lower_lift w : fault_to_wire (fault_from_wire w) = w.
Proof. by destruct w. Qed.

Lemma page_lift_lower p : lift_page (lower_page p) = p.
Proof.
  destruct p as [es last done]. unfold lift_page, lower_page. cbn. f_equal.
  rewrite <- list_fmap_compose. etransitivity; [|apply list_fmap_id]. apply list_fmap_ext. by intros i [k v] _.
Qed.

Lemma ops_lift_lower (ops : list WriteOp) : lift_op <$> (lower_op <$> ops) = ops.
Proof. rewrite <- list_fmap_compose. etransitivity; [|apply list_fmap_id]. apply list_fmap_ext. by intros i [] _. Qed.

Lemma query_lift_lower q :
  mkListQuery q.(q_prefix) q.(q_start_after) q.(q_limit) q.(q_scan_limit) (lift_filter <$> (lower_filter <$> q.(q_filter))) = q.
Proof. destruct q as [p s l sc [[]|]]; reflexivity. Qed.

(** A crossing and its answer, when the two conversions of the value are inverse. *)
Lemma through_serve {H A B} (down : A -> B) (up : B -> A) (call : K H A) h :
  (forall a, up (down a) = a) -> through up (serve down call) h = call h.
Proof.
  intros Hinv. unfold through, serve. destruct (call h) as [[a|f] h']; cbn; [by rewrite Hinv | by rewrite fault_lift_lower].
Qed.

(** C14: the store a module sees through the generated adapter is the
    store the host serves: every call, with every argument, answer and fault, crosses
    the boundary both ways unchanged, so that what is proved of the host's handle holds
    of the guest's. *)
Theorem adapter_is_transparent {H} `{LocalStoreHost H} contains len count :
  let W := served_store (H := H) contains len count in
  (forall key h, @adapter_get H W key h = kv_get key h) /\
  (forall key value h, @adapter_set H W key value h = kv_set key value h) /\
  (forall key h, @adapter_delete H W key h = kv_delete key h) /\
  (forall p h, @adapter_list_keys H W p h = kv_list_keys p h) /\
  (forall q h, @adapter_list_entries H W q h = host_list_entries q h) /\
  (forall ops h, @adapter_apply H W ops h = host_apply ops h) /\
  (forall key h, @adapter_contains H W key h = contains key h) /\
  (forall key h, @adapter_len H W key h = len key h) /\
  (forall p h, @adapter_count H W p h = count p h).
Proof.
  cbv zeta. split_and!; intros.
  5: { etransitivity; [apply (through_serve lower_page lift_page), page_lift_lower|]. by rewrite query_lift_lower. }
  5: { etransitivity; [apply (through_serve id id); done|]. by rewrite ops_lift_lower. }
  all: by apply (through_serve id id).
Qed.

(** The widths of an EVM log. *)
Record log_widths (log : AlloyLog) : Prop := mkWidths {
  lw_address : length log.(al_address) = 20%nat;
  lw_topics : Forall (fun t => length t = 32%nat) log.(al_topics);
  lw_block : forall h, log.(al_block_hash) = Some h -> length h = 32%nat;
  lw_tx : forall h, log.(al_transaction_hash) = Some h -> length h = 32%nat
}.

Lemma left_padding_exact n b : length b = n -> left_padding_from n b = Some b.
Proof. intros <-. unfold left_padding_from. by rewrite Nat.leb_refl, Nat.sub_diag. Qed.

Lemma pad_opt_exact n b : (forall h, b = Some h -> length h = n) -> pad_opt n b = Some b.
Proof. destruct b as [h|]; [|done]. intros Hb. unfold pad_opt. by rewrite (left_padding_exact n h (Hb h eq_refl)). Qed.

(** The log a handler receives is the log the node served: packing
    and rebuilding gives back every field, and never panics on the widths alloy's own
    types have. *)
Theorem log_crosses_unchanged (log : AlloyLog) (chain : Z) :
  log_widths log -> log_from_parts (wit_log log chain) = Some log.
Proof.
  intros [Ha Ht Hb Hx]. unfold log_from_parts, wit_log. cbn [wl_address wl_topics wl_data wl_block_hash wl_transaction_hash].
  rewrite (left_padding_exact _ _ Ha), (pad_opt_exact _ _ Hb), (pad_opt_exact _ _ Hx).
  assert (mapM (left_padding_from 32) log.(al_topics) = Some log.(al_topics)) as ->.
  { induction Ht as [|t ts Ht _ IH]; [done|]. cbn. by rewrite (left_padding_exact _ _ Ht), IH. }
  by destruct log.
Qed.

Definition transfer_log : AlloyLog :=
  mkAlloyLog (replicate 20 1) [replicate 32 2; replicate 32 3] [9] (Some (replicate 32 4)) (Some 7) None None None (Some 0) false.

Lemma log_crosses_unchanged_witness : log_from_parts (wit_log transfer_log 1) = Some transfer_log.
Proof.
  apply log_crosses_unchanged. split; [reflexivity | repeat constructor | |]; cbn; intros h [= <-]. reflexivity.
Defined.

Lemma contains_topic_spec needle set : contains_topic needle set = bool_decide (needle ∈ set).
Proof.
  induction set as [|t set IH]; [done|]. cbn [contains_topic]. rewrite IH.
  repeat case_bool_decide; set_solver.
Qed.

(** A fault a handler returns is what the supervisor classifies,
    and a fault the host answers is what the handler sees. *)
Theorem faults_cross_unchanged :
  (forall f, fault_from_wire (fault_to_wire f) = f) /\ (forall w, fault_to_wire (fault_from_wire w) = w) /\
  (forall e f, chain_fault (convert_chain_err e) = Some f <-> exists w, e = WcFault w /\ f = fault_from_wire w).
Proof.
  split; [apply fault_lift_lower|]. split; [apply fault_lower_lift|]. intros [w|code m d] f; cbn.
  - split; [intros [= <-]; eauto | intros (w' & [= <-] & ->); done].
  - split; [done | by intros (w' & [=] & _)].
Qed.
