(* ===== verification/GuestTracing.v ===== *)
(** * GuestTracing: a module's events, from the macro to the host's record

    crates/nexum-sdk/src/tracing.rs (the facade subscriber, its visitor and the panic
    hook), the log sink of wit_bindgen_macro.rs that carries an event over the WIT
    boundary, and the two test doubles that stand in for it, capture.rs and logging.rs
    of crates/nexum-sdk-test.  The host's end of the crossing is [HostGlue].

    The theorems: the host's record of an event is the event as it was recorded, value
    by value; the capture a module's tests read agrees with it; captures nest; and span
    ids are never zero. *)

From stdpp Require Import prelude list gmap strings.
From Stdlib Require Import ZArith Lia.
From S2P Require Import Prelude Policy Logs LogGate HostGlue.

Local Open Scope Z_scope.

#[local] Arguments chars_of : simpl never.

(** ** Events *)

Record Metadata : Type := mkMetadata {
  md_level : Level;
  md_target : text;
  md_file : option text;
  md_line : option Z
}.

(** What [tracing] hands a visitor: a value at its type, or its [Debug] rendering. *)
Inductive Recorded : Type :=
| RDebug (rendered : text)
| RStr (s : text)
| RU64 (n : Z)
| RI64 (n : Z)
| RF64 (bits : Z)
| RBool (b : bool).

Record Event : Type := mkEvent { ev_metadata : Metadata; ev_values : list (text * Recorded) }.

Definition MESSAGE : text := chars_of "message".

(** ** The facade *)

Record SdkSource : Type := mkSdkSource { sdk_target : text; sdk_file : option text; sdk_line : option Z }.
Definition SdkSource_default : SdkSource := mkSdkSource [] None None.

Inductive SdkValue : Type :=
| SText (t : text)
| SUnsigned (n : Z)
| SSigned (n : Z)
| SFloat (bits : Z)
| SBoolean (b : bool).

Record SdkField : Type := mkSdkField { sdk_name : text; sdk_value : SdkValue }.

(** One call of a [LogSink]. *)
Record SinkCall : Type := mkSinkCall {
  call_level : Level;
  call_source : SdkSource;
  call_message : text;
  call_fields : list SdkField
}.

(** [LogSink::log]: a bare line. *)
Definition sink_log (level : Level) (message : text) : SinkCall := mkSinkCall level SdkSource_default message [].

Record EventVisitor : Type := mkVisitor { vis_message : text; vis_fields : list SdkField }.
Definition EventVisitor_default : EventVisitor := mkVisitor [] [].

Definition vis_push (v : EventVisitor) (name : text) (value : SdkValue) : EventVisitor :=
  mkVisitor v.(vis_message) (v.(vis_fields) ++ [mkSdkField name value]).

(** The [Visit] implementation; only text goes to the message. *)
Definition vis_record (v : EventVisitor) (field : text * Recorded) : EventVisitor :=
  let name := field.1 in
  match field.2 with
  | RDebug t =>
      if bool_decide (name = MESSAGE) then mkVisitor (v.(vis_message) ++ t) v.(vis_fields) else vis_push v name (SText t)
  | RStr t =>
      if bool_decide (name = MESSAGE) then mkVisitor (v.(vis_message) ++ t) v.(vis_fields) else vis_push v name (SText t)
  | RU64 n => vis_push v name (SUnsigned n)
  | RI64 n => vis_push v name (SSigned n)
  | RF64 bits => vis_push v name (SFloat bits)
  | RBool b => vis_push v name (SBoolean b)
  end.

(** [FacadeSubscriber::event]: the sink call it makes. *)
Definition facade_event (e : Event) : SinkCall :=
  let m := e.(ev_metadata) in
  let v := foldl vis_record EventVisitor_default e.(ev_values) in
  mkSinkCall m.(md_level) (mkSdkSource m.(md_target) m.(md_file) m.(md_line)) v.(vis_message) v.(vis_fields).

(** [FacadeSubscriber::new_span] on its atomic counter, and [CaptureSubscriber]'s. *)
Definition new_span (next_id : Z) : Z * Z :=
  let raw := u64_wrap (next_id + 1) in
  (Z.max raw 1, u64_wrap (next_id + 1)).

(** *** The panic hook *)

Inductive PanicPayload : Type := PayStr (s : text) | PayString (s : text) | PayOther.

Definition PANIC_TARGET : text := chars_of "panic".

Definition panic_payload (p : PanicPayload) : text :=
  match p with
  | PayStr s => s
  | PayString s => s
  | PayOther => chars_of "<non-string panic payload>"
  end.

Definition format_panic (payload : text) (location : option (text * Z)) : text :=
  match location with
  | Some (file, line) => chars_of "panic: " ++ payload ++ chars_of " at " ++ file ++ chars_of ":" ++ decimal line
  | None => chars_of "panic: " ++ payload
  end.

(** What the hook does, in order. *)
Inductive PanicEv : Type := PStderr (line : text) | PSink (call : SinkCall).

Definition panic_hook (p : PanicPayload) (location : option (text * Z)) : list PanicEv :=
  let payload := panic_payload p in
  [PStderr (format_panic payload location);
   PSink (mkSinkCall LError (mkSdkSource PANIC_TARGET (fst <$> location) (snd <$> location)) (format_panic payload None) [])].

(** *** Installation *)

(** The process's subscriber, set once, and its panic hook; a sink is its name. *)
Record Globals (S : Type) : Type := mkGlobals { g_subscriber : option S; g_hook : option S }.
Arguments mkGlobals {S} _ _.
Arguments g_subscriber {S} _.
Arguments g_hook {S} _.

Definition init {S} (g : Globals S) (sink : S) : Globals S :=
  mkGlobals (match g.(g_subscriber) with Some s => Some s | None => Some sink end) (Some sink).

(** ** Over the boundary *)

(** [From<Level> for logging::Level]: equalities tried in order. *)
Definition level_to_wire (l : Level) : WireLevel :=
  if bool_decide (rank l = rank LError) then WError
  else if bool_decide (rank l = rank LWarn) then WWarn
  else if bool_decide (rank l = rank LInfo) then WInfo
  else if bool_decide (rank l = rank LDebug) then WDebug
  else WTrace.

Definition lower_field (f : SdkField) : WireField :=
  mkWireField f.(sdk_name)
    match f.(sdk_value) with
    | SText t => WireText t
    | SUnsigned n => WireUnsigned n
    | SSigned n => WireSigned n
    | SFloat bits => WireFloat bits
    | SBoolean b => WireBoolean b
    end.

(** [HostLogSink::log_event]: the import it calls. *)
Definition host_log_sink (c : SinkCall) : GuestLog :=
  GLogEvent (level_to_wire c.(call_level))
    (mkWireSource c.(call_source).(sdk_target) c.(call_source).(sdk_file) c.(call_source).(sdk_line))
    c.(call_message) (lower_field <$> c.(call_fields)).

(** [LoggingHost::log] of the adapter. *)
Definition adapter_log (level : Level) (message : text) : GuestLog := GLog (level_to_wire level) message.

(** ** The captures of a test *)

Inductive FieldValue : Type :=
| FStr (s : text)
| FU64 (n : Z)
| FI64 (n : Z)
| FF64 (bits : Z)
| FBool (b : bool)
| FDebug (s : text).

Record CapturedEvent : Type := mkCaptured {
  cap_level : Level;
  cap_target : text;
  cap_message : text;
  cap_fields : gmap text FieldValue
}.

Definition captured_field (e : CapturedEvent) (name : text) : option FieldValue := e.(cap_fields) !! name.

Definition field_text (float_text : Z -> text) (v : FieldValue) : text :=
  match v with
  | FStr s | FDebug s => s
  | FU64 n => decimal n
  | FI64 n => if n <? 0 then chars_of "-" ++ decimal (- n) else decimal n
  | FF64 bits => float_text bits
  | FBool b => if b then chars_of "true" else chars_of "false"
  end.

Definition field_str (float_text : Z -> text) (e : CapturedEvent) (name : text) : option text :=
  field_text float_text <$> e.(cap_fields) !! name.

(** [FieldVisitor]. *)
Definition cap_record (v : text * gmap text FieldValue) (field : text * Recorded) : text * gmap text FieldValue :=
  let name := field.1 in
  match field.2 with
  | RDebug t => if bool_decide (name = MESSAGE) then (v.1 ++ t, v.2) else (v.1, <[name := FDebug t]> v.2)
  | RStr t => if bool_decide (name = MESSAGE) then (v.1 ++ t, v.2) else (v.1, <[name := FStr t]> v.2)
  | RU64 n => (v.1, <[name := FU64 n]> v.2)
  | RI64 n => (v.1, <[name := FI64 n]> v.2)
  | RF64 bits => (v.1, <[name := FF64 bits]> v.2)
  | RBool b => (v.1, <[name := FBool b]> v.2)
  end.

(** [CaptureSubscriber::event]: what it pushes. *)
Definition capture_event (e : Event) : CapturedEvent :=
  let v := foldl cap_record ([], ∅) e.(ev_values) in
  mkCaptured e.(ev_metadata).(md_level) e.(ev_metadata).(md_target) v.1 v.2.

(** The thread's slot holds the active buffer; buffers live as long as a handle does. *)
Record Thread : Type := mkThread { th_active : option nat; th_buffers : list (list CapturedEvent) }.

(** What a test body does. *)
Inductive Body : Type :=
| BDone
| BEmit (e : Event)
| BThen (p q : Body)
| BCapture (p : Body)
| BPanic.

Definition push_event (t : Thread) (e : Event) : Thread :=
  match t.(th_active) with
  | Some i => mkThread t.(th_active) (alter (fun b => b ++ [capture_event e]) i t.(th_buffers))
  | None => t
  end.

(** Runs a body; the boolean says it unwound.  [capture_tracing] installs a fresh buffer
    and its guard puts the previous one back, unwinding or not. *)
Fixpoint run_body (p : Body) (t : Thread) : bool * Thread :=
  match p with
  | BDone => (false, t)
  | BEmit e => (false, push_event t e)
  | BThen p q => let (unwound, t) := run_body p t in if unwound : bool then (true, t) else run_body q t
  | BCapture p =>
      let previous := t.(th_active) in
      let (unwound, t) := run_body p (mkThread (Some (length t.(th_buffers))) (t.(th_buffers) ++ [[]])) in
      (unwound, mkThread previous t.(th_buffers))
  | BPanic => (true, t)
  end.

(** The queries of [CapturedEvents]. *)
Definition count_at (level : Level) (events : list CapturedEvent) : nat :=
  length (List.filter (fun e => rank e.(cap_level) =? rank level) events).

(** Exactly one match, or a panic. *)
Definition expect_one (pred : CapturedEvent -> bool) (events : list CapturedEvent) : option CapturedEvent :=
  match List.filter pred events with [only] => Some only | _ => None end.

(** [MockLogging]. *)
Record LogLine : Type := mkLogLine { line_level : Level; line_message : text }.
Definition mock_log (lines : list LogLine) (level : Level) (message : text) : list LogLine :=
  lines ++ [mkLogLine level message].

(** ** What an event is *)

(** The text a value adds to the message. *)
Definition message_text (field : text * Recorded) : option text :=
  match field.2 with
  | RDebug t | RStr t => if bool_decide (field.1 = MESSAGE) then Some t else None
  | _ => None
  end.

Definition typed (r : Recorded) : LogValue :=
  match r with
  | RDebug t | RStr t => VText t
  | RU64 n => VUnsigned n
  | RI64 n => VSigned n
  | RF64 bits => VFloat bits
  | RBool b => VBoolean b
  end.

(** The message and the fields of an event, in the order they were recorded. *)
Definition message_of (values : list (text * Recorded)) : text := concat (omap message_text values).
Definition fields_of (values : list (text * Recorded)) : list LogField :=
  omap (fun f => match message_text f with Some _ => None | None => Some (mkField f.1 (typed f.2)) end) values.

Definition host_value (f : SdkField) : LogField := lift_field (lower_field f).

Lemma message_of_cons f values : message_of (f :: values) = default [] (message_text f) ++ message_of values.
Proof. unfold message_of. cbn. by destruct (message_text f). Qed.

Lemma fields_of_cons f values :
  fields_of (f :: values) =
    (match message_text f with Some _ => [] | None => [mkField f.1 (typed f.2)] end) ++ fields_of values.
Proof. unfold fields_of. cbn. by destruct (message_text f). Qed.

Lemma visitor_spec values v :
  let v' := foldl vis_record v values in
  v'.(vis_message) = v.(vis_message) ++ message_of values /\
  host_value <$> v'.(vis_fields) = (host_value <$> v.(vis_fields)) ++ fields_of values.
Proof.
  revert v. induction values as [|[name r] values IH]; intros v; cbv zeta.
  - unfold message_of, fields_of. cbn. by rewrite !app_nil_r.
  - cbn [foldl]. destruct (IH (vis_record v (name, r))) as [-> ->]. rewrite message_of_cons, fields_of_cons.
    unfold vis_record, vis_push, message_text.
    destruct r; cbn [fst snd]; try case_bool_decide; cbn [vis_message vis_fields default];
      rewrite ?fmap_app, <- ?app_assoc; done.
Qed.

(** What a module writes is what the operator reads: whatever an
    event records, the record the host makes of it carries the event's level, its call
    site, its message, and every other value under its name, in order and at the type it
    was recorded at, a number named [message] included. *)
Theorem event_arrives_as_recorded (run : RunId) (ts : Z) (e : Event) :
  log_record run ts (host_log_sink (facade_event e)) =
    mkRecord run ts HostInterface e.(ev_metadata).(md_level) (message_of e.(ev_values))
      (mkLogSource e.(ev_metadata).(md_target) e.(ev_metadata).(md_file) e.(ev_metadata).(md_line))
      (fields_of e.(ev_values)).
Proof.
  destruct (visitor_spec e.(ev_values) EventVisitor_default) as [Hm Hf].
  unfold host_log_sink, facade_event. cbn. f_equal.
  - by destruct (md_level (ev_metadata e)).
  - exact Hm.
  - rewrite <- list_fmap_compose. exact Hf.
Qed.

(** ** The captures agree *)

(** A captured value, as the host would hold it. *)
Definition captured_typed (v : FieldValue) : LogValue :=
  match v with
  | FStr s | FDebug s => VText s
  | FU64 n => VUnsigned n
  | FI64 n => VSigned n
  | FF64 bits => VFloat bits
  | FBool b => VBoolean b
  end.

(** The fields by name, the last of a name winning. *)
Definition by_name (fs : list LogField) : gmap text LogValue :=
  foldl (fun m f => <[f.(field_name) := f.(field_value)]> m) ∅ fs.

Lemma by_name_snoc fs f : by_name (fs ++ [f]) = <[f.(field_name) := f.(field_value)]> (by_name fs).
Proof. unfold by_name. by rewrite foldl_app. Qed.

Lemma capture_spec values m fs done :
  captured_typed <$> fs = by_name done ->
  let v := foldl cap_record (m, fs) values in
  v.1 = m ++ message_of values /\ captured_typed <$> v.2 = by_name (done ++ fields_of values).
Proof.
  revert m fs done. induction values as [|[name r] values IH]; intros m fs done Hfs; cbv zeta.
  - unfold message_of, fields_of. cbn. by rewrite !app_nil_r.
  - assert (forall v t, captured_typed v = t -> captured_typed <$> <[name:=v]> fs = by_name (done ++ [mkField name t])) as Hins.
    { intros v t <-. by rewrite by_name_snoc, fmap_insert, Hfs. }
    cbn [foldl]. rewrite message_of_cons, fields_of_cons. unfold cap_record at 2 4, message_text.
    destruct r; cbn [fst snd]; try case_bool_decide; cbn [default];
         lazymatch goal with
         | |- context [foldl cap_record (?m', fs) ?l] => destruct (IH m' fs done Hfs) as [-> ->]; rewrite <- ?app_assoc; done
         | |- context [foldl cap_record (?m', <[name:=?v]> fs) ?l] =>
             destruct (IH m' (<[name:=v]> fs) _ (Hins v _ eq_refl)) as [-> ->]; rewrite <- ?app_assoc; done
         end.
Qed.

(** A module's tests see what its operator will: the captured event
    has the level, the target and the message of the host's record, and under each name
    the last value the host's record holds under it, at the same type. *)
Theorem capture_agrees_with_the_host (run : RunId) (ts : Z) (e : Event) :
  let r := log_record run ts (host_log_sink (facade_event e)) in
  let c := capture_event e in
  c.(cap_level) = r.(rec_level) /\ c.(cap_target) = r.(source).(target) /\ c.(cap_message) = r.(message) /\
  captured_typed <$> c.(cap_fields) = by_name r.(fields).
Proof.
  cbv zeta. destruct (capture_spec e.(ev_values) [] ∅ [] (fmap_empty _)) as [Hm Hf].
  destruct (visitor_spec e.(ev_values) EventVisitor_default) as [Hm' Hf'].
  unfold capture_event, host_log_sink, facade_event. cbn [cap_level cap_target cap_message cap_fields log_record rec_level source target message fields call_level call_message call_fields call_source sdk_target].
  split; [by destruct (md_level (ev_metadata e))|]. split; [done|]. split; [by rewrite Hm, Hm'|].
  rewrite Hf. f_equal. rewrite <- list_fmap_compose. symmetry. exact Hf'.
Qed.

(** ** Captures nest *)

(** The events a body emits itself before it ends or unwinds: not those of the captures
    inside it. *)
Fixpoint own_events (p : Body) : bool * list CapturedEvent :=
  match p with
  | BDone => (false, [])
  | BEmit e => (false, [capture_event e])
  | BThen p q =>
      let (unwound, es) := own_events p in
      if unwound : bool then (true, es) else let (unwound, es') := own_events q in (unwound, es ++ es')
  | BCapture p => ((own_events p).1, [])
  | BPanic => (true, [])
  end.

(** The buffers older than [n] keep their contents, but for what goes to the active
    one. *)
Lemma run_body_spec p t :
  (forall i, t.(th_active) = Some i -> (i < length t.(th_buffers))%nat) ->
  let '(unwound, t') := run_body p t in
  unwound = (own_events p).1 /\ t'.(th_active) = t.(th_active) /\
  (length t.(th_buffers) <= length t'.(th_buffers))%nat /\
  forall i b, t.(th_buffers) !! i = Some b ->
    t'.(th_buffers) !! i = Some (if decide (t.(th_active) = Some i) then b ++ (own_events p).2 else b).
Proof.
  revert t. induction p as [|e|p IHp q IHq|p IHp|]; intros t Hact; cbn [run_body own_events fst snd].
  - split_and!; [done..|]. intros i b ->. case_decide; by rewrite ?app_nil_r.
  - unfold push_event. destruct (th_active t) as [a|] eqn:Ea.
    + split_and!; [done|done|cbn; by rewrite length_alter|]. cbn. intros i b Hi. destruct (decide (a = i)) as [->|Hne].
      * rewrite list_lookup_alter_eq, Hi. by rewrite decide_True.
      * rewrite list_lookup_alter_ne, Hi by done. rewrite decide_False; [done|]. congruence.
    + split_and!; [done..|]. intros i b ->. by rewrite decide_False.
  - specialize (IHp t Hact). destruct (run_body p t) as [u1 t1]. destruct IHp as (-> & Ha1 & Hl1 & Hb1).
    destruct (own_events p) as [u es]. cbn [fst snd] in *. destruct u; [done|].
    specialize (IHq t1). destruct (run_body q t1) as [u2 t2].
    destruct IHq as (-> & Ha2 & Hl2 & Hb2); [rewrite Ha1; intros i Hi; specialize (Hact i Hi); lia|].
    destruct (own_events q) as [u' es']. cbn [fst snd] in *. split_and!; [done|congruence|lia|].
    intros i b Hi. rewrite (Hb2 i _ (Hb1 i b Hi)), Ha1. case_decide; by rewrite ?app_assoc.
  - specialize (IHp (mkThread (Some (length (th_buffers t))) (th_buffers t ++ [[]]))).
    destruct (run_body p _) as [u1 t1]. destruct IHp as (-> & _ & Hl & Hb); [cbn; intros i [= <-]; rewrite length_app; cbn; lia|].
    cbn [th_active th_buffers] in *. rewrite length_app in Hl. cbn [length] in Hl. split_and!; [done|done|lia|].
    intros i b Hi. specialize (Hb i b). rewrite lookup_app_l in Hb by by eapply lookup_lt_Some.
    specialize (Hb Hi). rewrite decide_False in Hb by (intros [= Ei]; apply lookup_lt_Some in Hi; lia).
    rewrite Hb. case_decide; by rewrite ?app_nil_r.
  - split_and!; [done..|]. intros i b ->. case_decide; by rewrite ?app_nil_r.
Qed.

(** A capture returns exactly the events its body emitted, in order,
    up to the panic if it unwound; captures inside it keep theirs, a capture around it
    sees none of them, and the capture that was active before is active again, unwinding
    or not. *)
Theorem captures_nest p t :
  (forall i, t.(th_active) = Some i -> (i < length t.(th_buffers))%nat) ->
  let '(unwound, t') := run_body (BCapture p) t in
  unwound = (own_events p).1 /\ t'.(th_active) = t.(th_active) /\
  t'.(th_buffers) !! length t.(th_buffers) = Some (own_events p).2 /\
  forall i b, t.(th_buffers) !! i = Some b -> t'.(th_buffers) !! i = Some b.
Proof.
  intros Hact. cbn [run_body].
  pose proof (run_body_spec p (mkThread (Some (length (th_buffers t))) (th_buffers t ++ [[]]))) as Hp.
  destruct (run_body p _) as [u1 t1]. destruct Hp as (-> & _ & _ & Hb); [cbn; intros i [= <-]; rewrite length_app; cbn; lia|].
  cbn [th_active th_buffers] in *. split_and!; [done|done| |].
  - rewrite (Hb _ []); [by rewrite decide_True|]. by rewrite lookup_app_r, Nat.sub_diag.
  - intros i b Hi. specialize (Hb i b). rewrite lookup_app_l in Hb by by eapply lookup_lt_Some.
    rewrite Hb by done. rewrite decide_False; [done|]. intros [= Ei]. apply lookup_lt_Some in Hi. lia.
Qed.

Definition hello : Event :=
  mkEvent (mkMetadata LInfo (chars_of "mod") None (Some 3)) [(MESSAGE, RDebug (chars_of "hi")); (chars_of "n", RU64 7); (MESSAGE, RU64 9)].

(** The inner capture unwinds; the outer one still holds what it saw before. *)
Lemma captures_nest_witness :
  let '(unwound, t') := run_body (BCapture (BThen (BEmit hello) (BThen (BCapture (BThen (BEmit hello) BPanic)) (BEmit hello)))) (mkThread None []) in
  unwound = true /\ t'.(th_active) = None /\ t'.(th_buffers) !! 0%nat = Some [capture_event hello].
Proof.
  pose proof (captures_nest (BThen (BEmit hello) (BThen (BCapture (BThen (BEmit hello) BPanic)) (BEmit hello))) (mkThread None [])
                ltac:(done)) as H.
  destruct (run_body _ _) as [u t']. destruct H as (Hu & Ha & Hb & _). split; [exact Hu|]. split; [exact Ha|exact Hb].
Defined.

(** ** Spans and installation *)

(** A span id is a nonzero [u64], whatever the counter holds, and
    the ids of the first [2 ^ 64 - 1] spans are all different. *)
Theorem span_ids_are_valid (next_id : Z) :
  (1 <= (new_span next_id).1 <= u64_max) /\
  forall n, 0 <= n < u64_max -> (new_span n).1 = n + 1.
Proof.
  unfold new_span, u64_wrap, u64_max. cbn [fst]. split.
  - pose proof (Z.mod_pos_bound (next_id + 1) (2 ^ 64) ltac:(lia)). lia.
  - intros n Hn. rewrite Z.mod_small; lia.
Qed.

(** However often a module installs the facade, events go to the first sink and panics to
    the last. *)
Lemma init_sets_once {S} (g : Globals S) s1 s2 :
  g.(g_subscriber) = None ->
  (init (init g s1) s2).(g_subscriber) = Some s1 /\ (init (init g s1) s2).(g_hook) = Some s2.
Proof. intros Hn. unfold init. cbn. by rewrite Hn. Qed.

(** The numeric [message] of [hello] is a field; its text is the message. *)
Example hello_arrives :
  let r := log_record (mkRunId (chars_of "m") 0 0) 5 (host_log_sink (facade_event hello)) in
  r.(message) = chars_of "hi" /\ r.(fields) = [mkField (chars_of "n") (VUnsigned 7); mkField MESSAGE (VUnsigned 9)].
Proof. vm_compute. done. Qed.
