(* ===== verification/StateDouble.v ===== *)
(** * StateDouble: the in-memory state store of the tests

    [MockStateStore] of crates/nexum-runtime-testing/src/store.rs, the double the
    supervisor's and the host's tests run against in place of the redb store.

    The theorems: over one namespace without a quota, the double answers every call as
    [LocalStore] does, pages included, call after call; a batch is checked against the
    quota as a whole; and where the two differ is shown: the empty key, which only the
    double never lists, and what an entry costs. *)

From stdpp Require Import prelude list gmap strings.
From Stdlib Require Import ZArith Lia.
From S2P Require Import Prelude StoreApi LocalStore LocalStoreSafety.

Local Open Scope Z_scope.

#[local] Arguments chars_of : simpl never.

(** ** The double *)

Notation Namespaces := (gmap text (gmap text (list Z))) (only parsing).

Record MockStateHandle : Type := mkMockHandle { mock_namespace : text; mock_quota : option Z }.

Definition mock_module (namespace : text) : result MockStateHandle StoreError :=
  if bool_decide (namespace = []) then Err (InvalidNamespace (chars_of "module namespace must not be empty"))
  else Ok (mkMockHandle namespace None).

Definition mock_with_quota (h : MockStateHandle) (quota : Z) : MockStateHandle := mkMockHandle h.(mock_namespace) (Some quota).

(** [entry(..).or_default()]. *)
Definition mock_ns (m : Namespaces) (h : MockStateHandle) : gmap text (list Z) := default ∅ (m !! h.(mock_namespace)).

(** What an entry counts for. *)
Definition mock_cost (key : text) (value : list Z) : Z := len key + len value.
Definition mock_used (ns : gmap text (list Z)) : Z := sumZ ((fun e : text * list Z => mock_cost e.1 e.2) <$> map_to_list ns).

Definition mock_get (m : Namespaces) (h : MockStateHandle) (key : text) : result (option (list Z)) StoreError :=
  Ok (mock_ns m h !! key).

Definition mock_set (m : Namespaces) (h : MockStateHandle) (key : text) (value : list Z)
    : result unit StoreError * Namespaces :=
  let ns := mock_ns m h in
  let put := (Ok tt, <[h.(mock_namespace) := <[key := value]> ns]> m) in
  match h.(mock_quota) with
  | Some quota =>
      let entry := mock_cost key value in
      let old := default 0 (mock_cost key <$> ns !! key) in
      let projected := sat_sub (mock_used ns) old + entry in
      if quota <? projected then
        (Err (if quota <? entry then QuotaUnsatisfiable entry quota else QuotaExceeded projected quota),
         <[h.(mock_namespace) := ns]> m)
      else put
  | None => put
  end.

Definition mock_delete (m : Namespaces) (h : MockStateHandle) (key : text) : result unit StoreError * Namespaces :=
  (Ok tt, alter (delete key) h.(mock_namespace) m).

(** Both listings collect in hash order and sort; [in_order] is the sorted map. *)
Definition mock_list_keys (m : Namespaces) (h : MockStateHandle) (p : text) : result (list text) StoreError :=
  Ok (fst <$> under_prefix p (in_order (mock_ns m h))).

(** The loop of [list_entries]; [examined] is the enumeration's index. *)
Fixpoint mock_loop (limit scan_limit : Z) (filter : option ValueFilter) (rows : list entry)
    (page : EntryPage) (examined bytes : Z) : EntryPage :=
  match rows with
  | [] => page
  | (key, value) :: rows =>
      if examined =? scan_limit then mkEntryPage page.(entries) page.(last_examined) false
      else if match filter with None => true | Some f => keeps f value end then
        let cost := mock_cost key value in
        let full := (Z.of_nat (length page.(entries)) =? limit)
                    || (negb (bool_decide (page.(entries) = [])) && (MAX_LIST_RESPONSE_BYTES <? bytes + cost)) in
        if full then mkEntryPage page.(entries) page.(last_examined) false
        else mock_loop limit scan_limit filter rows
               (mkEntryPage (page.(entries) ++ [(key, value)]) (Some key) page.(exhausted)) (examined + 1) (bytes + cost)
      else mock_loop limit scan_limit filter rows
             (mkEntryPage page.(entries) (Some key) page.(exhausted)) (examined + 1) bytes
  end.

Definition mock_rows (q : ListQuery) (ns : gmap text (list Z)) : list entry :=
  List.filter (fun e : entry => starts_with q.(q_prefix) e.1 && bytes_lt q.(q_start_after) e.1) (in_order ns).

Definition mock_list_entries (m : Namespaces) (h : MockStateHandle) (q : ListQuery) : result EntryPage StoreError :=
  match resolved_limit q with
  | None => Err (ListLimitExceeded q.(q_limit) MAX_LIST_LIMIT)
  | Some limit =>
      match resolved_scan_limit q with
      | None => Err (ListScanLimitExceeded q.(q_scan_limit) MAX_LIST_SCAN_LIMIT)
      | Some scan_limit =>
          Ok (mock_loop limit scan_limit q.(q_filter) (mock_rows q (mock_ns m h)) (mkEntryPage [] None true) 0 0)
      end
  end.

Definition mock_released (ns : gmap text (list Z)) (fs : gmap text (option Z)) : Z :=
  sumZ ((fun e : text * option Z => default 0 (mock_cost e.1 <$> ns !! e.1)) <$> map_to_list fs).
Definition mock_charged (fs : gmap text (option Z)) : Z :=
  sumZ ((fun e : text * option Z => default 0 ((fun n => len e.1 + n) <$> e.2)) <$> map_to_list fs).

Definition mock_write (ns : gmap text (list Z)) (op : WriteOp) : gmap text (list Z) :=
  match op with OpSet key value => <[key := value]> ns | OpDelete key => delete key ns end.

Definition mock_apply (m : Namespaces) (h : MockStateHandle) (ops : list WriteOp) : result unit StoreError * Namespaces :=
  if MAX_APPLY_OPS <? Z.of_nat (length ops) then (Err (ApplyOpsExceeded (Z.of_nat (length ops)) MAX_APPLY_OPS), m)
  else if MAX_APPLY_VALUE_BYTES <? apply_value_bytes ops then
    (Err (ApplyBytesExceeded (apply_value_bytes ops) MAX_APPLY_VALUE_BYTES), m)
  else
    let ns := mock_ns m h in
    let put := (Ok tt, <[h.(mock_namespace) := foldl mock_write ns ops]> m) in
    match h.(mock_quota) with
    | Some quota =>
        let fs := finals ops in
        let charged := mock_charged fs in
        let projected := sat_sub (mock_used ns) (mock_released ns fs) + charged in
        if quota <? projected then
          (Err (if quota <? charged then QuotaUnsatisfiable charged quota else QuotaExceeded projected quota),
           <[h.(mock_namespace) := ns]> m)
        else put
    | None => put
    end.

(** ** Calls *)

Inductive StoreOp : Type :=
| SoGet (key : text)
| SoSet (key : text) (value : list Z)
| SoDelete (key : text)
| SoListKeys (p : text)
| SoListEntries (q : ListQuery)
| SoApply (ops : list WriteOp).

Inductive StoreAnswer : Type :=
| SaValue (r : result (option (list Z)) StoreError)
| SaDone (r : result unit StoreError)
| SaKeys (r : result (list text) StoreError)
| SaPage (r : result EntryPage StoreError).

Definition mock_op (h : MockStateHandle) (m : Namespaces) (op : StoreOp) : StoreAnswer * Namespaces :=
  match op with
  | SoGet key => (SaValue (mock_get m h key), m)
  | SoSet key value => let (r, m) := mock_set m h key value in (SaDone r, m)
  | SoDelete key => let (r, m) := mock_delete m h key in (SaDone r, m)
  | SoListKeys p => (SaKeys (mock_list_keys m h p), m)
  | SoListEntries q => (SaPage (mock_list_entries m h q), m)
  | SoApply ops => let (r, m) := mock_apply m h ops in (SaDone r, m)
  end.

Section Redb.
Context {T : Type} `{OrderedTable T}.

Definition redb_op (h : ModuleStore) (s : LocalStore T) (op : StoreOp) : StoreAnswer * LocalStore T :=
  match op with
  | SoGet key => (SaValue (map_err store_error (ms_get s h no_faults key)), s)
  | SoSet key value => let (r, s) := ms_set s h no_faults key value in (SaDone (map_err store_error r), s)
  | SoDelete key => let (r, s) := ms_delete s h no_faults key in (SaDone (map_err store_error r), s)
  | SoListKeys p => (SaKeys (map_err store_error (ms_list_keys s h no_faults p)), s)
  | SoListEntries q => (SaPage (map_err store_error (ms_list_entries s h no_faults q)), s)
  | SoApply ops => let (r, s) := ms_apply s h no_faults ops in (SaDone (map_err store_error r), s)
  end.
End Redb.

(** A run of calls and its answers. *)
Fixpoint run_ops {S} (step : S -> StoreOp -> StoreAnswer * S) (s : S) (ops : list StoreOp) : list StoreAnswer * S :=
  match ops with
  | [] => ([], s)
  | op :: ops => let (a, s) := step s op in let (rest, s) := run_ops step s ops in (a :: rest, s)
  end.

(** A Rust string that is not empty. *)
Definition key_ok (k : text) : Prop := utf8_valid k = true /\ k <> [].

Definition op_ok (op : StoreOp) : Prop :=
  match op with
  | SoSet key _ => key_ok key
  | SoApply ops => Forall (fun o => key_ok (op_key o)) ops
  | _ => True
  end.

(** ** The simulation *)

Section Simulation.
Context {T : Type} `{OrderedTableLaws T}.
Context (h : ModuleStore) (mh : MockStateHandle).
Hypothesis handle_wf : handle_ok h.
Hypothesis redb_unquoted : h.(quota_bytes) = None.
Hypothesis mock_unquoted : mh.(mock_quota) = None.

(** The double's namespace holds what the table holds under the prefix, under keys a
    guest can write. *)
Record mirrors (s : LocalStore T) (m : Namespaces) : Prop := mkMirrors {
  mi_rows : forall k, mock_ns m mh !! k = t_view s.(db) !! build_key h k;
  mi_keys : forall k v, mock_ns m mh !! k = Some v -> key_ok k;
  mi_counters : counters_ok s
}.

Lemma mock_ns_put (m : Namespaces) (ns : gmap text (list Z)) : mock_ns (<[mh.(mock_namespace) := ns]> m) mh = ns.
Proof. unfold mock_ns. by rewrite lookup_insert_eq. Qed.

Lemma mock_ns_alter (m : Namespaces) (f : gmap text (list Z) -> gmap text (list Z)) : f ∅ = ∅ -> mock_ns (alter f mh.(mock_namespace) m) mh = f (mock_ns m mh).
Proof. intros Hf. unfold mock_ns. rewrite lookup_alter_eq. by destruct (m !! _). Qed.

Lemma mirrored_rows (s : LocalStore T) (m : Namespaces) : mirrors s m -> in_order (mock_ns m mh) = ns_entries h (t_view s.(db)).
Proof.
  intros Hm. apply ordered_unique; [apply in_order_ordered|apply ns_entries_ordered|]. intros [k v].
  by rewrite in_order_elem, ns_entries_elem, (mi_rows _ _ Hm).
Qed.

Lemma insert_mirrored (m : gmap text (list Z)) (view : gmap (list Z) (list Z)) key value k :
  (forall k, m !! k = view !! build_key h k) -> <[key := value]> m !! k = <[build_key h key := value]> view !! build_key h k.
Proof.
  intros Hr. destruct (decide (k = key)) as [->|Hne]; [by rewrite !lookup_insert_eq|].
  rewrite !lookup_insert_ne; [apply Hr|intros ?%build_key_inj; congruence|done].
Qed.

Lemma delete_mirrored (m : gmap text (list Z)) (view : gmap (list Z) (list Z)) key k :
  (forall k, m !! k = view !! build_key h k) -> delete key m !! k = delete (build_key h key) view !! build_key h k.
Proof.
  intros Hr. destruct (decide (k = key)) as [->|Hne]; [by rewrite !lookup_delete_eq|].
  rewrite !lookup_delete_ne; [apply Hr|intros ?%build_key_inj; congruence|done].
Qed.

(** A write call, which without faults or quota is refused only for its size. *)
Lemma write_mirrored (s : LocalStore T) (m : Namespaces) (c : StoreCall) (ns' : gmap text (list Z)) :
  mirrors s m -> call_handle c = h -> (run_call s c).1 = Ok tt ->
  (forall k, ns' !! k = written c (t_view s.(db)) !! build_key h k) ->
  (forall k v, ns' !! k = Some v -> key_ok k) ->
  mirrors (run_call s c).2 (<[mh.(mock_namespace) := ns']> m).
Proof.
  intros Hm Hh Hok Hrows Hkeys. pose proof (run_call_spec s c (mi_counters _ _ Hm)) as Hs.
  rewrite Hh in Hs. specialize (Hs handle_wf). destruct (run_call s c) as [r s']. cbn in Hok. subst r. destruct Hs as [Hv Hc].
  split; rewrite ?mock_ns_put; [|exact Hkeys|exact Hc]. intros k. cbn. rewrite Hv. apply Hrows.
Qed.

Lemma list_loop_mock fp limit scan_limit flt l page examined bytes :
  Forall (fun e => utf8_valid e.1 = true) (strip h <$> scan_prefix fp l) ->
  list_loop h fp limit scan_limit flt l page examined bytes =
    mock_loop limit scan_limit flt (strip h <$> scan_prefix fp l) page examined bytes.
Proof.
  revert page examined bytes. induction l as [|[kb v] l IH]; intros page examined bytes Hu; [done|].
  cbn [list_loop scan_prefix] in *. destruct (starts_with fp kb); cbn [negb]; [|done].
  cbn in Hu. apply Forall_cons in Hu as [Hk Hu]. cbn in Hk. rewrite fmap_cons. cbn [mock_loop strip fst snd]. rewrite Hk. cbn [negb].
  destruct (examined =? scan_limit); [done|]. unfold mock_cost. destruct flt as [f|]; [destruct (keeps f v)|];
    try (destruct (_ || _); [done|]); by apply IH.
Qed.

Lemma filter_filter (f g : entry -> bool) l : List.filter f (List.filter g l) = List.filter (fun e => g e && f e) l.
Proof. induction l as [|e l IH]; [done|]. cbn. destruct (g e) eqn:Eg; cbn; [destruct (f e); cbn; by rewrite IH|exact IH]. Qed.

Lemma mock_rows_spec (q : ListQuery) (s : LocalStore T) (m : Namespaces) : mirrors s m ->
  mock_rows q (mock_ns m mh) = resume_after q.(q_start_after) (under_prefix q.(q_prefix) (ns_entries h (t_view s.(db)))).
Proof.
  intros Hm. rewrite <- (mirrored_rows s m Hm). unfold mock_rows, resume_after, under_prefix. rewrite filter_filter.
  apply List.filter_ext_in. intros [k v] Hin. apply list_elem_of_In, in_order_elem in Hin. cbn.
  destruct (mi_keys _ _ Hm k v Hin) as [_ Hne]. f_equal. case_bool_decide as E; [|done]. rewrite E. by destruct k.
Qed.

Lemma op_mirrored (s : LocalStore T) (m : Namespaces) (op : StoreOp) : mirrors s m -> op_ok op ->
  (redb_op h s op).1 = (mock_op mh m op).1 /\ mirrors (redb_op h s op).2 (mock_op mh m op).2.
Proof.
  intros Hm Hop. pose proof (mi_rows _ _ Hm) as Hr. pose proof (mi_keys _ _ Hm) as Hkeys.
  assert (Forall (fun e => utf8_valid e.1 = true) (ns_entries h (t_view s.(db)))) as Hutf.
  { apply Forall_forall. intros [k v] Hin%ns_entries_elem. rewrite <- Hr in Hin. by apply (Hkeys k v). }
  destruct op as [key|key value|key|p|q|ops]; cbn [redb_op mock_op op_ok] in *.
  - split; [|done]. unfold ms_get, read_txn, mock_get. cbn. by rewrite view_get, Hr.
  - assert ((run_call s (CallSet h no_faults key value)).1 = Ok tt) as Hok
      by (cbn; unfold ms_set; rewrite redb_unquoted; cbn; by rewrite andb_false_r).
    pose proof (write_mirrored s m (CallSet h no_faults key value) (<[key:=value]> (mock_ns m mh)) Hm eq_refl Hok) as Hw.
    unfold mock_set. rewrite mock_unquoted. cbn [run_call] in *. destruct (ms_set s h no_faults key value) as [r s']. cbn in Hok. subst r.
    split; [done|]. apply Hw; [intros k; by apply insert_mirrored|].
    intros k v. destruct (decide (k = key)) as [->|Hne]; [done|]. rewrite lookup_insert_ne by done. apply Hkeys.
  - assert ((run_call s (CallDelete h no_faults key)).1 = Ok tt) as Hok by (cbn; unfold ms_delete; cbn; by rewrite andb_false_r).
    pose proof (run_call_spec s (CallDelete h no_faults key) (mi_counters _ _ Hm) handle_wf) as Hs.
    cbn [run_call] in *. destruct (ms_delete s h no_faults key) as [r s']. cbn in Hok. subst r. destruct Hs as [Hv Hc].
    split; [done|]. cbn [mock_delete snd]. split; [| |exact Hc]; rewrite mock_ns_alter by apply delete_empty.
    + intros k. rewrite Hv. cbn. by apply delete_mirrored.
    + intros k v [_ Hk]%lookup_delete_Some. by apply (Hkeys k v).
  - split; [|done]. unfold ms_list_keys, mock_list_keys, read_txn. cbn. do 2 f_equal.
    rewrite (mirrored_rows s m Hm).
    pose proof (scan_range_spec h s.(db) (mkListQuery p [] 0 0 None)) as Hs. unfold list_lower in Hs.
    cbn [q_start_after q_prefix] in Hs. rewrite bool_decide_eq_true_2, resume_after_nil in Hs by done. cbn [orb] in Hs.
    assert (Forall (fun e => utf8_valid e.1 = true) (strip h <$> scan_prefix (build_key h p) (t_range s.(db) (build_key h p, true)))) as Hu.
    { rewrite Hs. apply Forall_forall. intros e. unfold under_prefix. rewrite list_elem_of_In, List.filter_In, <- list_elem_of_In.
      intros [Hin _]. rewrite Forall_forall in Hutf. by apply Hutf. }
    rewrite <- Hs. clear Hs. induction (scan_prefix _ _) as [|[kb v] l IH]; [done|]. cbn in Hu |- *.
    apply Forall_cons in Hu as [Hk Hu]. cbn in Hk. rewrite Hk. cbn. by rewrite (IH Hu).
  - split; [|done]. f_equal. unfold ms_list_entries, mock_list_entries.
    destruct (resolved_limit q) as [limit|]; [|done]. destruct (resolved_scan_limit q) as [scan_limit|]; [|done].
    unfold read_txn. cbn. f_equal. rewrite (mock_rows_spec q s m Hm), <- scan_range_spec. f_equal. apply list_loop_mock.
    rewrite scan_range_spec. apply Forall_forall. intros e. unfold resume_after, under_prefix.
    rewrite list_elem_of_In, !List.filter_In, <- list_elem_of_In. intros [[Hin _] _]. rewrite Forall_forall in Hutf. by apply Hutf.
  - unfold mock_apply, ms_apply. destruct (MAX_APPLY_OPS <? _) eqn:E1; [done|]. destruct (MAX_APPLY_VALUE_BYTES <? _) eqn:E2; [done|].
    rewrite mock_unquoted, redb_unquoted. cbn [begin_fails open_table_fails read_fails write_fails commit_fails no_faults].
    pose proof (write_mirrored s m (CallApply h no_faults ops) (foldl mock_write (mock_ns m mh) ops) Hm eq_refl) as Hw.
    cbn [run_call] in Hw. unfold ms_apply in Hw. rewrite E1, E2, redb_unquoted in Hw.
    cbn [begin_fails open_table_fails read_fails write_fails commit_fails no_faults] in Hw.
    rewrite !andb_false_r in *. split; [done|]. apply Hw; [done| |].
    + unfold written. cbn [call_handle call_ops]. clear - Hr. generalize dependent (t_view s.(db)). generalize (mock_ns m mh).
      induction ops as [|o ops IH]; intros ns view Hr k; [apply Hr|]. cbn. apply IH. clear k. intros k.
      destruct o; [by apply insert_mirrored | by apply delete_mirrored].
    + clear Hw E1 E2. revert Hkeys. generalize (mock_ns m mh). induction Hop as [|o ops Ho _ IH]; intros ns Hkeys; [done|].
      cbn. apply IH. intros k v. destruct o as [key value|key]; cbn in *.
      * destruct (decide (k = key)) as [->|Hne]; [done|]. rewrite lookup_insert_ne by done. apply Hkeys.
      * intros [_ Hk]%lookup_delete_Some. by apply (Hkeys k v).
Qed.

End Simulation.

(** ** Concrete runs *)

Module DoubleDemo.
Definition mock : MockStateHandle := mkMockHandle (chars_of "m") None.
Definition redb : ModuleStore := mkModuleStore (Demo.digest (chars_of "m")) None.
Definition ops : list StoreOp :=
  [SoSet (chars_of "b") [2]; SoSet (chars_of "a") [1]; SoApply [OpSet (chars_of "c") [3]; OpDelete (chars_of "b")];
   SoListKeys []; SoListEntries (mkListQuery [] (chars_of "a") 1 0 None); SoGet (chars_of "a");
   SoListEntries (mkListQuery [] [] 5000 0 None)].
End DoubleDemo.


(** The empty key is the beginning of a listing, exclusive of nothing; the double's
    comparison leaves out the entry stored under it, which the redb store returns. *)
Example mock_never_lists_the_empty_key :
  let ops := [SoSet [] [9]; SoListEntries (mkListQuery [] [] 0 0 None)] in
  (run_ops (redb_op DoubleDemo.redb) Demo.store0 ops).1
    = [SaDone (Ok tt); SaPage (Ok (mkEntryPage [([], [9])] (Some []) true))] /\
  (run_ops (mock_op DoubleDemo.mock) ∅ ops).1 = [SaDone (Ok tt); SaPage (Ok (mkEntryPage [] None true))].
Proof. vm_compute. done. Qed.

(** The double charges an entry its bytes only; the store adds its prefix and overhead. *)
Example mock_charges_less :
  (mock_set ∅ (mock_with_quota DoubleDemo.mock 10) (chars_of "k") [1; 2]).1 = Ok tt /\
  (ms_set Demo.store0 (with_quota DoubleDemo.redb 10) no_faults (chars_of "k") [1; 2]).1 = Err (SQuotaUnsatisfiable 67 10).
Proof. vm_compute. done. Qed.
