(* ===== verification/ModuleMacro.v ===== *)
(** * ModuleMacro: the [#[nexum_sdk::module]] attribute

    crates/nexum-module-macros/src/lib.rs: the arguments, the refusals in the order they
    are checked, the facts read from the manifest ([World]), and the glue that is
    emitted, as data with a meaning: the anchors, the inline world and its packages, the
    adapters, the topic assertions, and the [Guest] implementation that dispatches a
    trigger to the module's handlers.  [syn]'s own grammar, types and tokens are
    parameters.

    The theorems: no handler of an accepted impl is ever lost, the assertions hold
    exactly when the two sets of topics are equal, and a module that uses what its
    expansion gives it is admitted by the runtime. *)

From stdpp Require Import prelude list gmap strings.
From Stdlib Require Import ZArith Lia.
From S2P Require Import Prelude Toml Admission World Adapter.

Local Open Scope rust_scope.
Local Open Scope Z_scope.

#[local] Arguments chars_of : simpl never.

Definition HANDLERS : list text :=
  [chars_of "init"; chars_of "on_block"; chars_of "on_event"; chars_of "on_schedule"; chars_of "on_extension"].

(** ** Input *)

(** A token tree of the attribute: [TOther] is any token that is not an identifier. *)
Inductive Tok : Type := TIdent (name : text) | TParen (inner : list Tok) | TOther.

Inductive ImplItem : Type := ItemFn (name : text) | ItemOther.
#[global] Instance ImplItem_eq_dec : EqDecision ImplItem.
Proof. solve_decision. Defined.

Record ItemImpl : Type := mkItemImpl {
  ii_self_ty : text;
  ii_plain : bool;
  ii_trait : option text;
  ii_generics : list text;
  ii_items : list ImplItem
}.

Section Macro.
(** [syn::Path], the parser of a comma-separated list of them, and their spelling. *)
Context {P : Type} (parse_paths : list Tok -> option (list P)).

Inductive MacroError : Type :=
| NonIdentArgument
| UnknownArgument
| TrailingTokens
| EmptySolEvents
| MalformedArgs
| UnnamedSelfType (self_ty : text)
| TraitImpl (trait_path : text)
| GenericImpl (generics : list text)
| UnknownHandler (ident : text)
| NoHandlers (self_ty : text)
| NoManifestDir (source : WorldError)
| ManifestUnreadable (path : path)
| MacroManifest (path : path) (source : WorldError)
| RegistryUnreadable (path : path)
| WitResolution (source : WorldError)
| SolEventsWithoutEventTrigger (path : path).

(** Which tokens a diagnostic underlines. *)
Inductive ErrorSite : Type := AtArgument | AtTokens | AtCallSite | SynOwn.

(** [into_syn_error]. *)
Definition error_site (e : MacroError) : ErrorSite :=
  match e with
  | MalformedArgs => SynOwn
  | NonIdentArgument | UnknownArgument | TrailingTokens | EmptySolEvents => AtArgument
  | UnnamedSelfType _ | TraitImpl _ | GenericImpl _ | UnknownHandler _ | NoHandlers _ => AtTokens
  | NoManifestDir _ | ManifestUnreadable _ | MacroManifest _ _ | RegistryUnreadable _ | WitResolution _
  | SolEventsWithoutEventTrigger _ => AtCallSite
  end.

(** ** Arguments *)

Definition parse_args (tokens : list Tok) : result (list P) MacroError :=
  match tokens with
  | [] => Ok []
  | TIdent ident :: input =>
      if bool_decide (ident = chars_of "sol_events") then
        match input with
        | TParen inner :: rest =>
            match rest with
            | [] =>
                match parse_paths inner with
                | None => Err MalformedArgs
                | Some [] => Err EmptySolEvents
                | Some paths => Ok paths
                end
            | _ => Err TrailingTokens
            end
        | _ => Err MalformedArgs
        end
      else Err UnknownArgument
  | _ => Err NonIdentArgument
  end.

(** ** The manifest *)

Record ManifestFacts : Type := mkFacts {
  mf_anchors : list path;
  mf_world : ModuleWorld;
  mf_event_topics : list (list Z)
}.

Context (parse_toml : text -> option (list (text * Toml))) (parse_b256 : text -> option (list Z)).
Context (is_file is_dir : path -> bool) (read_to_string : path -> option text).

Definition derive_manifest_facts (crate_dir : path) (want_topics : bool) : result ManifestFacts MacroError :=
  let file := chars_of "component.toml" :: crate_dir in
  let? doc := ok_or (ManifestUnreadable file) (read_to_string file) in
  let? declared := map_err (MacroManifest file) (manifest_capabilities parse_toml doc) in
  let? event_topics :=
    (if want_topics then map_err (MacroManifest file) (manifest_event_topics parse_toml parse_b256 doc) else Ok []) in
  let? found :=
    match find_extensions_manifest is_file crate_dir with
    | None => Ok ([file], [])
    | Some registry =>
        let? doc := ok_or (RegistryUnreadable registry) (read_to_string registry) in
        let? rows := map_err (MacroManifest registry) (manifest_extensions parse_toml doc) in
        Ok ([file; registry], rows)
    end in
  let? world := map_err (MacroManifest file) (synthesize declared found.2) in
  if want_topics && bool_decide (event_topics = []) then Err (SolEventsWithoutEventTrigger file)
  else Ok (mkFacts found.1 world event_topics).

(** ** The topic assertions *)

(** An emitted assertion: [DECLARED[i]] is among [MANIFEST], or [MANIFEST[j]] among
    [DECLARED]. *)
Inductive TopicCheck : Type := CheckDeclared (i : nat) | CheckManifest (j : nat).

Record Parity : Type := mkParity {
  par_manifest : list (list Z);
  par_declared : list P;
  par_checks : list TopicCheck
}.

Definition topic_parity_check (events : list P) (topics : list (list Z)) : option Parity :=
  match events with
  | [] => None
  | _ => Some (mkParity topics events (imap (fun i _ => CheckDeclared i) events ++ imap (fun j _ => CheckManifest j) topics))
  end.

(** ** The expansion *)

(** One arm of [on_trigger]: the variant, and the handler it calls. *)
Inductive Variant : Type := VBlock | VEvent | VSchedule | VExtension.
#[global] Instance Variant_eq_dec : EqDecision Variant.
Proof. solve_decision. Defined.

Definition dispatch_arm (present : list text) (handler : text) (variant : Variant) : Variant * option text :=
  (variant, if bool_decide (handler ∈ present) then Some handler else None).

(** [init_export]: the world requires [init], so it is emitted with or without one. *)
Definition init_export (has_init : bool) : option text := if has_init then Some (chars_of "init") else None.

Record Expansion : Type := mkExpansion {
  ex_anchors : list path;
  ex_inline : text;
  ex_paths : list path;
  ex_adapters : list text;
  ex_parity : option Parity;
  ex_impl : ItemImpl;
  ex_init : option text;
  ex_arms : list (Variant * option text)
}.

Definition fn_name (item : ImplItem) : option text := match item with ItemFn name => Some name | ItemOther => None end.

(** An [on_] method outside the handler set. *)
Definition unknown_handler (items : list ImplItem) : option text :=
  List.find (fun name => starts_with (chars_of "on_") name && negb (bool_decide (name ∈ HANDLERS))) (omap fn_name items).

Definition present_handlers (items : list ImplItem) : list text :=
  omap (fun item => name ← fn_name item; List.find (fun h => bool_decide (h = name)) HANDLERS) items.

Definition expand (sol_events : list P) (var : option path) (input : ItemImpl) : result Expansion MacroError :=
  if negb input.(ii_plain) then Err (UnnamedSelfType input.(ii_self_ty))
  else match input.(ii_trait) with
  | Some trait_path => Err (TraitImpl trait_path)
  | None =>
      if negb (bool_decide (input.(ii_generics) = [])) then Err (GenericImpl input.(ii_generics))
      else match unknown_handler input.(ii_items) with
      | Some name => Err (UnknownHandler name)
      | None =>
          let present := present_handlers input.(ii_items) in
          if bool_decide (present = []) then Err (NoHandlers input.(ii_self_ty))
          else
            let? dir := map_err NoManifestDir (manifest_dir var) in
            let? facts := derive_manifest_facts dir (negb (bool_decide (length sol_events = 0%nat))) in
            let parity := topic_parity_check sol_events facts.(mf_event_topics) in
            let? wit_paths := map_err WitResolution (manifest_wit_packages is_dir var facts.(mf_world).(packages)) in
            Ok (mkExpansion facts.(mf_anchors) facts.(mf_world).(wit) wit_paths facts.(mf_world).(adapters) parity input
                  (init_export (bool_decide (chars_of "init" ∈ present)))
                  [dispatch_arm present (chars_of "on_block") VBlock;
                   dispatch_arm present (chars_of "on_event") VEvent;
                   dispatch_arm present (chars_of "on_schedule") VSchedule;
                   dispatch_arm present (chars_of "on_extension") VExtension])
      end
  end.

(** [module], the attribute. *)
Definition module_attr (attr : list Tok) (var : option path) (item : ItemImpl) : result Expansion MacroError :=
  let? sol_events := parse_args attr in expand sol_events var item.

(** ** What the emitted code does *)

Section Meaning.
(** The module's own functions and the trigger's payload; a call is traced by name. *)
Context {Pay F : Type} (call : text -> Pay -> result unit F).

(** [Guest::on_trigger] of the emitted implementation. *)
Definition on_trigger (x : Expansion) (variant : Variant) (payload : Pay) : result unit F * list text :=
  match List.find (fun arm => bool_decide (arm.1 = variant)) x.(ex_arms) with
  | Some (_, Some handler) => (call handler payload, [handler])
  | _ => (Ok tt, [])
  end.

(** [Guest::init], over the configuration. *)
Definition guest_init (x : Expansion) (config : Pay) : result unit F * list text :=
  match x.(ex_init) with
  | Some handler => (call handler config, [handler])
  | None => (Ok tt, [])
  end.
End Meaning.

(** The const evaluation of the assertions, [signature_hash] being the events'
    [SIGNATURE_HASH]: a failed one, or an index out of range, fails the build. *)
Definition check_holds (signature_hash : P -> list Z) (p : Parity) (c : TopicCheck) : bool :=
  let declared := signature_hash <$> p.(par_declared) in
  match c with
  | CheckDeclared i => match declared !! i with Some t => contains_topic t p.(par_manifest) | None => false end
  | CheckManifest j => match p.(par_manifest) !! j with Some t => contains_topic t declared | None => false end
  end.

Definition builds (signature_hash : P -> list Z) (x : Expansion) : bool :=
  match x.(ex_parity) with
  | None => true
  | Some p => forallb (check_holds signature_hash p) p.(par_checks)
  end.

(** ** Facts *)

(** The handler of a trigger's variant. *)
Definition handler_of (v : Variant) : text :=
  match v with
  | VBlock => chars_of "on_block"
  | VEvent => chars_of "on_event"
  | VSchedule => chars_of "on_schedule"
  | VExtension => chars_of "on_extension"
  end.

Lemma present_handlers_spec items h : h ∈ present_handlers items <-> ItemFn h ∈ items /\ h ∈ HANDLERS.
Proof.
  unfold present_handlers. rewrite list_elem_of_omap. split.
  - intros (item & Hin & Hf). destruct item as [name|]; [|done]. cbn [fn_name mbind option_bind] in Hf.
    apply List.find_some in Hf as [Hh E]. apply bool_decide_eq_true in E as <-. split; [done|]. by apply list_elem_of_In.
  - intros [Hin Hh]. exists (ItemFn h). split; [done|]. cbn [fn_name mbind option_bind].
    destruct (List.find _ HANDLERS) as [h'|] eqn:E.
    + apply List.find_some in E as [_ E]. by apply bool_decide_eq_true in E as ->.
    + rewrite list_elem_of_In in Hh. apply (List.find_none _ _ E) in Hh. by rewrite bool_decide_eq_false in Hh.
Qed.

Lemma handlers_are_dispatched name :
  name ∈ HANDLERS -> name <> chars_of "init" -> exists v, name = handler_of v.
Proof.
  unfold HANDLERS. rewrite !elem_of_cons, elem_of_nil.
  intros [->|[->|[->|[->|[->|[]]]]]] Hne; [done | by exists VBlock | by exists VEvent | by exists VSchedule | by exists VExtension].
Qed.

Lemma unknown_handler_None items name :
  unknown_handler items = None -> ItemFn name ∈ items -> starts_with (chars_of "on_") name = true -> name ∈ HANDLERS.
Proof.
  intros Hn Hin Hs. assert (In name (omap fn_name items)) as Hi by (apply list_elem_of_In, list_elem_of_omap; eauto).
  apply (List.find_none _ _ Hn) in Hi. rewrite Hs in Hi. cbn in Hi. apply negb_false_iff, bool_decide_eq_true in Hi. done.
Qed.

(** What an expansion is made of. *)
Lemma expand_inv sol_events var input x : expand sol_events var input = Ok x ->
  exists dir facts,
    input.(ii_plain) = true /\ input.(ii_trait) = None /\ input.(ii_generics) = [] /\
    unknown_handler input.(ii_items) = None /\ present_handlers input.(ii_items) <> [] /\
    var = Some dir /\ derive_manifest_facts dir (negb (bool_decide (length sol_events = 0%nat))) = Ok facts /\
    x.(ex_inline) = facts.(mf_world).(wit) /\ x.(ex_adapters) = facts.(mf_world).(adapters) /\
    x.(ex_anchors) = facts.(mf_anchors) /\
    x.(ex_parity) = topic_parity_check sol_events facts.(mf_event_topics) /\
    x.(ex_init) = init_export (bool_decide (chars_of "init" ∈ present_handlers input.(ii_items))) /\
    x.(ex_arms) = (fun v => dispatch_arm (present_handlers input.(ii_items)) (handler_of v) v) <$> [VBlock; VEvent; VSchedule; VExtension].
Proof.
  unfold expand. destruct (ii_plain input); [|done]. destruct (ii_trait input); [done|].
  case_bool_decide as Eg; [|done]. cbn [negb]. destruct (unknown_handler _) eqn:Eu; [done|].
  case_bool_decide as Ep; [done|]. unfold manifest_dir. destruct var as [dir|]; [|done]. cbn [ok_or map_err].
  destruct (derive_manifest_facts _ _) as [facts|] eqn:Ef; [|done].
  destruct (manifest_wit_packages _ _ _) as [paths|]; [|done]. cbn [map_err]. intros [= <-].
  exists dir, facts. done.
Qed.

Lemma find_arm present v :
  List.find (fun arm => bool_decide (arm.1 = v)) ((fun v => dispatch_arm present (handler_of v) v) <$> [VBlock; VEvent; VSchedule; VExtension])
  = Some (dispatch_arm present (handler_of v) v).
Proof. by destruct v. Qed.

(** C24: no handler is lost: in an expansion the macro accepts, every
    method of the impl whose name starts with [on_] is the handler of some trigger, and
    a trigger runs its handler, once and with its payload, if the impl has one, and
    nothing otherwise; [init] likewise. *)
Theorem every_handler_is_dispatched {Pay F} (call : text -> Pay -> result unit F) sol_events var input x :
  expand sol_events var input = Ok x ->
  (forall name, ItemFn name ∈ input.(ii_items) -> starts_with (chars_of "on_") name = true ->
     exists v, name = handler_of v /\ forall payload, on_trigger call x v payload = (call name payload, [name])) /\
  (forall v payload, ItemFn (handler_of v) ∉ input.(ii_items) -> on_trigger call x v payload = (Ok tt, [])) /\
  (forall config, guest_init call x config =
     if bool_decide (ItemFn (chars_of "init") ∈ input.(ii_items)) then (call (chars_of "init") config, [chars_of "init"])
     else (Ok tt, [])).
Proof.
  intros (dir & facts & _ & _ & _ & Hunk & _ & _ & _ & _ & _ & _ & _ & Hinit & Harms)%expand_inv.
  assert (forall v, handler_of v ∈ HANDLERS) as Hall by (intros []; unfold HANDLERS, handler_of; rewrite !elem_of_cons; auto 10).
  assert (forall v payload, on_trigger call x v payload =
            if bool_decide (ItemFn (handler_of v) ∈ input.(ii_items)) then (call (handler_of v) payload, [handler_of v]) else (Ok tt, [])) as Ht.
  { intros v payload. unfold on_trigger. rewrite Harms, find_arm. unfold dispatch_arm.
    pose proof (present_handlers_spec (ii_items input) (handler_of v)) as Hp.
    destruct (decide (ItemFn (handler_of v) ∈ input.(ii_items))) as [Hi|Hi].
    - rewrite !bool_decide_eq_true_2; [done|done|]. apply Hp. auto.
    - rewrite !bool_decide_eq_false_2; [done|done|]. rewrite Hp. tauto. }
  split; [|split].
  - intros name Hin Hs. pose proof (unknown_handler_None _ name Hunk Hin Hs) as Hh.
    destruct (handlers_are_dispatched name Hh) as [v ->]; [by intros ->|]. exists v. split; [done|].
    intros payload. rewrite Ht. by rewrite bool_decide_eq_true_2.
  - intros v payload Hn. rewrite Ht. by rewrite bool_decide_eq_false_2.
  - intros config. unfold guest_init. rewrite Hinit. unfold init_export.
    pose proof (present_handlers_spec (ii_items input) (chars_of "init")) as Hp.
    destruct (decide (ItemFn (chars_of "init") ∈ input.(ii_items))) as [Hi|Hi].
    + rewrite !bool_decide_eq_true_2; [done|done|]. apply Hp. split; [done|]. by left.
    + rewrite !bool_decide_eq_false_2; [done|done|]. rewrite Hp. tauto.
Qed.

(** *** The assertions *)

Lemma forallb_imap {A B} (f : B -> bool) (g : nat -> A -> B) (l : list A) :
  forallb f (imap g l) = true <-> forall i a, l !! i = Some a -> f (g i a) = true.
Proof.
  rewrite List.forallb_forall. split.
  - intros Hf i a Hi. apply Hf, list_elem_of_In, elem_of_lookup_imap. eauto.
  - intros Hf b Hb. apply list_elem_of_In, elem_of_lookup_imap in Hb as (i & a & -> & Hi). eauto.
Qed.

Lemma parity_spec (signature_hash : P -> list Z) events topics p :
  topic_parity_check events topics = Some p ->
  forallb (check_holds signature_hash p) p.(par_checks) = true <->
    forall t, t ∈ signature_hash <$> events <-> t ∈ topics.
Proof.
  intros Hp. assert (p = mkParity topics events (imap (fun i _ => CheckDeclared i) events ++ imap (fun j _ => CheckManifest j) topics)) as ->
    by (destruct events; [done|]; by injection Hp). clear Hp. cbn [par_checks par_manifest par_declared].
  rewrite List.forallb_app, andb_true_iff, !forallb_imap. unfold check_holds. cbn [par_manifest par_declared].
  split.
  - intros [Hd Hm] t. split.
    + intros (d & -> & Hin)%list_elem_of_fmap. apply list_elem_of_lookup_1 in Hin as [i Hi]. specialize (Hd i d Hi).
      rewrite list_lookup_fmap, Hi in Hd. cbn in Hd. rewrite contains_topic_spec in Hd. by apply bool_decide_eq_true in Hd.
    + intros Hin. apply list_elem_of_lookup_1 in Hin as [j Hj]. specialize (Hm j t Hj). rewrite Hj, contains_topic_spec in Hm.
      by apply bool_decide_eq_true in Hm.
  - intros Heq. split.
    + intros i d Hi. rewrite list_lookup_fmap, Hi. cbn. rewrite contains_topic_spec. apply bool_decide_eq_true, Heq, list_elem_of_fmap.
      exists d. split; [done|]. by apply list_elem_of_lookup_2 in Hi.
    + intros j t Hj. rewrite Hj, contains_topic_spec. apply bool_decide_eq_true, Heq. by apply list_elem_of_lookup_2 in Hj.
Qed.

(** A module that names its Solidity events builds exactly when
    their topic-0 hashes and the event signatures of its manifest are the same set:
    no event it decodes is one it never receives, and the other way round. *)
Theorem builds_iff_topics_match (signature_hash : P -> list Z) sol_events dir input x :
  expand sol_events (Some dir) input = Ok x -> sol_events <> [] ->
  exists doc topics, read_to_string (chars_of "component.toml" :: dir) = Some doc /\
    manifest_event_topics parse_toml parse_b256 doc = Ok topics /\ topics <> [] /\
    (builds signature_hash x = true <-> forall t, t ∈ signature_hash <$> sol_events <-> t ∈ topics).
Proof.
  intros (dir' & facts & _ & _ & _ & _ & _ & [= <-] & Hfacts & _ & _ & _ & Hpar & _)%expand_inv Hne.
  rewrite bool_decide_eq_false_2 in Hfacts by (by destruct sol_events). cbn [negb] in Hfacts.
  unfold derive_manifest_facts in Hfacts. destruct (read_to_string _) as [doc|]; [|done]. cbn [ok_or] in Hfacts.
  destruct (manifest_capabilities _ _) as [declared|]; [|done]. cbn [map_err] in Hfacts.
  destruct (manifest_event_topics _ _ doc) as [topics|] eqn:Etop; [|done]. cbn [map_err] in Hfacts.
  exists doc, topics. split; [done|]. split; [exact Etop|].
  destruct (match find_extensions_manifest _ _ with Some _ => _ | None => _ end) as [found|]; [|done].
  destruct (synthesize _ _) as [world|]; [|done]. cbn [map_err andb] in Hfacts. case_bool_decide as Et; [done|].
  injection Hfacts as <-. split; [done|]. cbn [mf_event_topics] in Hpar. unfold builds. rewrite Hpar.
  destruct (topic_parity_check sol_events topics) as [p|] eqn:Ep; [by apply parity_spec|]. by destruct sol_events.
Qed.

(** *** Admission *)

(** The registry rows a crate is built with. *)
Definition rows_at (dir : path) : list ExtensionRow :=
  match find_extensions_manifest is_file dir with
  | None => []
  | Some registry =>
      match read_to_string registry with
      | None => []
      | Some doc => match manifest_extensions parse_toml doc with Ok rows => rows | Err _ => [] end
      end
  end.

(** C18: the build and the runtime agree: a module that imports only
    what the inline world of its expansion gives it passes the capability check of the
    runtime, made against the dependencies of the same manifest, whenever the extension
    registry it was built with agrees with the runtime's. *)
Theorem built_module_is_admitted sol_events dir input x namespaces imports :
  expand sol_events (Some dir) input = Ok x ->
  Forall (fun e => 10 ∉ e.(row_import)) (rows_at dir) -> Forall (registered (registry_core ++ namespaces)) (rows_at dir) ->
  (forall i, i ∈ imports -> i ∈ wit_imports x.(ex_inline)) ->
  exists doc declared, read_to_string (chars_of "component.toml" :: dir) = Some doc /\
    manifest_capabilities parse_toml doc = Ok declared /\
    enforce_capabilities declared imports (registry_core ++ namespaces) = Ok tt.
Proof.
  intros (dir' & facts & _ & _ & _ & _ & _ & [= <-] & Hfacts & Hinl & _)%expand_inv Hone Hreg Himp.
  unfold derive_manifest_facts in Hfacts. destruct (read_to_string _) as [doc|]; [|done]. cbn [ok_or] in Hfacts.
  destruct (manifest_capabilities _ _) as [declared|] eqn:Ed; [|done]. cbn [map_err] in Hfacts.
  destruct (if negb _ then _ else _) as [topics|]; [|done]. exists doc, declared. split; [done|]. split; [exact Ed|].
  destruct (match find_extensions_manifest _ _ with Some _ => _ | None => _ end) as [found|] eqn:Ef; [|done].
  assert (found.2 = rows_at dir) as Hrows.
  { unfold rows_at. destruct (find_extensions_manifest is_file dir) as [registry|]; [|by injection Ef as <-].
    destruct (read_to_string registry) as [doc'|]; [|done]. cbn [ok_or] in Ef.
    destruct (manifest_extensions _ _); [|done]. cbn [map_err] in Ef. by injection Ef as <-. }
  destruct (synthesize declared found.2) as [world|] eqn:Ew; [|done]. cbn [map_err] in Hfacts.
  destruct (_ && _); [done|]. injection Hfacts as <-. cbn [mf_world] in Hinl. rewrite Hinl in Himp. rewrite Hrows in Ew.
  exact (synthesized_admitted declared (rows_at dir) world namespaces imports Ew Hone Hreg Himp).
Qed.
End Macro.

(** ** An expansion *)

Module MacroDemo.
Definition dir : path := [chars_of "crate"].
Definition toml (doc : text) : option (list (text * Toml)) :=
  Some [(chars_of "dependencies", TomlTable [(chars_of "chain", TomlTable [])]);
        (chars_of "trigger", TomlArray [TomlTable [(chars_of "on", TomlString (chars_of "event")); (chars_of "event_signature", TomlString (chars_of "t"))]])].
Definition topic (raw : text) : option (list Z) := Some (replicate 32 7).
Definition read (p : path) : option text := Some [].
Definition input : ItemImpl := mkItemImpl (chars_of "M") true None [] [ItemFn (chars_of "on_event"); ItemOther; ItemFn (chars_of "helper")].
Definition expanded : result (Expansion (P := Z)) (MacroError) :=
  expand (P := Z) toml topic (fun _ => false) (fun _ => true) read [1] (Some dir) input.
Definition hash (p : Z) : list Z := replicate 32 7.
End MacroDemo.

Example expansion_demo :
  match MacroDemo.expanded with
  | Ok x => x.(ex_arms) = [(VBlock, None); (VEvent, Some (chars_of "on_event")); (VSchedule, None); (VExtension, None)] /\
            x.(ex_adapters) = [chars_of "chain"] /\ builds MacroDemo.hash x = true /\ builds (fun _ => []) x = false
  | Err _ => False
  end /\
  expand (P := Z) MacroDemo.toml MacroDemo.topic (fun _ => false) (fun _ => true) MacroDemo.read [] (Some MacroDemo.dir)
    (mkItemImpl (chars_of "M") true None [] [ItemFn (chars_of "on_blocks")]) = Err (UnknownHandler (chars_of "on_blocks")).
Proof. vm_compute. done. Qed.

Lemma every_handler_is_dispatched_witness :
  match MacroDemo.expanded with
  | Ok x => forall payload : Z, on_trigger (F := unit) (fun _ _ => Err tt) x VBlock payload = (Ok tt, [])
  | Err _ => False
  end.
Proof.
  destruct MacroDemo.expanded as [x|e] eqn:E; [|revert E; vm_compute; discriminate].
  destruct (every_handler_is_dispatched MacroDemo.toml MacroDemo.topic (fun _ => false) (fun _ => true) MacroDemo.read
              (fun (_ : text) (_ : Z) => Err tt) [1] (Some MacroDemo.dir) MacroDemo.input x E) as (_ & Hno & _).
  intros payload. apply Hno. apply (bool_decide_eq_false_1 _). vm_compute. reflexivity.
Defined.

Lemma builds_iff_topics_match_witness :
  match MacroDemo.expanded with
  | Ok x => exists doc topics, MacroDemo.read (chars_of "component.toml" :: MacroDemo.dir) = Some doc /\
      manifest_event_topics MacroDemo.toml MacroDemo.topic doc = Ok topics /\ topics <> [] /\
      (builds MacroDemo.hash x = true <-> forall t, t ∈ MacroDemo.hash <$> [1] <-> t ∈ topics)
  | Err _ => False
  end.
Proof.
  destruct MacroDemo.expanded as [x|e] eqn:E; [|revert E; vm_compute; discriminate].
  apply (builds_iff_topics_match MacroDemo.toml MacroDemo.topic (fun _ => false) (fun _ => true) MacroDemo.read MacroDemo.hash
           [1] MacroDemo.dir MacroDemo.input x E). discriminate.
Defined.

Lemma built_module_is_admitted_witness :
  match MacroDemo.expanded with
  | Ok x => exists doc declared, MacroDemo.read (chars_of "component.toml" :: MacroDemo.dir) = Some doc /\
      manifest_capabilities MacroDemo.toml doc = Ok declared /\
      enforce_capabilities declared [chars_of "nexum:host/chain@0.1.0"] (registry_core ++ []) = Ok tt
  | Err _ => False
  end.
Proof.
  destruct MacroDemo.expanded as [x|e] eqn:E; [|revert E; vm_compute; discriminate].
  apply (built_module_is_admitted MacroDemo.toml MacroDemo.topic (fun _ => false) (fun _ => true) MacroDemo.read
           [1] MacroDemo.dir MacroDemo.input x [] _ E); [constructor|constructor|].
  intros i ->%list_elem_of_singleton. vm_compute in E. injection E as <-. apply (bool_decide_eq_true_1 _). vm_compute. reflexivity.
Defined.
