(* ===== verification/SdkChain.v ===== *)
(** * SdkChain: the alloy transport of a guest, over the chain interface

    crates/nexum-sdk/src/chain/transport.rs: [HostTransport] turns a JSON-RPC packet
    into calls of the chain import, one a request, and its outcomes into response
    payloads; wit_bindgen_macro.rs, the chain half of the generated adapter; and the
    [MockChain] of crates/nexum-sdk-test/src/chain.rs.

    The theorems: a batch is answered request by request, in order, a method outside
    the read surface without reaching the host; and over the real host a guest's
    provider makes only permitted round trips and reads what the node answered. *)

From stdpp Require Import prelude list gmap strings.
From Stdlib Require Import ZArith Lia.
From S2P Require Import Prelude HostStore ChainHost Adapter Toml GuestModules.

Local Open Scope rust_scope.
Local Open Scope Z_scope.

#[local] Arguments chars_of : simpl never.

(** ** What is used of alloy *)

Section Transport.
(** Request ids, which alloy draws. *)
Context {Id : Type}.

Record SerializedRequest : Type := mkRequest {
  rq_id : Id;
  rq_method : text;
  rq_params : option text
}.

Inductive RequestPacket : Type :=
| ReqSingle (req : SerializedRequest)
| ReqBatch (reqs : list SerializedRequest).

Record ErrorPayload : Type := mkErrorPayload {
  ep_code : Z;
  ep_message : text;
  ep_data : option text
}.

Inductive ResponsePayload : Type :=
| PSuccess (body : text)
| PFailure (error : ErrorPayload).

Record Response : Type := mkResponse { rs_id : Id; rs_payload : ResponsePayload }.

Inductive ResponsePacket : Type :=
| RespSingle (r : Response)
| RespBatch (rs : list Response).

(** The two transport errors the transport raises. *)
Inductive TransportError : Type :=
| DeserErr (raw : text)
| CustomErr (fault : Fault).

(** ** The transport *)

(** [RawValue::from_string] succeeds; [hex::encode_prefixed]; [to_raw_value] of a
    string. *)
Context (json_valid : text -> bool) (hex_prefixed : list Z -> text) (to_raw_value : text -> option text).

Definition failure (req : SerializedRequest) (payload : ErrorPayload) : Response :=
  mkResponse req.(rq_id) (PFailure payload).

(** The answer to a method outside the surface. *)
Definition outside_surface (req : SerializedRequest) : Response :=
  failure req (mkErrorPayload (-32601) (chars_of "method outside the permitted read surface: " ++ req.(rq_method)) None).

Definition request_params (req : SerializedRequest) : text := default [91; 93] req.(rq_params).

(** What a host outcome becomes. *)
Definition transport_outcome (req : SerializedRequest) (r : result text ChainError) : result Response TransportError :=
  match r with
  | Ok body =>
      if json_valid body then Ok (mkResponse req.(rq_id) (PSuccess body)) else Err (DeserErr body)
  | Err (CRpc code message data) =>
      Ok (failure req (mkErrorPayload code message (bytes ← data; to_raw_value (hex_prefixed bytes))))
  | Err (CFault fault) => Err (CustomErr fault)
  end.

Section Dispatch.
Context {H : Type} `{ChainCalls H} (chain : Z).

Definition dispatch_single (req : SerializedRequest) (h : H) : result Response TransportError * H :=
  match parse_method req.(rq_method) with
  | None => (Ok (outside_surface req), h)
  | Some method =>
      let (r, h) := host_request chain (method_as_str method) (request_params req) h in
      (transport_outcome req r, h)
  end.

(** [map] and [collect] into a [Result]: the iterator stops at the first error. *)
Fixpoint dispatch_all (reqs : list SerializedRequest) (h : H) : result (list Response) TransportError * H :=
  match reqs with
  | [] => (Ok [], h)
  | req :: reqs =>
      match dispatch_single req h with
      | (Err e, h) => (Err e, h)
      | (Ok r, h) =>
          let (rest, h) := dispatch_all reqs h in
          (let? rs := rest in Ok (r :: rs), h)
      end
  end.

Definition dispatch (packet : RequestPacket) (h : H) : result ResponsePacket TransportError * H :=
  match packet with
  | ReqSingle req => let (r, h) := dispatch_single req h in (let? r := r in Ok (RespSingle r), h)
  | ReqBatch reqs => let (r, h) := dispatch_all reqs h in (let? rs := r in Ok (RespBatch rs), h)
  end.
End Dispatch.

End Transport.
Arguments SerializedRequest : clear implicits.
Arguments RequestPacket : clear implicits.
Arguments Response : clear implicits.
Arguments ResponsePacket : clear implicits.

(** ** The adapter *)

(** The chain import, as wit-bindgen generates it. *)
Class WitChain (H : Type) : Type := {
  wit_request : Z -> text -> text -> H -> result text WireChainError * H
}.

Definition adapter_request {H} `{WitChain H} (chain : Z) (method params : text) (h : H) : result text ChainError * H :=
  let (r, h) := wit_request chain method params h in
  (match r with Ok body => Ok body | Err e => Err (convert_chain_err e) end, h).

(** [WitBindgenHost] as a [ChainHost]. *)
#[export] Instance adapter_chain {H} `{WitChain H} : ChainCalls H | 10 := {| host_request := adapter_request |}.

(** ** The mock *)

Record ChainCall : Type := mkChainCall { cc_chain : Z; cc_method : text; cc_params : text }.

Record MockChain : Type := mkMockChain {
  mc_responses : gmap (text * text) (result text ChainError);
  mc_calls : list ChainCall
}.

Definition respond_to (method params : text) (r : result text ChainError) (m : MockChain) : MockChain :=
  mkMockChain (<[(method, params) := r]> m.(mc_responses)) m.(mc_calls).

Definition last_call (m : MockChain) : option ChainCall := last m.(mc_calls).
Definition call_count (m : MockChain) : nat := length m.(mc_calls).

Definition mock_request (chain : Z) (method params : text) (m : MockChain) : result text ChainError * MockChain :=
  (default (Err (CFault (Unsupported (chars_of "MockChain: no response configured for " ++ method ++ [32] ++ params))))
     (m.(mc_responses) !! (method, params)),
   mkMockChain m.(mc_responses) (m.(mc_calls) ++ [mkChainCall chain method params])).

#[export] Instance mock_chain : ChainCalls MockChain := {| host_request := mock_request |}.

(** ** What a batch is answered *)

(** A host with its calls and their outcomes written down. *)
Record Recorded (H : Type) : Type := mkRecorded { rec_host : H; rec_calls : list (Z * text * text * result text ChainError) }.
Arguments mkRecorded {H}.
Arguments rec_host {H}.
Arguments rec_calls {H}.

#[local] Instance recording {H} `{ChainCalls H} : ChainCalls (Recorded H) | 5 := {|
  host_request chain method params h :=
    let (r, inner) := host_request chain method params h.(rec_host) in
    (r, mkRecorded inner (h.(rec_calls) ++ [((chain, method, params), r)]))
|}.

Section Batch.
Context {Id H : Type} `{ChainCalls H}.
Context (json_valid : text -> bool) (hex_prefixed : list Z -> text) (to_raw_value : text -> option text) (chain : Z).
Notation outcome := (transport_outcome json_valid hex_prefixed to_raw_value).

Definition permitted (req : SerializedRequest Id) : Prop := is_Some (parse_method req.(rq_method)).

#[export] Instance permitted_dec req : Decision (permitted req).
Proof. unfold permitted. apply _. Defined.

Definition asked (req : SerializedRequest Id) : Z * text * text := (chain, req.(rq_method), request_params req).

(** Responses to a batch whose permitted requests had these outcomes. *)
Inductive replies : list (SerializedRequest Id) -> list (result text ChainError) -> list (Response Id) -> Prop :=
| replies_nil : replies [] [] []
| replies_outside req reqs outs rs :
    ~ permitted req -> replies reqs outs rs -> replies (req :: reqs) outs (outside_surface req :: rs)
| replies_asked req reqs out outs r rs :
    permitted req -> outcome req out = Ok r -> replies reqs outs rs -> replies (req :: reqs) (out :: outs) (r :: rs).

Lemma dispatch_single_spec req (h : Recorded H) :
  let '(r, h') := dispatch_single json_valid hex_prefixed to_raw_value chain req h in
  (~ permitted req /\ r = Ok (outside_surface req) /\ h' = h) \/
  (permitted req /\ exists out inner, h' = mkRecorded inner (h.(rec_calls) ++ [(asked req, out)]) /\ r = outcome req out).
Proof.
  unfold dispatch_single, permitted. destruct (parse_method (rq_method req)) as [m|] eqn:Em.
  - cbn [host_request recording]. destruct (host_request _ _ _ (rec_host h)) as [out inner].
    right. split; [eauto|]. exists out, inner. unfold asked. by rewrite (parse_method_Some _ _ Em).
  - left. split_and!; [by apply is_Some_None|done|done].
Qed.

Lemma outcome_id (req : SerializedRequest Id) out (r : Response Id) : outcome req out = Ok r -> r.(rs_id) = req.(rq_id).
Proof. destruct out as [body|[f|code message data]]; cbn; [case_match|..]; by intros [= <-]. Qed.

Lemma replies_ids (reqs : list (SerializedRequest Id)) outs (rs : list (Response Id)) : replies reqs outs rs -> rs_id <$> rs = rq_id <$> reqs.
Proof. induction 1 as [| |req reqs out outs r rs ? Ho%outcome_id _ IH]; cbn; [done|by f_equal|by rewrite Ho, IH]. Qed.

Lemma dispatch_all_spec (reqs : list (SerializedRequest Id)) (h : Recorded H) :
  let '(r, h') := dispatch_all json_valid hex_prefixed to_raw_value chain reqs h in
  exists new tried skipped, h'.(rec_calls) = h.(rec_calls) ++ new /\
  reqs = tried ++ skipped /\ fst <$> new = asked <$> filter permitted tried /\
  match r with
  | Ok rs => skipped = [] /\ replies reqs (snd <$> new) rs
  | Err e => exists before req outs' out rs, tried = before ++ [req] /\ snd <$> new = outs' ++ [out] /\
      replies before outs' rs /\ outcome req out = Err e
  end.
Proof.
  revert h. induction reqs as [|req reqs IH]; intros h; cbn [dispatch_all].
  { exists [], [], []. split_and!; [by rewrite app_nil_r|done..|constructor]. }
  pose proof (dispatch_single_spec req h) as Hs.
  destruct (dispatch_single _ _ _ chain req h) as [r1 h1].
  destruct Hs as [(Hp & -> & ->)|(Hp & out & inner & -> & ->)].
  - specialize (IH h). destruct (dispatch_all _ _ _ chain reqs h) as [r h'].
    destruct IH as (new & tried & skipped & Hc & -> & Hf & Hr).
    exists new, (req :: tried), skipped. rewrite filter_cons_False by done. split_and!; [done..|].
    destruct r as [rs|e].
    + destruct Hr as [-> Hr]. split; [done|]. by constructor.
    + destruct Hr as (before & rq & outs' & out & rs & -> & Ho & Hr & He).
      exists (req :: before), rq, outs', out, (outside_surface req :: rs). split_and!; [done..|by constructor|done].
  - destruct (outcome req out) as [r1|e] eqn:Eo.
    2: { exists [(asked req, out)], [req], reqs. rewrite filter_cons_True by done. split_and!; [done..|].
         exists [], req, [], out, []. split_and!; [done..|constructor|done]. }
    set (h1 := mkRecorded inner _). specialize (IH h1). destruct (dispatch_all _ _ _ chain reqs h1) as [r h'].
    destruct IH as (new & tried & skipped & Hc & -> & Hf & Hr).
    exists ((asked req, out) :: new), (req :: tried), skipped. rewrite filter_cons_True by done. split_and!; [|done| |].
    { rewrite Hc. subst h1. cbn. by rewrite <- app_assoc. }
    { cbn. by rewrite Hf. }
    destruct r as [rs|e].
    + destruct Hr as [-> Hr]. split; [done|]. by constructor.
    + destruct Hr as (before & rq & outs' & out' & rs & -> & Ho & Hr & He).
      exists (req :: before), rq, (out :: outs'), out', (r1 :: rs). split_and!; [done|cbn; by rewrite Ho|by constructor|done].
Qed.

(** A batch is answered one request at a time and in order: the host is
    asked exactly for the permitted requests, each once, with the method as the caller
    spelled it and an empty array for absent parameters, and not at all for the others,
    which get a method-not-found error. When every answer is deliverable the packet
    holds one response a request, under its id; otherwise the first undeliverable one,
    a fault or a body that is not JSON, is the error, and nothing after it is asked. *)
Theorem batch_is_answered_in_order (reqs : list (SerializedRequest Id)) (h : H) :
  let '(r, h') := dispatch_all json_valid hex_prefixed to_raw_value chain reqs (mkRecorded h []) in
  let outs := snd <$> h'.(rec_calls) in
  exists tried skipped, reqs = tried ++ skipped /\ fst <$> h'.(rec_calls) = asked <$> filter permitted tried /\
  match r with
  | Ok rs => skipped = [] /\ replies reqs outs rs /\ rs_id <$> rs = rq_id <$> reqs
  | Err e => exists before req outs' out rs, tried = before ++ [req] /\ outs = outs' ++ [out] /\
      replies before outs' rs /\ outcome req out = Err e
  end.
Proof.
  pose proof (dispatch_all_spec reqs (mkRecorded h [])) as Hs.
  destruct (dispatch_all _ _ _ chain reqs (mkRecorded h [])) as [r h'].
  destruct Hs as (new & tried & skipped & Hc & Hsplit & Hf & Hr). cbn in Hc. rewrite Hc.
  exists tried, skipped. split_and!; [done..|].
  destruct r as [rs|e]; [|done]. destruct Hr as [Hn Hr]. eauto using replies_ids.
Qed.
End Batch.

(** ** Over the real host *)

(** The host's chain error as the canonical ABI lowers it. *)
Definition chain_err_to_wire (e : ChainError) : WireChainError :=
  match e with
  | CFault f => WcFault (fault_to_wire f)
  | CRpc code message data => WcRpc code message data
  end.

Lemma chain_err_crosses e : convert_chain_err (chain_err_to_wire e) = e.
Proof. destruct e as [f|]; cbn; [by rewrite fault_lift_lower|done]. Qed.

Section EndToEnd.
Context {Id N D E Block Filter Log Sub : Type} `{TransportErrors E} `{!Transport N D E Block Filter Log Sub}.
Context (json_valid : text -> bool) (hex_prefixed : list Z -> text) (to_raw_value : text -> option text).
Context (pool : ProviderPool (D := D)) (cap chain : Z).

(** The chain import served by [impls/chain.rs]. *)
#[local] Instance served_chain : WitChain N := {|
  wit_request chain method params n :=
    let '(r, n, _) := chain_request json_valid pool cap chain method params n in
    (match r with Ok body => Ok body | Err e => Err (chain_err_to_wire e) end, n)
|}.

(** What the host makes of a permitted request. *)
Definition host_answer (ep : ChainEndpoint (D := D)) (m : ChainMethod) (params : text) (n : N) : result text ChainError :=
  match (raw_request ep.(ep_provider) (method_as_str m) params n).1 with
  | Some (Ok body) => if cap <? Z.of_nat (length body) then Err response_over_cap else Ok body
  | Some (Err e) => Err (classify_rpc e)
  | None => Err (CFault FaultTimeout)
  end.

Lemma served_request (m : ChainMethod) (params : text) (n : N) :
  host_request chain (method_as_str m) params n =
  match pool.(providers) !! chain with
  | None => (Err (CFault (Unsupported (message_text ChainNotConfigured))), n)
  | Some ep =>
      if json_valid params then (host_answer ep m params n, (raw_request ep.(ep_provider) (method_as_str m) params n).2)
      else (Err (classify_rpc ser_error), n)
  end.
Proof.
  cbn [host_request adapter_chain]. unfold adapter_request, host_answer. cbn [wit_request served_chain].
  unfold chain_request, resolve_method. rewrite parse_method_as_str. cbn [ok_or].
  unfold pool_request, over, endpoint.
  destruct (providers pool !! chain) as [ep|]; cbn [ok_or]; [|by rewrite chain_err_crosses].
  destruct (json_valid params); [|by rewrite chain_err_crosses].
  destruct (raw_request _ _ params n) as [[[body|e]|] n1]; cbn [deadline fst snd]; [|by rewrite chain_err_crosses..].
  unfold check_response_cap. destruct (_ <? _); cbn [fst snd]; [by rewrite chain_err_crosses|done].
Qed.

(** A round trip over the chain's endpoint. *)
Definition round_trip (ep : ChainEndpoint (D := D)) (n : N) (call : text * text) : N :=
  (raw_request ep.(ep_provider) call.1 call.2 n).2.

(** The round trips a batch may make. *)
Definition trips (reqs : list (SerializedRequest Id)) (n n' : N) : Prop :=
  n' = n \/
  exists ep sent, pool.(providers) !! chain = Some ep /\ n' = foldl (round_trip ep) n sent /\
    sent `sublist_of` ((fun req => (req.(rq_method), request_params req)) <$> filter permitted reqs).

(** A response a guest may read for a request. *)
Definition faithful (req : SerializedRequest Id) (r : Response Id) : Prop :=
  r.(rs_id) = req.(rq_id) /\
  match r.(rs_payload) with
  | PSuccess body => permitted req /\ Z.of_nat (length body) <= cap /\
      exists ep n, pool.(providers) !! chain = Some ep /\
        (raw_request ep.(ep_provider) req.(rq_method) (request_params req) n).1 = Some (Ok body)
  | PFailure e =>
      (~ permitted req /\ e.(ep_code) = -32601 /\ e.(ep_data) = None) \/
      (permitted req /\ e.(ep_message) = message_text UpstreamErrorResponse /\
       exists source code data, as_error_resp source = Some (code, data) /\ e.(ep_code) = i32_or code (-32603) /\
         e.(ep_data) = (bytes ← data; to_raw_value (hex_prefixed bytes)))
  end.

Lemma trips_cons req reqs n n' : trips reqs n n' -> trips (req :: reqs) n n'.
Proof.
  intros [->|(ep & sent & Hp & -> & Hs)]; [by left|right]. exists ep, sent. split_and!; [done..|].
  rewrite filter_cons. case_decide; [by apply sublist_cons|done].
Qed.

Lemma trips_step ep req reqs n n' :
  permitted req -> pool.(providers) !! chain = Some ep ->
  trips reqs (round_trip ep n (req.(rq_method), request_params req)) n' -> trips (req :: reqs) n n'.
Proof.
  intros Hq Hp Ht. right. unfold trips in *. rewrite filter_cons_True by done. cbn [fmap list_fmap].
  destruct Ht as [->|(ep' & sent & Hp' & -> & Hs)].
  - exists ep, [(req.(rq_method), request_params req)]. split_and!; [done..|]. apply sublist_skip, sublist_nil_l.
  - assert (ep' = ep) as -> by congruence. exists ep, ((req.(rq_method), request_params req) :: sent).
    split_and!; [done..|]. by apply sublist_skip.
Qed.

(** What may end a batch early. *)
Definition told (e : TransportError) : Prop :=
  match e with
  | CustomErr f => fault_message f ∈ vocabulary
  | DeserErr body => json_valid body = false /\ Z.of_nat (length body) <= cap
  end.

Notation outcome := (transport_outcome (Id := Id) json_valid hex_prefixed to_raw_value).

Lemma classified_outcome (req : SerializedRequest Id) (source : E) :
  permitted req ->
  match outcome req (Err (classify_rpc source)) with Ok r => faithful req r | Err e => told e end.
Proof.
  intros Hq. pose proof (pool_fault_spoken (Rpc source)) as Hv. cbn [pool_fault] in Hv. revert Hv. unfold classify_rpc.
  destruct (as_error_resp source) as [[code data]|] eqn:Er.
  - intros _. split; [done|]. right. split_and!; [done..|]. by exists source, code, data.
  - destruct (is_ser_error source); intros Hv; exact Hv.
Qed.

Lemma answered_outcome (req : SerializedRequest Id) m ep n :
  rq_method req = method_as_str m -> permitted req -> pool.(providers) !! chain = Some ep ->
  match outcome req (host_answer ep m (request_params req) n) with Ok r => faithful req r | Err e => told e end.
Proof.
  intros Hm Hq Hp. unfold host_answer. rewrite <- Hm.
  destruct (raw_request _ _ _ n) as [[[body|e]|] n1] eqn:Er; cbn [fst].
  - destruct (Z.ltb_spec cap (Z.of_nat (length body))) as [|Hle]; [apply (message_spoken ResponseOverCap)|].
    cbn [transport_outcome]. destruct (json_valid body) eqn:Ej; [|done].
    split; [done|]. cbn. split_and!; [done|lia|]. exists ep, n. by rewrite Er.
  - by apply classified_outcome.
  - apply timeouts_spoken.
Qed.

(** One request: its response or error, and the round trip it makes at most. *)
Lemma single_over_host (req : SerializedRequest Id) (n : N) :
  let '(r, n1) := dispatch_single json_valid hex_prefixed to_raw_value chain req n in
  (n1 = n \/ permitted req /\ exists ep, pool.(providers) !! chain = Some ep /\
     n1 = round_trip ep n (req.(rq_method), request_params req)) /\
  match r with Ok r => faithful req r | Err e => told e end.
Proof.
  unfold dispatch_single. destruct (parse_method (rq_method req)) as [m|] eqn:Em.
  2: { split; [by left|]. split; [done|]. left. split_and!; [|done..]. unfold permitted. rewrite Em. by apply is_Some_None. }
  assert (permitted req) as Hq by (unfold permitted; eauto). apply parse_method_Some in Em. rewrite served_request.
  destruct (providers pool !! chain) as [ep|] eqn:Ep; [|split; [by left|apply (message_spoken ChainNotConfigured)]].
  destruct (json_valid (request_params req)) eqn:Ej; [|split; [by left|by apply classified_outcome]].
  split; [|by apply answered_outcome]. right. split; [done|]. exists ep. unfold round_trip. by rewrite Em.
Qed.

(** C16: a guest's provider, through the adapter and the host: a batch makes
    round trips only over the configured endpoint and only for its permitted requests,
    in order and at most once each. What it reads back is, under each request's own id,
    the body the node answered, within the cap; the node's own error, with its code,
    its revert data as hex and a text that holds nothing of the node's; or the
    method-not-found of a request that never left the guest. What ends a batch early
    is a fault of the fixed vocabulary or a body that is not JSON. *)
Theorem guest_provider_reads_the_node (reqs : list (SerializedRequest Id)) (n : N) :
  let '(r, n') := dispatch_all json_valid hex_prefixed to_raw_value chain reqs n in
  trips reqs n n' /\
  match r with Ok rs => Forall2 faithful reqs rs | Err e => told e end.
Proof.
  revert n. induction reqs as [|req reqs IH]; intros n; cbn [dispatch_all]; [split; [by left|constructor]|].
  pose proof (single_over_host req n) as Hs. destruct (dispatch_single _ _ _ chain req n) as [[r1|e] n1]; destruct Hs as [Hn Hr].
  - specialize (IH n1). destruct (dispatch_all _ _ _ chain reqs n1) as [[rs|e] n']; destruct IH as [Ht IH];
      (split; [|first [by constructor|exact IH]]);
      (destruct Hn as [->|(Hq & ep & Hp & ->)]; [by apply trips_cons|by eapply trips_step]).
  - split; [|exact Hr]. destruct Hn as [->|(Hq & ep & Hp & ->)]; [by left|]. eapply trips_step; [done..|by left].
Qed.
End EndToEnd.

(** ** A batch against the mock *)

Definition demo_mock : MockChain :=
  respond_to (chars_of "eth_blockNumber") [91; 93] (Ok (chars_of "42"))
    (respond_to (chars_of "eth_call") [91; 93] (Err (CRpc 3 (chars_of "reverted") (Some [1; 2]))) (mkMockChain ∅ [])).

Definition demo_request (id : Z) (method : text) : SerializedRequest Z := mkRequest id method None.

Definition demo_dispatch (reqs : list (SerializedRequest Z)) :=
  dispatch (fun _ => true) (fun b => chars_of "0x" ++ b) Some 100 (ReqBatch reqs) demo_mock.

Example batch_demo :
  (let (r, m) := demo_dispatch [demo_request 1 (chars_of "eth_blockNumber"); demo_request 2 (chars_of "eth_sendRawTransaction");
                                demo_request 3 (chars_of "eth_call")] in
   (r, call_count m)) =
  (Ok (RespBatch
     [mkResponse 1 (PSuccess (chars_of "42"));
      mkResponse 2 (PFailure (mkErrorPayload (-32601)
        (chars_of "method outside the permitted read surface: eth_sendRawTransaction") None));
      mkResponse 3 (PFailure (mkErrorPayload 3 (chars_of "reverted") (Some (chars_of "0x" ++ [1; 2]))))]), 2%nat) /\
  (let (r, m) := demo_dispatch [demo_request 1 (chars_of "eth_chainId"); demo_request 2 (chars_of "eth_blockNumber")] in
   (is_ok r, cc_method <$> last_call m)) = (false, Some (chars_of "eth_chainId")).
Proof. split; vm_compute; reflexivity. Qed.
