(* ===== verification/FakeNode.v ===== *)
(** * FakeNode: the RPC doubles of the runtime tests

    crates/nexum-runtime-testing/src/rpc.rs: [FakeNode], a node that serves the blocks
    and logs a test pushed, parks a head fetch until there is a head, and can be made
    slow or failing; and the capture of the requests it saw. The test pool of
    provider_pool.rs, and the manual clock of clock.rs.

    The JSON of requests and responses is alloy's and serde's: parameters of the
    routing.

    The theorems: the node is coherent and only grows, its log queries agree with each
    other and with what was pushed, and a parked head fetch never sleeps on a head. *)

From stdpp Require Import prelude list gmap strings.
From Stdlib Require Import ZArith Lia.
From S2P Require Import Prelude ChainHost Adapter GuestModules SdkChain.

Local Open Scope rust_scope.
Local Open Scope Z_scope.

#[local] Arguments chars_of : simpl never.

(** ** Blocks *)

Definition B256_ZERO : list Z := replicate 32 0.

(** [B256::from(U256::from(number).wrapping_add(U256::from(1) << 128))]. *)
Definition test_hash (number : Z) : list Z := reverse (to_le_bytes 32 ((number + Z.shiftl 1 128) mod 2 ^ 256)).

(** [number.checked_sub(1).map(test_hash).unwrap_or_default()]. *)
Definition parent_of (number : Z) : list Z := if number <=? 0 then B256_ZERO else test_hash (number - 1).

Section Node.
(** The header fields no routing looks at, with alloy's default; JSON values. *)
Context {X Json Id : Type} (x0 : X).

Record Header : Type := mkHeader {
  hd_number : Z;
  hd_hash : list Z;
  hd_parent : list Z;
  hd_rest : X
}.

Definition linked_block (number : Z) : Header := mkHeader number (test_hash number) (parent_of number) x0.

Record CapturedRpc : Type := mkCaptured { cap_method : text; cap_params : option Json }.

Record FakeNodeState : Type := mkNode {
  fn_head : option Z;
  fn_blocks : gmap Z Header;
  fn_by_hash : gmap (list Z) Z;
  fn_logs : gmap Z (list AlloyLog);
  fn_canned : gmap text text;
  fn_captured : list CapturedRpc;
  fn_delay : option Z;
  fn_method_delay : option (text * Z);
  fn_fail_head_fetches : Z
}.

Definition node_new : FakeNodeState := mkNode None ∅ ∅ ∅ ∅ [] None None 0.

(** [state.head.map_or(number, |h| h.max(number))]. *)
Definition head_to (number : Z) (st : FakeNodeState) : Z :=
  match st.(fn_head) with Some h => Z.max h number | None => number end.

(** [insert_block], whose notification is a step of its own below. *)
Definition insert_block (number : Z) (block : Header) (st : FakeNodeState) : FakeNodeState :=
  let head := Some (head_to number st) in
  if bool_decide (is_Some (st.(fn_blocks) !! number)) then
    mkNode head st.(fn_blocks) st.(fn_by_hash) st.(fn_logs) st.(fn_canned) st.(fn_captured) st.(fn_delay)
      st.(fn_method_delay) st.(fn_fail_head_fetches)
  else
    let hash := if bool_decide (block.(hd_hash) = B256_ZERO) then test_hash number else block.(hd_hash) in
    let parent := if bool_decide (block.(hd_parent) = B256_ZERO) then parent_of number else block.(hd_parent) in
    mkNode head (<[number := mkHeader block.(hd_number) hash parent block.(hd_rest)]> st.(fn_blocks))
      (<[hash := number]> st.(fn_by_hash)) st.(fn_logs) st.(fn_canned) st.(fn_captured) st.(fn_delay)
      st.(fn_method_delay) st.(fn_fail_head_fetches).

Definition push_block (header : Header) (st : FakeNodeState) : FakeNodeState := insert_block header.(hd_number) header st.

(** Where a log lands, and the hash it is given. *)
Definition log_number (log : AlloyLog) (st : FakeNodeState) : Z :=
  match log.(al_block_number) with
  | Some n => n
  | None => match st.(fn_head) with Some h => u64_sat (h + 1) | None => 1 end
  end.

Definition hash_at (number : Z) (st : FakeNodeState) : list Z :=
  match st.(fn_blocks) !! number with Some block => block.(hd_hash) | None => test_hash number end.

Definition placed (log : AlloyLog) (number : Z) (hash : list Z) : AlloyLog :=
  mkAlloyLog log.(al_address) log.(al_topics) log.(al_data) (Some hash) (Some number) log.(al_block_timestamp)
    log.(al_transaction_hash) log.(al_transaction_index) log.(al_log_index) log.(al_removed).

(** The number, the hash, the log and the block are stored under the lock one after
    another; a test makes its pushes from one task. *)
Definition push_chain_log (log : AlloyLog) (st : FakeNodeState) : FakeNodeState :=
  let number := log_number log st in
  let log := placed log number (hash_at number st) in
  insert_block number (linked_block number)
    (mkNode st.(fn_head) st.(fn_blocks) st.(fn_by_hash)
       (<[number := default [] (st.(fn_logs) !! number) ++ [log]]> st.(fn_logs))
       st.(fn_canned) st.(fn_captured) st.(fn_delay) st.(fn_method_delay) st.(fn_fail_head_fetches)).

(** ** Scripting *)

Definition on_method (method : ChainMethod) (r : text) (st : FakeNodeState) : FakeNodeState :=
  mkNode st.(fn_head) st.(fn_blocks) st.(fn_by_hash) st.(fn_logs) (<[method_as_str method := r]> st.(fn_canned))
    st.(fn_captured) st.(fn_delay) st.(fn_method_delay) st.(fn_fail_head_fetches).

Definition delay_next_request (delay : Z) (st : FakeNodeState) : FakeNodeState :=
  mkNode st.(fn_head) st.(fn_blocks) st.(fn_by_hash) st.(fn_logs) st.(fn_canned) st.(fn_captured) (Some delay)
    st.(fn_method_delay) st.(fn_fail_head_fetches).

Definition delay_next_method (method : ChainMethod) (delay : Z) (st : FakeNodeState) : FakeNodeState :=
  mkNode st.(fn_head) st.(fn_blocks) st.(fn_by_hash) st.(fn_logs) st.(fn_canned) st.(fn_captured) st.(fn_delay)
    (Some (method_as_str method, delay)) st.(fn_fail_head_fetches).

Definition fail_head_fetches (n : Z) (st : FakeNodeState) : FakeNodeState :=
  mkNode st.(fn_head) st.(fn_blocks) st.(fn_by_hash) st.(fn_logs) st.(fn_canned) st.(fn_captured) st.(fn_delay)
    st.(fn_method_delay) n.

(** ** Serving *)

Inductive BlockTag : Type := TagNumber (n : Z) | TagLatest | TagOther.

Definition as_number (t : BlockTag) : option Z := match t with TagNumber n => Some n | _ => None end.

Inductive FilterBlockOption : Type :=
| AtBlockHash (hash : list Z)
| BlockRange (from_block to_block : option BlockTag).

(** The texts of the custom transport errors. *)
Inductive NodeError : Type :=
| NotJson (body : text)
| ScriptedHeadFailure
| BadParams (raw : text)
| NoRoute (method : text).

(** serde: the parameters of a request, the two typed reads, the validity of a body
    and the three values served. *)
Context (json_parse : text -> option Json) (parse_block_params : text -> option (BlockTag * bool))
  (parse_log_params : text -> option FilterBlockOption) (json_valid : text -> bool)
  (u64_json : Z -> text) (block_json : option Header -> text) (logs_json : list AlloyLog -> text).

Definition take_delay (method : text) (st : FakeNodeState) : option Z * option Z * option (text * Z) :=
  match st.(fn_method_delay) with
  | Some (m, delay) => if bool_decide (m = method) then (Some delay, st.(fn_delay), None) else (st.(fn_delay), None, Some (m, delay))
  | None => (st.(fn_delay), None, None)
  end.

(** The first critical section: the request is captured, and its one-shot delay taken. *)
Definition serve_begin (req : SerializedRequest Id) (st : FakeNodeState) : option Z * FakeNodeState :=
  let captured := mkCaptured req.(rq_method) (raw ← req.(rq_params); json_parse raw) in
  let '(wait, delay, method_delay) := take_delay req.(rq_method) st in
  (wait, mkNode st.(fn_head) st.(fn_blocks) st.(fn_by_hash) st.(fn_logs) st.(fn_canned) (st.(fn_captured) ++ [captured])
     delay method_delay st.(fn_fail_head_fetches)).

Definition respond (req : SerializedRequest Id) (body : text) : result (Response Id) NodeError :=
  if json_valid body then Ok (mkResponse req.(rq_id) (PSuccess body)) else Err (NotJson body).

(** One turn of the head loop: an outcome, or nothing yet. *)
Definition head_attempt (st : FakeNodeState) : option (result Z NodeError) * FakeNodeState :=
  if 0 <? st.(fn_fail_head_fetches) then
    (Some (Err ScriptedHeadFailure), fail_head_fetches (st.(fn_fail_head_fetches) - 1) st)
  else (Ok <$> st.(fn_head), st).

Definition block_at (tag : BlockTag) (st : FakeNodeState) : option Header :=
  n ← match tag with TagNumber n => Some n | TagLatest => st.(fn_head) | TagOther => None end;
  st.(fn_blocks) !! n.

(** [(from..=to).filter_map(|n| logs.get(&n)).flatten()]. *)
Definition logs_between (from to : Z) (st : FakeNodeState) : list AlloyLog :=
  flat_map (fun n => default [] (st.(fn_logs) !! n)) (seqZ from (to + 1 - from)).

Definition node_logs (option : FilterBlockOption) (st : FakeNodeState) : list AlloyLog :=
  match option with
  | AtBlockHash hash => default [] (n ← st.(fn_by_hash) !! hash; st.(fn_logs) !! n)
  | BlockRange from_block to_block =>
      let from := default 0 (from_block ≫= as_number) in
      let to := match to_block ≫= as_number with Some to => to | None => default 0 st.(fn_head) end in
      logs_between from to st
  end.

Definition parse_params {A} (parse : text -> option A) (req : SerializedRequest Id) : result A NodeError :=
  match parse (request_params req) with Some a => Ok a | None => Err (BadParams (request_params req)) end.

(** The routing after the delay; [None] is a head fetch that parks. *)
Definition serve_route (req : SerializedRequest Id) (st : FakeNodeState) : option (result (Response Id) NodeError) * FakeNodeState :=
  match st.(fn_canned) !! req.(rq_method) with
  | Some body => (Some (respond req body), st)
  | None =>
      if bool_decide (req.(rq_method) = chars_of "eth_blockNumber") then
        let (out, st) := head_attempt st in
        ((fun r => let? head := r in respond req (u64_json head)) <$> out, st)
      else if bool_decide (req.(rq_method) = chars_of "eth_getBlockByNumber") then
        (Some (let? params := parse_params parse_block_params req in respond req (block_json (block_at params.1 st))), st)
      else if bool_decide (req.(rq_method) = chars_of "eth_getLogs") then
        (Some (let? option := parse_params parse_log_params req in respond req (logs_json (node_logs option st))), st)
      else (Some (Err (NoRoute req.(rq_method))), st)
  end.

(** A test's moves on the node: its pushes and scripts, and the two locked parts of a
    request. *)
Inductive Move : Type :=
| MvPushBlock (header : Header)
| MvPushLog (log : AlloyLog)
| MvOnMethod (method : ChainMethod) (r : text)
| MvDelay (delay : Z)
| MvDelayMethod (method : ChainMethod) (delay : Z)
| MvFailHeads (n : Z)
| MvBegin (req : SerializedRequest Id)
| MvRoute (req : SerializedRequest Id).

Definition move (m : Move) (st : FakeNodeState) : FakeNodeState :=
  match m with
  | MvPushBlock header => push_block header st
  | MvPushLog log => push_chain_log log st
  | MvOnMethod method r => on_method method r st
  | MvDelay delay => delay_next_request delay st
  | MvDelayMethod method delay => delay_next_method method delay st
  | MvFailHeads n => fail_head_fetches n st
  | MvBegin req => (serve_begin req st).2
  | MvRoute req => (serve_route req st).2
  end.

Definition moves (ms : list Move) (st : FakeNodeState) : FakeNodeState := foldl (fun st m => move m st) st ms.
End Node.

(** ** Coherence *)

Section Coherence.
Context {X Json Id : Type} (x0 : X).
Notation Node := (@FakeNodeState X Json).
Implicit Types (st : Node).

(** The head is the highest block, and every block is found by its hash. *)
Record chain_ok st : Prop := mkChainOk {
  co_head : match st.(fn_head) with
            | None => st.(fn_blocks) = ∅
            | Some h => is_Some (st.(fn_blocks) !! h) /\ forall n, is_Some (st.(fn_blocks) !! n) -> n <= h
            end;
  co_block : forall n b, st.(fn_blocks) !! n = Some b -> is_u64 n /\ b.(hd_number) = n /\ b.(hd_hash) <> B256_ZERO;
  co_hash : forall h n, st.(fn_by_hash) !! h = Some n -> exists b, st.(fn_blocks) !! n = Some b /\ b.(hd_hash) = h;
  co_found : forall n b, st.(fn_blocks) !! n = Some b -> is_Some (st.(fn_by_hash) !! b.(hd_hash))
}.

(** Every log sits in a served block and carries its number and hash. *)
Definition logs_ok st : Prop :=
  forall n ls, st.(fn_logs) !! n = Some ls -> exists b, st.(fn_blocks) !! n = Some b /\
    Forall (fun l => l.(al_block_number) = Some n /\ l.(al_block_hash) = Some b.(hd_hash)) ls.

Definition coherent st : Prop := chain_ok st /\ logs_ok st.

(** What a node may become: blocks stay as served, logs are only appended to, the head
    only rises. *)
Record grows st st' : Prop := mkGrows {
  gr_blocks : forall n b, st.(fn_blocks) !! n = Some b -> st'.(fn_blocks) !! n = Some b;
  gr_logs : forall n, exists new, default [] (st'.(fn_logs) !! n) = default [] (st.(fn_logs) !! n) ++ new;
  gr_head : forall h, st.(fn_head) = Some h -> exists h', st'.(fn_head) = Some h' /\ h <= h'
}.

(** The served part of a node, which scripting and serving leave alone. *)
Definition same_chain st st' : Prop :=
  st'.(fn_head) = st.(fn_head) /\ st'.(fn_blocks) = st.(fn_blocks) /\ st'.(fn_by_hash) = st.(fn_by_hash) /\
  st'.(fn_logs) = st.(fn_logs).

Lemma same_coherent st st' : same_chain st st' -> coherent st -> coherent st'.
Proof.
  intros (Eh & Eb & Ey & El) [[] Hl]. split; [split|unfold logs_ok]; rewrite ?Eh, ?Eb, ?Ey, ?El; done.
Qed.

Lemma grows_refl st : grows st st.
Proof. split; [done|intros; exists []; by rewrite app_nil_r|intros; eauto using Z.le_refl]. Qed.

Lemma same_grows st st' : same_chain st st' -> grows st st'.
Proof. intros (Eh & Eb & Ey & El). destruct (grows_refl st) as [? ? ?]. split; rewrite ?Eh, ?Eb, ?El; done. Qed.

Lemma grows_trans st1 st2 st3 : grows st1 st2 -> grows st2 st3 -> grows st1 st3.
Proof.
  intros [B1 L1 H1] [B2 L2 H2]. split; [auto| |].
  - intros n. destruct (L1 n) as [a Ea], (L2 n) as [b Eb]. exists (a ++ b). by rewrite Eb, Ea, app_assoc.
  - intros h (h1 & E1 & ?)%H1. destruct (H2 _ E1) as (h2 & E2 & ?). exists h2. split; [done|lia].
Qed.

Lemma from_be_test_hash n : is_u64 n -> from_be_bytes (test_hash n) = n + 2 ^ 128.
Proof.
  intros Hn. unfold from_be_bytes, test_hash. rewrite reverse_involutive.
  change (Z.shiftl 1 128) with (2 ^ 128). unfold is_u64, u64_max in Hn.
  rewrite Z.mod_small by lia. apply from_to_le_bytes. change (256 ^ Z.of_nat 32) with (2 ^ 256). lia.
Qed.

Lemma test_hash_inj n n' : is_u64 n -> is_u64 n' -> test_hash n = test_hash n' -> n = n'.
Proof. intros Hn Hn' E. apply (f_equal from_be_bytes) in E. rewrite !from_be_test_hash in E by done. lia. Qed.

Lemma test_hash_nonzero n : is_u64 n -> test_hash n <> B256_ZERO.
Proof.
  intros Hn E. apply (f_equal from_be_bytes) in E. rewrite from_be_test_hash in E by done.
  unfold is_u64 in Hn. change (from_be_bytes B256_ZERO) with 0 in E. lia.
Qed.

Lemma insert_block_head number block st :
  (insert_block number block st).(fn_head) = Some (head_to number st).
Proof. unfold insert_block. by case_bool_decide. Qed.

Lemma insert_block_logs number block st : (insert_block number block st).(fn_logs) = st.(fn_logs).
Proof. unfold insert_block. by case_bool_decide. Qed.

Lemma insert_block_at number block st :
  exists b, (insert_block number block st).(fn_blocks) !! number = Some b /\
  (st.(fn_blocks) !! number = Some b \/
   st.(fn_blocks) !! number = None /\ b.(hd_number) = block.(hd_number) /\
   b.(hd_hash) = if bool_decide (block.(hd_hash) = B256_ZERO) then test_hash number else block.(hd_hash)).
Proof.
  unfold insert_block. case_bool_decide as Hs.
  - destruct Hs as [b Eb]. exists b. split; [done|]. by left.
  - cbn [fn_blocks]. rewrite lookup_insert_eq. eexists. split; [done|]. right.
    rewrite eq_None_not_Some. done.
Qed.

Lemma insert_block_ne number block st n :
  n <> number -> (insert_block number block st).(fn_blocks) !! n = st.(fn_blocks) !! n.
Proof. intros Hn. unfold insert_block. case_bool_decide; [done|]. cbn [fn_blocks]. by rewrite lookup_insert_ne. Qed.

Lemma insert_block_grows number block st : grows st (insert_block number block st).
Proof.
  split.
  - intros n b Eb. destruct (decide (n = number)) as [->|Hne]; [|by rewrite insert_block_ne].
    destruct (insert_block_at number block st) as (b' & -> & [E|[E _]]); congruence.
  - intros n. exists []. by rewrite insert_block_logs, app_nil_r.
  - intros h Eh. rewrite insert_block_head. unfold head_to. rewrite Eh. eexists. split; [done|lia].
Qed.

Lemma insert_block_chain number block st :
  is_u64 number -> block.(hd_number) = number -> chain_ok st -> chain_ok (insert_block number block st).
Proof.
  intros Hu Hb [Hh Hk Hy Hf]. split.
  - rewrite insert_block_head. destruct (insert_block_at number block st) as (b & Eb & _). unfold head_to.
    assert (forall n, is_Some ((insert_block number block st).(fn_blocks) !! n) -> n = number \/ is_Some (st.(fn_blocks) !! n)) as Hor.
    { intros n Hn. destruct (decide (n = number)); [by left|right]. by rewrite insert_block_ne in Hn. }
    destruct (fn_head st) as [h|]; [|split; [eauto|intros n [->|Hn]%Hor; [lia|by rewrite Hh, lookup_empty in Hn; destruct Hn]]].
    destruct Hh as [[bh Ebh] Hmax]. split; [|intros n [->|Hn%Hmax]%Hor; lia].
    destruct (Z.max_spec h number) as [[_ ->]|[_ ->]]; [eauto|]. exists bh. by apply insert_block_grows.
  - intros n b Eb. destruct (decide (n = number)) as [->|Hne]; [|rewrite insert_block_ne in Eb by done; eauto].
    destruct (insert_block_at number block st) as (b' & Eb' & Hor). assert (b' = b) as -> by congruence.
    destruct Hor as [E|(_ & En & Eh)]; [eauto|]. split_and!; [done|congruence|].
    rewrite Eh. case_bool_decide; [by apply test_hash_nonzero|done].
  - intros h n. unfold insert_block. case_bool_decide as Hs; cbn [fn_by_hash fn_blocks]; [eauto|].
    intros [[<- <-]|[Hne E]]%lookup_insert_Some; [rewrite lookup_insert_eq; eauto|].
    destruct (Hy _ _ E) as (b & Eb & Ehb). exists b. split; [|done]. rewrite lookup_insert_ne; [done|]. intros ->. eauto.
  - intros n b. unfold insert_block. case_bool_decide as Hs; cbn [fn_by_hash fn_blocks]; [eauto|].
    intros [[<- <-]|[Hne E]]%lookup_insert_Some; cbn [hd_hash]; apply lookup_insert_is_Some'; [by left|right; by eapply Hf].
Qed.

(** Pushes. *)
Lemma push_block_coherent (header : Header) st :
  is_u64 header.(hd_number) -> coherent st -> coherent (push_block header st) /\ grows st (push_block header st).
Proof.
  intros Hu [Hc Hl]. pose proof (insert_block_grows header.(hd_number) header st) as Hg. split; [|done].
  split; [by apply insert_block_chain|]. intros n ls. unfold push_block. rewrite insert_block_logs.
  intros (b & Eb & Hall)%Hl. exists b. split; [by apply Hg|done].
Qed.

(** A log whose block number, when it has one, is a [u64]. *)
Definition log_in_range (log : AlloyLog) : Prop := forall n, log.(al_block_number) = Some n -> is_u64 n.

Lemma log_number_u64 log st : chain_ok st -> log_in_range log -> is_u64 (log_number log st).
Proof.
  intros [Hh Hb _ _] Hr. unfold log_number. destruct (al_block_number log) as [n|] eqn:En; [by apply Hr|].
  destruct (fn_head st) as [h|]; [|unfold is_u64, u64_max; lia].
  destruct Hh as [[b Eb] _]. apply Hb in Eb as [Hu _]. unfold is_u64, u64_sat, u64_max in *. lia.
Qed.

Lemma push_log_block_hash log st b :
  (push_chain_log x0 log st).(fn_blocks) !! log_number log st = Some b -> is_u64 (log_number log st) ->
  b.(hd_hash) = hash_at (log_number log st) st.
Proof.
  unfold push_chain_log. set (n := log_number log st). set (st1 := mkNode _ _ _ _ _ _ _ _ _). intros Eb Hu.
  destruct (insert_block_at n (linked_block x0 n) st1) as (b' & Eb' & Hor). assert (b' = b) as -> by congruence.
  unfold hash_at. destruct Hor as [E|(E & _ & Eh)]; subst st1; cbn [fn_blocks] in E; rewrite E; [done|].
  rewrite Eh. rewrite bool_decide_eq_false_2; [done|]. by apply test_hash_nonzero.
Qed.

Lemma push_log_coherent log st :
  log_in_range log -> coherent st -> coherent (push_chain_log x0 log st) /\ grows st (push_chain_log x0 log st).
Proof.
  intros Hr [Hc Hl]. pose proof (log_number_u64 log st Hc Hr) as Hu. pose proof (push_log_block_hash log st) as Hh.
  unfold push_chain_log in *. set (n := log_number log st) in *. set (st1 := mkNode _ _ _ _ _ _ _ _ _) in *.
  assert (chain_ok st1) as Hc1 by (destruct Hc; by split).
  pose proof (insert_block_grows n (linked_block x0 n) st1) as Hg.
  split; [split; [by apply insert_block_chain|]|].
  - intros k ls. rewrite insert_block_logs. unfold st1 at 1. cbn [fn_logs].
    intros [[<- <-]|[Hne (b & Eb & Hall)%Hl]]%lookup_insert_Some; [|exists b; split; [by apply Hg|done]].
    destruct (insert_block_at n (linked_block x0 n) st1) as (b & Eb & _). exists b. split; [exact Eb|].
    specialize (Hh _ Eb Hu). apply Forall_app. split; [|apply Forall_singleton; cbn; by rewrite Hh].
    destruct (fn_logs st !! n) as [old|] eqn:Eo; [|constructor]. destruct (Hl _ _ Eo) as (b' & Eb' & Hall).
    assert (b' = b) as -> by (apply Hg in Eb'; congruence). done.
  - destruct Hg as [Gb _ Gh]. split; [exact Gb| |exact Gh]. intros k. rewrite insert_block_logs. unfold st1. cbn [fn_logs].
    destruct (decide (k = n)) as [->|Hne]; [rewrite lookup_insert_eq; cbn; eauto|].
    rewrite lookup_insert_ne by done. exists []. by rewrite app_nil_r.
Qed.
End Coherence.

(** ** Tests against the node *)

Section Moves.
Context {X Json Id : Type} (x0 : X).
Context (json_parse : text -> option Json) (parse_block_params : text -> option (BlockTag * bool))
  (parse_log_params : text -> option FilterBlockOption) (json_valid : text -> bool)
  (u64_json : Z -> text) (block_json : option (@Header X) -> text) (logs_json : list AlloyLog -> text).
Notation Node := (@FakeNodeState X Json).
Notation Mv := (@Move X Id).
Notation step := (move x0 json_parse parse_block_params parse_log_params json_valid u64_json block_json logs_json).
Notation run := (moves x0 json_parse parse_block_params parse_log_params json_valid u64_json block_json logs_json).

(** Block numbers are [u64]s. *)
Definition move_ok (m : Mv) : Prop :=
  match m with
  | MvPushBlock header => is_u64 header.(hd_number)
  | MvPushLog log => log_in_range log
  | _ => True
  end.

Lemma same_refl (st : Node) : same_chain st st.
Proof. done. Qed.

Lemma serve_begin_same (req : SerializedRequest Id) (st : Node) : same_chain st (serve_begin json_parse req st).2.
Proof. unfold serve_begin. by destruct (take_delay _ st) as [[wait delay] method_delay]. Qed.

Lemma serve_route_same (req : SerializedRequest Id) (st : Node) :
  same_chain st (serve_route parse_block_params parse_log_params json_valid u64_json block_json logs_json req st).2.
Proof.
  unfold serve_route, head_attempt. destruct (_ !! _); [done|]. case_bool_decide; [|by repeat case_bool_decide].
  by destruct (0 <? _).
Qed.

Lemma move_coherent (m : Mv) (st : Node) : move_ok m -> coherent st -> coherent (step m st) /\ grows st (step m st).
Proof.
  intros Hm Hc. assert (same_chain st (step m st) -> coherent (step m st) /\ grows st (step m st)) as Hsame
    by (intros Hs; split; [by eapply same_coherent|by apply same_grows]).
  destruct m; cbn [move] in *; try (by apply Hsame).
  - by apply push_block_coherent.
  - by apply push_log_coherent.
  - apply Hsame, serve_begin_same.
  - apply Hsame, serve_route_same.
Qed.

Lemma moves_coherent (ms : list Mv) (st : Node) :
  Forall move_ok ms -> coherent st -> coherent (run ms st) /\ grows st (run ms st).
Proof.
  intros Hms. revert st. induction Hms as [|m ms Hm _ IH]; intros st Hc; [split; [done|apply grows_refl]|].
  destruct (move_coherent m st Hm Hc) as [Hc1 Hg1]. destruct (IH (step m st) Hc1) as [Hc2 Hg2].
  split; [done|]. by eapply grows_trans.
Qed.

Lemma node_new_coherent : coherent (node_new : Node).
Proof. split; [split; try done|]; intros n ?; cbn; by rewrite lookup_empty. Qed.

(** Whatever a test pushes, scripts and asks, the node is coherent: its
    head is its highest block, a block is found by its hash, and a log sits in a served
    block and carries that block's number and hash. And it only grows: a block once
    served is never changed, logs are only appended and the head never falls, so what a
    source read stays true. *)
Theorem fake_node_only_grows (before after : list Mv) :
  Forall move_ok before -> Forall move_ok after ->
  let st := run before node_new in coherent st /\ coherent (run after st) /\ grows st (run after st).
Proof.
  intros Hb Ha. destruct (moves_coherent before node_new Hb node_new_coherent) as [Hc _].
  split; [done|]. by apply moves_coherent.
Qed.

(** *** Log queries *)

Lemma logs_between_split (a b c : Z) (st : Node) :
  a <= b + 1 -> b <= c -> logs_between a c st = logs_between a b st ++ logs_between (b + 1) c st.
Proof.
  intros Hab Hbc. unfold logs_between. rewrite <- flat_map_app. f_equal.
  replace (c + 1 - a) with ((b + 1 - a) + (c + 1 - (b + 1))) by lia.
  rewrite seqZ_app by lia. f_equal. f_equal. lia.
Qed.

Lemma logs_between_in (a c : Z) (st : Node) log :
  log ∈ logs_between a c st <-> exists n ls, a <= n <= c /\ st.(fn_logs) !! n = Some ls /\ log ∈ ls.
Proof.
  unfold logs_between. rewrite list_elem_of_In, in_flat_map. split.
  - intros (n & Hn%list_elem_of_In%elem_of_seqZ & Hin%list_elem_of_In).
    destruct (fn_logs st !! n) as [ls|] eqn:E; cbn in Hin; [|by apply not_elem_of_nil in Hin].
    exists n, ls. split_and!; [lia|lia|done|done].
  - intros (n & ls & Hn & E & Hin). exists n. split; apply list_elem_of_In; [apply elem_of_seqZ; lia|by rewrite E].
Qed.

(** A header the node numbers the hash of. *)
Definition default_hash (m : Mv) : Prop :=
  match m with MvPushBlock header => header.(hd_hash) = B256_ZERO | _ => True end.

Definition hashed (st : Node) : Prop := forall n b, st.(fn_blocks) !! n = Some b -> b.(hd_hash) = test_hash n.

Lemma insert_block_hashed number (block : @Header X) (st : Node) :
  block.(hd_hash) = B256_ZERO \/ block.(hd_hash) = test_hash number -> hashed st -> hashed (insert_block number block st).
Proof.
  intros Hb Hh n b Eb. destruct (decide (n = number)) as [->|Hne]; [|rewrite insert_block_ne in Eb by done; by apply Hh].
  destruct (insert_block_at number block st) as (b' & Eb' & Hor). assert (b' = b) as -> by congruence.
  destruct Hor as [E|(_ & _ & ->)]; [by apply Hh|]. case_bool_decide; [done|]. by destruct Hb.
Qed.

Lemma moves_hashed (ms : list Mv) (st : Node) : Forall default_hash ms -> hashed st -> hashed (run ms st).
Proof.
  intros Hms. revert st. induction Hms as [|m ms Hm _ IH]; intros st Hh; [done|]. apply IH.
  assert (forall st', same_chain st st' -> hashed st') as Hsame
    by (intros st' (_ & Eb & _); unfold hashed; rewrite Eb; done).
  destruct m; cbn [move default_hash] in *; try (by apply Hsame).
  - apply insert_block_hashed; [by left|done].
  - apply insert_block_hashed; [by right|]. exact Hh.
  - apply Hsame, serve_begin_same.
  - apply Hsame, serve_route_same.
Qed.

(** A node whose hashes are its own answers every log query with one
    history: a range is the concatenation of its parts, so that paging through it in
    chunks loses and repeats nothing; a query by a block's hash is the range of that
    block alone; and each log of a range is one of a block inside it, and carries that
    block's number and hash. *)
Theorem fake_node_log_queries_agree (ms : list Mv) (n : Z) (b : @Header X) :
  let st := run ms node_new in
  Forall move_ok ms -> Forall default_hash ms -> st.(fn_blocks) !! n = Some b ->
  node_logs (AtBlockHash b.(hd_hash)) st = logs_between n n st /\
  (forall lo mid hi, lo <= mid + 1 -> mid <= hi ->
     logs_between lo hi st = logs_between lo mid st ++ logs_between (mid + 1) hi st) /\
  (forall log, log ∈ logs_between n n st ->
     log.(al_block_number) = Some n /\ log.(al_block_hash) = Some (test_hash n)).
Proof.
  intros st Hms Hds Eb. destruct (moves_coherent ms node_new Hms node_new_coherent) as [[[_ Hk Hy Hf] Hl] _].
  assert (hashed st) as Hh by (apply moves_hashed; [done|]; intros k bk; cbn; by rewrite lookup_empty). fold st in Hk, Hy, Hf, Hl.
  split_and!; [|intros; by apply logs_between_split|].
  - cbn [node_logs]. destruct (Hf _ _ Eb) as [n' Ey]. rewrite Ey. cbn [mbind option_bind].
    destruct (Hy _ _ Ey) as (b' & Eb' & E'). rewrite (Hh _ _ Eb), (Hh _ _ Eb') in E'.
    apply test_hash_inj in E' as ->; [|by apply Hk in Eb' as []|by apply Hk in Eb as []].
    unfold logs_between. replace (n + 1 - n) with 1 by lia. rewrite seqZ_cons by lia. rewrite seqZ_nil by lia. cbn [flat_map]. by rewrite app_nil_r.
  - intros log (k & ls & Hkn & El & Hin)%logs_between_in. assert (k = n) as -> by lia.
    destruct (Hl _ _ El) as (b' & Eb' & Hall). assert (b' = b) as -> by congruence.
    rewrite <- (Hh _ _ Eb). exact (proj1 (Forall_forall _ _) Hall _ Hin).
Qed.
End Moves.

(** ** A parked head fetch *)

Section Waking.
Context {X Json : Type}.
Notation Node := (@FakeNodeState X Json).

(** Where a head fetch stands: before its [Notified] is enabled, before the check under
    the lock, awaiting, or answered. The flag tells that a notification arrived since
    it was enabled. *)
Inductive FetchAt : Type :=
| FetchEnable
| FetchCheck (woken : bool)
| FetchAwait (woken : bool)
| FetchDone (r : result Z NodeError).

(** The node, the fetch, and the pushes that have stored their block and not yet
    notified. *)
Record Fetching : Type := mkFetching { ft_node : Node; ft_at : FetchAt; ft_unnotified : nat }.

(** [notify_waiters] as the fetch sees it. *)
Definition notified (at' : FetchAt) : FetchAt :=
  match at' with
  | FetchCheck _ => FetchCheck true
  | FetchAwait _ => FetchAwait true
  | FetchEnable | FetchDone _ => at'
  end.

(** The check under the lock. *)
Definition fetch_check (woken : bool) (s : Fetching) : Fetching :=
  let (out, node) := head_attempt s.(ft_node) in
  mkFetching node (match out with Some r => FetchDone r | None => FetchAwait woken end) s.(ft_unnotified).

Inductive fetch_step : Fetching -> Fetching -> Prop :=
| fs_enable node k : fetch_step (mkFetching node FetchEnable k) (mkFetching node (FetchCheck false) k)
| fs_check s woken : s.(ft_at) = FetchCheck woken -> fetch_step s (fetch_check woken s)
| fs_wake node k : fetch_step (mkFetching node (FetchAwait true) k) (mkFetching node FetchEnable k)
| fs_store node at' k number block :
    fetch_step (mkFetching node at' k) (mkFetching (insert_block number block node) at' (S k))
| fs_notify node at' k : fetch_step (mkFetching node at' (S k)) (mkFetching node (notified at') k)
| fs_script node at' k n : fetch_step (mkFetching node at' k) (mkFetching (fail_head_fetches n node) at' k).

(** A fetch that awaits un-notified has no head to miss, or a push still owes its
    notification. *)
Definition owed (s : Fetching) : Prop :=
  s.(ft_at) = FetchAwait false -> s.(ft_node).(fn_head) = None \/ (0 < s.(ft_unnotified))%nat.

(** Between the enabling and the check nothing is asked: the check reads the head. *)
Lemma fetch_step_owed s s' : fetch_step s s' -> owed s -> owed s'.
Proof.
  intros Hs Ho. destruct Hs as [| s woken Hat | |node at' k number block|node at' k|]; try done.
  - unfold fetch_check, head_attempt. destruct (0 <? _); [done|]. destruct (fn_head (ft_node s)) as [h|] eqn:Eh; [done|].
    intros _. cbn. by left.
  - intros E. cbn in E. destruct (Ho E); right; cbn; lia.
  - intros E. destruct at'; done.
Qed.

(** A fetch that answered a head, which has not fallen since. *)
Definition answered (s : Fetching) : Prop :=
  forall h, s.(ft_at) = FetchDone (Ok h) -> exists h', s.(ft_node).(fn_head) = Some h' /\ h <= h'.

Lemma fetch_step_answered s s' : fetch_step s s' -> answered s -> answered s'.
Proof.
  intros Hs Ha. destruct Hs as [| s woken Hat | |node at' k number block|node at' k|]; try done.
  - unfold fetch_check, head_attempt, answered. destruct (0 <? _); [done|]. cbn.
    destruct (fn_head (ft_node s)) as [h1|]; [|done]. intros h [= ->]. eauto using Z.le_refl.
  - intros h E. destruct (Ha h E) as (h' & Eh & Hle). cbn in *. rewrite insert_block_head. unfold head_to. rewrite Eh.
    eexists. split; [done|lia].
  - intros h E. apply Ha. by destruct at'.
Qed.

(** A head fetch that finds no head parks, and whatever pushes and
    scripts interleave with it, it never sleeps on a head: while it awaits, either there
    is still no block, or a push is about to wake it, or it was woken already. And it
    ends with a head only when the node has one. *)
Theorem head_fetch_never_sleeps_on_a_head (node : Node) (s : Fetching) :
  rtc fetch_step (mkFetching node FetchEnable 0) s ->
  (forall woken, s.(ft_at) = FetchAwait woken ->
     s.(ft_node).(fn_head) = None \/ (0 < s.(ft_unnotified))%nat \/ woken = true) /\
  (forall h, s.(ft_at) = FetchDone (Ok h) -> exists h', s.(ft_node).(fn_head) = Some h' /\ h <= h').
Proof.
  intros Hr. assert (owed s /\ answered s) as [Ho Ha].
  { revert s Hr. apply (rtc_ind_r (fun s => owed s /\ answered s)); [done|].
    intros s1 s2 _ Hs []. eauto using fetch_step_owed, fetch_step_answered. }
  split; [|exact Ha]. intros [|] E; [by right; right|]. destruct (Ho E); tauto.
Qed.
End Waking.

(** ** The test pool *)

(** [ProviderPool::for_tests], and [FakeNode::pool]: one provider for every chain. *)
Definition for_tests {D} (ps : list (Z * D)) (interval : Z) : ProviderPool (D := D) :=
  mkPool (list_to_map (reverse ((fun p => (p.1, mkChainEndpoint p.2 (duration_from_secs 30) false 1000)) <$> ps))) 1 (Some interval).

Definition node_pool {D} (provider : D) (chains : list Z) (interval : Z) : ProviderPool (D := D) :=
  for_tests ((fun chain => (chain, provider)) <$> chains) interval.

(** ** The manual clock *)

Record ManualClock : Type := mkClock { mc_wall : Z; mc_monotonic : Z }.

Definition clock_new : ManualClock := mkClock 0 0.

(** [time] is relative to the Unix epoch, and may lie before it. *)
Definition clock_set (time : Z) (c : ManualClock) : ManualClock := mkClock (Z.max 0 time) c.(mc_monotonic).

Definition clock_advance (by' : Z) (c : ManualClock) : ManualClock :=
  let nanos := if by' <=? u64_max then by' else u64_max in
  mkClock (Z.min (c.(mc_wall) + by') (2 ^ 64 * NANOS_PER_SEC - 1)) (u64_sat (c.(mc_monotonic) + nanos)).

Inductive ClockOp : Type := ClockSet (time : Z) | ClockAdvance (by' : Z).

Definition clock_op (o : ClockOp) : ManualClock -> ManualClock :=
  match o with ClockSet time => clock_set time | ClockAdvance by' => clock_advance by' end.

Definition clock_ops (os : list ClockOp) (c : ManualClock) : ManualClock := foldl (fun c o => clock_op o c) c os.

(** Time passed by the advances of a script. *)
Definition advanced (os : list ClockOp) : Z :=
  foldr (fun o t => match o with ClockAdvance by' => by' + t | ClockSet _ => t end) 0 os.

Definition clock_op_ok (o : ClockOp) : Prop :=
  match o with ClockSet time => time < 2 ^ 64 * NANOS_PER_SEC | ClockAdvance by' => is_duration by' end.

Lemma clock_ops_monotonic os c :
  Forall clock_op_ok os -> is_u64 c.(mc_monotonic) ->
  (clock_ops os c).(mc_monotonic) = u64_sat (c.(mc_monotonic) + advanced os) /\ 0 <= advanced os.
Proof.
  intros Hos. revert c. induction Hos as [|o os Ho _ IH]; intros c Hc.
  - unfold clock_ops, advanced. cbn. unfold is_u64, u64_sat in *. lia.
  - change (clock_ops (o :: os) c) with (clock_ops os (clock_op o c)).
    assert (is_u64 (mc_monotonic (clock_op o c))) as Hc1.
    { destruct o as [t|d]; [done|]. cbn in *. unfold is_u64, u64_sat, is_duration in *. destruct (Z.leb_spec d u64_max); lia. }
    destruct (IH _ Hc1) as [-> H0]. destruct o as [t|d]; cbn [clock_op advanced foldr clock_set clock_advance mc_monotonic]; [done|].
    fold (advanced os). cbn in Ho. unfold is_duration, is_u64, u64_sat in *. destruct (Z.leb_spec d u64_max); lia.
Qed.

Lemma clock_advances_wall (ds : list Z) (c : ManualClock) :
  Forall is_duration ds -> 0 <= c.(mc_wall) -> c.(mc_wall) + advanced (ClockAdvance <$> ds) < 2 ^ 64 * NANOS_PER_SEC ->
  (clock_ops (ClockAdvance <$> ds) c).(mc_wall) = c.(mc_wall) + advanced (ClockAdvance <$> ds).
Proof.
  intros Hds. revert c. induction Hds as [|d ds Hd Hds IH]; intros c Hw Hsum; [cbn; lia|].
  cbn [fmap list_fmap] in *. change (advanced (ClockAdvance d :: ?l)) with (d + advanced l) in *.
  change (clock_ops (ClockAdvance d :: ?l) c) with (clock_ops l (clock_advance d c)).
  assert (0 <= advanced (ClockAdvance <$> ds)) as H0
    by (apply (clock_ops_monotonic _ clock_new); [by apply Forall_fmap|done]).
  unfold is_duration in Hd. rewrite IH; cbn [clock_advance mc_wall]; lia.
Qed.

(** Guest time under a manual clock: the monotonic reading is the total
    of the advances, clamped at its width, whatever the wall clock is set to, so it
    never falls; and a wall pinned at an instant reads that instant plus what was
    advanced since. *)
Theorem manual_clock_adds_up (os : list ClockOp) (time : Z) (ds : list Z) :
  Forall clock_op_ok os -> 0 <= time -> Forall is_duration ds ->
  time + advanced (ClockAdvance <$> ds) < 2 ^ 64 * NANOS_PER_SEC ->
  let c := clock_ops (os ++ ClockSet time :: (ClockAdvance <$> ds)) clock_new in
  c.(mc_monotonic) = u64_sat (advanced os + advanced (ClockAdvance <$> ds)) /\
  c.(mc_wall) = time + advanced (ClockAdvance <$> ds).
Proof.
  intros Hos Ht Hds Hsum. cbv zeta. unfold clock_ops. rewrite foldl_app. cbn [foldl]. fold (clock_ops os clock_new).
  destruct (clock_ops_monotonic os clock_new Hos) as [Hm H0]; [done|].
  set (c0 := clock_ops os clock_new) in *. cbn [clock_op]. fold (clock_ops (ClockAdvance <$> ds) (clock_set time c0)).
  assert (Forall clock_op_ok (ClockAdvance <$> ds)) as Hok by (by apply Forall_fmap).
  split.
  - destruct (clock_ops_monotonic _ (clock_set time c0) Hok) as [-> Hd]; cbn [clock_set mc_monotonic]; rewrite Hm; cbn [clock_new mc_monotonic];
      unfold is_u64, u64_sat, u64_max in *; lia.
  - assert (mc_wall (clock_set time c0) = time) as Ew by (cbn; lia).
    rewrite clock_advances_wall; rewrite ?Ew; done.
Qed.

(** ** A small test *)

Definition no_json (_ : text) : option unit := None.
Definition demo_move : @Move unit Z -> @FakeNodeState unit unit -> @FakeNodeState unit unit :=
  move tt no_json (fun _ => None) (fun _ => None) (fun _ => true) decimal (fun _ => []) (fun _ => []).
Definition demo_moves : list (@Move unit Z) -> @FakeNodeState unit unit -> @FakeNodeState unit unit :=
  moves tt no_json (fun _ => None) (fun _ => None) (fun _ => true) decimal (fun _ => []) (fun _ => []).
Definition bare_log : AlloyLog := mkAlloyLog [] [] [] None None None None None None false.
Definition demo_pushes : list (@Move unit Z) :=
  [MvPushBlock (mkHeader 7 B256_ZERO B256_ZERO tt); MvPushLog bare_log; MvFailHeads 1;
   MvRoute (mkRequest 1 (chars_of "eth_blockNumber") None); MvPushLog bare_log].

Lemma demo_pushes_ok : Forall move_ok demo_pushes /\ Forall default_hash demo_pushes.
Proof.
  split; unfold demo_pushes; rewrite !Forall_cons; cbn [move_ok default_hash hd_number hd_hash];
    split_and!; try done; unfold is_u64, u64_max; lia.
Qed.

(** A log without a number lands one past the head; a pushed header at a number that
    already has a block is not served. *)
Example second_push_is_dropped :
  let st := demo_moves demo_pushes node_new in
  st.(fn_head) = Some 9 /\ st.(fn_fail_head_fetches) = 0 /\ length (logs_between 0 9 st) = 2%nat /\
  (demo_move (MvPushBlock (mkHeader 8 (replicate 32 1) B256_ZERO tt)) st).(fn_blocks) !! 8 = st.(fn_blocks) !! 8.
Proof. split_and!; vm_compute; reflexivity. Qed.

Lemma fake_node_only_grows_witness :
  let st := demo_moves demo_pushes node_new in grows st (demo_moves [MvPushLog bare_log] st).
Proof.
  refine (proj2 (proj2 (fake_node_only_grows tt no_json (fun _ => None) (fun _ => None) (fun _ => true) decimal (fun _ => [])
    (fun _ => []) demo_pushes [MvPushLog bare_log] (proj1 demo_pushes_ok) _))).
  by apply Forall_singleton.
Defined.

Lemma fake_node_log_queries_agree_witness :
  let st := demo_moves demo_pushes node_new in
  node_logs (AtBlockHash (test_hash 8)) st = logs_between 8 8 st.
Proof.
  refine (proj1 (fake_node_log_queries_agree tt no_json (fun _ => None) (fun _ => None) (fun _ => true) decimal (fun _ => [])
    (fun _ => []) demo_pushes 8 (linked_block tt 8) (proj1 demo_pushes_ok) (proj2 demo_pushes_ok) _)).
  vm_compute. reflexivity.
Defined.

Lemma head_fetch_never_sleeps_on_a_head_witness :
  exists s : @Fetching unit unit, s.(ft_at) = FetchAwait true /\ s.(ft_node).(fn_head) = Some 7 /\
    forall woken, s.(ft_at) = FetchAwait woken ->
      s.(ft_node).(fn_head) = None \/ (0 < s.(ft_unnotified))%nat \/ woken = true.
Proof.
  set (node := insert_block 7 (linked_block tt 7) (node_new : @FakeNodeState unit unit)).
  exists (mkFetching node (FetchAwait true) 0). split; [done|]. split; [done|].
  refine (proj1 (head_fetch_never_sleeps_on_a_head node_new _ _)).
  eapply rtc_l; [apply fs_enable|]. eapply rtc_l; [by eapply fs_check|].
  eapply rtc_l; [apply (fs_store _ _ _ 7 (linked_block tt 7))|].
  eapply rtc_l; [apply fs_notify|]. apply rtc_refl.
Defined.

Lemma manual_clock_adds_up_witness :
  (clock_ops ([ClockAdvance 5] ++ ClockSet 100 :: (ClockAdvance <$> [1; 2])) clock_new).(mc_monotonic) = u64_sat (5 + 3).
Proof.
  refine (proj1 (manual_clock_adds_up [ClockAdvance 5] 100 [1; 2] _ _ _ _)).
  - apply Forall_singleton. cbn. unfold is_duration, NANOS_PER_SEC. lia.
  - done.
  - rewrite !Forall_cons. unfold is_duration, NANOS_PER_SEC. split_and!; [lia..|constructor].
  - vm_compute. reflexivity.
Defined.
