(* ===== verification/ManifestBuilder.v ===== *)
(** * ManifestBuilder: the component.toml builder of the runtime tests

    crates/nexum-runtime-testing/src/manifest.rs: [TestManifest] collects a name, a
    digest, dependencies, hosts, settings and triggers, renders them through
    [toml::Table] and writes the file a test boots from.

    A [toml::Table] is a map iterated in key order. Printing a table is the [toml]
    crate's, as parsing is in [Manifest].

    The theorem: what a test declares is what the runtime loads. *)

From stdpp Require Import prelude list gmap strings sorting.
From Stdlib Require Import ZArith Lia.
From S2P Require Import Prelude Primitives Policy Cron Dispatch Admission Toml World Manifest.

Local Open Scope rust_scope.
Local Open Scope Z_scope.

#[local] Arguments chars_of : simpl never.

(** ** Tables *)

Abbreviation Table := (gmap text Toml).

Definition key_order (a b : text * Toml) : Prop := bytes_lt b.1 a.1 = false.
#[local] Instance key_order_dec : RelDecision key_order := fun a b => decide (bytes_lt b.1 a.1 = false).

Definition table_entries (t : Table) : list (text * Toml) := merge_sort key_order (map_to_list t).

Definition table_value (t : Table) : Toml := TomlTable (table_entries t).

(** ** The builder *)

Inductive ManifestInput : Type :=
| Beside
| AtPath (path : text)
| Inline (toml : text).

(** What is handed to the loader, and what is written where. *)
Definition input_resolve (i : ManifestInput) (path : text) : option text * list (text * text) :=
  match i with
  | Beside => (None, [])
  | AtPath explicit => (Some explicit, [])
  | Inline toml => (Some path, [(path, toml)])
  end.

Record TestManifest : Type := mkTestManifest {
  tm_name : text;
  tm_component : option text;
  tm_caps : list text;
  tm_http_allow : list text;
  tm_config : list (text * text);
  tm_triggers : list Table
}.

Definition manifest_new (name : text) : TestManifest := mkTestManifest name None [] [] [] [].

Definition component_digest (digest : text) (m : TestManifest) : TestManifest :=
  mkTestManifest m.(tm_name) (Some digest) m.(tm_caps) m.(tm_http_allow) m.(tm_config) m.(tm_triggers).

Definition require (caps : list text) (m : TestManifest) : TestManifest :=
  mkTestManifest m.(tm_name) m.(tm_component) (m.(tm_caps) ++ caps) m.(tm_http_allow) m.(tm_config) m.(tm_triggers).

Definition cap (c : text) : TestManifest -> TestManifest := require [c].

Definition http_allow (host : text) (m : TestManifest) : TestManifest :=
  mkTestManifest m.(tm_name) m.(tm_component) m.(tm_caps) (m.(tm_http_allow) ++ [host]) m.(tm_config) m.(tm_triggers).

Definition config (key value : text) (m : TestManifest) : TestManifest :=
  mkTestManifest m.(tm_name) m.(tm_component) m.(tm_caps) m.(tm_http_allow) (m.(tm_config) ++ [(key, value)]) m.(tm_triggers).

Definition push_trigger (t : Table) (m : TestManifest) : TestManifest :=
  mkTestManifest m.(tm_name) m.(tm_component) m.(tm_caps) m.(tm_http_allow) m.(tm_config) (m.(tm_triggers) ++ [t]).

(** [i64::try_from(n).expect(..)]: [None] is the panic. *)
Definition i64_of (n : Z) : option Z := if n <? 2 ^ 63 then Some n else None.

Definition trigger (on : text) (chain_id : Z) : option Table :=
  i64_of chain_id ≫= fun id =>
  Some (<[chars_of "chain_id" := TomlInteger id]> {[chars_of "on" := TomlString on]}).

(** [if let Some(v) = o { table.insert(key, v) }]. *)
Definition insert_some (key : text) (o : option text) (t : Table) : Table :=
  match o with Some v => <[key := TomlString v]> t | None => t end.

Definition block_table (chain_id : Z) : option Table := trigger (chars_of "block") chain_id.

Definition event_table (chain_id : Z) : option Table := trigger (chars_of "event") chain_id.

Definition event_filtered_table (chain_id : Z) (address event_signature : option text) : option Table :=
  (fun t => insert_some (chars_of "event_signature") event_signature (insert_some (chars_of "address") address t))
    <$> trigger (chars_of "event") chain_id.

Definition event_resuming_table (chain_id : Z) (start_block : option Z) : option Table :=
  trigger (chars_of "event") chain_id ≫= fun t =>
  let t := <[chars_of "resume" := TomlBoolean true]> t in
  match start_block with
  | None => Some t
  | Some height => i64_of height ≫= fun h => Some (<[chars_of "start_block" := TomlInteger h]> t)
  end.

Definition schedule_table (cron : text) : Table :=
  <[chars_of "cron" := TomlString cron]> {[chars_of "on" := TomlString (chars_of "schedule")]}.

(** The loop over the filters. *)
Definition insert_all (filters : list (text * text)) (t : Table) : Table :=
  foldl (fun (t : Table) (f : text * text) => <[f.1 := TomlString f.2]> t) t filters.

Definition extension_table (kind : text) (filters : list (text * text)) : Table :=
  insert_all filters {[chars_of "on" := TomlString kind]}.

(** The methods that add a trigger. *)
Inductive Declared : Type :=
| DBlock (chain_id : Z)
| DEvent (chain_id : Z)
| DEventFiltered (chain_id : Z) (address event_signature : option text)
| DEventResuming (chain_id : Z) (start_block : option Z)
| DSchedule (cron : text)
| DExtension (kind : text) (filters : list (text * text)).

Definition declared_table (d : Declared) : option Table :=
  match d with
  | DBlock chain_id => block_table chain_id
  | DEvent chain_id => event_table chain_id
  | DEventFiltered chain_id address event_signature => event_filtered_table chain_id address event_signature
  | DEventResuming chain_id start_block => event_resuming_table chain_id start_block
  | DSchedule cron => Some (schedule_table cron)
  | DExtension kind filters => Some (extension_table kind filters)
  end.

Definition add_trigger (d : Declared) (m : TestManifest) : option TestManifest :=
  (fun t => push_trigger t m) <$> declared_table d.

(** ** Rendering *)

Definition component_table (m : TestManifest) : Table :=
  insert_some (chars_of "digest") m.(tm_component) {[chars_of "name" := TomlString m.(tm_name)]}.

(** The loop over the dependencies: an empty table under every name. *)
Definition empty_tables (caps : list text) : Table :=
  foldl (fun (t : Table) (c : text) => <[c := table_value ∅]> t) ∅ caps.

Definition hosts_value (hosts : list text) : Toml :=
  table_value {[chars_of "hosts" := TomlArray (TomlString <$> hosts)]}.

Definition dependencies_table (m : TestManifest) : Table :=
  let t := empty_tables m.(tm_caps) in
  if bool_decide (m.(tm_http_allow) = []) then t else <[chars_of "http" := hosts_value m.(tm_http_allow)]> t.

Definition config_table (m : TestManifest) : Table := insert_all m.(tm_config) ∅.

Definition root_table (m : TestManifest) : Table :=
  let root : Table :=
    <[chars_of "dependencies" := table_value (dependencies_table m)]>
      {[chars_of "component" := table_value (component_table m)]} in
  let root : Table :=
    if bool_decide (m.(tm_config) = []) then root else <[chars_of "config" := table_value (config_table m)]> root in
  if bool_decide (m.(tm_triggers) = []) then root
  else <[chars_of "trigger" := TomlArray (table_value <$> m.(tm_triggers))]> root.

Section Render.
(** [toml::to_string]. *)
Context (print : list (text * Toml) -> text).

Definition to_toml (m : TestManifest) : text := print (table_entries (root_table m)).

(** [write_as]: the path it hands on, and the file written there. *)
Definition write_as (m : TestManifest) (path : text) : text * (text * text) := (path, (path, to_toml m)).
End Render.

(** ** Tables as the loader reads them *)

Lemma entries_elem (t : Table) (k : text) v : (k, v) ∈ table_entries t <-> t !! k = Some v.
Proof. unfold table_entries. rewrite merge_sort_Permutation. apply elem_of_map_to_list. Qed.

Lemma entries_NoDup (t : Table) : NoDup (table_entries t).*1.
Proof. unfold table_entries. rewrite merge_sort_Permutation. apply NoDup_fst_map_to_list. Qed.

Lemma table_get_elem (l : list (text * Toml)) k v : NoDup l.*1 -> (k, v) ∈ l -> table_get k l = Some v.
Proof.
  unfold table_get. induction l as [|[k' v'] l IH]; intros Hn Hin; [by apply not_elem_of_nil in Hin|].
  rewrite fmap_cons in Hn. apply NoDup_cons in Hn as [Hk Hn]. cbn [List.find fst]. apply elem_of_cons in Hin as [[= <- <-]|Hin].
  - by rewrite bool_decide_eq_true_2.
  - rewrite bool_decide_eq_false_2; [by apply IH|]. intros ->. apply Hk, list_elem_of_fmap. by exists (k, v).
Qed.

Lemma table_get_entries (t : Table) (k : text) : table_get k (table_entries t) = t !! k.
Proof.
  destruct (t !! k) as [v|] eqn:E; [apply table_get_elem; [apply entries_NoDup|by apply entries_elem]|].
  unfold table_get. destruct (List.find _ _) as [[k' v]|] eqn:Ef; [|done].
  apply List.find_some in Ef as [Hin Hk]. apply bool_decide_eq_true in Hk. cbn in Hk. subst k'.
  apply list_elem_of_In, entries_elem in Hin. congruence.
Qed.

Lemma only_fields_entries (keys : list text) (t : Table) : (forall k v, t !! k = Some v -> k ∈ keys) -> only_fields keys (table_entries t) = true.
Proof.
  intros Ht. unfold only_fields. apply forallb_forall. intros [k v] Hin%list_elem_of_In%entries_elem.
  apply bool_decide_eq_true_2. by eapply Ht.
Qed.

Lemma field_entries {A} (f : Toml -> option A) (k : text) (t : Table) : field f k (table_entries t) = t !! k ≫= f.
Proof. unfold field. by rewrite table_get_entries. Qed.

Lemma field_or_entries {A} (f : Toml -> option A) (d : A) (k : text) (t : Table) :
  field_or f d k (table_entries t) = match t !! k with Some v => f v | None => Some d end.
Proof. unfold field_or. by rewrite table_get_entries. Qed.

Lemma field_opt_entries {A} (f : Toml -> option A) (k : text) (t : Table) :
  field_opt f k (table_entries t) = match t !! k with Some v => Some <$> f v | None => Some None end.
Proof. unfold field_opt. by rewrite table_get_entries. Qed.

(** The value the last call set under a key. *)
Definition last_set (k : text) (l : list (text * text)) : option text :=
  snd <$> last (filter (fun e => e.1 = k) l).

Lemma insert_all_lookup (l : list (text * text)) (t : Table) (k : text) :
  insert_all l t !! k = match last_set k l with Some v => Some (TomlString v) | None => t !! k end.
Proof.
  induction l as [|[k' v'] l IH] using rev_ind; [done|]. unfold insert_all, last_set in *. rewrite foldl_snoc, filter_app. cbn [fst snd].
  destruct (decide (k' = k)) as [->|Hne].
  - by rewrite lookup_insert_eq, filter_cons_True, filter_nil, last_snoc by done.
  - by rewrite lookup_insert_ne, filter_cons_False, filter_nil, app_nil_r by done.
Qed.

Lemma empty_tables_lookup (caps : list text) (k : text) :
  empty_tables caps !! k = if decide (k ∈ caps) then Some (table_value ∅) else None.
Proof.
  unfold empty_tables. induction caps as [|c caps IH] using rev_ind; [done|]. rewrite foldl_snoc. destruct (decide (c = k)) as [->|Hne].
  - rewrite lookup_insert_eq, decide_True; [done|set_solver].
  - rewrite lookup_insert_ne, IH by done. repeat case_decide; set_solver.
Qed.

Lemma read_entries_get {A} (f : Toml -> option A) (k : text) l (ys : list (text * A)) :
  read_entries f l = Some ys -> snd <$> List.find (fun e => bool_decide (e.1 = k)) ys = table_get k l ≫= f.
Proof.
  unfold table_get. revert ys. induction l as [|[k' v] l IH]; intros ys; cbn [read_entries]; [by intros [= <-]|].
  destruct (f v) as [x|] eqn:Ef; [|done]. destruct (read_entries f l) as [xs|]; [|done]. intros [= <-]. cbn [List.find fst].
  case_bool_decide; [done|]. by apply IH.
Qed.

Lemma read_entries_total {A} (f : Toml -> option A) l :
  (forall k v, (k, v) ∈ l -> is_Some (f v)) -> is_Some (read_entries f l).
Proof.
  induction l as [|[k v] l IH]; intros Hl; cbn [read_entries]; [eauto|].
  destruct (Hl k v) as [x ->]; [set_solver|]. destruct IH as [xs ->]; [|eauto]. intros k' v' Hin. apply (Hl k'). set_solver.
Qed.

Lemma read_entries_elem {A} (f : Toml -> option A) l (ys : list (text * A)) k x :
  read_entries f l = Some ys -> (k, x) ∈ ys -> exists v, (k, v) ∈ l /\ f v = Some x.
Proof.
  revert ys. induction l as [|[k' v] l IH]; intros ys; cbn [read_entries]; [intros [= <-] Hin; by apply not_elem_of_nil in Hin|].
  destruct (f v) as [y|] eqn:Ef; [|done]. destruct (read_entries f l) as [zs|]; [|done]. intros [= <-] [[= -> ->]|Hin]%elem_of_cons.
  - exists v. split; [set_solver|done].
  - destruct (IH _ eq_refl Hin) as (w & ? & ?). exists w. split; [set_solver|done].
Qed.

(** Lookups of literal keys. *)
Ltac look :=
  repeat first
    [ rewrite lookup_insert_eq | rewrite lookup_insert_ne by (vm_compute; discriminate)
    | rewrite lookup_singleton_eq | rewrite lookup_singleton_ne by (vm_compute; discriminate) ].

Lemma insert_some_lookup (key : text) (o : option text) (t : Table) (k : text) :
  insert_some key o t !! k = if decide (k = key) then match o with Some v => Some (TomlString v) | None => t !! k end else t !! k.
Proof.
  unfold insert_some. destruct o as [v|]; case_decide as Hk; try done.
  - subst. by rewrite lookup_insert_eq.
  - by rewrite lookup_insert_ne.
Qed.

Ltac look_some :=
  repeat first
    [ progress look
    | rewrite insert_some_lookup, decide_False by (vm_compute; discriminate)
    | rewrite insert_some_lookup, decide_True by done ].

(** ** Triggers *)

Section Loads.
Context (unicode_alphabetic : Z -> bool) (parse_address parse_b256 : text -> option (list Z)).
Context (decode : nat -> text -> option (list Z)) (float_text : Z -> text) (value_text : Toml -> text).
Context (parse_toml : text -> option (list (text * Toml))) (read_to_string : text -> option text).
Context (print : list (text * Toml) -> text).
#[local] Notation from_table := (from_table unicode_alphabetic parse_address parse_b256).
#[local] Notation from_tables := (from_tables unicode_alphabetic parse_address parse_b256).
#[local] Notation load := (load unicode_alphabetic parse_address parse_b256 decode float_text value_text parse_toml read_to_string).

Definition is_i64 (z : Z) : Prop := 0 <= z < 2 ^ 63.

(** What a test must pass for its trigger to be one. *)
Definition declared_ok (d : Declared) : Prop :=
  match d with
  | DBlock chain_id | DEvent chain_id => is_i64 chain_id
  | DEventFiltered chain_id address event_signature =>
      is_i64 chain_id /\ (forall raw, address = Some raw -> is_Some (parse_address raw)) /\
      (forall raw, event_signature = Some raw -> is_Some (parse_b256 raw))
  | DEventResuming chain_id start_block => is_i64 chain_id /\ (forall h, start_block = Some h -> is_i64 h)
  | DSchedule cron => is_ok (from_str unicode_alphabetic cron) = true
  | DExtension kind filters => parse_trigger kind = None /\ chars_of "on" ∉ filters.*1
  end.

(** The trigger a declaration stands for. *)
Definition declares (d : Declared) (t : Trigger) : Prop :=
  match d with
  | DBlock chain_id => t = TBlock chain_id
  | DEvent chain_id => t = TEvent chain_id None None false None None
  | DEventFiltered chain_id address event_signature =>
      t = TEvent chain_id (address ≫= parse_address) (event_signature ≫= parse_b256) false None None
  | DEventResuming chain_id start_block => t = TEvent chain_id None None true None start_block
  | DSchedule cron => exists s, from_str unicode_alphabetic cron = Ok s /\ t = TSchedule s
  | DExtension kind filters => exists fs, t = TExtension kind fs /\
      forall k v, (k, v) ∈ fs <-> last_set k filters = Some v
  end.

Lemma i64_of_ok z : is_i64 z -> i64_of z = Some z /\ read_u64 (TomlInteger z) = Some z.
Proof.
  unfold is_i64, i64_of. intros Hz. destruct (Z.ltb_spec z (2 ^ 63)); [|lia]. cbn [read_u64].
  destruct (Z.leb_spec 0 z); [done|lia].
Qed.

Lemma trigger_filters_elem (l : list (text * Toml)) :
  (forall k v, (k, v) ∈ l -> k = chars_of "on" \/ exists s, v = TomlString s) ->
  exists fs, trigger_filters l = Ok fs /\
    forall k s, (k, s) ∈ fs <-> k <> chars_of "on" /\ (k, TomlString s) ∈ l.
Proof.
  induction l as [|[k v] l IH]; intros Hl; cbn [trigger_filters]; [exists []; split; [done|set_solver]|].
  destruct IH as (fs & Ef & Hfs); [intros; apply Hl; set_solver|]. case_bool_decide as Hk.
  - exists fs. split; [done|]. intros k' s. rewrite Hfs. set_solver.
  - destruct (Hl k v) as [?|[s ->]]; [set_solver|done|]. rewrite Ef. exists ((k, s) :: fs). split; [done|].
    intros k' s'. rewrite !elem_of_cons, Hfs. naive_solver.
Qed.

(** The table of an event trigger with its optional filters and cursor. *)
Lemma event_table_loads (index : Z) (t : Table) (chain_id : Z) (address event_signature : option text) (resume : bool)
    (start_block : option Z) (addr topic : option (list Z)) :
  t !! chars_of "on" = Some (TomlString (chars_of "event")) -> t !! chars_of "chain_id" = Some (TomlInteger chain_id) ->
  t !! chars_of "address" = TomlString <$> address -> t !! chars_of "event_signature" = TomlString <$> event_signature ->
  t !! chars_of "resume" = (if resume then Some (TomlBoolean true) else None) -> t !! chars_of "max_lookback" = None ->
  t !! chars_of "start_block" = TomlInteger <$> start_block ->
  is_i64 chain_id -> (forall h, start_block = Some h -> is_i64 h /\ resume = true) ->
  transpose (fun raw => ok_or (PInvalidEventAddress raw) (parse_address raw)) address = Ok addr ->
  transpose (fun raw => ok_or (PInvalidEventTopic raw) (parse_b256 raw)) event_signature = Ok topic ->
  from_table index (table_entries t) = Ok (TEvent chain_id addr topic resume None start_block).
Proof.
  intros Eon Eid Ead Esg Ere Elb Est Hid Hst Had Hsg. unfold Manifest.from_table. rewrite table_get_entries, Eon.
  cbn [mbind option_bind as_str]. assert (parse_trigger (chars_of "event") = Some TKEvent) as -> by (vm_compute; reflexivity).
  cbn [read_core_trigger]. rewrite field_entries, !field_opt_entries, field_or_entries, Eid, Ead, Esg, Ere, Elb, Est.
  destruct (i64_of_ok chain_id Hid) as [_ Hr]. cbn [mbind option_bind]. rewrite Hr.
  assert (match TomlString <$> address with Some v => Some <$> read_string v | None => Some None end = Some address) as ->
    by (by destruct address).
  assert (match TomlString <$> event_signature with Some v => Some <$> read_string v | None => Some None end = Some event_signature) as ->
    by (by destruct event_signature).
  assert (match (if resume then Some (TomlBoolean true) else None) with Some v => read_bool v | None => Some false end = Some resume) as ->
    by (by destruct resume).
  assert (match TomlInteger <$> start_block with Some v => Some <$> read_u64 v | None => Some None end = Some start_block) as ->.
  { destruct start_block as [h|]; [|done]. destruct (Hst h eq_refl) as [Hh _]. destruct (i64_of_ok h Hh) as [_ E]. cbn [fmap option_fmap option_map]. by rewrite E. }
  cbn [mbind option_bind].
  match goal with |- context [ok_or ?e (Some ?c)] => change (ok_or e (Some c)) with (Ok (E := ParseError) c) end.
  cbn [core_trigger]. rewrite Had, Hsg. destruct start_block as [h|]; [|done]. by destruct (Hst h eq_refl) as [_ ->].
Qed.

Lemma transpose_ok {A B E} (f : A -> option B) (err : A -> E) (o : option A) :
  (forall raw, o = Some raw -> is_Some (f raw)) -> transpose (fun raw => ok_or (err raw) (f raw)) o = Ok (o ≫= f).
Proof. destruct o as [raw|]; [|done]. intros Ho. destruct (Ho raw eq_refl) as [x E']. cbn. by rewrite E'. Qed.

Lemma trigger_i64 on chain_id :
  is_i64 chain_id -> trigger on chain_id = Some (<[chars_of "chain_id" := TomlInteger chain_id]> {[chars_of "on" := TomlString on]}).
Proof. intros Hid. unfold trigger. by destruct (i64_of_ok chain_id Hid) as [-> _]. Qed.

Lemma extension_loads index kind filters :
  declared_ok (DExtension kind filters) ->
  exists tr, from_table index (table_entries (extension_table kind filters)) = Ok tr /\ declares (DExtension kind filters) tr.
Proof.
  intros [Hk Hon]. unfold Manifest.from_table, extension_table. rewrite table_get_entries, insert_all_lookup.
  assert (last_set (chars_of "on") filters = None) as Hn.
  { unfold last_set. destruct (last _) as [[k v]|] eqn:El; [|done]. exfalso. apply Hon, list_elem_of_fmap. exists (k, v).
    apply last_Some in El as [l El]. assert ((k, v) ∈ filter (fun e : text * text => e.1 = chars_of "on") filters) as Hin
      by (rewrite El; set_solver). apply list_elem_of_filter in Hin as [Hk' Hin]. cbn [fst] in *. by subst k. }
  rewrite Hn. look. cbn [mbind option_bind as_str]. rewrite Hk.
  destruct (trigger_filters_elem (table_entries (insert_all filters {[chars_of "on" := TomlString kind]}))) as (fs & -> & Hfs).
  { intros k v. rewrite entries_elem, insert_all_lookup. destruct (last_set k filters); [intros [= <-]; eauto|].
    intros [<- _]%lookup_singleton_Some. by left. }
  exists (TExtension kind fs). split; [done|]. exists fs. split; [done|]. intros k v.
  rewrite Hfs, entries_elem, insert_all_lookup. destruct (last_set k filters) as [s|] eqn:El.
  - split; [intros [_ [= ->]]; done|intros [= ->]; split; [|done]]. intros ->. congruence.
  - split; [|done]. intros [Hne E]. by rewrite lookup_singleton_ne in E by done.
Qed.

(** A declared trigger is rendered without a panic, and loads as what it declares. *)
Lemma declared_loads (d : Declared) (index : Z) :
  declared_ok d -> exists t tr, declared_table d = Some t /\ from_table index (table_entries t) = Ok tr /\ declares d tr.
Proof.
  destruct d as [c|c|c address sig|c start|cron|kind filters]; intros Hd; cbn [declared_table declares].
  - exists (<[chars_of "chain_id" := TomlInteger c]> {[chars_of "on" := TomlString (chars_of "block")]}), (TBlock c).
    split_and!; [by apply trigger_i64| |done]. unfold Manifest.from_table. rewrite table_get_entries. look.
    cbn [mbind option_bind as_str]. assert (parse_trigger (chars_of "block") = Some TKBlock) as -> by (vm_compute; reflexivity).
    cbn [read_core_trigger]. rewrite field_entries. look. cbn [mbind option_bind]. by rewrite (proj2 (i64_of_ok c Hd)).
  - eexists _, _. split_and!; [by apply trigger_i64| |done].
    eapply (event_table_loads index _ c None None false None); look; done.
  - destruct Hd as (Hc & Ha & Hs). eexists _, _. split_and!; [unfold event_filtered_table; by rewrite trigger_i64| |done].
    eapply (event_table_loads index _ c address sig false None); look_some; try done.
    + by apply transpose_ok.
    + by apply transpose_ok.
  - destruct Hd as [Hc Hst]. unfold event_resuming_table. rewrite trigger_i64 by done. cbn [mbind option_bind].
    destruct start as [h|]; [rewrite (proj1 (i64_of_ok h (Hst h eq_refl)))|]; eexists _, _; (split_and!; [reflexivity| |done]).
    + eapply (event_table_loads index _ c None None true (Some h)); look; try done. intros h' [= <-]. eauto.
    + eapply (event_table_loads index _ c None None true None); look; done.
  - destruct (from_str unicode_alphabetic cron) as [sch|] eqn:Ec; [|by cbn in Hd; rewrite Ec in Hd].
    exists (schedule_table cron), (TSchedule sch). split_and!; [done| |by exists sch]. unfold Manifest.from_table, schedule_table.
    rewrite table_get_entries. look. cbn [mbind option_bind as_str].
    assert (parse_trigger (chars_of "schedule") = Some TKSchedule) as -> by (vm_compute; reflexivity).
    cbn [read_core_trigger]. rewrite field_entries. look. cbn. by rewrite Ec.
  - destruct (extension_loads index kind filters Hd) as (tr & E & Hdecl). eauto.
Qed.

(** ** The whole manifest *)

(** The calls of a test on its builder. *)
Inductive Call : Type :=
| CallDigest (digest : text)
| CallRequire (caps : list text)
| CallHttpAllow (host : text)
| CallConfig (key value : text)
| CallTrigger (d : Declared).

Definition call (c : Call) (m : TestManifest) : option TestManifest :=
  match c with
  | CallDigest digest => Some (component_digest digest m)
  | CallRequire caps => Some (require caps m)
  | CallHttpAllow host => Some (http_allow host m)
  | CallConfig key value => Some (config key value m)
  | CallTrigger d => add_trigger d m
  end.

Fixpoint calls (cs : list Call) (m : TestManifest) : option TestManifest :=
  match cs with [] => Some m | c :: cs => call c m ≫= calls cs end.

Definition called_caps (cs : list Call) : list text := flat_map (fun c => match c with CallRequire caps => caps | _ => [] end) cs.
Definition called_hosts (cs : list Call) : list text := flat_map (fun c => match c with CallHttpAllow h => [h] | _ => [] end) cs.
Definition called_config (cs : list Call) : list (text * text) :=
  flat_map (fun c => match c with CallConfig k v => [(k, v)] | _ => [] end) cs.
Definition called_triggers (cs : list Call) : list Declared := flat_map (fun c => match c with CallTrigger d => [d] | _ => [] end) cs.
Definition called_digest (cs : list Call) (d0 : option text) : option text :=
  foldl (fun d c => match c with CallDigest d' => Some d' | _ => d end) d0 cs.

(** The builder keeps what it is told. *)
Lemma calls_build (cs : list Call) (m : TestManifest) :
  Forall declared_ok (called_triggers cs) ->
  exists m', calls cs m = Some m' /\ m'.(tm_name) = m.(tm_name) /\ m'.(tm_component) = called_digest cs m.(tm_component) /\
    m'.(tm_caps) = m.(tm_caps) ++ called_caps cs /\ m'.(tm_http_allow) = m.(tm_http_allow) ++ called_hosts cs /\
    m'.(tm_config) = m.(tm_config) ++ called_config cs /\
    exists ts, m'.(tm_triggers) = m.(tm_triggers) ++ ts /\ Forall2 (fun d t => declared_table d = Some t) (called_triggers cs) ts.
Proof.
  revert m. induction cs as [|c cs IH]; intros m Hok.
  { exists m. split_and!; rewrite ?app_nil_r; try done. exists []. by rewrite app_nil_r. }
  assert (forall m1, call c m = Some m1 -> Forall declared_ok (called_triggers cs) -> _) as Hnext
    by (intros m1 E1 H1; exact (conj E1 (IH m1 H1))).
  destruct c as [d|caps|host|k v|d]; cbn [calls call called_triggers flat_map app] in *.
  5: { apply Forall_cons in Hok as [Hd Hok]. destruct (declared_loads d 0 Hd) as (t & _ & Et & _).
       unfold add_trigger in *. rewrite Et in *. cbn [fmap option_fmap option_map mbind option_bind].
       destruct (Hnext _ eq_refl Hok) as (_ & m' & E & En & Ec & Ep & Eh & Eg & ts & Ets & Hts).
       exists m'. split_and!; try done. exists (t :: ts). split; [|by constructor]. rewrite Ets. cbn. by rewrite <- app_assoc. }
  all: destruct (Hnext _ eq_refl Hok) as (_ & m' & E & En & Ec & Ep & Eh & Eg & ts & Ets & Hts);
    exists m'; cbn in Ec, Ep, Eh, Eg, Ets |- *; rewrite <- ?app_assoc in *; split_and!; try done; by exists ts.
Qed.

Lemma read_component_table (m : TestManifest) :
  read_component (table_value (component_table m)) = Some (mkComponent m.(tm_name) [] m.(tm_component) (mkResources None None None)).
Proof.
  unfold read_component, table_value, component_table. cbn [as_table mbind option_bind]. rewrite only_fields_entries.
  2: { intros k v. rewrite insert_some_lookup. case_decide as Hk; [intros _; subst; set_solver|].
       intros [<- _]%lookup_singleton_Some. set_solver. }
  rewrite !field_or_entries, field_opt_entries. look_some. by destruct (tm_component m).
Qed.

Lemma dependencies_lookup (m : TestManifest) (k : text) :
  dependencies_table m !! k =
  if decide (k = chars_of "http" /\ m.(tm_http_allow) <> []) then Some (hosts_value m.(tm_http_allow))
  else if decide (k ∈ m.(tm_caps)) then Some (table_value ∅) else None.
Proof.
  unfold dependencies_table. case_bool_decide as Hh.
  - rewrite decide_False by tauto. apply empty_tables_lookup.
  - case_decide as Hk; [destruct Hk as [-> _]; by rewrite lookup_insert_eq|].
    rewrite lookup_insert_ne by (intros <-; tauto). apply empty_tables_lookup.
Qed.

Lemma read_hosts hosts : read_dependency (hosts_value hosts) = Some (mkDependency hosts).
Proof.
  unfold read_dependency, hosts_value, table_value. cbn [as_table mbind option_bind]. rewrite only_fields_entries.
  2: { intros k v [<- _]%lookup_singleton_Some. set_solver. }
  rewrite field_or_entries. look. unfold read_vec. cbn [as_array mbind option_bind].
  assert (read_list read_string (TomlString <$> hosts) = Some hosts) as ->; [|done].
  induction hosts as [|h hosts IH]; [done|]. rewrite fmap_cons. cbn [read_list read_string as_str]. by rewrite IH.
Qed.

Lemma read_empty : read_dependency (table_value ∅) = Some (mkDependency []).
Proof. reflexivity. Qed.

(** What the loader reads of the dependencies. *)
Definition deps_of (m : TestManifest) (ds : list (text * Dependency)) : Prop :=
  (forall name dep, (name, dep) ∈ ds -> dep.(dep_hosts) <> [] -> name = cap_as_str CHttp) /\
  (forall name, name ∈ ds.*1 <-> name ∈ m.(tm_caps) \/ name = cap_as_str CHttp /\ m.(tm_http_allow) <> []) /\
  match List.find (fun e => bool_decide (e.1 = cap_as_str CHttp)) ds with Some (_, dep) => dep.(dep_hosts) | None => [] end
    = m.(tm_http_allow).

Lemma dependencies_value m k v :
  dependencies_table m !! k = Some v ->
  (v = hosts_value m.(tm_http_allow) /\ k = cap_as_str CHttp /\ m.(tm_http_allow) <> []) \/ (v = table_value ∅ /\ k ∈ m.(tm_caps)).
Proof.
  rewrite dependencies_lookup. case_decide as Hh; [intros [= <-]; by left|].
  case_decide as Hc; [intros [= <-]; by right|done].
Qed.

Lemma dependencies_read m : exists ds, read_entries read_dependency (table_entries (dependencies_table m)) = Some ds /\ deps_of m ds.
Proof.
  destruct (read_entries_total read_dependency (table_entries (dependencies_table m))) as [ds Eds].
  { intros k v [[-> _]|[-> _]]%entries_elem%dependencies_value; [rewrite read_hosts|rewrite read_empty]; eauto. }
  exists ds. split; [done|]. split_and!.
  - intros name dep Hin Hne. destruct (read_entries_elem _ _ _ _ _ Eds Hin) as (v & Hv & Er).
    apply entries_elem, dependencies_value in Hv as [(_ & ? & _)|[-> _]]; [done|].
    rewrite read_empty in Er. injection Er as <-. done.
  - intros name. rewrite (read_entries_keys _ _ _ Eds), list_elem_of_fmap. split.
    + intros ([k v] & -> & Hv%entries_elem%dependencies_value). cbn. tauto.
    + intros Hor. assert (is_Some (dependencies_table m !! name)) as [v Hv].
      { rewrite dependencies_lookup. case_decide as Hd; [eauto|]. rewrite decide_True; [eauto|].
        destruct Hor as [?|[-> ?]]; [done|]. by destruct Hd. }
      exists (name, v). split; [done|]. by apply entries_elem.
  - pose proof (read_entries_get read_dependency (cap_as_str CHttp) _ _ Eds) as Hg. rewrite table_get_entries, dependencies_lookup in Hg.
    destruct (List.find _ ds) as [[k dep]|]; cbn in Hg; repeat case_decide; cbn [mbind option_bind] in Hg;
      rewrite ?read_hosts, ?read_empty in Hg; simplify_eq; try done;
      destruct (tm_http_allow m); try done; exfalso; naive_solver.
Qed.

Lemma root_keys m k v : root_table m !! k = Some v -> k ∈ CORE_SECTIONS.
Proof.
  unfold root_table, CORE_SECTIONS. repeat case_bool_decide; rewrite ?lookup_insert_Some, ?lookup_singleton_Some; set_solver.
Qed.

Lemma root_component m : root_table m !! chars_of "component" = Some (table_value (component_table m)).
Proof. unfold root_table. repeat case_bool_decide; by look. Qed.

Lemma root_dependencies m : root_table m !! chars_of "dependencies" = Some (table_value (dependencies_table m)).
Proof. unfold root_table. repeat case_bool_decide; by look. Qed.

Lemma root_config m :
  field_or as_table [] (chars_of "config") (table_entries (root_table m)) = Some (table_entries (config_table m)).
Proof.
  rewrite field_or_entries. unfold root_table, config_table.
  case_bool_decide as Ht; case_bool_decide as Hc; look; try done; by rewrite Hc.
Qed.

Lemma root_triggers m :
  field_or (read_vec as_table) [] (chars_of "trigger") (table_entries (root_table m)) = Some (table_entries <$> m.(tm_triggers)).
Proof.
  rewrite field_or_entries. unfold root_table. case_bool_decide as Ht; case_bool_decide as Hc; look; try (by rewrite Ht).
  all: unfold read_vec; cbn [as_array mbind option_bind]; generalize (tm_triggers m) as ts; clear;
    intros ts; induction ts as [|t ts IH]; [done|]; rewrite !fmap_cons; cbn [read_list as_table table_value]; by rewrite IH.
Qed.

Lemma root_reads m : exists ds, deps_of m ds /\
  read_manifest (table_entries (root_table m)) =
    Some (mkRawManifest (mkComponent m.(tm_name) [] m.(tm_component) (mkResources None None None)) (Some ds)
            (table_entries (config_table m)) (table_entries <$> m.(tm_triggers)) []).
Proof.
  destruct (dependencies_read m) as (ds & Eds & Hds). exists ds. split; [done|]. unfold read_manifest.
  rewrite root_config, root_triggers, field_or_entries, field_opt_entries, root_component, root_dependencies, read_component_table.
  cbn [mbind option_bind as_table table_value fmap option_fmap option_map]. rewrite Eds. cbn.
  assert (List.filter (fun e => negb (bool_decide (e.1 ∈ CORE_SECTIONS))) (table_entries (root_table m)) = []) as ->; [|done].
  assert (forall l : list (text * Toml), (forall e, e ∈ l -> e.1 ∈ CORE_SECTIONS) ->
    List.filter (fun e => negb (bool_decide (e.1 ∈ CORE_SECTIONS))) l = []) as Hnil.
  { induction l as [|e l IH]; intros Hl; [done|]. cbn [List.filter]. rewrite bool_decide_eq_true_2 by (apply Hl; set_solver).
    apply IH. set_solver. }
  apply Hnil. intros [k v] Hin%entries_elem. by eapply root_keys.
Qed.

Lemma from_tables_declared ds ts index :
  Forall declared_ok ds -> Forall2 (fun d t => declared_table d = Some t) ds ts ->
  exists trs, from_tables index (table_entries <$> ts) = Ok trs /\ Forall2 declares ds trs.
Proof.
  intros Hok H2. revert index Hok. induction H2 as [|d t ds ts Ht _ IH]; intros index Hok; [by exists []|].
  apply Forall_cons in Hok as [Hd Hok]. destruct (declared_loads d index Hd) as (t' & tr & Et & Ef & Hdec).
  assert (t' = t) as -> by congruence. destruct (IH (index + 1) Hok) as (trs & Es & Hall).
  exists (tr :: trs). split; [|by constructor]. rewrite fmap_cons. cbn [Manifest.from_tables]. by rewrite Ef, Es.
Qed.

Lemma check_dependencies_ok registry ds :
  (forall name, name ∈ ds.*1 -> is_known registry name = true) ->
  (forall name dep, (name, dep) ∈ ds -> dep.(dep_hosts) <> [] -> name = cap_as_str CHttp) ->
  check_dependencies registry ds = Ok tt.
Proof.
  induction ds as [|[name dep] ds IH]; intros Hk Hh; [done|]. cbn [check_dependencies]. rewrite Hk by (rewrite fmap_cons; set_solver).
  cbn [negb]. rewrite (proj2 (andb_false_iff _ _)).
  - apply IH; [intros n Hn; apply Hk; rewrite fmap_cons; set_solver|intros n d' Hin; apply Hh; set_solver].
  - destruct (decide (dep_hosts dep = [])) as [E|Hne]; [left; by rewrite bool_decide_eq_true_2|right].
    rewrite bool_decide_eq_true_2; [done|]. apply (Hh name dep); [set_solver|done].
Qed.

(** The manifest a test means. *)
Record meant (name : text) (cs : list Call) (l : LoadedManifest) : Prop := mkMeant {
  me_name : l.(man_name) = name;
  me_digest : forall raw, called_digest cs None = Some raw ->
    exists d, Digest.from_str decode raw = Ok d /\ l.(man_digest) = Some d;
  me_no_digest : called_digest cs None = None -> l.(man_digest) = None;
  me_deps : forall d, d ∈ l.(man_dependencies) <-> d ∈ called_caps cs \/ d = cap_as_str CHttp /\ called_hosts cs <> [];
  me_hosts : l.(man_http_allowlist) = HostPattern.parse <$> called_hosts cs;
  me_config : forall k v, (k, v) ∈ l.(man_config) <-> last_set k (called_config cs) = Some v;
  me_triggers : Forall2 declares (called_triggers cs) l.(man_triggers);
  me_sections : l.(man_sections) = []
}.

Lemma config_strings (config : list (text * text)) k v :
  (k, v) ∈ ((fun e : text * Toml => (e.1, stringify_toml_value float_text value_text e.2)) <$> table_entries (insert_all config ∅)) <->
  last_set k config = Some v.
Proof.
  rewrite list_elem_of_fmap. split.
  - intros ([k' v'] & [= -> ->] & Hin). apply entries_elem in Hin. rewrite insert_all_lookup, lookup_empty in Hin.
    destruct (last_set k' config) as [s|]; [|done]. by injection Hin as <-.
  - intros El. exists (k, TomlString v). split; [done|]. apply entries_elem. by rewrite insert_all_lookup, El.
Qed.

(** C22: what a test declares through the builder is what the runtime loads:
    with a valid name, a well-formed digest, known dependencies and well-formed
    triggers, no call panics, and the loader accepts the rendered file as a manifest with
    that name and pin, exactly those dependencies, with [http] implied by a host, those
    hosts in order, for every setting the value set last, the declared triggers in
    order, and nothing else. *)
Theorem built_manifest_loads (registry : list NamespaceCaps) (path name : text) (cs : list Call) :
  ModuleId.parse name = Ok name ->
  (forall raw, called_digest cs None = Some raw -> is_ok (Digest.from_str decode raw) = true) ->
  (forall c, c ∈ called_caps cs -> is_known registry c = true) ->
  Forall declared_ok (called_triggers cs) ->
  exists m, calls cs (manifest_new name) = Some m /\
    (read_to_string path = Some (to_toml print m) -> parse_toml (to_toml print m) = Some (table_entries (root_table m)) ->
     exists l, load registry path = Ok l /\ meant name cs l).
Proof.
  intros Hname Hdig Hknown Hok.
  destruct (calls_build cs (manifest_new name) Hok) as (m & Em & En & Ed & Ec & Eh & Eg & ts & Ets & H2). exists m. split; [done|].
  cbn in En, Ed, Ec, Eh, Eg, Ets. intros Hread Hparse. destruct (root_reads m) as (ds & (Hhosts & Hkeys & Hfind) & Hraw).
  destruct (from_tables_declared _ _ 1 Hok H2) as (trs & Etrs & Htrs).
  assert (exists dig, transpose (fun raw => match Digest.from_str decode raw with Ok d => Ok d | Err _ => Err (PInvalidComponentDigest raw) end)
    m.(tm_component) = Ok dig /\ (forall raw, m.(tm_component) = Some raw -> exists d, Digest.from_str decode raw = Ok d /\ dig = Some d) /\
    (m.(tm_component) = None -> dig = None)) as (dig & Edig & Hsome & Hnone).
  { rewrite Ed. destruct (called_digest cs None) as [raw|]; [|by exists None]. specialize (Hdig raw eq_refl). cbn [transpose].
    destruct (Digest.from_str decode raw) as [d|] eqn:E; [|done]. exists (Some d). split_and!; [done| |done]. intros raw' [= <-]. eauto. }
  rewrite Ed in Hsome, Hnone. rewrite Eh in Hkeys, Hfind. rewrite Ec in Hkeys.
  assert (check_dependencies registry ds = Ok tt) as Hcheck.
  { apply check_dependencies_ok; [|done]. intros n [Hn|[-> _]]%Hkeys; [by apply Hknown|]. unfold is_known. by rewrite bool_decide_eq_true_2 by set_solver. }
  eexists. split.
  - unfold Manifest.load. rewrite Hread. cbn [ok_or]. rewrite Hparse. cbn [mbind option_bind]. rewrite Hraw. cbn [ok_or].
    unfold try_from. cbn [raw_component cs_name cs_digest raw_triggers raw_dependencies]. unfold module_name.
    rewrite En, Hname, Edig, Ets, Etrs. cbn [ok_or snd fst]. by rewrite Hcheck.
  - split; cbn; try done.
    + destruct (List.find _ ds) as [[k dep]|]; rewrite <- Hfind; done.
    + intros k v. unfold config_table. rewrite Eg. apply config_strings.
Qed.
End Loads.

(** ** A manifest of a test *)

Definition demo_calls : list Call :=
  [CallRequire [chars_of "chain"]; CallHttpAllow (chars_of "api.acme.io"); CallConfig (chars_of "depth") (chars_of "1");
   CallTrigger (DEventResuming 1 (Some 7)); CallConfig (chars_of "depth") (chars_of "3");
   CallTrigger (DExtension (chars_of "feed") [(chars_of "topic", chars_of "x")])].

Definition demo_built : TestManifest := default (manifest_new []) (calls demo_calls (manifest_new (chars_of "demo"))).

Lemma built_manifest_loads_witness :
  exists l, load (fun _ => false) Some Some (fun _ _ => None) (fun _ => []) (fun _ => [])
    (fun _ => Some (table_entries (root_table demo_built))) (fun _ => Some []) registry_core [] = Ok l /\
    l.(man_config) = [(chars_of "depth", chars_of "3")] /\
    meant (fun _ => false) Some Some (fun _ _ => None) (chars_of "demo") demo_calls l.
Proof.
  destruct (built_manifest_loads (fun _ => false) Some Some (fun _ _ => None) (fun _ => []) (fun _ => [])
    (fun _ => Some (table_entries (root_table demo_built))) (fun _ => Some []) (fun _ => []) registry_core [] (chars_of "demo") demo_calls)
    as (m & Em & Hl).
  - vm_compute. reflexivity.
  - intros raw [=].
  - intros c Hc. assert (c = chars_of "chain") as -> by (change (c ∈ [chars_of "chain"]) in Hc; set_solver). vm_compute. reflexivity.
  - change (called_triggers demo_calls) with [DEventResuming 1 (Some 7); DExtension (chars_of "feed") [(chars_of "topic", chars_of "x")]].
    rewrite !Forall_cons. split_and!; [|split|constructor].
    + cbn. unfold is_i64. split; [lia|]. intros h [= <-]. lia.
    + vm_compute. reflexivity.
    + intros Hin. apply list_elem_of_singleton in Hin. vm_compute in Hin. discriminate.
  - assert (m = demo_built) as -> by (unfold demo_built; by rewrite Em).
    destruct (Hl eq_refl eq_refl) as (l & El & Hm). exists l. split; [done|]. split; [|exact Hm].
    vm_compute in El. injection El as <-. reflexivity.
Defined.
