(* ===== verification/Fixtures.v ===== *)
(** * Fixtures: the guest modules the runtime tests run

    modules/fixtures and modules/example: small guests, each made to push on one part of
    the runtime. A guest is a function of the host calls it makes; what it logs is a list
    of logging calls. A loop without an end is the outcome [Burns]: under finite fuel
    wasmtime traps it.

    The theorems put two of them under the parts they push on: flaky-bomb under the
    supervisor's dispatch, restart and trap budget, log-bomb under the log gate with
    its token bucket. *)

From stdpp Require Import prelude list gmap strings.
From Stdlib Require Import ZArith Lia.
From S2P Require Import Prelude RestartPolicy Lifecycle StoreApi Cursors Dispatch Policy Logs LogGate HostStore ChainHost HostGlue GuestModules Float64 TokenBucket.

Local Open Scope Z_scope.

#[local] Arguments chars_of : simpl never.

(** ** Guests *)

(** What an exported call comes to. *)
Inductive GuestOutcome : Type :=
| Returned (r : result unit Fault)
| Burns
| Aborts.

(** [config.iter().find(|(k, _)| k == key).map(|(_, v)| v)]. *)
Definition config_value (key : text) (config : list (text * text)) : option text :=
  snd <$> List.find (fun e => bool_decide (e.1 = key)) config.

Definition info (message : text) : GuestLog := GLog WInfo message.

(** *** flaky-bomb *)

Module FlakyBomb.
Definition ATTEMPTS_KEY : text := chars_of "attempts".

(** [init]: the count it stores, and what it logs. *)
Definition init (config : list (text * text)) : Z * list GuestLog :=
  let n := default 1 (config_value (chars_of "fail_first_n") config ≫= parse_uint u32_max) in
  (n, [info (chars_of "flaky-bomb init: will trap on the first " ++ decimal n ++ chars_of " event(s)")]).

Section Trigger.
Context {H : Type} `{KvHost H}.

Definition prior_attempts (stored : option (list Z)) : Z := default 0 (stored ≫= decode_le 4).

(** The counter is a [u32], incremented with a release build's wrap-around. *)
Definition on_trigger (n : Z) (h : H) : GuestOutcome * H * list GuestLog :=
  match kv_get ATTEMPTS_KEY h with
  | (Err e, h) => (Returned (Err e), h, [])
  | (Ok stored, h) =>
      let attempt := (prior_attempts stored + 1) mod 2 ^ 32 in
      match kv_set ATTEMPTS_KEY (to_le_bytes 4 attempt) h with
      | (Err e, h) => (Returned (Err e), h, [])
      | (Ok _, h) =>
          if attempt <=? n then
            (Burns, h, [GLog WWarn (chars_of "flaky-bomb attempt " ++ decimal attempt ++ [47] ++ decimal n ++
                                    chars_of ": burning fuel to trigger OutOfFuel")])
          else (Returned (Ok tt), h,
                [info (chars_of "flaky-bomb attempt " ++ decimal attempt ++ chars_of ": ok, recovered")])
      end
  end.
End Trigger.
End FlakyBomb.

(** *** log-bomb *)

Module LogBomb.
Definition RECORDS : Z := 32.

(** [eprintln!], which the stderr capture turns into a record of its own. *)
Definition stderr_line : text := chars_of "log-bomb flooding " ++ decimal RECORDS.

Definition fields : list WireField :=
  (fun i => mkWireField (chars_of "f" ++ decimal i) (WireText (replicate 64 118))) <$> seqZ 0 RECORDS.

Definition source : WireSource := mkWireSource (chars_of "log-bomb::flood") (Some (chars_of "src/lib.rs")) (Some 41).

Definition flood (i : Z) : GuestLog :=
  if i mod 2 =? 0 then GLogEvent WInfo source (replicate 4096 120) []
  else GLogEvent WInfo source (chars_of "small") fields.

Definition on_trigger : GuestOutcome * list GuestLog := (Returned (Ok tt), flood <$> seqZ 0 RECORDS).
End LogBomb.

(** *** tick-recorder *)

Module TickRecorder.
Definition init (config : list (text * text)) : Z * list GuestLog :=
  (default 0 (config_value (chars_of "hold_ms") config ≫= parse_uint u64_max), [info (chars_of "tick-recorder init")]).

(** The sleep of a held dispatch, and whether there was one. *)
Definition hold (hold_ms : Z) : bool * option Z :=
  (0 <? hold_ms, if 0 <? hold_ms then Some (duration_from_millis hold_ms) else None).

Definition on_event (hold_ms : Z) : GuestOutcome * list GuestLog * option Z := (Returned (Ok tt), [], (hold hold_ms).2).

Definition on_schedule (hold_ms fired_at : Z) : GuestOutcome * list GuestLog * option Z :=
  let (held, slept) := hold hold_ms in
  (Returned (Ok tt),
   info (chars_of "tick " ++ decimal fired_at) :: (if held then [info (chars_of "held " ++ decimal fired_at)] else []), slept).
End TickRecorder.

(** *** clock-reader *)

Module ClockReader.
(** [SystemTime::now()], which may lie before the epoch. *)
Definition on_trigger (wall : Z) : GuestOutcome * list GuestLog :=
  let secs := if wall <? 0 then 0 else as_secs wall in
  (Returned (Ok tt), [info (chars_of "clock wall " ++ decimal secs)]).
End ClockReader.

(** *** env-reader *)

Module EnvReader.
(** What the guest sees; a read of stdin counts its bytes or fails with a text. *)
Definition on_trigger (vars args : list text) (stdin : result Z text) : GuestOutcome * list GuestLog :=
  let stdin := match stdin with Ok n => decimal n | Err err => chars_of "unreadable (" ++ err ++ chars_of ")" end in
  (Returned (Ok tt),
   info (chars_of "env vars " ++ decimal (Z.of_nat (length vars)) ++ chars_of " args " ++ decimal (Z.of_nat (length args)) ++
         chars_of " stdin " ++ stdin)
   :: ((fun key => info (chars_of "env key " ++ key)) <$> vars) ++ ((fun arg => info (chars_of "env arg " ++ arg)) <$> args)).
End EnvReader.

(** *** slow-host, fuel-bomb, memory-bomb, panic-bomb *)

Module Bombs.
(** One read over the chain, whose outcome it ignores. *)
Definition slow_on_trigger {H} `{ChainCalls H} (h : H) : GuestOutcome * H * list GuestLog :=
  let (_, h) := host_request 1 (chars_of "eth_blockNumber") [91; 93] h in
  (Returned (Ok tt), h, [info (chars_of "slow-host on_trigger returned")]).

Definition fuel_on_trigger : GuestOutcome := Burns.

Definition BOMB_BYTES : Z := 128 * 1024 * 1024.

(** The allocation aborts when the memory may not grow to hold it. *)
Definition memory_on_trigger (may_grow : Z -> bool) : GuestOutcome :=
  if may_grow BOMB_BYTES then Returned (Ok tt) else Aborts.

Definition panic_on_trigger : GuestOutcome * text := (Aborts, chars_of "panic-bomb detonated").
End Bombs.

(** *** example *)

Module ExampleModule.
Definition init (config : list (text * text)) : GuestLog :=
  info (chars_of "example module init (name=" ++ default (chars_of "unknown") (config_value (chars_of "name") config) ++ chars_of ")").

Definition on_block (b : Block) : GuestLog :=
  info (chars_of "block " ++ decimal b.(block_number) ++ chars_of " on chain " ++ decimal b.(block_chain_id) ++
        chars_of " (ts=" ++ decimal b.(block_timestamp) ++ chars_of "ms)").

Definition on_event (chain_id : Z) (l : Log) : GuestLog :=
  info (chars_of "event with " ++ decimal (Z.of_nat (length l.(log_topics))) ++ chars_of " topics on chain " ++ decimal chain_id).

Definition on_schedule (fired_at : Z) : GuestLog := info (chars_of "schedule fired at " ++ decimal fired_at ++ chars_of "ms").

Definition on_extension (kind : text) (payload : list Z) : GuestLog :=
  info (chars_of "extension trigger kind " ++ kind ++ chars_of " (" ++ decimal (Z.of_nat (length payload)) ++ chars_of " payload bytes)").
End ExampleModule.

(** ** flaky-bomb under the supervisor *)

Section Supervised.
Context {H S B : Type} `{KvHost H} `{!KvLaws H} `{RateLimiter B}.

(** The world of one flaky-bomb: the clock the test stands at, the module's store, its
    configuration, and the count its live instance was initialised with. *)
Record Lab : Type := mkLab {
  lab_clock : Z;
  lab_host : H;
  lab_config : list (text * text);
  lab_n : Z;
  lab_logs : list GuestLog
}.

Definition at_clock (t : Z) (w : Lab) : Lab := mkLab t w.(lab_host) w.(lab_config) w.(lab_n) w.(lab_logs).

(** The call, under finite fuel. *)
Definition lab_call (w : Lab) : CallResult * Lab :=
  let '(o, h, logs) := FlakyBomb.on_trigger w.(lab_n) w.(lab_host) in
  (match o with Returned (Ok _) => CallOk | Returned (Err _) => CallFault [] | Burns | Aborts => CallTrap end,
   mkLab w.(lab_clock) h w.(lab_config) w.(lab_n) (w.(lab_logs) ++ logs)).

(** A restart runs [init] on a fresh instance, over the store that stays. *)
Definition lab_revive (w : Lab) : bool * Lab :=
  let (n, logs) := FlakyBomb.init w.(lab_config) in
  (true, mkLab w.(lab_clock) w.(lab_host) w.(lab_config) n (w.(lab_logs) ++ logs)).

#[local] Instance lab_world : World Lab := {|
  w_now w := (w.(lab_clock), w);
  w_wall w := (w.(lab_clock), w);
  w_stop w := (false, w);
  w_set_fuel w _ _ := (true, w);
  w_call w _ _ _ := lab_call w;
  w_fuel_left _ _ := None;
  w_memory _ _ := 0;
  w_nonce _ := 0;
  w_revive w _ := lab_revive w
|}.

Abbreviation Sup := (Supervisor B Lab S).

(** A block delivered at [t]. *)
Definition deliver (block : Block) (t : Z) (s : Sup) : Z * Sup :=
  dispatch_block_received block t (set_world (at_clock t s.(world)) s).

#[local] Arguments lab_call : simpl never.
#[local] Arguments lab_revive : simpl never.
#[local] Arguments record_trap : simpl never.
#[local] Arguments due_restart : simpl never.
#[local] Arguments dispatchable : simpl never.
#[local] Arguments restart_succeeded : simpl never.
#[local] Arguments dispatch_succeeded : simpl never.
#[local] Arguments jitter_seed : simpl never.

Ltac run_m := unfold sweep, revive_one, dispatch_to, observe, refuel, settle, record_resource_use, record_delivered_height,
  stop_requested, Dispatch.now, Dispatch.ask, gets, emit, modify, put_module, mbind, mret, M_bind, M_ret.

(** What stays of a supervisor of one module. *)
Definition lone (s : Sup) (pol : PoisonPolicy) (w : Lab) (m : LoadedModule B) : Prop :=
  s.(modules) = [m] /\ s.(stop) = false /\ s.(policy) = pol /\ s.(world) = w.

Lemma sweep_one (s : Sup) pol w m t :
  lone s pol w m -> dispatchable m.(m_health) = true \/ due_restart m.(m_health) t = true ->
  exists s1 m1, sweep t s = (tt, s1) /\
    lone s1 pol (if dispatchable m.(m_health) then w else (lab_revive w).2) m1 /\
    m1.(m_health) = (if dispatchable m.(m_health) then m.(m_health) else restart_succeeded m.(m_health)) /\
    m1.(m_name) = m.(m_name) /\ m1.(m_triggers) = m.(m_triggers) /\ m1.(m_bucket) = m.(m_bucket).
Proof.
  destruct s as [ms pol' cur fr st hl sto w' tr]. intros (Em & Es & Ep & Ew) Hd. cbn in Em, Es, Ep, Ew. subst ms st pol' w'.
  assert (due_restart m.(m_health) t = negb (dispatchable m.(m_health))) as Edue.
  { unfold dispatchable, due_restart in *. destruct (lstate (m_health m)); destruct Hd; try done. }
  do 2 (run_m; cbn). rewrite Edue. destruct (dispatchable (m_health m)); cbn; run_m; cbn.
  - eexists _, m. split; [reflexivity|]. unfold lone. cbn. done.
  - unfold lab_revive. eexists _, _. split; [reflexivity|]. unfold lone. cbn. done.
Qed.

(** The outcome of a call, and the health it leaves. *)
Definition settled (pol : PoisonPolicy) (t : Z) (name : text) (h : Health) (r : CallResult) (dispatched : Z) (h' : Health) : Prop :=
  match r with
  | CallOk => dispatched = 1 /\ h' = dispatch_succeeded h
  | CallFault _ => dispatched = 0 /\ h' = h
  | CallTrap | CallDeadline => dispatched = 0 /\ h' = (record_trap h t pol (jitter_seed 0 name)).2
  end.

Lemma dispatch_one (s : Sup) pol w m chain block t :
  lone s pol w m -> w.(lab_clock) = t -> dispatchable m.(m_health) = true -> m.(m_triggers) = [TBlock chain] ->
  block.(block_chain_id) = chain -> (try_acquire m.(m_bucket) t).1 = true ->
  exists dispatched s' m',
    fan_out chain (chars_of "block") (arrival_new (GBlock block) t) t (candidates (wants_block chain) s) 0 s = (dispatched, s') /\
    lone s' pol (lab_call w).2 m' /\ m'.(m_name) = m.(m_name) /\ m'.(m_triggers) = m.(m_triggers) /\
    settled pol t m.(m_name) m.(m_health) (lab_call w).1 dispatched m'.(m_health).
Proof.
  destruct s as [ms pol' cur fr st hl sto w' tr]. intros (Em & Es & Ep & Ew) Hclock Hd Htr Hc Hb. cbn in Em, Es, Ep, Ew. subst ms st pol' w'.
  unfold candidates. cbn. rewrite Hd, Htr. cbn. rewrite Z.eqb_refl. cbn.
  do 2 (run_m; cbn). destruct (try_acquire (m_bucket m) t) as [adm bucket] eqn:Et. cbn in Hb. subst adm. cbn.
  destruct (lab_call w) as [r w1] eqn:Ec. cbn. rewrite Hclock.
  assert (lab_clock w1 = t) as ->.
  { revert Ec. unfold lab_call. destruct (FlakyBomb.on_trigger _ _) as [[o h] logs]. by intros [= _ <-]. }
  assert (t + duration_since t t = t) as -> by (unfold duration_since, sat_sub; lia).
  destruct r as [|k| |]; cbn; run_m; cbn.
  - exists 1. eexists _, _. unfold lone. split_and!; first [reflexivity|exact Htr].
  - exists 0. eexists _, _. unfold lone. split_and!; first [reflexivity|exact Htr].
  - destruct (record_trap (m_health m) t pol (jitter_seed 0 (m_name m))) as [v h'] eqn:Er. cbn.
    destruct (verdict_poisoned v); run_m; cbn; exists 0; eexists _, _; unfold lone; split_and!; first [reflexivity|exact Htr|by rewrite Er].
  - destruct (record_trap (m_health m) t pol (jitter_seed 0 (m_name m))) as [v h'] eqn:Er. cbn.
    destruct (verdict_poisoned v); run_m; cbn; exists 0; eexists _, _; unfold lone; split_and!; first [reflexivity|exact Htr|by rewrite Er].
Qed.

Lemma delivered_height_keeps (s : Sup) pol w m chain number :
  lone s pol w m -> exists s', record_delivered_height chain number s = (tt, s') /\ lone s' pol w m.
Proof.
  intros (E1 & E2 & E3 & E4). unfold record_delivered_height, mbind, M_bind, gets.
  match goal with |- context [if ?c then _ else _] => destruct c end; eexists; (split; [reflexivity|]); by unfold lone.
Qed.

Lemma deliver_one (s : Sup) pol w m chain block t :
  lone s pol w m -> m.(m_triggers) = [TBlock chain] -> block.(block_chain_id) = chain ->
  (forall (b : B) (at_ : Z), (try_acquire b at_).1 = true) ->
  dispatchable m.(m_health) = true \/ due_restart m.(m_health) t = true ->
  let live := dispatchable m.(m_health) in
  let w1 := if live then at_clock t w else (lab_revive (at_clock t w)).2 in
  exists dispatched s' m', deliver block t s = (dispatched, s') /\ lone s' pol (lab_call w1).2 m' /\
    m'.(m_name) = m.(m_name) /\ m'.(m_triggers) = m.(m_triggers) /\
    settled pol t m.(m_name) (if live then m.(m_health) else restart_succeeded m.(m_health)) (lab_call w1).1 dispatched m'.(m_health).
Proof.
  intros (Em & Es & Ep & Ew) Htr Hc Hb Hd live w1. unfold deliver, dispatch_block_received.
  set (s0 := set_world _ s). assert (lone s0 pol (at_clock t w) m) as H0' by (subst s0; unfold lone; cbn; by rewrite Ew).
  destruct (sweep_one s0 pol (at_clock t w) m t H0' Hd) as (s1 & m1 & Esw & Hl1 & Hh & Hn & Ht1 & Hb1).
  destruct (dispatch_one s1 pol w1 m1 chain block t Hl1) as (d & s2 & m2 & Ef & Hl2 & Hn2 & Ht2 & Hs); try done.
  { subst w1. destruct live; [done|]. unfold lab_revive. by destruct (FlakyBomb.init _). }
  { rewrite Hh. destruct (dispatchable (m_health m)) eqn:E; [exact E|reflexivity]. }
  { congruence. }
  assert (exists s3, (if 0 <? d then record_delivered_height chain (block_number block) else mret tt) s2 = (tt, s3) /\
    lone s3 pol (lab_call w1).2 m2) as (s3 & E3 & Hl3).
  { destruct (0 <? d); [by apply delivered_height_keeps|by exists s2]. }
  exists d, s3, m2. split.
  - assert (Dispatch.now s0 = (t, s0)) as Enow by reflexivity. unfold mbind, M_bind. rewrite Enow, Esw. unfold gets.
    rewrite Hc, Ef, E3. reflexivity.
  - split_and!; [done|congruence..|]. rewrite Hh, Hn in Hs. exact Hs.
Qed.

(** *** Recovery *)

(** A store that never faults. *)
Hypothesis get_ok : forall key h, exists v h', kv_get key h = (Ok v, h').
Hypothesis set_ok : forall key value h, exists h', kv_set key value h = (Ok tt, h').

Definition attempts (h : H) : Z := FlakyBomb.prior_attempts (kv_rows h !! FlakyBomb.ATTEMPTS_KEY).

Lemma on_trigger_counts n h a :
  attempts h = a -> 0 <= a < u32_max ->
  exists h' logs, FlakyBomb.on_trigger n h = (if a + 1 <=? n then Burns else Returned (Ok tt), h', logs) /\ attempts h' = a + 1.
Proof.
  intros Ha Hr. unfold FlakyBomb.on_trigger. destruct (get_ok FlakyBomb.ATTEMPTS_KEY h) as (v & h1 & Eg). rewrite Eg.
  destruct (kv_get_law _ _ _ _ Eg) as [Hrows Hv]. rewrite (Hv v eq_refl). fold (attempts h). rewrite Ha.
  unfold u32_max in Hr. rewrite Z.mod_small by lia.
  destruct (set_ok FlakyBomb.ATTEMPTS_KEY (to_le_bytes 4 (a + 1)) h1) as (h2 & Es). rewrite Es.
  apply kv_set_law in Es. cbn [is_ok] in Es.
  assert (attempts h2 = a + 1) as Ha2.
  { unfold attempts, FlakyBomb.prior_attempts. rewrite Es, lookup_insert_eq. cbn [mbind option_bind].
    unfold decode_le. rewrite length_to_le_bytes, decide_True by done. cbn [default].
    apply from_to_le_bytes. change (256 ^ Z.of_nat 4) with (2 ^ 32). lia. }
  destruct (a + 1 <=? n); eauto.
Qed.

(** A delivery to every instant of a list. *)
Fixpoint deliveries (block : Block) (ts : list Z) (s : Sup) : list Z * Sup :=
  match ts with
  | [] => ([], s)
  | t :: ts => let (d, s) := deliver block t s in let (ds, s) := deliveries block ts s in (d :: ds, s)
  end.

(** Instants at least the longest backoff apart. *)
Fixpoint spaced (ts : list Z) : Prop :=
  match ts with
  | t :: ((t' :: _) as rest) => t + RESTART_MAX_BACKOFF <= t' /\ spaced rest
  | _ => True
  end.

Lemma trap_backs_off h t pol seed k :
  h.(lstate) = Alive -> h.(failure_count) = k -> Z.of_nat (length h.(window)) <= k -> 0 <= k ->
  k + 1 < pol.(max_failures) -> is_u32 pol.(max_failures) ->
  let h' := (record_trap h t pol seed).2 in
  (exists until, h'.(lstate) = Backoff until /\ until <= t + RESTART_MAX_BACKOFF) /\
  h'.(failure_count) = k + 1 /\ Z.of_nat (length h'.(window)) <= k + 1.
Proof.
  intros Hs Hf Hw Hk Hmax Hu. unfold is_u32, u32_max in Hu. unfold record_trap. cbn [snd lstate failure_count window]. rewrite Hf.
  assert (u32_sat (k + 1) = k + 1) as -> by (unfold u32_sat, u32_max; lia).
  set (win := drop_while _ _ ++ [t]).
  assert (Z.of_nat (length win) <= k + 1) as Hwin.
  { subst win. rewrite length_app. cbn [length]. match goal with |- context [drop_while ?p ?l] => pose proof (drop_while_length p l) end. lia. }
  rewrite Z.mod_small by lia. unfold should_poison, is_poisoned. rewrite Hs.
  destruct (Z.leb_spec (max_failures pol) (Z.of_nat (length win))) as [|_]; [lia|]. cbn [orb].
  split_and!; [|done|done]. eexists. split; [reflexivity|].
  assert (backoff_for (k + 1) seed <= RESTART_MAX_BACKOFF) as Hb.
  { destruct (backoff_for_bounds (k + 1) seed ltac:(lia)) as [_ Hb]. etransitivity; [exact Hb|].
    unfold curve_ms, RESTART_MAX_BACKOFF, duration_from_millis, duration_from_secs, NANOS_PER_MILLI, NANOS_PER_SEC. lia. }
  assert (0 <= backoff_for (k + 1) seed) as H0'.
  { destruct (backoff_for_bounds (k + 1) seed ltac:(lia)) as [Hl _]. etransitivity; [|exact Hl].
    unfold duration_from_millis, NANOS_PER_MILLI. assert (0 <= curve_ms (k + 1) / 2); [|lia].
    apply Z.div_pos; [|lia]. unfold curve_ms. assert (0 <= 2 ^ (k + 1 - 1)) by lia. lia. }
  unfold backoff_until, instant_checked_add. destruct (_ <? _); cbn; lia.
Qed.

(** A module of a flaky-bomb that has trapped [k] times, ready for a delivery at [t]. *)
Record flaky (pol : PoisonPolicy) (chain n k t : Z) (s : Sup) (w : Lab) (m : LoadedModule B) : Prop := {
  fl_lone : lone s pol w m;
  fl_triggers : m.(m_triggers) = [TBlock chain];
  fl_config : (FlakyBomb.init w.(lab_config)).1 = n;
  fl_attempts : attempts w.(lab_host) = k;
  fl_count : m.(m_health).(failure_count) = k;
  fl_window : Z.of_nat (length m.(m_health).(window)) <= k;
  fl_ready : (m.(m_health).(lstate) = Alive /\ w.(lab_n) = n) \/
             exists until, m.(m_health).(lstate) = Backoff until /\ until <= t
}.

(** The live instance of a ready module: its world, and its health. *)
Definition live_world (t : Z) (w : Lab) (m : LoadedModule B) : Lab :=
  if dispatchable m.(m_health) then at_clock t w else (lab_revive (at_clock t w)).2.
Definition live_health (m : LoadedModule B) : Health :=
  if dispatchable m.(m_health) then m.(m_health) else restart_succeeded m.(m_health).

Lemma flaky_live pol chain n k t s w m :
  flaky pol chain n k t s w m ->
  (dispatchable m.(m_health) = true \/ due_restart m.(m_health) t = true) /\
  (live_world t w m).(lab_n) = n /\ (live_world t w m).(lab_host) = w.(lab_host) /\ (live_world t w m).(lab_config) = w.(lab_config) /\
  live_health m = mkHealth Alive k m.(m_health).(window).
Proof.
  intros [Hl Htr Hn Ha Hc Hw Hr]. unfold live_world, live_health, dispatchable, due_restart, lab_revive, restart_succeeded.
  destruct (m_health m) as [st fc win]; cbn in *. destruct Hr as [[-> Hn'] | (until & -> & Hu)]; cbn.
  - split_and!; try done; [by left|by subst].
  - destruct (FlakyBomb.init (lab_config w)) as [n' logs]. cbn in *. split_and!; try done; [right; lia|by subst].
Qed.

(** What a delivery does to it. *)
Lemma flaky_deliver pol chain n k t block s w m :
  flaky pol chain n k t s w m -> block.(block_chain_id) = chain ->
  (forall (b : B) (at_ : Z), (try_acquire b at_).1 = true) ->
  0 <= k <= n -> n < pol.(max_failures) -> is_u32 pol.(max_failures) ->
  exists s' w' m', deliver block t s = (if k <? n then 0 else 1, s') /\
    if k <? n then forall t', t + RESTART_MAX_BACKOFF <= t' -> flaky pol chain n (k + 1) t' s' w' m'
    else lone s' pol w' m' /\ attempts w'.(lab_host) = n + 1 /\ state m'.(m_health) = MAlive /\ m'.(m_health).(failure_count) = 0.
Proof.
  intros Hf Hc Hb Hk Hn Hu. pose proof (flaky_live _ _ _ _ _ _ _ _ Hf) as (Hready & Hln & Hlh & Hlc & Hlive).
  destruct Hf as [Hl Htr Hcfg Ha _ Hw _].
  destruct (deliver_one s pol w m chain block t Hl Htr Hc Hb Hready) as (d & s' & m' & Ed & Hl' & _ & Ht' & Hs).
  fold (live_world t w m) in *. fold (live_health m) in Hs. rewrite Hlive in Hs.
  destruct (on_trigger_counts n (lab_host w) k Ha) as (h' & logs & Eo & Ha'); [unfold is_u32, u32_max in *; lia|].
  unfold lab_call in Hl', Hs. rewrite Hln, Hlh, Eo in Hl', Hs. cbn in Hl', Hs.
  eexists s', _, m'. rewrite Ed.
  destruct (Z.ltb_spec k n) as [Hlt | Hge].
  - rewrite (proj2 (Z.leb_le (k + 1) n)) in Hs by lia. cbn in Hs. destruct Hs as [-> Hh]. split; [done|].
    intros t' Hsp. destruct (trap_backs_off (mkHealth Alive k (window (m_health m))) t pol (jitter_seed 0 (m_name m)) k)
      as ((until & Hst & Hun) & Hfc & Hwin); try done; [lia..|].
    split; rewrite ?Hh; cbn [lab_config lab_host]; [exact Hl'|congruence|by rewrite Hlc|exact Ha'|exact Hfc|exact Hwin|].
    right. exists until. split; [exact Hst|lia].
  - rewrite (proj2 (Z.leb_gt (k + 1) n)) in Hs by lia. cbn in Hs. destruct Hs as [-> Hh]. split; [done|].
    split_and!; [exact Hl'|cbn; lia|by rewrite Hh..].
Qed.

End Supervised.

(** ** log-bomb under the log gate *)

Section Flooded.
Context (float_text : Z -> text).
Context {K : Type} (tick : K -> Z * Z * K) (ts now : Z).
(** A dispatch within one reading of the clock. *)
Hypothesis tick_still : forall k, exists k', tick k = (ts, now, k').
Context (filter : LogFilterPolicy) (run : RunId) (p : DispatchRatePolicy).
Hypothesis p_wf : rate_wf p.

#[local] Abbreviation Sink := (Sink (B := TokenBucket) (K := K)).
#[local] Abbreviation Bounds := (LogBounds (B := TokenBucket)).

(** A bucket of [k] whole tokens that was last refilled now. *)
Definition holds (k : nat) (b : TokenBucket) : Prop :=
  same_bucket p (mkInt (Z.of_nat k) 0) (mkBucket b.(tb_policy) b.(tokens) 0) /\ b.(last_refill) = now.

Lemma holds_new : holds (Z.to_nat p.(capacity)) (bucket_new p now).
Proof.
  split; [|done]. destruct p_wf as [[Hc _] _]. rewrite Z2Nat.id by lia. exact (bucket_new_whole p 0 p_wf).
Qed.

Lemma holds_acquire k b : holds k b ->
  (try_acquire b now).1 = (0 <? k)%nat /\ holds (k - 1) (try_acquire b now).2.
Proof.
  intros [Hs Hl]. pose proof (acquire_simulates p _ _ 0 p_wf Hs ltac:(lia) ltac:(done)) as Ha. destruct Hs as (Hp & _ & Hlev & _).
  cbn in Hp, Hlev. unfold int_acquire in Ha. cbn [level refilled_at] in Ha.
  change (Z.max 0 (0 - 0) * refill_per_sec p) with 0 in Ha. rewrite Z.add_0_r, Z.min_r in Ha by lia.
  unfold holds. cbn [try_acquire token_bucket_limiter]. unfold bucket_try_acquire, refilled in *. rewrite Hl, Z.sub_diag.
  cbn [last_refill tb_policy tokens] in Ha. change (0 * NANOS_PER_SEC - 0) with 0 in Ha.
  destruct k as [|k]; cbn [Z.of_nat Z.leb Z.compare] in Ha.
  - destruct (f64_ge _ _); destruct Ha as (He & Hs & _); [discriminate He|]. cbn. by split_and!.
  - rewrite (proj2 (Z.leb_le 1 (Z.of_nat (Datatypes.S k)))) in Ha by lia. rewrite Nat2Z.inj_succ, Z.sub_1_r, Z.pred_succ in Ha.
    destruct (f64_ge _ _); destruct Ha as (He & Hs & _); [|discriminate He]. cbn. rewrite Nat.sub_0_r. by split_and!.
Qed.

(** The record a cap leaves of one. *)
Definition fitted (cap : Z) (r : LogRecord) : LogRecord := (fit float_text cap r).1.1.

(** One record, and a bucket of [k] tokens. *)
Lemma route_draws k router (b : Bounds) r :
  holds k b.(bounds_rate) -> verdict filter r.(rec_level) r.(source).(target) <> VDrop ->
  let '(router', b', _) := route float_text filter router b r now in
  b'.(bounds_policy) = b.(bounds_policy) /\ holds (k - 1) b'.(bounds_rate) /\
  exists consoled, router' = added router consoled (fitted b.(bounds_policy).(max_record_bytes) <$> take k [r]) /\
    consoled `sublist_of` (fitted b.(bounds_policy).(max_record_bytes) <$> take k [r]).
Proof.
  intros Hk Hv. destruct (holds_acquire k _ Hk) as [Hg Hk']. unfold route, bounds_admit, fitted.
  destruct (try_acquire (bounds_rate b) now) as [g rate'] eqn:Et. cbn [fst snd] in Hg, Hk'. subst g.
  destruct k as [|k]; cbn [Nat.ltb Nat.leb take].
  - destruct (verdict _ _ _); try done; (split_and!; [done..|]); exists []; unfold added; cbn; rewrite app_nil_r; by destruct router.
  - rewrite take_nil. destruct (verdict _ _ _) eqn:Ev; try done; cbn [bounds_policy];
      destruct (fit _ _ r) as [[r' cut] dropped] eqn:Ef; (split_and!; [done..|]).
    + exists []. unfold added. cbn. rewrite app_nil_r, Ef. split; [done|apply sublist_nil_l].
    + exists [r']. unfold added. cbn. rewrite Ef. done.
Qed.

(** The same, with the sink a stream of records has left. *)
Definition drew (s : Sink) (k : nat) (rs : list LogRecord) (s' : Sink) : Prop :=
  s'.(sk_bounds).(bounds_policy) = s.(sk_bounds).(bounds_policy) /\ holds (k - length rs) s'.(sk_bounds).(bounds_rate) /\
  exists consoled, s'.(sk_router) = added s.(sk_router) consoled (fitted (record_cap s) <$> take k rs) /\
    consoled `sublist_of` (fitted (record_cap s) <$> take k rs).

Lemma drew_app s k rs s1 rs' s2 : drew s k rs s1 -> drew s1 (k - length rs) rs' s2 -> drew s k (rs ++ rs') s2.
Proof.
  intros (Hp & _ & con & Hr & Hc) (Hp' & Hk' & con' & Hr' & Hc'). unfold record_cap in *. rewrite Hp in Hr', Hc', Hp'.
  split; [done|]. split; [by rewrite length_app, Nat.sub_add_distr|]. rewrite take_app, fmap_app. exists (con ++ con').
  split; [|by apply sublist_app]. rewrite Hr', Hr. unfold added. cbn. by rewrite foldl_app, (assoc_L (++)).
Qed.

Lemma drew_nil (s : Sink) k : holds k s.(sk_bounds).(bounds_rate) -> drew s k [] s.
Proof.
  intros Hk. split; [done|]. split; [by rewrite Nat.sub_0_r|]. exists []. rewrite take_nil. unfold added. cbn.
  rewrite app_nil_r. split; [by destruct (sk_router s)|done].
Qed.

Definition passes (r : LogRecord) : Prop := verdict filter r.(rec_level) r.(source).(target) <> VDrop.

Lemma drew_one s k (r : LogRecord) s' :
  holds k s.(sk_bounds).(bounds_rate) -> passes r ->
  (route float_text filter s.(sk_router) s.(sk_bounds) r now).1 = (s'.(sk_router), s'.(sk_bounds)) -> drew s k [r] s'.
Proof.
  intros Hk Hv Hs. pose proof (route_draws k s.(sk_router) s.(sk_bounds) r Hk Hv) as Hr.
  destruct (route _ _ _ _ _ _) as [[router b] evs]. cbn in Hs. injection Hs as -> ->. done.
Qed.

Lemma host_logs_drew k calls (s : Sink) :
  holds k s.(sk_bounds).(bounds_rate) -> Forall (fun c => passes (log_record run ts c)) calls ->
  drew s k (log_record run ts <$> calls) (host_logs float_text tick filter run calls s).
Proof.
  unfold host_logs. intros Hk Hv. revert k s Hk. induction Hv as [|c calls Hc _ IH]; intros k s Hk; [by apply drew_nil|].
  cbn [foldl fmap list_fmap].
  assert (drew s k [log_record run ts c] (host_log float_text tick filter run s c)) as H1.
  { apply drew_one; [done..|]. unfold host_log. destruct (tick_still (sk_clock s)) as (k' & ->).
    by destruct (route _ _ _ _ _ _) as [[router b] evs]. }
  change (?x :: ?l) with ([x] ++ l). eapply drew_app; [exact H1|]. apply IH, H1.
Qed.

(** The record of the line on stderr. *)
Definition stderr_record : LogRecord := mkRecord run ts Stderr LWarn LogBomb.stderr_line LogSource_default [].

(** One dispatch of log-bomb: the writes of [eprintln!], then the calls. *)
Definition log_bomb (writes : list (list Z)) (s : Sink) : Sink :=
  let (_, s) := write_all float_text tick (mkWriter filter run Stderr []) s writes in
  host_logs float_text tick filter run LogBomb.on_trigger.2 s.

Lemma writes_route_the_line writes (s : Sink) :
  concat writes = LogBomb.stderr_line ++ [10] -> len LogBomb.stderr_line <= record_cap s ->
  (write_all float_text tick (mkWriter filter run Stderr []) s writes).2
  = line_route float_text tick (mkWriter filter run Stderr []) LogBomb.stderr_line s.
Proof.
  intros Hc Hcap. set (w := mkWriter filter run Stderr []). pose proof (len_nonneg LogBomb.stderr_line).
  destruct (write_all_spec float_text tick w s writes) as (ps & rest & -> & Hb & Hn & _ & Hps); unfold record_cap in *;
    [lia|apply not_elem_of_nil|change (len (buf w)) with 0; lia|].
  assert (split 10 (LogBomb.stderr_line ++ [10]) = [LogBomb.stderr_line; []]) as Hsplit by by vm_compute.
  cbn [buf w app] in Hb. rewrite Hc in Hb. rewrite Hb in Hsplit. rewrite split_terminated in Hsplit; [|eapply all_terminated; [exact Hps|]|done].
  - apply (f_equal (removelast (A := _))) in Hsplit. rewrite removelast_last in Hsplit. cbn in Hsplit. by rewrite Hsplit.
  - rewrite Hsplit. repeat constructor; [done|]. change (len []) with 0. lia.
Qed.

(** A log-bomb dispatched on a full bucket, within one reading of the clock, spends the
    burst and no more: of the stderr line and the records of its flood, which pass the
    filter, exactly the first [capacity] are retained, in order and each cut to the
    record cap, and the console prints none that is not retained. *)
Theorem log_bomb_spends_the_burst (writes : list (list Z)) (s : Sink) :
  s.(sk_bounds).(bounds_rate) = bucket_new p now ->
  concat writes = LogBomb.stderr_line ++ [10] -> len LogBomb.stderr_line <= record_cap s ->
  passes stderr_record -> Forall (fun c => passes (log_record run ts c)) LogBomb.on_trigger.2 ->
  let kept := fitted (record_cap s) <$> take (Z.to_nat p.(capacity)) (stderr_record :: (log_record run ts <$> LogBomb.on_trigger.2)) in
  exists consoled, (log_bomb writes s).(sk_router) = added s.(sk_router) consoled kept /\ consoled `sublist_of` kept /\
    Z.of_nat (length kept) = Z.min p.(capacity) (LogBomb.RECORDS + 1) /\
    Forall (fun r => wire_bytes float_text r <= record_cap s) kept.
Proof.
  intros Hb Hw Hcap Hve Hv kept. unfold log_bomb.
  pose proof (writes_route_the_line writes s Hw Hcap) as Hline. destruct (write_all _ _ _ _ _) as [w' s1]. cbn [snd] in Hline. subst s1.
  pose proof holds_new as Hk. rewrite <- Hb in Hk.
  assert (drew s (Z.to_nat p.(capacity)) [stderr_record] (line_route float_text tick (mkWriter filter run Stderr []) LogBomb.stderr_line s)) as H1.
  { apply drew_one; [done..|]. unfold line_route. destruct (tick_still (sk_clock s)) as (k' & ->).
    change (strip_cr LogBomb.stderr_line) with LogBomb.stderr_line. assert (from_utf8_lossy LogBomb.stderr_line = LogBomb.stderr_line) as El by by vm_compute.
    unfold stderr_record. rewrite <- El at 1. cbn [w_filter w_run w_channel level_for].
    destruct LogBomb.stderr_line eqn:E; [discriminate E|]. by destruct (route _ _ _ _ _ _) as [[router b] evs]. }
  destruct (drew_app _ _ _ _ _ _ H1 (host_logs_drew _ _ _ (proj1 (proj2 H1)) Hv)) as (_ & _ & con & Hr & Hc).
  exists con. split_and!; [exact Hr|exact Hc| |].
  - subst kept. rewrite length_fmap, length_take. cbn [length]. rewrite length_fmap.
    change (length LogBomb.on_trigger.2) with 32%nat. destruct p_wf as [[Hc0 _] _]. unfold LogBomb.RECORDS. lia.
  - apply Forall_fmap, Forall_forall. intros r _. cbn. pose proof (fit_spec float_text (record_cap s) r) as Hf.
    pose proof (len_nonneg LogBomb.stderr_line). specialize (Hf ltac:(lia)). unfold fitted.
    destruct (fit _ _ _) as [[r' cut] dropped]. apply Hf.
Qed.
End Flooded.

(** ** Concrete runs *)

(** A store that never faults. *)
Module Plain.
Record Plain : Type := mkPlain { cells : gmap text (list Z) }.

#[local] Instance plain_kv : KvHost Plain := {|
  kv_get key h := (Ok (h.(cells) !! key), h);
  kv_set key value h := (Ok tt, mkPlain (<[key := value]> h.(cells)));
  kv_delete key h := (Ok tt, mkPlain (delete key h.(cells)));
  kv_list_keys p h := (Ok (fst <$> rows_under p h.(cells)), h);
  kv_rows := cells
|}.

#[local] Instance plain_laws : KvLaws Plain.
Proof.
  split; cbn.
  - intros h key r h' [= <- <-]. split; [done|]. by intros v [= <-].
  - by intros h key value r h' [= <- <-].
  - by intros h key r h' [= <- <-].
  - intros h q r h' [= <- <-]. split; [done|]. intros ks [= <-].
    split; [apply rows_under_NoDup|]. intros k. apply rows_under_keys.
Qed.

#[local] Instance open_gate : RateLimiter unit := {| try_acquire b _ := (true, b) |}.

Lemma plain_get_ok key (h : Plain) : exists v h', kv_get key h = (Ok v, h').
Proof. by exists (h.(cells) !! key), h. Qed.

Lemma plain_set_ok key value (h : Plain) : exists h', kv_set key value h = (Ok tt, h').
Proof. by eexists. Qed.

Definition two_traps : list (text * text) := [(chars_of "fail_first_n", chars_of "2")].

Definition flaky_module : LoadedModule unit :=
  mkLoadedModule (chars_of "flaky") [TBlock 1] health_alive tt 0 1000 (duration_from_secs 5) true.

Definition booted : Supervisor unit (Lab (H := Plain)) unit :=
  mkSupervisor [flaky_module] PoisonPolicy_default ChainLogCursors_default ∅ false None tt (mkLab 0 (mkPlain ∅) two_traps 2 []) [].

Definition head_block : Block := mkBlock 1 7 [] 0.

Definition instants : list Z := duration_from_secs <$> [10; 400; 800].

End Plain.

(** A flood past a burst of four. *)
Module Flood.
Definition start : Sink (B := TokenBucket) (K := unit) :=
  mkSink (mkRouter [] (log_store_new (mkRetention 100000 4))) (mkBounds (mkLogBounds 512 (mkRate 4 1)) (bucket_new (mkRate 4 1) 0)) tt [].

Definition writes : list (list Z) := [chars_of "log-bomb flooding "; chars_of "32"; [10]].

Lemma log_bomb_spends_the_burst_witness :
  let kept := fitted (fun _ => []) 512 <$> take 4 (stderr_record 0 (run_of 0) :: (log_record (run_of 0) 0 <$> LogBomb.on_trigger.2)) in
  exists consoled, (log_bomb (fun _ => []) still plain_filter (run_of 0) writes start).(sk_router)
                   = added start.(sk_router) consoled kept /\ consoled `sublist_of` kept /\ Z.of_nat (length kept) = 4 /\
    Forall (fun r => wire_bytes (fun _ => []) r <= 512) kept.
Proof.
  apply (log_bomb_spends_the_burst (fun _ => []) still 0 0 (fun k => ex_intro _ k eq_refl) plain_filter (run_of 0) (mkRate 4 1)
           ltac:(solve_rate) writes start).
  - reflexivity.
  - by vm_compute.
  - by vm_compute.
  - by vm_compute.
  - apply Forall_forall. intros c Hc. apply list_elem_of_fmap in Hc as (i & -> & _). unfold LogBomb.flood. by destruct (i mod 2 =? 0); vm_compute.
Defined.
End Flood.
