(* ===== verification/Scenario.v ===== *)
(** * Scenario: booting and launching under test

    crates/nexum-runtime-supervisor/src/test_utils/scenario.rs and
    crates/nexum-runtime/src/test_utils/harness.rs: the entries of a scenario and the
    [[modules]] rows they become, the scenario that boots a supervisor, the harness with
    its two terminals, what a booted one reads back, the walk of a refusal to its typed
    root, and the wait for a log record.

    The theorems: both terminals of a harness boot the same thing; the rows of a scenario
    pass the rules of a configuration, and the manifest each names is its own; a wait for
    a record never sleeps on one; a walk to the root finds what lies on it and ends. *)

From stdpp Require Import prelude list gmap strings.
From Stdlib Require Import ZArith Lia.
From S2P Require Import Prelude Primitives Lifecycle StoreApi Cursors Policy Cron Dispatch Tasks EventLoop Admission Sources Logs IpAddr HttpGate Manifest Config Errors AddOns Launch ManifestBuilder ChainHost FakeNode LocalStore LocalStoreSafety DispatchSafety LaunchSafety.

Local Open Scope Z_scope.

#[local] Arguments chars_of : simpl never.
#[local] Arguments decimal : simpl never.

(** ** Defaults *)

Definition ResolvedModuleLimits_default : result ResolvedModuleLimits EngineConfigError := resolve_limits ModuleLimits_default.

Definition PolicyCeilings_default : PolicyCeilings :=
  mkCeilings DEFAULT_MEMORY_LIMIT DEFAULT_FUEL_PER_DISPATCH DEFAULT_STATE_BYTES (mkLogBounds DEFAULT_LOG_RECORD_BYTES DEFAULT_LOG_RATE).

Definition LogFilterPolicy_default : LogFilterPolicy := mkLogFilter DEFAULT_LOG_LEVEL DEFAULT_LOG_LEVEL ∅.

(** With no [http_deny]. *)
Definition PolicySection_default : PolicySection := mkPolicySection PolicyCeilings_default None None ∅ LogFilterPolicy_default.

(** ** Entries *)

(** One [[modules]] entry of a scenario. *)
Record Entry : Type := mkScenarioEntry {
  en_id : option text;
  en_wasm : option text;
  en_manifest : ManifestInput;
  en_digest : option (list Z)
}.

Definition entry_new (manifest : ManifestInput) : Entry := mkScenarioEntry None None manifest None.
Definition entry_id (id : text) (e : Entry) : Entry := mkScenarioEntry (Some id) e.(en_wasm) e.(en_manifest) e.(en_digest).
Definition entry_wasm (wasm : text) (e : Entry) : Entry := mkScenarioEntry e.(en_id) (Some wasm) e.(en_manifest) e.(en_digest).
Definition entry_digest (digest : list Z) (e : Entry) : Entry := mkScenarioEntry e.(en_id) e.(en_wasm) e.(en_manifest) (Some digest).

(** [ModuleEntry::new]. *)
Definition module_entry_new (id path : text) : ModuleEntry := mkEntry id path None None.

Section Rows.
Context (path_join : text -> text -> text).

Definition default_id (index : nat) : text := [109] ++ decimal (Z.of_nat index).
Definition manifest_file (dir : text) (index : nat) : text :=
  path_join dir (chars_of "module-" ++ decimal (Z.of_nat index) ++ chars_of ".toml").

(** The row, and the files it writes. *)
Definition entry_resolve (dir default_wasm : text) (index : nat) (e : Entry) : ModuleEntry * list (text * text) :=
  let module := module_entry_new (default (default_id index) e.(en_id)) (default default_wasm e.(en_wasm)) in
  let (manifest, written) := input_resolve e.(en_manifest) (manifest_file dir index) in
  (mkEntry module.(e_id) module.(e_path) manifest e.(en_digest), written).

Definition rows (entries : list Entry) (dir default_wasm : text) : list ModuleEntry * list (text * text) :=
  let resolved := imap (entry_resolve dir default_wasm) entries in
  (fst <$> resolved, mjoin (snd <$> resolved)).

(** Joining keeps file names apart. *)
Context (join_inj : forall dir f f', path_join dir f = path_join dir f' -> f = f').

Lemma manifest_file_inj dir i j : is_u64 (Z.of_nat i) -> is_u64 (Z.of_nat j) -> manifest_file dir i = manifest_file dir j -> i = j.
Proof.
  intros Hi Hj He%join_inj. apply app_inv_head, app_inv_tail in He. apply decimal_inj in He; [lia|done|done].
Qed.

Lemma default_id_inj i j : is_u64 (Z.of_nat i) -> is_u64 (Z.of_nat j) -> default_id i = default_id j -> i = j.
Proof. intros Hi Hj [= He]. apply decimal_inj in He; [lia|done|done]. Qed.

Lemma drop_while_keeps {A} (p : A -> bool) l x : x ∈ l -> p x = false -> x ∈ drop_while p l.
Proof.
  intros Hin Hp. induction l as [|y l IH]; [done|]. cbn. destruct (p y) eqn:Ey; [|done].
  apply elem_of_cons in Hin as [->|Hin]; [congruence|auto].
Qed.

Lemma default_id_not_blank i : trim (default_id i) <> [].
Proof.
  unfold trim, default_id. intros Ht%(f_equal reverse). rewrite reverse_involutive in Ht.
  assert (109 ∈ drop_while is_whitespace (reverse (drop_while is_whitespace ([109] ++ decimal (Z.of_nat i))))) as Hin.
  { apply drop_while_keeps; [|done]. apply elem_of_reverse. by left. }
  rewrite Ht in Hin. by apply elem_of_nil in Hin.
Qed.

Lemma rows_lookup entries dir wasm i e :
  entries !! i = Some e -> (rows entries dir wasm).1 !! i = Some (entry_resolve dir wasm i e).1.
Proof. intros He. cbn. by rewrite list_lookup_fmap, list_lookup_imap, He. Qed.

Lemma rows_written entries dir wasm path toml :
  (path, toml) ∈ (rows entries dir wasm).2 <->
  exists i e, entries !! i = Some e /\ e.(en_manifest) = Inline toml /\ path = manifest_file dir i.
Proof.
  cbn. rewrite list_elem_of_join. split.
  - intros (w & Hin & Hw). apply list_elem_of_fmap in Hw as ([m w'] & -> & Hw).
    apply elem_of_lookup_imap in Hw as (i & e & Hr & He). exists i, e. split; [done|]. revert Hr. unfold entry_resolve.
    destruct (en_manifest e) as [| |toml'] eqn:Em; cbn; intros [= -> ->]; cbn in Hin; [by apply elem_of_nil in Hin..|].
    by apply list_elem_of_singleton in Hin as [= -> ->].
  - intros (i & e & He & Em & ->). exists [(manifest_file dir i, toml)]. split; [by left|]. apply list_elem_of_fmap.
    exists (entry_resolve dir wasm i e). split; [unfold entry_resolve; by rewrite Em|].
    apply elem_of_lookup_imap. by exists i, e.
Qed.

(** The rows of a scenario are the entries, in order: each keeps the id, component and
    pin it was given and takes the defaults of its position for the rest; an inline
    manifest is what its row's path holds, and nothing else is written there; and entries
    without an id of their own pass the id rules of a configuration, unique and not
    blank. *)
Theorem rows_stand_for_their_entries (entries : list Entry) (dir wasm : text) :
  is_u64 (Z.of_nat (length entries)) ->
  let (ms, written) := rows entries dir wasm in
  length ms = length entries /\
  (forall i e, entries !! i = Some e ->
     exists m, ms !! i = Some m /\ m.(e_id) = default (default_id i) e.(en_id) /\ m.(e_path) = default wasm e.(en_wasm) /\
       m.(e_digest) = e.(en_digest) /\
       match e.(en_manifest) with
       | Beside => m.(e_manifest) = None
       | AtPath path => m.(e_manifest) = Some path
       | Inline toml => exists path, m.(e_manifest) = Some path /\ forall toml', (path, toml') ∈ written <-> toml' = toml
       end) /\
  (Forall (fun e => e.(en_id) = None) entries -> NoDup (e_id <$> ms) /\ Forall (fun m => trim m.(e_id) <> []) ms).
Proof.
  intros Hlen. pose proof (rows_lookup entries dir wasm) as Hl. pose proof (rows_written entries dir wasm) as Hw.
  assert (length (rows entries dir wasm).1 = length entries) as Hn by (cbn; by rewrite length_fmap, length_imap).
  assert (forall i e, entries !! i = Some e -> is_u64 (Z.of_nat i)) as Hi.
  { intros i e He%lookup_lt_Some. unfold is_u64 in *. lia. }
  destruct (rows entries dir wasm) as [ms written]. cbn [fst snd] in *. split_and!; [done|..].
  - intros i e He. exists (entry_resolve dir wasm i e).1. split; [by apply Hl|]. unfold entry_resolve.
    destruct (en_manifest e) as [|path|toml] eqn:Em; cbn; [done..|]. split_and!; [done..|]. eexists. split; [done|].
    intros toml'. rewrite Hw. split; [|intros ->; by exists i, e]. intros (j & e' & He' & Em' & Hf).
    apply manifest_file_inj in Hf as ->; [|by eauto..]. congruence.
  - intros Hnone.
    assert (forall i m, ms !! i = Some m -> m.(e_id) = default_id i /\ is_u64 (Z.of_nat i)) as Hids.
    { intros i m Hm. pose proof (lookup_lt_Some _ _ _ Hm) as Hlt. rewrite Hn in Hlt. apply lookup_lt_is_Some in Hlt as [e He].
      rewrite (Hl i e He) in Hm. injection Hm as <-. split; [|by eauto]. unfold entry_resolve.
      destruct (input_resolve _ _). cbn. by rewrite (proj1 (Forall_lookup _ _) Hnone i e He). }
    split.
    + apply NoDup_alt. intros i j id Hi1 Hj1. rewrite list_lookup_fmap in Hi1, Hj1.
      destruct (ms !! i) as [m1|] eqn:E1; [|done]. destruct (ms !! j) as [m2|] eqn:E2; [|done].
      destruct (Hids i m1 E1) as [Hd1 ?], (Hids j m2 E2) as [Hd2 ?]. injection Hi1 as Hi1. injection Hj1 as Hj1.
      apply default_id_inj; congruence.
    + apply Forall_lookup. intros i m Hm. destruct (Hids i m Hm) as [-> _]. apply default_id_not_blank.
Qed.
End Rows.

(** ** The scenario *)

Section Scenarios.
Context (path_exists : text -> bool) (path_parent : text -> option text)
        (path_join : text -> text -> text)
        (manifest_load : list NamespaceCaps -> text -> option LoadedManifest)
        (read_file : text -> option (list Z)) (sha256 : list Z -> list Z)
        (compile : list Z -> option (list text))
        (instantiate : text -> list Z -> list (text * text) -> option bool).
Context (parse_error : text -> ParseError) (engine_causes : list Cause)
        (admit_causes : text -> list Cause).
Context (file_stem : text -> option text) (engine_new link_core : result unit (list Cause)).
Context {F : Type} (filter_new : F) (filter_address filter_event_signature : F -> list Z -> F)
        (keccak256 : list Z -> list Z) (hex_address hex_topic hex_digest : list Z -> text).
Context {U N B W D S : Type} `{RateLimiter B} `{World W} `{StateStore S}.
Context (fresh_bucket : DispatchRatePolicy -> B) (world0 : W).
Context {K : Type} (host_wall : K).
(** The url crate's reading of the one URL the test chains name. *)
Context (test_url : U).

Notation Cfg := (FullConfig U N).
Notation Exts := (list (Extension Cfg)).
Notation P := (ProviderPool (D := D)).
Notation Handle := (RuntimeHandle (F := F) (B := B) (W := W) (S := S) (G := RunLogStore) (K := K)).
#[local] Notation at_launch f := (f path_exists path_parent path_join manifest_load read_file sha256 compile instantiate
  parse_error engine_causes admit_causes file_stem engine_new link_core F filter_new filter_address filter_event_signature
  keccak256 hex_address hex_topic hex_digest U N B W P S RunLogStore _ fresh_bucket world0 K host_wall).

Definition test_chain_configs : gmap Z (ChainConfig U) :=
  list_to_map ((fun id => (id, mkChainConfig (mkEndpoint test_url RpcHttp) 30 1000)) <$> [1; 100; 11155111]).

(** [LogPipeline::in_memory] at the default limits. *)
Definition in_memory_logs : option RunLogStore :=
  match ResolvedModuleLimits_default with Ok l => Some (log_store_new l.(rl_logs)) | Err _ => None end.

(** [EngineConfig::default], whose limits are about to be replaced by [limits]. *)
Definition default_with_limits (limits : ResolvedModuleLimits) : Cfg :=
  mkFull EngineSection_default limits PolicySection_default [] ∅ [] [] false.

Record BootScenario : Type := mkScenario {
  bs_dir : text;
  bs_components : Components P S RunLogStore;
  bs_extensions : Exts;
  bs_limits : ModuleLimits;
  bs_policy : PolicySection * list N;
  bs_chains : gmap Z (ChainConfig U);
  bs_wasm : option text;
  bs_modules : list Entry;
  bs_clocks : option (WasiClockOverride K);
  bs_require_digest : bool;
  bs_defaulted : bool
}.

(** Rooted in a fresh directory. *)
Definition over (dir : text) (components : Components P S RunLogStore) : BootScenario :=
  mkScenario dir components [] ModuleLimits_default (PolicySection_default, []) test_chain_configs None [] None false false.

Definition bs_with_wasm (wasm : text) (s : BootScenario) : BootScenario :=
  mkScenario s.(bs_dir) s.(bs_components) s.(bs_extensions) s.(bs_limits) s.(bs_policy) s.(bs_chains) (Some wasm)
    s.(bs_modules) s.(bs_clocks) s.(bs_require_digest) s.(bs_defaulted).
Definition bs_with_module (entry : Entry) (s : BootScenario) : BootScenario :=
  mkScenario s.(bs_dir) s.(bs_components) s.(bs_extensions) s.(bs_limits) s.(bs_policy) s.(bs_chains) s.(bs_wasm)
    (s.(bs_modules) ++ [entry]) s.(bs_clocks) s.(bs_require_digest) s.(bs_defaulted).
Definition bs_with_limits (limits : ModuleLimits) (s : BootScenario) : BootScenario :=
  mkScenario s.(bs_dir) s.(bs_components) s.(bs_extensions) limits s.(bs_policy) s.(bs_chains) s.(bs_wasm)
    s.(bs_modules) s.(bs_clocks) s.(bs_require_digest) s.(bs_defaulted).
Definition bs_with_policy (policy : PolicySection * list N) (s : BootScenario) : BootScenario :=
  mkScenario s.(bs_dir) s.(bs_components) s.(bs_extensions) s.(bs_limits) policy s.(bs_chains) s.(bs_wasm)
    s.(bs_modules) s.(bs_clocks) s.(bs_require_digest) s.(bs_defaulted).
Definition bs_with_chains (chains : gmap Z (ChainConfig U)) (s : BootScenario) : BootScenario :=
  mkScenario s.(bs_dir) s.(bs_components) s.(bs_extensions) s.(bs_limits) s.(bs_policy) chains s.(bs_wasm)
    s.(bs_modules) s.(bs_clocks) s.(bs_require_digest) s.(bs_defaulted).
Definition defaulted_chains (s : BootScenario) : BootScenario :=
  mkScenario s.(bs_dir) s.(bs_components) s.(bs_extensions) s.(bs_limits) s.(bs_policy) ∅ s.(bs_wasm)
    s.(bs_modules) s.(bs_clocks) s.(bs_require_digest) true.
Definition bs_with_require_digest (s : BootScenario) : BootScenario :=
  mkScenario s.(bs_dir) s.(bs_components) s.(bs_extensions) s.(bs_limits) s.(bs_policy) s.(bs_chains) s.(bs_wasm)
    s.(bs_modules) s.(bs_clocks) true s.(bs_defaulted).
Definition bs_with_extensions (exts : Exts) (s : BootScenario) : BootScenario :=
  mkScenario s.(bs_dir) s.(bs_components) (s.(bs_extensions) ++ exts) s.(bs_limits) s.(bs_policy) s.(bs_chains) s.(bs_wasm)
    s.(bs_modules) s.(bs_clocks) s.(bs_require_digest) s.(bs_defaulted).
Definition bs_with_clock (clocks : WasiClockOverride K) (s : BootScenario) : BootScenario :=
  mkScenario s.(bs_dir) s.(bs_components) s.(bs_extensions) s.(bs_limits) s.(bs_policy) s.(bs_chains) s.(bs_wasm)
    s.(bs_modules) (Some clocks) s.(bs_require_digest) s.(bs_defaulted).
Definition permit (addrs : list IpAddr) (s : BootScenario) : BootScenario :=
  let l := s.(bs_limits) in
  let h := l.(raw_http) in
  bs_with_limits
    (mkRawLimits l.(raw_fuel_per_event) l.(raw_memory_bytes) l.(raw_state_bytes)
       (mkHttpSection h.(connect_timeout_max_ms) h.(first_byte_timeout_max_ms) h.(between_bytes_timeout_max_ms)
          h.(total_deadline_ms) h.(raw_response_body_max_bytes) addrs)
       l.(raw_chain_response_body_max_bytes) l.(raw_bytes_per_run) l.(raw_runs_retained) l.(raw_max_failures)
       l.(raw_window_secs) l.(raw_burst) l.(raw_refill_per_sec) l.(raw_deadline_secs) l.(raw_drain_secs)) s.

(** The configuration, and the files written on the way; a limit that does not resolve
    panics. *)
Definition split (s : BootScenario) : option (Cfg * list (text * text)) :=
  let default_wasm := default (path_join s.(bs_dir) (chars_of "component.wasm")) s.(bs_wasm) in
  match resolve_limits s.(bs_limits) with
  | Err _ => None
  | Ok limits =>
      let config := default_with_limits limits in
      let engine := config.(fc_engine) in
      let (modules, written) := rows path_join s.(bs_modules) s.(bs_dir) default_wasm in
      Some (mkFull (mkEngine s.(bs_dir) engine.(log_level) engine.(metrics) engine.(Config.log_backfill_concurrency) s.(bs_require_digest))
              config.(fc_limits) s.(bs_policy).1 s.(bs_policy).2 s.(bs_chains) config.(fc_extensions) modules s.(bs_defaulted),
            written)
  end.

(** [Supervisor::boot], which counts its own refusals. *)
Definition supervisor_boot (cfg : Cfg) (exts : Exts) : L K (list Loaded) :=
  booted parse_error engine_causes admit_causes
    (boot path_exists path_parent path_join manifest_load read_file sha256 compile instantiate (boot_config cfg) (x_ext <$> exts)).

Record Booted : Type := mkBooted { bt_supervisor : Supervisor B W S; bt_logs : RunLogStore }.

(** The engine of a test panics where a launch refuses. *)
Definition scenario_boot (s : BootScenario) : option (L K Booted * list (text * text)) :=
  match split s, engine_new with
  | Some (config, written), Ok _ =>
      Some (tell [LEngine];;
            attach_wall_clock host_wall s.(bs_extensions) s.(bs_clocks);;
            build_linker link_core s.(bs_extensions);;
            loaded ← supervisor_boot config s.(bs_extensions);
            mret (mkBooted (assemble world0 config s.(bs_components).(c_store) (loaded_module fresh_bucket config <$> loaded))
                    s.(bs_components).(c_logs)), written)
  | _, _ => None
  end.

(** The refusal, or a panic when the boot came up. *)
Definition expect_refusal (s : BootScenario) : option RuntimeError :=
  match scenario_boot s with Some ((Err e, _), _) => Some e | _ => None end.

(** ** The harness *)

(** The wall clock and the monotonic one of [ManualClock::as_override] are what [K] reads. *)
Record TestRuntimeBuilder : Type := mkHarness {
  hb_wasm : text;
  hb_modules : list Entry;
  hb_extensions : Exts;
  hb_limits : ModuleLimits;
  hb_policy : PolicySection * list N;
  hb_chain : D;
  hb_chains : list Z;
  hb_store : S;
  hb_clock : WasiClockOverride K;
  hb_require_digest : bool
}.

Definition HARNESS_POLL_INTERVAL : Z := duration_from_millis 20.

Definition harness_builder (wasm : text) (node : D) (store : S) (clock : WasiClockOverride K) : TestRuntimeBuilder :=
  mkHarness wasm [] [] ModuleLimits_default (PolicySection_default, []) node [1] store clock false.

(** The builder's methods. *)
Definition hb_module (e : Entry) (b : TestRuntimeBuilder) : TestRuntimeBuilder :=
  mkHarness b.(hb_wasm) (b.(hb_modules) ++ [e]) b.(hb_extensions) b.(hb_limits) b.(hb_policy) b.(hb_chain) b.(hb_chains)
    b.(hb_store) b.(hb_clock) b.(hb_require_digest).
Definition hb_with_extensions (xs : Exts) (b : TestRuntimeBuilder) : TestRuntimeBuilder :=
  mkHarness b.(hb_wasm) b.(hb_modules) (b.(hb_extensions) ++ xs) b.(hb_limits) b.(hb_policy) b.(hb_chain) b.(hb_chains)
    b.(hb_store) b.(hb_clock) b.(hb_require_digest).
Definition hb_with_limits (limits : ModuleLimits) (b : TestRuntimeBuilder) : TestRuntimeBuilder :=
  mkHarness b.(hb_wasm) b.(hb_modules) b.(hb_extensions) limits b.(hb_policy) b.(hb_chain) b.(hb_chains)
    b.(hb_store) b.(hb_clock) b.(hb_require_digest).
Definition hb_with_policy (policy : PolicySection * list N) (b : TestRuntimeBuilder) : TestRuntimeBuilder :=
  mkHarness b.(hb_wasm) b.(hb_modules) b.(hb_extensions) b.(hb_limits) policy b.(hb_chain) b.(hb_chains)
    b.(hb_store) b.(hb_clock) b.(hb_require_digest).
Definition hb_without_chains (b : TestRuntimeBuilder) : TestRuntimeBuilder :=
  mkHarness b.(hb_wasm) b.(hb_modules) b.(hb_extensions) b.(hb_limits) b.(hb_policy) b.(hb_chain) []
    b.(hb_store) b.(hb_clock) b.(hb_require_digest).
Definition hb_digest_required (b : TestRuntimeBuilder) : TestRuntimeBuilder :=
  mkHarness b.(hb_wasm) b.(hb_modules) b.(hb_extensions) b.(hb_limits) b.(hb_policy) b.(hb_chain) b.(hb_chains)
    b.(hb_store) b.(hb_clock) true.
(** [configure_chain]: the node is shared with the builder, which keeps what it became. *)
Definition configure_chain (f : D -> D) (b : TestRuntimeBuilder) : TestRuntimeBuilder :=
  mkHarness b.(hb_wasm) b.(hb_modules) b.(hb_extensions) b.(hb_limits) b.(hb_policy) (f b.(hb_chain)) b.(hb_chains)
    b.(hb_store) b.(hb_clock) b.(hb_require_digest).

Definition entries (modules : list Entry) : list Entry :=
  match modules with [] => [entry_new Beside] | _ => modules end.

(** The configuration [launch] builds. *)
Definition harness_config (tmp : text) (b : TestRuntimeBuilder) : result (Cfg * list (text * text)) RuntimeError :=
  match resolve_limits b.(hb_limits) with
  | Err e => Err (RConfig e)
  | Ok limits =>
      let config := default_with_limits limits in
      let engine := config.(fc_engine) in
      let (modules, written) := rows path_join (entries b.(hb_modules)) tmp b.(hb_wasm) in
      Ok (mkFull (mkEngine tmp engine.(log_level) engine.(metrics) engine.(Config.log_backfill_concurrency) b.(hb_require_digest))
            config.(fc_limits) b.(hb_policy).1 b.(hb_policy).2
            (match b.(hb_chains) with [] => config.(fc_chains) | _ => test_chain_configs end)
            config.(fc_extensions) modules config.(fc_defaulted), written)
  end.

(** [Prebuilt], and the default [LogPipelineBuilder]. *)
Definition prebuilt {X T} (t : T) : X -> result T (list Cause) := fun _ => Ok t.
Definition log_pipeline_builder (cfg : Cfg) : result RunLogStore (list Cause) := Ok (log_store_new cfg.(fc_limits).(rl_logs)).

Definition harness_launch (tmp : text) (b : TestRuntimeBuilder) : L K Handle * list (text * text) :=
  match harness_config tmp b with
  | Err e => (refuse e, [])
  | Ok (config, written) =>
      (at_launch (@rd_launch)
         (tb_with_components
            (tb_with_wasi_clocks (tb_with_extensions (with_types (mkRuntimeBuilder config)) b.(hb_extensions)) b.(hb_clock))
            (mkComponentsBuilder (prebuilt (node_pool b.(hb_chain) b.(hb_chains) HARNESS_POLL_INTERVAL)) (prebuilt b.(hb_store))
               log_pipeline_builder)), written)
  end.

(** The scenario [boot_supervisor] builds. *)
Definition harness_scenario (tmp : text) (b : TestRuntimeBuilder) (logs : RunLogStore) : BootScenario :=
  let pool := node_pool b.(hb_chain) b.(hb_chains) HARNESS_POLL_INTERVAL in
  let scenario := bs_with_wasm b.(hb_wasm) (over tmp (mkComponents pool b.(hb_store) logs)) in
  let scenario := foldl (fun s e => bs_with_module e s) scenario (entries b.(hb_modules)) in
  let scenario := if b.(hb_require_digest) then bs_with_require_digest scenario else scenario in
  let scenario := match b.(hb_chains) with [] => bs_with_chains ∅ scenario | _ => scenario end in
  bs_with_clock b.(hb_clock) (bs_with_policy b.(hb_policy) (bs_with_limits b.(hb_limits)
    (bs_with_extensions b.(hb_extensions) scenario))).

Definition boot_supervisor (tmp : text) (b : TestRuntimeBuilder) : option (L K Booted * list (text * text)) :=
  match in_memory_logs with
  | None => None
  | Some logs => scenario_boot (harness_scenario tmp b logs)
  end.

(** ** Both terminals *)

Lemma foldl_modules (es : list Entry) (s : BootScenario) :
  foldl (fun s e => bs_with_module e s) s es =
  mkScenario s.(bs_dir) s.(bs_components) s.(bs_extensions) s.(bs_limits) s.(bs_policy) s.(bs_chains) s.(bs_wasm)
    (s.(bs_modules) ++ es) s.(bs_clocks) s.(bs_require_digest) s.(bs_defaulted).
Proof.
  revert s. induction es as [|e es IH]; intros s; cbn [foldl].
  - rewrite app_nil_r. by destruct s.
  - rewrite IH. cbn. by rewrite <- (assoc_L (++)).
Qed.

(** The scenario carries what the builder was given. *)
Lemma harness_scenario_fields tmp b logs :
  harness_scenario tmp b logs =
  mkScenario tmp (mkComponents (node_pool b.(hb_chain) b.(hb_chains) HARNESS_POLL_INTERVAL) b.(hb_store) logs) b.(hb_extensions)
    b.(hb_limits) b.(hb_policy) (match b.(hb_chains) with [] => ∅ | _ => test_chain_configs end) (Some b.(hb_wasm))
    (entries b.(hb_modules)) (Some b.(hb_clock)) b.(hb_require_digest) false.
Proof.
  unfold harness_scenario. rewrite foldl_modules. by destruct (hb_require_digest b), (hb_chains b).
Qed.

Lemma harness_split tmp b logs :
  split (harness_scenario tmp b logs) = match harness_config tmp b with Ok c => Some c | Err _ => None end.
Proof.
  rewrite harness_scenario_fields. unfold split, harness_config. cbn [bs_limits bs_dir bs_wasm bs_modules bs_policy bs_chains bs_require_digest bs_defaulted default].
  destruct (resolve_limits (hb_limits b)) as [limits|e]; [|done]. destruct (rows _ _ _ _) as [ms written]. cbn.
  by destruct (hb_chains b).
Qed.

Lemma entries_rows modules dir wasm : (rows path_join (entries modules) dir wasm).1 <> [].
Proof. by destruct modules. Qed.

(** The admissions of a launch. *)
Definition boots (tr : list (LaunchEv K)) : list BootEv := omap (fun e => match e with LBoot e => Some e | _ => None end) tr.

Lemma boots_app tr tr' : boots (tr ++ tr') = boots tr ++ boots tr'.
Proof. apply omap_app. Qed.

Lemma boots_counted e : boots (count_boot_refusal e) = [].
Proof. unfold count_boot_refusal. by destruct (error_kind e). Qed.

Lemma sources_boot_nothing cfg kinds (exts : Exts) : boots (open_extension_sources (K := K) cfg kinds exts).2 = [].
Proof.
  induction exts as [|x exts IH]; [done|]. cbn [open_extension_sources]. destruct (x_open_sources x cfg kinds) as [labels opened].
  unfold mbind, L_bind, tell, refuse. cbn. destruct opened as [n|e]; [|done].
  destruct (open_extension_sources cfg kinds exts) as [[r|e] tr]; cbn in *; [by rewrite app_nil_r|exact IH].
Qed.

(** What refuses a launch once its supervisor is up. *)
Definition after_boot (e : RuntimeError) : Prop :=
  (exists r, e = RLaunch r) \/ exists ns source, e = RExtension (HookSource ns) source.

Lemma sources_refuse_after_boot cfg kinds (exts : Exts) e tr :
  open_extension_sources (K := K) cfg kinds exts = (Err e, tr) -> after_boot e.
Proof.
  revert tr. induction exts as [|x exts IH]; [done|]. intros tr. cbn [open_extension_sources].
  destruct (x_open_sources x cfg kinds) as [labels [n|causes]]; unfold mbind, L_bind, tell, refuse; cbn; [|intros [= <- <-]; by right; eauto].
  destruct (open_extension_sources cfg kinds exts) as [[r|e'] tr']; [done|]. intros [= <- <-]. eauto.
Qed.

(** What a launch and a booted scenario of one configuration have in common. *)
Definition agree (config : Cfg) (booting : L K Booted) (launching : L K Handle) : Prop :=
  boots launching.2 = boots booting.2 /\
  match booting.1 with
  | Err e => launching.1 = Err e
  | Ok booted =>
      match launching.1 with
      | Err e => after_boot e
      | Ok h =>
          h.(h_logs) = log_store_new config.(fc_limits).(rl_logs) /\
          match h.(h_event_loop) with
          | LoopDone _ => True
          | LoopSpawned s _ _ _ => s.(modules) = booted.(bt_supervisor).(modules) /\ s.(policy) = booted.(bt_supervisor).(policy)
          end
      end
  end.

Lemma clocks_boot_nothing (exts : Exts) (w : K) : boots ((fun x => LClock x.(x_ext).(ext_namespace) w) <$> exts) = [].
Proof. by induction exts. Qed.

Lemma linker_boots_nothing (exts : Exts) : boots (build_linker (K := K) link_core exts).2 = [].
Proof.
  unfold build_linker. destruct link_core; [|done]. induction exts as [|x exts IH]; [done|]. cbn [link_extensions].
  destruct (x_link x); [|done]. unfold mbind, L_bind, tell. destruct (link_extensions exts). exact IH.
Qed.

(** What follows the boot: a handle over the loaded modules, or a refusal of its own. *)
Lemma launch_after_boot (a : Assembled (U := U) (N := N) (P := P) (S := S) (G := RunLogStore) (K := K)) cfg tr loaded :
  a.(a_add_ons) = [] -> engine_new = Ok tt ->
  boot_modules path_exists path_parent path_join manifest_load read_file sha256 compile instantiate parse_error engine_causes
    admit_causes file_stem a.(a_wasm) a.(a_manifest) cfg a.(a_extensions) = (Ok loaded, tr) ->
  forall tr0, build_linker (K := K) link_core a.(a_extensions) = (Ok tt, tr0) ->
  let m := at_launch (@launch) a cfg in
  boots m.2 = boots tr /\
  match m.1 with
  | Err e => after_boot e
  | Ok h => h.(h_logs) = a.(a_components).(c_logs) /\
      match h.(h_event_loop) with
      | LoopDone _ => True
      | LoopSpawned s _ _ _ => s.(modules) = loaded_module fresh_bucket cfg <$> loaded /\ s.(policy) = cfg.(fc_limits).(rl_poison)
      end
  end.
Proof.
  intros Hadd Heng Hboot tr0 Hlink m. subst m. pose proof (linker_boots_nothing a.(a_extensions)) as Hl. rewrite Hlink in Hl. cbn [snd] in Hl.
  unfold launch. rewrite Hadd. cbn [install_add_ons]. unfold engine. rewrite Heng, Hlink, Hboot.
  unfold mret, mbind, L_ret, L_bind, attach_wall_clock, tell. cbn -[boots alive_count source_plan viability open_extension_sources count_boot_refusal].
  destruct (source_plan _ _ _ _ _ _ _ _ _) as [plan store']. destruct (_ =? 0)%nat.
  { cbn -[boots count_boot_refusal]. split; [|left; eauto]. change (boots (?x :: ?y :: ?l)) with (boots l).
    by rewrite !boots_app, clocks_boot_nothing, Hl, boots_counted, app_nil_r. }
  pose proof (sources_boot_nothing cfg plan.(demanded_extension_kinds) a.(a_extensions)) as Hs.
  destruct (open_extension_sources _ _ _) as [[opened|e] tr1] eqn:Eo; cbn [snd] in Hs.
  - destruct (viability _ _); cbn -[boots];
      (split; [change (boots (?x :: ?y :: ?l)) with (boots l);
               rewrite !boots_app, clocks_boot_nothing, Hl; change (boots (LCritical ?x :: ?l)) with (boots l);
               rewrite boots_app, Hs; by rewrite app_nil_r|]); first [by split | left; eauto].
  - cbn -[boots]. split; [|by eapply sources_refuse_after_boot].
    change (boots (?x :: ?y :: ?l)) with (boots l). rewrite !boots_app, clocks_boot_nothing, Hl.
    change (boots (LCritical ?x :: ?l)) with (boots l). by rewrite Hs, app_nil_r.
Qed.

(** A linker or a boot that refuses is the launch's refusal. *)
Lemma launch_refused_at_boot (a : Assembled (U := U) (N := N) (P := P) (S := S) (G := RunLogStore) (K := K)) cfg e tr :
  a.(a_add_ons) = [] -> engine_new = Ok tt ->
  (build_linker (K := K) link_core a.(a_extensions);;
   boot_modules path_exists path_parent path_join manifest_load read_file sha256 compile instantiate parse_error engine_causes
     admit_causes file_stem a.(a_wasm) a.(a_manifest) cfg a.(a_extensions)) = (Err e, tr) ->
  let m := at_launch (@launch) a cfg in m.1 = Err e /\ boots m.2 = boots tr.
Proof.
  intros Hadd Heng Hboot m. subst m. unfold launch. rewrite Hadd. cbn [install_add_ons]. unfold engine. rewrite Heng.
  revert Hboot. unfold mret, mbind, L_ret, L_bind, attach_wall_clock, tell.
  destruct (build_linker link_core _) as [[[]|e0] tr0]; [|intros [= -> ->]].
  - destruct (boot_modules _ _ _ _ _ _ _ _ _ _ _ _ _ _ _ _) as [[loaded|e1] tr1]; [done|]. intros [= -> <-]. cbn -[boots].
    split; [done|]. change (boots (?x :: ?y :: ?l)) with (boots l). by rewrite boots_app, clocks_boot_nothing.
  - cbn -[boots]. split; [done|]. change (boots (?x :: ?y :: ?l)) with (boots l). by rewrite boots_app, clocks_boot_nothing.
Qed.

(** Given one configuration and one set of extensions. *)
Lemma same_config_agrees (config : Cfg) (exts : Exts) clocks (pool : P) (store : S) logs :
  engine_new = Ok tt -> config.(fc_modules) <> [] ->
  agree config
    (tell [LEngine];;
     attach_wall_clock host_wall exts clocks;;
     build_linker link_core exts;;
     loaded ← supervisor_boot config exts;
     mret (mkBooted (assemble world0 config store (loaded_module fresh_bucket config <$> loaded)) logs))
    (at_launch (@launch)
       (mkAssembled (mkComponents pool store (log_store_new config.(fc_limits).(rl_logs))) exts [] None None clocks) config).
Proof.
  intros Heng Hms. set (a := mkAssembled _ exts [] None None clocks).
  pose proof (launch_refused_at_boot a config) as Hrefused. pose proof (launch_after_boot a config) as Hafter.
  revert Hrefused Hafter. unfold a, boot_modules, supervisor_boot. cbn [a_add_ons a_extensions a_wasm a_manifest a_components c_logs].
  rewrite (bool_decide_eq_false_2 _ Hms). unfold agree, attach_wall_clock, tell, mret, mbind, L_ret, L_bind.
  pose proof (linker_boots_nothing exts) as Hl. destruct (build_linker (K := K) link_core exts) as [[[]|e] tr0]; cbn [snd] in Hl.
  - destruct (booted _ _ _ _) as [[loaded|e] tr]; intros Hrefused Hafter.
    + destruct (Hafter _ _ eq_refl Heng eq_refl _ eq_refl) as [-> Ho]. cbn -[boots]. split; [|exact Ho].
      change (boots (?x :: ?l)) with (boots l). by rewrite !boots_app, clocks_boot_nothing, Hl, app_nil_r.
    + destruct (Hrefused _ _ eq_refl Heng eq_refl) as [-> ->]. cbn -[boots]. split; [|done].
      change (boots (LEngine :: ?l)) with (boots l). by rewrite !boots_app, clocks_boot_nothing, Hl.
  - intros Hrefused _. destruct (Hrefused _ _ eq_refl Heng eq_refl) as [-> ->]. cbn -[boots]. split; [|done].
    change (boots (?x :: ?l)) with (boots l). by rewrite boots_app, clocks_boot_nothing, Hl.
Qed.

(** The stages of the harness hand the backends over as they are. *)
Lemma harness_launches (config : Cfg) (exts : Exts) clocks (pool : P) (store : S) :
  at_launch (@rd_launch)
    (tb_with_components (tb_with_wasi_clocks (tb_with_extensions (with_types (mkRuntimeBuilder config)) exts) clocks)
       (mkComponentsBuilder (prebuilt pool) (prebuilt store) log_pipeline_builder))
  = at_launch (@launch)
      (mkAssembled (mkComponents pool store (log_store_new config.(fc_limits).(rl_logs))) exts [] None None (Some clocks)) config.
Proof. unfold rd_launch, open_and_launch. generalize (at_launch (@launch)). intros run. cbn. by destruct (run _ _). Qed.

(** The two terminals of a harness agree. Given limits that resolve, [launch] and
    [boot_supervisor] write the same manifests and put the same configuration through
    the same admissions; a refusal of the one, up to the boot, is the refusal of the
    other; and a launch of a harness that boots ends with a handle over the same modules
    under the same trap policy, or in a refusal that only comes after the boot. Limits
    that do not resolve refuse the launch and panic the other. *)
Theorem harness_terminals_agree (tmp : text) (b : TestRuntimeBuilder) :
  engine_new = Ok tt ->
  match harness_config tmp b with
  | Err e => boot_supervisor tmp b = None /\ (harness_launch tmp b).1.1 = Err e
  | Ok (config, written) =>
      (harness_launch tmp b).2 = written /\
      exists booting, boot_supervisor tmp b = Some (booting, written) /\ agree config booting (harness_launch tmp b).1
  end.
Proof.
  intros Heng. assert (exists logs, in_memory_logs = Some logs) as [logs Elogs] by (eexists; vm_compute; reflexivity).
  unfold boot_supervisor, harness_launch, scenario_boot. rewrite Elogs, harness_split.
  destruct (harness_config tmp b) as [[config written]|e] eqn:Ec; [|done]. rewrite harness_launches. cbn [snd fst]. split; [done|].
  assert (config.(fc_modules) <> []) as Hms.
  { revert Ec. unfold harness_config. destruct (resolve_limits _); [|done]. pose proof (entries_rows (hb_modules b) tmp (hb_wasm b)) as Hr.
    destruct (rows _ _ _ _) as [ms w]. by intros [= <- _]. }
  pose proof (same_config_agrees config b.(hb_extensions) (Some b.(hb_clock)) (node_pool b.(hb_chain) b.(hb_chains) HARNESS_POLL_INTERVAL)
    b.(hb_store) logs Heng Hms) as Ha.
  revert Ha. generalize (at_launch (@launch)). intros run Ha. rewrite Heng. eexists. split; [reflexivity|].
  rewrite harness_scenario_fields. exact Ha.
Qed.
End Scenarios.

(** ** What a booted one reads back *)

(** The synthetic block of [Booted::dispatch_block_on]. *)
Definition synthetic_block (chain_id : Z) : Block := mkBlock chain_id 19000000 (replicate 32 171) 1700000000000.

(** The entry points of a dispatch without a reception of its own: received now. *)
Section EntryPoints.
Context {B W S : Type} `{RateLimiter B} `{World W} `{StateStore S}.
#[local] Notation Sup := (Supervisor B W S).

Definition dispatch_block (block : Block) (s : Sup) : Z * Sup := let (now, s) := Dispatch.now s in dispatch_block_received block now s.
Definition dispatch_event (module : text) (chain : Z) (log : Log) (key : option text) (s : Sup) : bool * Sup :=
  let (now, s) := Dispatch.now s in dispatch_event_received module chain log key now s.
Definition dispatch_schedule (module : text) (fired_at : Z) (s : Sup) : bool * Sup :=
  let (now, s) := Dispatch.now s in dispatch_schedule_received module fired_at now s.

Definition dispatch_extension_trigger (d : ExtensionDelivery) (s : Sup) : Z * Sup :=
  let (now, s) := Dispatch.now s in dispatch_extension_trigger_received d now s.

(** [Booted::dispatch_block_on]. *)
Definition dispatch_block_on (chain_id : Z) (b : Booted (B := B) (W := W) (S := S)) : Z * Booted :=
  let (n, s) := dispatch_block (synthetic_block chain_id) b.(bt_supervisor) in (n, mkBooted s b.(bt_logs)).
End EntryPoints.

(** Every retained record of a module, across its runs. *)
Definition records (logs : RunLogStore) (module : text) : list LogRecord :=
  mjoin ((fun meta => (log_read logs meta.(meta_run) 0).(page_records)) <$> log_list_runs logs module).

(** The first retained record of a module whose message contains a needle. *)
Definition matching (module needle : text) (logs : RunLogStore) : option LogRecord :=
  find_map (fun meta => List.find (fun r => contains needle r.(message)) (log_read logs meta.(meta_run) 0).(page_records))
    (log_list_runs logs module).

Lemma matching_is_find module needle logs :
  matching module needle logs = List.find (fun r => contains needle r.(message)) (records logs module).
Proof.
  unfold matching, records. induction (log_list_runs logs module) as [|meta metas IH]; [done|]. cbn [find_map fmap list_fmap].
  cbn [mjoin list_join]. set (f := fun r : LogRecord => contains needle r.(message)). fold f in IH.
  generalize ((log_read logs (meta_run meta) 0).(page_records)). intros page. rewrite IH.
  induction page as [|r page IHp]; [done|]. cbn. destruct (f r); [done|exact IHp].
Qed.

Section Readback.
Context (limits : LogRetentionLimits).
Context (Hbytes : 0 <= limits.(bytes_per_run)) (Hruns : 1 <= limits.(runs_retained)).

(** Every history a store keeps is of records that were appended to that run. *)
Lemma spec_store_from rs module run h :
  (run, h) ∈ spec_store limits rs module -> run.(run_module) = module /\ forall r, r ∈ h -> r ∈ rs /\ r.(rec_run) = run.
Proof.
  revert run h. induction rs as [|r0 rs IH] using rev_ind; intros run h; [by intros ?%elem_of_nil|].
  rewrite spec_store_snoc.
  assert (forall run h, (run, h) ∈ spec_store limits rs module ->
    run.(run_module) = module /\ forall r, r ∈ h -> r ∈ rs ++ [r0] /\ r.(rec_run) = run) as IH'.
  { intros run' h' [Hm Hr]%IH. split; [done|]. intros r [? ?]%Hr. set_solver. }
  destruct (decide _) as [<-|]; [|apply IH']. unfold spec_append. case_bool_decide as Hold.
  - intros Hin. apply extend_elem in Hin as [[_ Hin]|(-> & h0 & -> & Hin)]; [by apply IH'| |apply (filled_holds limits Hbytes Hruns)].
    apply IH' in Hin as [Hm Hr]. split; [done|]. intros r [?|Hr0]%elem_of_app; [auto|]. apply list_elem_of_singleton in Hr0 as ->. set_solver.
  - intros [Hin|Hin]%newest_in%elem_of_app; [by apply IH'|]. apply list_elem_of_singleton in Hin as [= -> ->].
    split; [done|]. intros r ->%list_elem_of_singleton. set_solver.
Qed.

Lemma numbered_snd start h : (numbered start h).*2 = h.
Proof. revert start. induction h as [|r h IH]; intros start; [done|]. cbn. by rewrite IH. Qed.

Lemma numbered_from start h e : e ∈ numbered start h -> start <= e.1.
Proof.
  revert start. induction h as [|r h IH]; intros start; [by intros ?%elem_of_nil|]. cbn. intros [->|Hin]%elem_of_cons; [done|].
  apply IH in Hin. lia.
Qed.

Lemma filter_all {A} (f : A -> bool) l : (forall x, x ∈ l -> f x = true) -> List.filter f l = l.
Proof.
  induction l as [|x l IH]; intros Hl; [done|]. cbn. rewrite (Hl x) by set_solver. f_equal. apply IH. set_solver.
Qed.

(** A module's records are the kept tails of its kept histories. *)
Lemma records_spec rs module :
  exists pages, records (filled limits rs) module = mjoin pages /\
    Forall2 (fun e page => exists k, longest_tail limits.(bytes_per_run) (numbered 0 e.2) k /\ page = k.*2)
      (spec_store limits rs module) pages.
Proof.
  eexists. split; [reflexivity|]. unfold log_list_runs.
  pose proof (filled_holds limits Hbytes Hruns rs module) as [Ho _ _ Hr _].
  assert (Forall (fun e => e.1.(run_module) = module) (spec_store limits rs module)) as Hm.
  { apply Forall_forall. intros [run h] Hin. by apply spec_store_from in Hin as [? _]. }
  destruct (log_modules (filled limits rs) !! module) as [entry|] eqn:Ee; [change (default ModuleRuns_new (Some entry)) with entry in *|cbn in Ho].
  - rewrite Ho. clear Ho. induction (spec_store limits rs module) as [|[run h] a IH]; [constructor|].
    apply Forall_cons in Hm as [Hrun Hm]. cbn [fst] in Hrun. destruct (Hr run h) as (ring & Hring & [_ _ _ Ht]); [set_solver|].
    rewrite fmap_cons. cbn [fst omap list_omap fmap option_fmap option_map]. rewrite Hring. cbn [option_map]. constructor; [|by apply IH; [set_solver|]].
    exists ring.(ring_records). split; [exact Ht|]. cbn [meta_run ring_meta]. unfold log_read. rewrite Hrun, Ee. cbn [mbind option_bind].
    rewrite Hring. cbn. f_equal. apply filter_all. intros e He. destruct Ht as [[pre Hpre] _ _ _].
    assert (e ∈ numbered 0 h) as Hn by (rewrite Hpre; set_solver). apply numbered_from in Hn. lia.
  - rewrite (fmap_nil_inv fst _ (eq_sym Ho)). constructor.
Qed.

(** What is read back was appended, to that module. *)
Lemma records_from rs module r : r ∈ records (filled limits rs) module -> r ∈ rs /\ r.(rec_run).(run_module) = module.
Proof.
  destruct (records_spec rs module) as (pages & -> & Hp). intros (page & Hr & Hin)%list_elem_of_join.
  apply list_elem_of_lookup in Hin as [i Hi]. destruct (Forall2_lookup_r _ _ _ _ _ Hp Hi) as ([run h] & Ha & k & [[pre Hpre] _ _ _] & ->).
  apply list_elem_of_lookup_2, spec_store_from in Ha as [Hm Hh]. cbn in Hpre.
  destruct (Hh r) as [? <-]; [|done]. rewrite <- (numbered_snd 0 h), Hpre, fmap_app. set_solver.
Qed.

Lemma extend_has run (r : LogRecord) a : run ∈ a.*1 -> exists h, (run, h ++ [r]) ∈ extend run r a.
Proof.
  induction a as [|[run' h'] a IH]; [by intros ?%elem_of_nil|]. cbn [extend]. destruct (decide (run' = run)) as [->|Hne].
  - intros _. exists h'. by left.
  - rewrite fmap_cons. intros [->|Hin]%elem_of_cons; [done|]. destruct (IH Hin) as [h Hh]. exists h. by right.
Qed.

(** The newest record of all is retained. *)
Lemma records_newest rs r : r ∈ records (filled limits (rs ++ [r])) r.(rec_run).(run_module).
Proof.
  destruct (records_spec (rs ++ [r]) r.(rec_run).(run_module)) as (pages & -> & Hp).
  assert (exists h, (r.(rec_run), h ++ [r]) ∈ spec_store limits (rs ++ [r]) r.(rec_run).(run_module)) as (h & Ha).
  { rewrite spec_store_snoc, decide_True by done. unfold spec_append. case_bool_decide as Hold.
    - by apply extend_has.
    - exists []. destruct (newest_snoc limits.(runs_retained) (spec_store limits rs (run_module (rec_run r))) (r.(rec_run), [r]) Hruns) as [l ->].
      apply elem_of_app. right. by left. }
  apply list_elem_of_lookup in Ha as [i Hi]. destruct (Forall2_lookup_l _ _ _ _ _ Hp Hi) as (page & Hpage & k & [[pre Hpre] Hnew _ _] & ->).
  apply list_elem_of_join. exists k.*2. split; [|by eapply list_elem_of_lookup_2].
  cbn [snd] in *. destruct (exists_last (l := k)) as (k' & [n x] & ->).
  { apply Hnew. rewrite numbered_app. by destruct (numbered 0 h). }
  rewrite numbered_app, app_assoc in Hpre. cbn in Hpre. apply app_inj_tail in Hpre as [_ [= _ ->]]. rewrite fmap_app. apply elem_of_app. right. by left.
Qed.

(** ** Waiting for a record *)

(** Where [wait_for_log] stands: before its [Notified] is enabled, before the read,
    awaiting, answered, or past its bound. The flag tells that a notification arrived
    since it was enabled. *)
Inductive WaitAt : Type :=
| WaitEnable
| WaitRead (woken : bool)
| WaitAwait (woken : bool)
| WaitFound (r : LogRecord)
| WaitTimedOut.

(** The records appended so far, the wait, and the appends that have not notified yet. *)
Record Waiting : Type := mkWaiting { wt_appended : list LogRecord; wt_at : WaitAt; wt_unnotified : nat }.

(** [notify_waiters] as the wait sees it. *)
Definition wait_notified (at' : WaitAt) : WaitAt :=
  match at' with
  | WaitRead _ => WaitRead true
  | WaitAwait _ => WaitAwait true
  | WaitEnable | WaitFound _ | WaitTimedOut => at'
  end.

Definition waiting (at' : WaitAt) : Prop :=
  match at' with WaitEnable | WaitRead _ | WaitAwait _ => True | WaitFound _ | WaitTimedOut => False end.

Context (module needle : text).

(** The read, over the retained records. *)
Definition wait_read (woken : bool) (s : Waiting) : Waiting :=
  mkWaiting s.(wt_appended)
    (match matching module needle (filled limits s.(wt_appended)) with Some r => WaitFound r | None => WaitAwait woken end)
    s.(wt_unnotified).

(** The steps of the wait, among those of the tasks that log. *)
Inductive wait_own : Waiting -> Waiting -> Prop :=
| wo_enable rs k : wait_own (mkWaiting rs WaitEnable k) (mkWaiting rs (WaitRead false) k)
| wo_read s woken : s.(wt_at) = WaitRead woken -> wait_own s (wait_read woken s)
| wo_wake rs k : wait_own (mkWaiting rs (WaitAwait true) k) (mkWaiting rs WaitEnable k).

Inductive wait_step : Waiting -> Waiting -> Prop :=
| ws_own s s' : wait_own s s' -> wait_step s s'
| ws_append rs at' k r : wait_step (mkWaiting rs at' k) (mkWaiting (rs ++ [r]) at' (S k))
| ws_notify rs at' k : wait_step (mkWaiting rs at' (S k)) (mkWaiting rs (wait_notified at') k)
| ws_timeout rs at' k : waiting at' -> wait_step (mkWaiting rs at' k) (mkWaiting rs WaitTimedOut k).

(** While it awaits un-notified, nothing retained matches, or an append still owes its
    notification; and what it answers was logged by the module and contains the needle. *)
Definition wait_ok (s : Waiting) : Prop :=
  match s.(wt_at) with
  | WaitAwait false => matching module needle (filled limits s.(wt_appended)) = None \/ (0 < s.(wt_unnotified))%nat
  | WaitFound r => r ∈ s.(wt_appended) /\ r.(rec_run).(run_module) = module /\ contains needle r.(message) = true
  | _ => True
  end.

Lemma matching_Some rs r :
  matching module needle (filled limits rs) = Some r ->
  r ∈ rs /\ r.(rec_run).(run_module) = module /\ contains needle r.(message) = true.
Proof.
  rewrite matching_is_find. intros [Hin Hc]%find_some. apply list_elem_of_In in Hin. by apply records_from in Hin as [? ?].
Qed.

Lemma matching_newest rs r :
  r.(rec_run).(run_module) = module -> contains needle r.(message) = true ->
  is_Some (matching module needle (filled limits (rs ++ [r]))).
Proof.
  intros Hm Hc. rewrite matching_is_find. destruct (List.find _ _) as [r'|] eqn:E; [by eexists|].
  assert (r ∈ records (filled limits (rs ++ [r])) module) as Hin by (rewrite <- Hm; apply records_newest).
  apply list_elem_of_In in Hin. pose proof (find_none _ _ E r Hin) as Hf. cbn in Hf. congruence.
Qed.

Lemma wait_step_ok s s' : wait_step s s' -> wait_ok s -> wait_ok s'.
Proof.
  unfold wait_ok. intros Hs Ho. destruct Hs as [s s' Hs|rs at' k r|rs at' k|]; [|destruct at' as [|woken|[]|r'|]..|done]; cbn in *; try done; try lia.
  - destruct Hs as [|s woken Hat|]; [done| |done]. cbn. destruct (matching _ _ _) as [r|] eqn:Em; [by apply matching_Some|].
    destruct woken; auto.
  - set_solver.
Qed.

(** A wait for a log record never sleeps on one, whatever is logged meanwhile: while it
    awaits, no retained record of the module contains the needle, or an append is about
    to wake it, or it is woken already; a record it answers was logged by that module and
    contains the needle; and it does not miss the newest: when the last record logged is
    such a one and its append has notified, the wait's own next steps find one. *)
Theorem wait_never_sleeps_on_a_record (s : Waiting) :
  rtc wait_step (mkWaiting [] WaitEnable 0) s ->
  (forall woken, s.(wt_at) = WaitAwait woken ->
     matching module needle (filled limits s.(wt_appended)) = None \/ (0 < s.(wt_unnotified))%nat \/ woken = true) /\
  (forall r, s.(wt_at) = WaitFound r -> r ∈ s.(wt_appended) /\ r.(rec_run).(run_module) = module /\ contains needle r.(message) = true) /\
  (forall rs r, s.(wt_appended) = rs ++ [r] -> r.(rec_run).(run_module) = module -> contains needle r.(message) = true ->
     s.(wt_unnotified) = 0%nat -> waiting s.(wt_at) ->
     exists found, rtc wait_own s (mkWaiting s.(wt_appended) (WaitFound found) 0)).
Proof.
  intros Hrun. assert (wait_ok s) as Hok.
  { revert s Hrun. apply (rtc_ind_r wait_ok); [done|]. eauto using wait_step_ok. }
  destruct s as [rs' at' k]. unfold wait_ok in Hok. cbn [wt_at wt_appended wt_unnotified] in *. split_and!.
  - intros [] ->; [auto|]. tauto.
  - by intros r ->.
  - intros rs r -> Hm Hc -> Hw. destruct (matching_newest rs r Hm Hc) as [found Hf].
    assert (forall woken, wait_own (mkWaiting (rs ++ [r]) (WaitRead woken) 0) (mkWaiting (rs ++ [r]) (WaitFound found) 0)) as Hread.
    { intros woken. pose proof (wo_read (mkWaiting (rs ++ [r]) (WaitRead woken) 0) woken eq_refl) as Hstep.
      unfold wait_read in Hstep. cbn [wt_appended wt_unnotified] in Hstep. by rewrite Hf in Hstep. }
    exists found. destruct at' as [|woken|[]| |]; try done.
    + eapply rtc_l; [apply wo_enable|]. by apply rtc_once.
    + by apply rtc_once.
    + eapply rtc_l; [apply wo_wake|]. eapply rtc_l; [apply wo_enable|]. by apply rtc_once.
    + destruct Hok; [congruence|lia].
Qed.
End Readback.

(** ** The root of a refusal *)

Section Root.
(** [downcast_ref::<E>] on an error of a chain. *)
Context {E : Type} (downcast : Cause -> option E).

(** The loop over a chain: a boxed [RuntimeError] goes on with its own cause. *)
Definition walk (nested : RuntimeError -> option E) : list Cause -> option E :=
  fix go chain :=
    match chain with
    | [] => None
    | c :: rest =>
        match downcast c with
        | Some err => Some err
        | None => match c with CRuntime e => nested e | _ => go rest end
        end
    end.

(** The loop from [cause]. *)
Fixpoint root_under (e : RuntimeError) : option E :=
  match e with
  | RContext _ source => root_under source
  | RBoot r => downcast (CBoot r)
  | RLoad r => downcast (CLoad r)
  | RLaunch r => downcast (CLaunch r)
  | RCapability v => downcast (CCapability v)
  | RDigest d => downcast (CDigest d)
  | RConfig _ => downcast (CForeign (chars_of "EngineConfigError"))
  | RPool p => downcast (CPool p)
  | RBackend _ source =>
      match downcast (CForeign (chars_of "BuildError")) with Some err => Some err | None => walk root_under source end
  | RAddOn source => walk root_under source
  | RExtension _ source =>
      match downcast (CForeign (chars_of "ExtensionError")) with Some err => Some err | None => walk root_under source end
  | REngine chain => walk root_under chain
  end.

(** [Refusal::root]. *)
Definition root (e : RuntimeError) : option E :=
  match downcast (CRuntime e) with Some err => Some err | None => root_under e end.

(** [Refusal::variant]: [None] is the panic of a failed assertion. *)
Definition variant (pred : E -> bool) (e : RuntimeError) : option RuntimeError :=
  match root e with Some err => if pred err then Some e else None | None => None end.

Lemma root_under_walks e : root_under e = walk root_under (cause e).
Proof.
  induction e; cbn [root_under cause]; try done; unfold walk at 1; try by destruct (downcast _).
Qed.

(** The errors the loop looks at, down a chain. *)
Inductive beneath : list Cause -> Cause -> Prop :=
| beneath_here c rest : beneath (c :: rest) c
| beneath_next c rest d : (forall e, c <> CRuntime e) -> beneath rest d -> beneath (c :: rest) d
| beneath_nested e rest d : beneath (cause e) d -> beneath (CRuntime e :: rest) d.

Lemma walk_misses chain c : beneath chain c -> walk root_under chain = None -> downcast c = None.
Proof.
  induction 1 as [c rest|c rest d Hc _ IH|e rest d _ IH]; cbn [walk].
  - by destruct (downcast c).
  - destruct (downcast c); [done|]. intros Hw. apply IH. destruct c as [e| | | | | | | |]; [by destruct (Hc e)|exact Hw..].
  - destruct (downcast (CRuntime e)); [done|]. rewrite root_under_walks. exact IH.
Qed.

Definition found (e : RuntimeError) : Prop := forall err, root_under e = Some err -> exists c, beneath (cause e) c /\ downcast c = Some err.

Lemma walk_sound chain err :
  Forall (fun c => match c with CRuntime e => found e | _ => True end) chain ->
  walk root_under chain = Some err -> exists c, beneath chain c /\ downcast c = Some err.
Proof.
  induction 1 as [|c rest Hc Hrest IH]; [done|]. unfold walk. fold (walk root_under).
  destruct (downcast c) as [err'|] eqn:Ec; [intros [= ->]; exists c; split; [apply beneath_here|done]|].
  destruct c as [e| | | | | | | |]; intros Hw; [destruct (Hc err Hw) as (d & Hd & Hx)|destruct (IH Hw) as (d & Hd & Hx)..];
    exists d; (split; [by constructor|done]).
Qed.

Lemma root_under_sound : forall e, found e.
Proof.
  fix IH 1. intros e.
  assert (forall chain, Forall (fun c => match c with CRuntime e => found e | _ => True end) chain ->
    forall err, walk root_under chain = Some err -> exists c, beneath chain c /\ downcast c = Some err) as Hw by eauto using walk_sound.
  intros err. destruct e as [r|r|r|v|d|c|p|slot source|source|hook source|ctx source|chain]; rewrite root_under_walks; cbn [cause].
  11: { rewrite <- root_under_walks. apply IH. }
  all: apply Hw.
  all: try (repeat constructor; fail).
  all: try (apply Forall_cons; split; [exact I|]).
  - revert source. fix IHl 1. intros [|[] rest]; constructor; first [apply IH | exact I | apply IHl].
  - revert source. fix IHl 1. intros [|[] rest]; constructor; first [apply IH | exact I | apply IHl].
  - revert source. fix IHl 1. intros [|[] rest]; constructor; first [apply IH | exact I | apply IHl].
  - revert chain. fix IHl 1. intros [|[] rest]; constructor; first [apply IH | exact I | apply IHl].
Qed.

(** The walk to the typed root of a refusal ends, and finds exactly what lies on it: an
    answer is an error on the way down, through context frames and through the refusals a
    hook boxed; and when there is none, no error on the way is of that type. *)
Theorem root_finds_what_is_beneath (e : RuntimeError) :
  (forall err, root e = Some err -> exists c, (c = CRuntime e \/ beneath (cause e) c) /\ downcast c = Some err) /\
  (root e = None <-> downcast (CRuntime e) = None /\ forall c, beneath (cause e) c -> downcast c = None).
Proof.
  unfold root. destruct (downcast (CRuntime e)) as [err0|] eqn:E0.
  - split; [|by split; [|intros [? _]]]. intros err [= <-]. eauto.
  - split; [|split].
    + intros err (c & Hc & Hx)%root_under_sound. eauto.
    + intros Hn. split; [done|]. intros c Hc. rewrite root_under_walks in Hn. by eapply walk_misses.
    + intros [_ Hnone]. destruct (root_under e) as [err|] eqn:Er; [|done].
      apply root_under_sound in Er as (c & Hc & Hx). rewrite (Hnone c Hc) in Hx. done.
Qed.

(** An assertion on a variant passes exactly when the first error of the type on the way
    down is one it accepts, and hands the refusal on unchanged. *)
Theorem variant_asserts_the_root (pred : E -> bool) (e e' : RuntimeError) :
  variant pred e = Some e' <->
  e' = e /\ exists err c, root e = Some err /\ pred err = true /\ (c = CRuntime e \/ beneath (cause e) c) /\ downcast c = Some err.
Proof.
  unfold variant. split.
  - destruct (root e) as [err|] eqn:Er; [|done]. destruct (pred err) eqn:Ep; [|done]. intros [= <-]. split; [done|].
    destruct (proj1 (root_finds_what_is_beneath e) err Er) as (c & Hc & Hx). exists err, c. auto.
  - intros (-> & err & c & -> & -> & _). done.
Qed.
End Root.

(** ** Concrete runs *)

Module ScenarioDemo.
Definition join (dir f : text) : text := dir ++ [47] ++ f.

Lemma join_inj dir f f' : join dir f = join dir f' -> f = f'.
Proof. intros He. by apply app_inv_head, app_inv_head in He. Qed.

Definition entries : list Entry := [entry_new (Inline (chars_of "a")); entry_new Beside; entry_digest [7] (entry_new (Inline (chars_of "b")))].

Definition builder (limits : ModuleLimits) : TestRuntimeBuilder (U := text) (N := unit) (D := unit) (S := Faulty (T := Demo.table)) (K := Z) :=
  mkHarness (chars_of "keeper.wasm") [] [] limits (PolicySection_default, []) tt [1] PlanDemo.demo_store (mkClocks 5 5) false.

Definition unresolved : ModuleLimits :=
  mkRawLimits true false false (mkHttpSection None None None None None []) None None None None None None None None None.

Notation Harness := (TestRuntimeBuilder (U := text) (N := unit) (D := unit) (S := Faulty (T := Demo.table)) (K := Z)).

(** The two terminals, over a file system with one component and these triggers. *)
Definition booting (triggers : list Trigger) (b : Harness) :=
  boot_supervisor (B := unit) (W := Script.Script) (fun _ => true) (fun _ => Some (chars_of ".")) join
    (fun _ _ => Some (demo_manifest triggers)) (fun _ => Some [1; 2]) id (fun _ => Some []) (fun _ _ _ => Some true)
    (fun _ => PIo) [] (fun _ => []) (Ok tt) (Ok tt) (fun _ => tt) (Script.mkScript 0 [] [] None) 0 (chars_of "u")
    (chars_of "/tmp/h") b.

Definition launching (triggers : list Trigger) (b : Harness) :=
  harness_launch (F := list (list Z)) (B := unit) (W := Script.Script) (fun _ => true) (fun _ => Some (chars_of ".")) join
    (fun _ _ => Some (demo_manifest triggers)) (fun _ => Some [1; 2]) id (fun _ => Some []) (fun _ _ _ => Some true)
    (fun _ => PIo) [] (fun _ => []) Some (Ok tt) (Ok tt)
    [] (fun f a => a :: f) (fun f a => a :: f) CursorDemo.digest32 CursorDemo.hex0x CursorDemo.hex0x CursorDemo.hex0x
    (fun _ => tt) (Script.mkScript 0 [] [] None) 0 (chars_of "u") (chars_of "/tmp/h") b.

(** Whether the harness boots, and what it refuses otherwise. *)
Definition outcome (triggers : list Trigger) (b : Harness) :=
  match booting triggers b with
  | None => None
  | Some ((Ok booted, _), _) => Some (Ok (m_name <$> booted.(bt_supervisor).(modules)))
  | Some ((Err e, _), _) => Some (Err (error_kind e))
  end.

Example outcomes :
  outcome [TBlock 1] (builder ModuleLimits_default) = Some (Ok [chars_of "keeper"]) /\
  outcome [TBlock 9] (builder ModuleLimits_default) = Some (Err (Some (chars_of "unconfigured_chain"))) /\
  outcome [TBlock 1] (builder unresolved) = None.
Proof. split_and!; vm_compute; reflexivity. Qed.

Definition usual : Harness := builder ModuleLimits_default.

Lemma resolved : exists config written,
  harness_config join (chars_of "u") (chars_of "/tmp/h") usual = Ok (config, written).
Proof. by eexists _, _. Qed.
End ScenarioDemo.

Lemma rows_stand_for_their_entries_witness :
  let (ms, written) := rows ScenarioDemo.join ScenarioDemo.entries (chars_of "/t") (chars_of "c.wasm") in
  exists m path, ms !! 2%nat = Some m /\ m.(e_manifest) = Some path /\ m.(e_digest) = Some [7] /\
    forall toml, (path, toml) ∈ written <-> toml = chars_of "b".
Proof.
  pose proof (rows_stand_for_their_entries ScenarioDemo.join ScenarioDemo.join_inj ScenarioDemo.entries (chars_of "/t") (chars_of "c.wasm")
    ltac:(by vm_compute)) as Hr.
  destruct (rows _ _ _ _) as [ms written]. destruct Hr as (_ & Hr & _).
  destruct (Hr 2%nat _ eq_refl) as (m & Hm & _ & _ & Hd & path & Hp & Hw). by exists m, path.
Defined.

Lemma harness_terminals_agree_witness :
  exists config written booting, harness_config ScenarioDemo.join (chars_of "u") (chars_of "/tmp/h") ScenarioDemo.usual = Ok (config, written) /\
    ScenarioDemo.booting [TBlock 1] ScenarioDemo.usual = Some (booting, written) /\ agree config booting (ScenarioDemo.launching [TBlock 1] ScenarioDemo.usual).1.
Proof.
  pose proof (harness_terminals_agree (F := list (list Z)) (B := unit) (W := Script.Script) (fun _ => true) (fun _ => Some (chars_of "."))
    ScenarioDemo.join (fun _ _ => Some (demo_manifest [TBlock 1])) (fun _ => Some [1; 2]) id (fun _ => Some []) (fun _ _ _ => Some true)
    (fun _ => PIo) [] (fun _ => []) Some (Ok tt) (Ok tt)
    [] (fun f a => a :: f) (fun f a => a :: f) CursorDemo.digest32 CursorDemo.hex0x CursorDemo.hex0x CursorDemo.hex0x
    (fun _ => tt) (Script.mkScript 0 [] [] None) 0 (chars_of "u") (chars_of "/tmp/h") ScenarioDemo.usual eq_refl) as Ha.
  destruct ScenarioDemo.resolved as (config & written & Hc). rewrite Hc in Ha. destruct Ha as (_ & booting & Hb & Hagree).
  exists config, written, booting. split; [exact Hc|]. split; [exact Hb|exact Hagree].
Defined.

Module WaitDemo.
Definition limits : LogRetentionLimits := mkRetention 100 2.
Definition module : text := chars_of "m".
Definition needle : text := chars_of "tick".
Definition tick : LogRecord := record_of 1 0 (chars_of "tick 7").

(** Nothing is there at the first read; a record lands, and its append notifies. *)
Lemma parked : rtc (wait_step limits module needle) (mkWaiting [] WaitEnable 0) (mkWaiting [tick] (WaitAwait true) 0).
Proof.
  eapply rtc_l; [apply ws_own, wo_enable|]. eapply rtc_l; [apply ws_own, (wo_read _ _ _ _ false); reflexivity|].
  replace (wait_read _ _ _ _ _) with (mkWaiting [] (WaitAwait false) 0) by by vm_compute.
  eapply rtc_l; [apply (ws_append _ _ _ _ _ _ tick)|]. apply rtc_once. apply (ws_notify _ _ _ _ (WaitAwait false)).
Qed.
End WaitDemo.

Lemma wait_never_sleeps_on_a_record_witness :
  exists found, rtc (wait_own WaitDemo.limits WaitDemo.module WaitDemo.needle)
    (mkWaiting [WaitDemo.tick] (WaitAwait true) 0) (mkWaiting [WaitDemo.tick] (WaitFound found) 0).
Proof.
  destruct (wait_never_sleeps_on_a_record WaitDemo.limits ltac:(by vm_compute) ltac:(by vm_compute) WaitDemo.module WaitDemo.needle
    _ WaitDemo.parked) as (_ & _ & Hfound).
  apply (Hfound [] WaitDemo.tick); [reflexivity|by vm_compute|by vm_compute|reflexivity|exact I].
Defined.
