(* ===== verification/Guards.v ===== *)
(** * Guards: the walk over the source tree

    crates/nexum-runtime-guards/src/lib.rs: the workspace root above a crate, and the
    source roots of every crate below a directory. A file tree is a finite tree of named
    entries; a path is the list of its names.

    The theorems: the walk lists the source directory of exactly the crates that can be
    reached without entering a source, build or hidden directory, each once; the root it
    starts from is the nearest workspace. *)

From stdpp Require Import prelude list strings.
From Stdlib Require Import ZArith Lia.
From S2P Require Import Prelude.

Local Open Scope Z_scope.

#[local] Arguments chars_of : simpl never.

(** ** The file tree *)

Inductive Tree : Type :=
| TFile (content : text)
| TDir (entries : list (text * Tree)).

Abbreviation Path := (list text).

Definition child (name : text) (es : list (text * Tree)) : option Tree :=
  snd <$> List.find (fun e => bool_decide (e.1 = name)) es.

Definition is_dir (t : Tree) : bool := match t with TDir _ => true | TFile _ => false end.
Definition is_file (t : Tree) : bool := match t with TFile _ => true | TDir _ => false end.
Definition has (p : Tree -> bool) (name : text) (es : list (text * Tree)) : bool :=
  match child name es with Some t => p t | None => false end.

Definition SRC : text := chars_of "src".
Definition CARGO_TOML : text := chars_of "Cargo.toml".

(** ** The workspace root *)

Section Root.
(** [read_to_string], which may fail. *)
Context (read_to_string : Path -> option text).

(** [Path::ancestors], from the path itself up. *)
Fixpoint ancestors (rev : Path) : list Path :=
  match rev with [] => [[]] | _ :: up => reverse rev :: ancestors up end.

Definition declares_workspace (dir : Path) : bool :=
  match read_to_string (dir ++ [CARGO_TOML]) with Some text => contains (chars_of "[workspace]") text | None => false end.

Definition workspace_root (manifest : Path) : Path :=
  default manifest (List.find declares_workspace (ancestors (reverse manifest))).

Lemma ancestors_spec rev dir :
  dir ∈ ancestors rev <-> exists below, reverse rev = dir ++ below.
Proof.
  revert dir. induction rev as [|name rev IH]; intros dir; cbn [ancestors].
  - rewrite list_elem_of_singleton. split; [intros ->; by exists []|]. intros (below & E). destruct dir; [done|]. discriminate E.
  - rewrite elem_of_cons, IH, reverse_cons. split.
    + intros [->|(below & E)]; [by exists []; rewrite app_nil_r|]. exists (below ++ [name]). by rewrite E, (assoc_L (++)).
    + intros (below & E). destruct below as [|x below _] using rev_ind; [left; by rewrite app_nil_r in E|].
      right. rewrite (assoc_L (++)) in E. apply app_inj_tail in E as [E _]. by exists below.
Qed.

Lemma find_nearest (f : Path -> bool) rev dir :
  List.find f (ancestors rev) = Some dir ->
  f dir = true /\ exists below, reverse rev = dir ++ below /\ forall mid rest, below = mid ++ rest -> mid <> [] -> f (dir ++ mid) = false.
Proof.
  induction rev as [|name rev IH]; cbn [ancestors List.find].
  - destruct (f []) eqn:E; [|done]. intros [= <-]. split; [done|]. exists []. split; [done|]. by intros [] ? [=] ?.
  - destruct (f (reverse (name :: rev))) eqn:E.
    + intros [= <-]. split; [done|]. exists []. split; [by rewrite app_nil_r|]. by intros [] ? [=] ?.
    + intros Hf. destruct (IH Hf) as (Hd & below & Hb & Hn). split; [done|]. exists (below ++ [name]).
      split; [by rewrite reverse_cons, Hb, (assoc_L (++))|]. intros mid rest Hm Hne.
      destruct rest as [|x rest _] using rev_ind.
      * rewrite app_nil_r in Hm. subst mid. by rewrite (assoc_L (++)), <- Hb, <- reverse_cons.
      * rewrite (assoc_L (++)) in Hm. apply app_inj_tail in Hm as [Hm _]. by apply (Hn mid rest).
Qed.

(** The root is an ancestor of the crate; when any ancestor declares a workspace, the
    root does, and no directory between it and the crate does: a checkout nested in an
    unrelated workspace is walked from its own. *)
Theorem workspace_root_is_nearest (manifest : Path) :
  (exists below, manifest = workspace_root manifest ++ below) /\
  (forall dir below, manifest = dir ++ below -> declares_workspace dir = true ->
     declares_workspace (workspace_root manifest) = true /\
     exists between, workspace_root manifest = dir ++ between).
Proof.
  unfold workspace_root. pose proof (find_nearest declares_workspace (reverse manifest)) as Hn. rewrite reverse_involutive in Hn.
  destruct (List.find _ _) as [root|] eqn:E; cbn [default].
  - destruct (Hn root eq_refl) as (Hd & below0 & Hb & Hmid). split; [by eauto|]. intros dir below Hm Hw. split; [done|].
    destruct (app_eq_inv _ _ _ _ (eq_trans (eq_sym Hb) Hm)) as [(k & -> & _)|(k & -> & Hk)]; [by eauto|].
    destruct k as [|x k]; [exists []; by rewrite !app_nil_r|]. rewrite (Hmid (x :: k) below Hk) in Hw; [done|discriminate].
  - split; [exists []; by rewrite app_nil_r|]. intros dir below Hm Hw. exfalso.
    assert (dir ∈ ancestors (reverse manifest)) as Hin by (apply ancestors_spec; rewrite reverse_involutive; eauto).
    apply list_elem_of_In in Hin. pose proof (find_none _ _ E dir Hin). congruence.
Qed.

(** *** The locators of the tests

    crates/nexum-runtime-testing/src/wasm.rs: the topmost crate, the target directory the
    running test sits under, and the guest artifact below it. *)

(** What the file system has. *)
Context (is_file_at is_dir_at exists_at : Path -> bool).

Definition has_cargo_toml (dir : Path) : bool := is_file_at (dir ++ [CARGO_TOML]).

Definition topmost_root (manifest : Path) : Path :=
  default manifest (last (List.filter has_cargo_toml (ancestors (reverse manifest)))).

Definition WASM_TARGET : text := chars_of "wasm32-wasip2".

Definition target_dir (manifest : Path) (current_exe : option Path) : Path :=
  let fallback := topmost_root manifest ++ [chars_of "target"] in
  match current_exe with
  | None => fallback
  | Some exe => default fallback (List.find (fun dir => is_dir_at (dir ++ [WASM_TARGET])) (ancestors (reverse exe)))
  end.

(** [module.replace('-', "_")]. *)
Definition artifact_of (module : text) : text := (fun c => if c =? 45 then 95 else c) <$> module.

Definition module_wasm (manifest : Path) (current_exe : option Path) (module : text) : Path :=
  target_dir manifest current_exe ++ [WASM_TARGET; chars_of "release"; artifact_of module ++ chars_of ".wasm"].

Inductive Located : Type := Found (wasm : Path) | Skipped | Panics.

Definition locate (wasm : Path) (allow_missing : bool) : Located :=
  if exists_at wasm then Found wasm else if allow_missing then Skipped else Panics.

(** [allow_missing] is whether the environment sets [ALLOW_MISSING_WASM]. *)
Definition module_wasm_or_skip (manifest : Path) (current_exe : option Path) (allow_missing : bool) (module : text) : Located :=
  locate (module_wasm manifest current_exe module) allow_missing.

(** A file that reads is a file. *)
Context (readable_is_file : forall path, is_Some (read_to_string path) -> is_file_at path = true).

Lemma declares_has_cargo dir : declares_workspace dir = true -> has_cargo_toml dir = true.
Proof. unfold declares_workspace, has_cargo_toml. intros Hd. apply readable_is_file. destruct (read_to_string _); [by eexists|done]. Qed.

(** Going up, the last that satisfies a predicate is above every other. *)
Lemma last_topmost (f : Path -> bool) rev dir :
  dir ∈ ancestors rev -> f dir = true ->
  exists top between, last (List.filter f (ancestors rev)) = Some top /\ dir = top ++ between.
Proof.
  revert dir. induction rev as [|name rev IH]; intros dir Hin Hf.
  - apply list_elem_of_singleton in Hin as ->. cbn. rewrite Hf. by exists [], [].
  - cbn [ancestors] in Hin |- *. cbn [List.filter]. apply elem_of_cons in Hin as [->|Hin].
    + rewrite Hf. destruct (List.filter f (ancestors rev)) as [|top tops] eqn:E.
      * exists (reverse (name :: rev)), []. by rewrite app_nil_r.
      * assert (top ∈ ancestors rev /\ f top = true) as [Ht Hft].
        { assert (top ∈ List.filter f (ancestors rev)) as Hin by (rewrite E; by left).
          by apply list_elem_of_In, filter_In in Hin as [?%list_elem_of_In ?]. }
        destruct (IH top Ht Hft) as (top' & between & Hl & ->). rewrite last_cons, Hl.
        apply ancestors_spec in Ht as (below & Hb). exists top', (between ++ below ++ [name]).
        split; [done|]. rewrite reverse_cons, Hb. by rewrite <- !(assoc_L (++)).
    + destruct (IH dir Hin Hf) as (top & between & Hl & ->). exists top, between. split; [|done].
      destruct (f (reverse (name :: rev))); [|done]. by rewrite last_cons, Hl.
Qed.

(** The root the tests locate artifacts under is at or above the root the guards walk;
    the two part when a checkout lies below another crate, and are the same when the
    topmost crate is the only one above the test that declares a workspace. *)
Theorem topmost_root_is_above (manifest : Path) :
  (exists between, workspace_root manifest = topmost_root manifest ++ between) /\
  (declares_workspace (topmost_root manifest) = true ->
   (forall dir below, manifest = dir ++ below -> declares_workspace dir = true -> dir = topmost_root manifest) ->
   workspace_root manifest = topmost_root manifest).
Proof.
  destruct (workspace_root_is_nearest manifest) as [(below & Hb) Hnear]. split.
  - destruct (declares_workspace (workspace_root manifest)) eqn:Ed.
    + assert (workspace_root manifest ∈ ancestors (reverse manifest)) as Hin by (apply ancestors_spec; rewrite reverse_involutive; eauto).
      destruct (last_topmost has_cargo_toml _ _ Hin (declares_has_cargo _ Ed)) as (top & between & Hl & He).
      exists between. unfold topmost_root. by rewrite Hl.
    + assert (workspace_root manifest = manifest) as ->.
      { revert Ed. unfold workspace_root. destruct (List.find _ _) as [r|] eqn:Ef; [|done]. apply find_some in Ef as [_ Hr]. cbn. congruence. }
      unfold topmost_root. destruct (last _) as [top|] eqn:El; cbn; [|exists []; by rewrite app_nil_r].
      apply last_Some in El as [l El]. assert (top ∈ ancestors (reverse manifest)) as Hin.
      { assert (top ∈ List.filter has_cargo_toml (ancestors (reverse manifest))) as Hin by (rewrite El; set_solver).
        by apply list_elem_of_In, filter_In in Hin as [?%list_elem_of_In _]. }
      apply ancestors_spec in Hin as (between & Hb'). rewrite reverse_involutive in Hb'. eauto.
  - intros Hd Hone. apply (Hone _ below Hb). assert (exists below', manifest = topmost_root manifest ++ below') as (below' & Hm).
    { unfold topmost_root. destruct (last _) as [top|] eqn:El; cbn; [|exists []; by rewrite app_nil_r].
      apply last_Some in El as [l El]. assert (top ∈ List.filter has_cargo_toml (ancestors (reverse manifest))) as Hin by (rewrite El; set_solver).
      apply list_elem_of_In, filter_In in Hin as [Hin%list_elem_of_In _]. apply ancestors_spec in Hin as (between & Hb').
      rewrite reverse_involutive in Hb'. eauto. }
    by apply (Hnear _ _ Hm).
Qed.
End Root.

(** ** The walk *)

(** The directories it does not enter. *)
Definition skipped (name : text) : bool :=
  bool_decide (name = SRC) || bool_decide (name = chars_of "target") || starts_with [46] name.

Definition is_crate (es : list (text * Tree)) : bool := has is_file CARGO_TOML es && has is_dir SRC es.

Fixpoint collect (dir : Path) (t : Tree) : list Path :=
  match t with
  | TFile _ => []
  | TDir es =>
      (if is_crate es then [dir ++ [SRC]] else []) ++
      flat_map (fun e => if negb (is_dir e.2) then [] else if skipped e.1 then [] else collect (dir ++ [e.1]) e.2) es
  end.

(** The walk refuses an empty result. *)
Definition crate_source_roots (root : Path) (t : Tree) : option (list Path) :=
  match collect root t with [] => None | roots => Some roots end.

(** A crate at the end of a path the walk may take. *)
Inductive crate_at : Tree -> Path -> Prop :=
| crate_here es : is_crate es = true -> crate_at (TDir es) []
| crate_below es name t rel : (name, t) ∈ es -> skipped name = false -> crate_at t rel -> crate_at (TDir es) (name :: rel).

(** No directory holds two entries of one name. *)
Inductive tree_ok : Tree -> Prop :=
| ok_file content : tree_ok (TFile content)
| ok_dir es : NoDup es.*1 -> Forall (fun e => tree_ok e.2) es -> tree_ok (TDir es).

Lemma tree_induction (Q : Tree -> Prop) :
  (forall content, Q (TFile content)) -> (forall es, Forall (fun e => Q e.2) es -> Q (TDir es)) -> forall t, Q t.
Proof.
  intros Hf Hd. fix IH 1. intros [content|es]; [apply Hf|]. apply Hd. revert es. fix IHl 1. intros [|[name t] es]; constructor; [apply IH|apply IHl].
Qed.

(** The part of the walk below one entry. *)
Definition below (dir : Path) (e : text * Tree) : list Path :=
  if negb (is_dir e.2) then [] else if skipped e.1 then [] else collect (dir ++ [e.1]) e.2.

Lemma elem_of_flat_map {A B} (f : A -> list B) l y : y ∈ flat_map f l <-> exists x, x ∈ l /\ y ∈ f x.
Proof. rewrite list_elem_of_In, in_flat_map. by setoid_rewrite list_elem_of_In. Qed.

Lemma collect_spec t dir p : p ∈ collect dir t <-> exists rel, crate_at t rel /\ p = dir ++ rel ++ [SRC].
Proof.
  revert dir p. induction t as [content|es IH] using tree_induction; intros dir p; cbn [collect].
  - split; [by intros ?%elem_of_nil|]. intros (rel & Hc & _). inversion Hc.
  - change (flat_map _ es) with (flat_map (below dir) es). rewrite elem_of_app, elem_of_flat_map. split.
    + intros [Hh|([name t] & He & Hp)].
      * destruct (is_crate es) eqn:Ec; [|by apply elem_of_nil in Hh]. exists []. split; [by constructor|].
        by apply list_elem_of_singleton in Hh as ->.
      * unfold below in Hp. cbn in Hp. destruct (is_dir t); [|by apply elem_of_nil in Hp]. cbn in Hp.
        destruct (skipped name) eqn:Es; [by apply elem_of_nil in Hp|].
        apply (proj1 (Forall_forall _ _) IH _ He) in Hp as (rel & Hc & ->). exists (name :: rel).
        split; [by econstructor|]. by rewrite <- (assoc_L (++)).
    + intros (rel & Hc & ->). inversion Hc as [? Hcr|? name t rel' He Hs Hc']; subst.
      * left. rewrite Hcr. cbn. by left.
      * right. exists (name, t). split; [done|]. unfold below. cbn.
        assert (is_dir t = true) as -> by (by destruct Hc'). rewrite Hs. cbn.
        apply (proj1 (Forall_forall _ _) IH _ He). exists rel'. split; [done|]. by rewrite <- (assoc_L (++)).
Qed.

Lemma below_prefix dir e p : p ∈ below dir e -> skipped e.1 = false /\ exists rest, p = dir ++ e.1 :: rest.
Proof.
  unfold below. destruct (is_dir e.2); [|by intros ?%elem_of_nil]. cbn. destruct (skipped e.1); [by intros ?%elem_of_nil|].
  intros (rel & _ & ->)%collect_spec. split; [done|]. exists (rel ++ [SRC]). by rewrite <- (assoc_L (++)).
Qed.

Lemma below_NoDup dir es :
  NoDup es.*1 -> Forall (fun e => NoDup (below dir e)) es -> NoDup (flat_map (below dir) es).
Proof.
  induction es as [|e es IH]; [constructor|]. rewrite fmap_cons. intros [Hni Hnd]%NoDup_cons [He Hes]%Forall_cons. cbn [flat_map].
  apply NoDup_app. split_and!; [done| |by apply IH]. intros p Hp Hp'. apply elem_of_flat_map in Hp' as (e' & Hin & Hp').
  apply below_prefix in Hp as (_ & rest & ->). apply below_prefix in Hp' as (_ & rest' & E).
  apply app_inv_head in E as [= Heq _]. apply Hni. rewrite Heq. by apply list_elem_of_fmap_2.
Qed.

Lemma collect_NoDup t dir : tree_ok t -> NoDup (collect dir t).
Proof.
  revert dir. induction t as [content|es IH] using tree_induction; intros dir Hok; [constructor|].
  inversion Hok as [|? Hnd Hes]; subst. cbn [collect]. change (flat_map _ es) with (flat_map (below dir) es).
  apply NoDup_app. split_and!.
  - destruct (is_crate es); [apply NoDup_singleton|constructor].
  - intros p Hp Hp'. destruct (is_crate es); [|by apply elem_of_nil in Hp]. apply list_elem_of_singleton in Hp as ->.
    apply elem_of_flat_map in Hp' as (e & _ & Hp'). apply below_prefix in Hp' as (Hs & rest & E).
    apply app_inv_head in E as [= Heq _]. rewrite <- Heq in Hs. discriminate Hs.
  - apply below_NoDup; [done|]. apply Forall_forall. intros e He. unfold below. destruct (is_dir e.2); [|constructor].
    cbn. destruct (skipped e.1); [constructor|]. apply (proj1 (Forall_forall _ _) IH e He), (proj1 (Forall_forall _ _) Hes e He).
Qed.

(** The walk ends on every tree and answers the source directory of every crate that can
    be reached without entering a source, build or hidden directory, of nothing else and
    of none twice; it refuses exactly when there is none. *)
Theorem walk_finds_every_crate (root : Path) (t : Tree) :
  tree_ok t ->
  match crate_source_roots root t with
  | Some roots => NoDup roots /\ forall p, p ∈ roots <-> exists rel, crate_at t rel /\ p = root ++ rel ++ [SRC]
  | None => forall rel, ~ crate_at t rel
  end.
Proof.
  intros Hok. unfold crate_source_roots. pose proof (collect_NoDup t root Hok) as Hnd. pose proof (collect_spec t root) as Hs.
  destruct (collect root t) as [|p roots]; [|by split]. intros rel Hc.
  assert (root ++ rel ++ [SRC] ∈ []) as Hin by (apply Hs; eauto). by apply elem_of_nil in Hin.
Qed.

(** ** A small tree *)

Module GuardDemo.
Definition crate (inner : list (text * Tree)) : Tree := TDir ([(CARGO_TOML, TFile []); (SRC, TDir [])] ++ inner).
Definition repo : Tree :=
  TDir [(CARGO_TOML, TFile (chars_of "[workspace]")); (chars_of "crates", TDir [(chars_of "a", crate []); (chars_of "docs", TDir [])]);
        (chars_of "target", TDir [(chars_of "b", crate [])]); (chars_of ".git", crate []); (chars_of "m", crate [(chars_of "n", crate [])])].

Lemma repo_ok : tree_ok repo.
Proof.
  repeat first [apply ok_file | apply ok_dir | apply Forall_cons; split; cbn [snd] | apply Forall_nil_2]; apply (bool_decide_unpack _); vm_compute; exact I.
Qed.

Example walked :
  crate_source_roots [] repo =
  Some [[chars_of "crates"; chars_of "a"; SRC]; [chars_of "m"; SRC]; [chars_of "m"; chars_of "n"; SRC]].
Proof. vm_compute. reflexivity. Qed.
End GuardDemo.

Lemma walk_finds_every_crate_witness :
  exists roots, crate_source_roots [] GuardDemo.repo = Some roots /\ NoDup roots /\
    forall p, p ∈ roots <-> exists rel, crate_at GuardDemo.repo rel /\ p = [] ++ rel ++ [SRC].
Proof.
  pose proof (walk_finds_every_crate [] GuardDemo.repo GuardDemo.repo_ok) as Hw. rewrite GuardDemo.walked in Hw |- *.
  eexists. split; [reflexivity|]. exact Hw.
Defined.
