(* ===== verification/Signal.v ===== *)
(** * Signal: awaiting shutdown

    crates/nexum-tasks/src/shutdown.rs: the latched shutdown signal, a [watch] channel of
    a flag, and the receive side a task awaits it on. The channel is tokio's: a value, a
    version every send raises, and a count of senders; a receiver remembers the version
    it has seen, [changed] is ready once there is a newer one, and answers an error when
    no sender is left.

    The theorem: in every interleaving with fires, clones and drops, awaiting shutdown
    resolves exactly when it was fired or nobody is left to fire it, also for a receiver
    that subscribed after the fire or awaits again. *)

From stdpp Require Import prelude list.
From Stdlib Require Import ZArith Lia.
From S2P Require Import Prelude.

Local Open Scope nat_scope.

(** ** The channel *)

Record Watch : Type := mkWatch { value : bool; version : nat; senders : nat }.

(** [watch::channel(false)], with one sender. *)
Definition watch_new : Watch := mkWatch false 0 1.

(** [ShutdownSignal::fire], and the drop of a manager: [send_replace(true)]. *)
Definition fire (w : Watch) : Watch := mkWatch true (S w.(version)) w.(senders).

Definition clone_sender (w : Watch) : Watch := mkWatch w.(value) w.(version) (S w.(senders)).
Definition drop_sender (w : Watch) : Watch := mkWatch w.(value) w.(version) (pred w.(senders)).

(** The manager of a channel fires before its sender goes. *)
Definition drop_manager (w : Watch) : Watch := drop_sender (fire w).

(** ** The receiver *)

(** The version seen, and whether a [recv] is past its first look. *)
Record Shutdown : Type := mkShutdown { seen : nat; in_recv : bool }.

Definition subscribe (w : Watch) : Shutdown := mkShutdown w.(version) false.

Definition is_fired (w : Watch) : bool := w.(value).

(** [rx.changed()]: pending, a newer version, or no sender left. *)
Inductive Changed : Type := ChPending | ChOk | ChErr.

Definition changed (w : Watch) (r : Shutdown) : Changed :=
  if bool_decide (w.(version) <> r.(seen)) then ChOk
  else if bool_decide (w.(senders) = 0) then ChErr
  else ChPending.

(** [borrow_and_update]. *)
Definition borrow_and_update (w : Watch) (r : Shutdown) : bool * Shutdown := (w.(value), mkShutdown w.(version) r.(in_recv)).

(** The loop of a poll: whether it is ready. Nobody else moves during a poll. *)
Fixpoint recv_loop (fuel : nat) (w : Watch) (r : Shutdown) : bool * Shutdown :=
  match fuel with
  | 0 => (false, r)
  | S fuel =>
      match changed w r with
      | ChPending => (false, r)
      | ChErr => (true, mkShutdown r.(seen) false)
      | ChOk =>
          let (fired, r) := borrow_and_update w r in
          if fired : bool then (true, mkShutdown r.(seen) false) else recv_loop fuel w r
      end
  end.

(** A poll of [recv], begun or resumed. *)
Definition recv_poll (w : Watch) (r : Shutdown) : bool * Shutdown :=
  if r.(in_recv) then recv_loop 2 w r
  else
    let (fired, r) := borrow_and_update w r in
    if fired : bool then (true, r) else recv_loop 2 w (mkShutdown r.(seen) true).

(** ** Runs *)

Inductive Move : Type := MFire | MClone | MDrop | MDropManager | MPoll.

(** The channel, one receiver, and what its polls answered. *)
Record System : Type := mkSystem { sys_watch : Watch; sys_rx : Shutdown; sys_answers : list bool }.

(** A sender that is gone does nothing. *)
Definition move (m : Move) (s : System) : System :=
  let w := s.(sys_watch) in
  match m with
  | MPoll => let (ready, r) := recv_poll w s.(sys_rx) in mkSystem w r (s.(sys_answers) ++ [ready])
  | MFire => mkSystem (if bool_decide (w.(senders) = 0) then w else fire w) s.(sys_rx) s.(sys_answers)
  | MClone => mkSystem (if bool_decide (w.(senders) = 0) then w else clone_sender w) s.(sys_rx) s.(sys_answers)
  | MDrop => mkSystem (drop_sender w) s.(sys_rx) s.(sys_answers)
  | MDropManager => mkSystem (if bool_decide (w.(senders) = 0) then w else drop_manager w) s.(sys_rx) s.(sys_answers)
  end.

Definition run (ms : list Move) (s : System) : System := foldl (fun s m => move m s) s ms.

(** A receiver that awaits has seen no fire. *)
Record system_ok (s : System) : Prop := {
  so_seen : s.(sys_rx).(seen) <= s.(sys_watch).(version);
  so_awaits : s.(sys_rx).(in_recv) = true -> s.(sys_rx).(seen) = s.(sys_watch).(version) -> s.(sys_watch).(value) = false
}.

(** The loop needs no more than two rounds: after the first the receiver is up to date. *)
Lemma recv_loop_ready w r fuel :
  (w.(version) = r.(seen) -> w.(value) = false) ->
  (recv_loop (S (S fuel)) w r).1 = w.(value) || bool_decide (w.(senders) = 0).
Proof.
  intros Hv. cbn [recv_loop]. unfold changed, borrow_and_update. cbn [seen].
  case_bool_decide as Hne.
  - destruct (value w); [done|]. rewrite bool_decide_eq_false_2 by tauto. cbn. by case_bool_decide.
  - rewrite Hv by lia. cbn. by case_bool_decide.
Qed.

Lemma recv_poll_ready s : system_ok s ->
  (recv_poll s.(sys_watch) s.(sys_rx)).1 = (s.(sys_watch).(value) || bool_decide (s.(sys_watch).(senders) = 0)).
Proof.
  intros [Hs Ha]. unfold recv_poll. destruct (in_recv (sys_rx s)) eqn:Er.
  - apply recv_loop_ready. intros E. by apply Ha.
  - cbn [borrow_and_update]. destruct (value (sys_watch s)) eqn:Ev; [done|].
    pose proof (recv_loop_ready (sys_watch s) (mkShutdown (version (sys_watch s)) true) 0 (fun _ => Ev)) as Hl. by rewrite Ev in Hl.
Qed.

Lemma recv_loop_keeps w r fuel : r.(seen) <= w.(version) -> (w.(version) = r.(seen) -> w.(value) = false) ->
  (recv_loop fuel w r).2.(seen) <= w.(version) /\
  ((recv_loop fuel w r).2.(in_recv) = true -> (recv_loop fuel w r).2.(seen) = w.(version) -> w.(value) = false).
Proof.
  revert r. induction fuel as [|fuel IH]; intros r Hs Hv; [cbn; split; [done|intros _ E; by apply Hv]|].
  cbn [recv_loop]. unfold changed, borrow_and_update.
  case_bool_decide as Hne.
  - destruct (value w) eqn:Ev; [cbn; split; [lia|done]|].
    pose proof (IH (mkShutdown (version w) (in_recv r)) (le_n _) (fun _ => eq_refl)) as Hi. exact Hi.
  - case_bool_decide; cbn; (split; [lia|]); [done|]. intros _ E. by apply Hv.
Qed.

Lemma move_ok m s : system_ok s -> system_ok (move m s).
Proof.
  intros [Hs Ha]. destruct m; cbn [move].
  - case_bool_decide; split; cbn; [done|done|lia|lia].
  - case_bool_decide; split; done.
  - split; done.
  - case_bool_decide; split; cbn; [done|done|lia|lia].
  - assert (forall r, r.(seen) <= version (sys_watch s) ->
      (r.(in_recv) = true -> r.(seen) = version (sys_watch s) -> value (sys_watch s) = false) ->
      forall ans, system_ok (mkSystem (sys_watch s) r ans)) as Hok by (intros; by split).
    destruct (recv_poll _ _) as [ready r] eqn:Ep. apply (f_equal snd) in Ep. cbn in Ep. subst r. unfold recv_poll.
    destruct (in_recv (sys_rx s)) eqn:Er.
    + apply Hok; apply recv_loop_keeps; [done|intros E; by apply Ha|done|intros E; by apply Ha].
    + cbn [borrow_and_update]. destruct (value (sys_watch s)) eqn:Ev.
      * apply Hok; cbn; [done|]. rewrite Er. done.
      * apply Hok; [|done]. apply recv_loop_keeps; done.
Qed.

Lemma run_ok ms s : system_ok s -> system_ok (run ms s).
Proof. revert s. induction ms as [|m ms IH]; intros s Hs; [done|]. apply IH. by apply move_ok. Qed.

(** Whether shutdown is due: fired, or nobody is left to fire it. *)
Definition due (w : Watch) : bool := w.(value) || bool_decide (w.(senders) = 0).

Lemma due_stays m s : due s.(sys_watch) = true -> due (move m s).(sys_watch) = true.
Proof.
  unfold due. intros Hd. destruct m; cbn [move sys_watch].
  - case_bool_decide as Hz; [|done]. rewrite bool_decide_eq_true_2 by done. apply orb_true_r.
  - case_bool_decide as Hz; [rewrite bool_decide_eq_true_2 by done; apply orb_true_r|].
    rewrite orb_false_r in Hd. cbn. by rewrite Hd.
  - apply orb_prop in Hd as [Hd|Hd]; cbn; [by rewrite Hd|]. apply bool_decide_eq_true in Hd. rewrite Hd. apply orb_true_r.
  - case_bool_decide as Hz; [|done]. rewrite bool_decide_eq_true_2 by done. apply orb_true_r.
  - destruct (recv_poll _ _). exact Hd.
Qed.

(** Awaiting shutdown never misses it. Whatever was fired, cloned and dropped before a
    receiver subscribed and between its polls, a poll of [recv] is ready exactly when
    shutdown was fired or no sender is left, which then stays so: a fire before the
    subscription is not lost, one between two polls is not either, and awaiting again is
    answered at once. *)
Theorem shutdown_is_never_missed (before between after : list Move) (rx0 : Shutdown) :
  let w := (run before (mkSystem watch_new rx0 [])).(sys_watch) in
  let s := run between (mkSystem w (subscribe w) []) in
  let s' := run after (move MPoll s) in
  (recv_poll s.(sys_watch) s.(sys_rx)).1 = due s.(sys_watch) /\
  (due s.(sys_watch) = true -> (recv_poll s'.(sys_watch) s'.(sys_rx)).1 = true).
Proof.
  intros w s s'. assert (system_ok s) as Hs by (apply run_ok; by split).
  assert (system_ok s') as Hs' by (by apply run_ok, move_ok). split; [by apply recv_poll_ready|].
  intros Hd. rewrite (recv_poll_ready s' Hs'). subst s'. clear Hs'. change (due (sys_watch (run after (move MPoll s))) = true).
  assert (due (move MPoll s).(sys_watch) = true) as Hm by (by apply due_stays). revert Hm. generalize (move MPoll s).
  induction after as [|m ms IH]; intros s0 H0; [done|]. apply IH. by apply due_stays.
Qed.

Example latched :
  (run [MPoll; MFire; MPoll; MPoll] (mkSystem watch_new (subscribe watch_new) [])).(sys_answers) = [false; true; true] /\
  (run [MPoll; MClone; MDrop; MPoll; MDrop; MPoll] (mkSystem watch_new (subscribe watch_new) [])).(sys_answers) = [false; false; true].
Proof. split; vm_compute; reflexivity. Qed.
