(* ===== verification/MockRpc.v ===== *)
(** * MockRpc: the scripted RPC double

    crates/nexum-runtime-testing/src/rpc.rs: [MockRpc], a queue of scripted responses
    behind a layer that captures every request, and the reading of the log ranges a
    source asked for; and the tower service of [FakeNode], which serves a batch in order
    up to its first failure. The transport behind the capture, which answers from the
    queue, is alloy's: a parameter.

    The theorems: what was captured is every request in the order it was made, whatever
    the transport answered, and the log ranges read back are the numbers asked for; a
    batch stops at its first failure. *)

From stdpp Require Import prelude list strings.
From Stdlib Require Import ZArith Lia.
From S2P Require Import Prelude SdkChain FakeNode.

Local Open Scope Z_scope.

#[local] Arguments chars_of : simpl never.

(** ** Hexadecimal *)

(** [char::to_digit(16)]. *)
Definition hex_value (c : Z) : option Z :=
  if (48 <=? c) && (c <=? 57) then Some (c - 48)
  else if (97 <=? c) && (c <=? 102) then Some (c - 87)
  else if (65 <=? c) && (c <=? 70) then Some (c - 55)
  else None.

Fixpoint hex_digits (acc : Z) (s : text) : option Z :=
  match s with
  | [] => Some acc
  | c :: s =>
      v ← hex_value c;
      let acc := acc * 16 + v in if u64_max <? acc then None else hex_digits acc s
  end.

(** [u64::from_str_radix(s, 16)]. *)
Definition from_str_radix_16 (s : text) : option Z :=
  match s with
  | [] | [43] => None
  | 43 :: s => hex_digits 0 s
  | s => hex_digits 0 s
  end.

(** [trim_start_matches("0x")]. *)
Fixpoint trim_0x (s : text) : text :=
  match s with
  | c :: ((d :: rest) as s') => if (c =? 48) && (d =? 120) then trim_0x rest else s
  | _ => s
  end.

(** A JSON-RPC quantity: the shortest lower-case hexadecimal. *)
Definition hex_char (d : Z) : Z := if d <? 10 then 48 + d else 87 + d.

Fixpoint hex_rev (fuel : nat) (z : Z) : text :=
  match fuel with
  | O => []
  | S fuel => hex_char (z mod 16) :: if z <? 16 then [] else hex_rev fuel (z / 16)
  end.

Definition quantity (z : Z) : text := chars_of "0x" ++ reverse (hex_rev 16 z).

Lemma hex_char_value d : 0 <= d < 16 -> hex_value (hex_char d) = Some d.
Proof.
  intros Hd. assert (d ∈ seqZ 0 16) as Hin by (apply elem_of_seqZ; lia). revert Hin.
  vm_compute (seqZ 0 16). rewrite !elem_of_cons. intros Hin. repeat (destruct Hin as [->|Hin]; [reflexivity|]). by apply elem_of_nil in Hin.
Qed.

Lemma hex_digits_app acc a b : hex_digits acc (a ++ b) = (acc' ← hex_digits acc a; hex_digits acc' b).
Proof.
  revert acc. induction a as [|c a IH]; intros acc; [done|]. cbn. destruct (hex_value c); [|done]. cbn.
  destruct (_ <? _); [done|]. apply IH.
Qed.

Lemma hex_rev_value fuel z : 0 <= z < 16 ^ Z.of_nat fuel -> is_u64 z -> (0 < fuel)%nat -> hex_digits 0 (reverse (hex_rev fuel z)) = Some z.
Proof.
  revert z. induction fuel as [|fuel IH]; intros z Hz Hu Hf; [lia|]. cbn [hex_rev]. rewrite reverse_cons, hex_digits_app.
  rewrite Nat2Z.inj_succ, Z.pow_succ_r in Hz by lia. assert (0 <= z mod 16 < 16) as Hm by div_lia.
  destruct (Z.ltb_spec z 16).
  - cbn. rewrite hex_char_value by done. cbn. rewrite Z.mod_small by lia. unfold is_u64 in Hu. by rewrite (proj2 (Z.ltb_ge _ _)) by lia.
  - destruct fuel as [|fuel]; [cbn in Hz; lia|]. rewrite IH; [|div_lia|unfold is_u64 in *; div_lia|lia]. cbn.
    rewrite hex_char_value by done. cbn. replace (z / 16 * 16 + z mod 16) with z by div_lia.
    unfold is_u64 in Hu. by rewrite (proj2 (Z.ltb_ge _ _)) by lia.
Qed.

Lemma hex_rev_chars fuel z : 0 <= z -> Forall (fun c => exists d, 0 <= d < 16 /\ c = hex_char d) (hex_rev fuel z).
Proof.
  revert z. induction fuel as [|fuel IH]; intros z Hz; cbn [hex_rev]; constructor.
  - exists (z mod 16). split; [div_lia|done].
  - destruct (_ <? _); [constructor|]. apply IH. div_lia.
Qed.

(** What is printed reads back. *)
Lemma quantity_reads z : is_u64 z -> from_str_radix_16 (trim_0x (quantity z)) = Some z.
Proof.
  intros Hz. assert (0 <= z < 16 ^ Z.of_nat 16) as Hr by (change (16 ^ Z.of_nat 16) with (u64_max + 1); unfold is_u64 in Hz; lia).
  pose proof (hex_rev_value 16 z Hr Hz ltac:(lia)) as Hv.
  assert (Forall (fun c => c <> 43 /\ c <> 120) (reverse (hex_rev 16 z))) as Hc.
  { apply Forall_reverse. eapply Forall_impl; [apply hex_rev_chars; lia|]. intros c (d & Hd & ->). unfold hex_char. destruct (Z.ltb_spec d 10); lia. }
  assert (trim_0x (quantity z) = reverse (hex_rev 16 z)) as ->.
  { change (quantity z) with (48 :: 120 :: reverse (hex_rev 16 z)). cbn [trim_0x Z.eqb Pos.eqb andb].
    destruct (reverse (hex_rev 16 z)) as [|c [|d rest]]; [done|done|]. rewrite !Forall_cons in Hc. cbn [trim_0x].
    rewrite (proj2 (Z.eqb_neq d 120)) by tauto. by rewrite andb_false_r. }
  unfold from_str_radix_16. destruct (reverse (hex_rev 16 z)) as [|c rest] eqn:E.
  - cbn [hex_rev] in E. rewrite reverse_cons in E. by destruct (reverse _) in E.
  - apply Forall_cons in Hc as [[Hc _] _]. do 2 (destruct c as [|c|c]; try done). repeat (destruct c as [c|c|]; try exact Hv). done.
Qed.

(** ** The double *)

Section Double.
Context {Id Json : Type}.
(** serde_json: a request's parameters, an array's element, an object's member, a
    string. *)
Context (json_parse : text -> option Json) (json_at : nat -> Json -> option Json) (json_get : text -> Json -> option Json)
  (json_str : Json -> option text).
(** alloy's [MockTransport] over the queue of its [Asserter]. *)
Context {R E : Type} (transport : RequestPacket Id -> list R -> result (ResponsePacket Id) E * list R).

Notation Captured := (@CapturedRpc Json).

Definition record (req : SerializedRequest Id) : Captured :=
  mkCaptured req.(rq_method) (raw ← req.(rq_params); json_parse raw).

Definition packet_requests (packet : RequestPacket Id) : list (SerializedRequest Id) :=
  match packet with ReqSingle req => [req] | ReqBatch reqs => reqs end.

Definition record_packet (packet : RequestPacket Id) (sink : list Captured) : list Captured :=
  match packet with
  | ReqSingle req => sink ++ [record req]
  | ReqBatch reqs => foldl (fun sink req => sink ++ [record req]) sink reqs
  end.

Record MockRpc : Type := mkMockRpc { mr_queue : list R; mr_captured : list Captured }.

Definition mock_new : MockRpc := mkMockRpc [] [].

Definition push_script (items : list R) (m : MockRpc) : MockRpc := mkMockRpc (m.(mr_queue) ++ items) m.(mr_captured).

Definition pending (m : MockRpc) : nat := length m.(mr_queue).

(** [CaptureService::call]. *)
Definition mock_call (packet : RequestPacket Id) (m : MockRpc) : result (ResponsePacket Id) E * MockRpc :=
  let sink := record_packet packet m.(mr_captured) in
  let (r, queue) := transport packet m.(mr_queue) in
  (r, mkMockRpc queue sink).

(** The block a captured ranged query starts from. *)
Definition range_from (c : Captured) : option Z :=
  params ← c.(cap_params);
  first ← json_at 0 params;
  member ← json_get (chars_of "fromBlock") first;
  from ← json_str member;
  from_str_radix_16 (trim_0x from).

Definition log_range_froms (m : MockRpc) : list Z :=
  omap range_from (List.filter (fun c => bool_decide (c.(cap_method) = chars_of "eth_getLogs")) m.(mr_captured)).

(** A test's moves. *)
Inductive MockMove : Type := MkScript (items : list R) | MkCall (packet : RequestPacket Id).

Definition mock_move (m : MockRpc) (mv : MockMove) : MockRpc :=
  match mv with MkScript items => push_script items m | MkCall packet => (mock_call packet m).2 end.

Definition requests (mvs : list MockMove) : list (SerializedRequest Id) :=
  flat_map (fun mv => match mv with MkScript _ => [] | MkCall packet => packet_requests packet end) mvs.

Lemma record_packet_requests packet sink : record_packet packet sink = sink ++ (record <$> packet_requests packet).
Proof.
  destruct packet as [req|reqs]; [done|]. cbn. revert sink. induction reqs as [|req reqs IH]; intros sink; cbn; [by rewrite app_nil_r|].
  by rewrite IH, <- (assoc_L (++)).
Qed.

Lemma moves_captured mvs m :
  (foldl mock_move m mvs).(mr_captured) = m.(mr_captured) ++ (record <$> requests mvs).
Proof.
  revert m. induction mvs as [|mv mvs IH]; intros m; cbn [foldl requests flat_map]; [by rewrite app_nil_r|].
  rewrite IH, fmap_app, (assoc_L (++)). f_equal. destruct mv as [items|packet]; cbn [mock_move]; [by rewrite app_nil_r|].
  unfold mock_call. destruct (transport _ _). cbn. apply record_packet_requests.
Qed.

(** A ranged log query from a block. *)
Definition asks_from (req : SerializedRequest Id) (from : Z) : Prop :=
  is_u64 from /\
  exists raw params first member, req.(rq_params) = Some raw /\ json_parse raw = Some params /\ json_at 0 params = Some first /\
    json_get (chars_of "fromBlock") first = Some member /\ json_str member = Some (quantity from).

Lemma asks_from_reads req from : asks_from req from -> range_from (record req) = Some from.
Proof.
  intros (Hu & raw & params & first & member & E1 & E2 & E3 & E4 & E5). unfold range_from, record. cbn [cap_params].
  rewrite E1. cbn [mbind option_bind]. rewrite E2. cbn [mbind option_bind]. rewrite E3. cbn [mbind option_bind].
  rewrite E4. cbn [mbind option_bind]. rewrite E5. cbn [mbind option_bind]. by apply quantity_reads.
Qed.

(** What a scripted double captured is every request made of it, in order, batches taken
    apart, whatever its script answered. So the log ranges a test reads back are the
    blocks the ranged queries started from, one for each and in the order they were
    asked. *)
Theorem mock_captures_every_request (mvs : list MockMove) :
  let m := foldl mock_move mock_new mvs in
  m.(mr_captured) = record <$> requests mvs /\
  forall froms,
    Forall2 asks_from (List.filter (fun req => bool_decide (req.(rq_method) = chars_of "eth_getLogs")) (requests mvs)) froms ->
    log_range_froms m = froms.
Proof.
  intros m. assert (m.(mr_captured) = record <$> requests mvs) as Hc by apply (moves_captured mvs mock_new).
  split; [done|]. intros froms Hf. unfold log_range_froms. rewrite Hc. clear Hc m.
  revert froms Hf. induction (requests mvs) as [|req reqs IH]; intros froms Hf; cbn [List.filter] in Hf.
  - by apply Forall2_nil_inv_l in Hf as ->.
  - rewrite fmap_cons. cbn [List.filter]. unfold record at 1. cbn [cap_method]. destruct (bool_decide _) eqn:Em.
    + apply Forall2_cons_inv_l in Hf as (from & froms' & Ha & Hf & ->). cbn [omap list_omap]. rewrite (asks_from_reads req from Ha).
      f_equal. by apply IH.
    + by apply IH.
Qed.
End Double.

(** ** The service of the fake node *)

Section Batch.
Context {Id St Er : Type}.
(** A request served; nothing while it is parked. *)
Context (serve : SerializedRequest Id -> St -> option (result (Response Id) Er) * St).

(** The requests of a batch, in order, up to the first failure. *)
Fixpoint serve_batch (reqs : list (SerializedRequest Id)) (st : St) : option (result (list (Response Id)) Er) * St :=
  match reqs with
  | [] => (Some (Ok []), st)
  | req :: reqs =>
      match serve req st with
      | (None, st) => (None, st)
      | (Some (Err e), st) => (Some (Err e), st)
      | (Some (Ok r), st) =>
          match serve_batch reqs st with
          | (Some (Ok rs), st) => (Some (Ok (r :: rs)), st)
          | (other, st) => (other, st)
          end
      end
  end.

Definition node_call (packet : RequestPacket Id) (st : St) : option (result (ResponsePacket Id) Er) * St :=
  match packet with
  | ReqSingle req =>
      let (out, st) := serve req st in
      ((fun r => match r with Ok r => Ok (RespSingle r) | Err e => Err e end) <$> out, st)
  | ReqBatch reqs =>
      let (out, st) := serve_batch reqs st in
      ((fun r => match r with Ok rs => Ok (RespBatch rs) | Err e => Err e end) <$> out, st)
  end.

(** The requests of a prefix, one after the other. *)
Inductive served : list (SerializedRequest Id) -> St -> list (Response Id) -> St -> Prop :=
| served_nil st : served [] st [] st
| served_cons req reqs st r st1 rs st2 :
    serve req st = (Some (Ok r), st1) -> served reqs st1 rs st2 -> served (req :: reqs) st (r :: rs) st2.

(** A batch is answered in order, one response for each request; or it fails with the
    first failure, the requests before it served and those after it never seen; or it
    parks at the first request that parks. *)
Theorem batch_stops_at_the_first_failure (reqs : list (SerializedRequest Id)) (st : St) :
  match serve_batch reqs st with
  | (Some (Ok rs), st') => served reqs st rs st'
  | (stopped, st') =>
      exists before req after rs st1 out, reqs = before ++ req :: after /\ served before st rs st1 /\ serve req st1 = (out, st') /\
        (forall e, stopped = Some (Err e) <-> out = Some (Err e)) /\ (stopped = None <-> out = None)
  end.
Proof.
  revert st. induction reqs as [|req reqs IH]; intros st; cbn [serve_batch]; [constructor|].
  destruct (serve req st) as [[[r|e]|] st1] eqn:Es.
  - specialize (IH st1). destruct (serve_batch reqs st1) as [[[rs|e]|] st2].
    + by econstructor.
    + destruct IH as (before & req' & after & rs & st' & out & -> & Hs & He & Hx). exists (req :: before), req', after, (r :: rs), st', out.
      split; [done|]. split; [by econstructor|]. by split.
    + destruct IH as (before & req' & after & rs & st' & out & -> & Hs & He & Hx). exists (req :: before), req', after, (r :: rs), st', out.
      split; [done|]. split; [by econstructor|]. by split.
  - exists [], req, reqs, [], st, (Some (Err e)). split; [done|]. split; [constructor|]. naive_solver.
  - exists [], req, reqs, [], st, None. split; [done|]. split; [constructor|]. naive_solver.
Qed.
End Batch.
