(* ===== verification/SdkHandles.v ===== *)
(** * SdkHandles: the handles of the guest SDK

    crates/nexum-sdk/src/store.rs and keeper.rs: the handles a module holds on its store,
    which stage or name what the operations of [HostStore] and [Keeper] do;
    crates/nexum-sdk/src/http.rs: [WasiFetch] over the wasi client.

    The theorems: a batch stages nothing into the store until it is flushed, and then
    lands as staged or not at all; what one journal does never reaches the other; a fetch
    fails with the first fault of the client. *)

From stdpp Require Import prelude list gmap strings.
From Stdlib Require Import ZArith Lia.
From S2P Require Import Prelude StoreApi HostStore Keeper GuestModules.

Local Open Scope Z_scope.

#[local] Arguments chars_of : simpl never.

(** ** Write batches *)

Section Batches.
Context {H : Type} `{LocalStoreHost H} `{!HostAtomic H}.

(** [WriteBatch], over the host it borrows. *)
Record WriteBatch : Type := mkBatch { wb_ops : list WriteOp }.

Definition wb_new : WriteBatch := mkBatch [].
Definition wb_set (key : text) (value : list Z) (b : WriteBatch) : WriteBatch := mkBatch (b.(wb_ops) ++ [OpSet key value]).
Definition wb_delete (key : text) (b : WriteBatch) : WriteBatch := mkBatch (b.(wb_ops) ++ [OpDelete key]).
Definition wb_len (b : WriteBatch) : nat := length b.(wb_ops).
Definition wb_is_empty (b : WriteBatch) : bool := match b.(wb_ops) with [] => true | _ => false end.
Definition wb_flush (b : WriteBatch) : K H unit := flush b.(wb_ops).

(** A module's staging. *)
Inductive Staging : Type := StSet (key : text) (value : list Z) | StDelete (key : text).

Definition stage (b : WriteBatch) (s : Staging) : WriteBatch :=
  match s with StSet key value => wb_set key value b | StDelete key => wb_delete key b end.

(** The last word of a script on a key. *)
Fixpoint last_word (key : text) (ss : list Staging) : option (option (list Z)) :=
  match ss with
  | [] => None
  | s :: ss =>
      match last_word key ss with
      | Some w => Some w
      | None =>
          match s with
          | StSet key' value => if decide (key' = key) then Some (Some value) else None
          | StDelete key' => if decide (key' = key) then Some None else None
          end
      end
  end.

Definition op_of (s : Staging) : WriteOp := match s with StSet key value => OpSet key value | StDelete key => OpDelete key end.

Lemma staged_ops (ss : list Staging) (b : WriteBatch) : (foldl stage b ss).(wb_ops) = b.(wb_ops) ++ (op_of <$> ss).
Proof.
  revert b. induction ss as [|s ss IH]; intros b; cbn; [by rewrite app_nil_r|]. rewrite IH.
  destruct s; cbn; by rewrite <- (assoc_L (++)).
Qed.

Lemma applied_last_word (ss : list Staging) (m : gmap text (list Z)) key :
  fold_left apply_row (op_of <$> ss) m !! key = match last_word key ss with Some w => w | None => m !! key end.
Proof.
  revert m. induction ss as [|s ss IH]; intros m; [done|]. cbn [fmap list_fmap fold_left last_word]. rewrite IH.
  destruct (last_word key ss); [done|]. destruct s as [key' value|key']; cbn [op_of apply_row]; destruct (decide (key' = key)) as [->|Hne].
  - by rewrite lookup_insert_eq.
  - by rewrite lookup_insert_ne.
  - by rewrite lookup_delete_eq.
  - by rewrite lookup_delete_ne.
Qed.

(** A batch lands as it was staged: flushed without a fault, every key it names holds the
    last value staged for it, or nothing when the last word was a delete, and every other
    key is as it was; a flush that faults changes nothing. *)
Theorem batch_lands_as_staged (ss : list Staging) (h : H) :
  let b := foldl stage wb_new ss in
  wb_len b = length ss /\
  let '(r, h') := wb_flush b h in
  if is_ok r
  then forall key, kv_rows h' !! key = match last_word key ss with Some w => w | None => kv_rows h !! key end
  else kv_rows h' = kv_rows h.
Proof.
  intros b. assert (b.(wb_ops) = op_of <$> ss) as Hops by apply (staged_ops ss wb_new).
  split; [unfold wb_len; by rewrite Hops, length_fmap|]. destruct (wb_flush b h) as [r h'] eqn:Ef.
  assert (kv_rows h' = if is_ok r then fold_left apply_row (op_of <$> ss) (kv_rows h) else kv_rows h) as Hr.
  { revert Ef. unfold wb_flush, flush. rewrite Hops. destruct (op_of <$> ss) eqn:E; [intros [= <- <-]; done|]. apply host_apply_law. }
  destruct (is_ok r); [|done]. intros key. rewrite Hr. apply applied_last_word.
Qed.
End Batches.

(** ** Typed handles *)

Record TypedCell : Type := mkCell { tc_key : text }.
Record TypedMap : Type := mkMap { tm_prefix : text }.
Record Counter : Type := mkCounter { ct_key : text }.

(** ** Journals *)

Record Journal : Type := mkJournal { jn_prefix : text }.

Definition submitted : Journal := mkJournal SUBMITTED_PREFIX.
Definition observed : Journal := mkJournal OBSERVED_PREFIX.

Section Journals.
Context {H : Type} `{KvHost H} `{!KvLaws H}.

Inductive JournalOp : Type :=
| JRecord (receipt : text)
| JReserve (key : text) (body : list Z)
| JPark (key : text) (body : list Z) (until : Z)
| JCommit (key : text)
| JRelease (key : text).

Definition journal_op (j : Journal) (o : JournalOp) : K H unit :=
  match o with
  | JRecord receipt => journal_record j.(jn_prefix) receipt
  | JReserve key body => reserve j.(jn_prefix) key body
  | JPark key body until => park j.(jn_prefix) key body until
  | JCommit key => commit j.(jn_prefix) key
  | JRelease key => release j.(jn_prefix) key
  end.

Definition journal_ops (j : Journal) (os : list JournalOp) (h : H) : H := foldl (fun h o => (journal_op j o h).2) h os.

(** Two journals no key of which is a key of the other. *)
Definition apart (j j' : Journal) : Prop := forall key key', j.(jn_prefix) ++ key <> j'.(jn_prefix) ++ key'.

Lemma submitted_apart_observed : apart submitted observed /\ apart observed submitted.
Proof. split; intros key key' E; discriminate E. Qed.

Lemma journal_op_elsewhere j j' o (h : H) key :
  apart j j' -> kv_rows (journal_op j o h).2 !! (j'.(jn_prefix) ++ key) = kv_rows h !! (j'.(jn_prefix) ++ key).
Proof.
  intros Ha. destruct (journal_op j o h) as [r h'] eqn:E. cbn [snd].
  assert (exists key', kv_rows h' = kv_rows h \/ kv_rows h' = delete (j.(jn_prefix) ++ key') (kv_rows h) \/
    exists value, kv_rows h' = <[j.(jn_prefix) ++ key' := value]> (kv_rows h)) as (key' & Hr).
  { destruct o as [k|k body|k body until|k|k]; exists k; [apply kv_set_law in E..|apply kv_delete_law in E];
      destruct (is_ok r); eauto. }
  destruct Hr as [->|[->|[value ->]]]; [done| |].
  - by rewrite lookup_delete_ne by apply Ha.
  - by rewrite lookup_insert_ne by apply Ha.
Qed.

(** The journals of submitted and of observed receipts are apart: whatever is recorded,
    reserved, parked, committed and released in one, faults included, the marks of the
    other stand. *)
Theorem journals_are_apart (os : list JournalOp) (h : H) (key : text) :
  kv_rows (journal_ops submitted os h) !! (observed.(jn_prefix) ++ key) = kv_rows h !! (observed.(jn_prefix) ++ key) /\
  kv_rows (journal_ops observed os h) !! (submitted.(jn_prefix) ++ key) = kv_rows h !! (submitted.(jn_prefix) ++ key).
Proof.
  assert (forall j j', apart j j' ->
    kv_rows (journal_ops j os h) !! (j'.(jn_prefix) ++ key) = kv_rows h !! (j'.(jn_prefix) ++ key)) as Hj.
  { intros j j' Ha. unfold journal_ops. revert h. induction os as [|o os' IH]; intros h; [done|]. cbn. by rewrite IH, journal_op_elsewhere. }
  destruct submitted_apart_observed. split; by apply Hj.
Qed.
End Journals.

(** ** Fetching *)

Section Fetching.
(** The wasi client: sending under three timeouts, and reading a body to its end. *)
Context {Rq Parts Body : Type} (send : Z -> Z -> Z -> Rq -> result (Parts * Body) (ErrorCode + text))
  (bytes_contents : Body -> result (list Z) (ErrorCode + text)) (code_text : ErrorCode -> text).

Definition fetch_async (request : Rq) (options : FetchOptions) : result (Parts * list Z) FetchError :=
  match send options.(connect_timeout) options.(first_byte_timeout) options.(between_bytes_timeout) request with
  | Err e => Err (map_error code_text e)
  | Ok (parts, body) =>
      match bytes_contents body with
      | Err e => Err (map_error code_text e)
      | Ok bytes => Ok (parts, bytes)
      end
  end.

Definition fetch_with (request : Rq) (options : FetchOptions) : result (Parts * list Z) FetchError := fetch_async request options.
Definition fetch (request : Rq) : result (Parts * list Z) FetchError := fetch_with request FetchOptions_default.

(** A fetch answers the whole body of the response or the fault of the first step that
    failed, folded to what a module may tell apart; it is denied exactly when the client
    was, and a fetch without options waits thirty seconds in each phase. *)
Theorem fetch_fails_with_the_first_fault (request : Rq) (options : FetchOptions) :
  let sent := send options.(connect_timeout) options.(first_byte_timeout) options.(between_bytes_timeout) request in
  (forall parts bytes, fetch_with request options = Ok (parts, bytes) <->
     exists body, sent = Ok (parts, body) /\ bytes_contents body = Ok bytes) /\
  (fetch_with request options = Err FetchDenied <->
     sent = Err (inl ErrHttpRequestDenied) \/
     exists parts body, sent = Ok (parts, body) /\ bytes_contents body = Err (inl ErrHttpRequestDenied)) /\
  (fetch request = fetch_with request (mkFetchOptions (30 * NANOS_PER_SEC) (30 * NANOS_PER_SEC) (30 * NANOS_PER_SEC))).
Proof.
  intros sent. unfold fetch_with, fetch_async. fold sent.
  assert (forall e, map_error code_text e = FetchDenied <-> e = inl ErrHttpRequestDenied) as Hd by (intros [[]|]; cbn; naive_solver).
  split_and!; [| |done].
  - intros parts bytes. destruct sent as [[p b]|e]; [destruct (bytes_contents b) as [bs|e] eqn:Eb|].
    + split; [intros [= <- <-]; by exists b|]. intros (b' & [= <- <-] & Hb). congruence.
    + split; [done|]. intros (b' & [= <- <-] & Hb). congruence.
    + split; [done|]. by intros (b' & [=] & _).
  - destruct sent as [[p b]|e]; [destruct (bytes_contents b) as [bs|e] eqn:Eb|].
    + split; [done|]. intros [[=]|(p' & b' & [= <- <-] & Hb)]. congruence.
    + split; [intros [= Hm%Hd]; subst e; right; by exists p, b|]. intros [[=]|(p' & b' & [= <- <-] & Hb)].
      assert (e = inl ErrHttpRequestDenied) as -> by congruence. done.
    + split; [intros [= Hm%Hd]; subst e; by left|]. intros [[= ->]|(? & ? & [=] & _)]. done.
Qed.
End Fetching.
