(* ===== verification/MockHost.v ===== *)
(** * MockHost: the composed host of module tests

    crates/nexum-sdk-test/src/host.rs: one value with a mock behind every seam, which
    hands each call on. The calls of a seam are lifted along the field they run on, so the
    laws of the mocks become laws of the host, and what the SDK is proved to do on a
    lawful host it does on this one. *)

From stdpp Require Import prelude list gmap strings.
From Stdlib Require Import ZArith Lia.
From S2P Require Import Prelude StoreApi HostStore MockStore ChainHost GuestModules SdkChain Policy GuestTracing.

Local Open Scope Z_scope.

(** ** The host *)

Record MockHost : Type := mkMockHost {
  mh_chain : MockChain;
  mh_store : MockLocalStore;
  mh_logging : list LogLine
}.

Definition with_store (h : MockHost) (s : MockLocalStore) : MockHost := mkMockHost h.(mh_chain) s h.(mh_logging).

Definition host_new : MockHost := mkMockHost (mkMockChain ∅ []) mock_new [].

(** A call on the store seam. *)
Definition on_store {A} (f : K MockLocalStore A) : K MockHost A := fun h =>
  let (r, s) := f h.(mh_store) in (r, with_store h s).

Definition host_get (key : text) : K MockHost (option (list Z)) := on_store (kv_get key).
Definition host_set (key : text) (value : list Z) : K MockHost unit := on_store (kv_set key value).
Definition host_delete (key : text) : K MockHost unit := on_store (kv_delete key).
Definition host_list_keys (p : text) : K MockHost (list text) := on_store (kv_list_keys p).
Definition host_entries (q : ListQuery) : K MockHost EntryPage := on_store (mock_list_entries q).
Definition host_has (key : text) : K MockHost bool := on_store (mock_contains key).
Definition host_entry_len (key : text) : K MockHost (option Z) := on_store (mock_entry_len key).
Definition host_key_count (p : text) : K MockHost Z := on_store (mock_count p).

Definition host_chain_request (chain : Z) (method params : text) (h : MockHost) : result text ChainError * MockHost :=
  let (r, c) := mock_request chain method params h.(mh_chain) in (r, mkMockHost c h.(mh_store) h.(mh_logging)).

Definition host_log_line (level : Level) (message : text) (h : MockHost) : MockHost :=
  mkMockHost h.(mh_chain) h.(mh_store) (mock_log h.(mh_logging) level message).

#[export] Instance mock_host_kv : KvHost MockHost := {|
  kv_get := host_get;
  kv_set := host_set;
  kv_delete := host_delete;
  kv_list_keys := host_list_keys;
  kv_rows h := kv_rows h.(mh_store)
|}.

(** [apply] is not overridden: the default, one write at a time. *)
#[export] Instance mock_host_store : LocalStoreHost MockHost := {|
  host_list_entries := host_entries;
  host_apply := apply_default
|}.

#[export] Instance mock_host_chain : ChainCalls MockHost := {| host_request := host_chain_request |}.

(** ** Its laws *)

Lemma on_store_inv {A} (f : K MockLocalStore A) h r h' :
  on_store f h = (r, h') -> exists s, f h.(mh_store) = (r, s) /\ h' = with_store h s.
Proof. unfold on_store. destruct (f (mh_store h)) as [r' s]. intros [= <- <-]. eauto. Qed.

#[export] Instance mock_host_laws : KvLaws MockHost.
Proof.
  split; cbn [kv_get kv_set kv_delete kv_list_keys kv_rows mock_host_kv].
  - intros h key r h' (s & E & ->)%on_store_inv. exact (kv_get_law _ _ _ _ E).
  - intros h key value r h' (s & E & ->)%on_store_inv. exact (kv_set_law _ _ _ _ _ E).
  - intros h key r h' (s & E & ->)%on_store_inv. exact (kv_delete_law _ _ _ _ E).
  - intros h p r h' (s & E & ->)%on_store_inv. exact (kv_list_keys_law _ _ _ _ E).
Qed.

#[export] Instance mock_host_listing : HostListing MockHost.
Proof.
  split. cbn [host_list_entries mock_host_store]. intros h q r h' (s & E & ->)%on_store_inv. exact (host_list_entries_law (H := MockLocalStore) _ q _ _ E).
Qed.

(** A script over the seams. *)
Inductive HostCall : Type :=
| HcGet (key : text)
| HcSet (key : text) (value : list Z)
| HcDelete (key : text)
| HcEntries (q : ListQuery)
| HcApply (ops : list WriteOp)
| HcRequest (chain : Z) (method params : text)
| HcLog (level : Level) (message : text).

Definition host_call (h : MockHost) (c : HostCall) : MockHost :=
  match c with
  | HcGet key => (kv_get key h).2
  | HcSet key value => (kv_set key value h).2
  | HcDelete key => (kv_delete key h).2
  | HcEntries q => (host_list_entries q h).2
  | HcApply ops => (host_apply ops h).2
  | HcRequest chain method params => (host_request chain method params h).2
  | HcLog level message => host_log_line level message h
  end.

(** The calls of one seam, on its mock. *)
Definition store_call (s : MockLocalStore) (c : HostCall) : MockLocalStore :=
  match c with
  | HcGet key => (kv_get key s).2
  | HcSet key value => (kv_set key value s).2
  | HcDelete key => (kv_delete key s).2
  | HcEntries q => (host_list_entries q s).2
  | HcApply ops => (host_apply ops s).2
  | HcRequest _ _ _ | HcLog _ _ => s
  end.

Definition chain_call (m : MockChain) (c : HostCall) : MockChain :=
  match c with HcRequest chain method params => (host_request chain method params m).2 | _ => m end.

Definition log_call (lines : list LogLine) (c : HostCall) : list LogLine :=
  match c with HcLog level message => mock_log lines level message | _ => lines end.

#[export] Instance mock_host_chain_laws : ChainCallLaws MockHost.
Proof. split. by intros chain method params h r h' [= _ <-]. Qed.

(** ** The seams are apart *)

(** The default batch runs on the store seam alone. *)
Lemma apply_on_store (ops : list WriteOp) (h : MockHost) :
  apply_default ops h = on_store (apply_default ops) h.
Proof.
  revert h. induction ops as [|[key value|key] ops IH]; intros [c s l]; [done| |];
    cbn [apply_default]; unfold mbind, K_bind, on_store;
    cbn [kv_set kv_delete mock_host_kv mock_kv mh_store];
    unfold host_set, host_delete, on_store; cbn [mh_store kv_set kv_delete mock_kv].
  - destruct (mock_set key value s) as [[u|f] s1]; [|done]. by rewrite IH.
  - destruct (mock_delete key s) as [[u|f] s1]; [|done]. by rewrite IH.
Qed.

Lemma host_call_splits h c :
  host_call h c = mkMockHost (chain_call h.(mh_chain) c) (store_call h.(mh_store) c) (log_call h.(mh_logging) c).
Proof.
  assert (forall A (f : K MockLocalStore A), (on_store f h).2 = with_store h (f h.(mh_store)).2) as Hlift
    by (intros A f; unfold on_store; by destruct (f (mh_store h))).
  destruct c; cbn [host_call]; try done; try exact (Hlift _ _).
  transitivity (on_store (apply_default ops) h).2; [exact (f_equal snd (apply_on_store ops h))|exact (Hlift _ _)].
Qed.

(** Whatever a module does with its composed host, each mock ends where the calls of its
    own seam alone would take it: a test may read any one of them on its own. *)
Theorem seams_are_apart (script : list HostCall) (h : MockHost) :
  foldl host_call h script =
  mkMockHost (foldl chain_call h.(mh_chain) script) (foldl store_call h.(mh_store) script)
    (foldl log_call h.(mh_logging) script).
Proof.
  revert h. induction script as [|c script IH]; intros h; [by destruct h|].
  cbn [foldl]. by rewrite IH, host_call_splits.
Qed.

(** The script of the composed host's own test. *)
Example host_dispatches :
  let script := [HcSet (chars_of "key") [1]; HcGet (chars_of "key"); HcRequest 1 (chars_of "eth_blockNumber") (chars_of "[]");
                 HcLog LInfo (chars_of "happy path")] in
  let h := foldl host_call host_new script in
  (call_count h.(mh_chain), length h.(mh_logging), mock_len h.(mh_store)) = (1%nat, 1%nat, 1).
Proof. by vm_compute. Qed.
