(* ===== verification/Executor.v ===== *)
(** * Executor: the tasks a manager is handed

    crates/nexum-tasks/src/manager.rs: [TaskExecutor] spawns graceful tasks, each with a
    guard of its own, and critical ones, each of which signals and reports its own end.
    [Tasks.Drain] keeps what the manager itself holds, a count of guards and a queue of
    names; here are the tasks behind them, each in the state its own code has reached,
    and every step of a task is the manager's step it causes.

    The theorems: a drain ends [Drained] only when every guard ever handed out is
    dropped, and [TimedOut] with the number of those that are not; every critical task
    that ended is heard of exactly once, under its own name, and only after shutdown was
    signalled; an aborted one is not heard of. *)

From stdpp Require Import prelude list strings.
From Stdlib Require Import Lia.
From S2P Require Import Prelude Tasks.
Import Drain.

Local Open Scope nat_scope.

(** ** The tasks *)

(** A guard between its creation and the two halves of its drop. *)
Inductive GuardAt : Type := Held | Releasing | Dropped.

(** A task under [spawn_critical]: its future running; past its signal; past its report;
    or cancelled while the future ran, after which nothing of it runs. *)
Inductive CriticalAt : Type := Running | Signalled | Reported | Aborted.

#[export] Instance guard_at_eq_dec : EqDecision GuardAt.
Proof. solve_decision. Defined.
#[export] Instance critical_at_eq_dec : EqDecision CriticalAt.
Proof. solve_decision. Defined.

Record Executor : Type := mkExecutor {
  ex_manager : Manager;
  ex_guards : list GuardAt;
  ex_criticals : list (text * CriticalAt);
  (* what [on_critical_failure] resolved with so far *)
  ex_observed : list text
}.

Definition executor_new : Executor := mkExecutor manager_new [] [] [].

Definition on_manager (f : Manager -> Manager) (e : Executor) : Executor :=
  mkExecutor (f e.(ex_manager)) e.(ex_guards) e.(ex_criticals) e.(ex_observed).

(** [spawn_graceful]: the guard is made before the task is first polled. *)
Definition spawn_graceful (e : Executor) : Executor :=
  mkExecutor (guard_new e.(ex_manager)) (e.(ex_guards) ++ [Held]) e.(ex_criticals) e.(ex_observed).

Definition set_guard (i : nat) (g : GuardAt) (f : Manager -> Manager) (e : Executor) : Executor :=
  mkExecutor (f e.(ex_manager)) (<[i := g]> e.(ex_guards)) e.(ex_criticals) e.(ex_observed).

(** [spawn_critical], the tail its task runs once the future returned or panicked, and
    its cancellation. *)
Definition spawn_critical (name : text) (e : Executor) : Executor :=
  mkExecutor e.(ex_manager) e.(ex_guards) (e.(ex_criticals) ++ [(name, Running)]) e.(ex_observed).

Definition set_critical (k : nat) (name : text) (c : CriticalAt) (f : Manager -> Manager) (e : Executor) : Executor :=
  mkExecutor (f e.(ex_manager)) e.(ex_guards) (<[k := (name, c)]> e.(ex_criticals)) e.(ex_observed).

(** The manager's own steps: a fire, and those of the drain. *)
Inductive own_step : Manager -> Manager -> Prop :=
| own_fire m : own_step m (fire m)
| own_start m : m.(drain) = DrainIdle -> own_step m (set_drain DrainCheck (fire m))
| own_check m : m.(drain) = DrainCheck -> own_step m (drain_check m)
| own_deadline m : m.(drain) = DrainWait -> own_step m (set_drain (DrainDone (TimedOut m.(outstanding))) m)
| own_recv m : m.(drain) = DrainWait -> m.(wake) = true -> own_step m (drain_recv m).

Inductive executor_step : Executor -> Executor -> Prop :=
| ex_own e m' : own_step e.(ex_manager) m' -> executor_step e (on_manager (const m') e)
| ex_spawn_graceful e : executor_step e (spawn_graceful e)
| ex_guard_decrement e i :
    e.(ex_guards) !! i = Some Held -> executor_step e (set_guard i Releasing guard_decrement e)
| ex_guard_wake e i :
    e.(ex_guards) !! i = Some Releasing -> executor_step e (set_guard i Dropped guard_wake e)
| ex_spawn_critical e name : executor_step e (spawn_critical name e)
| ex_critical_ends e k name :
    e.(ex_criticals) !! k = Some (name, Running) ->
    executor_step e (set_critical k name Signalled (critical_signal name) e)
| ex_critical_reports e k name i :
    e.(ex_criticals) !! k = Some (name, Signalled) -> e.(ex_manager).(reporting) !! i = Some name ->
    executor_step e (set_critical k name Reported (critical_report i) e)
| ex_abort e k name :
    e.(ex_criticals) !! k = Some (name, Running) -> executor_step e (set_critical k name Aborted id e)
| ex_observe e name m' :
    on_critical_failure e.(ex_manager) = Some (name, m') ->
    executor_step e (mkExecutor m' e.(ex_guards) e.(ex_criticals) (e.(ex_observed) ++ [name])).

(** ** What the tables hold *)

(** The guards at one point of their life, and the names of the critical tasks at one. *)
Definition guards_at (g : GuardAt) (l : list GuardAt) : nat := length (l ≫= fun x => if decide (x = g) then [x] else []).
Definition names_at (c : CriticalAt) (l : list (text * CriticalAt)) : list text :=
  l ≫= fun p => if decide (p.2 = c) then [p.1] else [].

#[local] Arguments guards_at : simpl never.
#[local] Arguments names_at : simpl never.

(** Replacing one entry of a list exchanges what it contributes. *)
Lemma insert_exchanges {A B} (f : A -> list B) (l : list A) i x y :
  l !! i = Some x -> f x ++ (<[i := y]> l ≫= f) ≡ₚ f y ++ (l ≫= f).
Proof.
  revert i. induction l as [|z l IH]; intros [|i]; cbn; intros E; simplify_eq.
  - solve_Permutation.
  - rewrite (Permutation_app_swap_app (f x)), (Permutation_app_swap_app (f y)). by rewrite (IH i E).
Qed.

Lemma guards_at_insert g l i x y :
  l !! i = Some x ->
  (if decide (x = g) then 1 else 0) + guards_at g (<[i := y]> l) = (if decide (y = g) then 1 else 0) + guards_at g l.
Proof.
  intros E. pose proof (Permutation_length (insert_exchanges (fun x => if decide (x = g) then [x] else []) l i x y E)) as H.
  rewrite !length_app in H. unfold guards_at. repeat case_decide; cbn in H; exact H.
Qed.

Lemma names_at_insert c l k name from to :
  l !! k = Some (name, from) ->
  (if decide (from = c) then [name] else []) ++ names_at c (<[k := (name, to)]> l) ≡ₚ
  (if decide (to = c) then [name] else []) ++ names_at c l.
Proof. intros E. exact (insert_exchanges (fun p => if decide (p.2 = c) then [p.1] else []) l k (name, from) (name, to) E). Qed.

Lemma guards_at_app g l x : guards_at g (l ++ [x]) = guards_at g l + (if decide (x = g) then 1 else 0).
Proof. unfold guards_at. rewrite bind_app, length_app. cbn. by case_decide. Qed.

Lemma names_at_app c l name at_ : names_at c (l ++ [(name, at_)]) = names_at c l ++ (if decide (at_ = c) then [name] else []).
Proof. unfold names_at. rewrite bind_app. cbn. by rewrite app_nil_r. Qed.

(** ** The manager's books agree with the tasks *)

Record books (e : Executor) : Prop := {
  bk_held : e.(ex_manager).(outstanding) = guards_at Held e.(ex_guards);
  bk_releasing : e.(ex_manager).(releasing) = guards_at Releasing e.(ex_guards);
  bk_signalled : e.(ex_manager).(reporting) ≡ₚ names_at Signalled e.(ex_criticals);
  bk_reported : e.(ex_observed) ++ e.(ex_manager).(critical) ≡ₚ names_at Reported e.(ex_criticals);
  bk_fired : e.(ex_observed) <> [] -> e.(ex_manager).(fired) = true;
  bk_manager : manager_ok e.(ex_manager)
}.

(** Every step of a task is a step of the manager or none. *)
Lemma executor_step_manager e e' :
  books e -> executor_step e e' -> manager_step e.(ex_manager) e'.(ex_manager) \/ e'.(ex_manager) = e.(ex_manager).
Proof.
  intros Hb Hs.
  assert (forall g i, e.(ex_guards) !! i = Some g -> 0 < guards_at g e.(ex_guards)) as Hpos.
  { intros g i E. pose proof (guards_at_insert g _ i g (if decide (g = Held) then Dropped else Held) E) as H.
    rewrite decide_True in H by done. destruct g; cbn in H; repeat case_decide; simplify_eq; lia. }
  destruct Hb as [Hh Hr _ _ _ _]. destruct Hs; cbn; eauto using manager_step.
  - destruct H; left; eauto using manager_step.
  - left. apply st_guard_decrement. rewrite Hh. eauto.
  - left. apply st_guard_wake. rewrite Hr. eauto.
Qed.

Lemma own_step_keeps m m' :
  own_step m m' ->
  m'.(outstanding) = m.(outstanding) /\ m'.(releasing) = m.(releasing) /\ m'.(reporting) = m.(reporting) /\
  m'.(critical) = m.(critical) /\ (m.(fired) = true -> m'.(fired) = true).
Proof. by destruct 1. Qed.

(** What a moved entry does to the counts and to the lists of names. *)
Ltac moved :=
  match goal with
  | E : ?l !! ?i = Some _ |- context [guards_at ?g (<[?i := ?y]> ?l)] =>
      pose proof (guards_at_insert g l i _ y E); repeat case_decide; simplify_eq; lia
  | E : ?l !! ?k = Some (?n, ?from) |- context [names_at ?c (<[?k := (?n, ?to)]> ?l)] =>
      let Hn := fresh "Hn" in
      pose proof (names_at_insert c l k n from to E) as Hn; repeat case_decide; simplify_eq; cbn [app] in Hn
  end.

Lemma executor_step_books e e' : executor_step e e' -> books e -> books e'.
Proof.
  intros Hs Hb. assert (manager_ok e'.(ex_manager)) as Hok.
  { destruct (executor_step_manager e e' Hb Hs) as [Hm| ->]; [exact (manager_step_ok _ _ Hm (bk_manager _ Hb))|exact (bk_manager _ Hb)]. }
  destruct Hb as [Hh Hr Hs' Hrep Hf [_ _ Hc]]. destruct Hs; split; try exact Hok; cbn in *; try done.
  1-5: destruct (own_step_keeps _ _ H) as (E1 & E2 & E3 & E4 & E5); rewrite ?E1, ?E2, ?E3, ?E4; auto.
  all: try (rewrite ?guards_at_app, ?names_at_app; repeat case_decide; simplify_eq; rewrite ?app_nil_r; first [lia|done]).
  all: try match goal with E : reporting _ !! ?i = Some _ |- _ => unfold critical_report; rewrite E; cbn end; try done.
  all: try match goal with E : on_critical_failure ?m = Some _ |- _ =>
             unfold on_critical_failure in E; destruct (critical m) eqn:Ec; simplify_eq; cbn end; try done.
  all: try moved.
  all: try (rewrite Hn, <- ?Hs', <- ?Hrep; solve_Permutation).
  - apply (Permutation_cons_inv (a := name)). rewrite Hn, <- Hs'. symmetry. by apply delete_Permutation.
  - by rewrite <- app_assoc.
  - intros _. apply Hc. by right.
Qed.

Lemma executor_books e : rtc executor_step executor_new e -> books e.
Proof.
  intros Hr. assert (books executor_new) as H0 by (split; try done; split; cbn; intuition congruence).
  remember executor_new as e0 eqn:E. clear E. induction Hr; [done|]. eauto using executor_step_books.
Qed.

(** ** What the manager tells *)

(** A drain ends [Drained] only when every guard any graceful task was ever given is
    dropped, and [TimedOut] with the number of guards still held, whatever the tasks did
    meanwhile: spawned late, panicked, or were cancelled. *)
Theorem drain_counts_the_guards e e' o :
  rtc executor_step executor_new e -> executor_step e e' ->
  e.(ex_manager).(drain) <> DrainDone o -> e'.(ex_manager).(drain) = DrainDone o ->
  match o with
  | Drained => Held ∉ e'.(ex_guards)
  | TimedOut n => n = guards_at Held e'.(ex_guards)
  end.
Proof.
  intros Hr Hs Hd Hd'. pose proof (executor_books e Hr) as [Hh _ _ _ _ _]. destruct Hs; cbn in *; try done.
  - destruct H; cbn in *; try done; simplify_eq; [|done].
    destruct (Nat.eqb_spec (outstanding m) 0) as [H0|]; simplify_eq.
    intros [i Hi]%list_elem_of_lookup. pose proof (guards_at_insert Held _ i _ Dropped Hi) as Hg.
    rewrite decide_True in Hg by done. case_decide; [done|]. lia.
  - unfold critical_report in Hd'. by destruct (reporting (ex_manager e) !! i).
  - unfold on_critical_failure in H. destruct (critical (ex_manager e)); by simplify_eq.
Qed.

(** Every critical task whose future ended is heard of exactly once and under its own
    name: the names observed, queued and on their way are those of the tasks that ended,
    the aborted ones not among them, and when [on_critical_failure] would wait every name
    that was reported has been observed. Shutdown was signalled
    before the first name is observed. *)
Theorem critical_ends_are_heard_once e :
  rtc executor_step executor_new e ->
  (e.(ex_observed) ++ e.(ex_manager).(critical)) ++ e.(ex_manager).(reporting) ≡ₚ
    names_at Reported e.(ex_criticals) ++ names_at Signalled e.(ex_criticals) /\
  (on_critical_failure e.(ex_manager) = None -> e.(ex_observed) ≡ₚ names_at Reported e.(ex_criticals)) /\
  (e.(ex_observed) <> [] -> e.(ex_manager).(fired) = true).
Proof.
  intros Hr. destruct (executor_books e Hr) as [_ _ Hs Hrep Hf _]. split; [by rewrite Hs, Hrep|]. split; [|exact Hf].
  unfold on_critical_failure. intros Hn. destruct (critical (ex_manager e)); [|done]. by rewrite app_nil_r in Hrep.
Qed.

(** A run: a critical task ends and is heard of while a graceful one holds the drain. *)
Definition heard : Executor :=
  mkExecutor (mkManager true 1 0 false DrainWait [] []) [Held] [(chars_of "loop", Reported)] [chars_of "loop"].

Lemma heard_reached : rtc executor_step executor_new heard.
Proof.
  eapply rtc_l; [apply ex_spawn_graceful|]. eapply rtc_l; [apply (ex_spawn_critical _ (chars_of "loop"))|].
  eapply rtc_l; [by apply (ex_critical_ends _ 0 (chars_of "loop"))|].
  eapply rtc_l; [by apply (ex_critical_reports _ 0 (chars_of "loop") 0)|].
  eapply rtc_l; [by eapply ex_observe|]. eapply rtc_l; [by apply ex_own, own_start|].
  apply rtc_once. set (m := mkManager true 1 0 false DrainCheck [] []).
  exact (ex_own (mkExecutor m [Held] [(chars_of "loop", Reported)] [chars_of "loop"]) _ (own_check m eq_refl)).
Qed.

Lemma drain_counts_the_guards_witness :
  let late := on_manager (const (set_drain (DrainDone (TimedOut 1)) heard.(ex_manager))) heard in
  late.(ex_manager).(drain) = DrainDone (TimedOut 1) /\ 1 = guards_at Held late.(ex_guards).
Proof.
  intros late. split; [done|].
  exact (drain_counts_the_guards heard late (TimedOut 1) heard_reached (ex_own heard _ (own_deadline heard.(ex_manager) eq_refl)) ltac:(done) eq_refl).
Defined.

Lemma critical_ends_are_heard_once_witness :
  heard.(ex_observed) = [chars_of "loop"] /\ heard.(ex_manager).(fired) = true.
Proof.
  split; [done|]. destruct (critical_ends_are_heard_once heard heard_reached) as (_ & _ & Hf). by apply Hf.
Defined.
