(* ===== verification/ModuleEntry.v ===== *)
(** * ModuleEntry: the entry points of the example modules

    modules/examples: the lib.rs of balance-tracker, price-alert and http-probe, whose
    logic is in [GuestModules].  An instance keeps its settings in a cell that is written
    once, by [init]; a block is handled with what the cell holds, and is ignored while it
    is empty. The three share the shape, and their handlers are its instances.

    The theorem: over any calls an instance receives, the settings it runs on are those
    of the first configuration its [init] accepted, every block is handled with exactly
    these, and a block ahead of them, or after a refused configuration only, touches
    nothing. *)

From stdpp Require Import prelude list gmap strings.
From Stdlib Require Import ZArith Lia.
From S2P Require Import Prelude HostStore ChainHost Toml GuestConfig GuestModules.

Local Open Scope Z_scope.

#[local] Arguments chars_of : simpl never.

(** ** A cell and a host *)

(** An instance of a module: its [OnceLock], and the host it calls. *)
Record Running (S H : Type) : Type := mkRunning { cell : option S; host : H }.
Arguments mkRunning {S H}.
Arguments cell {S H}.
Arguments host {S H}.

(** [OnceLock::set], whose refusal the modules discard. *)
Definition once_set {S} (v : S) (c : option S) : option S := match c with None => Some v | Some w => Some w end.

(** What a module logs: the line of its [init], or an event of its logic. *)
Inductive Line (E : Type) : Type :=
| Announced (message : text)
| Logged (event : E).
Arguments Announced {E}.
Arguments Logged {E}.

Section Entry.
Context {S H B E : Type}.
Context (parse : list (text * text) -> result S Fault) (announce : S -> text).
Context (logic : B -> S -> H -> result unit Fault * H * list E).

Definition entry_init (config : list (text * text)) (m : Running S H) : result unit Fault * Running S H * list (Line E) :=
  match parse config with
  | Err e => (Err e, m, [])
  | Ok cfg => (Ok tt, mkRunning (once_set cfg m.(cell)) m.(host), [Announced (announce cfg)])
  end.

Definition entry_on_block (block : B) (m : Running S H) : result unit Fault * Running S H * list (Line E) :=
  match m.(cell) with
  | None => (Ok tt, m, [])
  | Some cfg => let '(r, h, evs) := logic block cfg m.(host) in (r, mkRunning m.(cell) h, Logged <$> evs)
  end.

(** ** Any calls *)

Inductive Call : Type := CallInit (config : list (text * text)) | CallBlock (block : B).

Definition call (c : Call) (m : Running S H) : result unit Fault * Running S H * list (Line E) :=
  match c with CallInit config => entry_init config m | CallBlock block => entry_on_block block m end.

Fixpoint calls (cs : list Call) (m : Running S H) : Running S H * list (Line E) :=
  match cs with
  | [] => (m, [])
  | c :: cs => let '(_, m, lines) := call c m in let (m, rest) := calls cs m in (m, lines ++ rest)
  end.

(** The settings a sequence of calls starts the module on. *)
Definition accepted (c : Call) : option S :=
  match c with CallInit config => match parse config with Ok cfg => Some cfg | Err _ => None end | CallBlock _ => None end.

Lemma accepted_cons c cs :
  omap accepted (c :: cs) = match accepted c with Some cfg => cfg :: omap accepted cs | None => omap accepted cs end.
Proof. done. Qed.

(** The logic alone, over the blocks of the calls. *)
Fixpoint served (cfg : S) (cs : list Call) (h : H) : H * list E :=
  match cs with
  | [] => (h, [])
  | CallInit _ :: cs => served cfg cs h
  | CallBlock block :: cs =>
      let '(_, h, evs) := logic block cfg h in let (h, rest) := served cfg cs h in (h, evs ++ rest)
  end.

Definition event_of (l : Line E) : option E := match l with Announced _ => None | Logged e => Some e end.

(** From a cell that is written, every block is served from it. *)
Lemma calls_serve cfg cs h :
  let (m', lines) := calls cs (mkRunning (Some cfg) h) in
  m'.(cell) = Some cfg /\ (m'.(host), omap event_of lines) = served cfg cs h.
Proof.
  revert h. induction cs as [|[config|block] cs IH]; intros h; cbn [calls call served]; [done| |].
  - unfold entry_init. destruct (parse config); cbn [once_set cell host].
    all: specialize (IH h); destruct (calls cs _) as [m' rest]; destruct IH as [Hc Hs]; split; [exact Hc|].
    all: by rewrite omap_app.
  - unfold entry_on_block. cbn [cell host]. destruct (logic block cfg h) as [[r h1] evs]. specialize (IH h1).
    destruct (calls cs _) as [m' rest], (served cfg cs h1) as [h2 es]. destruct IH as [Hc [= <- <-]].
    split; [exact Hc|]. rewrite omap_app. do 2 f_equal. clear. induction evs; cbn; by f_equal.
Qed.

(** The calls of a fresh instance: nothing happens until a configuration is accepted, and
    from then on the blocks are served with it, whatever [init] is given again. *)
Theorem blocks_run_on_the_first_settings (cs : list Call) (h : H) :
  let (m', lines) := calls cs (mkRunning None h) in
  m'.(cell) = head (omap accepted cs) /\
  match head (omap accepted cs) with
  | None => m'.(host) = h /\ lines = []
  | Some cfg =>
      exists before config after, cs = before ++ CallInit config :: after /\ parse config = Ok cfg /\ omap accepted before = [] /\
        (m'.(host), omap event_of lines) = served cfg after h
  end.
Proof.
  induction cs as [|[config|block] cs IH]; rewrite ?accepted_cons; cbn [calls call accepted]; [done| |].
  - unfold entry_init. destruct (parse config) as [cfg|e] eqn:Ep; cbn [once_set cell host head].
    + clear IH. pose proof (calls_serve cfg cs h) as Hs. destruct (calls cs _) as [m' rest]. destruct Hs as [Hc Hs].
      split; [exact Hc|]. exists [], config, cs. split_and!; [done..|]. by rewrite omap_app.
    + destruct (calls cs _) as [m' rest]. destruct IH as [Hc IH]. split; [exact Hc|].
      destruct (head (omap accepted cs)) as [cfg|]; [|exact IH].
      destruct IH as (before & config' & after & -> & Hp & Hb & Hs). exists (CallInit config :: before), config', after.
      split_and!; [done..| |exact Hs]. rewrite accepted_cons. cbn [accepted]. by rewrite Ep.
  - unfold entry_on_block. cbn [cell]. destruct (calls cs _) as [m' rest]. destruct IH as [Hc IH]. split; [exact Hc|].
    destruct (head (omap accepted cs)) as [cfg|]; [|exact IH].
    destruct IH as (before & config' & after & -> & Hp & Hb & Hs). by exists (CallBlock block :: before), config', after.
Qed.
End Entry.

(** ** The three modules *)

(** The fields of [types::Block] they read. *)
Record BlockArg : Type := mkBlockArg { arg_chain_id : Z; arg_number : Z }.

Section Modules.
Context (parse_one : text -> option (list Z)) (say : ConfigError -> text) (refuse : text -> Fault) (hex_address hex : list Z -> text).
(* how the wide integers of alloy print *)
Context (show_u256 show_i256 : Z -> text).

Section Tracker.
Context {H : Type} `{KvHost H} `{!ChainCalls H} (parse_u256 : text -> option Z) (say_address : AddressParse -> text) (from_hex : text -> option Z).

Definition tracker_init : list (text * text) -> Running BalanceTracker.Settings H -> _ :=
  entry_init (E := BalanceTracker.Ev) (BalanceTracker.parse_config parse_one parse_u256 say say_address refuse) (fun cfg =>
    chars_of "balance-tracker init: " ++ decimal (Z.of_nat (length cfg.(BalanceTracker.addresses))) ++
    chars_of " addresses, threshold=" ++ show_u256 cfg.(BalanceTracker.change_threshold) ++ chars_of " wei").

Definition tracker_on_block : BlockArg -> Running BalanceTracker.Settings H -> _ :=
  entry_on_block (fun block cfg => BalanceTracker.on_block hex_address hex from_hex block.(arg_chain_id) cfg).
End Tracker.

Section Alert.
Context {H : Type} `{ChainCalls H} (json_str : text -> option text) (hex_decode : text -> option (list Z)).
Context (call_data : list Z) (decode_answer : list Z -> option Z).

(** [Debug] of a direction. *)
Definition direction_name (d : PriceAlert.Direction) : text :=
  match d with PriceAlert.Above => chars_of "Above" | PriceAlert.Below => chars_of "Below" end.

Definition alert_init : list (text * text) -> Running PriceAlert.Settings H -> _ :=
  entry_init (E := PriceAlert.Ev) (PriceAlert.parse_config parse_one say refuse) (fun cfg =>
    chars_of "price-alert init: oracle=" ++ hex_address cfg.(PriceAlert.oracle_address) ++
    chars_of " threshold=" ++ show_i256 cfg.(PriceAlert.threshold_scaled) ++
    chars_of " direction=" ++ direction_name cfg.(PriceAlert.direction) ++
    chars_of " every_n_blocks=" ++ decimal cfg.(PriceAlert.every_n_blocks)).

Definition alert_on_block : BlockArg -> Running PriceAlert.Settings H -> _ :=
  entry_on_block (fun block cfg =>
    PriceAlert.on_block hex_address hex json_str hex_decode call_data decode_answer block.(arg_chain_id) cfg block.(arg_number)).
End Alert.

Section Probe.
Context {H Request : Type} (fetch_with : Request -> FetchOptions -> H -> result Response FetchError * H).
Context (build_get : text -> option Request) (say_fetch : FetchError -> text).

Definition probe_init : list (text * text) -> Running HttpProbe.Settings H -> _ :=
  entry_init (E := HttpProbe.Ev) (HttpProbe.parse_config refuse say) (fun cfg =>
    chars_of "http-probe init: probe_url=" ++ cfg.(HttpProbe.probe_url) ++ chars_of " denied_url=" ++ cfg.(HttpProbe.denied_url) ++
    chars_of " every_n_blocks=" ++ decimal cfg.(HttpProbe.every_n_blocks)).

Definition probe_on_block : BlockArg -> Running HttpProbe.Settings H -> _ :=
  entry_on_block (fun block cfg => HttpProbe.on_block fetch_with build_get say_fetch refuse cfg block.(arg_number)).
End Probe.
End Modules.
